(* ===== verification/_CoqProject ===== *)
-Q . S2P
Prelude.v
HostMem.v
Types.v
Region.v
Memory.v
MemoryEvict.v
MemoryInv.v
MemoryCopy.v
MemoryPut.v
MemoryPutOps.v
MemoryOps.v
MemoryProps.v
MemoryTheorems.v
Spec.v
MemorySpec.v
Store.v
MemoryAccess.v
StoreTheorems.v
Pinned.v
RegMap.v
Session.v
RcBackend.v
RcBatch.v
Worker.v
Handshake.v
HandshakeInv.v
HandshakeShape.v
HandshakeTheorems.v
Engine.v
EngineRegister.v
EngineTransfer.v
RdmaData.v
Text.v
Display.v
Numa.v
Topology.v
RdmaTopo.v
TopoSummary.v
SplitMix.v
BenchBlocks.v
Floats.v
BenchStats.v
CpuBench.v
CpuBenchRun.v
Runtime.v
Cuda.v
GpuBench.v
GpuBenchRun.v
GpuBenchMain.v
WeightsFanout.v
FanOut.v
LocalCopy.v
Local.v
LocalInv.v
LocalEvict.v
LocalSections.v
LocalTransfer.v
LocalSteps.v
LocalTheorems.v
LocalRun.v
LocalPut.v
LocalRoundtrip.v
LocalBuild.v
LocalAccess.v
LocalSpec.v
LocalWitness.v
LocalRefines.v
FanOutLocal.v
FanOutMain.v
LocalDefects.v
