(* ===== verification/Prelude.v ===== *)
(** * Pegastore: a verification library

    Pegastore stores immutable objects made of slots.  A slot has replicas on
    devices (NUMA DRAM, GPU memory); callers register memory, [put] slots from
    it, [get] byte ranges into it and [publish] their own memory as a replica.
    A [Store] handle checks a request against the capability of a backend and
    passes it on.  Two backends exist: an in-memory one that fixes the
    semantics, and a CUDA one with pinned pools.  An RDMA engine moves
    registered memory between machines.

    ** Parts, files and sources (under [src/crates])

    - this file: outcomes (return, panic, undefined behaviour), Rust results,
      machine integers, iterator combinators, automation, generic lemmas.
    - [HostMem]: caller memory behind raw pointers, as a map from addresses to
      bytes; an access to an unmapped address is undefined behaviour.
    - [Types], [Region]: [pegastore/src/types.rs], [error.rs], [region.rs],
      [ops.rs]: devices, specs, capabilities, errors, regions, iovs and the
      validation of operations.
    - [Memory]: [pegastore/src/services/memory.rs], every operation as a state
      transformer under its mutex.  [MemoryEvict], [MemoryInv], [MemoryCopy],
      [MemoryPut], [MemoryPutOps], [MemoryOps] hold the lemmas of eviction, the
      invariant, copies and each operation; [MemoryProps] the reachable states;
      [MemoryTheorems] the theorems on single operations.
    - [Spec]: the contract of a store, the operations of [docs/INTERFACE.md] with
      the answers the backends give, as a transition system over abstract objects,
      labelled with calls and answers; it departs from the document on a publish
      into a slot index the object does not have ([InvalidInput], not [NotFound]),
      and a parameter says whether a get checks its range or its replicas first,
      in which the backends differ.  [MemorySpec]: the abstraction of a [Memory]
      state and the simulation.
    - [Store]: [pegastore/src/store.rs], [access.rs], [layer.rs]: the handle over
      a record of backend operations and the contract [Lawful] of a backend.
      [MemoryAccess] and [LocalAccess] show that both backends keep it;
      [StoreTheorems] has the theorems on the handle: its gate, over any backend,
      and [get_many].
    - [Display]: the text forms of keys, devices and errors.
    - [Pinned]: [pegastore-cuda/src/pinned.rs], the free-list allocator.
    - [Topology]: [pegastore-cuda/src/topology.rs].  [Cuda]:
      [pegastore-cuda/src/cuda.rs], the helpers over the driver's answers.
    - [LocalCopy], [Local]: [pegastore-cuda/src/local.rs].  [LocalCopy] is
      [zip_copy]; [Local] every operation, one definition per critical section,
      the [Arc]s of replica bytes with their counts.  [LocalInv] is the ownership
      invariant and its primitives, [LocalEvict], [LocalSections],
      [LocalTransfer] the lemmas of eviction, of the other sections and of
      copies; [LocalSteps] the transition system of concurrent callers and
      [LocalTheorems] its theorems; [LocalRun] shows that an operation run alone
      is an execution of that system; [LocalPut], [LocalRoundtrip] prove put and
      get; [LocalBuild] the builder and the creation of pools; [LocalSpec] is the
      abstraction of a state between calls, with a simulation lemma per call, and
      [LocalRefines] the histories of calls and their theorems; [LocalWitness]
      holds concrete runs and [LocalDefects] the behaviours that break a promise.
    - [RegMap]: [pegastore-rdma/src/rc_backend/state.rs] ([LocalMemoryMap]).
    - [Session]: [rc_backend/session.rs], the batch loop of a session worker;
      [Worker]: the worker thread, interleaved with the holders of its session.
    - [RcBackend], [RcBatch]: [rc_backend/mod.rs], [engine.rs]: registration, NIC
      selection, and the partition of a batch into session commands.
    - [Handshake], [HandshakeInv], [HandshakeShape], [HandshakeTheorems]: the
      handshake methods of [rc_backend/mod.rs], one definition per critical
      section, and the transition system that interleaves the sections of
      concurrent callers, for any rule by which the driver numbers queue pairs
      ([HandshakeInv.numbering]).  [HandshakeShape] is the invariant that holds
      for all of them, [HandshakeInv] the one that needs numbers not reused while
      a handshake names them.
    - [Engine]: [engine.rs], the wire form of metadata and the public engine, and
      the meeting of two engines; [EngineRegister]: what registering memory does
      to an engine; [EngineTransfer]: a batch from its blocks to the sum of its
      answers, as [examples/gpu_rdma_bench.rs] drives it; [RdmaData]: what a batch
      does to memory, its operations taking effect in any order.
    - [GpuBench]: [examples/gpu_rdma_bench.rs], buffers, engines and [main];
      [GpuBenchRun], [GpuBenchMain] the proof that it ends verified.
    - [SplitMix], [BenchBlocks], [BenchStats], [CpuBench]:
      [examples/cpu_bench.rs], its random generator, its scatter lists, its sizes,
      rates, percentiles and reports, and its arguments, buffers, engine pairs and
      [main]; [CpuBenchRun] the proof that it ends.
    - [Floats]: [f64] as the standard library's [SpecFloat] at double precision,
      with parsing, rounding to integers, total order and fixed-point printing.
    - [WeightsFanout], [FanOut], [FanOutMain]:
      [pegastore-cuda/examples/weights_fanout.rs], its arguments, buffers and their
      sampling and the shard in the store; the threads of [fan_out] and the
      reports; [main].  [FanOut] states what the threads rely on as the class
      [ShardHost]; [FanOutLocal] shows that the CUDA backend provides it.
    - [Runtime]: [rc_backend/runtime.rs], the choice of port and GID.
    - [Text], [Numa], [RdmaTopo]: string functions of the standard library;
      [numa.rs]; [rdma_topo.rs].  [TopoSummary]: the reports of [rdma_topo.rs] and
      [numa.rs].

    ** How code becomes definitions

    A [u64] or [usize] is a [Z]; [u64_add] and the like panic on overflow in a
    checked build and wrap otherwise ([BuildProfile]; the theorems hold for
    both).  Indexing and [unwrap] panic, a raw access outside mapped memory is
    [Undefined]; a theorem that an operation returns excludes both.  A method on
    locked state is a function from state to state; an [async] method is its
    awaited call.  [BTreeMap] and [HashMap] are [gmap]s, with the order of a
    [BTreeMap] made explicit where it is scanned.  The CUDA driver, the verbs
    library, sysfs and external tools are arguments of the definitions that use
    them.  Numbers interpolated into messages are dropped.

    ** What is proved

    - In-memory backend: operations return on valid arguments and every branch
      is described; slots are write-once; a put can be read back; eviction takes
      the shortest FIFO prefix, only from Cache objects, and succeeds exactly
      when it can; the reachable states satisfy the invariant (specs match,
      counters are exact, evictable replicas are queued) and pools stay within
      capacity.  The queues may hold stale entries, of a removed key that was put
      again with fewer slots; a put that meets one panics.  The invariant
      [wf_at stale] has a flag for them: with [false] there are none and every
      call returns, with [true] a put returns or panics on one.  Every history of
      calls that return is one the contract of [Spec] allows, and from the
      contract: what an [Explicit] put accepted can be read until its key is
      removed.
    - Store: gating by capability, tagging of errors; both backends keep the
      contract [Lawful]; [get_many] over the in-memory backend independent of
      completion order when destinations are disjoint and sources owned.
    - Pinned pools, for buffers of at least one byte: disjoint aligned buffers,
      full coalescing, first touch of every page once.
    - CUDA backend, under any interleaving of critical sections: owned buffers
      are exclusive and reference counts exact, nothing leaks (slots of at least
      one byte), pinned bytes do not change while they can be read, and a get of
      them delivers what it looked up.
      Allocation with eviction terminates and fails only when nothing evictable
      is left; copies between all pairs of devices are exact and confined to
      their destination; a put run alone returns and can be read back; the
      builder makes well-formed backends.  Every history of calls that return is
      one the contract of [Spec] allows, the same contract as the in-memory
      backend's but for the order of the checks of a get, and what an [Explicit]
      put accepted can be read until its key is removed; a put within the guards
      (slots of at least one byte, mapped memory, a driver that accepts the
      copies) answers, or panics on a stale queue entry.
    - RDMA: registrations stay disjoint and lookups are exact; a batch is
      partitioned without loss over the right NICs and sessions, all or nothing;
      a session completes every operation within its window; under any
      interleaving and any numbering of queue pairs handshakes are exclusive per
      address and never trip an assertion; they own their pending sessions when
      no number is reused while a handshake names it; two engines connect with
      queue pairs paired by position; a worker answers every command once, in
      order, and ends when its session is dropped; a batch moves the sum of its
      descriptors' lengths and puts every byte where its descriptor says, in
      whatever order it takes effect; port, GID, NIC and CPU-list helpers.
    - Benchmarks: the generator of [cpu_bench] has full period, so its rejection
      loop ends; both benchmarks, from their arguments to the release of their
      memory, run without a failed assertion on machines that do what they are
      asked, and the GPU benchmark's comparisons succeed.  Whole sizes are read
      without rounding and the three percentiles reported are the nearest-rank
      ones, in floating point.
    - Weights example: sampling a filled buffer gives the right verdict; over any
      store that holds the shard, the threads of a fan-out end with every GPU
      served under every schedule that runs each of them often enough, and on the
      CUDA backend this holds again after the first GPU's copy is published.
    - Defects.  In general form: an abort drops another peer's session after a
      queue-pair number is reused, and two puts of the CUDA backend publish into
      one slot when the key is removed in between.  As concrete runs: a stale FIFO
      entry that panics, [Each] with a repeated device overshooting its pool, a
      zero-length buffer splitting a free list, requests left in flight by an
      aborted batch, and a failed put that frees a buffer a transfer still writes
      to.

    ** Fuel

    Loops are structural where the code consumes a list (FIFO, segments, keys,
    completions).  [Session.fill] takes the number of operations as fuel, since
    each turn posts one ([fill_spec]); [LocalCopy.zip_loop] one more than the
    number of segments, since each turn finishes a segment or the copy
    ([zip_loop_spec]); [Local.alloc_loop] one more than the queue entries, since
    each turn that goes on has consumed one ([alloc_loop_ok]);
    [LocalBuild.touch_loop] one more than the pages ([touch_loop_spec]);
    [Text.dec] 20 digits, enough for 64 bits; [BenchBlocks.pick_loop] needs at
    most [nblocks * 2 ^ 64 + 1] ([scatter_returns]), and the theorems on the
    benchmark hold for all fuel from some bound on.  Polling is a
    finite list of answers; a run that has not finished is [Spinning].  A thread of
    the weights example needs [2 * slots + 1] turns of its schedule; with fewer
    [fan_out] is [None].

    ** Not modelled

    The CUDA driver itself, [mmap] and the verbs library (parameters); transfers
    left pending by a failed copy, beyond the defect above (the transition system
    takes copies that leave nothing pending); the bytes of the wire format (an
    external serialiser, a class with its law in [Engine]); clocks, whose readings
    are inputs; [Debug] of keys, whose string escapes belong to the standard
    library's tables, and derived [Debug] output; the lines the GPU benchmark
    prints, and the progress lines of the CPU benchmark between its banner and its
    reports; log lines of the RDMA backend; the park-and-poll loops that await a
    receiver (a receiver is awaited by running its batch); the bytes that the CPU
    benchmark's transfers move (its model maps and releases buffers); memory keys
    and separate address spaces of the peers in [RdmaData]; interleavings inside a
    single call of a store for the histories of [LocalRefines] and [FanOut], whose
    steps are whole calls (the sections of concurrent calls interleave in
    [LocalSteps]); tests. *)

From Stdlib Require Export ZArith Lia.
From stdpp Require Export strings pretty prelude gmap sorting list.

#[global] Open Scope Z_scope.

(** ** Machine integers

    A Rust integer of width [w] is a [Z]; the operations below write out what
    Rust does at the boundary.  The notations document the intended width. *)

Abbreviation u8 := Z (only parsing).
Abbreviation u16 := Z (only parsing).
Abbreviation u32 := Z (only parsing).
Abbreviation u64 := Z (only parsing).
Abbreviation usize := Z (only parsing).
Abbreviation bytes := (list Z) (only parsing).

Definition U64_MAX : Z := 2 ^ 64 - 1.
Definition U32_MAX : Z := 2 ^ 32 - 1.

(** [v] is a value of type [u64]. *)
Definition is_u64 (v : Z) : Prop := 0 <= v <= U64_MAX.
#[global] Instance is_u64_dec v : Decision (is_u64 v) := _.

(** ** Panics and undefined behaviour

    [Ret a]: the code returns [a].  [Panicked]: it unwinds (index out of
    bounds, [unwrap] of [None], arithmetic overflow in a checked build).
    [Undefined]: a raw-pointer access outside mapped memory. *)

Inductive outcome (A : Type) : Type :=
| Ret (a : A)
| Panicked
| Undefined.
Arguments Ret {A} a.
Arguments Panicked {A}.
Arguments Undefined {A}.

#[global] Instance outcome_ret : MRet outcome := @Ret.
#[global] Instance outcome_bind : MBind outcome := λ A B f m,
  match m with Ret a => f a | Panicked => Panicked | Undefined => Undefined end.

(** Rust's [Result]. *)
Inductive result (E A : Type) : Type :=
| Ok (a : A)
| Err (e : E).
Arguments Ok {E A} a.
Arguments Err {E A} e.

#[global] Instance result_ret {E} : MRet (result E) := @Ok E.
#[global] Instance result_bind {E} : MBind (result E) := λ A B f m,
  match m with Ok a => f a | Err e => Err e end.

Definition is_ok {E A} (r : result E A) : bool :=
  match r with Ok _ => true | Err _ => false end.

Definition map_err {E F A} (f : E → F) (r : result E A) : result F A :=
  match r with Ok a => Ok a | Err e => Err (f e) end.

Definition ok_or {E A} (o : option A) (e : E) : result E A :=
  match o with Some a => Ok a | None => Err e end.

(** [v[i]] and [unwrap]: a missing value panics. *)
Definition unwrap {A} (o : option A) : outcome A :=
  match o with Some a => Ret a | None => Panicked end.

(** A raw access that the memory does not back is undefined behaviour. *)
Definition deref {A} (o : option A) : outcome A :=
  match o with Some a => Ret a | None => Undefined end.

(** The build profile: [true] is a debug build, where arithmetic overflow and
    a failed [debug_assert!] panic; [false] is a release build, where
    arithmetic wraps and the assertions are not compiled.  Every definition
    that does unchecked arithmetic takes it, so the theorems cover both. *)
Class BuildProfile : Type := debug_build : bool.

Section Arith.
Context `{BuildProfile}.

Definition u64_wrap (v : Z) : outcome Z :=
  if decide (is_u64 v) then Ret v
  else if debug_build then Panicked else Ret (v mod 2 ^ 64).

Definition u64_add (a b : u64) : outcome u64 := u64_wrap (a + b).
Definition u64_sub (a b : u64) : outcome u64 := u64_wrap (a - b).

Definition debug_assert (b : bool) : outcome unit :=
  if debug_build && negb b then Panicked else Ret tt.
End Arith.

Definition checked_add (a b : u64) : option u64 :=
  if decide (a + b <= U64_MAX) then Some (a + b) else None.

Definition saturating_add (a b : u64) : u64 := Z.min (a + b) U64_MAX.

Definition wrapping_add (a b : u64) : u64 := (a + b) mod 2 ^ 64.

(** ** Iterator combinators of the Rust standard library *)

(** [Iterator::take_while]. *)
Fixpoint take_while {A} (p : A → bool) (l : list A) : list A :=
  match l with
  | [] => []
  | x :: l => if p x then x :: take_while p l else []
  end.

(** [Iterator::position]: the index of the first element satisfying [p]. *)
Fixpoint position {A} (p : A → bool) (l : list A) : option nat :=
  match l with
  | [] => None
  | x :: l => if p x then Some 0%nat else S <$> position p l
  end.

(** [Iterator::min_by_key]: a minimal element, the first of several. *)
Fixpoint min_from {A} (ltb : A → A → bool) (best : A) (l : list A) : A :=
  match l with
  | [] => best
  | x :: l => min_from ltb (if ltb x best then x else best) l
  end.

Definition min_by {A} (ltb : A → A → bool) (l : list A) : option A :=
  match l with [] => None | x :: l => Some (min_from ltb x l) end.

(** The lexicographic [Ord] on byte strings ([Bytes], [&[u8]]). *)
Fixpoint bytes_leb (a b : bytes) : bool :=
  match a, b with
  | [], _ => true
  | _ :: _, [] => false
  | x :: a, y :: b => if x <? y then true else if x =? y then bytes_leb a b else false
  end.

(** [<[u8]>::starts_with]. *)
Definition starts_with (prefix k : bytes) : bool := bool_decide (prefix `prefix_of` k).

(** A loop that threads a value and may panic. *)
Fixpoint mfoldl {A B} (f : B → A → outcome B) (b : B) (l : list A) : outcome B :=
  match l with
  | [] => Ret b
  | x :: l => b ← f b x; mfoldl f b l
  end.

(** ** Sums *)

Definition zsum (l : list Z) : Z := foldr Z.add 0 l.
Arguments zsum : simpl never.

(** The sum of [f k v] over the entries of a finite map. *)
Definition map_sum `{Countable K} {V} (f : K → V → Z) (m : gmap K V) : Z :=
  map_fold (λ k v s, f k v + s) 0 m.

(** ** Automation *)

Create HintDb pegastore.
Create Rewrite HintDb pegastore.

Lemma bind_Ret_inv {A B} (f : A → outcome B) m b :
  m ≫= f = Ret b → ∃ a, m = Ret a ∧ f a = Ret b.
Proof. destruct m; naive_solver. Qed.

Lemma bind_Ok_inv {E A B} (f : A → result E B) m b :
  m ≫= f = Ok b → ∃ a, m = Ok a ∧ f a = Ok b.
Proof. destruct m; naive_solver. Qed.

(** Split every bind that is known to succeed. *)
Ltac inv_bind :=
  repeat match goal with
  | H : _ ≫= _ = Ret _ |- _ =>
      let a := fresh "a" in let Ha := fresh "Hm" in
      apply bind_Ret_inv in H as (a & Ha & H)
  | H : _ ≫= _ = Ok _ |- _ =>
      let a := fresh "a" in let Ha := fresh "Hm" in
      apply bind_Ok_inv in H as (a & Ha & H)
  | H : Ret _ = Ret _ |- _ => injection H; clear H; intros
  | H : Ok _ = Ok _ |- _ => injection H; clear H; intros
  | H : (_, _) = (_, _) |- _ => injection H; clear H; intros
  end; simplify_eq/=.

Lemma u64_wrap_id `{BuildProfile} v : is_u64 v → u64_wrap v = Ret v.
Proof. intros. unfold u64_wrap. by rewrite decide_True. Qed.

Lemma u64_add_ok `{BuildProfile} a b : is_u64 (a + b) → u64_add a b = Ret (a + b).
Proof. apply u64_wrap_id. Qed.

Lemma u64_sub_ok `{BuildProfile} a b : is_u64 (a - b) → u64_sub a b = Ret (a - b).
Proof. apply u64_wrap_id. Qed.

Lemma debug_assert_ok `{BuildProfile} b : b = true → debug_assert b = Ret tt.
Proof. intros ->. unfold debug_assert. by rewrite andb_false_r. Qed.

Lemma checked_add_Some a b c :
  checked_add a b = Some c ↔ c = a + b ∧ a + b <= U64_MAX.
Proof. unfold checked_add. case_decide; split; [intros [= <-]|..]; intuition congruence. Qed.

Lemma unwrap_Ret {A} (o : option A) a : unwrap o = Ret a ↔ o = Some a.
Proof. destruct o; naive_solver. Qed.

Lemma ok_or_Ok {E A} (o : option A) (e : E) a : ok_or o e = Ok a ↔ o = Some a.
Proof. destruct o; naive_solver. Qed.

(** *** Sums *)

Lemma zsum_nil : zsum [] = 0.
Proof. done. Qed.

Lemma zsum_cons x l : zsum (x :: l) = x + zsum l.
Proof. done. Qed.

Lemma zsum_app l1 l2 : zsum (l1 ++ l2) = zsum l1 + zsum l2.
Proof. induction l1; simpl; rewrite ?zsum_cons in *; [done|]. lia. Qed.

Lemma zsum_nonneg l : Forall (Z.le 0) l → 0 <= zsum l.
Proof. induction 1; rewrite ?zsum_cons; [done|]. lia. Qed.

Lemma zsum_fmap_le {A} (f g : A → Z) l :
  (∀ x, x ∈ l → f x <= g x) → zsum (f <$> l) <= zsum (g <$> l).
Proof.
  induction l as [|x l IH]; intros Hfg; [done|].
  rewrite !fmap_cons, !zsum_cons.
  assert (f x <= g x) by (apply Hfg; left).
  assert (zsum (f <$> l) <= zsum (g <$> l)) by (apply IH; intros; apply Hfg; by right).
  lia.
Qed.

Lemma zsum_fmap_ext {A} (f g : A → Z) l :
  (∀ x, x ∈ l → f x = g x) → zsum (f <$> l) = zsum (g <$> l).
Proof. intros Hfg. f_equal. apply list_fmap_ext. intros. apply Hfg. by eapply list_elem_of_lookup_2. Qed.

Lemma zsum_insert l i x y :
  l !! i = Some y → zsum (<[i:=x]> l) = zsum l - y + x.
Proof.
  revert i. induction l as [|z l IH]; intros [|i] Hi; simplify_eq/=.
  - rewrite !zsum_cons. lia.
  - rewrite !zsum_cons, (IH i) by done. lia.
Qed.

Lemma zsum_lookup_le l i x : Forall (Z.le 0) l → l !! i = Some x → x <= zsum l.
Proof.
  intros Hl. revert i. induction Hl as [|y l Hy Hl IH]; intros [|i] Hi; simplify_eq/=;
    rewrite zsum_cons; pose proof (zsum_nonneg l Hl); [lia|].
  apply IH in Hi. lia.
Qed.

Lemma list_alter_insert {A} (f : A → A) (l : list A) i x :
  l !! i = Some x → alter f i l = <[i := f x]> l.
Proof.
  revert i. induction l as [|y l IH]; intros [|i] Hi; simplify_eq/=; [done|].
  f_equal. by apply IH.
Qed.

Lemma zsum_fmap_alter {A} (g : A → Z) (f : A → A) l i :
  zsum (g <$> alter f i l) = zsum (g <$> l) + from_option (λ x, g (f x) - g x) 0 (l !! i).
Proof.
  revert i. induction l as [|x l IH]; intros [|i]; csimpl; rewrite ?zsum_nil, ?zsum_cons; [lia..|].
  change (list_alter f i l) with (alter f i l). rewrite IH. lia.
Qed.

Section MapSum.
Context `{Countable K} {V : Type}.
Implicit Types (f g : K → V → Z) (m : gmap K V).

Lemma map_sum_empty f : map_sum f ∅ = 0.
Proof. apply map_fold_empty. Qed.

Lemma map_sum_insert_None f m k v :
  m !! k = None → map_sum f (<[k:=v]> m) = f k v + map_sum f m.
Proof. intros. unfold map_sum. rewrite map_fold_insert_L; [done| |done]. intros. lia. Qed.

Lemma map_sum_delete f m k v :
  m !! k = Some v → map_sum f m = f k v + map_sum f (delete k m).
Proof.
  intros Hk. rewrite <- (insert_delete_id m k v) at 1 by done.
  apply map_sum_insert_None. apply lookup_delete_eq.
Qed.

Lemma map_sum_insert f m k v w :
  m !! k = Some v → map_sum f (<[k:=w]> m) = map_sum f m - f k v + f k w.
Proof.
  intros Hk. rewrite <- (insert_delete_eq m k w), map_sum_insert_None by apply lookup_delete_eq.
  rewrite (map_sum_delete f m k v) by done. lia.
Qed.

Lemma map_sum_le f g m :
  (∀ k v, m !! k = Some v → f k v <= g k v) → map_sum f m <= map_sum g m.
Proof.
  induction m as [|k v m Hk IH] using map_ind; intros Hfg.
  - by rewrite !map_sum_empty.
  - rewrite !map_sum_insert_None by done.
    assert (f k v <= g k v) by (apply Hfg; by simplify_map_eq).
    assert (map_sum f m <= map_sum g m); [|lia].
    apply IH. intros k' v' Hk'. apply Hfg. rewrite lookup_insert_ne; congruence.
Qed.

Lemma map_sum_ext f g m :
  (∀ k v, m !! k = Some v → f k v = g k v) → map_sum f m = map_sum g m.
Proof.
  intros Hfg. apply Z.le_antisymm; apply map_sum_le; intros; rewrite Hfg; (done || lia).
Qed.

Lemma map_sum_zero m : map_sum (λ _ _, 0) m = 0.
Proof.
  induction m as [|k v m Hk IH] using map_ind; [apply map_sum_empty|].
  by rewrite map_sum_insert_None, IH.
Qed.

Lemma map_sum_nonneg f m : (∀ k v, m !! k = Some v → 0 <= f k v) → 0 <= map_sum f m.
Proof. intros Hf. rewrite <- (map_sum_zero m). by apply map_sum_le. Qed.

Lemma map_sum_lookup_le f m k v :
  (∀ k v, m !! k = Some v → 0 <= f k v) → m !! k = Some v → f k v <= map_sum f m.
Proof.
  intros Hf Hk. rewrite (map_sum_delete f m k v) by done.
  assert (0 <= map_sum f (delete k m)); [|lia].
  apply map_sum_nonneg. intros k' v' [_ Hk']%lookup_delete_Some. by apply Hf.
Qed.
End MapSum.

Lemma map_sum_fmap `{Countable K} {V W} (h : V → W) (f : K → W → Z) (m : gmap K V) :
  map_sum f (h <$> m) = map_sum (λ k v, f k (h v)) m.
Proof.
  induction m as [|k v m Hk IH] using map_ind.
  - by rewrite fmap_empty, !map_sum_empty.
  - rewrite fmap_insert, !map_sum_insert_None, IH; [done|done|].
    by rewrite lookup_fmap, Hk.
Qed.

(** ** [min_by]: a minimal element, the first of them *)

Section MinBy.
Context {A : Type} (ltb : A → A → bool).
Hypothesis ltb_trans : ∀ x y z, ltb x y = true → ltb y z = true → ltb x z = true.
Hypothesis ltb_neg_trans : ∀ x y z, ltb x y = false → ltb y z = false → ltb x z = false.

Lemma min_from_spec best l :
  let m := min_from ltb best l in
  (m = best ∧ Forall (λ x, ltb x best = false) l) ∨
  (ltb m best = true ∧ ∃ l1 l2, l = l1 ++ m :: l2 ∧
    Forall (λ x, ltb m x = true) l1 ∧ Forall (λ x, ltb x m = false) l2).
Proof.
  revert best. induction l as [|x l IH]; intros best; simpl; [by left; split|].
  destruct (ltb x best) eqn:Hx.
  - destruct (IH x) as [[-> Hl]|(Hm & l1 & l2 & Hl & H1 & H2)]; right.
    + split; [done|]. exists [], l. by split_and!.
    + split; [by eapply ltb_trans|]. exists (x :: l1), l2. simpl. rewrite <- Hl. split; [done|].
      split; [by constructor|done].
  - destruct (IH best) as [[-> Hl]|(Hm & l1 & l2 & Hl & H1 & H2)]; [left|right].
    + split; [done|by constructor].
    + split; [done|]. exists (x :: l1), l2. simpl. rewrite <- Hl. split; [done|].
      split; [|done]. constructor; [|done].
      destruct (ltb (min_from ltb best l) x) eqn:Hmx; [done|].
      rewrite (ltb_neg_trans _ _ _ Hmx Hx) in Hm. done.
Qed.

Lemma min_by_spec l m :
  min_by ltb l = Some m →
  ∃ l1 l2, l = l1 ++ m :: l2 ∧
    Forall (λ x, ltb m x = true) l1 ∧ Forall (λ x, ltb x m = false) l2.
Proof.
  destruct l as [|x l]; simpl; [done|]. intros [= <-].
  destruct (min_from_spec x l) as [[-> Hl]|(Hm & l1 & l2 & Hl & H1 & H2)].
  - exists [], l. by split_and!.
  - exists (x :: l1), l2. simpl. rewrite <- Hl. split; [done|]. split; [by constructor|done].
Qed.
End MinBy.

(** ** The lexicographic order on byte strings *)

Lemma bytes_leb_cons x y a b :
  bytes_leb (x :: a) (y :: b) = true ↔ x < y ∨ x = y ∧ bytes_leb a b = true.
Proof.
  simpl. destruct (Z.ltb_spec x y), (Z.eqb_spec x y); intuition (lia || done).
Qed.

Lemma bytes_leb_trans a b c :
  bytes_leb a b = true → bytes_leb b c = true → bytes_leb a c = true.
Proof.
  revert b c. induction a as [|x a IH]; intros b c; [done|].
  destruct b as [|y b]; [done|]. destruct c as [|z c]; [done|].
  rewrite !bytes_leb_cons. intros [Hxy|[-> Hab]] [Hyz|[-> Hbc]]; [left; lia|left; lia|left; lia|].
  right. split; [done|]. by eapply IH.
Qed.

Lemma bytes_leb_total a b : bytes_leb a b = true ∨ bytes_leb b a = true.
Proof.
  revert b. induction a as [|x a IH]; intros [|y b]; [by left..|by right|].
  rewrite !bytes_leb_cons. destruct (Z.lt_total x y) as [Hx|[->|Hx]]; [by auto| |by auto].
  destruct (IH b); auto.
Qed.

Lemma prefix_leb p k : p `prefix_of` k → bytes_leb p k = true.
Proof.
  intros [l ->]. induction p as [|x p IH]; [done|]. change ((x :: p) ++ l) with (x :: (p ++ l)).
  apply bytes_leb_cons. auto.
Qed.

(** The strings with prefix [p] are an interval starting at [p]. *)
Lemma prefix_interval p a b :
  bytes_leb p a = true → bytes_leb a b = true → p `prefix_of` b → p `prefix_of` a.
Proof.
  revert a b. induction p as [|x p IH]; intros a b Hpa Hab Hpb; [by apply prefix_nil|].
  destruct a as [|y a]; [done|]. destruct b as [|z b]; [by apply prefix_nil_not in Hpb|].
  apply bytes_leb_cons in Hpa, Hab. pose proof (prefix_cons_inv_1 _ _ _ _ Hpb) as <-.
  apply prefix_cons_inv_2 in Hpb.
  destruct Hpa as [?|[-> Hpa]], Hab as [?|[Hyx Hab]]; try lia. subst.
  apply prefix_cons. by eapply IH.
Qed.

#[global] Instance bytes_leb_dec : RelDecision (λ a b, Is_true (bytes_leb a b)).
Proof. intros a b. apply _. Defined.

#[global] Instance bytes_leb_Transitive : Transitive (λ a b, Is_true (bytes_leb a b)).
Proof. intros a b c. rewrite !Is_true_true. apply bytes_leb_trans. Qed.

#[global] Instance bytes_leb_Total : Total (λ a b, Is_true (bytes_leb a b)).
Proof. intros a b. rewrite !Is_true_true. apply bytes_leb_total. Qed.

(** On a list where, once [p] fails, it fails for good, [take_while] is [filter]. *)
Lemma take_while_filter {A} (p : A → bool) l :
  StronglySorted (λ a b, p b = true → p a = true) l → take_while p l = List.filter p l.
Proof.
  induction 1 as [|x l Hl IH Hx]; [done|]. simpl. destruct (p x) eqn:Hp; [by rewrite IH|].
  symmetry. clear IH Hl. induction Hx as [|y l Hy Hx IH]; [done|]. simpl.
  destruct (p y); [|done]. by specialize (Hy eq_refl).
Qed.
