(* ===== verification/HostMem.v ===== *)
(** * Host memory behind raw pointers

    The backends read and write caller memory through raw pointers.  [heap]
    maps an address to its byte; an address that is not mapped has none, and
    accessing it is undefined behaviour ([deref] gives [Undefined]).  This is
    the semantics of [slice::from_raw_parts] and
    [ptr::copy_nonoverlapping] that the modelled code relies on. *)

From S2P Require Import Prelude.

Abbreviation heap := (gmap Z Z).

(** The [n] bytes at [a]. *)
Fixpoint load (h : heap) (a : Z) (n : nat) : option bytes :=
  match n with
  | O => Some []
  | S n => b ← h !! a; bs ← load h (a + 1) n; Some (b :: bs)
  end.

(** Overwrite the bytes at [a]. *)
Fixpoint store (h : heap) (a : Z) (bs : bytes) : option heap :=
  match bs with
  | [] => Some h
  | b :: bs => _ ← h !! a; store (<[a := b]> h) (a + 1) bs
  end.

(** [[a, a + n)] is mapped. *)
Definition mapped (h : heap) (a n : Z) : Prop :=
  ∀ i, a <= i < a + n → is_Some (h !! i).

Lemma mapped_sub h a n b m : mapped h a n → a <= b → b + m <= a + n → mapped h b m.
Proof. intros Hm ?? i ?. apply Hm. lia. Qed.

Lemma load_length h a n bs : load h a n = Some bs → length bs = n.
Proof.
  revert a bs. induction n as [|n IH]; intros a bs Hl; simplify_option_eq; [done|].
  simpl. f_equal. by eapply IH.
Qed.

Lemma load_mapped h a n : mapped h a (Z.of_nat n) → is_Some (load h a n).
Proof.
  revert a. induction n as [|n IH]; intros a Hm; simpl; [eauto|].
  destruct (Hm a ltac:(lia)) as [b ->]. simpl.
  destruct (IH (a + 1)) as [bs ->]; [|simpl; eauto].
  eapply mapped_sub; [done|lia..].
Qed.

Lemma load_lookup h a n bs i :
  load h a n = Some bs → (i < n)%nat → bs !! i = h !! (a + Z.of_nat i).
Proof.
  revert a bs i. induction n as [|n IH]; intros a bs i Hl Hi; [lia|].
  simplify_option_eq. destruct i as [|i]; simpl.
  - by rewrite Z.add_0_r.
  - rewrite (IH (a + 1)); [|done|lia]. f_equal. lia.
Qed.

Lemma load_ext h h' a n :
  (∀ i, a <= i < a + Z.of_nat n → h' !! i = h !! i) → load h' a n = load h a n.
Proof.
  revert a. induction n as [|n IH]; intros a Hext; simpl; [done|].
  rewrite Hext by lia. destruct (h !! a); simpl; [|done].
  rewrite IH; [done|]. intros. apply Hext. lia.
Qed.

Lemma load_app h a n m bs cs :
  load h a n = Some bs → load h (a + Z.of_nat n) m = Some cs →
  load h a (n + m) = Some (bs ++ cs).
Proof.
  revert a bs. induction n as [|n IH]; intros a bs Hb Hc; simplify_option_eq.
  - by rewrite Z.add_0_r in Hc.
  - replace (a + Z.of_nat (S n)) with (a + 1 + Z.of_nat n) in Hc by lia.
    by erewrite IH.
Qed.

Lemma store_mapped h a bs : mapped h a (Z.of_nat (length bs)) → is_Some (store h a bs).
Proof.
  revert h a. induction bs as [|b bs IH]; intros h a Hm; simpl; [eauto|].
  simpl in Hm. destruct (Hm a ltac:(lia)) as [c ->]. apply IH.
  intros i Hi. destruct (decide (i = a)) as [->|]; [rewrite lookup_insert_eq; eauto|].
  rewrite lookup_insert_ne by done. apply Hm. lia.
Qed.

(** Outside the written range the heap is unchanged. *)
Lemma store_lookup_ne h h' a bs i :
  store h a bs = Some h' → ¬ (a <= i < a + Z.of_nat (length bs)) → h' !! i = h !! i.
Proof.
  revert h a. induction bs as [|b bs IH]; intros h a Hs Hi; simplify_option_eq; [done|].
  simpl in Hi. rewrite (IH _ _ Hs) by lia. apply lookup_insert_ne. lia.
Qed.

Lemma store_lookup h h' a bs (i : nat) b :
  store h a bs = Some h' → bs !! i = Some b → h' !! (a + Z.of_nat i) = Some b.
Proof.
  revert h a i. induction bs as [|c bs IH]; intros h a i Hs Hi; [done|].
  simplify_option_eq. destruct i as [|i]; simplify_eq/=.
  - rewrite Z.add_0_r. erewrite store_lookup_ne; [|done|lia]. apply lookup_insert_eq.
  - replace (a + Z.of_nat (S i)) with (a + 1 + Z.of_nat i) by lia. by eapply IH.
Qed.

(** No address becomes mapped or unmapped. *)
Lemma store_dom h h' a bs i : store h a bs = Some h' → is_Some (h' !! i) ↔ is_Some (h !! i).
Proof.
  revert h a. induction bs as [|b bs IH]; intros h a Hs; simplify_option_eq; [done|].
  rewrite (IH _ _ Hs). destruct (decide (i = a)) as [->|]; [|by rewrite lookup_insert_ne].
  rewrite lookup_insert_eq. split; eauto.
Qed.

Lemma store_mapped_iff h h' a bs b n : store h a bs = Some h' → mapped h' b n ↔ mapped h b n.
Proof.
  intros Hs. unfold mapped. split; intros Hm i Hi; [rewrite <- (store_dom _ _ _ _ _ Hs)|rewrite (store_dom _ _ _ _ _ Hs)]; auto.
Qed.

(** A load sees exactly what the last store to its range wrote. *)
Lemma load_store_eq h h' a bs : store h a bs = Some h' → load h' a (length bs) = Some bs.
Proof.
  revert h a. induction bs as [|b bs IH]; intros h a Hs; simplify_option_eq; [done|].
  simpl. rewrite (IH _ _ Hs).
  by rewrite (store_lookup_ne _ _ _ _ _ Hs), lookup_insert_eq by lia.
Qed.

Lemma load_store_ne h h' a bs b n :
  store h a bs = Some h' →
  a + Z.of_nat (length bs) <= b ∨ b + Z.of_nat n <= a →
  load h' b n = load h b n.
Proof.
  intros Hs Hd. apply load_ext. intros i Hi. eapply store_lookup_ne; [done|lia].
Qed.

(** [mapped] is decided by trying the load. *)
Lemma mapped_load_iff h a n : mapped h a n ↔ is_Some (load h a (Z.to_nat n)).
Proof.
  split.
  - intros Hm. apply load_mapped. intros i Hi. apply Hm. lia.
  - intros [bs Hl] i Hi. rewrite <- (Z.sub_add a i), Z.add_comm.
    replace (i - a) with (Z.of_nat (Z.to_nat (i - a))) by lia.
    rewrite <- (load_lookup _ _ _ _ _ Hl) by lia. apply lookup_lt_is_Some.
    rewrite (load_length _ _ _ _ Hl). lia.
Qed.

#[global] Instance mapped_dec h a n : Decision (mapped h a n).
Proof. refine (cast_if (decide (is_Some (load h a (Z.to_nat n))))); by rewrite mapped_load_iff. Defined.
