(* ===== verification/Types.v ===== *)
(** * Core vocabulary: [crates/pegastore/src/types.rs] and [error.rs]

    Keys, devices, placement, retention, specs, capability, and the error type
    with its retryability status.  Rust's [derive(PartialEq, Eq, Hash, Ord)] is
    [EqDecision]/[Countable] and, where the code sorts, a comparison. *)

From S2P Require Import Prelude.

(** ** Devices and tiers *)

Inductive Device : Type :=
| Cpu (numa : u16)
| Gpu (index : u16).

#[global] Instance Device_eq_dec : EqDecision Device.
Proof. solve_decision. Defined.

#[global] Instance Device_countable : Countable Device.
Proof.
  refine (inj_countable'
            (λ d, match d with Cpu n => inl n | Gpu i => inr i end)
            (λ s, match s with inl n => Cpu n | inr i => Gpu i end) _).
  by intros [].
Defined.

Definition is_gpu (d : Device) : bool :=
  match d with Gpu _ => true | Cpu _ => false end.

(** The derived [Ord]: every [Cpu] before every [Gpu], then by number. *)
Definition device_leb (a b : Device) : bool :=
  match a, b with
  | Cpu x, Cpu y => x <=? y
  | Cpu _, Gpu _ => true
  | Gpu _, Cpu _ => false
  | Gpu x, Gpu y => x <=? y
  end.

Inductive Tier : Type := Dram | Ssd | External.

#[global] Instance Tier_eq_dec : EqDecision Tier.
Proof. solve_decision. Defined.

(** [NodeId] and [SlotIdx] are one-field structs around an integer. *)
Record Location : Type := mkLocation {
  loc_node : u64;
  loc_device : Device;
  loc_tier : Tier;
}.

#[global] Instance Location_eq_dec : EqDecision Location.
Proof. solve_decision. Defined.

(** ** Placement, retention and specs *)

Inductive Placement : Type :=
| Strict (d : Device)
| Prefer (d : Device)
| Each (ds : list Device)
| Anywhere.

#[global] Instance Placement_eq_dec : EqDecision Placement.
Proof. solve_decision. Defined.

Inductive Retention : Type := Cache | Explicit.

#[global] Instance Retention_eq_dec : EqDecision Retention.
Proof. solve_decision. Defined.

Record SlotSpec : Type := mkSlotSpec {
  spec_len : u64;
  spec_placement : Placement;
}.

#[global] Instance SlotSpec_eq_dec : EqDecision SlotSpec.
Proof. solve_decision. Defined.

Record ObjectSpec : Type := mkObjectSpec {
  spec_retention : Retention;
  spec_slots : list SlotSpec;
}.

#[global] Instance ObjectSpec_eq_dec : EqDecision ObjectSpec.
Proof. solve_decision. Defined.

(** ** Metadata returned by [stat] *)

Record Replica : Type := mkReplica {
  rep_location : Location;
  rep_misplaced : bool;
}.

Record SlotInfo : Type := mkSlotInfo {
  si_len : u64;
  si_replicas : list Replica;
}.

Definition is_resident (s : SlotInfo) : bool :=
  match si_replicas s with [] => false | _ :: _ => true end.

Record ObjectInfo : Type := mkObjectInfo {
  oi_retention : Retention;
  oi_slots : list SlotInfo;
}.

(** [ObjectInfo::resident_slots]: [enumerate], [filter], [map]; the index is
    cast [as u32]. *)
Definition resident_slots (o : ObjectInfo) : list u32 :=
  omap (λ '(i, s), if is_resident s then Some (Z.of_nat i mod 2 ^ 32) else None)
       (imap pair (oi_slots o)).

Definition is_fully_resident (o : ObjectInfo) : bool :=
  forallb is_resident (oi_slots o).

(** ** Capability *)

Record Capability : Type := mkCapability {
  gpu_memory : bool;
  cap_publish : bool;
  placement_strict : bool;
  placement_each : bool;
  retention_explicit : bool;
  cap_remove_prefix : bool;
  max_slot_len : option u64;
  max_slots : option u32;
  max_iov : option u32;
  max_stat_batch : option u32;
}.

Definition Capability_all : Capability :=
  mkCapability true true true true true true None None None None.

Definition Capability_none : Capability :=
  mkCapability false false false false false false None None None None.

Record AccessInfo : Type := mkAccessInfo {
  ai_name : string;
  ai_node : u64;
  ai_devices : list Device;
  ai_capability : Capability;
}.

(** ** Errors ([error.rs]) *)

Inductive ErrorKind : Type :=
| NotFound
| Evicted
| AlreadyExists
| SpecMismatch
| NoSpace
| Unsupported
| InvalidInput
| Unavailable
| Unexpected.

#[global] Instance ErrorKind_eq_dec : EqDecision ErrorKind.
Proof. solve_decision. Defined.

Inductive ErrorStatus : Type := Permanent | Temporary.

#[global] Instance ErrorStatus_eq_dec : EqDecision ErrorStatus.
Proof. solve_decision. Defined.

Definition default_status (k : ErrorKind) : ErrorStatus :=
  match k with
  | NoSpace | Unavailable => Temporary
  | _ => Permanent
  end.

Definition as_str (k : ErrorKind) : string :=
  match k with
  | NotFound => "NotFound"
  | Evicted => "Evicted"
  | AlreadyExists => "AlreadyExists"
  | SpecMismatch => "SpecMismatch"
  | NoSpace => "NoSpace"
  | Unsupported => "Unsupported"
  | InvalidInput => "InvalidInput"
  | Unavailable => "Unavailable"
  | Unexpected => "Unexpected"
  end.

(** A context value before [to_string]: the code attaches integers, devices
    and keys. *)
Inductive CtxVal : Type :=
| CInt (n : Z)
| CDevice (d : Device)
| CKey (k : bytes).

Record Error : Type := mkError {
  err_kind : ErrorKind;
  err_status : ErrorStatus;
  err_message : string;
  err_operation : option string;
  err_context : list (string * CtxVal);
}.

Abbreviation Result := (result Error).

Definition Error_new (k : ErrorKind) (message : string) : Error :=
  mkError k (default_status k) message None [].

Definition is_temporary (e : Error) : bool := bool_decide (err_status e = Temporary).

(** The first operation name sticks. *)
Definition with_operation (e : Error) (operation : string) : Error :=
  match err_operation e with
  | None => mkError (err_kind e) (err_status e) (err_message e) (Some operation) (err_context e)
  | Some _ => e
  end.

Definition with_context (e : Error) (key : string) (value : CtxVal) : Error :=
  mkError (err_kind e) (err_status e) (err_message e) (err_operation e)
          (err_context e ++ [(key, value)]).

Definition set_temporary (e : Error) : Error :=
  mkError (err_kind e) Temporary (err_message e) (err_operation e) (err_context e).

Definition set_permanent (e : Error) : Error :=
  mkError (err_kind e) Permanent (err_message e) (err_operation e) (err_context e).

(** The kind of a failed result. *)
Definition kind_of {A} (r : Result A) : option ErrorKind :=
  match r with Ok _ => None | Err e => Some (err_kind e) end.

Lemma err_kind_with_context e k v : err_kind (with_context e k v) = err_kind e.
Proof. done. Qed.

Lemma err_kind_with_operation e o : err_kind (with_operation e o) = err_kind e.
Proof. unfold with_operation. by destruct (err_operation e). Qed.

Lemma err_status_with_operation e o : err_status (with_operation e o) = err_status e.
Proof. unfold with_operation. by destruct (err_operation e). Qed.

#[export] Hint Rewrite err_kind_with_context err_kind_with_operation
  err_status_with_operation : pegastore.
