(* ===== verification/Region.v ===== *)
(** * Registered memory and operation arguments: [region.rs] and [ops.rs]

    [MemoryRegion], [Iov] and the bounds they are checked against; the [Op*]
    argument structs and their [validate] methods.  A region's backend handle
    is identified by the region id ([RegionGuard] in the backends), so it has
    no field here. *)

From S2P Require Import Prelude HostMem Types.

(** ** [region.rs] *)

Record MemoryRegion : Type := mkRegion {
  region_id : u64;
  region_addr : usize;
  region_len : u64;
  region_device : Device;
}.

(** [MemoryRegion::next_id]: [fetch_add] on the global counter, which wraps. *)
Definition next_id (counter : u64) : u64 * u64 := (counter, wrapping_add counter 1).

Definition with_id (id addr : u64) (len : u64) (d : Device) : MemoryRegion :=
  mkRegion id addr len d.

Definition region_is_empty (r : MemoryRegion) : bool := region_len r =? 0.

Record Iov : Type := mkIov {
  iov_region : MemoryRegion;
  iov_offset : u64;
  iov_len : u64;
}.

Definition iov (r : MemoryRegion) (offset len : u64) : Iov := mkIov r offset len.

Definition iov_all (r : MemoryRegion) : Iov := iov r 0 (region_len r).

Definition iov_as_ptr (v : Iov) : usize :=
  wrapping_add (region_addr (iov_region v)) (iov_offset v).

Definition iov_end (v : Iov) : u64 := saturating_add (iov_offset v) (iov_len v).

Definition in_bounds (v : Iov) : bool :=
  match checked_add (iov_offset v) (iov_len v) with
  | Some e => e <=? region_len (iov_region v)
  | None => false
  end.

Definition iov_device (v : Iov) : Device := region_device (iov_region v).

(** ** [ops.rs] *)

(** The loop of [validate_iovs]: [i] is the [enumerate] index. *)
Fixpoint validate_loop (device : Device) (i : nat) (total : u64) (iovs : list Iov) : Result u64 :=
  match iovs with
  | [] => Ok total
  | v :: iovs =>
      if negb (in_bounds v) then
        Err (with_context (with_context (with_context (with_context
               (Error_new InvalidInput "iov out of region bounds")
               "index" (CInt (Z.of_nat i))) "offset" (CInt (iov_offset v)))
               "len" (CInt (iov_len v))) "region_len" (CInt (region_len (iov_region v))))
      else if decide (iov_device v ≠ device) then
        Err (with_context (with_context (with_context
               (Error_new InvalidInput "iov list spans multiple devices")
               "index" (CInt (Z.of_nat i))) "device" (CDevice (iov_device v)))
               "expected" (CDevice device))
      else
        total ← ok_or (checked_add total (iov_len v))
                      (Error_new InvalidInput "iov total length overflows");
        validate_loop device (S i) total iovs
  end.

Definition validate_iovs (iovs : list Iov) (expect_len : option u64) : Result (Device * u64) :=
  match iovs with
  | [] => Err (Error_new InvalidInput "empty iov list")
  | first :: _ =>
      let device := iov_device first in
      total ← validate_loop device 0 0 iovs;
      match expect_len with
      | Some expect =>
          if decide (total ≠ expect) then
            Err (with_context (with_context
                   (Error_new InvalidInput "iov total length mismatch")
                   "total" (CInt total)) "expected" (CInt expect))
          else Ok (device, total)
      | None => Ok (device, total)
      end
  end.

Record PutSlot : Type := mkPutSlot {
  ps_spec : SlotSpec;
  ps_src : list Iov;
}.

Record OpPut : Type := mkOpPut {
  op_retention : Retention;
  op_slots : list PutSlot;
}.

Definition OpPut_new (slots : list PutSlot) : OpPut := mkOpPut Cache slots.

Definition with_retention (op : OpPut) (r : Retention) : OpPut := mkOpPut r (op_slots op).

Definition OpPut_spec (op : OpPut) : ObjectSpec :=
  mkObjectSpec (op_retention op) (ps_spec <$> op_slots op).

Fixpoint validate_slots (i : nat) (slots : list PutSlot) : Result unit :=
  match slots with
  | [] => Ok tt
  | s :: slots =>
      _ ← map_err (λ e, with_context e "slot" (CInt (Z.of_nat i)))
                  (validate_iovs (ps_src s) (Some (spec_len (ps_spec s))));
      validate_slots (S i) slots
  end.

Definition OpPut_validate (op : OpPut) : Result unit :=
  match op_slots op with
  | [] => Err (Error_new InvalidInput "object needs at least one slot")
  | slots => validate_slots 0 slots
  end.

(** [RpPut]: the per-slot outcomes. *)
Abbreviation RpPut := (list (Result unit)).

Definition all_ok (rp : RpPut) : bool := forallb is_ok rp.

(** [into_result]: [collect] into [Result<()>] stops at the first error. *)
Fixpoint into_result (rp : RpPut) : Result unit :=
  match rp with
  | [] => Ok tt
  | Ok _ :: rp => into_result rp
  | Err e :: _ => Err e
  end.

Record OpGet : Type := mkOpGet {
  get_slot : u32;
  get_src_offset : u64;
  get_dst : list Iov;
}.

Definition OpGet_new (slot : u32) (dst : list Iov) : OpGet := mkOpGet slot 0 dst.

Definition with_src_offset (op : OpGet) (src_offset : u64) : OpGet :=
  mkOpGet (get_slot op) src_offset (get_dst op).

Definition OpGet_validate (op : OpGet) : Result (Device * u64) := validate_iovs (get_dst op) None.

Record RpGet : Type := mkRpGet { rp_from : Location }.

Record OpPublish : Type := mkOpPublish {
  pub_slot : u32;
  pub_src : list Iov;
}.

Definition OpPublish_validate (op : OpPublish) : Result (Device * u64) :=
  validate_iovs (pub_src op) None.

(** ** Well-formed regions and iovs

    [region_valid h r] is the contract of [MemoryRegion::with_id]: the range is
    mapped and lies in the address space.  [iov_typed] says that the fields are
    values of their Rust types. *)

Definition region_valid (h : heap) (r : MemoryRegion) : Prop :=
  0 <= region_addr r ∧ is_u64 (region_len r) ∧ region_addr r + region_len r <= 2 ^ 64 ∧
  mapped h (region_addr r) (region_len r).

Definition iov_typed (v : Iov) : Prop := is_u64 (iov_offset v) ∧ is_u64 (iov_len v).

Definition iov_valid (h : heap) (v : Iov) : Prop :=
  region_valid h (iov_region v) ∧ iov_typed v.

#[global] Instance iov_valid_dec h v : Decision (iov_valid h v).
Proof. unfold iov_valid, region_valid, iov_typed. apply _. Defined.

Definition total_len (iovs : list Iov) : Z := zsum (iov_len <$> iovs).

Lemma in_bounds_spec v :
  iov_typed v → in_bounds v = true ↔
  iov_offset v + iov_len v <= U64_MAX ∧ iov_offset v + iov_len v <= region_len (iov_region v).
Proof.
  intros _. unfold in_bounds, checked_add. case_decide; rewrite ?Z.leb_le; intuition (lia || done).
Qed.

Lemma total_len_nonneg iovs : Forall iov_typed iovs → 0 <= total_len iovs.
Proof.
  intros Hi. apply zsum_nonneg, Forall_fmap.
  eapply Forall_impl; [exact Hi|]. intros v [_ [Hv _]]. exact Hv.
Qed.

Lemma validate_loop_spec d i t iovs :
  Forall iov_typed iovs →
  match validate_loop d i t iovs with
  | Ok t' =>
      Forall (λ v, in_bounds v = true ∧ iov_device v = d) iovs ∧ t' = t + total_len iovs ∧
      (t <= U64_MAX → t' <= U64_MAX)
  | Err e =>
      err_kind e = InvalidInput ∧ err_operation e = None ∧
      ¬ (Forall (λ v, in_bounds v = true ∧ iov_device v = d) iovs ∧ t + total_len iovs <= U64_MAX)
  end.
Proof.
  intros Hty. revert i t. induction Hty as [|v iovs Hv Hty IH]; intros i t; simpl.
  { unfold total_len. simpl. rewrite zsum_nil. split; [constructor|lia]. }
  pose proof (total_len_nonneg _ Hty) as Hnn.
  unfold total_len in *. rewrite fmap_cons, zsum_cons.
  destruct (in_bounds v) eqn:Hb; simpl.
  2:{ do 2 (split; [done|]). intros [Hall _]. apply Forall_cons in Hall. intuition congruence. }
  case_decide as Hd.
  { do 2 (split; [done|]). intros [Hall _]. apply Forall_cons in Hall. intuition congruence. }
  unfold checked_add. case_decide as Hov; simpl.
  2:{ do 2 (split; [done|]). intros [_ Hle]. lia. }
  specialize (IH (S i) (t + iov_len v)).
  destruct (validate_loop _ _ _ _) as [t'|e].
  - destruct IH as (Hall & -> & Hle). split; [by constructor|]. split; [lia|]. intros. lia.
  - destruct IH as (Hk & Ho & Hn). do 2 (split; [done|]). intros [Hall Hle]. apply Hn.
    apply Forall_cons in Hall. split; [tauto|]. lia.
Qed.

(** What an accepted gather/scatter list guarantees. *)
Definition iovs_ok (iovs : list Iov) (d : Device) (total : Z) (expect : option u64) : Prop :=
  iovs ≠ [] ∧ Forall (λ v, in_bounds v = true ∧ iov_device v = d) iovs ∧
  total = total_len iovs ∧ total <= U64_MAX ∧ (∀ e, expect = Some e → total = e).

Lemma validate_iovs_Ok iovs expect d total :
  Forall iov_typed iovs →
  validate_iovs iovs expect = Ok (d, total) ↔ iovs_ok iovs d total expect.
Proof.
  intros Hty. unfold validate_iovs, iovs_ok. destruct iovs as [|v iovs]; [split; [done|by intros []]|].
  pose proof (validate_loop_spec (iov_device v) 0 0 (v :: iovs) Hty) as Hs.
  destruct (validate_loop _ _ _ _) as [t|e].
  - destruct Hs as (Hall & Ht & Hle). rewrite Z.add_0_l in Ht.
    specialize (Hle ltac:(done)). subst t. split.
    + intros Hr. assert (d = iov_device v ∧ total = total_len (v :: iovs) ∧
                         ∀ e, expect = Some e → total_len (v :: iovs) = e) as (-> & -> & He).
      { destruct expect as [e|]; simpl in Hr; [case_decide as Hne; [done|]|]; simplify_eq;
          (split_and!; [done..|]); [by intros ? [= <-]|done]. }
      split_and!; [done|done|done|lia|done].
    + intros (_ & Hall' & -> & _ & He).
      apply Forall_cons in Hall' as [[_ <-] _]. simpl.
      destruct expect as [e|]; [|done]. rewrite decide_False; [done|]. rewrite (He e eq_refl). auto.
  - destruct Hs as (_ & _ & Hn). simpl. split; [done|].
    intros (_ & Hall & -> & Hle & _). exfalso. apply Hn.
    pose proof Hall as [[_ <-] _]%Forall_cons. split; [done|lia].
Qed.

Lemma validate_iovs_Err iovs expect e :
  validate_iovs iovs expect = Err e → Forall iov_typed iovs →
  err_kind e = InvalidInput ∧ err_operation e = None.
Proof.
  intros Hr Hty. unfold validate_iovs in Hr. destruct iovs as [|v iovs]; [by simplify_eq|].
  pose proof (validate_loop_spec (iov_device v) 0 0 (v :: iovs) Hty) as Hs.
  destruct (validate_loop _ _ _ _) as [t|e']; simpl in Hr.
  - destruct expect as [x|]; [case_decide|]; by simplify_eq.
  - simplify_eq. tauto.
Qed.
