(* ===== verification/Memory.v ===== *)
(** * The [Memory] backend: [crates/pegastore/src/services/memory.rs]

    The in-process reference backend, operation by operation.  Every
    operation of the source runs under one mutex from its first access to
    [State] to its return, so each is one function from state to state; a
    panic inside one leaves the mutex poisoned, which is the [Panicked]
    outcome of the caller.  The bytes of caller memory are in [heap]. *)

From S2P Require Import Prelude HostMem Types Region.

(** ** State *)

Inductive ReplicaData : Type :=
| Owned (b : bytes)
| ExternalSegs (segs : list (usize * u64)) (region_id : u64).

Record ReplicaEntry : Type := mkReplicaEntry {
  re_device : Device;
  re_tier : Tier;
  re_misplaced : bool;
  re_data : ReplicaData;
}.

(** [struct Slot { replicas }]. *)
Abbreviation Slot := (list ReplicaEntry).

Record Object : Type := mkObject {
  obj_spec : ObjectSpec;
  obj_slots : list Slot;
}.

Record Pool : Type := mkPool {
  pool_capacity : option u64;
  pool_used : u64;
  pool_fifo : list (bytes * u32);
}.

Record State : Type := mkState {
  st_objects : gmap bytes Object;
  st_pools : gmap Device Pool;
}.

(** The immutable part of [struct Inner]. *)
Record Inner : Type := mkInner {
  in_info : AccessInfo;
  in_device_order : list Device;
  in_gpu_numa : gmap u16 u16;
}.

(** ** Builder *)

Record MemoryBuilder : Type := mkBuilder {
  b_node : u64;
  b_devices : list (Device * option u64);
  b_gpu_numa : gmap u16 u16;
  b_capability : Capability;
}.

Definition builder : MemoryBuilder := mkBuilder 0 [] ∅ Capability_all.

Definition b_device (b : MemoryBuilder) (d : Device) : MemoryBuilder :=
  mkBuilder (b_node b) (b_devices b ++ [(d, None)]) (b_gpu_numa b) (b_capability b).

Definition b_device_with_capacity (b : MemoryBuilder) (d : Device) (c : u64) : MemoryBuilder :=
  mkBuilder (b_node b) (b_devices b ++ [(d, Some c)]) (b_gpu_numa b) (b_capability b).

Definition b_gpu_affinity (b : MemoryBuilder) (gpu numa : u16) : MemoryBuilder :=
  mkBuilder (b_node b) (b_devices b) (<[gpu := numa]> (b_gpu_numa b)) (b_capability b).

Definition b_set_capability (b : MemoryBuilder) (c : Capability) : MemoryBuilder :=
  mkBuilder (b_node b) (b_devices b) (b_gpu_numa b) c.

(** [build]: collecting into the [HashMap] keeps the last entry of a device. *)
Definition build (b : MemoryBuilder) : Inner * State :=
  let devices := match b_devices b with [] => [(Cpu 0, None)] | ds => ds end in
  let info := mkAccessInfo "memory" (b_node b) (devices.*1) (b_capability b) in
  let pools := foldl (λ m '(d, cap), <[d := mkPool cap 0 []]> m) ∅ devices in
  (mkInner info (devices.*1) (b_gpu_numa b), mkState ∅ pools).

Definition used (st : State) (d : Device) : u64 :=
  match st_pools st !! d with Some p => pool_used p | None => 0 end.

(** ** [impl Inner] *)

Definition distance (inner : Inner) (a b : Device) : u32 :=
  if decide (a = b) then 0 else
  match a, b with
  | Gpu _, Gpu _ => 1
  | Cpu numa, Gpu index | Gpu index, Cpu numa =>
      match in_gpu_numa inner !! index with
      | Some n => if n =? numa then 2 else 4
      | None => 3
      end
  | Cpu _, Cpu _ => 3
  end.

Definition location (inner : Inner) (d : Device) (t : Tier) : Location :=
  mkLocation (ai_node (in_info inner)) d t.

Definition tier_rank (t : Tier) : u8 :=
  match t with Dram => 0 | External => 1 | Ssd => 2 end.

Definition published_from (region_id : u64) (r : ReplicaEntry) : bool :=
  match re_data r with
  | ExternalSegs _ id => id =? region_id
  | Owned _ => false
  end.

(** [retire_region], run by [RegionGuard::drop]. *)
Definition retire_region (st : State) (region_id : u64) : State :=
  mkState
    ((λ obj, mkObject (obj_spec obj)
               (List.filter (λ r, negb (published_from region_id r)) <$> obj_slots obj))
       <$> st_objects st)
    (st_pools st).

Section WithProfile.
Context `{BuildProfile}.

(** ** [impl State] *)

(** The closure of [slot.replicas.retain] in [make_room], with [freed]. *)
Fixpoint retain_unowned (device : Device) (freed : u64) (rs : Slot) : outcome (Slot * u64) :=
  match rs with
  | [] => Ret ([], freed)
  | r :: rs =>
      match decide (re_device r = device), re_data r with
      | left _, Owned b =>
          freed ← u64_add freed (Z.of_nat (length b));
          retain_unowned device freed rs
      | _, _ =>
          '(kept, freed) ← retain_unowned device freed rs;
          Ret (r :: kept, freed)
      end
  end.

(** The [while] loop of [make_room].  Each iteration pops the front of the
    FIFO, so it is structural on [fifo]; [used] and [fifo] are the fields of
    [pools[device]].  Result: (objects, used, fifo, deferred). *)
Fixpoint make_room_loop (device : Device) (cap need : u64) (protect : bytes)
    (fifo : list (bytes * u32)) (objects : gmap bytes Object) (used : u64)
    (deferred : list (bytes * u32))
    : outcome (gmap bytes Object * u64 * list (bytes * u32) * list (bytes * u32)) :=
  sum ← u64_add used need;
  if sum <=? cap then Ret (objects, used, fifo, deferred) else
  match fifo with
  | [] => Ret (objects, used, [], deferred)
  | (key, slot_idx) :: fifo =>
      if decide (key = protect) then
        make_room_loop device cap need protect fifo objects used (deferred ++ [(key, slot_idx)])
      else
        match objects !! key with
        | None => make_room_loop device cap need protect fifo objects used deferred
        | Some obj =>
            if decide (spec_retention (obj_spec obj) ≠ Cache) then
              make_room_loop device cap need protect fifo objects used deferred
            else
              slot ← unwrap (obj_slots obj !! Z.to_nat slot_idx);
              '(kept, freed) ← retain_unowned device 0 slot;
              used ← u64_sub used freed;
              let obj := mkObject (obj_spec obj) (<[Z.to_nat slot_idx := kept]> (obj_slots obj)) in
              let objects :=
                if forallb (λ s, bool_decide (s = [] :> Slot)) (obj_slots obj)
                then delete key objects else <[key := obj]> objects in
              make_room_loop device cap need protect fifo objects used deferred
        end
  end.

Definition make_room (st : State) (device : Device) (need : u64) (protect : bytes)
    : outcome (State * bool) :=
  pool ← unwrap (st_pools st !! device);
  match pool_capacity pool with
  | None => Ret (st, true)
  | Some cap =>
      if cap <? need then Ret (st, false) else
      '(objects, used, fifo, deferred) ←
        make_room_loop device cap need protect (pool_fifo pool) (st_objects st) (pool_used pool) [];
      (* deferred.into_iter().rev(): push_front each *)
      let fifo := foldl (λ q e, e :: q) fifo (reverse deferred) in
      let pool := mkPool (pool_capacity pool) used fifo in
      sum ← u64_add used need;
      Ret (mkState objects (<[device := pool]> (st_pools st)), sum <=? cap)
  end.

Definition charge (st : State) (device : Device) (key : bytes) (slot : u32) (len : u64)
    : outcome State :=
  pool ← unwrap (st_pools st !! device);
  used ← u64_add (pool_used pool) len;
  let pool := mkPool (pool_capacity pool) used (pool_fifo pool ++ [(key, slot)]) in
  Ret (mkState (st_objects st) (<[device := pool]> (st_pools st))).

Definition release_replica (pools : gmap Device Pool) (r : ReplicaEntry)
    : outcome (gmap Device Pool) :=
  match re_data r, pools !! re_device r with
  | Owned b, Some pool =>
      used ← u64_sub (pool_used pool) (Z.of_nat (length b));
      Ret (<[re_device r := mkPool (pool_capacity pool) used (pool_fifo pool)]> pools)
  | _, _ => Ret pools
  end.

Definition release_object (st : State) (obj : Object) : outcome State :=
  pools ← mfoldl (mfoldl release_replica) (st_pools st) (obj_slots obj);
  Ret (mkState (st_objects st) pools).

(** ** Copies between caller memory and byte vectors *)

Definition gather (h : heap) (iovs : list Iov) : outcome bytes :=
  _ ← mfoldl u64_add 0 (iov_len <$> iovs);
  mfoldl (λ out v,
            bs ← deref (load h (iov_as_ptr v) (Z.to_nat (iov_len v)));
            Ret (out ++ bs)) [] iovs.

(** [&b[start..end]]. *)
Definition slice (b : bytes) (start stop : usize) : outcome bytes :=
  if decide (start <= stop <= Z.of_nat (length b))
  then Ret (take (Z.to_nat (stop - start)) (drop (Z.to_nat start) b))
  else Panicked.

Fixpoint scatter_from (h : heap) (src : bytes) (off : usize) (iovs : list Iov) : outcome heap :=
  match iovs with
  | [] => Ret h
  | v :: iovs =>
      let n := iov_len v in
      stop ← u64_add off n;
      chunk ← slice src off stop;
      h ← deref (store h (iov_as_ptr v) chunk);
      off ← u64_add off n;
      scatter_from h src off iovs
  end.

Definition scatter (h : heap) (src : bytes) (iovs : list Iov) : outcome heap :=
  scatter_from h src 0 iovs.

(** ** [impl ReplicaData] *)

Definition data_len (d : ReplicaData) : outcome u64 :=
  match d with
  | Owned b => Ret (Z.of_nat (length b))
  | ExternalSegs segs _ => mfoldl u64_add 0 (segs.*2)
  end.

Fixpoint read_segs (h : heap) (segs : list (usize * u64)) (skip want : u64) (out : bytes)
    : outcome bytes :=
  match segs with
  | [] => Ret out
  | (addr, seg_len) :: segs =>
      if want =? 0 then Ret out
      else if seg_len <=? skip then read_segs h segs (skip - seg_len) want out
      else
        let n := Z.min (seg_len - skip) want in
        a ← u64_add addr skip;
        s ← deref (load h a (Z.to_nat n));
        read_segs h segs 0 (want - n) (out ++ s)
  end.

Definition read (h : heap) (d : ReplicaData) (offset len : u64) : outcome bytes :=
  match d with
  | Owned b => stop ← u64_add offset len; slice b offset stop
  | ExternalSegs segs _ => read_segs h segs offset len []
  end.
End WithProfile.

Definition unknown_device (d : Device) : Error :=
  with_context (Error_new InvalidInput "device not served by this backend") "device" (CDevice d).

(** ** [impl Access for Memory] *)

(** [register]: the region id is drawn from the global counter. *)
Definition register (inner : Inner) (counter : u64) (ptr : usize) (len : u64) (d : Device)
    : Result MemoryRegion * u64 :=
  if is_gpu d && negb (gpu_memory (ai_capability (in_info inner)))
  then (Err (Error_new Unsupported "gpu memory disabled"), counter)
  else let '(id, counter) := next_id counter in (Ok (with_id id ptr len d), counter).

(** The candidate devices of a placement, with their [misplaced] flag. *)
Definition candidates (inner : Inner) (p : Placement) : list (Device * bool) :=
  match p with
  | Strict d => [(d, false)]
  | Prefer d =>
      (d, false) :: ((λ x, (x, true)) <$> filter (λ x, x ≠ d) (in_device_order inner))
  | Each ds => (λ d, (d, false)) <$> ds
  | Anywhere => (λ d, (d, false)) <$> in_device_order inner
  end.

Definition is_each (p : Placement) : bool := match p with Each _ => true | _ => false end.

Definition no_fit (d : Device) (len : u64) : Error :=
  with_context (with_context (Error_new NoSpace "pool cannot fit slot") "device" (CDevice d))
               "len" (CInt len).

Section WithProfileOps.
Context `{BuildProfile}.

(** The loop over [candidates] in [put]: (state, targets, err). *)
Fixpoint try_candidates (each : bool) (len : u64) (kb : bytes) (st : State)
    (cs : list (Device * bool)) (targets : list (Device * bool)) (err : option Error)
    : outcome (State * list (Device * bool) * option Error) :=
  match cs with
  | [] => Ret (st, targets, err)
  | (d, misplaced) :: cs =>
      match st_pools st !! d with
      | None =>
          let err := Some (unknown_device d) in
          if each then Ret (st, targets, err)
          else try_candidates each len kb st cs targets err
      | Some _ =>
          '(st, fits) ← make_room st d len kb;
          if fits : bool then
            let targets := targets ++ [(d, misplaced)] in
            if each then try_candidates each len kb st cs targets err
            else Ret (st, targets, err)
          else
            let err := Some (no_fit d len) in
            if each then Ret (st, targets, err)
            else try_candidates each len kb st cs targets err
      end
  end.

(** The loop body of phase 2 for a writable slot [i]. *)
Definition put_slot (inner : Inner) (h : heap) (kb : bytes) (st : State) (i : nat) (ps : PutSlot)
    : outcome (State * Result unit) :=
  let len := spec_len (ps_spec ps) in
  let placement := spec_placement (ps_spec ps) in
  let each := is_each placement in
  '(st, targets, err) ← try_candidates each len kb st (candidates inner placement) [] None;
  let none_placed := bool_decide (targets = []) in
  let ok := if each then bool_decide (err = None) && negb none_placed else negb none_placed in
  if negb ok then
    Ret (st, Err (with_context (default (Error_new NoSpace "no device available") err)
                               "slot" (CInt (Z.of_nat i))))
  else
    bytes ← gather h (ps_src ps);
    obj ← unwrap (st_objects st !! kb);
    slot ← unwrap (obj_slots obj !! i);
    let new := (λ '(d, misplaced), mkReplicaEntry d Dram misplaced (Owned bytes)) <$> targets in
    let obj := mkObject (obj_spec obj) (<[i := slot ++ new]> (obj_slots obj)) in
    let st := mkState (<[kb := obj]> (st_objects st)) (st_pools st) in
    st ← mfoldl (λ st t, charge st (fst t) kb (Z.of_nat i mod 2 ^ 32) len) st targets;
    Ret (st, Ok tt).

(** Phase 2 of [put]; [i] is the [enumerate] index. *)
Fixpoint put_slots (inner : Inner) (h : heap) (kb : bytes) (writable : list bool)
    (st : State) (i : nat) (slots : list PutSlot) (results : RpPut) : outcome (State * RpPut) :=
  match slots with
  | [] => Ret (st, results)
  | ps :: slots =>
      w ← unwrap (writable !! i);
      if negb w then
        put_slots inner h kb writable st (S i) slots
          (results ++ [Err (with_context (Error_new AlreadyExists "slot already written")
                                         "slot" (CInt (Z.of_nat i)))])
      else
        '(st, r) ← put_slot inner h kb st i ps;
        put_slots inner h kb writable st (S i) slots (results ++ [r])
  end.

Definition slot_empty (s : Slot) : bool := match s with [] => true | _ => false end.

(** Phase 1 of [put]: reserve the key, decide which slots are writable. *)
Definition reserve (st : State) (kb : bytes) (spec : ObjectSpec) : Result (State * list bool) :=
  match st_objects st !! kb with
  | Some obj =>
      if decide (obj_spec obj ≠ spec)
      then Err (with_context (Error_new SpecMismatch "existing object has a different spec")
                             "key" (CKey kb))
      else Ok (st, slot_empty <$> obj_slots obj)
  | None =>
      let n := length (spec_slots spec) in
      Ok (mkState (<[kb := mkObject spec (replicate n [])]> (st_objects st)) (st_pools st),
          replicate n true)
  end.

Definition put (inner : Inner) (h : heap) (st : State) (key : bytes) (op : OpPut)
    : outcome (State * Result RpPut) :=
  match OpPut_validate op with
  | Err e => Ret (st, Err e)
  | Ok _ =>
      match reserve st key (OpPut_spec op) with
      | Err e => Ret (st, Err e)
      | Ok (st, writable) =>
          '(st, results) ← put_slots inner h key writable st 0 (op_slots op) [];
          Ret (st, Ok results)
      end
  end.

Definition no_such_key (key : bytes) : Error :=
  with_context (Error_new NotFound "no such key") "key" (CKey key).

Definition slot_out_of_range (idx : Z) : Error :=
  with_context (Error_new InvalidInput "slot index out of range") "slot" (CInt idx).

Definition publish (st : State) (key : bytes) (op : OpPublish) : outcome (State * Result unit) :=
  match OpPublish_validate op with
  | Err e => Ret (st, Err e)
  | Ok (device, total) =>
      match st_objects st !! key with
      | None => Ret (st, Err (no_such_key key))
      | Some obj =>
          let idx := Z.to_nat (pub_slot op) in
          match spec_slots (obj_spec obj) !! idx with
          | None => Ret (st, Err (slot_out_of_range (pub_slot op)))
          | Some spec =>
              if decide (spec_len spec ≠ total) then
                Ret (st, Err (with_context (with_context (with_context
                  (Error_new InvalidInput "published length differs from slot length")
                  "slot" (CInt (pub_slot op))) "len" (CInt total))
                  "expected" (CInt (spec_len spec))))
              else
                first ← unwrap (pub_src op !! 0%nat);
                slot ← unwrap (obj_slots obj !! idx);
                let entry := mkReplicaEntry device External false
                  (ExternalSegs ((λ v, (iov_as_ptr v, iov_len v)) <$> pub_src op)
                                (region_id (iov_region first))) in
                let obj := mkObject (obj_spec obj) (<[idx := slot ++ [entry]]> (obj_slots obj)) in
                Ret (mkState (<[key := obj]> (st_objects st)) (st_pools st), Ok tt)
          end
      end
  end.

Definition object_info (inner : Inner) (obj : Object) : ObjectInfo :=
  mkObjectInfo (spec_retention (obj_spec obj))
    (zip_with (λ s spec,
       mkSlotInfo (spec_len spec)
         ((λ r, mkReplica (location inner (re_device r) (re_tier r)) (re_misplaced r)) <$> s))
       (obj_slots obj) (spec_slots (obj_spec obj))).

Definition stat (inner : Inner) (st : State) (keys : list bytes) : list (option ObjectInfo) :=
  (λ k, object_info inner <$> st_objects st !! k) <$> keys.

(** The [min_by_key] key of a replica, for a reader on [dst]. *)
Definition source_key (inner : Inner) (dst : Device) (r : ReplicaEntry) : u32 * u8 :=
  (distance inner dst (re_device r), tier_rank (re_tier r)).

(** [Ord] on pairs. *)
Definition key_ltb (a b : Z * Z) : bool :=
  (fst a <? fst b) || ((fst a =? fst b) && (snd a <? snd b)).

Definition nearest (inner : Inner) (dst : Device) (rs : Slot) : option ReplicaEntry :=
  min_by (λ r best, key_ltb (source_key inner dst r) (source_key inner dst best)) rs.

Definition range_exceeds (op : OpGet) (dst_len : u64) (spec : SlotSpec) : Error :=
  with_context (with_context (with_context
    (Error_new InvalidInput "read range exceeds slot")
    "src_offset" (CInt (get_src_offset op))) "len" (CInt dst_len))
    "slot_len" (CInt (spec_len spec)).

Definition get (inner : Inner) (h : heap) (st : State) (key : bytes) (op : OpGet)
    : outcome (heap * Result RpGet) :=
  match OpGet_validate op with
  | Err e => Ret (h, Err e)
  | Ok (dst_device, dst_len) =>
      match st_objects st !! key with
      | None => Ret (h, Err (no_such_key key))
      | Some obj =>
          let idx := Z.to_nat (get_slot op) in
          match spec_slots (obj_spec obj) !! idx with
          | None => Ret (h, Err (slot_out_of_range (get_slot op)))
          | Some spec =>
              match checked_add (get_src_offset op) dst_len with
              | Some stop =>
                  if spec_len spec <? stop then
                    Ret (h, Err (range_exceeds op dst_len spec))
                  else
                    _ ← debug_assert (stop <=? spec_len spec);
                    slot ← unwrap (obj_slots obj !! idx);
                    match nearest inner dst_device slot with
                    | None =>
                        Ret (h, Err (with_context (with_context
                          (Error_new Evicted "slot has no replica") "key" (CKey key))
                          "slot" (CInt (get_slot op))))
                    | Some replica =>
                        _ ← (if debug_build then
                               l ← data_len (re_data replica);
                               debug_assert (l =? spec_len spec)
                             else Ret tt);
                        bytes ← read h (re_data replica) (get_src_offset op) dst_len;
                        h ← scatter h bytes (get_dst op);
                        Ret (h, Ok (mkRpGet (location inner (re_device replica) (re_tier replica))))
                    end
              | None =>
                  Ret (h, Err (range_exceeds op dst_len spec))
              end
          end
      end
  end.

(** [objects.remove] followed by [release_object]. *)
Definition remove_key (st : State) (k : bytes) : outcome State :=
  match st_objects st !! k with
  | Some obj => release_object (mkState (delete k (st_objects st)) (st_pools st)) obj
  | None => Ret st
  end.

Definition remove (st : State) (keys : list bytes) : outcome State :=
  mfoldl remove_key st keys.

(** The keys of the [BTreeMap] in order. *)
Definition sorted_keys (st : State) : list bytes :=
  merge_sort (λ a b, Is_true (bytes_leb a b)) ((map_to_list (st_objects st)).*1).

(** [range(prefix..).take_while(starts_with(prefix))]. *)
Definition prefix_keys (st : State) (prefix : bytes) : list bytes :=
  take_while (starts_with prefix) (List.filter (bytes_leb prefix) (sorted_keys st)).

Definition remove_prefix (st : State) (prefix : bytes) : outcome (State * u64) :=
  let keys := prefix_keys st prefix in
  st ← mfoldl remove_key st keys;
  Ret (st, Z.of_nat (length keys)).
End WithProfileOps.
