(* ===== verification/MemoryEvict.v ===== *)
(** * Eviction in the [Memory] backend

    A reference definition of FIFO eviction, [evict_all], and the proof that
    the [while] loop of [State::make_room] computes it: the loop evicts the
    entries of the shortest prefix of the FIFO that makes room, keeps the
    byte accounting exact, and never panics while the FIFO indices are in
    range. *)

From S2P Require Import Prelude HostMem Types Region Memory.

(** ** Byte accounting *)

(** The bytes replica [r] charges to the pool of [d]. *)
Definition owned_len (d : Device) (r : ReplicaEntry) : Z :=
  match re_data r with
  | Owned b => if decide (re_device r = d) then Z.of_nat (length b) else 0
  | ExternalSegs _ _ => 0
  end.

Definition owned_on (d : Device) (r : ReplicaEntry) : bool :=
  match re_data r with
  | Owned _ => bool_decide (re_device r = d)
  | ExternalSegs _ _ => false
  end.

Definition slot_owned (d : Device) (s : Slot) : Z := zsum (owned_len d <$> s).
Definition obj_owned (d : Device) (o : Object) : Z := zsum (slot_owned d <$> obj_slots o).
Definition owned (d : Device) (objs : gmap bytes Object) : Z := map_sum (λ _ o, obj_owned d o) objs.

(** What [retain] keeps. *)
Definition unowned (d : Device) (s : Slot) : Slot := List.filter (λ r, negb (owned_on d r)) s.

Definition all_empty (o : Object) : bool := forallb (λ s, bool_decide (s = [] :> Slot)) (obj_slots o).

(** ** Reference eviction *)

Definition evict_slot (d : Device) (o : Object) (i : nat) : Object :=
  mkObject (obj_spec o) (alter (unowned d) i (obj_slots o)).

Definition put_back (k : bytes) (o : Object) (objs : gmap bytes Object) : gmap bytes Object :=
  if all_empty o then delete k objs else <[k := o]> objs.

Definition evict_entry (d : Device) (protect : bytes) (objs : gmap bytes Object) (e : bytes * u32)
    : gmap bytes Object :=
  if decide (e.1 = protect) then objs else
  match objs !! e.1 with
  | None => objs
  | Some o =>
      match spec_retention (obj_spec o) with
      | Explicit => objs
      | Cache => put_back e.1 (evict_slot d o (Z.to_nat e.2)) objs
      end
  end.

Definition evict_all (d : Device) (protect : bytes) (objs : gmap bytes Object)
    (l : list (bytes * u32)) : gmap bytes Object :=
  foldl (evict_entry d protect) objs l.

(** ** Lemmas on the accounting *)

Lemma owned_len_nonneg d r : 0 <= owned_len d r.
Proof. unfold owned_len. destruct (re_data r); [case_decide|]; lia. Qed.

Lemma slot_owned_nonneg d s : 0 <= slot_owned d s.
Proof. apply zsum_nonneg, Forall_fmap, Forall_true. intros r. apply owned_len_nonneg. Qed.

Lemma obj_owned_nonneg d o : 0 <= obj_owned d o.
Proof. apply zsum_nonneg, Forall_fmap, Forall_true. intros s. apply slot_owned_nonneg. Qed.

Lemma owned_nonneg d objs : 0 <= owned d objs.
Proof. apply map_sum_nonneg. intros. apply obj_owned_nonneg. Qed.

Lemma slot_owned_nil d : slot_owned d [] = 0.
Proof. done. Qed.

Lemma slot_owned_cons d r s : slot_owned d (r :: s) = owned_len d r + slot_owned d s.
Proof. done. Qed.

Lemma slot_owned_app d s1 s2 : slot_owned d (s1 ++ s2) = slot_owned d s1 + slot_owned d s2.
Proof. unfold slot_owned. by rewrite fmap_app, zsum_app. Qed.

#[export] Hint Resolve owned_len_nonneg slot_owned_nonneg obj_owned_nonneg owned_nonneg : pegastore.

Lemma unowned_cons d r s :
  unowned d (r :: s) = if owned_on d r then unowned d s else r :: unowned d s.
Proof. unfold unowned. simpl. by destruct (owned_on d r). Qed.

Lemma owned_len_owned_on d d' r :
  owned_on d r = true → owned_len d' r = if decide (d' = d) then owned_len d r else 0.
Proof.
  unfold owned_on, owned_len. destruct (re_data r); [|done].
  rewrite bool_decide_eq_true. intros <-. destruct (decide (d' = re_device r)) as [->|]; [done|].
  by rewrite decide_False.
Qed.

Lemma owned_len_not_on d r : owned_on d r = false → owned_len d r = 0.
Proof.
  unfold owned_on, owned_len. destruct (re_data r); [|done].
  rewrite bool_decide_eq_false. intros. by rewrite decide_False.
Qed.

(** What a slot charges once [d]'s owned replicas are dropped. *)
Lemma slot_owned_unowned d d' s :
  slot_owned d' (unowned d s) = if decide (d' = d) then 0 else slot_owned d' s.
Proof.
  induction s as [|r s IH]; [by case_decide|].
  rewrite unowned_cons, slot_owned_cons. destruct (owned_on d r) eqn:Hr.
  - rewrite IH, (owned_len_owned_on d d' r Hr). case_decide; lia.
  - rewrite slot_owned_cons, IH. case_decide; [|done]. subst. by rewrite owned_len_not_on.
Qed.

Lemma unowned_sublist d s : unowned d s `sublist_of` s.
Proof.
  induction s as [|r s IH]; [constructor|]. rewrite unowned_cons.
  destruct (owned_on d r); by constructor.
Qed.

Lemma elem_of_unowned d s r : r ∈ unowned d s ↔ r ∈ s ∧ owned_on d r = false.
Proof.
  unfold unowned. by rewrite !list_elem_of_In, filter_In, negb_true_iff.
Qed.

Lemma obj_owned_all_empty d o : all_empty o = true → obj_owned d o = 0.
Proof.
  unfold all_empty, obj_owned. induction (obj_slots o) as [|s l IH]; csimpl; [done|].
  rewrite andb_true_iff, bool_decide_eq_true. intros [-> Hl].
  rewrite zsum_cons, (IH Hl). done.
Qed.

Lemma owned_put_back d k o o' objs :
  objs !! k = Some o → owned d (put_back k o' objs) = owned d objs - obj_owned d o + obj_owned d o'.
Proof.
  intros Hk. unfold put_back, owned. destruct (all_empty o') eqn:He.
  - rewrite (map_sum_delete _ objs k o Hk), (obj_owned_all_empty d o' He). lia.
  - by rewrite (map_sum_insert _ objs k o o' Hk).
Qed.

Lemma obj_owned_evict_slot d d' o i :
  obj_owned d' (evict_slot d o i) =
  obj_owned d' o - (if decide (d' = d) then from_option (slot_owned d) 0 (obj_slots o !! i) else 0).
Proof.
  unfold obj_owned, evict_slot. simpl. rewrite zsum_fmap_alter.
  destruct (obj_slots o !! i) as [s|]; simpl; [|case_decide; lia].
  rewrite slot_owned_unowned. case_decide; subst; lia.
Qed.

(** Evicting on [d] leaves every other pool's account alone. *)
Lemma owned_evict_entry_ne d d' p objs e : d' ≠ d → owned d' (evict_entry d p objs e) = owned d' objs.
Proof.
  intros Hd. unfold evict_entry. case_decide; [done|].
  destruct (objs !! e.1) as [o|] eqn:Ho; [|done].
  destruct (spec_retention _); [|done].
  rewrite (owned_put_back _ _ o) by done. rewrite obj_owned_evict_slot, decide_False by done. lia.
Qed.

Lemma owned_evict_all_ne d d' p objs l : d' ≠ d → owned d' (evict_all d p objs l) = owned d' objs.
Proof.
  intros Hd. revert objs. induction l as [|e l IH]; intros objs; simpl; [done|].
  rewrite IH. by apply owned_evict_entry_ne.
Qed.

(** [retain] with its [freed] counter. *)
Lemma retain_unowned_spec `{BuildProfile} d freed s :
  0 <= freed → freed + slot_owned d s <= U64_MAX →
  retain_unowned d freed s = Ret (unowned d s, freed + slot_owned d s).
Proof.
  revert freed. induction s as [|r s IH]; intros freed H0 Hle.
  { simpl. by rewrite slot_owned_nil, Z.add_0_r. }
  pose proof (slot_owned_nonneg d s) as Hnn.
  rewrite unowned_cons. rewrite slot_owned_cons in Hle |- *.
  unfold owned_on, owned_len in *. simpl.
  destruct (decide (re_device r = d)) as [Hd|Hd], (re_data r) as [b|segs id];
    rewrite ?bool_decide_true, ?bool_decide_false by done.
  - rewrite u64_add_ok by (split; lia). simpl. rewrite IH by lia. do 2 f_equal. lia.
  - rewrite IH by lia. simpl. do 2 f_equal; lia.
  - rewrite IH by lia. simpl. do 2 f_equal; lia.
  - rewrite IH by lia. simpl. do 2 f_equal; lia.
Qed.

(** ** The eviction loop *)

(** A FIFO entry whose object is alive points at one of its slots. *)
Definition idx_ok (objs : gmap bytes Object) (e : bytes * u32) : Prop :=
  ∀ o, objs !! e.1 = Some o → 0 <= e.2 ∧ (Z.to_nat e.2 < length (obj_slots o))%nat.

Lemma owned_evict_entry_le d p objs e : owned d (evict_entry d p objs e) <= owned d objs.
Proof.
  unfold evict_entry. case_decide; [done|].
  destruct (objs !! e.1) as [o|] eqn:Ho; [|done]. destruct (spec_retention _); [|done].
  rewrite (owned_put_back _ _ o) by done. rewrite obj_owned_evict_slot, decide_True by done.
  destruct (obj_slots o !! _) as [s|]; simpl; [pose proof (slot_owned_nonneg d s)|]; lia.
Qed.

Lemma owned_evict_all_le d p objs l : owned d (evict_all d p objs l) <= owned d objs.
Proof.
  revert objs. induction l as [|e l IH]; intros objs; [done|]. simpl.
  pose proof (IH (evict_entry d p objs e)). pose proof (owned_evict_entry_le d p objs e). lia.
Qed.

(** Eviction only drops owned replicas of [d] from slots of evictable objects. *)
Lemma evict_entry_Some d p objs e k o' :
  evict_entry d p objs e !! k = Some o' →
  ∃ o, objs !! k = Some o ∧
    (o' = o ∨ k = e.1 ∧ k ≠ p ∧ spec_retention (obj_spec o) = Cache ∧
              o' = evict_slot d o (Z.to_nat e.2)).
Proof.
  unfold evict_entry. case_decide as Hp; [eauto|].
  destruct (objs !! e.1) as [o|] eqn:Ho; [|eauto].
  destruct (spec_retention (obj_spec o)) eqn:Hr; [|eauto].
  unfold put_back. destruct (decide (k = e.1)) as [->|Hk].
  - destruct (all_empty _).
    + by rewrite lookup_delete_eq.
    + rewrite lookup_insert_eq. intros [= <-]. exists o. split; [done|]. right. auto.
  - destruct (all_empty _); rewrite ?lookup_delete_ne, ?lookup_insert_ne by done; eauto.
Qed.

Lemma idx_ok_evict_entry d p objs e e' : idx_ok objs e' → idx_ok (evict_entry d p objs e) e'.
Proof.
  intros Hi o' (o & Ho & [->|(_ & _ & _ & ->)])%evict_entry_Some; [by apply Hi|].
  simpl. rewrite length_alter. by apply Hi.
Qed.

Lemma make_room_step `{BuildProfile} d p objs u key idx o :
  key ≠ p → objs !! key = Some o → spec_retention (obj_spec o) = Cache →
  (Z.to_nat idx < length (obj_slots o))%nat → u = owned d objs → u <= U64_MAX →
  ∃ s, obj_slots o !! Z.to_nat idx = Some s ∧
    retain_unowned d 0 s = Ret (unowned d s, slot_owned d s) ∧
    u64_sub u (slot_owned d s) = Ret (owned d (evict_entry d p objs (key, idx))) ∧
    evict_entry d p objs (key, idx) =
      put_back key (mkObject (obj_spec o) (<[Z.to_nat idx := unowned d s]> (obj_slots o))) objs.
Proof.
  intros Hp Ho Hc Hlt -> Hu.
  apply lookup_lt_is_Some in Hlt as [s Hs]. exists s.
  assert (evict_entry d p objs (key, idx) = put_back key (evict_slot d o (Z.to_nat idx)) objs) as He.
  { unfold evict_entry. simpl. by rewrite decide_False, Ho, Hc by done. }
  assert (owned d (evict_entry d p objs (key, idx)) = owned d objs - slot_owned d s) as Hw.
  { rewrite He, (owned_put_back _ _ o) by done.
    rewrite obj_owned_evict_slot, decide_True, Hs by done. simpl. lia. }
  pose proof (slot_owned_nonneg d s). pose proof (owned_nonneg d (evict_entry d p objs (key, idx))).
  split; [done|]. split.
  { rewrite retain_unowned_spec by lia. done. }
  split; [rewrite u64_sub_ok; [by rewrite Hw|split; lia]|].
  rewrite He. unfold evict_slot. by erewrite list_alter_insert.
Qed.

(** An entry the loop has to look at names a slot its object has. *)
Definition entry_ok (p : bytes) (objs : gmap bytes Object) (e : bytes * u32) : Prop :=
  ∀ o, e.1 ≠ p → objs !! e.1 = Some o → spec_retention (obj_spec o) = Cache →
    (Z.to_nat e.2 < length (obj_slots o))%nat.

#[global] Instance entry_ok_dec p objs e : Decision (entry_ok p objs e).
Proof.
  destruct (decide (e.1 = p)) as [Hp|Hp]; [left; by intros ? ?|]. destruct (objs !! e.1) as [o|] eqn:Ho; [|left; intros ?; by rewrite Ho].
  destruct (decide (spec_retention (obj_spec o) = Cache)) as [Hc|Hc]; [|left; intros x _; rewrite Ho; by intros [= <-]].
  destruct (decide (Z.to_nat e.2 < length (obj_slots o))%nat) as [Hl|Hl]; [left; intros x _; rewrite Ho; by intros [= <-]|].
  right. intros Hx. by apply Hl, Hx.
Defined.

Lemma idx_ok_entry p objs e : idx_ok objs e → entry_ok p objs e.
Proof. intros Hi o _ Ho _. by apply Hi. Qed.

(** One iteration that finds the pool too full. *)
Lemma make_room_loop_cons `{BuildProfile} d cap need p key idx fifo objs u deferred :
  u = owned d objs → 0 <= need → u + need <= U64_MAX → entry_ok p objs (key, idx) →
  cap < u + need →
  make_room_loop d cap need p ((key, idx) :: fifo) objs u deferred =
  make_room_loop d cap need p fifo (evict_entry d p objs (key, idx))
    (owned d (evict_entry d p objs (key, idx)))
    (deferred ++ List.filter (λ e, bool_decide (e.1 = p)) [(key, idx)]).
Proof.
  intros Hu Hn Hle Hi Hcap. pose proof (owned_nonneg d objs).
  cbn [make_room_loop]. rewrite u64_add_ok by (split; lia). cbn [mbind outcome_bind].
  replace (u + need <=? cap) with false by (symmetry; apply Z.leb_gt; lia).
  destruct (decide (key = p)) as [->|Hp].
  { simpl. unfold evict_entry. simpl. rewrite decide_True, bool_decide_true by done. by subst. }
  simpl. rewrite bool_decide_false by done. rewrite app_nil_r.
  destruct (objs !! key) as [o|] eqn:Ho.
  2:{ unfold evict_entry. simpl. by rewrite decide_False, Ho, Hu by done. }
  destruct (spec_retention (obj_spec o)) eqn:Hr; simpl.
  2:{ unfold evict_entry. simpl. by rewrite decide_False, Ho, Hr, Hu by done. }
  destruct (make_room_step d p objs u key idx o) as (s & Hs & Hret & Hsub & Hev); [done..|by apply Hi|done|lia|].
  rewrite Hs. simpl. rewrite Hret. simpl. rewrite Hsub. simpl. by rewrite Hev.
Qed.

(** An iteration that meets an entry past the end of its object. *)
Lemma make_room_loop_stale `{BuildProfile} d cap need p key idx fifo objs u deferred :
  0 <= u → 0 <= need → u + need <= U64_MAX → ¬ entry_ok p objs (key, idx) → cap < u + need →
  make_room_loop d cap need p ((key, idx) :: fifo) objs u deferred = Panicked.
Proof.
  intros Hu Hn Hle Hi Hcap. cbn [make_room_loop]. rewrite u64_add_ok by (split; lia). cbn [mbind outcome_bind].
  replace (u + need <=? cap) with false by (symmetry; apply Z.leb_gt; lia).
  destruct (decide (key = p)) as [->|Hp]; [destruct Hi; by intros o []|].
  destruct (objs !! key) as [o|] eqn:Ho; [|destruct Hi; intros o _; simpl; by rewrite Ho].
  case_decide as Hr; [destruct Hi; intros x _; simpl; rewrite Ho; by intros [= <-]|].
  destruct (obj_slots o !! Z.to_nat idx) as [s|] eqn:Hs; [|done]. destruct Hi. intros x _. simpl. rewrite Ho. intros [= <-] _.
  by eapply lookup_lt_Some.
Qed.

(** The loop evicts the shortest FIFO prefix that leaves room for [need], or
    meets a stale entry. *)
Lemma make_room_loop_at `{BuildProfile} (stale : bool) d cap need p fifo objs u deferred :
  u = owned d objs → 0 <= need → u + need <= U64_MAX → (stale = false → Forall (idx_ok objs) fifo) →
  (∃ n, (n <= length fifo)%nat ∧
    make_room_loop d cap need p fifo objs u deferred =
      Ret (evict_all d p objs (take n fifo), owned d (evict_all d p objs (take n fifo)),
           drop n fifo, deferred ++ List.filter (λ e, bool_decide (e.1 = p)) (take n fifo)) ∧
    (owned d (evict_all d p objs (take n fifo)) + need <= cap ∨ n = length fifo) ∧
    (∀ m, (m < n)%nat → cap < owned d (evict_all d p objs (take m fifo)) + need)) ∨
  stale = true ∧ make_room_loop d cap need p fifo objs u deferred = Panicked.
Proof.
  revert objs u deferred. induction fifo as [|[key idx] fifo IH];
    intros objs u deferred Hu Hn Hle Hidx; pose proof (owned_nonneg d objs).
  { left. exists 0%nat. cbn [make_room_loop]. rewrite u64_add_ok by (split; lia). simpl.
    rewrite app_nil_r. split; [lia|]. split; [subst; by case_match|]. split; [auto|lia]. }
  destruct (decide (u + need <= cap)) as [Hcap|Hcap].
  { left. exists 0%nat. cbn [make_room_loop]. rewrite u64_add_ok by (split; lia). simpl.
    rewrite (proj2 (Z.leb_le _ _) Hcap), app_nil_r. split; [lia|].
    split; [by subst|]. split; [left; lia|lia]. }
  destruct (decide (entry_ok p objs (key, idx))) as [Hi|Hi].
  2:{ right. split; [|apply make_room_loop_stale; lia || done]. apply not_false_iff_true. intros Hst.
      by apply Hi, idx_ok_entry, (Forall_cons_1 _ _ _ (Hidx Hst)). }
  rewrite make_room_loop_cons by (done || lia).
  pose proof (owned_evict_entry_le d p objs (key, idx)).
  destruct (IH (evict_entry d p objs (key, idx)) _
               (deferred ++ List.filter (λ e, bool_decide (e.1 = p)) [(key, idx)]) eq_refl Hn)
    as [(n & Hn' & Hloop & Hstop & Hmin)|?]; [lia| |left|by right].
  { intros Hst. eapply Forall_impl; [apply (Forall_cons_1 _ _ _ (Hidx Hst))|]. intros e. apply idx_ok_evict_entry. }
  exists (S n). split; [simpl; lia|]. split; [|split].
  - rewrite Hloop, <- (assoc_L (++)). simpl. by destruct (bool_decide _).
  - destruct Hstop as [?| ->]; [left|right]; done.
  - intros [|m] Hm; simpl; [subst; lia|]. apply Hmin. lia.
Qed.

Lemma make_room_loop_spec `{BuildProfile} d cap need p fifo objs u deferred :
  u = owned d objs → 0 <= need → u + need <= U64_MAX → Forall (idx_ok objs) fifo →
  ∃ n, (n <= length fifo)%nat ∧
    make_room_loop d cap need p fifo objs u deferred =
      Ret (evict_all d p objs (take n fifo), owned d (evict_all d p objs (take n fifo)),
           drop n fifo, deferred ++ List.filter (λ e, bool_decide (e.1 = p)) (take n fifo)) ∧
    (owned d (evict_all d p objs (take n fifo)) + need <= cap ∨ n = length fifo) ∧
    (∀ m, (m < n)%nat → cap < owned d (evict_all d p objs (take m fifo)) + need).
Proof.
  intros Hu Hn Hle Hidx. by destruct (make_room_loop_at false d cap need p fifo objs u deferred Hu Hn Hle (λ _, Hidx)) as [?|[? _]].
Qed.
