(* ===== verification/MemoryInv.v ===== *)
(** * The invariant of the [Memory] backend

    [wf]: objects match their specs, each pool's [used] counter is exactly the
    number of owned bytes on its device, every evictable
    replica has a FIFO entry and, unless stale entries are allowed for, FIFO
    entries point at existing slots.  This file shows that
    [make_room] preserves it and characterises when it succeeds. *)

From S2P Require Import Prelude HostMem Types Region Memory MemoryEvict.

(** ** The invariant *)

Definition data_size (d : ReplicaData) : Z :=
  match d with
  | Owned b => Z.of_nat (length b)
  | ExternalSegs segs _ => zsum (segs.*2)
  end.

Definition replica_wf (pools : gmap Device Pool) (len : Z) (r : ReplicaEntry) : Prop :=
  data_size (re_data r) = len ∧
  match re_data r with
  | Owned _ => re_tier r = Dram ∧ is_Some (pools !! re_device r)
  | ExternalSegs segs _ =>
      re_tier r = External ∧ len <= U64_MAX ∧ Forall (λ s, 0 <= s.1 ∧ 0 <= s.2) segs
  end.

Definition obj_wf (pools : gmap Device Pool) (o : Object) : Prop :=
  Forall2 (λ spec s, Forall (replica_wf pools (spec_len spec)) s)
          (spec_slots (obj_spec o)) (obj_slots o).

(** A stale entry is left in a FIFO by a removed key that was put anew with fewer
    slots; eviction panics when it meets one.  [stale] says whether there may be
    any. *)
Record wf_at (stale : bool) (st : State) : Prop := mkWf {
  wf_obj k o : st_objects st !! k = Some o → obj_wf (st_pools st) o;
  wf_used d p : st_pools st !! d = Some p → pool_used p = owned d (st_objects st);
  wf_u64 d p : st_pools st !! d = Some p → pool_used p <= U64_MAX;
  wf_idx d p : stale = false → st_pools st !! d = Some p → Forall (idx_ok (st_objects st)) (pool_fifo p);
  wf_cover d p k o i s r :
    st_pools st !! d = Some p → st_objects st !! k = Some o →
    spec_retention (obj_spec o) = Cache → obj_slots o !! i = Some s → r ∈ s →
    owned_on d r = true → (k, Z.of_nat i) ∈ pool_fifo p;
}.
#[global] Arguments wf_obj {_} _ _.
#[global] Arguments wf_used {_} _ _.
#[global] Arguments wf_u64 {_} _ _.
#[global] Arguments wf_idx {_} _ _.
#[global] Arguments wf_cover {_} _ _.

Abbreviation wf := (wf_at false).

Lemma wf_loose stale st : wf_at stale st → wf_at true st.
Proof. intros [H1 H2 H3 _ H5]. by constructor. Qed.

(** No pool holds more than its capacity. *)
Definition within_capacity (st : State) : Prop :=
  ∀ d p cap, st_pools st !! d = Some p → pool_capacity p = Some cap → pool_used p <= cap.

(** ** What eviction on [d] does to the objects *)

Definition slot_ev (d : Device) (s s' : Slot) : Prop := s' = s ∨ s' = unowned d s.

Definition obj_ev (d : Device) (o o' : Object) : Prop :=
  obj_spec o' = obj_spec o ∧ Forall2 (slot_ev d) (obj_slots o) (obj_slots o').

(** Objects are unchanged if protected or [Explicit]; others may lose replicas
    owned on [d]; an object disappears only if it had no other replica. *)
Definition evicted_at (d : Device) (p k : bytes) (o o' : option Object) : Prop :=
  match o, o' with
  | None, None => True
  | Some o, Some o' =>
      obj_ev d o o' ∧ (k = p ∨ spec_retention (obj_spec o) = Explicit → o' = o)
  | Some o, None =>
      k ≠ p ∧ spec_retention (obj_spec o) = Cache ∧
      Forall (Forall (λ r, owned_on d r = true)) (obj_slots o)
  | None, Some _ => False
  end.

Definition evicted (d : Device) (p : bytes) (objs objs' : gmap bytes Object) : Prop :=
  ∀ k, evicted_at d p k (objs !! k) (objs' !! k).

Lemma unowned_idemp d s : unowned d (unowned d s) = unowned d s.
Proof.
  induction s as [|r s IH]; [done|]. rewrite unowned_cons. destruct (owned_on d r) eqn:Hr; [done|].
  by rewrite unowned_cons, Hr, IH.
Qed.

Lemma unowned_nil_iff d s : unowned d s = [] ↔ Forall (λ r, owned_on d r = true) s.
Proof.
  induction s as [|r s IH]; [by split|]. rewrite unowned_cons, Forall_cons.
  destruct (owned_on d r); rewrite ?IH; intuition congruence.
Qed.

#[global] Instance slot_ev_refl d : Reflexive (slot_ev d).
Proof. by left. Qed.

#[global] Instance slot_ev_trans d : Transitive (slot_ev d).
Proof. unfold slot_ev. intros s1 s2 s3 [->| ->] [->| ->]; rewrite ?unowned_idemp; auto. Qed.

#[global] Instance obj_ev_refl d : Reflexive (obj_ev d).
Proof. by split. Qed.

#[global] Instance obj_ev_trans d : Transitive (obj_ev d).
Proof.
  intros o1 o2 o3 [Hs1 H1] [Hs2 H2]. split; [congruence|by etrans].
Qed.

#[global] Instance evicted_refl d p : Reflexive (evicted d p).
Proof. intros objs k. destruct (objs !! k); simpl; [split; [done|auto]|done]. Qed.

Lemma obj_ev_owned d o o' :
  obj_ev d o o' → Forall (Forall (λ r, owned_on d r = true)) (obj_slots o') →
  Forall (Forall (λ r, owned_on d r = true)) (obj_slots o).
Proof.
  intros [_ Hev]. induction Hev as [|s s' l l' Hs Hl IH]; [constructor|].
  rewrite !Forall_cons. intros [Hs' Hl']. split; [|auto].
  destruct Hs as [->| ->]; [done|]. apply unowned_nil_iff.
  rewrite <- unowned_idemp. by apply unowned_nil_iff.
Qed.

#[global] Instance evicted_trans d p : Transitive (evicted d p).
Proof.
  intros m1 m2 m3 H12 H23 k. specialize (H12 k). specialize (H23 k).
  destruct (m1 !! k) as [o1|], (m2 !! k) as [o2|], (m3 !! k) as [o3|]; simpl in *; try done.
  - destruct H12 as [E12 P12], H23 as [E23 P23]. split; [by etrans|].
    intros Hk. rewrite P23; [by apply P12|]. destruct E12 as [-> _]. done.
  - destruct H12 as [E12 P12], H23 as (Hp & Hc & Ho). pose proof E12 as [Hs _].
    rewrite Hs in Hc. split_and!; [done|done|]. by eapply obj_ev_owned.
Qed.

Lemma obj_ev_evict_slot d o i : obj_ev d o (evict_slot d o i).
Proof.
  split; [done|]. simpl. apply Forall2_alter_r; [done|].
  intros s s' Hs Hs' _. simplify_eq. by right.
Qed.

Lemma evict_entry_evicted d p objs e : evicted d p objs (evict_entry d p objs e).
Proof.
  unfold evict_entry. case_decide as Hp; [done|].
  destruct (objs !! e.1) as [o|] eqn:Ho; [|done].
  destruct (spec_retention (obj_spec o)) eqn:Hr; [|done].
  intros k. unfold put_back. destruct (all_empty _) eqn:Hemp.
  - destruct (decide (k = e.1)) as [->|]; [|rewrite lookup_delete_ne by done; apply evicted_refl].
    rewrite Ho, lookup_delete_eq. split_and!; [done..|].
    eapply obj_ev_owned; [apply (obj_ev_evict_slot d o (Z.to_nat e.2))|].
    apply Forall_forall. intros s Hs%list_elem_of_In. unfold all_empty in Hemp.
    rewrite forallb_forall in Hemp. apply Hemp, bool_decide_eq_true in Hs as ->. constructor.
  - destruct (decide (k = e.1)) as [->|]; [|rewrite lookup_insert_ne by done; apply evicted_refl].
    rewrite Ho, lookup_insert_eq. split; [apply obj_ev_evict_slot|].
    intros [?|?]; congruence.
Qed.

Lemma evict_all_evicted d p objs l : evicted d p objs (evict_all d p objs l).
Proof.
  revert objs. induction l as [|e l IH]; intros objs; [done|].
  simpl. etrans; [apply evict_entry_evicted|apply IH].
Qed.

(** ** Preservation by eviction *)

(** Slot [i] of [o] has no replica owned on [d]. *)
Definition clean (d : Device) (o : Object) (i : nat) : Prop :=
  ∀ s r, obj_slots o !! i = Some s → r ∈ s → owned_on d r = false.

Lemma obj_ev_slot d o o' i s' :
  obj_ev d o o' → obj_slots o' !! i = Some s' →
  ∃ s, obj_slots o !! i = Some s ∧ slot_ev d s s'.
Proof. intros [_ Hev] Hs. eapply Forall2_lookup_r in Hev as (s & ? & ?); eauto. Qed.

Lemma slot_ev_elem d s s' r : slot_ev d s s' → r ∈ s' → r ∈ s.
Proof. intros [->| ->]; [done|]. rewrite elem_of_unowned. tauto. Qed.

Lemma clean_ev d o o' i : obj_ev d o o' → clean d o i → clean d o' i.
Proof.
  intros Hev Hc s' r Hs' Hr. destruct (obj_ev_slot _ _ _ _ _ Hev Hs') as (s & Hs & He).
  eapply Hc; [done|]. by eapply slot_ev_elem.
Qed.

Lemma evict_all_covers d p objs l k i o' :
  (k, i) ∈ l → k ≠ p → evict_all d p objs l !! k = Some o' →
  spec_retention (obj_spec o') = Cache → clean d o' (Z.to_nat i).
Proof.
  revert objs. induction l as [|e l IH]; intros objs Hin Hp Ho' Hc; [by apply elem_of_nil in Hin|].
  simpl in Ho'. apply elem_of_cons in Hin as [<-|Hin]; [|by eapply IH].
  pose proof (evict_all_evicted d p (evict_entry d p objs (k, i)) l k) as Hev.
  rewrite Ho' in Hev. destruct (evict_entry d p objs (k, i) !! k) as [o1|] eqn:Ho1; [|done].
  destruct Hev as [Hev _]. eapply clean_ev; [done|].
  rewrite (proj1 Hev) in Hc. unfold evict_entry in Ho1. simpl in Ho1.
  rewrite decide_False in Ho1 by done.
  destruct (objs !! k) as [o|] eqn:Ho; [|congruence].
  destruct (spec_retention (obj_spec o)) eqn:Hr; [|congruence].
  unfold put_back in Ho1. destruct (all_empty _); simplify_map_eq.
  intros s r Hs Hin. simpl in Hs. rewrite list_lookup_alter_eq in Hs.
  apply fmap_Some in Hs as (s0 & _ & ->). by apply elem_of_unowned in Hin as [_ ?].
Qed.

Lemma obj_wf_ev pools pools' d o o' :
  (∀ x, is_Some (pools !! x) → is_Some (pools' !! x)) →
  obj_ev d o o' → obj_wf pools o → obj_wf pools' o'.
Proof.
  intros Hp [Hspec Hev] Hwf. unfold obj_wf in *. rewrite Hspec. clear Hspec.
  revert Hwf. generalize (spec_slots (obj_spec o)).
  induction Hev as [|s s' l l' Hs Hl IH]; intros specs Hwf;
    inversion Hwf as [|sp ? specs' ? Hsp Hrest]; subst; constructor; [|by apply IH].
  apply Forall_forall. intros r Hr.
  pose proof (slot_ev_elem _ _ _ _ Hs Hr) as Hr'.
  rewrite Forall_forall in Hsp. destruct (Hsp r Hr') as [Hlen Hd].
  split; [done|]. destruct (re_data r); [|done]. destruct Hd. auto.
Qed.

Lemma idx_ok_evicted d p objs objs' e : evicted d p objs objs' → idx_ok objs e → idx_ok objs' e.
Proof.
  intros Hev Hi o' Ho'. specialize (Hev e.1). rewrite Ho' in Hev.
  destruct (objs !! e.1) as [o|] eqn:Ho; [|done].
  destruct Hev as [[_ Hev] _]. apply Forall2_length in Hev as <-. by apply Hi.
Qed.

Lemma evicted_elem d p objs objs' k o' i s' r :
  evicted d p objs objs' → objs' !! k = Some o' → obj_slots o' !! i = Some s' → r ∈ s' →
  ∃ o s, objs !! k = Some o ∧ obj_spec o' = obj_spec o ∧ obj_slots o !! i = Some s ∧ r ∈ s.
Proof.
  intros Hev Ho' Hs' Hr. specialize (Hev k). rewrite Ho' in Hev.
  destruct (objs !! k) as [o|]; [|done]. destruct Hev as [Hev _].
  destruct (obj_ev_slot _ _ _ _ _ Hev Hs') as (s & Hs & Hsev).
  exists o, s. split_and!; [done|by destruct Hev|done|]. by eapply slot_ev_elem.
Qed.

(** A replica still owned on [d] after the FIFO entries [take n fifo] were
    processed has its entry among those kept. *)
Lemma evicted_cover d p objs fifo n k o' i s' r :
  (k, Z.of_nat i) ∈ fifo → evict_all d p objs (take n fifo) !! k = Some o' →
  spec_retention (obj_spec o') = Cache → obj_slots o' !! i = Some s' → r ∈ s' →
  owned_on d r = true →
  (k, Z.of_nat i) ∈ List.filter (λ e, bool_decide (e.1 = p)) (take n fifo) ++ drop n fifo.
Proof.
  intros Hin Ho' Hc Hs' Hr Hon.
  rewrite <- (take_drop n fifo), elem_of_app in Hin. apply elem_of_app.
  destruct Hin as [Hin|Hin]; [left|by right].
  destruct (decide (k = p)) as [->|Hne].
  { rewrite list_elem_of_In, filter_In, <- list_elem_of_In. split; [done|].
    by rewrite bool_decide_true. }
  pose proof (evict_all_covers _ _ _ _ _ _ _ Hin Hne Ho' Hc) as Hcl.
  rewrite Nat2Z.id in Hcl. by rewrite (Hcl _ _ Hs' Hr) in Hon.
Qed.

(** The part of [make_room] after the loop: the pool with its new counters. *)
Lemma wf_evict {stale} st d pool p n :
  wf_at stale st → st_pools st !! d = Some pool →
  let objs' := evict_all d p (st_objects st) (take n (pool_fifo pool)) in
  let fifo' := List.filter (λ e, bool_decide (e.1 = p)) (take n (pool_fifo pool))
               ++ drop n (pool_fifo pool) in
  wf_at stale (mkState objs' (<[d := mkPool (pool_capacity pool) (owned d objs') fifo']> (st_pools st))).
Proof.
  intros Hwf Hd objs' fifo'.
  pose proof (evict_all_evicted d p (st_objects st) (take n (pool_fifo pool))) as Hev.
  fold objs' in Hev.
  assert (∀ e, e ∈ fifo' → e ∈ pool_fifo pool) as Hsub.
  { intros e. unfold fifo'. rewrite <- (take_drop n (pool_fifo pool)) at 3.
    rewrite !elem_of_app, !list_elem_of_In, filter_In. tauto. }
  assert (∀ e, Forall (idx_ok (st_objects st)) e → Forall (idx_ok objs') e) as Hidx.
  { intros e He. eapply Forall_impl; [exact He|]. intros. by eapply idx_ok_evicted. }
  pose proof (owned_evict_all_le d p (st_objects st) (take n (pool_fifo pool))) as Hle.
  fold objs' in Hle.
  constructor; simpl.
  - intros k o' Ho'. specialize (Hev k). rewrite Ho' in Hev.
    destruct (st_objects st !! k) as [o|] eqn:Ho; [|done]. destruct Hev as [Hev _].
    eapply obj_wf_ev; [|done|by eapply wf_obj]. intros x Hx. rewrite lookup_insert_is_Some.
    destruct (decide (d = x)); auto.
  - intros d' q. rewrite lookup_insert_Some. intros [[<- <-]|[Hne Hq]]; [done|].
    rewrite (wf_used _ Hwf _ _ Hq). symmetry. by apply owned_evict_all_ne.
  - intros d' q. rewrite lookup_insert_Some. intros [[<- <-]|[Hne Hq]]; [|by eapply wf_u64].
    simpl. pose proof (wf_u64 _ Hwf _ _ Hd). rewrite (wf_used _ Hwf _ _ Hd) in *. lia.
  - intros d' q Hst. rewrite lookup_insert_Some.
    intros [[<- <-]|[Hne Hq]]; apply Hidx; [|by eapply wf_idx].
    simpl. pose proof (wf_idx _ Hwf _ _ Hst Hd) as Hall. rewrite Forall_forall in Hall |- *. auto.
  - intros d' q k o' i s' r Hq Ho' Hc Hs' Hr Hon.
    destruct (evicted_elem _ _ _ _ _ _ _ _ _ Hev Ho' Hs' Hr) as (o & s & Ho & Hsp & Hs & Hrs).
    rewrite Hsp in Hc.
    apply lookup_insert_Some in Hq as [[<- <-]|[Hne Hq]]; [|by eapply wf_cover].
    simpl. eapply evicted_cover; [by eapply wf_cover|done|by rewrite Hsp|done..].
Qed.

(** ** When [make_room] succeeds *)

(** Bytes on [d] that eviction may not touch: the protected key's and those of
    [Explicit] objects. *)
Definition unev_len (d : Device) (p k : bytes) (o : Object) : Z :=
  if decide (k = p ∨ spec_retention (obj_spec o) = Explicit) then obj_owned d o else 0.

Definition unevictable (d : Device) (p : bytes) (objs : gmap bytes Object) : Z :=
  map_sum (unev_len d p) objs.

Lemma unevictable_nonneg d p objs : 0 <= unevictable d p objs.
Proof. apply map_sum_nonneg. intros. unfold unev_len. case_decide; auto with pegastore lia. Qed.

Lemma unevictable_le d p objs : unevictable d p objs <= owned d objs.
Proof.
  apply map_sum_le. intros k o _. unfold unev_len. case_decide; [done|]. apply obj_owned_nonneg.
Qed.

Lemma unevictable_evict_entry d d' p objs e :
  unevictable d' p (evict_entry d p objs e) = unevictable d' p objs.
Proof.
  unfold evict_entry. case_decide as Hp; [done|].
  destruct (objs !! e.1) as [o|] eqn:Ho; [|done].
  destruct (spec_retention (obj_spec o)) eqn:Hr; [|done].
  assert (∀ o', obj_spec o' = obj_spec o → unev_len d' p e.1 o' = 0) as Hz.
  { intros o' Hs. unfold unev_len. rewrite decide_False; [done|]. rewrite Hs. intros []; congruence. }
  unfold put_back, unevictable. destruct (all_empty _).
  - rewrite (map_sum_delete _ objs _ _ Ho), Hz by done. lia.
  - rewrite (map_sum_insert _ objs _ o) by done. rewrite !Hz by done. lia.
Qed.

Lemma unevictable_evict_all d d' p objs l :
  unevictable d' p (evict_all d p objs l) = unevictable d' p objs.
Proof.
  revert objs. induction l as [|e l IH]; intros objs; [done|]. simpl.
  by rewrite IH, unevictable_evict_entry.
Qed.

Lemma slot_owned_clean d s : (∀ r, r ∈ s → owned_on d r = false) → slot_owned d s = 0.
Proof.
  induction s as [|r s IH]; intros Hs; [done|].
  rewrite slot_owned_cons, IH, owned_len_not_on; [done|apply Hs; left|].
  intros. apply Hs. by right.
Qed.

Lemma obj_owned_clean d o : (∀ i, clean d o i) → obj_owned d o = 0.
Proof.
  intros Hc. unfold obj_owned. erewrite (zsum_fmap_ext _ (λ _, 0)).
  - clear. induction (obj_slots o) as [|s l IH]; [done|]. csimpl. by rewrite zsum_cons, IH.
  - intros s [i Hi]%list_elem_of_lookup. apply slot_owned_clean. intros r Hr. by eapply Hc.
Qed.

(** Once every FIFO entry was processed, only unevictable bytes are left. *)
Lemma owned_evict_exhausted {stale} st d pool p :
  wf_at stale st → st_pools st !! d = Some pool →
  let objs' := evict_all d p (st_objects st) (pool_fifo pool) in
  owned d objs' = unevictable d p objs'.
Proof.
  intros Hwf Hd objs'. apply map_sum_ext. intros k o' Ho'. unfold unev_len.
  case_decide as Hun; [done|]. apply obj_owned_clean. intros i s' r Hs' Hr.
  destruct (owned_on d r) eqn:Hon; [exfalso|done].
  pose proof (evict_all_evicted d p (st_objects st) (pool_fifo pool)) as Hev. fold objs' in Hev.
  destruct (evicted_elem _ _ _ _ _ _ _ _ _ Hev Ho' Hs' Hr) as (o & s & Ho & Hsp & Hs & Hrs).
  apply Decidable.not_or in Hun as [Hkp Hne].
  assert (spec_retention (obj_spec o') = Cache) as Hc by (by destruct (spec_retention _)).
  assert ((k, Z.of_nat i) ∈ pool_fifo pool) as Hin
    by (eapply wf_cover; [done|done|done|by rewrite <- Hsp|done..]).
  pose proof (evict_all_covers _ _ _ _ _ _ _ Hin Hkp Ho' Hc) as Hcl.
  rewrite Nat2Z.id in Hcl. by rewrite (Hcl _ _ Hs' Hr) in Hon.
Qed.

Lemma foldl_push_front {A} (q l : list A) : foldl (λ q e, e :: q) q (reverse l) = l ++ q.
Proof.
  revert q. induction l as [|x l IH]; intros q; [done|].
  by rewrite reverse_cons, foldl_app, IH.
Qed.

(** [device] is served and its unevictable bytes leave room for [len]. *)
Definition can_fit (st : State) (p : bytes) (len : Z) (device : Device) : bool :=
  match st_pools st !! device with
  | None => false
  | Some pool =>
      match pool_capacity pool with
      | None => true
      | Some cap => unevictable device p (st_objects st) + len <=? cap
      end
  end.

(** [make_room] keeps the invariant, evicts only what it may, and succeeds exactly
    when the unevictable bytes leave room; it panics only on a stale entry. *)
Lemma make_room_at `{BuildProfile} {stale} st d need p pool :
  wf_at stale st → st_pools st !! d = Some pool → 0 <= need → pool_used pool + need <= U64_MAX →
  (∃ objs' pool',
    make_room st d need p =
      Ret (mkState objs' (<[d := pool']> (st_pools st)), can_fit st p need d) ∧
    wf_at stale (mkState objs' (<[d := pool']> (st_pools st))) ∧
    evicted d p (st_objects st) objs' ∧
    (∀ d', unevictable d' p objs' = unevictable d' p (st_objects st)) ∧
    pool_capacity pool' = pool_capacity pool ∧ pool_used pool' <= pool_used pool ∧
    (can_fit st p need d = true →
     ∀ cap, pool_capacity pool = Some cap → pool_used pool' + need <= cap)) ∨
  stale = true ∧ make_room st d need p = Panicked.
Proof.
  intros Hwf Hd Hn Hle. unfold make_room, can_fit. rewrite Hd. simpl.
  pose proof (unevictable_nonneg d p (st_objects st)).
  assert (mkState (st_objects st) (st_pools st) = st) as Heta by (by destruct st).
  destruct (pool_capacity pool) as [cap|] eqn:Hcap.
  2:{ left. exists (st_objects st), pool. rewrite insert_id, Heta by done. by split_and!. }
  destruct (Z.ltb_spec cap need) as [Hlt|Hge].
  { left. exists (st_objects st), pool. rewrite insert_id, Heta by done.
    replace (_ <=? cap) with false by (symmetry; apply Z.leb_gt; lia). by split_and!. }
  destruct (make_room_loop_at stale d cap need p (pool_fifo pool) (st_objects st) (pool_used pool) [])
    as [(n & Hnl & -> & Hstop & _)|[? ->]]; [by eapply wf_used|done|done|intros Hst; by eapply wf_idx|left|by right].
  simpl. rewrite foldl_push_front.
  set (objs' := evict_all d p (st_objects st) (take n (pool_fifo pool))) in *.
  pose proof (owned_evict_all_le d p (st_objects st) (take n (pool_fifo pool))) as Hole.
  fold objs' in Hole. rewrite <- (wf_used _ Hwf _ _ Hd) in Hole.
  pose proof (owned_nonneg d objs').
  rewrite u64_add_ok by (split; lia). simpl.
  assert ((owned d objs' + need <=? cap) = (unevictable d p (st_objects st) + need <=? cap)) as Hb.
  { rewrite <- (unevictable_evict_all d d p (st_objects st) (take n (pool_fifo pool))).
    fold objs'. pose proof (unevictable_le d p objs') as Hule.
    destruct Hstop as [Hfit|Hall].
    - rewrite !(proj2 (Z.leb_le _ _)) by lia. done.
    - pose proof (owned_evict_exhausted st d pool p Hwf Hd) as Hex.
      unfold objs'. rewrite Hall, take_ge by lia. simpl in Hex. by rewrite Hex. }
  rewrite <- Hb. eexists _, _. split; [done|].
  split; [rewrite <- Hcap; by apply wf_evict|].
  split; [apply evict_all_evicted|]. split; [intros; apply unevictable_evict_all|].
  split; [done|]. split; [done|]. rewrite Z.leb_le. by intros ? ? [= <-].
Qed.

Lemma make_room_spec `{BuildProfile} st d need p pool :
  wf st → st_pools st !! d = Some pool → 0 <= need → pool_used pool + need <= U64_MAX →
  ∃ objs' pool',
    make_room st d need p =
      Ret (mkState objs' (<[d := pool']> (st_pools st)), can_fit st p need d) ∧
    wf (mkState objs' (<[d := pool']> (st_pools st))) ∧
    evicted d p (st_objects st) objs' ∧
    (∀ d', unevictable d' p objs' = unevictable d' p (st_objects st)) ∧
    pool_capacity pool' = pool_capacity pool ∧ pool_used pool' <= pool_used pool ∧
    (can_fit st p need d = true →
     ∀ cap, pool_capacity pool = Some cap → pool_used pool' + need <= cap).
Proof. intros Hwf Hd Hn Hle. by destruct (make_room_at st d need p pool Hwf Hd Hn Hle) as [?|[? _]]. Qed.
