(* ===== verification/MemoryCopy.v ===== *)
(** * Byte copies of the [Memory] backend: [gather], [scatter], [ReplicaData::read]

    [contents h iovs] is the byte string an iov list denotes.  [gather] returns
    it; [scatter] makes the destination's contents equal to its source; a read
    of an [External] replica walks the segment list and returns the requested
    sub-range of its contents. *)

From S2P Require Import Prelude HostMem Types Region Memory.

(** The bytes of [n] addresses from [a] (empty when they are not mapped). *)
Definition bytes_at (h : heap) (a n : Z) : bytes := default [] (load h a (Z.to_nat n)).

Definition contents (h : heap) (iovs : list Iov) : bytes :=
  mjoin ((λ v, bytes_at h (iov_as_ptr v) (iov_len v)) <$> iovs).

Definition ranges_disjoint (v w : Iov) : Prop :=
  iov_as_ptr v + iov_len v <= iov_as_ptr w ∨ iov_as_ptr w + iov_len w <= iov_as_ptr v.

(** No two segments of a destination overlap. *)
Definition non_overlapping (iovs : list Iov) : Prop := ForallOrdPairs ranges_disjoint iovs.

(** A validated segment of live memory. *)
Definition iov_live (h : heap) (v : Iov) : Prop := iov_valid h v ∧ in_bounds v = true.

Lemma iov_live_mapped h v : iov_live h v → 0 <= iov_len v ∧ mapped h (iov_as_ptr v) (iov_len v).
Proof.
  intros [[(Ha & [Hl0 Hl1] & Hle & Hm) Hty] Hb]. pose proof Hty as [[Ho _] [Hn _]].
  apply (in_bounds_spec v Hty) in Hb as [_ Hb]. split; [done|].
  unfold iov_as_ptr, wrapping_add. destruct (decide (iov_len v = 0)) as [Hz|Hz].
  { intros i Hi. rewrite Hz in Hi. lia. }
  rewrite Z.mod_small by lia. eapply mapped_sub; [done|lia..].
Qed.

Lemma bytes_at_load h a n :
  0 <= n → mapped h a n →
  load h a (Z.to_nat n) = Some (bytes_at h a n) ∧ Z.of_nat (length (bytes_at h a n)) = n.
Proof.
  intros Hn Hm. unfold bytes_at. destruct (load_mapped h a (Z.to_nat n)) as [bs Hb].
  { by rewrite Z2Nat.id. }
  rewrite Hb. simpl. split; [done|]. rewrite (load_length _ _ _ _ Hb). lia.
Qed.

Lemma mfoldl_sum_ok `{BuildProfile} t l :
  0 <= t → Forall (Z.le 0) l → t + zsum l <= U64_MAX → mfoldl u64_add t l = Ret (t + zsum l).
Proof.
  intros Ht Hl. revert t Ht. induction Hl as [|x l Hx Hl IH]; intros t Ht Hle; simpl.
  { by rewrite zsum_nil, Z.add_0_r. }
  rewrite zsum_cons in Hle |- *. pose proof (zsum_nonneg l Hl).
  rewrite u64_add_ok by (split; lia). simpl. rewrite IH by lia. f_equal. lia.
Qed.

Lemma live_lens h iovs : Forall (iov_live h) iovs → Forall (Z.le 0) (iov_len <$> iovs).
Proof.
  intros Hl. apply Forall_fmap. eapply Forall_impl; [exact Hl|].
  intros v Hv. by destruct (iov_live_mapped _ _ Hv).
Qed.

Lemma contents_length h iovs :
  Forall (iov_live h) iovs → Z.of_nat (length (contents h iovs)) = total_len iovs.
Proof.
  unfold contents, total_len. induction 1 as [|v iovs Hv Hl IH]; csimpl; [done|].
  rewrite zsum_cons, length_app, Nat2Z.inj_add, IH.
  apply iov_live_mapped in Hv as [H0 Hm]. by destruct (bytes_at_load _ _ _ H0 Hm) as [_ ->].
Qed.

Lemma gather_spec `{BuildProfile} h iovs :
  Forall (iov_live h) iovs → total_len iovs <= U64_MAX → gather h iovs = Ret (contents h iovs).
Proof.
  intros Hl Ht. unfold gather. rewrite mfoldl_sum_ok; [|done|by eapply live_lens|done]. simpl.
  clear Ht. change (contents h iovs) with ([] ++ contents h iovs).
  generalize (@nil Z). induction Hl as [|v iovs Hv Hl IH]; intros out; simpl.
  { by rewrite app_nil_r. }
  apply iov_live_mapped in Hv as [H0 Hm].
  destruct (bytes_at_load _ _ _ H0 Hm) as [-> _]. simpl. rewrite IH.
  unfold contents. csimpl. by rewrite (assoc_L (++)).
Qed.

Lemma slice_ok b off n :
  0 <= off → 0 <= n → off + n <= Z.of_nat (length b) →
  slice b off (off + n) = Ret (take (Z.to_nat n) (drop (Z.to_nat off) b)).
Proof.
  intros. unfold slice. rewrite decide_True by lia. do 3 f_equal. lia.
Qed.

Lemma iov_live_store h h' a bs v : store h a bs = Some h' → iov_live h v → iov_live h' v.
Proof.
  intros Hs [[(? & ? & ? & Hm) ?] ?]. split; [split; [|done]|done].
  do 3 (split; [done|]). by apply (store_mapped_iff _ _ _ _ _ _ Hs).
Qed.

(** [scatter] returns whenever the source is long enough; it maps and unmaps
    nothing and writes only inside the destination segments. *)
Lemma scatter_from_ret `{BuildProfile} h src off iovs :
  Forall (iov_live h) iovs → 0 <= off → off + total_len iovs <= Z.of_nat (length src) →
  Z.of_nat (length src) <= U64_MAX →
  ∃ h', scatter_from h src off iovs = Ret h' ∧
    (∀ i, is_Some (h' !! i) ↔ is_Some (h !! i)) ∧
    (∀ i, (∀ v, v ∈ iovs → ¬ (iov_as_ptr v <= i < iov_as_ptr v + iov_len v)) → h' !! i = h !! i).
Proof.
  intros Hl. revert h off Hl. induction iovs as [|v iovs IH]; intros h off Hl Ho Hle Hmax; simpl.
  { eauto. }
  apply Forall_cons in Hl as [Hv Hl]. pose proof (iov_live_mapped _ _ Hv) as [H0 Hm].
  unfold total_len in Hle. rewrite fmap_cons, zsum_cons in Hle.
  pose proof (zsum_nonneg _ (live_lens _ _ Hl)).
  rewrite u64_add_ok by (split; lia). simpl. rewrite slice_ok by lia. simpl.
  set (chunk := take _ _).
  assert (length chunk = Z.to_nat (iov_len v)) as Hc.
  { unfold chunk. rewrite length_take, length_drop. lia. }
  destruct (store_mapped h (iov_as_ptr v) chunk) as [h1 Hh1].
  { by rewrite Hc, Z2Nat.id. }
  rewrite Hh1. simpl.
  destruct (IH h1 (off + iov_len v)) as (h' & -> & Hdom & Hfr); [|lia|unfold total_len; lia|done|].
  { eapply Forall_impl; [exact Hl|]. intros w. by apply (iov_live_store _ _ _ _ _ Hh1). }
  exists h'. split; [done|]. split.
  - intros i. by rewrite Hdom, (store_dom _ _ _ _ _ Hh1).
  - intros i Hi. rewrite Hfr by (intros w Hw; apply Hi; by right).
    eapply store_lookup_ne; [done|]. rewrite Hc, Z2Nat.id by done. apply Hi. left.
Qed.

Lemma bytes_at_ext h h' a n :
  (∀ i, a <= i < a + n → h' !! i = h !! i) → bytes_at h' a n = bytes_at h a n.
Proof.
  intros Hext. unfold bytes_at. rewrite (load_ext h h'); [done|].
  intros i Hi. apply Hext. lia.
Qed.

(** With disjoint segments the destination ends up holding the source. *)
Lemma scatter_from_contents `{BuildProfile} h src off iovs h' :
  Forall (iov_live h) iovs → non_overlapping iovs → 0 <= off →
  off + total_len iovs <= Z.of_nat (length src) → Z.of_nat (length src) <= U64_MAX →
  scatter_from h src off iovs = Ret h' →
  contents h' iovs = take (Z.to_nat (total_len iovs)) (drop (Z.to_nat off) src).
Proof.
  intros Hl Hd. revert h off Hl. induction Hd as [|v iovs Hv Hd IH];
    intros h off Hl Ho Hle Hmax Hs; simpl in Hs; [done|].
  apply Forall_cons in Hl as [Hlv Hl]. pose proof (iov_live_mapped _ _ Hlv) as [H0 Hm].
  unfold total_len in *. rewrite fmap_cons, zsum_cons in *.
  pose proof (zsum_nonneg _ (live_lens _ _ Hl)).
  rewrite u64_add_ok in Hs by (split; lia). simpl in Hs. rewrite slice_ok in Hs by lia. simpl in Hs.
  set (chunk := take (Z.to_nat (iov_len v)) (drop (Z.to_nat off) src)) in *.
  assert (length chunk = Z.to_nat (iov_len v)) as Hc.
  { unfold chunk. rewrite length_take, length_drop. lia. }
  destruct (store h (iov_as_ptr v) chunk) as [h1|] eqn:Hh1; [|done]. simpl in Hs.
  assert (Forall (iov_live h1) iovs) as Hl1.
  { eapply Forall_impl; [exact Hl|]. intros w. by apply (iov_live_store _ _ _ _ _ Hh1). }
  unfold contents. csimpl. fold (contents h' iovs).
  rewrite (IH h1 (off + iov_len v)) by (done || lia).
  assert (bytes_at h' (iov_as_ptr v) (iov_len v) = chunk) as ->.
  { destruct (scatter_from_ret h1 src (off + iov_len v) iovs) as (h2 & Hs' & _ & Hfr);
      [done|lia|unfold total_len; lia|done|]. rewrite Hs in Hs'. injection Hs' as <-.
    rewrite (bytes_at_ext h1).
    - unfold bytes_at. by rewrite <- Hc, (load_store_eq _ _ _ _ Hh1).
    - intros i Hi. apply Hfr. intros w Hw. rewrite Forall_forall in Hv.
      destruct (Hv w Hw); lia. }
  unfold chunk. rewrite Z2Nat.inj_add, Z2Nat.inj_add by done.
  by rewrite <- drop_drop, take_take_drop.
Qed.

(** ** Reading replicas *)

Definition seg_live (h : heap) (s : usize * u64) : Prop :=
  0 <= s.1 ∧ 0 <= s.2 ∧ s.1 + s.2 <= 2 ^ 64 ∧ mapped h s.1 s.2.

Definition segs_contents (h : heap) (segs : list (usize * u64)) : bytes :=
  mjoin ((λ s, bytes_at h s.1 s.2) <$> segs).

(** The bytes a replica holds: its own, or those of the published memory. *)
Definition replica_bytes (h : heap) (d : ReplicaData) : bytes :=
  match d with Owned b => b | ExternalSegs segs _ => segs_contents h segs end.

(** The memory an [External] replica points to is mapped. *)
Definition replica_live (h : heap) (d : ReplicaData) : Prop :=
  match d with Owned _ => True | ExternalSegs segs _ => Forall (seg_live h) segs end.

Lemma bytes_at_take h a n skip m :
  0 <= skip → 0 <= m → skip + m <= n → mapped h a n →
  bytes_at h (a + skip) m = take (Z.to_nat m) (drop (Z.to_nat skip) (bytes_at h a n)).
Proof.
  intros H0 Hm Hle Hmap.
  destruct (bytes_at_load h a n) as [Hl Hn]; [lia|done|].
  destruct (bytes_at_load h (a + skip) m) as [Hl' Hn']; [done|eapply mapped_sub; [done|lia..]|].
  apply list_eq. intros i. rewrite lookup_take. case_decide as Hi.
  - rewrite lookup_drop, (load_lookup _ _ _ _ _ Hl'), (load_lookup _ _ _ _ _ Hl) by lia.
    f_equal. lia.
  - apply lookup_ge_None. lia.
Qed.

Lemma segs_contents_length h segs :
  Forall (seg_live h) segs → Z.of_nat (length (segs_contents h segs)) = zsum (segs.*2).
Proof.
  unfold segs_contents. induction 1 as [|s segs (_ & H0 & _ & Hm) Hl IH]; csimpl; [done|].
  rewrite zsum_cons, length_app, Nat2Z.inj_add, IH.
  by destruct (bytes_at_load _ _ _ H0 Hm) as [_ ->].
Qed.

Lemma read_segs_spec `{BuildProfile} h segs skip want out :
  Forall (seg_live h) segs → 0 <= skip → 0 <= want → skip + want <= zsum (segs.*2) →
  read_segs h segs skip want out =
  Ret (out ++ take (Z.to_nat want) (drop (Z.to_nat skip) (segs_contents h segs))).
Proof.
  intros Hl. revert skip want out. induction Hl as [|[a n] segs (Ha & H0 & Hle & Hm) Hl IH];
    intros skip want out Hs Hw Hsum; csimpl in *.
  { rewrite zsum_nil in Hsum. replace want with 0 by lia. by rewrite take_0, app_nil_r. }
  rewrite zsum_cons in Hsum. pose proof (segs_contents_length h segs Hl).
  destruct (bytes_at_load _ _ _ H0 Hm) as [_ Hlen].
  unfold segs_contents. csimpl. fold (segs_contents h segs).
  destruct (Z.eqb_spec want 0) as [->|Hw0]; [by rewrite take_0, app_nil_r|].
  destruct (Z.leb_spec n skip) as [Hskip|Hskip].
  { rewrite IH by lia. rewrite drop_app_ge by lia. do 4 f_equal. lia. }
  rewrite u64_add_ok by (split; unfold U64_MAX; lia). simpl.
  remember (Z.min (n - skip) want) as m eqn:Em.
  destruct (bytes_at_load h (a + skip) m) as [-> Hlen']; [lia|eapply mapped_sub; [done|lia..]|].
  simpl. rewrite IH by lia. rewrite (bytes_at_take h a n) by (done || lia).
  rewrite <- (assoc_L (++)). do 2 f_equal.
  rewrite drop_app_le by lia. rewrite drop_0.
  rewrite take_app, length_drop. f_equal.
  - destruct (decide (want <= n - skip)).
    + f_equal. lia.
    + rewrite !take_ge; [done|rewrite length_drop; lia..].
  - f_equal. lia.
Qed.

Lemma read_spec `{BuildProfile} h d offset len :
  replica_live h d → 0 <= offset → 0 <= len →
  offset + len <= Z.of_nat (length (replica_bytes h d)) → offset + len <= U64_MAX →
  read h d offset len = Ret (take (Z.to_nat len) (drop (Z.to_nat offset) (replica_bytes h d))).
Proof.
  intros Hl Ho Hn Hle Hmax. destruct d as [b|segs id]; simpl in *.
  - rewrite u64_add_ok by (split; lia). simpl. by apply slice_ok.
  - rewrite read_segs_spec; [done|done|done|done|]. by rewrite <- (segs_contents_length h).
Qed.
