(* ===== verification/MemoryPut.v ===== *)
(** * [Memory::put]

    The placement loop, the charge of the chosen pools, and the whole handler:
    it returns (no panic) under the stated preconditions, preserves the
    invariant, writes each empty slot at most once with the gathered bytes,
    and takes from other objects only evictable owned replicas. *)

From S2P Require Import Prelude HostMem Types Region Memory MemoryEvict MemoryInv MemoryCopy.

(** ** What a put may do to other objects *)

Definition is_owned (r : ReplicaEntry) : bool :=
  match re_data r with Owned _ => true | ExternalSegs _ _ => false end.

(** The published replicas of a slot. *)
Definition externals (s : Slot) : Slot := List.filter (λ r, negb (is_owned r)) s.

(** [s'] is [s] with some owned replicas dropped. *)
Definition slot_shrink (s s' : Slot) : Prop := s' `sublist_of` s ∧ externals s' = externals s.

Definition obj_shrink (o o' : Object) : Prop :=
  obj_spec o' = obj_spec o ∧ Forall2 slot_shrink (obj_slots o) (obj_slots o').

Definition shrinks_at (p k : bytes) (o o' : option Object) : Prop :=
  match o, o' with
  | None, None => True
  | Some o, Some o' =>
      obj_shrink o o' ∧ (k = p ∨ spec_retention (obj_spec o) = Explicit → o' = o)
  | Some o, None =>
      k ≠ p ∧ spec_retention (obj_spec o) = Cache ∧
      Forall (Forall (λ r, is_owned r = true)) (obj_slots o)
  | None, Some _ => False
  end.

(** Eviction over any number of devices, never touching [p]. *)
Definition shrinks (p : bytes) (objs objs' : gmap bytes Object) : Prop :=
  ∀ k, shrinks_at p k (objs !! k) (objs' !! k).

#[global] Instance slot_shrink_refl : Reflexive slot_shrink.
Proof. intros s. by split. Qed.

#[global] Instance slot_shrink_trans : Transitive slot_shrink.
Proof. intros s1 s2 s3 [H1 K1] [H2 K2]. split; [by etrans|congruence]. Qed.

Lemma externals_nil s : externals s = [] ↔ Forall (λ r, is_owned r = true) s.
Proof.
  induction s as [|r s IH]; [by split|]. unfold externals. simpl. rewrite Forall_cons.
  destruct (is_owned r); simpl; [|by split; [|intros [? _]]]. rewrite <- IH. unfold externals. tauto.
Qed.

#[global] Instance obj_shrink_refl : Reflexive obj_shrink.
Proof. by split. Qed.

#[global] Instance obj_shrink_trans : Transitive obj_shrink.
Proof. intros o1 o2 o3 [? H1] [? H2]. split; [congruence|by etrans]. Qed.

#[global] Instance shrinks_refl p : Reflexive (shrinks p).
Proof. intros m k. destruct (m !! k); simpl; [split; [done|auto]|done]. Qed.

Lemma obj_shrink_all_owned o o' :
  obj_shrink o o' → Forall (Forall (λ r, is_owned r = true)) (obj_slots o') →
  Forall (Forall (λ r, is_owned r = true)) (obj_slots o).
Proof.
  intros [_ Hs]. induction Hs as [|s s' l l' [_ Hs] Hl IH]; [constructor|].
  rewrite !Forall_cons. intros [Hs' Hl']. split; [|auto].
  apply externals_nil. rewrite <- Hs. by apply externals_nil.
Qed.

#[global] Instance shrinks_trans p : Transitive (shrinks p).
Proof.
  intros m1 m2 m3 H12 H23 k. specialize (H12 k). specialize (H23 k).
  destruct (m1 !! k) as [o1|], (m2 !! k) as [o2|], (m3 !! k) as [o3|]; simpl in *; try done.
  - destruct H12 as [E12 P12], H23 as [E23 P23]. split; [by etrans|].
    intros Hk. rewrite P23; [by apply P12|]. destruct E12 as [-> _]. done.
  - destruct H12 as [E12 P12], H23 as (Hp & Hc & Ho). pose proof E12 as [Hs _].
    rewrite Hs in Hc. split_and!; [done|done|]. by eapply obj_shrink_all_owned.
Qed.

Lemma owned_on_is_owned d r : owned_on d r = true → is_owned r = true.
Proof. unfold owned_on, is_owned. by destruct (re_data r). Qed.

Lemma slot_ev_shrink d s s' : slot_ev d s s' → slot_shrink s s'.
Proof.
  intros [->| ->]; [done|]. split; [apply unowned_sublist|].
  induction s as [|r s IH]; [done|]. unfold unowned, externals in *. simpl.
  destruct (owned_on d r) eqn:Ho; simpl; [by rewrite (owned_on_is_owned _ _ Ho)|].
  destruct (is_owned r); simpl; by rewrite IH.
Qed.

Lemma evicted_shrinks d p objs objs' : evicted d p objs objs' → shrinks p objs objs'.
Proof.
  intros Hev k. specialize (Hev k).
  destruct (objs !! k) as [o|], (objs' !! k) as [o'|]; simpl in *; try done.
  - destruct Hev as [[Hs Hev] Hp]. split; [|done]. split; [done|].
    eapply Forall2_impl; [done|]. apply slot_ev_shrink.
  - destruct Hev as (Hp & Hc & Hall). split_and!; [done..|].
    eapply Forall_impl; [exact Hall|]. intros s Hs.
    eapply Forall_impl; [exact Hs|]. apply owned_on_is_owned.
Qed.

(** Pools keep their device and capacity; [used] does not grow. *)
Definition pools_le (pools pools' : gmap Device Pool) : Prop :=
  ∀ d, match pools !! d, pools' !! d with
       | Some p, Some p' => pool_capacity p' = pool_capacity p ∧ pool_used p' <= pool_used p
       | None, None => True
       | _, _ => False
       end.

#[global] Instance pools_le_refl : Reflexive pools_le.
Proof. intros m d. by destruct (m !! d). Qed.

#[global] Instance pools_le_trans : Transitive pools_le.
Proof.
  intros m1 m2 m3 H12 H23 d. specialize (H12 d). specialize (H23 d).
  destruct (m1 !! d), (m2 !! d), (m3 !! d); try done.
  destruct H12, H23. split; [congruence|lia].
Qed.

Lemma pools_le_insert pools d p p' :
  pools !! d = Some p → pool_capacity p' = pool_capacity p → pool_used p' <= pool_used p →
  pools_le pools (<[d := p']> pools).
Proof.
  intros Hd Hc Hu d'. destruct (decide (d = d')) as [<-|].
  - by rewrite Hd, lookup_insert_eq.
  - rewrite lookup_insert_ne by done. apply pools_le_refl.
Qed.

Lemma pools_le_Some pools pools' d p' :
  pools_le pools pools' → pools' !! d = Some p' →
  ∃ p, pools !! d = Some p ∧ pool_capacity p' = pool_capacity p ∧ pool_used p' <= pool_used p.
Proof. intros Hle Hd. specialize (Hle d). rewrite Hd in Hle. destruct (pools !! d); [eauto|done]. Qed.

Lemma pools_le_is_Some pools pools' d :
  pools_le pools pools' → is_Some (pools' !! d) ↔ is_Some (pools !! d).
Proof.
  intros Hle. specialize (Hle d). destruct (pools !! d), (pools' !! d); split; intros [? ?]; eauto; done.
Qed.

(** ** The candidate loop *)

(** Room for [n] more bytes in every pool's [u64] counter. *)
Definition headroom (pools : gmap Device Pool) (n : Z) : Prop :=
  ∀ d p, pools !! d = Some p → pool_used p + n <= U64_MAX.

Lemma headroom_le pools pools' n : pools_le pools pools' → headroom pools n → headroom pools' n.
Proof.
  intros Hle Hh d p' Hd. destruct (pools_le_Some _ _ _ _ Hle Hd) as (p & Hp & _ & Hu).
  specialize (Hh _ _ Hp). lia.
Qed.

(** A pool that can still take [len] bytes without eviction. *)
Definition fits (pools : gmap Device Pool) (len : Z) (d : Device) : Prop :=
  ∃ p, pools !! d = Some p ∧ ∀ cap, pool_capacity p = Some cap → pool_used p + len <= cap.

(** The targets of a candidate list, when [fit] says which devices have room:
    all of them up to the first that does not fit ([Each]), or the first that
    fits. *)
Definition targets_of (each : bool) (fit : Device → bool) (cs : list (Device * bool))
    : list (Device * bool) :=
  if each then take_while (λ c, fit c.1) cs
  else match List.find (λ c, fit c.1) cs with Some c => [c] | None => [] end.

Definition place_err (e : Error) : Prop := err_kind e = NoSpace ∨ err_kind e = InvalidInput.

(** Same devices have room before and after eviction for the same key. *)
Lemma can_fit_evict st p len d pool pool' objs' :
  st_pools st !! d = Some pool → pool_capacity pool' = pool_capacity pool →
  (∀ d', unevictable d' p objs' = unevictable d' p (st_objects st)) →
  ∀ x, can_fit (mkState objs' (<[d := pool']> (st_pools st))) p len x = can_fit st p len x.
Proof.
  intros Hd Hc Hu x. unfold can_fit. simpl.
  destruct (decide (d = x)) as [<-|].
  - by rewrite lookup_insert_eq, Hd, Hc, Hu.
  - by rewrite lookup_insert_ne, Hu by done.
Qed.

Lemma targets_of_ext each f g cs : (∀ x, f x = g x) → targets_of each f cs = targets_of each g cs.
Proof.
  intros Hfg. unfold targets_of. destruct each.
  - induction cs as [|c cs IH]; simpl; [done|]. by rewrite Hfg, IH.
  - assert (List.find (λ c, f c.1) cs = List.find (λ c : Device * bool, g c.1) cs) as ->; [|done].
    induction cs as [|c cs IH]; simpl; [done|]. by rewrite Hfg, IH.
Qed.

Lemma fits_le pools pools' len d : pools_le pools pools' → fits pools len d → fits pools' len d.
Proof.
  intros Hle (p & Hp & Hf). pose proof (Hle d) as Hd. rewrite Hp in Hd.
  destruct (pools' !! d) as [p'|] eqn:Hp'; [|done]. destruct Hd as [Hc Hu].
  exists p'. split; [done|]. intros cap Hcap. rewrite Hc in Hcap. specialize (Hf _ Hcap). lia.
Qed.

Section Put.
Context `{BuildProfile} {stale : bool}.

(** What the candidate loop leaves behind. *)
Record tried (each : bool) (len : Z) (kb : bytes) (st : State) (cs : list (Device * bool))
    (err : option Error) (st' : State) (err' : option Error) : Prop := mkTried {
  tried_wf : wf_at stale st';
  tried_shrinks : shrinks kb (st_objects st) (st_objects st');
  tried_pools : pools_le (st_pools st) (st_pools st');
  tried_err e : err' = Some e → place_err e;
  tried_each : each = true →
    err' = None ↔ err = None ∧ forallb (λ c, can_fit st kb len c.1) cs = true;
  tried_fits c : c ∈ targets_of each (can_fit st kb len) cs → fits (st_pools st') len c.1;
}.

(** The loop goes on after candidate [c]. *)
Lemma tried_rec each len kb st st1 c cs err err1 st' err' :
  shrinks kb (st_objects st) (st_objects st1) → pools_le (st_pools st) (st_pools st1) →
  (∀ x, can_fit st1 kb len x = can_fit st kb len x) →
  can_fit st kb len c.1 = each →
  (each = true → err1 = err ∧ fits (st_pools st1) len c.1) →
  tried each len kb st1 cs err1 st' err' →
  tried each len kb st (c :: cs) err st' err' ∧
  targets_of each (can_fit st kb len) (c :: cs) =
    (if each then [c] else []) ++ targets_of each (can_fit st1 kb len) cs.
Proof.
  intros Hsh Hple Hcf Hc He [Twf Tsh Tp Terr Teach Tfits].
  assert (targets_of each (can_fit st kb len) (c :: cs) =
    (if each then [c] else []) ++ targets_of each (can_fit st1 kb len) cs) as Hto.
  { rewrite (targets_of_ext each (can_fit st1 kb len) (can_fit st kb len)) by done.
    unfold targets_of. simpl. rewrite Hc. by destruct each. }
  split; [|done]. split; [done|by etrans|by etrans|done| |].
  - intros ->. destruct (He eq_refl) as [-> _]. rewrite (Teach eq_refl). simpl. rewrite Hc. simpl.
    assert (forallb (λ c, can_fit st1 kb len c.1) cs = forallb (λ c, can_fit st kb len c.1) cs)
      as ->; [|done].
    clear -Hcf. induction cs as [|x cs IH]; simpl; [done|]. by rewrite Hcf, IH.
  - intros x. rewrite Hto. rewrite elem_of_app. intros [Hx|Hx]; [|by apply Tfits].
    destruct each; [|by apply elem_of_nil in Hx].
    apply list_elem_of_singleton in Hx as ->. destruct (He eq_refl) as [_ Hfit].
    by eapply fits_le.
Qed.

(** The loop breaks at candidate [c]. *)
Lemma tried_stop each len kb st c cs err st' err' :
  wf_at stale st' → shrinks kb (st_objects st) (st_objects st') → pools_le (st_pools st) (st_pools st') →
  (∀ e, err' = Some e → place_err e) → can_fit st kb len c.1 = negb each →
  (each = true → is_Some err') → (each = false → fits (st_pools st') len c.1) →
  tried each len kb st (c :: cs) err st' err' ∧
  targets_of each (can_fit st kb len) (c :: cs) = if each then [] else [c].
Proof.
  intros Hwf Hsh Hp Herr Hc He Hf.
  assert (targets_of each (can_fit st kb len) (c :: cs) = if each then [] else [c]) as Hto.
  { unfold targets_of. simpl. rewrite Hc. by destruct each. }
  split; [|done]. split; [done..| |].
  - intros ->. destruct (He eq_refl) as [e ->]. simpl. rewrite Hc. simpl. split; [done|].
    by intros [_ ?].
  - intros x. rewrite Hto. destruct each; [by intros ?%elem_of_nil|].
    intros ->%list_elem_of_singleton. auto.
Qed.

Lemma try_candidates_spec each len kb cs st ts err :
  wf_at stale st → 0 <= len → headroom (st_pools st) len → (∀ e, err = Some e → place_err e) →
  (∃ st' err',
    try_candidates each len kb st cs ts err =
      Ret (st', ts ++ targets_of each (can_fit st kb len) cs, err') ∧
    tried each len kb st cs err st' err') ∨
  stale = true ∧ try_candidates each len kb st cs ts err = Panicked.
Proof.
  intros Hwf Hlen. revert st ts err Hwf.
  induction cs as [|[d m] cs IH]; intros st ts err Hwf Hh Herr.
  { left. exists st, err. assert (targets_of each (can_fit st kb len) [] = []) as -> by (by destruct each).
    rewrite app_nil_r. split; [done|]. split; try done; [by simpl; tauto|].
    intros c. destruct each; by intros ?%elem_of_nil. }
  cbn [try_candidates]. destruct (st_pools st !! d) as [pool|] eqn:Hd.
  2:{ assert (can_fit st kb len d = false) as Hcf by (unfold can_fit; by rewrite Hd).
      assert (∀ e, Some (unknown_device d) = Some e → place_err e) as Herr'
        by (intros e [= <-]; by right).
      destruct each.
      - destruct (tried_stop true len kb st (d, m) cs err st (Some (unknown_device d)))
          as [Ht ->]; try done. rewrite app_nil_r. left. eauto.
      - destruct (IH st ts _ Hwf Hh Herr') as [(st' & err' & Hr & Ht)|?]; [left|by right].
        destruct (tried_rec false len kb st st (d, m) cs err (Some (unknown_device d)) st' err') as [Ht' ->]; try done.
        eauto. }
  destruct (make_room_at (stale := stale) st d len kb pool)
    as [(objs1 & pool1 & Hmr & Hwf1 & Hev & Hun & Hcap & Hus & Hfit)|[? ->]]; [done|done|done|by apply (Hh d)| |by right].
  rewrite Hmr. cbn [mbind outcome_bind].
  set (st1 := mkState objs1 (<[d := pool1]> (st_pools st))) in *.
  pose proof (evicted_shrinks _ _ _ _ Hev) as Hsh.
  assert (pools_le (st_pools st) (st_pools st1)) as Hple by (by eapply pools_le_insert).
  assert (headroom (st_pools st1) len) as Hh1 by (by eapply headroom_le).
  pose proof (can_fit_evict st kb len d pool pool1 objs1 Hd Hcap Hun) as Hcfe. fold st1 in Hcfe.
  assert (can_fit st kb len d = true → fits (st_pools st1) len d) as Hfits.
  { intros Hcf. exists pool1. simpl. rewrite lookup_insert_eq. split; [done|].
    rewrite Hcap. by apply Hfit. }
  assert (∀ e, Some (no_fit d len) = Some e → place_err e) as Herr' by (intros e [= <-]; by left).
  destruct (can_fit st kb len d) eqn:Hcf, each.
  - destruct (IH st1 (ts ++ [(d, m)]) err Hwf1 Hh1 Herr) as [(st' & err' & Hr & Ht)|?]; [left|by right].
    destruct (tried_rec true len kb st st1 (d, m) cs err err st' err') as [Ht' ->]; try done; [by auto|].
    rewrite (assoc_L (++)). eauto.
  - destruct (tried_stop false len kb st (d, m) cs err st1 err) as [Ht ->]; try done; [by auto|]. left. eauto.
  - destruct (tried_stop true len kb st (d, m) cs err st1 (Some (no_fit d len))) as [Ht ->]; try done.
    rewrite app_nil_r. left. eauto.
  - destruct (IH st1 ts (Some (no_fit d len)) Hwf1 Hh1 Herr') as [(st' & err' & Hr & Ht)|?]; [left|by right].
    destruct (tried_rec false len kb st st1 (d, m) cs err (Some (no_fit d len)) st' err') as [Ht' ->]; try done.
    eauto.
Qed.

(** ** Charging the chosen pools *)

Definition count_on (d : Device) (ts : list (Device * bool)) : nat :=
  length (filter (λ t, t.1 = d) ts).

(** A pool after one [charge] per target on its device. *)
Definition charged (kb : bytes) (i : u32) (len : u64) (ts : list (Device * bool))
    (d : Device) (p : Pool) : Pool :=
  mkPool (pool_capacity p) (pool_used p + len * Z.of_nat (count_on d ts))
         (pool_fifo p ++ replicate (count_on d ts) (kb, i)).

Definition charged_pools (kb : bytes) (i : u32) (len : u64) (ts : list (Device * bool))
    (pools : gmap Device Pool) : gmap Device Pool :=
  map_imap (λ d p, Some (charged kb i len ts d p)) pools.

Lemma count_on_cons d t ts :
  count_on d (t :: ts) = ((if decide (t.1 = d) then 1 else 0) + count_on d ts)%nat.
Proof. unfold count_on. rewrite filter_cons. by case_decide. Qed.

Lemma count_on_le d ts : (count_on d ts <= length ts)%nat.
Proof. apply length_filter. Qed.

Lemma count_on_pos d ts : (0 < count_on d ts)%nat ↔ ∃ m, (d, m) ∈ ts.
Proof.
  induction ts as [|[d' m'] ts IH].
  { split; [cbn; lia|]. by intros [m ?%elem_of_nil]. }
  rewrite count_on_cons. simpl. case_decide as Hd; subst; split.
  - intros _. exists m'. left.
  - lia.
  - intros Hc. apply IH in Hc as [m Hm]. exists m. by right.
  - intros [m [|Hm]%elem_of_cons]; [congruence|]. apply IH. eauto.
Qed.

Lemma count_on_NoDup d ts : NoDup (ts.*1) → (count_on d ts <= 1)%nat.
Proof.
  induction ts as [|[d' m'] ts IH]; csimpl; [intros _; cbn; lia|]. intros [Hd Hnd]%NoDup_cons.
  rewrite count_on_cons. simpl. specialize (IH Hnd). case_decide as Hdd; [subst|lia].
  assert (¬ (0 < count_on d ts)%nat); [|lia].
  intros [m Hm]%count_on_pos. apply Hd. apply list_elem_of_fmap. by exists (d, m).
Qed.

Lemma lookup_charged kb i len ts pools d :
  charged_pools kb i len ts pools !! d = charged kb i len ts d <$> pools !! d.
Proof. unfold charged_pools. rewrite map_lookup_imap. by destruct (pools !! d). Qed.

Lemma charged_pools_nil kb i len pools : charged_pools kb i len [] pools = pools.
Proof.
  apply map_eq. intros d. rewrite lookup_charged. destruct (pools !! d) as [[c u f]|]; [|done].
  simpl. unfold charged. simpl. by rewrite Z.mul_0_r, Z.add_0_r, app_nil_r.
Qed.

Lemma charged_pools_cons kb i len t ts pools p :
  pools !! t.1 = Some p →
  charged_pools kb i len ts
    (<[t.1 := mkPool (pool_capacity p) (pool_used p + len) (pool_fifo p ++ [(kb, i)])]> pools)
  = charged_pools kb i len (t :: ts) pools.
Proof.
  intros Hp. apply map_eq. intros d. rewrite !lookup_charged.
  destruct (decide (t.1 = d)) as [<-|Hne].
  - rewrite lookup_insert_eq, Hp. simpl. unfold charged. simpl.
    rewrite count_on_cons, decide_True by done.
    rewrite <- (assoc_L (++)). simpl. do 2 f_equal. lia.
  - rewrite lookup_insert_ne by done. destruct (pools !! d); [|done]. simpl. unfold charged.
    by rewrite count_on_cons, decide_False by done.
Qed.

Lemma charges_spec kb i len ts st :
  0 <= len → Forall (λ t, is_Some (st_pools st !! t.1)) ts →
  (∀ d p, st_pools st !! d = Some p → 0 <= pool_used p) →
  headroom (st_pools st) (len * Z.of_nat (length ts)) →
  mfoldl (λ st t, charge st (fst t) kb i len) st ts =
    Ret (mkState (st_objects st) (charged_pools kb i len ts (st_pools st))).
Proof.
  intros Hlen. revert st. induction ts as [|t ts IH]; intros st Hts H0 Hh.
  { simpl. rewrite charged_pools_nil. by destruct st. }
  apply Forall_cons in Hts as [[p Hp] Hts]. simpl length in Hh.
  assert (pool_used p + len <= U64_MAX) as Hle by (specialize (Hh _ _ Hp); nia).
  cbn [mfoldl]. unfold charge at 2. rewrite Hp. cbn [unwrap mbind outcome_bind].
  rewrite u64_add_ok by (specialize (H0 _ _ Hp); split; lia). cbn [mbind outcome_bind].
  rewrite IH; simpl.
  - by rewrite charged_pools_cons.
  - eapply Forall_impl; [exact Hts|]. intros x Hx. rewrite lookup_insert_is_Some.
    destruct (decide (t.1 = x.1)); auto.
  - intros d q [[<- <-]|[_ Hq]]%lookup_insert_Some; [|by eapply H0].
    simpl. specialize (H0 _ _ Hp). lia.
  - intros d q [[<- <-]|[_ Hq]]%lookup_insert_Some.
    + simpl. specialize (Hh _ _ Hp). lia.
    + specialize (Hh _ _ Hq). nia.
Qed.

(** ** The state after a slot is written *)

Definition new_replicas (b : bytes) (ts : list (Device * bool)) : Slot :=
  (λ '(d, misplaced), mkReplicaEntry d Dram misplaced (Owned b)) <$> ts.

Definition place (st : State) (kb : bytes) (o : Object) (i : nat) (b : bytes)
    (ts : list (Device * bool)) : State :=
  mkState
    (<[kb := mkObject (obj_spec o) (<[i := new_replicas b ts]> (obj_slots o))]> (st_objects st))
    (charged_pools kb (Z.of_nat i) (Z.of_nat (length b)) ts (st_pools st)).

Lemma slot_owned_new d b ts :
  slot_owned d (new_replicas b ts) = Z.of_nat (length b) * Z.of_nat (count_on d ts).
Proof.
  induction ts as [|[d' m] ts IH]; [by rewrite Z.mul_0_r|].
  unfold new_replicas. rewrite fmap_cons, slot_owned_cons. fold (new_replicas b ts).
  rewrite IH, count_on_cons. unfold owned_len. simpl. case_decide; lia.
Qed.

Lemma elem_of_new_replicas r b ts :
  r ∈ new_replicas b ts ↔ ∃ d m, (d, m) ∈ ts ∧ r = mkReplicaEntry d Dram m (Owned b).
Proof.
  unfold new_replicas. rewrite list_elem_of_fmap. split.
  - intros ([d m] & -> & Hin). eauto.
  - intros (d & m & Hin & ->). by exists (d, m).
Qed.

Lemma owned_place d st kb o i b ts :
  st_objects st !! kb = Some o → obj_slots o !! i = Some [] →
  owned d (st_objects (place st kb o i b ts)) =
    owned d (st_objects st) + Z.of_nat (length b) * Z.of_nat (count_on d ts).
Proof.
  intros Ho Hi. unfold owned. simpl. rewrite (map_sum_insert _ _ _ o) by done.
  unfold obj_owned at 3. simpl. rewrite list_fmap_insert, (zsum_insert _ _ _ 0).
  - fold (obj_owned d o). rewrite slot_owned_new. lia.
  - by rewrite list_lookup_fmap, Hi.
Qed.

Lemma is_Some_charged kb i len ts pools d :
  is_Some (pools !! d) → is_Some (charged_pools kb i len ts pools !! d).
Proof. intros [p Hp]. rewrite lookup_charged, Hp. by eexists. Qed.

Lemma idx_ok_insert objs kb o o' e :
  objs !! kb = Some o → length (obj_slots o') = length (obj_slots o) →
  idx_ok objs e → idx_ok (<[kb := o']> objs) e.
Proof.
  intros Ho Hl Hi x [[Hk <-]|[_ Hx]]%lookup_insert_Some; [|by apply Hi].
  rewrite Hl. apply Hi. by rewrite <- Hk.
Qed.

Lemma obj_wf_pools pools pools' o :
  (∀ x, is_Some (pools !! x) → is_Some (pools' !! x)) → obj_wf pools o → obj_wf pools' o.
Proof.
  intros Hp Hwf. eapply Forall2_impl; [exact Hwf|]. intros sp s Hs.
  eapply Forall_impl; [exact Hs|]. intros r [Hl Hr]. split; [done|].
  destruct (re_data r); [|done]. destruct Hr. auto.
Qed.

Lemma obj_wf_insert pools o i spec s :
  obj_wf pools o → spec_slots (obj_spec o) !! i = Some spec →
  Forall (replica_wf pools (spec_len spec)) s →
  obj_wf pools (mkObject (obj_spec o) (<[i := s]> (obj_slots o))).
Proof.
  intros Hwf Hsp Hs. unfold obj_wf. simpl. rewrite <- (list_insert_id _ _ _ Hsp).
  by apply Forall2_insert.
Qed.

Lemma new_replicas_wf pools b ts :
  Forall (λ t, is_Some (pools !! t.1)) ts →
  Forall (replica_wf pools (Z.of_nat (length b))) (new_replicas b ts).
Proof.
  intros Hts. apply Forall_forall. intros r (d & m & Hin & ->)%elem_of_new_replicas.
  split; [done|]. simpl. split; [done|]. rewrite Forall_forall in Hts. apply (Hts _ Hin).
Qed.

(** A FIFO entry for the new replicas is queued on their device. *)
Lemma place_cover st kb o i b ts d p k x j s r :
  wf_at stale st → st_objects st !! kb = Some o → obj_slots o !! i = Some [] →
  st_pools (place st kb o i b ts) !! d = Some p →
  st_objects (place st kb o i b ts) !! k = Some x →
  spec_retention (obj_spec x) = Cache → obj_slots x !! j = Some s → r ∈ s → owned_on d r = true →
  (k, Z.of_nat j) ∈ pool_fifo p.
Proof.
  intros Hwf Ho Hi Hd Hx Hc Hs Hr Hon. simpl in Hd, Hx.
  rewrite lookup_charged in Hd. apply fmap_Some in Hd as (q & Hq & ->).
  simpl. apply elem_of_app.
  apply lookup_insert_Some in Hx as [[<- <-]|[Hne Hx]]; [|left; by eapply wf_cover].
  simpl in *. apply list_lookup_insert_Some in Hs as [(<- & <- & _)|[Hne Hs]].
  2:{ left. by eapply wf_cover. }
  right. apply elem_of_new_replicas in Hr as (d' & m & Hin & ->).
  unfold owned_on in Hon. simpl in Hon. apply bool_decide_eq_true in Hon as <-.
  apply elem_of_replicate. split; [done|].
  assert (0 < count_on d' ts)%nat by (apply count_on_pos; eauto). lia.
Qed.

Lemma wf_place st kb o i spec b ts :
  wf_at stale st → st_objects st !! kb = Some o → obj_slots o !! i = Some [] →
  spec_slots (obj_spec o) !! i = Some spec → Z.of_nat (length b) = spec_len spec →
  Forall (λ t, is_Some (st_pools st !! t.1)) ts →
  headroom (st_pools st) (spec_len spec * Z.of_nat (length ts)) →
  wf_at stale (place st kb o i b ts).
Proof.
  intros Hwf Ho Hi Hsp Hb Hts Hh. constructor.
  - intros k x Hx. simpl in Hx.
    apply lookup_insert_Some in Hx as [[<- <-]|[Hne Hx]];
      (eapply obj_wf_pools; [intros y; apply is_Some_charged|]).
    + eapply obj_wf_insert; [by eapply wf_obj|done|]. rewrite <- Hb. by apply new_replicas_wf.
    + by eapply wf_obj.
  - intros d p Hd. rewrite (owned_place _ _ _ _ _ _ _ Ho Hi). simpl in Hd.
    rewrite lookup_charged in Hd. apply fmap_Some in Hd as (q & Hq & ->).
    simpl. by rewrite (wf_used _ Hwf _ _ Hq).
  - intros d p Hd. simpl in Hd. rewrite lookup_charged in Hd. apply fmap_Some in Hd as (q & Hq & ->).
    simpl. specialize (Hh _ _ Hq). pose proof (count_on_le d ts). nia.
  - intros d p Hst Hd. simpl in Hd. rewrite lookup_charged in Hd. apply fmap_Some in Hd as (q & Hq & ->).
    simpl. apply Forall_app. split.
    + eapply Forall_impl; [by eapply wf_idx|]. intros e. apply idx_ok_insert with o; [done|].
      simpl. by rewrite length_insert.
    + apply Forall_replicate. intros x. simpl. rewrite lookup_insert_eq. intros [= <-]. simpl.
      rewrite length_insert, Nat2Z.id. apply lookup_lt_Some in Hi. lia.
  - intros d p k x j s r Hd Hx. by eapply place_cover.
Qed.

Lemma within_capacity_place st kb o i b ts :
  within_capacity st → NoDup (ts.*1) →
  (∀ t, t ∈ ts → fits (st_pools st) (Z.of_nat (length b)) t.1) →
  within_capacity (place st kb o i b ts).
Proof.
  intros Hw Hnd Hf d p cap Hd Hcap. simpl in Hd. rewrite lookup_charged in Hd.
  apply fmap_Some in Hd as (q & Hq & ->). simpl in *.
  pose proof (count_on_NoDup d ts Hnd) as Hle.
  destruct (decide (count_on d ts = 0%nat)) as [->|Hn].
  { specialize (Hw _ _ _ Hq Hcap). lia. }
  assert (0 < count_on d ts)%nat as [m Hm]%count_on_pos by lia.
  destruct (Hf _ Hm) as (q' & Hq' & Hfit). simpl in Hq'. simplify_eq. specialize (Hfit _ Hcap).
  replace (count_on d ts) with 1%nat by lia. lia.
Qed.
End Put.
