(* ===== verification/MemoryPutOps.v ===== *)
(** * [Memory::put], the handler

    Slot by slot and then the whole operation: [put] returns (it does not panic)
    on every valid operation, keeps the invariant and the capacities, writes
    exactly the empty slots whose placement has room, and reports the rest. *)

From S2P Require Import Prelude HostMem Types Region Memory MemoryEvict MemoryInv MemoryCopy MemoryPut.

(** Pools keep their capacity; [used] grows by at most [n]. *)
Definition pools_grow (n : Z) (pools pools' : gmap Device Pool) : Prop :=
  ∀ d, match pools !! d, pools' !! d with
       | Some p, Some p' => pool_capacity p' = pool_capacity p ∧ pool_used p' <= pool_used p + n
       | None, None => True
       | _, _ => False
       end.

(** Objects under other keys may only have been evicted from. *)
Definition others (kb : bytes) (objs objs' : gmap bytes Object) : Prop :=
  shrinks kb (delete kb objs) (delete kb objs').

#[global] Instance others_refl kb : Reflexive (others kb).
Proof. intros m. unfold others. reflexivity. Qed.

#[global] Instance others_trans kb : Transitive (others kb).
Proof. intros m1 m2 m3. apply shrinks_trans. Qed.

Lemma others_lookup kb objs objs' k :
  others kb objs objs' → k ≠ kb → shrinks_at kb k (objs !! k) (objs' !! k).
Proof. intros Ho Hk. specialize (Ho k). by rewrite !lookup_delete_ne in Ho by done. Qed.

Lemma shrinks_others kb objs objs' : shrinks kb objs objs' → others kb objs objs'.
Proof.
  intros Hs k. destruct (decide (k = kb)) as [->|Hk].
  - by rewrite !lookup_delete_eq.
  - rewrite !lookup_delete_ne by done. apply Hs.
Qed.

Lemma others_insert kb objs o : others kb objs (<[kb := o]> objs).
Proof. unfold others. rewrite delete_insert_eq. reflexivity. Qed.

Lemma shrinks_protected kb objs objs' o :
  shrinks kb objs objs' → objs !! kb = Some o → objs' !! kb = Some o.
Proof.
  intros Hs Ho. specialize (Hs kb). rewrite Ho in Hs.
  destruct (objs' !! kb) as [o'|]; simpl in Hs.
  - destruct Hs as [_ Hs]. by rewrite Hs by auto.
  - by destruct Hs.
Qed.

Lemma pools_grow_trans n m p1 p2 p3 :
  pools_grow n p1 p2 → pools_grow m p2 p3 → pools_grow (n + m) p1 p3.
Proof.
  intros H12 H23 d. specialize (H12 d). specialize (H23 d).
  destruct (p1 !! d), (p2 !! d), (p3 !! d); try done.
  destruct H12, H23. split; [congruence|lia].
Qed.

Lemma pools_le_grow n p1 p2 : 0 <= n → pools_le p1 p2 → pools_grow n p1 p2.
Proof.
  intros Hn Hle d. specialize (Hle d). destruct (p1 !! d), (p2 !! d); try done.
  destruct Hle. split; [done|lia].
Qed.

Lemma headroom_grow n m p1 p2 : pools_grow n p1 p2 → headroom p1 (n + m) → headroom p2 m.
Proof.
  intros Hg Hh d p Hd. specialize (Hg d). rewrite Hd in Hg.
  destruct (p1 !! d) as [q|] eqn:Hq; [|done]. specialize (Hh _ _ Hq). lia.
Qed.

Lemma headroom_mono n m pools : m <= n → headroom pools n → headroom pools m.
Proof. intros Hle Hh d p Hd. specialize (Hh _ _ Hd). lia. Qed.

Lemma charged_grow kb i len ts pools n :
  0 <= len → len * Z.of_nat (length ts) <= n →
  pools_grow n pools (charged_pools kb i len ts pools).
Proof.
  intros Hlen Hle d. rewrite lookup_charged. destruct (pools !! d); [|done]. simpl.
  pose proof (count_on_le d ts). split; [done|nia].
Qed.

Lemma within_capacity_le st st' :
  pools_le (st_pools st) (st_pools st') → within_capacity st → within_capacity st'.
Proof.
  intros Hle Hw d p' cap Hd Hc. destruct (pools_le_Some _ _ _ _ Hle Hd) as (p & Hp & Hcp & Hu).
  rewrite Hcp in Hc. specialize (Hw _ _ _ Hp Hc). lia.
Qed.

(** ** One slot *)

(** How many copies of a slot a placement may charge to one pool. *)
Definition copies (p : Placement) : Z :=
  match p with Each ds => Z.max 1 (Z.of_nat (length ds)) | _ => 1 end.

Definition slot_demand (ps : PutSlot) : Z :=
  spec_len (ps_spec ps) * copies (spec_placement (ps_spec ps)).

(** The placement rule: [Each] needs every device, the others one. *)
Definition placeable (inner : Inner) (st : State) (kb : bytes) (spec : SlotSpec) : bool :=
  let cs := candidates inner (spec_placement spec) in
  if is_each (spec_placement spec)
  then negb (bool_decide (cs = [])) && forallb (λ c, can_fit st kb (spec_len spec) c.1) cs
  else existsb (λ c, can_fit st kb (spec_len spec) c.1) cs.

(** Where the slot goes when it is placeable. *)
Definition targets (inner : Inner) (st : State) (kb : bytes) (spec : SlotSpec)
    : list (Device * bool) :=
  targets_of (is_each (spec_placement spec)) (can_fit st kb (spec_len spec))
             (candidates inner (spec_placement spec)).

(** A placement that names no device twice. *)
Definition placement_nodup (p : Placement) : Prop :=
  match p with Each ds => NoDup ds | _ => True end.

Definition src_ok (h : heap) (ps : PutSlot) : Prop :=
  Forall (iov_live h) (ps_src ps) ∧ total_len (ps_src ps) = spec_len (ps_spec ps) ∧
  0 <= spec_len (ps_spec ps) <= U64_MAX.

Lemma take_while_length {A} (f : A → bool) l : (length (take_while f l) <= length l)%nat.
Proof. induction l as [|x l IH]; simpl; [done|]. destruct (f x); simpl; lia. Qed.

Lemma take_while_all {A} (f : A → bool) l : forallb f l = true → take_while f l = l.
Proof.
  induction l as [|x l IH]; simpl; [done|]. intros [-> Hl]%andb_true_iff. by rewrite IH.
Qed.

Lemma find_existsb {A} (f : A → bool) l : existsb f l = bool_decide (is_Some (List.find f l)).
Proof.
  induction l as [|x l IH]; simpl; [done|]. by destruct (f x).
Qed.

Lemma targets_length inner st kb spec :
  Z.of_nat (length (targets inner st kb spec)) <= copies (spec_placement spec).
Proof.
  unfold targets, targets_of, copies. destruct (spec_placement spec) as [d|d|ds|]; simpl is_each.
  3:{ pose proof (take_while_length (λ c, can_fit st kb (spec_len spec) c.1)
        (candidates inner (Each ds))) as Hl. simpl in Hl |- *. rewrite length_fmap in Hl. lia. }
  all: destruct (List.find _ _); simpl; lia.
Qed.

Lemma take_while_fmap_sublist {A B} (f : A → bool) (g : A → B) l :
  (g <$> take_while f l) `sublist_of` (g <$> l).
Proof.
  induction l as [|x l IH]; simpl; [constructor|]. destruct (f x); simpl; [by constructor|].
  apply sublist_nil_l.
Qed.

Lemma targets_NoDup inner st kb spec :
  placement_nodup (spec_placement spec) → NoDup ((targets inner st kb spec).*1).
Proof.
  unfold targets, targets_of, placement_nodup.
  destruct (spec_placement spec) as [d|d|ds|]; simpl is_each; intros Hnd.
  3:{ eapply sublist_NoDup; [|apply take_while_fmap_sublist]. simpl.
      by rewrite <- list_fmap_compose, list_fmap_id. }
  all: destruct (List.find _ _); csimpl; [apply NoDup_singleton|constructor].
Qed.

Section PutOps.
Context `{BuildProfile} {stale : bool} (inner : Inner) (h : heap) (kb : bytes).

(** What [put_slot] did, as a function of whether the slot was placeable. *)
Definition slot_result (st st' : State) (o : Object) (i : nat) (ps : PutSlot) (r : Result unit) : Prop :=
  if placeable inner st kb (ps_spec ps) then
    r = Ok tt ∧
    st_objects st' !! kb = Some (mkObject (obj_spec o)
      (<[i := new_replicas (contents h (ps_src ps)) (targets inner st kb (ps_spec ps))]> (obj_slots o)))
  else
    st_objects st' !! kb = Some o ∧ ∃ e, r = Err e ∧ place_err e.

Lemma put_slot_ok_flag spec st st' err' :
  tried (stale := stale) (is_each (spec_placement spec)) (spec_len spec) kb st
        (candidates inner (spec_placement spec)) None st' err' →
  (if is_each (spec_placement spec)
   then bool_decide (err' = None) && negb (bool_decide (targets inner st kb spec = []))
   else negb (bool_decide (targets inner st kb spec = []))) = placeable inner st kb spec.
Proof.
  intros [_ _ _ _ Te _]. unfold targets, placeable, targets_of.
  destruct (is_each (spec_placement spec)).
  - specialize (Te eq_refl). destruct (forallb _ _) eqn:Hf.
    + rewrite (bool_decide_true (err' = None)) by tauto. by rewrite take_while_all, andb_true_r.
    + rewrite (bool_decide_false (err' = None)); [by rewrite andb_false_r|].
      intros ?%Te. intuition congruence.
  - rewrite find_existsb. by destruct (List.find _ _).
Qed.

Lemma headroom_one len n pools : 0 <= len → 1 <= n → headroom pools (len * n) → headroom pools len.
Proof. intros. eapply headroom_mono; [|done]. nia. Qed.

Lemma copies_pos p : 1 <= copies p.
Proof. destruct p; simpl; lia. Qed.

(** [put_slot] on an empty slot: [slot_result] says what it does; it panics only on
    a stale entry. *)
Lemma put_slot_at st i ps o :
  wf_at stale st → st_objects st !! kb = Some o → obj_slots o !! i = Some [] →
  spec_slots (obj_spec o) !! i = Some (ps_spec ps) → Z.of_nat i < 2 ^ 32 → src_ok h ps →
  headroom (st_pools st) (slot_demand ps) →
  (∃ st' r, put_slot inner h kb st i ps = Ret (st', r) ∧ wf_at stale st' ∧
    slot_result st st' o i ps r ∧ others kb (st_objects st) (st_objects st') ∧
    pools_grow (slot_demand ps) (st_pools st) (st_pools st') ∧
    (placement_nodup (spec_placement (ps_spec ps)) → within_capacity st → within_capacity st')) ∨
  stale = true ∧ put_slot inner h kb st i ps = Panicked.
Proof.
  intros Hwf Ho Hi Hsp Hi32 (Hlive & Htot & Hlen) Hh. unfold put_slot, slot_result, slot_demand in *.
  set (spec := ps_spec ps) in *. set (len := spec_len spec) in *.
  pose proof (copies_pos (spec_placement spec)) as Hcp.
  destruct (try_candidates_spec (stale := stale) (is_each (spec_placement spec)) len kb
    (candidates inner (spec_placement spec)) st [] None) as [(st1 & err1 & -> & Ht)|[? ->]];
    [done|lia|by apply (headroom_one len (copies (spec_placement spec))); [lia|..]|done|left|by right].
  cbn [mbind outcome_bind app]. change (targets_of _ _ _) with (targets inner st kb spec).
  rewrite (put_slot_ok_flag _ _ _ _ Ht).
  destruct Ht as [Twf Tsh Tp Terr _ Tfits]. pose proof (shrinks_protected _ _ _ _ Tsh Ho) as Ho1.
  destruct (placeable inner st kb spec) eqn:Hpl; simpl.
  2:{ eexists st1, _. split; [done|]. split; [done|]. split.
      { split; [done|]. eexists. split; [done|].
        destruct err1 as [e|]; [|by left]. by destruct (Terr e eq_refl); [left|right]. }
      split; [by apply shrinks_others|]. split; [apply pools_le_grow; [nia|done]|].
      intros _. by apply within_capacity_le. }
  rewrite gather_spec by (done || lia). simpl. rewrite Ho1. simpl. rewrite Hi. simpl.
  rewrite Z.mod_small by lia.
  pose proof (contents_length h (ps_src ps) Hlive) as Hcl. rewrite Htot in Hcl. fold len in Hcl.
  set (b := contents h (ps_src ps)) in *. set (ts := targets inner st kb spec) in *.
  assert (Forall (λ t, is_Some (st_pools st1 !! t.1)) ts) as Hts.
  { apply Forall_forall. intros t Hin. destruct (Tfits t Hin) as (p & Hp & _). eauto. }
  pose proof (targets_length inner st kb spec) as Hcopies. fold ts in Hcopies.
  assert (headroom (st_pools st1) (len * Z.of_nat (length ts))) as Hh1.
  { eapply headroom_le; [done|]. eapply headroom_mono; [|done]. nia. }
  rewrite charges_spec; simpl; [|lia|done| |done].
  2:{ intros d p Hd. rewrite (wf_used _ Twf _ _ Hd). auto with pegastore. }
  exists (place st1 kb o i b ts), (Ok tt). split; [unfold place, new_replicas; by rewrite Hcl|].
  split; [by eapply wf_place|]. split; [split; [done|]; simpl; by rewrite lookup_insert_eq|].
  split; [etrans; [by apply shrinks_others|apply others_insert]|]. split.
  - replace (len * _) with (0 + len * copies (spec_placement spec)) by lia.
    eapply pools_grow_trans; [by apply pools_le_grow|]. simpl. rewrite Hcl. apply charged_grow; nia.
  - intros Hnd Hw. apply within_capacity_place; [by eapply within_capacity_le|by apply targets_NoDup|].
    by rewrite Hcl.
Qed.

(** ** All slots *)

(** The targets a placement allows. *)
Definition placed_by (p : Placement) (ts : list (Device * bool)) : Prop :=
  match p with
  | Strict d => ts = [(d, false)]
  | Prefer d => ts = [(d, false)] ∨ ∃ d', d' ≠ d ∧ d' ∈ in_device_order inner ∧ ts = [(d', true)]
  | Each ds => ds ≠ [] ∧ ts = (λ d, (d, false)) <$> ds
  | Anywhere => ∃ d, d ∈ in_device_order inner ∧ ts = [(d, false)]
  end.

(** The per-slot outcome of a put: [s] before, [s'] after. *)
Definition slot_done (s s' : Slot) (ps : PutSlot) (r : Result unit) : Prop :=
  match r with
  | Ok _ =>
      s = [] ∧ ∃ ts, placed_by (spec_placement (ps_spec ps)) ts ∧
                     s' = new_replicas (contents h (ps_src ps)) ts
  | Err e =>
      s' = s ∧ ((s ≠ [] ∧ err_kind e = AlreadyExists) ∨ (s = [] ∧ place_err e))
  end.

Record put_done (i : nat) (slots : list PutSlot) (st : State) (o : Object)
    (st' : State) (o' : Object) (rs : RpPut) : Prop := mkPutDone {
  pd_wf : wf_at stale st';
  pd_others : others kb (st_objects st) (st_objects st');
  pd_grow : pools_grow (zsum (slot_demand <$> slots)) (st_pools st) (st_pools st');
  pd_obj : st_objects st' !! kb = Some o';
  pd_spec : obj_spec o' = obj_spec o;
  pd_before j : (j < i)%nat → obj_slots o' !! j = obj_slots o !! j;
  pd_length : length rs = length slots;
  pd_slots j ps r : slots !! j = Some ps → rs !! j = Some r →
    ∃ s s', obj_slots o !! (i + j)%nat = Some s ∧ obj_slots o' !! (i + j)%nat = Some s' ∧
            slot_done s s' ps r;
  pd_capacity : Forall (λ ps, placement_nodup (spec_placement (ps_spec ps))) slots →
    within_capacity st → within_capacity st';
}.

Lemma placed_by_nonempty p ts : placed_by p ts → ts ≠ [].
Proof.
  intros Hpl ->. destruct p as [d|d|ds|]; simpl in Hpl; [done|..].
  - by destruct Hpl as [?|(? & _ & _ & ?)].
  - destruct Hpl as [Hne Hnil]. by destruct ds.
  - by destruct Hpl as (? & _ & ?).
Qed.

Lemma placeable_placed_by st spec :
  placeable inner st kb spec = true → placed_by (spec_placement spec) (targets inner st kb spec).
Proof.
  unfold placeable, targets, targets_of, placed_by.
  destruct (spec_placement spec) as [d|d|ds|]; simpl is_each.
  - cbn. destruct (can_fit _ _ _ d); done.
  - rewrite find_existsb, bool_decide_eq_true. intros [c Hc]. rewrite Hc.
    apply find_some in Hc as [Hin _]. rewrite <- list_elem_of_In in Hin. simpl in Hin.
    apply elem_of_cons in Hin as [->|Hin]; [by left|right].
    apply list_elem_of_fmap in Hin as (d' & -> & [Hne Hd']%list_elem_of_filter). eauto.
  - intros [Hne Hall]%andb_true_iff. rewrite take_while_all by done. split; [|done].
    by intros ->.
  - rewrite find_existsb, bool_decide_eq_true. intros [c Hc]. rewrite Hc.
    apply find_some in Hc as [Hin _]. rewrite <- list_elem_of_In in Hin. simpl in Hin.
    apply list_elem_of_fmap in Hin as (d' & -> & Hd'). eauto.
Qed.

Lemma slot_demand_nonneg ps : src_ok h ps → 0 <= slot_demand ps.
Proof.
  intros (_ & _ & Hlen & _). pose proof (copies_pos (spec_placement (ps_spec ps))).
  unfold slot_demand. nia.
Qed.

Lemma demand_nonneg slots : Forall (src_ok h) slots → 0 <= zsum (slot_demand <$> slots).
Proof.
  intros Hs. apply zsum_nonneg, Forall_fmap. eapply Forall_impl; [exact Hs|].
  apply slot_demand_nonneg.
Qed.

(** [slot_result] in the form [slot_done] has, with the rest of the object. *)
Lemma slot_result_done st st' o i ps r :
  slot_result st st' o i ps r → obj_slots o !! i = Some [] →
  ∃ o1, st_objects st' !! kb = Some o1 ∧ obj_spec o1 = obj_spec o ∧
    (∀ j, j ≠ i → obj_slots o1 !! j = obj_slots o !! j) ∧
    ∃ s', obj_slots o1 !! i = Some s' ∧ slot_done [] s' ps r.
Proof.
  unfold slot_result. destruct (placeable _ _ _ _) eqn:Hpl; intros [H1 H2] Hi.
  - subst r. eexists. split; [exact H2|]. simpl. split; [done|]. split.
    + intros j Hj. by apply list_lookup_insert_ne.
    + eexists. split; [apply list_lookup_insert_eq; by eapply lookup_lt_Some|].
      split; [done|]. eexists. split; [|done]. by apply placeable_placed_by.
  - destruct H2 as (e & -> & He). exists o. split; [done|]. do 2 (split; [done|]).
    exists []. split; [done|]. split; [done|]. by right.
Qed.

(** The step from slot [i] to the rest of the list. *)
Lemma put_done_cons i ps slots st o st1 o1 st' o' r rs :
  st_objects st !! kb = Some o → 0 <= slot_demand ps →
  others kb (st_objects st) (st_objects st1) →
  pools_grow (slot_demand ps) (st_pools st) (st_pools st1) →
  obj_spec o1 = obj_spec o → (∀ j, j ≠ i → obj_slots o1 !! j = obj_slots o !! j) →
  (∃ s s', obj_slots o !! i = Some s ∧ obj_slots o1 !! i = Some s' ∧ slot_done s s' ps r) →
  (placement_nodup (spec_placement (ps_spec ps)) → within_capacity st → within_capacity st1) →
  put_done (S i) slots st1 o1 st' o' rs → put_done i (ps :: slots) st o st' o' (r :: rs).
Proof.
  intros Ho Hd Hoth Hg Hsp Hne (s & s' & Hs & Hs' & Hdone) Hcap [P1 P2 P3 P4 P5 P6 P7 P8 P9].
  constructor; [done|by etrans| |done|congruence| |csimpl; by rewrite P7| |].
  - csimpl. rewrite zsum_cons. by eapply pools_grow_trans.
  - intros j Hj. rewrite P6 by lia. apply Hne. lia.
  - intros [|j] ps' r' Hps Hr; simplify_eq/=.
    + rewrite Nat.add_0_r. exists s, s'. split; [done|]. split; [by rewrite P6 by lia|done].
    + destruct (P8 _ _ _ Hps Hr) as (t & t' & Ht & Ht' & Hd'). exists t, t'.
      replace (i + S j)%nat with (S i + j)%nat by lia. rewrite <- Hne by lia. done.
  - intros [Hn Hnd]%Forall_cons Hw. auto.
Qed.

Lemma put_slots_at writable slots i st o results :
  wf_at stale st → st_objects st !! kb = Some o →
  (∀ j ps, slots !! j = Some ps → spec_slots (obj_spec o) !! (i + j)%nat = Some (ps_spec ps)) →
  (∀ j s, (i <= j)%nat → obj_slots o !! j = Some s → writable !! j = Some (slot_empty s)) →
  Z.of_nat (i + length slots) <= 2 ^ 32 → Forall (src_ok h) slots →
  headroom (st_pools st) (zsum (slot_demand <$> slots)) →
  (∃ st' o' rs, put_slots inner h kb writable st i slots results = Ret (st', results ++ rs) ∧
    put_done i slots st o st' o' rs) ∨
  stale = true ∧ put_slots inner h kb writable st i slots results = Panicked.
Proof.
  revert i st o results. induction slots as [|ps slots IH];
    intros i st o results Hwf Ho Hspec Hwr Hlen Hsrc Hh.
  { left. exists st, o, []. rewrite app_nil_r. split; [done|]. constructor; try done.
    intros d. destruct (st_pools st !! d); [|done]. csimpl. rewrite zsum_nil. split; [done|lia]. }
  apply Forall_cons in Hsrc as [Hps Hsrc]. pose proof (slot_demand_nonneg _ Hps) as Hd0.
  pose proof (demand_nonneg _ Hsrc) as Hd1. csimpl in Hh. rewrite zsum_cons in Hh. simpl length in Hlen.
  pose proof (Hspec 0%nat ps eq_refl) as Hsp0. rewrite Nat.add_0_r in Hsp0.
  destruct (Forall2_lookup_l _ _ _ _ _ (wf_obj _ Hwf _ _ Ho) Hsp0) as (s & Hs & _).
  cbn [put_slots]. rewrite (Hwr i s) by done. cbn [unwrap mbind outcome_bind].
  assert (∀ j ps', slots !! j = Some ps' → spec_slots (obj_spec o) !! (S i + j)%nat = Some (ps_spec ps'))
    as Hspec'.
  { intros j ps' Hj. replace (S i + j)%nat with (i + S j)%nat by lia. by apply Hspec. }
  destruct s as [|r0 s]; cbn [slot_empty negb].
  - destruct (put_slot_at st i ps o) as [(st1 & r & -> & Hwf1 & Hr & Hoth & Hg & Hcap)|[? ->]];
      [done..|lia|done|eapply headroom_mono; [|done]; lia| |by right].
    destruct (slot_result_done _ _ _ _ _ _ Hr Hs) as (o1 & Ho1 & Hsp1 & Hne & s' & Hs' & Hdone).
    destruct (IH (S i) st1 o1 (results ++ [r])) as [(st' & o' & rs & Heq & Hpd)|?];
      [done|done|by rewrite Hsp1| |lia|done|by eapply headroom_grow|left|by right].
    { intros j t Hj. rewrite Hne by lia. apply Hwr. lia. }
    exists st', o', (r :: rs). cbn [mbind outcome_bind]. rewrite Heq, <- (assoc_L (++)).
    split; [done|]. eapply put_done_cons; eauto 10.
  - destruct (IH (S i) st o (results ++ [Err (with_context (Error_new AlreadyExists
      "slot already written") "slot" (CInt (Z.of_nat i)))])) as [(st' & o' & rs & Heq & Hpd)|?];
      [done|done|done| |lia|done|eapply headroom_mono; [|done]; lia|left|by right].
    { intros j t Hj. apply Hwr. lia. }
    eexists st', o', (_ :: rs). rewrite Heq, <- (assoc_L (++)). split; [done|].
    eapply put_done_cons; try done; [by apply pools_le_grow|].
    exists (r0 :: s), (r0 :: s). split; [done|]. split; [done|]. split; [done|]. by left.
Qed.

(** ** The whole put *)

Definition empty_object (spec : ObjectSpec) : Object :=
  mkObject spec (replicate (length (spec_slots spec)) []).

(** The object the slots are written into. *)
Definition base_object (st : State) (op : OpPut) : Object :=
  default (empty_object (OpPut_spec op)) (st_objects st !! kb).

(** No FIFO entry left by an earlier object under [kb] is out of range. *)
Definition no_stale (st : State) (n : nat) : Prop :=
  st_objects st !! kb = None → ∀ d p i, st_pools st !! d = Some p → (kb, i) ∈ pool_fifo p →
  0 <= i < Z.of_nat n.

Record put_pre_at (st : State) (op : OpPut) : Prop := mkPutPre {
  pp_wf : wf_at stale st;
  pp_iovs : Forall (λ ps, Forall (iov_valid h) (ps_src ps)) (op_slots op);
  pp_count : Z.of_nat (length (op_slots op)) <= 2 ^ 32;
  pp_headroom : headroom (st_pools st) (zsum (slot_demand <$> op_slots op));
  pp_stale : stale = false → no_stale st (length (op_slots op));
}.

Lemma validate_slots_src_ok i slots :
  Forall (λ ps, Forall (iov_valid h) (ps_src ps)) slots →
  validate_slots i slots = Ok tt → Forall (src_ok h) slots.
Proof.
  intros Hv. revert i. induction Hv as [|ps slots Hps Hv IH]; intros i Hok; [constructor|].
  simpl in Hok. inv_bind.
  destruct (validate_iovs _ _) as [[d total]|e] eqn:Hval; [|done].
  assert (Forall iov_typed (ps_src ps)) as Hty
    by (eapply Forall_impl; [exact Hps|]; by intros v []).
  apply validate_iovs_Ok in Hval as (_ & Hb & -> & Hle & Hexp); [|done].
  pose proof (total_len_nonneg _ Hty). specialize (Hexp _ eq_refl).
  constructor; [|by eapply IH]. split; [|split; [done|lia]].
  rewrite Forall_forall in Hps, Hb |- *. intros v Hv'. destruct (Hb v Hv').
  split; [by apply Hps|done].
Qed.

Lemma owned_insert_empty d objs k spec :
  objs !! k = None → owned d (<[k := empty_object spec]> objs) = owned d objs.
Proof.
  intros Hk. unfold owned. rewrite map_sum_insert_None by done.
  rewrite obj_owned_all_empty; [done|]. unfold all_empty. apply forallb_forall.
  intros s Hs%list_elem_of_In. simpl in Hs. apply elem_of_replicate in Hs as [-> _].
  by apply bool_decide_eq_true.
Qed.

Lemma wf_reserve st spec :
  wf_at stale st → st_objects st !! kb = None → (stale = false → no_stale st (length (spec_slots spec))) →
  wf_at stale (mkState (<[kb := empty_object spec]> (st_objects st)) (st_pools st)).
Proof.
  intros Hwf Hk Hst. constructor; simpl.
  - intros k o [[<- <-]|[_ Ho]]%lookup_insert_Some; [|by eapply wf_obj].
    unfold obj_wf, empty_object. simpl. generalize (spec_slots spec). clear.
    induction l; simpl; constructor; [constructor|done].
  - intros d p Hd. rewrite owned_insert_empty by done. by eapply wf_used.
  - intros d p. by eapply wf_u64.
  - intros d p Hf Hd. pose proof (wf_idx _ Hwf _ _ Hf Hd) as Hi. rewrite Forall_forall in Hi |- *.
    intros [k i] Hin o [[Hk' <-]|[_ Ho]]%lookup_insert_Some; [|by apply Hi].
    simpl in *. subst k. rewrite length_replicate. specialize (Hst Hf Hk _ _ _ Hd Hin). lia.
  - intros d p k o i s r Hd [[<- <-]|[_ Ho]]%lookup_insert_Some Hc Hs Hr; [|by eapply wf_cover].
    simpl in Hs. apply lookup_replicate in Hs as [-> _]. by apply elem_of_nil in Hr.
Qed.

(** [reserve] accepts the operation or reports the spec mismatch. *)
Lemma reserve_spec st spec :
  wf_at stale st → (stale = false → no_stale st (length (spec_slots spec))) →
  match reserve st kb spec with
  | Ok (st1, writable) =>
      ∃ o, o = default (empty_object spec) (st_objects st !! kb) ∧ wf_at stale st1 ∧
        st_objects st1 = <[kb := o]> (st_objects st) ∧ st_pools st1 = st_pools st ∧
        obj_spec o = spec ∧ writable = slot_empty <$> obj_slots o
  | Err e => err_kind e = SpecMismatch ∧ ∃ o, st_objects st !! kb = Some o ∧ obj_spec o ≠ spec
  end.
Proof.
  intros Hwf Hst. unfold reserve. destruct (st_objects st !! kb) as [o|] eqn:Ho.
  - case_decide as Hsp; [split; [done|eauto]|].
    exists o. rewrite insert_id by done. by split_and!.
  - eexists. split; [done|]. split; [by apply wf_reserve|]. do 3 (split; [done|]).
    simpl. by rewrite fmap_replicate.
Qed.

Lemma put_done_reserved slots st st1 o st' o' rs :
  st_objects st1 = <[kb := o]> (st_objects st) → st_pools st1 = st_pools st →
  put_done 0 slots st1 o st' o' rs → put_done 0 slots st o st' o' rs.
Proof.
  intros Ho Hp [P1 P2 P3 P4 P5 P6 P7 P8 P9]. constructor; try done.
  - etrans; [apply (others_insert kb _ o)|]. by rewrite <- Ho.
  - by rewrite <- Hp.
  - intros Hnd Hw. apply P9; [done|]. intros d p cap. rewrite Hp. apply Hw.
Qed.

(** An operation-level error leaves the state as it was; otherwise every slot is
    accounted for by [put_done]; [put] panics only on a stale entry. *)
Lemma put_at st op :
  put_pre_at st op →
  (∃ st' res, put inner h st kb op = Ret (st', res) ∧
    match res with
    | Err e => st' = st ∧ (OpPut_validate op = Err e ∨
        OpPut_validate op = Ok tt ∧ err_kind e = SpecMismatch ∧ ∃ o, st_objects st !! kb = Some o ∧ obj_spec o ≠ OpPut_spec op)
    | Ok rs =>
        (∀ o, st_objects st !! kb = Some o → obj_spec o = OpPut_spec op) ∧
        ∃ o', put_done 0 (op_slots op) st (base_object st op) st' o' rs
    end) ∨
  stale = true ∧ put inner h st kb op = Panicked.
Proof.
  intros [Hwf Hiov Hcnt Hh Hst]. unfold put.
  destruct (OpPut_validate op) as [[]|e] eqn:Hval; [|left; eexists _, _; split; [done|]; simpl; auto].
  assert (Forall (src_ok h) (op_slots op)) as Hsrc.
  { unfold OpPut_validate in Hval. destruct (op_slots op) eqn:Hops; [done|].
    rewrite <- Hops in *. by eapply validate_slots_src_ok. }
  pose proof (reserve_spec st (OpPut_spec op) Hwf) as Hres.
  simpl in Hres. rewrite length_fmap in Hres. specialize (Hres Hst).
  destruct (reserve st kb (OpPut_spec op)) as [[st1 writable]|e].
  2:{ left. eexists _, _. split; [done|]. simpl. destruct Hres. eauto. }
  destruct Hres as (o & Hob & Hwf1 & Hobj & Hpool & Hspec & ->).
  destruct (put_slots_at (slot_empty <$> obj_slots o) (op_slots op) 0 st1 o [])
    as [(st' & o' & rs & Hps & Hpd)|[? Hps]]; [done|by rewrite Hobj, lookup_insert_eq| | |done|done|by rewrite Hpool| |].
  { intros j ps Hj. rewrite Hspec. simpl. by rewrite list_lookup_fmap, Hj. }
  { intros j s _ Hs. by rewrite list_lookup_fmap, Hs. }
  2:{ right. split; [done|]. cbn [mbind outcome_bind]. by rewrite Hps. }
  left. cbn [mbind outcome_bind]. rewrite Hps. cbn [mbind outcome_bind app]. eexists st', _. split; [done|].
  simpl. split.
  { intros o0 Ho0. rewrite Ho0 in Hob. simpl in Hob. by subst. }
  exists o'. unfold base_object. rewrite <- Hob. by eapply put_done_reserved.
Qed.
End PutOps.

Abbreviation put_pre := (put_pre_at (stale := false)).

Lemma put_pre_loose {stale} h kb st op : put_pre_at (stale := stale) h kb st op → put_pre_at (stale := true) h kb st op.
Proof. intros [Hwf Hv Hc Hh Hs]. constructor; try done. by eapply wf_loose. Qed.

(** Without stale entries the calls return. *)
Section Returns.
Context `{BuildProfile} (inner : Inner) (h : heap) (kb : bytes).

Lemma put_slot_spec st i ps o :
  wf st → st_objects st !! kb = Some o → obj_slots o !! i = Some [] →
  spec_slots (obj_spec o) !! i = Some (ps_spec ps) → Z.of_nat i < 2 ^ 32 → src_ok h ps →
  headroom (st_pools st) (slot_demand ps) →
  ∃ st' r, put_slot inner h kb st i ps = Ret (st', r) ∧ wf st' ∧
    slot_result inner h kb st st' o i ps r ∧ others kb (st_objects st) (st_objects st') ∧
    pools_grow (slot_demand ps) (st_pools st) (st_pools st') ∧
    (placement_nodup (spec_placement (ps_spec ps)) → within_capacity st → within_capacity st').
Proof. intros Hwf Ho Hi Hsp H32 Hs Hh. by destruct (put_slot_at inner h kb st i ps o Hwf Ho Hi Hsp H32 Hs Hh) as [?|[? _]]. Qed.

Lemma put_spec st op :
  put_pre h kb st op →
  ∃ st' res, put inner h st kb op = Ret (st', res) ∧
    match res with
    | Err e => st' = st ∧ (OpPut_validate op = Err e ∨
        OpPut_validate op = Ok tt ∧ err_kind e = SpecMismatch ∧ ∃ o, st_objects st !! kb = Some o ∧ obj_spec o ≠ OpPut_spec op)
    | Ok rs =>
        (∀ o, st_objects st !! kb = Some o → obj_spec o = OpPut_spec op) ∧
        ∃ o', put_done (stale := false) inner h kb 0 (op_slots op) st (base_object kb st op) st' o' rs
    end.
Proof. intros Hpre. by destruct (put_at inner h kb st op Hpre) as [?|[? _]]. Qed.

(** A put that returned, stale entries or not. *)
Lemma put_returned {stale} st op st' res :
  put_pre_at (stale := stale) h kb st op → put inner h st kb op = Ret (st', res) →
  match res with
  | Err e => st' = st ∧ (OpPut_validate op = Err e ∨
      OpPut_validate op = Ok tt ∧ err_kind e = SpecMismatch ∧ ∃ o, st_objects st !! kb = Some o ∧ obj_spec o ≠ OpPut_spec op)
  | Ok rs =>
      (∀ o, st_objects st !! kb = Some o → obj_spec o = OpPut_spec op) ∧
      ∃ o', put_done (stale := stale) inner h kb 0 (op_slots op) st (base_object kb st op) st' o' rs
  end.
Proof.
  intros Hpre Hput. destruct (put_at inner h kb st op Hpre) as [(st1 & res1 & Hput1 & Hres)|[_ ?]]; [|congruence].
  rewrite Hput in Hput1. by injection Hput1 as <- <-.
Qed.
End Returns.
