(* ===== verification/MemoryOps.v ===== *)
(** * [Memory]: get, publish, region retirement, removal

    [get] reads from the nearest replica into the destination or reports why
    not; [publish], [retire_region], [remove] and [remove_prefix] keep the
    invariant and do exactly what they say. *)

From S2P Require Import Prelude HostMem Types Region Memory MemoryEvict MemoryInv MemoryCopy MemoryPut.

(** ** [get] *)

(** Why a get reports [kind]. *)
Inductive get_fails (st : State) (key : bytes) (op : OpGet) : ErrorKind → Prop :=
| fails_iovs e : OpGet_validate op = Err e → get_fails st key op InvalidInput
| fails_key d n : OpGet_validate op = Ok (d, n) → st_objects st !! key = None →
    get_fails st key op NotFound
| fails_slot d n o : OpGet_validate op = Ok (d, n) → st_objects st !! key = Some o →
    spec_slots (obj_spec o) !! Z.to_nat (get_slot op) = None → get_fails st key op InvalidInput
| fails_range d n o spec : OpGet_validate op = Ok (d, n) → st_objects st !! key = Some o →
    spec_slots (obj_spec o) !! Z.to_nat (get_slot op) = Some spec →
    spec_len spec < get_src_offset op + n ∨ U64_MAX < get_src_offset op + n →
    get_fails st key op InvalidInput
| fails_evicted d n o spec : OpGet_validate op = Ok (d, n) → st_objects st !! key = Some o →
    spec_slots (obj_spec o) !! Z.to_nat (get_slot op) = Some spec →
    get_src_offset op + n <= Z.min (spec_len spec) U64_MAX →
    obj_slots o !! Z.to_nat (get_slot op) = Some [] → get_fails st key op Evicted.

(** A get that read [n] bytes for a reader on [d] from replica [r] of slot [s]. *)
Record got (inner : Inner) (h : heap) (st : State) (key : bytes) (op : OpGet)
    (h' : heap) (rp : RpGet) (d : Device) (n : Z) (o : Object) (s : Slot) (r : ReplicaEntry)
    : Prop := mkGot {
  got_validate : OpGet_validate op = Ok (d, n);
  got_obj : st_objects st !! key = Some o;
  got_slot : obj_slots o !! Z.to_nat (get_slot op) = Some s;
  got_nearest : nearest inner d s = Some r;
  got_range : get_src_offset op + n <= Z.of_nat (length (replica_bytes h (re_data r)));
  got_from : rp_from rp = location inner (re_device r) (re_tier r);
  got_dom i : is_Some (h' !! i) ↔ is_Some (h !! i);
  got_frame i : (∀ v, v ∈ get_dst op → ¬ (iov_as_ptr v <= i < iov_as_ptr v + iov_len v)) →
    h' !! i = h !! i;
  got_bytes : non_overlapping (get_dst op) →
    contents h' (get_dst op) =
    take (Z.to_nat n) (drop (Z.to_nat (get_src_offset op)) (replica_bytes h (re_data r)));
}.

Lemma key_ltb_trans a b c : key_ltb a b = true → key_ltb b c = true → key_ltb a c = true.
Proof.
  unfold key_ltb. rewrite !orb_true_iff, !andb_true_iff, !Z.ltb_lt, !Z.eqb_eq. lia.
Qed.

Lemma key_ltb_false a b : key_ltb a b = false ↔ fst b < fst a ∨ fst b = fst a ∧ snd b <= snd a.
Proof.
  unfold key_ltb. rewrite orb_false_iff, andb_false_iff, !Z.ltb_ge, Z.eqb_neq. lia.
Qed.

Lemma key_ltb_neg_trans a b c : key_ltb a b = false → key_ltb b c = false → key_ltb a c = false.
Proof. rewrite !key_ltb_false. lia. Qed.

(** The chosen replica is the first of those with the least (distance, tier). *)
Lemma nearest_spec inner d s r :
  nearest inner d s = Some r →
  ∃ s1 s2, s = s1 ++ r :: s2 ∧
    Forall (λ x, key_ltb (source_key inner d r) (source_key inner d x) = true) s1 ∧
    Forall (λ x, key_ltb (source_key inner d x) (source_key inner d r) = false) s2.
Proof.
  intros Hm.
  apply (min_by_spec (λ r best, key_ltb (source_key inner d r) (source_key inner d best))) in Hm;
    [done|..]; intros x y z; [apply key_ltb_trans|apply key_ltb_neg_trans].
Qed.

Lemma nearest_elem inner d s r : nearest inner d s = Some r → r ∈ s.
Proof. intros (s1 & s2 & -> & _)%nearest_spec. apply elem_of_app. right. left. Qed.

Lemma nearest_None inner d s : nearest inner d s = None ↔ s = [].
Proof. by destruct s. Qed.

Lemma replica_bytes_length h d :
  replica_live h d → Z.of_nat (length (replica_bytes h d)) = data_size d.
Proof. destruct d; simpl; [done|]. apply segs_contents_length. Qed.

Lemma data_len_ok `{BuildProfile} pools len r :
  replica_wf pools len r → 0 <= len → data_len (re_data r) = Ret len.
Proof.
  intros [Hs Hr] Hl. unfold data_len. destruct (re_data r) as [b|segs id]; simpl in *; [by subst|].
  destruct Hr as (_ & Hle & Hall). rewrite mfoldl_sum_ok; [by rewrite Hs|done| |lia].
  apply Forall_fmap. eapply Forall_impl; [exact Hall|]. intros x. simpl. tauto.
Qed.

Section Ops.
Context `{BuildProfile} (inner : Inner).

(** The memory behind every replica of slot [i] of [key] is mapped. *)
Definition replicas_live (h : heap) (st : State) (key : bytes) (i : nat) : Prop :=
  ∀ o s r, st_objects st !! key = Some o → obj_slots o !! i = Some s → r ∈ s →
  replica_live h (re_data r).

(** The copy out of a replica: [read] then [scatter]. *)
Lemma copy_out h d off dst :
  replica_live h d → Forall (iov_live h) dst → 0 <= off → 0 <= total_len dst →
  off + total_len dst <= Z.of_nat (length (replica_bytes h d)) → off + total_len dst <= U64_MAX →
  ∃ b h', read h d off (total_len dst) = Ret b ∧ scatter h b dst = Ret h' ∧
    (∀ i, is_Some (h' !! i) ↔ is_Some (h !! i)) ∧
    (∀ i, (∀ v, v ∈ dst → ¬ (iov_as_ptr v <= i < iov_as_ptr v + iov_len v)) → h' !! i = h !! i) ∧
    (non_overlapping dst → contents h' dst =
       take (Z.to_nat (total_len dst)) (drop (Z.to_nat off) (replica_bytes h d))).
Proof.
  intros Hl Hdl Ho Ht Hle Hmax. rewrite read_spec by (done || lia).
  eexists. set (b := take _ (drop _ _)).
  assert (Z.of_nat (length b) = total_len dst) as Hbl.
  { unfold b. rewrite length_take, length_drop. lia. }
  destruct (scatter_from_ret h b 0 dst) as (h' & Hsc & Hdom & Hfr); [done|done|lia|lia|].
  exists h'. do 4 (split; [done|]). intros Hno.
  rewrite (scatter_from_contents h b 0 dst h') by (done || lia).
  rewrite drop_0, take_ge by lia. done.
Qed.

Lemma get_spec {stale} h st key op :
  wf_at stale st → Forall (iov_valid h) (get_dst op) → 0 <= get_src_offset op →
  replicas_live h st key (Z.to_nat (get_slot op)) →
  ∃ h' res, get inner h st key op = Ret (h', res) ∧
    match res with
    | Err e => h' = h ∧ get_fails st key op (err_kind e)
    | Ok rp => ∃ d n o s r, got inner h st key op h' rp d n o s r
    end.
Proof.
  intros Hwf Hdst Hoff Hlive. unfold get.
  assert (Forall iov_typed (get_dst op)) as Hty by (eapply Forall_impl; [exact Hdst|]; by intros v []).
  destruct (OpGet_validate op) as [[d n]|e] eqn:Hval.
  2:{ pose proof (validate_iovs_Err _ _ _ Hval Hty) as [Hk _]. eexists h, _. split; [done|]. simpl.
      rewrite Hk. split; [done|]. by eapply fails_iovs. }
  destruct (st_objects st !! key) as [o|] eqn:Ho.
  2:{ eexists h, _. split; [done|]. split; [done|]. by eapply fails_key. }
  destruct (spec_slots (obj_spec o) !! Z.to_nat (get_slot op)) as [spec|] eqn:Hspec.
  2:{ eexists h, _. split; [done|]. split; [done|]. by eapply fails_slot. }
  unfold checked_add. case_decide as Hmax.
  2:{ eexists h, _. split; [done|]. split; [done|]. eapply fails_range; try done. right. lia. }
  destruct (Z.ltb_spec (spec_len spec) (get_src_offset op + n)) as [Hlt|Hge].
  { eexists h, _. split; [done|]. split; [done|]. eapply fails_range; eauto. }
  rewrite debug_assert_ok by (by apply Z.leb_le). cbn [mbind outcome_bind].
  destruct (Forall2_lookup_l _ _ _ _ _ (wf_obj _ Hwf _ _ Ho) Hspec) as (s & Hs & Hrw).
  rewrite Hs. cbn [unwrap mbind outcome_bind].
  destruct (nearest inner d s) as [r|] eqn:Hn.
  2:{ apply nearest_None in Hn as ->. eexists h, _. split; [done|]. split; [done|].
      eapply fails_evicted; eauto. lia. }
  pose proof Hval as (_ & Hb & -> & Htot & _)%validate_iovs_Ok; [|done].
  pose proof (total_len_nonneg _ Hty) as Hn0. pose proof (nearest_elem _ _ _ _ Hn) as Hin.
  rewrite Forall_forall in Hrw. pose proof (Hrw _ Hin) as Hr.
  pose proof (Hlive _ _ _ Ho Hs Hin) as Hrl.
  pose proof (replica_bytes_length _ _ Hrl) as Hlen. rewrite (proj1 Hr) in Hlen.
  assert ((if debug_build then l ← data_len (re_data r); debug_assert (l =? spec_len spec)
           else Ret tt) = Ret tt) as ->.
  { destruct debug_build; [|done]. rewrite (data_len_ok _ _ _ Hr) by lia. simpl.
    apply debug_assert_ok, Z.eqb_refl. }
  assert (Forall (iov_live h) (get_dst op)) as Hdl.
  { rewrite Forall_forall in Hdst, Hb |- *. intros v Hv. destruct (Hb v Hv). by split; [apply Hdst|]. }
  destruct (copy_out h (re_data r) (get_src_offset op) (get_dst op))
    as (b & h' & Hrd & Hsc & Hdom & Hfr & Hbytes); [done|done|done|done|lia|done|].
  cbn [mbind outcome_bind]. rewrite Hrd. cbn [mbind outcome_bind]. rewrite Hsc.
  cbn [mbind outcome_bind]. eexists h', _. split; [done|].
  exists d, (total_len (get_dst op)), o, s, r. split; try done. lia.
Qed.

(** ** [publish] *)

Definition published (op : OpPublish) (d : Device) (id : u64) : ReplicaEntry :=
  mkReplicaEntry d External false
    (ExternalSegs ((λ v, (iov_as_ptr v, iov_len v)) <$> pub_src op) id).

Definition append_replica (o : Object) (i : nat) (r : ReplicaEntry) : Object :=
  mkObject (obj_spec o) (alter (λ s, s ++ [r]) i (obj_slots o)).

Lemma obj_owned_append_external d o i r :
  owned_on d r = false → obj_owned d (append_replica o i r) = obj_owned d o.
Proof.
  intros Hr. unfold obj_owned, append_replica. simpl. rewrite zsum_fmap_alter.
  destruct (obj_slots o !! i) as [s|]; simpl; [|lia].
  rewrite slot_owned_app, slot_owned_cons, (owned_len_not_on d r Hr), slot_owned_nil. lia.
Qed.

Lemma wf_append_external {stale} st k o i spec r :
  wf_at stale st → st_objects st !! k = Some o → spec_slots (obj_spec o) !! i = Some spec →
  (∀ d, owned_on d r = false) → replica_wf (st_pools st) (spec_len spec) r →
  wf_at stale (mkState (<[k := append_replica o i r]> (st_objects st)) (st_pools st)).
Proof.
  intros Hwf Ho Hsp Hext Hr.
  destruct (Forall2_lookup_l _ _ _ _ _ (wf_obj _ Hwf _ _ Ho) Hsp) as (s & Hs & Hsw).
  constructor; simpl.
  - intros k' o' [[<- <-]|[_ Ho']]%lookup_insert_Some; [|by eapply wf_obj].
    unfold append_replica. rewrite (list_alter_insert _ _ _ _ Hs).
    eapply obj_wf_insert; [by eapply wf_obj|done|]. apply Forall_app. split; [done|by constructor].
  - intros d p Hd. rewrite (wf_used _ Hwf _ _ Hd). unfold owned.
    rewrite (map_sum_insert _ _ _ o) by done. rewrite obj_owned_append_external by done. lia.
  - intros d p. by eapply wf_u64.
  - intros d p Hst Hd. eapply Forall_impl; [by eapply wf_idx|]. intros e.
    apply idx_ok_insert with o; [done|]. unfold append_replica. simpl. by rewrite length_alter.
  - intros d p k' o' j t x Hd [[<- <-]|[_ Ho']]%lookup_insert_Some Hc Ht Hx Hon; [|by eapply wf_cover].
    simpl in *. destruct (decide (i = j)) as [<-|Hne].
    + rewrite list_lookup_alter_eq, Hs in Ht. simplify_eq/=.
      apply elem_of_app in Hx as [Hx|Hx]; [by eapply wf_cover|].
      apply list_elem_of_singleton in Hx as ->. by rewrite Hext in Hon.
    + rewrite list_lookup_alter_ne in Ht by done. by eapply wf_cover.
Qed.

(** Why a publish reports [kind]. *)
Inductive publish_fails (st : State) (key : bytes) (op : OpPublish) : ErrorKind → Prop :=
| pub_iovs e : OpPublish_validate op = Err e → publish_fails st key op InvalidInput
| pub_key d n : OpPublish_validate op = Ok (d, n) → st_objects st !! key = None →
    publish_fails st key op NotFound
| pub_no_slot d n o : OpPublish_validate op = Ok (d, n) → st_objects st !! key = Some o →
    spec_slots (obj_spec o) !! Z.to_nat (pub_slot op) = None → publish_fails st key op InvalidInput
| pub_length d n o spec : OpPublish_validate op = Ok (d, n) → st_objects st !! key = Some o →
    spec_slots (obj_spec o) !! Z.to_nat (pub_slot op) = Some spec → spec_len spec ≠ n →
    publish_fails st key op InvalidInput.

Lemma publish_spec {stale} h st key op :
  wf_at stale st → Forall (iov_valid h) (pub_src op) →
  ∃ st' res, publish st key op = Ret (st', res) ∧ wf_at stale st' ∧
    match res with
    | Err e => st' = st ∧ publish_fails st key op (err_kind e)
    | Ok _ => ∃ d n o v, OpPublish_validate op = Ok (d, n) ∧ st_objects st !! key = Some o ∧
        pub_src op !! 0%nat = Some v ∧ (Z.to_nat (pub_slot op) < length (obj_slots o))%nat ∧
        st' = mkState (<[key := append_replica o (Z.to_nat (pub_slot op))
                                  (published op d (region_id (iov_region v)))]> (st_objects st))
                      (st_pools st)
    end.
Proof.
  intros Hwf Hsrc. unfold publish.
  assert (Forall iov_typed (pub_src op)) as Hty by (eapply Forall_impl; [exact Hsrc|]; by intros v []).
  destruct (OpPublish_validate op) as [[d n]|e] eqn:Hval.
  2:{ pose proof (validate_iovs_Err _ _ _ Hval Hty) as [Hk _]. eexists st, _.
      do 2 (split; [done|]). simpl. rewrite Hk. split; [done|]. by eapply pub_iovs. }
  destruct (st_objects st !! key) as [o|] eqn:Ho.
  2:{ eexists st, _. do 3 (split; [done|]). by eapply pub_key. }
  destruct (spec_slots (obj_spec o) !! Z.to_nat (pub_slot op)) as [spec|] eqn:Hspec.
  2:{ eexists st, _. do 3 (split; [done|]). by eapply pub_no_slot. }
  case_decide as Hlen.
  { eexists st, _. do 3 (split; [done|]). by eapply pub_length. }
  pose proof Hval as (Hne & _ & -> & Htot & _)%validate_iovs_Ok; [|done].
  destruct (pub_src op) as [|v vs] eqn:Hvs; [done|].
  destruct (Forall2_lookup_l _ _ _ _ _ (wf_obj _ Hwf _ _ Ho) Hspec) as (s & Hs & Hsw).
  cbn [lookup list_lookup unwrap mbind outcome_bind]. rewrite Hs. cbn [unwrap mbind outcome_bind].
  eexists _, (Ok tt). split; [done|]. rewrite <- Hvs in *.
  assert (mkObject (obj_spec o) (<[Z.to_nat (pub_slot op) := s ++
      [published op d (region_id (iov_region v))]]> (obj_slots o)) =
    append_replica o (Z.to_nat (pub_slot op)) (published op d (region_id (iov_region v)))) as Heq.
  { unfold append_replica. by rewrite (list_alter_insert _ _ _ _ Hs). }
  unfold published in Heq |- * at 1. rewrite Heq. split.
  - eapply wf_append_external; [done..|]. split; simpl.
    + rewrite <- list_fmap_compose. by rewrite Hlen.
    + split; [done|]. split; [by rewrite Hlen|]. apply Forall_fmap.
      eapply Forall_impl; [exact Hty|]. intros x [_ [Hx _]]. simpl. split; [|done].
      unfold iov_as_ptr, wrapping_add. apply Z.mod_pos_bound. lia.
  - exists d, (total_len (pub_src op)), o, v. rewrite Hvs. split_and!; try done.
    by eapply lookup_lt_Some.
Qed.

(** ** [retire_region] *)

Definition retired_slot (id : u64) (s : Slot) : Slot := List.filter (λ r, negb (published_from id r)) s.

Lemma elem_of_retired id s r : r ∈ retired_slot id s ↔ r ∈ s ∧ published_from id r = false.
Proof. unfold retired_slot. by rewrite !list_elem_of_In, filter_In, negb_true_iff. Qed.

Lemma slot_owned_retired d id s : slot_owned d (retired_slot id s) = slot_owned d s.
Proof.
  induction s as [|r s IH]; [done|]. unfold retired_slot. simpl. fold (retired_slot id s).
  rewrite slot_owned_cons. destruct (published_from id r) eqn:Hp; simpl.
  - rewrite IH. unfold published_from, owned_len in *. destruct (re_data r); [done|lia].
  - by rewrite slot_owned_cons, IH.
Qed.

Lemma obj_owned_retired d o id :
  obj_owned d (mkObject (obj_spec o) (retired_slot id <$> obj_slots o)) = obj_owned d o.
Proof.
  unfold obj_owned. simpl. rewrite <- list_fmap_compose. apply zsum_fmap_ext.
  intros s _. apply slot_owned_retired.
Qed.

Lemma lookup_retired st id k :
  st_objects (retire_region st id) !! k =
  (λ o, mkObject (obj_spec o) (retired_slot id <$> obj_slots o)) <$> st_objects st !! k.
Proof. unfold retire_region. simpl. by rewrite lookup_fmap. Qed.

Lemma wf_retire_region {stale} st id : wf_at stale st → wf_at stale (retire_region st id).
Proof.
  intros Hwf. constructor.
  - intros k o' Ho'. rewrite lookup_retired in Ho'. apply fmap_Some in Ho' as (o & Ho & ->).
    unfold obj_wf. simpl. apply Forall2_fmap_r.
    eapply Forall2_impl; [by eapply wf_obj|]. intros sp s Hs. simpl.
    apply Forall_forall. intros r [Hr _]%elem_of_retired. rewrite Forall_forall in Hs. by apply Hs.
  - intros d p Hd. rewrite (wf_used _ Hwf _ _ Hd). unfold retire_region, owned. simpl.
    rewrite map_sum_fmap. apply map_sum_ext. intros k o _. symmetry. apply obj_owned_retired.
  - intros d p. exact (wf_u64 _ Hwf d p).
  - intros d p Hst Hd. eapply Forall_impl; [by eapply wf_idx|]. intros e He o' Ho'.
    rewrite lookup_retired in Ho'. apply fmap_Some in Ho' as (o & Ho & ->). simpl.
    rewrite length_fmap. by apply He.
  - intros d p k o' i s' r Hd Ho' Hc Hs' Hr Hon.
    rewrite lookup_retired in Ho'. apply fmap_Some in Ho' as (o & Ho & ->). simpl in *.
    rewrite list_lookup_fmap in Hs'. apply fmap_Some in Hs' as (s & Hs & ->).
    apply elem_of_retired in Hr as [Hr _]. by eapply wf_cover.
Qed.

(** ** [remove] *)

(** Pools after [f d] bytes were released on each device [d]. *)
Definition released (f : Device → Z) (pools : gmap Device Pool) : gmap Device Pool :=
  map_imap (λ d p, Some (mkPool (pool_capacity p) (pool_used p - f d) (pool_fifo p))) pools.

Lemma lookup_released f pools d :
  released f pools !! d =
  (λ p, mkPool (pool_capacity p) (pool_used p - f d) (pool_fifo p)) <$> pools !! d.
Proof. unfold released. rewrite map_lookup_imap. by destruct (pools !! d). Qed.

Lemma released_ext f g pools : (∀ d, f d = g d) → released f pools = released g pools.
Proof. intros Hfg. apply map_eq. intros d. by rewrite !lookup_released, Hfg. Qed.

Lemma released_0 pools : released (λ _, 0) pools = pools.
Proof.
  apply map_eq. intros d. rewrite lookup_released. destruct (pools !! d) as [[]|]; [|done].
  simpl. by rewrite Z.sub_0_r.
Qed.

Lemma released_released f g pools :
  released g (released f pools) = released (λ d, f d + g d) pools.
Proof.
  apply map_eq. intros d. rewrite !lookup_released. destruct (pools !! d); [|done]. simpl.
  do 2 f_equal. lia.
Qed.

(** Every pool still counts the bytes about to be released. *)
Definition covers (f : Device → Z) (pools : gmap Device Pool) : Prop :=
  ∀ d p, pools !! d = Some p → f d <= pool_used p <= U64_MAX.

Lemma release_replica_spec pools r :
  covers (λ d, owned_len d r) pools → release_replica pools r = Ret (released (λ d, owned_len d r) pools).
Proof.
  intros Hc. unfold release_replica.
  assert (∀ d, d ≠ re_device r → owned_len d r = 0) as Hne.
  { intros d Hd. unfold owned_len. destruct (re_data r); [|done]. by rewrite decide_False. }
  destruct (re_data r) as [b|segs id] eqn:Hr.
  2:{ rewrite (released_ext _ (λ _, 0)); [by rewrite released_0|]. intros d. unfold owned_len.
      by rewrite Hr. }
  assert (owned_len (re_device r) r = Z.of_nat (length b)) as Hl.
  { unfold owned_len. by rewrite Hr, decide_True. }
  destruct (pools !! re_device r) as [p|] eqn:Hp.
  - specialize (Hc _ _ Hp). simpl in Hc. rewrite Hl in Hc. rewrite u64_sub_ok by (split; lia). simpl. f_equal.
    apply map_eq. intros d. rewrite lookup_released. destruct (decide (d = re_device r)) as [->|Hd].
    + rewrite lookup_insert_eq, Hp. simpl. by rewrite Hl.
    + rewrite lookup_insert_ne, Hne by done. destruct (pools !! d) as [[]|]; [|done]. simpl.
      by rewrite Z.sub_0_r.
  - f_equal. apply map_eq. intros d. rewrite lookup_released.
    destruct (decide (d = re_device r)) as [->|Hd]; [by rewrite Hp|].
    rewrite Hne by done. destruct (pools !! d) as [[]|]; [|done]. simpl. by rewrite Z.sub_0_r.
Qed.

(** A fold of releases, given the spec of one. *)
Lemma release_fold {A} (rel : gmap Device Pool → A → outcome (gmap Device Pool))
    (w : Device → A → Z) l pools :
  (∀ d x, 0 <= w d x) →
  (∀ pools x, covers (λ d, w d x) pools → rel pools x = Ret (released (λ d, w d x) pools)) →
  covers (λ d, zsum (w d <$> l)) pools →
  mfoldl rel pools l = Ret (released (λ d, zsum (w d <$> l)) pools).
Proof.
  intros H0 Hrel. revert pools. induction l as [|x l IH]; intros pools Hc.
  { simpl. by rewrite released_0. }
  assert (∀ d, 0 <= zsum (w d <$> l)) as Hnn.
  { intros d. apply zsum_nonneg, Forall_fmap, Forall_true. auto. }
  simpl. rewrite Hrel.
  - simpl. rewrite IH.
    + by rewrite released_released.
    + intros d p Hd. rewrite lookup_released in Hd. apply fmap_Some in Hd as (q & Hq & ->).
      specialize (Hc _ _ Hq). csimpl in Hc. rewrite zsum_cons in Hc. specialize (H0 d x).
      simpl. lia.
  - intros d p Hd. specialize (Hc _ _ Hd). csimpl in Hc. rewrite zsum_cons in Hc.
    specialize (Hnn d). lia.
Qed.

Lemma release_object_spec st o :
  covers (λ d, obj_owned d o) (st_pools st) →
  release_object st o = Ret (mkState (st_objects st) (released (λ d, obj_owned d o) (st_pools st))).
Proof.
  intros Hc. unfold release_object.
  rewrite (release_fold _ (λ d s, slot_owned d s)); [done|auto with pegastore| |done].
  intros pools s Hs. apply release_fold; [auto with pegastore|apply release_replica_spec|done].
Qed.


(** Pools after releases: capacity and FIFO are the same, [used] did not grow. *)
Definition same_pools (pools pools' : gmap Device Pool) : Prop :=
  pools_le pools pools' ∧ ∀ d, pool_fifo <$> pools' !! d = pool_fifo <$> pools !! d.

Lemma same_pools_refl pools : same_pools pools pools.
Proof. by split. Qed.

Lemma same_pools_trans p1 p2 p3 : same_pools p1 p2 → same_pools p2 p3 → same_pools p1 p3.
Proof. intros [L1 F1] [L2 F2]. split; [by etrans|]. intros d. by rewrite F2, F1. Qed.

Lemma released_same_pools f pools : (∀ d, 0 <= f d) → same_pools pools (released f pools).
Proof.
  intros Hf. split; intros d; rewrite lookup_released; destruct (pools !! d); try done.
  simpl. specialize (Hf d). split; [done|lia].
Qed.

Lemma wf_remove {stale} st k o :
  wf_at stale st → st_objects st !! k = Some o →
  wf_at stale (mkState (delete k (st_objects st)) (released (λ d, obj_owned d o) (st_pools st))).
Proof.
  intros Hwf Ho. constructor; simpl.
  - intros k' o' [_ Ho']%lookup_delete_Some. eapply obj_wf_pools; [|by eapply wf_obj].
    intros x [p Hp]. rewrite lookup_released, Hp. by eexists.
  - intros d p Hd. rewrite lookup_released in Hd. apply fmap_Some in Hd as (q & Hq & ->). simpl.
    rewrite (wf_used _ Hwf _ _ Hq). unfold owned. rewrite (map_sum_delete _ _ _ _ Ho). lia.
  - intros d p Hd. rewrite lookup_released in Hd. apply fmap_Some in Hd as (q & Hq & ->). simpl.
    pose proof (wf_u64 _ Hwf _ _ Hq). pose proof (obj_owned_nonneg d o). lia.
  - intros d p Hst Hd. rewrite lookup_released in Hd. apply fmap_Some in Hd as (q & Hq & ->). simpl.
    eapply Forall_impl; [by eapply wf_idx|]. intros e He x [_ Hx]%lookup_delete_Some. by apply He.
  - intros d p k' o' i s r Hd [_ Ho']%lookup_delete_Some Hc Hs Hr Hon.
    rewrite lookup_released in Hd. apply fmap_Some in Hd as (q & Hq & ->). simpl. by eapply wf_cover.
Qed.

Lemma wf_covers {stale} st k o :
  wf_at stale st → st_objects st !! k = Some o → covers (λ d, obj_owned d o) (st_pools st).
Proof.
  intros Hwf Ho d p Hd. split; [|by eapply wf_u64]. rewrite (wf_used _ Hwf _ _ Hd).
  apply (map_sum_lookup_le (λ _ o, obj_owned d o) _ k); [|done]. auto with pegastore.
Qed.

Lemma remove_key_spec {stale} st k :
  wf_at stale st → ∃ pools', remove_key st k = Ret (mkState (delete k (st_objects st)) pools') ∧
    wf_at stale (mkState (delete k (st_objects st)) pools') ∧ same_pools (st_pools st) pools'.
Proof.
  intros Hwf. unfold remove_key. destruct (st_objects st !! k) as [o|] eqn:Ho.
  - rewrite release_object_spec by (simpl; by eapply wf_covers). simpl. eexists. split; [done|].
    split; [by apply wf_remove|]. apply released_same_pools. auto with pegastore.
  - exists (st_pools st). rewrite delete_id by done. destruct st. by split_and!.
Qed.

Definition without (keys : list bytes) (objs : gmap bytes Object) : gmap bytes Object :=
  filter (λ '(k, _), k ∉ keys) objs.

Lemma without_cons k keys objs : without keys (delete k objs) = without (k :: keys) objs.
Proof.
  apply map_eq. intros x. unfold without. rewrite !map_lookup_filter.
  destruct (decide (x = k)) as [->|Hne].
  - rewrite lookup_delete_eq. destruct (objs !! k); simpl; [|done].
    rewrite option_guard_False; [done|]. intros Hn. apply Hn. left.
  - rewrite lookup_delete_ne by done. destruct (objs !! x); simpl; [|done].
    assert (x ∉ k :: keys ↔ x ∉ keys) as Heq by (rewrite not_elem_of_cons; tauto).
    by rewrite (option_guard_iff _ _ _ Heq).
Qed.

Lemma remove_spec {stale} st keys :
  wf_at stale st → ∃ pools', mfoldl remove_key st keys = Ret (mkState (without keys (st_objects st)) pools') ∧
    wf_at stale (mkState (without keys (st_objects st)) pools') ∧ same_pools (st_pools st) pools'.
Proof.
  revert st. induction keys as [|k keys IH]; intros st Hwf.
  - exists (st_pools st). unfold without. rewrite map_filter_id by (intros; apply not_elem_of_nil).
    destruct st. by split_and!.
  - destruct (remove_key_spec st k Hwf) as (pools1 & Hr & Hwf1 & Hp1). simpl. rewrite Hr. simpl.
    destruct (IH _ Hwf1) as (pools' & -> & Hwf' & Hp'). simpl in *. rewrite without_cons in *.
    exists pools'. split; [done|]. split; [done|]. by eapply same_pools_trans.
Qed.
End Ops.

(** ** [remove_prefix] *)

(** The reference: the keys of the map that start with [prefix]. *)
Definition has_prefix (prefix k : bytes) : Prop := prefix `prefix_of` k.

Lemma sorted_range_prefix prefix l :
  StronglySorted (λ a b, Is_true (bytes_leb a b)) l →
  StronglySorted (λ a b, starts_with prefix b = true → starts_with prefix a = true)
                 (List.filter (bytes_leb prefix) l).
Proof.
  induction 1 as [|x l Hl IH Hx]; [constructor|]. simpl.
  destruct (bytes_leb prefix x) eqn:Hpx; [|done]. constructor; [done|].
  apply Forall_forall. intros y Hy. rewrite list_elem_of_In, filter_In, <- list_elem_of_In in Hy.
  destruct Hy as [Hy _]. rewrite Forall_forall in Hx. specialize (Hx y Hy).
  unfold starts_with. rewrite !bool_decide_eq_true. apply prefix_interval; [done|].
  by apply Is_true_true.
Qed.

Lemma prefix_keys_filter st prefix :
  prefix_keys st prefix = List.filter (starts_with prefix) (List.filter (bytes_leb prefix) (sorted_keys st)).
Proof. apply take_while_filter, sorted_range_prefix, StronglySorted_merge_sort; apply _. Qed.

Lemma elem_of_sorted_keys st k : k ∈ sorted_keys st ↔ is_Some (st_objects st !! k).
Proof.
  unfold sorted_keys. rewrite merge_sort_Permutation, list_elem_of_fmap. split.
  - intros ([k' o] & -> & Ho%elem_of_map_to_list). by exists o.
  - intros [o Ho]. exists (k, o). split; [done|]. by apply elem_of_map_to_list.
Qed.

Lemma elem_of_prefix_keys st prefix k :
  k ∈ prefix_keys st prefix ↔ is_Some (st_objects st !! k) ∧ has_prefix prefix k.
Proof.
  rewrite prefix_keys_filter, list_elem_of_In, !filter_In, <- list_elem_of_In, elem_of_sorted_keys.
  unfold starts_with, has_prefix. rewrite bool_decide_eq_true.
  pose proof (prefix_leb prefix k). tauto.
Qed.

Lemma NoDup_List_filter {A} (f : A → bool) l : NoDup l → NoDup (List.filter f l).
Proof. rewrite !NoDup_ListNoDup. apply List.NoDup_filter. Qed.

Lemma NoDup_prefix_keys st prefix : NoDup (prefix_keys st prefix).
Proof.
  rewrite prefix_keys_filter. do 2 apply NoDup_List_filter. unfold sorted_keys.
  rewrite merge_sort_Permutation. apply NoDup_fst_map_to_list.
Qed.

(** The count is the number of keys with the prefix. *)
Lemma prefix_keys_length st prefix :
  length (prefix_keys st prefix) = size (filter (λ '(k, _), has_prefix prefix k) (st_objects st)).
Proof.
  set (m := filter _ _). rewrite <- (size_dom (D:=gset bytes)), <- (size_list_to_set (C:=gset bytes)
    (prefix_keys st prefix)) by apply NoDup_prefix_keys.
  f_equal. apply set_eq. intros k. rewrite elem_of_list_to_set, elem_of_prefix_keys, elem_of_dom.
  unfold m. split.
  - intros [[o Ho] Hp]. exists o. by apply map_lookup_filter_Some.
  - intros [o [Ho Hp]%map_lookup_filter_Some]. split; [by exists o|done].
Qed.

Lemma without_prefix_keys st prefix :
  without (prefix_keys st prefix) (st_objects st) =
  filter (λ '(k, _), ¬ has_prefix prefix k) (st_objects st).
Proof.
  apply map_filter_ext. intros k o Ho. rewrite elem_of_prefix_keys. intuition eauto.
Qed.

Lemma remove_prefix_spec `{BuildProfile} {stale} st prefix :
  wf_at stale st → ∃ st', remove_prefix st prefix =
      Ret (st', Z.of_nat (size (filter (λ '(k, _), has_prefix prefix k) (st_objects st)))) ∧
    st_objects st' = filter (λ '(k, _), ¬ has_prefix prefix k) (st_objects st) ∧
    wf_at stale st' ∧ same_pools (st_pools st) (st_pools st').
Proof.
  intros Hwf. unfold remove_prefix.
  destruct (remove_spec st (prefix_keys st prefix) Hwf) as (pools' & -> & Hwf' & Hp).
  simpl. rewrite prefix_keys_length. rewrite without_prefix_keys in *.
  eexists. split; [done|]. by split_and!.
Qed.
