(* ===== verification/MemoryProps.v ===== *)
(** * The [Memory] backend: its theorems

    Reachable states satisfy the invariant and a valid call panics only when an
    eviction may meet a stale queue entry; put is
    write-once, all-or-nothing for [Each], and never evicts what it must not;
    get reads the nearest replica; what was put is what is read; publish,
    region retirement and removal do exactly what they say. *)

From S2P Require Import Prelude HostMem Types Region Memory MemoryEvict MemoryInv MemoryCopy MemoryPut MemoryPutOps MemoryOps.

(** ** Executions *)

Section System.
Context `{BuildProfile} (inner : Inner) (allowed : OpPut → Prop) (stale : bool).

(** One call on the backend, or a change of caller memory.  The guards of
    [step_put] and [step_publish] are the safety contract of
    [MemoryRegion::new] and the bounds of the counters.  With [stale] set, puts may
    also reuse a removed key with fewer slots, which leaves queue entries that
    name no slot. *)
Inductive step : heap * State → heap * State → Prop :=
| step_put h st key op st' res :
    Forall (λ ps, Forall (iov_valid h) (ps_src ps)) (op_slots op) → allowed op →
    Z.of_nat (length (op_slots op)) <= 2 ^ 32 →
    headroom (st_pools st) (zsum (slot_demand <$> op_slots op)) →
    (stale = false → no_stale key st (length (op_slots op))) →
    put inner h st key op = Ret (st', res) → step (h, st) (h, st')
| step_publish h st key op st' res :
    Forall (iov_valid h) (pub_src op) →
    publish st key op = Ret (st', res) → step (h, st) (h, st')
| step_get h st key op h' res :
    get inner h st key op = Ret (h', res) → step (h, st) (h', st)
| step_remove h st keys st' : remove st keys = Ret st' → step (h, st) (h, st')
| step_remove_prefix h st prefix st' n :
    remove_prefix st prefix = Ret (st', n) → step (h, st) (h, st')
| step_drop_region h st id : step (h, st) (h, retire_region st id)
| step_memory h st h' : step (h, st) (h', st).

Definition reachable (b : MemoryBuilder) (st : State) : Prop :=
  ∃ h h', rtc step (h, (build b).2) (h', st).
End System.

(** Pools of a fresh backend are empty. *)
Lemma build_pools b d p :
  st_pools (build b).2 !! d = Some p → pool_used p = 0 ∧ pool_fifo p = [].
Proof.
  unfold build. simpl. set (ds := match b_devices b with [] => _ | l => l end).
  assert (∀ (l : list (Device * option u64)) (m : gmap Device Pool),
    (∀ d p, m !! d = Some p → pool_used p = 0 ∧ pool_fifo p = []) →
    ∀ d p, foldl (λ m '(d, cap), <[d := mkPool cap 0 []]> m) m l !! d = Some p →
    pool_used p = 0 ∧ pool_fifo p = []) as Hgen.
  { induction l as [|[d' c] l IH]; intros m Hm; [done|]. simpl. apply IH.
    intros d'' q [[<- <-]|[_ Hq]]%lookup_insert_Some; [done|by eapply Hm]. }
  by apply Hgen.
Qed.

Lemma build_objects b : st_objects (build b).2 = ∅.
Proof. done. Qed.

Lemma wf_build {stale} b : wf_at stale (build b).2.
Proof.
  constructor; intros d p; try (intros Hd; destruct (build_pools b d p Hd) as [Hu Hf]).
  - by rewrite build_objects, lookup_empty.
  - rewrite Hu. symmetry. apply map_sum_empty.
  - by rewrite Hu.
  - intros _ Hd. destruct (build_pools b d p Hd) as [_ ->]. constructor.
  - intros k o i s r Hd Ho. by rewrite build_objects, lookup_empty in Ho.
Qed.

Lemma step_wf `{BuildProfile} inner allowed stale w w' : step inner allowed stale w w' → wf_at stale w.2 → wf_at stale w'.2.
Proof.
  intros Hstep Hwf. destruct Hstep as [h st key op st' res Hv _ Hc Hh Hs Hp|h st key op st' res Hv Hp|
    |h st keys st' Hr|h st prefix st' n Hr|h st id|]; simpl in *; try done.
  - pose proof (put_returned (stale := stale) inner h key st op st' res ltac:(by constructor) Hp) as Hres. destruct res as [rs|e].
    + destruct Hres as (_ & o' & Hd). by destruct Hd.
    + by destruct Hres as [-> _].
  - destruct (publish_spec h st key op Hwf Hv) as (st1 & r1 & Hp' & Hwf1 & _). congruence.
  - destruct (remove_spec st keys Hwf) as (pools' & Hr' & Hwf1 & _). unfold remove in Hr. congruence.
  - destruct (remove_prefix_spec st prefix Hwf) as (st1 & Hr' & _ & Hwf1 & _). congruence.
  - by apply wf_retire_region.
Qed.

Lemma reachable_wf_lemma `{BuildProfile} inner allowed stale b st :
  reachable inner allowed stale b st → wf_at stale st.
Proof.
  intros (h & h' & Hr). cut (∀ w w', rtc (step inner allowed stale) w w' → wf_at stale w.2 → wf_at stale w'.2).
  { intros Hc. by apply (Hc _ _ Hr), wf_build. }
  induction 1 as [|w1 w2 w3 Hs _ IH]; [done|]. intros Hwf. apply IH. by eapply step_wf.
Qed.

(** A valid call on a fresh backend. *)
Lemma put_pre_build h kb b op :
  Forall (λ ps, Forall (iov_valid h) (ps_src ps)) (op_slots op) →
  Z.of_nat (length (op_slots op)) <= 2 ^ 32 → zsum (slot_demand <$> op_slots op) <= U64_MAX →
  put_pre h kb (build b).2 op.
Proof.
  intros Hv Hc Hd. constructor; [apply wf_build|done|done|..].
  - intros d p Hp. destruct (build_pools _ _ _ Hp) as [-> _]. lia.
  - intros _ _ d p i Hp Hin. destruct (build_pools _ _ _ Hp) as [_ Hf].
    rewrite Hf in Hin. by apply elem_of_nil in Hin.
Qed.

(** What a put accepted, a later get delivers. *)
Lemma put_get_spec `{BuildProfile} {stale} inner h h2 kb st op st' rs j ps g d n :
  put_pre_at (stale := stale) h kb st op → put inner h st kb op = Ret (st', Ok rs) →
  rs !! j = Some (Ok tt) → op_slots op !! j = Some ps → get_slot g = Z.of_nat j →
  Forall (iov_valid h2) (get_dst g) → non_overlapping (get_dst g) →
  OpGet_validate g = Ok (d, n) → 0 <= get_src_offset g →
  get_src_offset g + n <= spec_len (ps_spec ps) → spec_len (ps_spec ps) <= U64_MAX →
  ∃ h' rp, get inner h2 st' kb g = Ret (h', Ok rp) ∧
    contents h' (get_dst g) =
      take (Z.to_nat n) (drop (Z.to_nat (get_src_offset g)) (contents h (ps_src ps))).
Proof.
  intros Hpre Hput Hr Hps Hg Hdst Hno Hval Hoff Hrange Hmax.
  destruct (put_returned inner h kb st op st' _ Hpre Hput) as (Hsp & o' & Hd).
  destruct (pd_slots _ _ _ _ _ _ _ _ _ _ Hd _ _ _ Hps Hr) as (s & s' & _ & Hs' & _ & ts & Hpl & ->).
  simpl in Hs'. pose proof (pd_obj _ _ _ _ _ _ _ _ _ _ Hd) as Ho'.
  assert (obj_spec o' = OpPut_spec op) as Hspec.
  { rewrite (pd_spec _ _ _ _ _ _ _ _ _ _ Hd). unfold base_object.
    destruct (st_objects st !! kb) as [o|] eqn:Ho; [by apply Hsp|done]. }
  assert (spec_slots (obj_spec o') !! j = Some (ps_spec ps)) as Hss.
  { rewrite Hspec. simpl. by rewrite list_lookup_fmap, Hps. }
  pose proof (placed_by_nonempty _ _ _ Hpl) as Hts.
  destruct (get_spec (stale := stale) inner h2 st' kb g) as (h' & res & Hget & Hres); [by destruct Hd|done|done| |].
  { intros o s0 r Ho Hs0 Hin. rewrite Hg, Nat2Z.id in Hs0. simplify_eq.
    by apply elem_of_new_replicas in Hin as (? & ? & _ & ->). }
  rewrite Hget. destruct res as [rp|e].
  - exists h', rp. split; [done|]. destruct Hres as (d' & n' & o & s0 & r & [Hv Ho Hs0 Hn _ _ _ _ Hb]).
    assert (d' = d ∧ n' = n) as [-> ->] by (split; congruence). assert (o = o') as -> by congruence.
    rewrite Hg, Nat2Z.id, Hs' in Hs0. injection Hs0 as <-. rewrite (Hb Hno).
    by apply nearest_elem, elem_of_new_replicas in Hn as (? & ? & _ & ->).
  - exfalso. destruct Hres as [_ Hf]. revert Hf. generalize (err_kind e). intros k Hf.
    destruct Hf as [e' He|d' n' Hv Ho|d' n' o Hv Ho Hn|d' n' o spec Hv Ho Hn Hr'|d' n' o spec Hv Ho Hn Hr' He];
      try congruence.
    + rewrite Hg, Nat2Z.id in Hn. congruence.
    + rewrite Hg, Nat2Z.id in Hn. assert (n' = n ∧ spec = ps_spec ps) as [-> ->] by (split; congruence).
      lia.
    + rewrite Hg, Nat2Z.id in He. assert (o = o') as -> by congruence. rewrite Hs' in He.
      by destruct ts.
Qed.

(** ** A concrete backend for the examples

    Two CPU pools, the first of 8 bytes; 16 bytes of caller memory at 1000. *)

Definition fx_heap : heap := list_to_map ((λ i, (1000 + i, i)) <$> seqZ 0 16).
Definition fx_region : MemoryRegion := with_id 1 1000 16 (Cpu 0).
Definition fx_builder : MemoryBuilder := b_device (b_device_with_capacity builder (Cpu 0) 8) (Cpu 1).
Definition fx_inner : Inner := (build fx_builder).1.
Definition fx_st0 : State := (build fx_builder).2.
Definition fx_slot (p : Placement) (off len : u64) : PutSlot :=
  mkPutSlot (mkSlotSpec len p) [iov fx_region off len].
Definition fx_put : OpPut := OpPut_new [fx_slot (Strict (Cpu 0)) 0 4; fx_slot (Prefer (Cpu 0)) 4 6].

#[local] Instance fx_profile : BuildProfile := true.

(** The state after [fx_put] under key [[7]]. *)
Definition fx_st1 : State :=
  match put fx_inner fx_heap fx_st0 [7] fx_put with Ret (st, _) => st | _ => fx_st0 end.

Lemma fx_pre0 : put_pre fx_heap [7] fx_st0 fx_put.
Proof.
  apply put_pre_build; [apply (bool_decide_unpack _); by vm_compute|done|by vm_compute].
Qed.

Lemma fx_wf1 : wf fx_st1.
Proof.
  destruct (put_spec fx_inner fx_heap [7] fx_st0 fx_put fx_pre0) as (st' & res & Hp & Hres).
  unfold fx_st1. rewrite Hp. destruct res as [rs|e].
  - destruct Hres as (_ & o' & Hd). by destruct Hd.
  - destruct Hres as [-> _]. apply wf_build.
Qed.

(** ** Executions stay well-formed *)

(** C4: Every state reachable from a freshly built backend by valid calls satisfies the
    invariant: objects match their specs, [used] is exactly the owned bytes
    per device, every evictable replica is queued; and when no put reuses a
    removed key in a way that leaves a stale queue entry ([stale] is [false]),
    every queue entry of a live object names one of its slots. *)
Theorem reachable_wf `{BuildProfile} inner allowed stale b st : reachable inner allowed stale b st → wf_at stale st.
Proof. apply reachable_wf_lemma. Qed.

Lemma fx_step1 : step fx_inner (λ _, True) false (fx_heap, fx_st0) (fx_heap, fx_st1).
Proof.
  destruct fx_pre0 as [_ Hv Hc Hh Hs].
  eapply (step_put _ _ _ fx_heap fx_st0 [7] fx_put fx_st1); [done..|]. by vm_compute.
Defined.

Lemma reachable_wf_witness : reachable fx_inner (λ _, True) false fx_builder fx_st1 ∧ wf fx_st1.
Proof.
  assert (reachable fx_inner (λ _, True) false fx_builder fx_st1) as Hr.
  { exists fx_heap, fx_heap. eapply rtc_l; [apply fx_step1|apply rtc_refl]. }
  split; [exact Hr|]. exact (reachable_wf _ _ _ _ _ Hr).
Defined.

(** No queue entry names a slot that its object does not have, or that the object
    the put is about to create will not have. *)
Definition stale_free (key : bytes) (op : OpPut) (st : State) : Prop :=
  (∀ d p, st_pools st !! d = Some p → Forall (idx_ok (st_objects st)) (pool_fifo p)) ∧
  no_stale key st (length (op_slots op)).

(** C9: In a reachable state a call with valid arguments returns (no index or
    [unwrap] panic, no counter overflow, no access outside mapped memory), with
    one exception: a put may panic, and only when the queues hold a stale entry,
    or would once the put has created its object.  Valid arguments: iovs over
    mapped caller memory, counters with room for the put, and replicas lent by
    [publish] still mapped when a get may read them. *)
Theorem reachable_calls_return `{BuildProfile} inner allowed stale b st h :
  reachable inner allowed stale b st →
  (∀ key op, put_pre_at (stale := stale) h key st op →
     (∃ st' r, put inner h st key op = Ret (st', r)) ∨
     stale = true ∧ put inner h st key op = Panicked ∧ ¬ stale_free key op st) ∧
  (∀ key op, Forall (iov_valid h) (pub_src op) → ∃ st' r, publish st key op = Ret (st', r)) ∧
  (∀ key op, Forall (iov_valid h) (get_dst op) → 0 <= get_src_offset op →
     replicas_live h st key (Z.to_nat (get_slot op)) → ∃ h' r, get inner h st key op = Ret (h', r)) ∧
  (∀ keys, ∃ st', remove st keys = Ret st') ∧
  (∀ prefix, ∃ st' n, remove_prefix st prefix = Ret (st', n)).
Proof.
  intros Hwf%reachable_wf_lemma. split_and!.
  - intros key op Hp. destruct (put_at inner h key st op Hp) as [(? & ? & ? & _)|[Hst Hpa]]; [left; eauto|right].
    split_and!; try done. intros [Hidx Hns]. destruct Hp as [[W1 W2 W3 _ W5] Hv Hc Hh _].
    destruct (put_spec inner h key st op) as (? & ? & ? & _); [constructor; [constructor; [exact W1|exact W2|exact W3|intros d p _; apply Hidx|exact W5]|done..|by auto]|]. congruence.
  - intros key op Hv. destruct (publish_spec h st key op Hwf Hv) as (? & ? & ? & _). eauto.
  - intros key op Hv Ho Hl. destruct (get_spec inner h st key op Hwf Hv Ho Hl) as (? & ? & ? & _). eauto.
  - intros keys. destruct (remove_spec st keys Hwf) as (? & ? & _). eauto.
  - intros prefix. destruct (remove_prefix_spec st prefix Hwf) as (? & ? & _). eauto.
Qed.

Lemma reachable_calls_return_witness :
  ∃ st' n, remove_prefix fx_st1 [7] = Ret (st', n) ∧ n = 1.
Proof.
  assert (reachable fx_inner (λ _, True) false fx_builder fx_st1) as Hr.
  { exists fx_heap, fx_heap. eapply rtc_l; [apply fx_step1|apply rtc_refl]. }
  destruct (reachable_calls_return _ _ _ _ _ fx_heap Hr) as (_ & _ & _ & _ & Hrp).
  destruct (Hrp [7]) as (st' & n & Heq). exists st', n. split; [exact Heq|].
  revert Heq. vm_compute. congruence.
Defined.

Definition op_nodup (op : OpPut) : Prop :=
  Forall (λ ps, placement_nodup (spec_placement (ps_spec ps))) (op_slots op).

Definition capacities_valid (b : MemoryBuilder) : Prop :=
  Forall (λ x : Device * option u64, from_option (Z.le 0) True x.2) (b_devices b).

Lemma build_within_capacity b : capacities_valid b → within_capacity (build b).2.
Proof.
  intros Hb d p cap Hd Hc. destruct (build_pools _ _ _ Hd) as [-> _].
  unfold build in Hd. simpl in Hd. revert Hd.
  assert (∀ (l : list (Device * option u64)) (m : gmap Device Pool),
    Forall (λ x : Device * option u64, from_option (Z.le 0) True x.2) l →
    (∀ d p cap, m !! d = Some p → pool_capacity p = Some cap → 0 <= cap) →
    ∀ d p cap, foldl (λ m '(d, cap), <[d := mkPool cap 0 []]> m) m l !! d = Some p →
    pool_capacity p = Some cap → 0 <= cap) as Hgen.
  { induction l as [|[d' c] l IH]; intros m Hl Hm; [done|]. apply Forall_cons in Hl as [Hc' Hl].
    simpl. apply IH; [done|]. intros d'' q cap' [[<- <-]|[_ Hq]]%lookup_insert_Some; [|by eapply Hm].
    simpl. by intros ->. }
  intros Hd. eapply Hgen; [|  |exact Hd|exact Hc]; [|done].
  unfold capacities_valid in Hb. destruct (b_devices b); [by repeat constructor|done].
Qed.

Lemma step_capacity `{BuildProfile} inner stale w w' :
  step inner op_nodup stale w w' → wf_at stale w.2 → within_capacity w.2 → within_capacity w'.2.
Proof.
  intros Hstep Hwf Hcap.
  destruct Hstep as [h st key op st' res Hv Ha Hc Hh Hs Hp|h st key op st' res Hv Hp|
    |h st keys st' Hr|h st prefix st' n Hr|h st id|]; simpl in *; try done.
  - pose proof (put_returned (stale := stale) inner h key st op st' res ltac:(by constructor) Hp) as Hres. destruct res as [rs|e].
    + destruct Hres as (_ & o' & Hd). destruct Hd. auto.
    + by destruct Hres as [-> _].
  - destruct (publish_spec h st key op Hwf Hv) as (st1 & r1 & Hp' & _ & Hres).
    rewrite Hp in Hp'. simplify_eq. destruct r1 as [[]|e]; [|by destruct Hres as [-> _]].
    destruct Hres as (? & ? & ? & ? & _ & _ & _ & _ & ->). done.
  - destruct (remove_spec st keys Hwf) as (pools' & Hr' & _ & [Hle _]).
    unfold remove in Hr. rewrite Hr in Hr'. simplify_eq. by apply (within_capacity_le st).
  - destruct (remove_prefix_spec st prefix Hwf) as (st1 & Hr' & _ & _ & [Hle _]).
    rewrite Hr in Hr'. simplify_eq. by apply (within_capacity_le st).
Qed.

(** C10: As long as no [Each] placement names a device twice, no pool ever holds
    more owned bytes than its capacity. *)
Theorem reachable_within_capacity `{BuildProfile} inner stale b st :
  capacities_valid b → reachable inner op_nodup stale b st → within_capacity st.
Proof.
  intros Hb (h & h' & Hr).
  cut (∀ w w', rtc (step inner op_nodup stale) w w' → wf_at stale w.2 → within_capacity w.2 → within_capacity w'.2).
  { intros Hc. apply (Hc _ _ Hr); [apply wf_build|by apply build_within_capacity]. }
  induction 1 as [|w1 w2 w3 Hs _ IH]; [done|]. intros Hwf Hw.
  apply IH; [by eapply step_wf|by eapply step_capacity].
Qed.

Lemma reachable_within_capacity_witness : within_capacity fx_st1 ∧ used fx_st1 (Cpu 0) = 4.
Proof.
  split; [|by vm_compute]. apply (reachable_within_capacity fx_inner false fx_builder).
  - repeat constructor; done.
  - exists fx_heap, fx_heap. eapply rtc_l; [|apply rtc_refl]. destruct fx_pre0 as [_ Hv Hc Hh Hs].
    eapply (step_put _ _ _ fx_heap fx_st0 [7] fx_put fx_st1); [done| |done..|]; [|by vm_compute].
    repeat constructor.
Defined.
