(* ===== verification/MemoryTheorems.v ===== *)
(** * The [Memory] backend: theorems per operation

    put: outcome of the whole call, placement rule, write-once, what eviction
    may touch; make_room: FIFO prefix and when it succeeds; get, and the round
    trip from put; publish, region retirement, removal. *)

From S2P Require Import Prelude HostMem Types Region Memory MemoryEvict MemoryInv MemoryCopy MemoryPut MemoryPutOps MemoryOps MemoryProps.

#[local] Existing Instance fx_profile.

(** ** [put] *)

(** C3: [put] with valid arguments, on a well-formed state with room in the [used]
    counters and no stale queue entry (none now, and none that the object it
    creates would make stale), returns. An operation-level error (invalid iovs,
    spec mismatch) leaves the state untouched; otherwise there is one result per
    slot and [put_done] accounts for every slot: a written slot was empty and now
    holds the gathered source on devices its placement allows, a refused slot is
    unchanged and says why. *)
Theorem put_correct `{BuildProfile} inner h kb st op :
  put_pre h kb st op →
  ∃ st' res, put inner h st kb op = Ret (st', res) ∧
    match res with
    | Err e => st' = st ∧ (OpPut_validate op = Err e ∨
        OpPut_validate op = Ok tt ∧ err_kind e = SpecMismatch ∧ ∃ o, st_objects st !! kb = Some o ∧ obj_spec o ≠ OpPut_spec op)
    | Ok rs =>
        (∀ o, st_objects st !! kb = Some o → obj_spec o = OpPut_spec op) ∧
        ∃ o', put_done (stale := false) inner h kb 0 (op_slots op) st (base_object kb st op) st' o' rs
    end.
Proof. apply put_spec. Qed.

Lemma put_correct_witness :
  put_pre fx_heap [7] fx_st0 fx_put ∧
  ∃ st', put fx_inner fx_heap fx_st0 [7] fx_put = Ret (st', Ok [Ok tt; Ok tt]) ∧ wf st'.
Proof.
  split; [exact fx_pre0|].
  destruct (put_correct fx_inner fx_heap [7] fx_st0 fx_put fx_pre0) as (st' & res & Hp & Hres).
  destruct res as [rs|e]; [|exfalso; revert Hp; vm_compute; congruence].
  destruct Hres as (_ & o' & Hd). exists st'. split; [|by destruct Hd].
  rewrite Hp. do 3 f_equal. revert Hp. vm_compute. congruence.
Defined.

(** The placement rule of one slot.  [put_slot] on an empty slot succeeds exactly
    when the placement has room ([Each]: every device; otherwise some candidate)
    after all permitted evictions, and then writes the gathered bytes to exactly
    the selected devices; on failure the object is unchanged. *)
Theorem put_slot_placement `{BuildProfile} inner h kb st i ps o :
  wf st → st_objects st !! kb = Some o → obj_slots o !! i = Some [] →
  spec_slots (obj_spec o) !! i = Some (ps_spec ps) → Z.of_nat i < 2 ^ 32 → src_ok h ps →
  headroom (st_pools st) (slot_demand ps) →
  ∃ st' r, put_slot inner h kb st i ps = Ret (st', r) ∧
    (r = Ok tt ↔ placeable inner st kb (ps_spec ps) = true) ∧
    st_objects st' !! kb = Some (mkObject (obj_spec o)
      (<[i := if placeable inner st kb (ps_spec ps)
              then new_replicas (contents h (ps_src ps)) (targets inner st kb (ps_spec ps))
              else []]> (obj_slots o))).
Proof.
  intros Hwf Ho Hi Hsp Hi32 Hsrc Hh.
  destruct (put_slot_spec inner h kb st i ps o) as (st' & r & Hp & _ & Hr & _); [done..|].
  exists st', r. split; [done|]. unfold slot_result in Hr.
  destruct (placeable inner st kb (ps_spec ps)).
  - destruct Hr as [-> Hobj]. done.
  - destruct Hr as (Hobj & e & -> & _). split; [done|].
    rewrite list_insert_id by done. by destruct o.
Qed.

Lemma put_slot_placement_witness :
  ∃ st' r, put_slot fx_inner fx_heap [9]
      (mkState {[ [9] := mkObject (mkObjectSpec Cache [mkSlotSpec 6 (Each [Cpu 0; Cpu 1])]) [[]] ]}
               (st_pools fx_st0)) 0 (fx_slot (Each [Cpu 0; Cpu 1]) 0 6) = Ret (st', r) ∧ r = Ok tt.
Proof.
  destruct (put_slot_placement fx_inner fx_heap [9]
    (mkState {[ [9] := mkObject (mkObjectSpec Cache [mkSlotSpec 6 (Each [Cpu 0; Cpu 1])]) [[]] ]}
             (st_pools fx_st0)) 0 (fx_slot (Each [Cpu 0; Cpu 1]) 0 6)
    (mkObject (mkObjectSpec Cache [mkSlotSpec 6 (Each [Cpu 0; Cpu 1])]) [[]]))
    as (st' & r & Hp & Hr & _).
  - apply (wf_reserve [9] fx_st0 (mkObjectSpec Cache [mkSlotSpec 6 (Each [Cpu 0; Cpu 1])]));
      [apply wf_build|done|].
    intros _ _ d p i Hd Hin. destruct (build_pools fx_builder _ _ Hd) as [_ Hf]. rewrite Hf in Hin.
    by apply elem_of_nil in Hin.
  - apply lookup_singleton_eq.
  - done.
  - done.
  - done.
  - split; [|split; [done|by vm_compute]]. constructor; [|constructor].
    split; [|done]. apply (bool_decide_unpack _). by vm_compute.
  - intros d p Hd. destruct (build_pools fx_builder _ _ Hd) as [-> _]. by vm_compute.
  - exists st', r. split; [exact Hp|]. apply Hr. by vm_compute.
Defined.

(** Slots are write-once: a put on an object with a non-empty slot reports
    [AlreadyExists] for it and leaves its replicas as they are. *)
Theorem put_write_once `{BuildProfile} inner h kb st op st' rs o j s :
  put_pre h kb st op → put inner h st kb op = Ret (st', Ok rs) →
  st_objects st !! kb = Some o → obj_slots o !! j = Some s → s ≠ [] →
  ∃ o' e, st_objects st' !! kb = Some o' ∧ obj_slots o' !! j = Some s ∧
          rs !! j = Some (Err e) ∧ err_kind e = AlreadyExists.
Proof.
  intros Hpre Hput Ho Hs Hne.
  destruct (put_spec inner h kb st op Hpre) as (st1 & res & Hput' & Hres).
  rewrite Hput in Hput'. simplify_eq. destruct Hres as (Hspec & o' & Hd).
  unfold base_object in Hd. rewrite Ho in Hd. simpl in Hd.
  pose proof (Forall2_length _ _ _ (wf_obj _ (pp_wf _ _ _ _ Hpre) _ _ Ho)) as Hlen.
  rewrite (Hspec _ Ho) in Hlen. simpl in Hlen. rewrite length_fmap in Hlen.
  assert (j < length (op_slots op))%nat as Hj by (rewrite Hlen; by eapply lookup_lt_Some).
  destruct (lookup_lt_is_Some_2 _ _ Hj) as [ps Hps]. rewrite <- (pd_length _ _ _ _ _ _ _ _ _ _ Hd) in Hj.
  destruct (lookup_lt_is_Some_2 _ _ Hj) as [r Hr].
  destruct (pd_slots _ _ _ _ _ _ _ _ _ _ Hd _ _ _ Hps Hr) as (s0 & s' & Hs0 & Hs' & Hdone).
  simpl in *. simplify_eq. destruct r as [[]|e]; [by destruct Hdone|].
  destruct Hdone as [-> [[_ Hk]|[? _]]]; [|done].
  exists o', e. split_and!; try done. apply Hd.
Qed.

Definition fx_st2 : State :=
  match put fx_inner fx_heap fx_st1 [7] fx_put with Ret (st, _) => st | _ => fx_st1 end.

Lemma fx_headroom1 n : n <= U64_MAX - 100 → headroom (st_pools fx_st1) n.
Proof.
  intros Hn d p Hd. cut (pool_used p <= 100); [lia|]. revert d p Hd.
  change (map_Forall (λ (_ : Device) p, pool_used p <= 100) (st_pools fx_st1)). apply (bool_decide_unpack _). by vm_compute.
Qed.

Lemma fx_pre1 : put_pre fx_heap [7] fx_st1 fx_put.
Proof.
  constructor; [apply fx_wf1|apply (bool_decide_unpack _); by vm_compute|done| |].
  - apply fx_headroom1. by vm_compute.
  - intros _ Hn. exfalso. revert Hn. by vm_compute.
Qed.

Lemma put_write_once_witness :
  ∃ o' e, st_objects fx_st2 !! [7] = Some o' ∧
    obj_slots o' !! 0%nat = Some [mkReplicaEntry (Cpu 0) Dram false (Owned [0; 1; 2; 3])] ∧
    err_kind e = AlreadyExists.
Proof.
  destruct (put_write_once fx_inner fx_heap [7] fx_st1 fx_put fx_st2
    (match put fx_inner fx_heap fx_st1 [7] fx_put with Ret (_, Ok rs) => rs | _ => [] end)
    (default (mkObject (mkObjectSpec Cache []) []) (st_objects fx_st1 !! [7])) 0%nat
    [mkReplicaEntry (Cpu 0) Dram false (Owned [0; 1; 2; 3])] fx_pre1)
    as (o' & e & Ho & Hs & _ & Hk); [by vm_compute|by vm_compute|by vm_compute|done|].
  exists o', e. split_and!; done.
Defined.

(** What a put may take from other objects.  Under another key an [Explicit]
    object is untouched, and from a [Cache] object only owned replicas may
    disappear: published ones survive, order is kept, and the object itself
    goes only if nothing was published into it. *)
Theorem put_spares_others `{BuildProfile} inner h kb st op st' rs k o :
  put_pre h kb st op → put inner h st kb op = Ret (st', Ok rs) →
  k ≠ kb → st_objects st !! k = Some o →
  match st_objects st' !! k with
  | Some o' =>
      obj_spec o' = obj_spec o ∧ Forall2 slot_shrink (obj_slots o) (obj_slots o') ∧
      (spec_retention (obj_spec o) = Explicit → o' = o)
  | None =>
      spec_retention (obj_spec o) = Cache ∧
      Forall (Forall (λ r, is_owned r = true)) (obj_slots o)
  end.
Proof.
  intros Hpre Hput Hk Ho.
  destruct (put_spec inner h kb st op Hpre) as (st1 & res & Hput' & Hres).
  rewrite Hput in Hput'. injection Hput' as <- <-. destruct Hres as (_ & o1 & Hd).
  pose proof (others_lookup _ _ _ k (pd_others _ _ _ _ _ _ _ _ _ _ Hd) Hk) as Hs.
  rewrite Ho in Hs. destruct (st_objects st' !! k) as [o'|]; simpl in Hs.
  - destruct Hs as [[Hsp Hsl] He]. split_and!; auto.
  - tauto.
Qed.

Definition fx_put8 : OpPut := OpPut_new [fx_slot (Strict (Cpu 0)) 0 8].

Definition fx_st3 : State :=
  match put fx_inner fx_heap fx_st1 [8] fx_put8 with Ret (st, _) => st | _ => fx_st1 end.

Lemma fx_pre8 : put_pre fx_heap [8] fx_st1 fx_put8.
Proof.
  constructor; [apply fx_wf1|apply (bool_decide_unpack _); by vm_compute|done| |].
  - apply fx_headroom1. by vm_compute.
  - intros _ _ d p i Hd Hin. exfalso. revert i Hin.
    assert (map_Forall (λ (_ : Device) p, Forall (λ e, e.1 ≠ ([8] : bytes)) (pool_fifo p))
              (st_pools fx_st1)) as Hall by (apply (bool_decide_unpack _); by vm_compute).
    intros i Hin. specialize (Hall _ _ Hd). rewrite Forall_forall in Hall. by apply (Hall _ Hin).
Qed.

(** Putting 8 bytes evicts the 4-byte replica of key [[7]]; its other slot,
    which [Prefer] moved to the second pool, stays. *)
Lemma put_spares_others_witness :
  match st_objects fx_st3 !! [7] with
  | Some o' => obj_slots o' = [[]; [mkReplicaEntry (Cpu 1) Dram true (Owned [4; 5; 6; 7; 8; 9])]]
  | None => False
  end ∧ ∃ o, st_objects fx_st1 !! [7] = Some o ∧
  match st_objects fx_st3 !! [7] with
  | Some o' => Forall2 slot_shrink (obj_slots o) (obj_slots o')
  | None => False
  end.
Proof.
  split; [by vm_compute|].
  destruct (st_objects fx_st1 !! [7]) as [o|] eqn:Ho; [|exfalso; revert Ho; by vm_compute].
  exists o. split; [reflexivity|].
  pose proof (put_spares_others fx_inner fx_heap [8] fx_st1 fx_put8 fx_st3
    (match put fx_inner fx_heap fx_st1 [8] fx_put8 with Ret (_, Ok rs) => rs | _ => [] end)
    [7] o fx_pre8 ltac:(by vm_compute) ltac:(done) Ho) as Ht.
  destruct (st_objects fx_st3 !! [7]) as [o'|] eqn:Ho'; [|exfalso; revert Ho'; by vm_compute].
  exact (proj1 (proj2 Ht)).
Defined.

(** ** [make_room] *)

(** C8: [make_room], on a well-formed state without stale queue entries and with
    room in the counter, succeeds exactly when the bytes it may not evict (those
    of the protected key and of [Explicit] objects) leave room for [need]; it
    keeps the invariant, and evicts only owned replicas on that device. *)
Theorem make_room_iff `{BuildProfile} st d need p pool :
  wf st → st_pools st !! d = Some pool → 0 <= need → pool_used pool + need <= U64_MAX →
  ∃ st' fits, make_room st d need p = Ret (st', fits) ∧ wf st' ∧
    evicted d p (st_objects st) (st_objects st') ∧
    (fits = true ↔ match pool_capacity pool with
                   | None => True
                   | Some cap => unevictable d p (st_objects st) + need <= cap
                   end).
Proof.
  intros Hwf Hd Hn Hle.
  destruct (make_room_spec st d need p pool) as (objs' & pool' & Hr & Hwf' & Hev & _); [done..|].
  eexists _, _. split; [exact Hr|]. split; [done|]. split; [done|]. unfold can_fit. rewrite Hd.
  destruct (pool_capacity pool); [apply Z.leb_le|done].
Qed.

Lemma make_room_iff_witness :
  ∃ st' fits, make_room fx_st1 (Cpu 0) 8 [8] = Ret (st', fits) ∧ wf st' ∧ fits = true.
Proof.
  destruct (make_room_iff fx_st1 (Cpu 0) 8 [8] (mkPool (Some 8) 4 [([7], 0)]) fx_wf1)
    as (st' & fits & Hr & Hwf & _ & Hf); [by vm_compute|done|by vm_compute|].
  exists st', fits. split; [exact Hr|]. split; [exact Hwf|]. apply Hf. by vm_compute.
Defined.

(** [make_room] evicts a prefix of the pool's FIFO, the shortest that makes room,
    and puts the protected key's entries of that prefix back at the front in
    their order. *)
Theorem make_room_fifo_prefix `{BuildProfile} st d need p cap u fifo :
  wf st → st_pools st !! d = Some (mkPool (Some cap) u fifo) → 0 <= need → u + need <= U64_MAX →
  ∃ n fits, (n <= length fifo)%nat ∧
    let objs := evict_all d p (st_objects st) (take n fifo) in
    make_room st d need p =
      Ret (mkState objs (<[d := mkPool (Some cap) (owned d objs)
             (List.filter (λ e, bool_decide (e.1 = p)) (take n fifo) ++ drop n fifo)]> (st_pools st)),
           fits) ∧
    (∀ m, (m < n)%nat → cap < owned d (evict_all d p (st_objects st) (take m fifo)) + need).
Proof.
  intros Hwf Hd Hn Hle. unfold make_room. rewrite Hd. simpl.
  pose proof (wf_used _ Hwf _ _ Hd) as Hu. simpl in Hu. destruct st as [objs pools]. simpl in *.
  destruct (Z.ltb_spec cap need) as [Hlt|Hge].
  { exists 0%nat, false. split; [lia|]. split; [|lia]. simpl. rewrite <- Hu, insert_id by done. done. }
  destruct (make_room_loop_spec d cap need p fifo objs u []) as (n & Hnl & -> & Hstop & Hmin);
    [done|done|done|exact (wf_idx _ Hwf _ _ eq_refl Hd)|].
  exists n, (owned d (evict_all d p objs (take n fifo)) + need <=? cap). split; [done|].
  split; [|done]. simpl. rewrite foldl_push_front.
  pose proof (owned_evict_all_le d p objs (take n fifo)). pose proof (owned_nonneg d (evict_all d p objs (take n fifo))).
  rewrite u64_add_ok by (split; lia). done.
Qed.

Lemma make_room_fifo_prefix_witness :
  ∃ n fits, (n <= 1)%nat ∧
    make_room fx_st1 (Cpu 0) 8 [8] =
      Ret (mkState (evict_all (Cpu 0) [8] (st_objects fx_st1) (take n [([7], 0)]))
             (<[Cpu 0 := mkPool (Some 8)
                  (owned (Cpu 0) (evict_all (Cpu 0) [8] (st_objects fx_st1) (take n [([7], 0)])))
                  (List.filter (λ e, bool_decide (e.1 = [8])) (take n [([7], 0)]) ++ drop n [([7], 0)])]>
                (st_pools fx_st1)), fits).
Proof.
  destruct (make_room_fifo_prefix fx_st1 (Cpu 0) 8 [8] 8 4 [([7], 0)] fx_wf1)
    as (n & fits & Hn & Hr & _); [by vm_compute|done|by vm_compute|].
  exists n, fits. split; [exact Hn|exact Hr].
Defined.

(** ** [get] *)

(** [get] with valid arguments returns.  An error leaves memory untouched and its
    kind tells the reason, checked in the order of [get_fails]; on success the
    destination holds the requested range of the nearest replica's bytes and no
    other byte changed. *)
Theorem get_correct `{BuildProfile} inner h st key op :
  wf st → Forall (iov_valid h) (get_dst op) → 0 <= get_src_offset op →
  replicas_live h st key (Z.to_nat (get_slot op)) →
  ∃ h' res, get inner h st key op = Ret (h', res) ∧
    match res with
    | Err e => h' = h ∧ get_fails st key op (err_kind e)
    | Ok rp => ∃ d n o s r, got inner h st key op h' rp d n o s r
    end.
Proof. apply get_spec. Qed.

Lemma fx_live1 h i : replicas_live h fx_st1 [7] i.
Proof.
  intros o s r Ho Hs Hr. destruct (re_data r) as [b|segs id] eqn:Hd; [done|]. exfalso.
  assert (Forall (Forall (λ r, is_owned r = true)) (obj_slots o)) as Hall.
  { revert Ho. vm_compute. intros [= <-]. repeat constructor. }
  rewrite Forall_forall in Hall. specialize (Hall s (list_elem_of_lookup_2 _ _ _ Hs)).
  rewrite Forall_forall in Hall. specialize (Hall r Hr). unfold is_owned in Hall. by rewrite Hd in Hall.
Qed.

Lemma get_correct_witness :
  ∃ h' rp, get fx_inner fx_heap fx_st1 [7] (mkOpGet 1 2 [iov fx_region 8 4]) = Ret (h', Ok rp) ∧
    bytes_at h' 1008 4 = [6; 7; 8; 9] ∧ rp_from rp = mkLocation 0 (Cpu 1) Dram.
Proof.
  destruct (get_correct fx_inner fx_heap fx_st1 [7] (mkOpGet 1 2 [iov fx_region 8 4]) fx_wf1)
    as (h' & res & Hg & Hres); [apply (bool_decide_unpack _); by vm_compute|done|apply fx_live1|].
  destruct res as [rp|e]; [|exfalso; revert Hg; vm_compute; congruence].
  exists h', rp. split; [exact Hg|]. revert Hg. vm_compute. intros [= <- <-]. by split.
Defined.

(** The replica [get] reads is the first one of least (distance, tier): every
    earlier replica is strictly farther, no later one is nearer. *)
Theorem get_reads_nearest inner d s r :
  nearest inner d s = Some r →
  ∃ s1 s2, s = s1 ++ r :: s2 ∧
    (∀ x, x ∈ s1 → distance inner d (re_device r) < distance inner d (re_device x) ∨
       distance inner d (re_device r) = distance inner d (re_device x) ∧
       tier_rank (re_tier r) < tier_rank (re_tier x)) ∧
    (∀ x, x ∈ s2 → distance inner d (re_device r) < distance inner d (re_device x) ∨
       distance inner d (re_device r) = distance inner d (re_device x) ∧
       tier_rank (re_tier r) <= tier_rank (re_tier x)).
Proof.
  intros (s1 & s2 & -> & H1 & H2)%nearest_spec. exists s1, s2. split; [done|].
  rewrite Forall_forall in H1, H2. split; intros x Hx.
  - specialize (H1 x Hx). unfold key_ltb, source_key in H1. simpl in H1.
    apply orb_true_iff in H1 as [?%Z.ltb_lt|[?%Z.eqb_eq ?%Z.ltb_lt]%andb_true_iff]; auto.
  - specialize (H2 x Hx). by apply key_ltb_false in H2.
Qed.

Lemma get_reads_nearest_witness :
  ∃ s1 s2, [mkReplicaEntry (Cpu 1) Dram false (Owned []); mkReplicaEntry (Cpu 0) Dram false (Owned [])]
    = s1 ++ mkReplicaEntry (Cpu 0) Dram false (Owned []) :: s2 ∧ length s1 = 1%nat.
Proof.
  destruct (get_reads_nearest fx_inner (Cpu 0)
    [mkReplicaEntry (Cpu 1) Dram false (Owned []); mkReplicaEntry (Cpu 0) Dram false (Owned [])]
    (mkReplicaEntry (Cpu 0) Dram false (Owned [])) eq_refl) as (s1 & s2 & Heq & _).
  exists s1, s2. split; [exact Heq|]. destruct s1 as [|x [|y [|z s1]]]; simplify_eq; reflexivity.
Defined.

(** C5: Round trip: whatever slot a put accepted, a get of any range of it that fits
    succeeds, at any later state of caller memory, and delivers the bytes the
    put gathered. *)
Theorem put_get_roundtrip `{BuildProfile} inner h h2 kb st op st' rs j ps g d n :
  put_pre_at (stale := true) h kb st op → put inner h st kb op = Ret (st', Ok rs) →
  rs !! j = Some (Ok tt) → op_slots op !! j = Some ps → get_slot g = Z.of_nat j →
  Forall (iov_valid h2) (get_dst g) → non_overlapping (get_dst g) →
  OpGet_validate g = Ok (d, n) → 0 <= get_src_offset g →
  get_src_offset g + n <= spec_len (ps_spec ps) → spec_len (ps_spec ps) <= U64_MAX →
  ∃ h' rp, get inner h2 st' kb g = Ret (h', Ok rp) ∧
    contents h' (get_dst g) =
      take (Z.to_nat n) (drop (Z.to_nat (get_src_offset g)) (contents h (ps_src ps))).
Proof. apply put_get_spec. Qed.

Lemma put_get_roundtrip_witness :
  ∃ h' rp, get fx_inner fx_heap fx_st1 [7] (mkOpGet 0 1 [iov fx_region 8 3]) = Ret (h', Ok rp) ∧
    contents h' [iov fx_region 8 3] = [1; 2; 3].
Proof.
  destruct (put_get_roundtrip fx_inner fx_heap fx_heap [7] fx_st0 fx_put fx_st1 [Ok tt; Ok tt] 0
    (fx_slot (Strict (Cpu 0)) 0 4) (mkOpGet 0 1 [iov fx_region 8 3]) (Cpu 0) 3 (put_pre_loose _ _ _ _ fx_pre0))
    as (h' & rp & Hg & Hb);
    [by vm_compute|done|done|done|apply (bool_decide_unpack _); by vm_compute
    |repeat constructor|by vm_compute|done|by vm_compute|by vm_compute|].
  - exists h', rp. split; [exact Hg|]. cbn [get_dst] in Hb. rewrite Hb. by vm_compute.
Defined.

(** ** [publish] and region retirement *)

(** [publish] with valid iovs returns and keeps the invariant.  It appends one
    [External] replica of the source segments to the slot and changes nothing
    else, or reports why it could not and changes nothing. *)
Theorem publish_correct `{BuildProfile} h st key op :
  wf st → Forall (iov_valid h) (pub_src op) →
  ∃ st' res, publish st key op = Ret (st', res) ∧ wf st' ∧
    match res with
    | Err e => st' = st ∧ publish_fails st key op (err_kind e)
    | Ok _ => ∃ d n o v, OpPublish_validate op = Ok (d, n) ∧ st_objects st !! key = Some o ∧
        pub_src op !! 0%nat = Some v ∧ (Z.to_nat (pub_slot op) < length (obj_slots o))%nat ∧
        st' = mkState (<[key := append_replica o (Z.to_nat (pub_slot op))
                                  (published op d (region_id (iov_region v)))]> (st_objects st))
                      (st_pools st)
    end.
Proof. apply publish_spec. Qed.

Definition fx_pub : OpPublish := mkOpPublish 0 [iov fx_region 8 4].

Lemma publish_correct_witness :
  ∃ st', publish fx_st1 [7] fx_pub = Ret (st', Ok tt) ∧ wf st'.
Proof.
  destruct (publish_correct fx_heap fx_st1 [7] fx_pub fx_wf1) as (st' & res & Hp & Hwf & _).
  - apply (bool_decide_unpack _). by vm_compute.
  - exists st'. split; [|exact Hwf]. rewrite Hp. do 2 f_equal. revert Hp. vm_compute. congruence.
Defined.

(** Dropping a region removes exactly the replicas that were published from it,
    everywhere, and nothing else: specs, other replicas and their order, and the
    pools stay, and so does the invariant. *)
Theorem retire_region_exact st id :
  wf st →
  wf (retire_region st id) ∧ st_pools (retire_region st id) = st_pools st ∧
  ∀ k, match st_objects st !! k, st_objects (retire_region st id) !! k with
       | Some o, Some o' => obj_spec o' = obj_spec o ∧
           Forall2 (λ s s', s' `sublist_of` s ∧ ∀ r, r ∈ s' ↔ r ∈ s ∧ published_from id r = false)
                   (obj_slots o) (obj_slots o')
       | None, None => True
       | _, _ => False
       end.
Proof.
  intros Hwf. split; [by apply wf_retire_region|]. split; [done|]. intros k.
  rewrite lookup_retired. destruct (st_objects st !! k) as [o|]; simpl; [|done]. split; [done|].
  apply Forall2_fmap_r, Forall_Forall2_diag, Forall_forall. intros s _. split.
  - unfold retired_slot. clear. induction s as [|r s IH]; simpl; [constructor|].
    destruct (negb _); by constructor.
  - intros r. apply elem_of_retired.
Qed.

Definition fx_st4 : State :=
  match publish fx_st1 [7] fx_pub with Ret (st, _) => st | _ => fx_st1 end.

Lemma fx_wf4 : wf fx_st4.
Proof.
  destruct (publish_spec fx_heap fx_st1 [7] fx_pub fx_wf1) as (st' & res & Hp & Hwf & _).
  - apply (bool_decide_unpack _). by vm_compute.
  - unfold fx_st4. by rewrite Hp.
Qed.

Lemma retire_region_exact_witness :
  wf (retire_region fx_st4 1) ∧
  (obj_slots <$> st_objects (retire_region fx_st4 1) !! [7]) = (obj_slots <$> st_objects fx_st1 !! [7]).
Proof.
  destruct (retire_region_exact fx_st4 1 fx_wf4) as (Hwf & _ & _).
  split; [exact Hwf|]. by vm_compute.
Defined.

(** ** Removal *)

(** [remove] returns, deletes exactly the named keys and gives their owned bytes
    back to the pools: afterwards [used] is again the owned bytes of what is
    left, and capacities and FIFOs are as before. *)
Theorem remove_correct `{BuildProfile} st keys :
  wf st →
  ∃ st', remove st keys = Ret st' ∧ wf st' ∧
    (∀ k, st_objects st' !! k = if bool_decide (k ∈ keys) then None else st_objects st !! k) ∧
    same_pools (st_pools st) (st_pools st').
Proof.
  intros Hwf. destruct (remove_spec st keys Hwf) as (pools' & Hr & Hwf' & Hp).
  eexists. split; [exact Hr|]. split; [done|]. split; [|done]. intros k. simpl. unfold without.
  rewrite map_lookup_filter. destruct (st_objects st !! k) as [o|]; simpl; [|by case_bool_decide].
  case_bool_decide as Hk; [by rewrite option_guard_False by auto|by rewrite option_guard_True].
Qed.

Lemma remove_correct_witness :
  ∃ st', remove fx_st1 [[7]; [5]] = Ret st' ∧ wf st' ∧ used st' (Cpu 0) = 0 ∧ used st' (Cpu 1) = 0.
Proof.
  destruct (remove_correct fx_st1 [[7]; [5]] fx_wf1) as (st' & Hr & Hwf & _).
  exists st'. split; [exact Hr|]. split; [exact Hwf|].
  revert Hr. vm_compute. intros [= <-]. by split.
Defined.

(** C20: The range scan of [remove_prefix] (seek to the prefix, stop at the first key
    that does not start with it) is exact: it removes all keys with the prefix and
    no other, and returns their number. *)
Theorem remove_prefix_exact `{BuildProfile} stale st prefix :
  wf_at stale st →
  ∃ st', remove_prefix st prefix =
      Ret (st', Z.of_nat (size (filter (λ '(k, _), has_prefix prefix k) (st_objects st)))) ∧
    st_objects st' = filter (λ '(k, _), ¬ has_prefix prefix k) (st_objects st) ∧
    wf_at stale st' ∧ same_pools (st_pools st) (st_pools st').
Proof. apply remove_prefix_spec. Qed.

Lemma remove_prefix_exact_witness :
  ∃ st', remove_prefix fx_st1 [] = Ret (st', 1) ∧ st_objects st' = ∅ ∧ wf st'.
Proof.
  destruct (remove_prefix_exact false fx_st1 [] fx_wf1) as (st' & Hr & Ho & Hwf & _).
  exists st'. split; [rewrite Hr; by vm_compute|]. split; [|exact Hwf]. rewrite Ho. by vm_compute.
Defined.

(** ** Two behaviours outside the stated preconditions *)

(** [Each] with a repeated device passes the room check once per mention, each
    time against the same counter, and then charges it twice. *)
Example each_duplicate_overshoots :
  match put fx_inner fx_heap fx_st0 [1] (OpPut_new [fx_slot (Each [Cpu 0; Cpu 0]) 0 6]) with
  | Ret (st, Ok [Ok _]) => used st (Cpu 0) = 12 ∧ (st_pools st !! Cpu 0 ≫= pool_capacity) = Some 8
  | _ => False
  end.
Proof. by vm_compute. Qed.

(** A FIFO entry survives the removal of its object.  When the key is reused
    for an object with fewer slots, the next eviction indexes past its end. *)
Example stale_fifo_entry_panics :
  ('(st, _) ← put fx_inner fx_heap fx_st0 [1]
                (OpPut_new [fx_slot (Strict (Cpu 0)) 0 2; fx_slot (Strict (Cpu 0)) 2 2]);
   st ← remove st [[1]];
   '(st, _) ← put fx_inner fx_heap st [1] (OpPut_new [fx_slot (Strict (Cpu 1)) 0 2]);
   '(st, _) ← put fx_inner fx_heap st [2] (OpPut_new [fx_slot (Strict (Cpu 0)) 0 8]);
   put fx_inner fx_heap st [3] (OpPut_new [fx_slot (Strict (Cpu 0)) 0 8])) = Panicked.
Proof. by vm_compute. Qed.
