(* ===== verification/Spec.v ===== *)
(** * The contract of a store

    The operations of [docs/INTERFACE.md] with no pools, queues, counters or
    copies: an object has a spec and slots; a slot may hold bytes of its own and
    memory lent to it by [publish].  Devices, capacities and the choice of what
    to evict are left open, so the contract is a transition relation between
    abstract states, labelled with the calls and their answers.

    Answers are those of the backends, and differ from the document in one place:
    a publish into a slot index the object does not have is refused with
    [InvalidInput], where the document says [NotFound].  The backends differ from
    each other in one place, which the parameter [check_order] names: a get that
    asks for a range past the end of a slot without replicas is refused with
    [InvalidInput] by [Memory], which checks the range first, and with [Evicted]
    by [Local], which looks for a replica first.  Which refusal a get or a publish
    gets is otherwise determined. *)

From S2P Require Import Prelude HostMem Types Region MemoryCopy.

(** ** Abstract state *)

(** Published memory: a device, address ranges, and the region they belong to. *)
Record Lent : Type := mkLent {
  le_device : Device;
  le_segs : list (usize * u64);
  le_region : u64;
}.

Record ASlot : Type := mkASlot {
  as_bytes : option bytes;
  as_lent : list Lent;
}.

Record AObject : Type := mkAObject {
  ao_spec : ObjectSpec;
  ao_slots : list ASlot;
}.

Abbreviation AState := (gmap bytes AObject).

Definition vacant (s : ASlot) : Prop := as_bytes s = None ∧ as_lent s = [].

Definition new_object (spec : ObjectSpec) : AObject :=
  mkAObject spec (replicate (length (spec_slots spec)) (mkASlot None [])).

(** ** What the calls may do *)

(** Eviction takes a slot's own bytes, from [Cache] objects only; an object goes
    when nothing lent keeps it. *)
Definition slot_evicted (s s' : ASlot) : Prop := s' = s ∨ s' = mkASlot None (as_lent s).

Definition object_evicted (o o' : option AObject) : Prop :=
  match o, o' with
  | None, None => True
  | Some o, Some o' =>
      ao_spec o' = ao_spec o ∧ Forall2 slot_evicted (ao_slots o) (ao_slots o') ∧
      (spec_retention (ao_spec o) = Explicit → o' = o)
  | Some o, None => spec_retention (ao_spec o) = Cache ∧ Forall (λ s, as_lent s = []) (ao_slots o)
  | None, Some _ => False
  end.

(** One slot of a put: a vacant slot takes the bytes of its source or reports
    that there is no place for them; an occupied one is [AlreadyExists]. *)
Definition slot_put (h : heap) (ps : PutSlot) (s s' : ASlot) (r : Result unit) : Prop :=
  match r with
  | Ok _ => vacant s ∧ s' = mkASlot (Some (contents h (ps_src ps))) []
  | Err e =>
      s' = s ∧ (¬ vacant s ∧ err_kind e = AlreadyExists ∨
                vacant s ∧ (err_kind e = NoSpace ∨ err_kind e = InvalidInput))
  end.

Definition slots_put (h : heap) (slots : list PutSlot) (ss ss' : list ASlot) (rs : RpPut) : Prop :=
  length ss = length slots ∧ length ss' = length slots ∧ length rs = length slots ∧
  ∀ j ps s s' r, slots !! j = Some ps → ss !! j = Some s → ss' !! j = Some s' → rs !! j = Some r →
    slot_put h ps s s' r.

(** Bytes a get may read: the slot's own, or memory lent to it. *)
Definition slot_source (h : heap) (s : ASlot) (t : Tier) (b : bytes) : Prop :=
  (t = Dram ∧ as_bytes s = Some b) ∨
  (t = External ∧ ∃ l, l ∈ as_lent s ∧ b = segs_contents h (le_segs l)).

#[global] Instance vacant_dec s : Decision (vacant s).
Proof. unfold vacant. destruct (as_bytes s); [right; by intros []|]. destruct (as_lent s); [by left|right; by intros []]. Defined.

(** What a backend looks at first. *)
Inductive check_order : Type := RangeFirst | ReplicaFirst.

Definition refuse (order : check_order) (exceeds gone : bool) : option ErrorKind :=
  match order with
  | RangeFirst => if exceeds then Some InvalidInput else if gone then Some Evicted else None
  | ReplicaFirst => if gone then Some Evicted else if exceeds then Some InvalidInput else None
  end.

(** Why a get is refused, if it is. *)
Definition get_refusal (order : check_order) (a : AState) (key : bytes) (op : OpGet) : option ErrorKind :=
  match OpGet_validate op with
  | Err _ => Some InvalidInput
  | Ok (_, n) =>
      match a !! key with
      | None => Some NotFound
      | Some o =>
          match spec_slots (ao_spec o) !! Z.to_nat (get_slot op), ao_slots o !! Z.to_nat (get_slot op) with
          | Some spec, Some s =>
              refuse order (bool_decide (Z.min (spec_len spec) U64_MAX < get_src_offset op + n)) (bool_decide (vacant s))
          | _, _ => Some InvalidInput
          end
      end
  end.

(** A get writes its destination and nothing else. *)
Definition writes_only (h h' : heap) (dst : list Iov) : Prop :=
  (∀ i, is_Some (h' !! i) ↔ is_Some (h !! i)) ∧
  ∀ i, (∀ v, v ∈ dst → ¬ (iov_as_ptr v <= i < iov_as_ptr v + iov_len v)) → h' !! i = h !! i.

(** Why a publish is refused, if it is. *)
Definition publish_refusal (a : AState) (key : bytes) (op : OpPublish) : option ErrorKind :=
  match OpPublish_validate op with
  | Err _ => Some InvalidInput
  | Ok (_, n) =>
      match a !! key with
      | None => Some NotFound
      | Some o =>
          match spec_slots (ao_spec o) !! Z.to_nat (pub_slot op) with
          | None => Some InvalidInput
          | Some spec => if decide (spec_len spec ≠ n) then Some InvalidInput else None
          end
      end
  end.

Definition lend (op : OpPublish) (d : Device) (id : u64) (s : ASlot) : ASlot :=
  mkASlot (as_bytes s) (as_lent s ++ [mkLent d ((λ v, (iov_as_ptr v, iov_len v)) <$> pub_src op) id]).

Definition retire_slot (id : u64) (s : ASlot) : ASlot :=
  mkASlot (as_bytes s) (List.filter (λ l, negb (le_region l =? id)) (as_lent s)).

Definition info_of (o : AObject) (i : ObjectInfo) : Prop :=
  oi_retention i = spec_retention (ao_spec o) ∧
  Forall2 (λ s si, is_resident si = true ↔ ¬ vacant s) (ao_slots o) (oi_slots i) ∧
  si_len <$> oi_slots i = spec_len <$> spec_slots (ao_spec o).

(** ** The contract *)

Inductive event : Type :=
| EvPut (key : bytes) (op : OpPut) (r : Result RpPut)
| EvPublish (key : bytes) (op : OpPublish) (r : Result unit)
| EvGet (key : bytes) (op : OpGet) (r : Result RpGet)
| EvStat (keys : list bytes) (infos : list (option ObjectInfo))
| EvRemove (keys : list bytes)
| EvRemovePrefix (prefix : bytes) (n : u64)
| EvRetire (region : u64)
| EvMemory.

Inductive spec_step (order : check_order) : heap * AState → event → heap * AState → Prop :=
| sp_put h a key op rs a' o :
    OpPut_validate op = Ok tt → (∀ o, a !! key = Some o → ao_spec o = OpPut_spec op) →
    ao_spec o = OpPut_spec op → a' !! key = Some o →
    slots_put h (op_slots op) (ao_slots (default (new_object (OpPut_spec op)) (a !! key))) (ao_slots o) rs →
    (∀ k, k ≠ key → object_evicted (a !! k) (a' !! k)) →
    spec_step order (h, a) (EvPut key op (Ok rs)) (h, a')
| sp_put_error h a key op e :
    OpPut_validate op = Err e ∨
    OpPut_validate op = Ok tt ∧ err_kind e = SpecMismatch ∧ (∃ o, a !! key = Some o ∧ ao_spec o ≠ OpPut_spec op) →
    spec_step order (h, a) (EvPut key op (Err e)) (h, a)
| sp_publish h a key op d n o v :
    publish_refusal a key op = None → OpPublish_validate op = Ok (d, n) → a !! key = Some o → pub_src op !! 0%nat = Some v →
    (Z.to_nat (pub_slot op) < length (ao_slots o))%nat →
    spec_step order (h, a) (EvPublish key op (Ok tt))
      (h, <[key := mkAObject (ao_spec o)
             (alter (lend op d (region_id (iov_region v))) (Z.to_nat (pub_slot op)) (ao_slots o))]> a)
| sp_publish_error h a key op e :
    publish_refusal a key op = Some (err_kind e) → spec_step order (h, a) (EvPublish key op (Err e)) (h, a)
| sp_get h a key op rp d n o s b h' :
    get_refusal order a key op = None → OpGet_validate op = Ok (d, n) → a !! key = Some o → ao_slots o !! Z.to_nat (get_slot op) = Some s →
    slot_source h s (loc_tier (rp_from rp)) b → get_src_offset op + n <= Z.of_nat (length b) →
    writes_only h h' (get_dst op) →
    (non_overlapping (get_dst op) →
     contents h' (get_dst op) = take (Z.to_nat n) (drop (Z.to_nat (get_src_offset op)) b)) →
    spec_step order (h, a) (EvGet key op (Ok rp)) (h', a)
| sp_get_error h a key op e :
    get_refusal order a key op = Some (err_kind e) → spec_step order (h, a) (EvGet key op (Err e)) (h, a)
| sp_stat h a keys infos :
    Forall2 (λ k i, match a !! k, i with
                    | Some o, Some i => info_of o i | None, None => True | _, _ => False end) keys infos →
    spec_step order (h, a) (EvStat keys infos) (h, a)
| sp_remove h a keys :
    spec_step order (h, a) (EvRemove keys) (h, filter (λ '(k, _), k ∉ keys) a)
| sp_remove_prefix h a prefix :
    spec_step order (h, a) (EvRemovePrefix prefix (Z.of_nat (size (filter (λ '(k, _), prefix `prefix_of` k) a))))
      (h, filter (λ '(k, _), ¬ prefix `prefix_of` k) a)
| sp_retire h a id :
    spec_step order (h, a) (EvRetire id) (h, (λ o, mkAObject (ao_spec o) (retire_slot id <$> ao_slots o)) <$> a)
| sp_memory h a h' : spec_step order (h, a) EvMemory (h', a).

(** ** Runs *)

Section Runs.
Context {S : Type} (step : S → event → S → Prop).

Inductive runs : S → list event → S → Prop :=
| runs_nil s : runs s [] s
| runs_cons s e s' tr s'' : step s e s' → runs s' tr s'' → runs s (e :: tr) s''.

Lemma runs_app s tr s' tr' s'' : runs s tr s' → runs s' tr' s'' → runs s (tr ++ tr') s''.
Proof. induction 1; [done|]. intros. econstructor; eauto. Qed.
End Runs.

(** A relation that every concrete step keeps carries runs to runs. *)
Lemma simulation {C A : Type} (cstep : C → event → C → Prop) (astep : A → event → A → Prop) (R : C → A → Prop) :
  (∀ c a e c', R c a → cstep c e c' → ∃ a', astep a e a' ∧ R c' a') →
  ∀ c a tr c', R c a → runs cstep c tr c' → ∃ a', runs astep a tr a' ∧ R c' a'.
Proof.
  intros Hsim c a tr c' HR Hrun. revert a HR. induction Hrun as [c|c e c1 tr c2 Hstep _ IH]; intros a HR.
  { exists a. split; [constructor|done]. }
  destruct (Hsim _ _ _ _ HR Hstep) as (a1 & Ha & HR1). destruct (IH a1 HR1) as (a2 & Hr & HR2).
  exists a2. split; [by econstructor|done].
Qed.

(** ** What the contract implies *)

Lemma get_refusal_at order a key op d n o spec s :
  OpGet_validate op = Ok (d, n) → a !! key = Some o → spec_slots (ao_spec o) !! Z.to_nat (get_slot op) = Some spec →
  ao_slots o !! Z.to_nat (get_slot op) = Some s →
  get_refusal order a key op = refuse order (bool_decide (Z.min (spec_len spec) U64_MAX < get_src_offset op + n)) (bool_decide (vacant s)).
Proof. intros Hv Ho Hsp Hs. unfold get_refusal. by rewrite Hv, Ho, Hsp, Hs. Qed.

Lemma get_accepted order a key op d n o spec s :
  OpGet_validate op = Ok (d, n) → a !! key = Some o → spec_slots (ao_spec o) !! Z.to_nat (get_slot op) = Some spec →
  ao_slots o !! Z.to_nat (get_slot op) = Some s → get_src_offset op + n <= Z.min (spec_len spec) U64_MAX → ¬ vacant s →
  get_refusal order a key op = None.
Proof.
  intros Hv Ho Hsp Hs Hr Hn. rewrite (get_refusal_at _ _ _ _ _ _ _ _ _ Hv Ho Hsp Hs), !bool_decide_eq_false_2 by (done || lia). by destruct order.
Qed.

(** The call does not take [key] away. *)
Definition keeps (key : bytes) (e : event) : Prop :=
  match e with
  | EvRemove keys => key ∉ keys
  | EvRemovePrefix prefix _ => ¬ prefix `prefix_of` key
  | _ => True
  end.

(** Slot [j] of the [Explicit] object [key] holds [b]. *)
Definition holds (a : AState) (key : bytes) (spec : ObjectSpec) (j : nat) (b : bytes) : Prop :=
  ∃ o s, a !! key = Some o ∧ ao_spec o = spec ∧ ao_slots o !! j = Some s ∧ as_bytes s = Some b.

Lemma slots_put_keeps h slots ss ss' rs j s b :
  slots_put h slots ss ss' rs → ss !! j = Some s → as_bytes s = Some b →
  ∃ s', ss' !! j = Some s' ∧ as_bytes s' = Some b.
Proof.
  intros (H1 & H2 & H3 & Hs) Hj Hb. pose proof (lookup_lt_Some _ _ _ Hj) as Hlt.
  destruct (lookup_lt_is_Some_2 slots j) as [ps Hps]; [lia|].
  destruct (lookup_lt_is_Some_2 ss' j) as [s' Hs']; [lia|]. destruct (lookup_lt_is_Some_2 rs j) as [r Hr]; [lia|].
  exists s'. split; [done|]. specialize (Hs _ _ _ _ _ Hps Hj Hs' Hr).
  destruct r as [[]|e]; simpl in Hs; [destruct Hs as [[Hn _] _]; congruence|]. by destruct Hs as [-> _].
Qed.

(** [Explicit] objects keep their bytes until they are removed. *)
Lemma spec_step_holds order w e w' key spec j b :
  spec_retention spec = Explicit → spec_step order w e w' → keeps key e →
  holds w.2 key spec j b → holds w'.2 key spec j b.
Proof.
  intros Hexp Hstep Hk (o & s & Ho & Hsp & Hj & Hb).
  destruct Hstep as [h a key' op rs a' o' Hv Hspec Hso Ha' Hput Hev| |h a key' op d n o' v _ Hv Ho' Hp Hlt| | | | |
                     h a keys|h a prefix|h a id|]; simpl in *; try by exists o, s.
  - destruct (decide (key = key')) as [->|Hne].
    + rewrite Ho in Hput. simpl in Hput. destruct (slots_put_keeps _ _ _ _ _ _ _ _ Hput Hj Hb) as (s' & Hs' & Hb').
      exists o', s'. specialize (Hspec _ Ho). split_and!; congruence.
    + specialize (Hev key Hne). rewrite Ho in Hev. destruct (a' !! key) as [o1|] eqn:Ho1; simpl in Hev.
      * destruct Hev as (_ & _ & Heq). rewrite Heq in Ho1 by congruence. by exists o, s.
      * destruct Hev as [Hc _]. congruence.
  - destruct (decide (key = key')) as [->|Hne].
    + rewrite Ho in Ho'. injection Ho' as <-. unfold holds. rewrite lookup_insert_eq. eexists. simpl.
      destruct (decide (Z.to_nat (pub_slot op) = j)) as [<-|Hnj].
      * eexists. split; [done|]. split; [done|]. simpl. rewrite list_lookup_alter_eq, Hj. by split.
      * exists s. split; [done|]. split; [done|]. simpl. by rewrite list_lookup_alter_ne by done.
    + exists o, s. by rewrite lookup_insert_ne by done.
  - exists o, s. split_and!; try done. by apply map_lookup_filter_Some.
  - exists o, s. split_and!; try done. by apply map_lookup_filter_Some.
  - unfold holds. rewrite lookup_fmap, Ho. eexists _, _. split; [done|]. split; [done|]. simpl.
    rewrite list_lookup_fmap, Hj. by split.
Qed.

Lemma spec_runs_holds order w tr w' key spec j b :
  spec_retention spec = Explicit → runs (spec_step order) w tr w' → Forall (keeps key) tr →
  holds w.2 key spec j b → holds w'.2 key spec j b.
Proof.
  intros Hexp. induction 1 as [|w e w1 tr w2 Hstep _ IH]; [done|]. intros [Hk Hks]%Forall_cons Hh.
  apply IH; [done|]. by eapply spec_step_holds.
Qed.

(** No memory is lent to slot [j] of [key]. *)
Definition unlent (a : AState) (key : bytes) (j : nat) : Prop :=
  ∀ o s, a !! key = Some o → ao_slots o !! j = Some s → as_lent s = [].

Definition no_publish (key : bytes) (e : event) : Prop :=
  match e with EvPublish k _ _ => k ≠ key | _ => True end.

Lemma slots_put_unlent h slots ss ss' rs j :
  slots_put h slots ss ss' rs → (∀ s, ss !! j = Some s → as_lent s = []) →
  ∀ s', ss' !! j = Some s' → as_lent s' = [].
Proof.
  intros (H1 & H2 & H3 & Hs) Hl s' Hs'. pose proof (lookup_lt_Some _ _ _ Hs') as Hlt.
  destruct (lookup_lt_is_Some_2 slots j) as [ps Hps]; [lia|].
  destruct (lookup_lt_is_Some_2 ss j) as [s Hj]; [lia|]. destruct (lookup_lt_is_Some_2 rs j) as [r Hr]; [lia|].
  specialize (Hs _ _ _ _ _ Hps Hj Hs' Hr). destruct r as [[]|e]; simpl in Hs; destruct Hs as [? Hs]; [by subst|].
  subst. by apply Hl.
Qed.

Lemma spec_step_unlent order w e w' key j :
  spec_step order w e w' → no_publish key e → unlent w.2 key j → unlent w'.2 key j.
Proof.
  intros Hstep Hn Hu.
  destruct Hstep as [h a key' op rs a' o' Hv Hspec Hso Ha' Hput Hev| |h a key' op d n o' v _ Hv Ho' Hp Hlt| | | | |
                     h a keys|h a prefix|h a id|]; simpl in *; try done; intros o s Ho Hs.
  - destruct (decide (key = key')) as [->|Hne].
    + rewrite Ha' in Ho. injection Ho as <-. eapply slots_put_unlent; [exact Hput| |exact Hs]. intros s0 Hs0.
      destruct (a !! key') as [o0|] eqn:Ho0; [by eapply Hu|]. simpl in Hs0.
      by apply lookup_replicate in Hs0 as [-> _].
    + specialize (Hev key Hne). rewrite Ho in Hev. destruct (a !! key) as [o0|] eqn:Ho0; [|done].
      destruct Hev as (_ & Hsl & _). destruct (Forall2_lookup_r _ _ _ _ _ Hsl Hs) as (s0 & Hs0 & [->| ->]); exact (Hu _ _ Ho0 Hs0).
  - rewrite lookup_insert_ne in Ho by done. by eapply Hu.
  - apply map_lookup_filter_Some in Ho as [Ho _]. by eapply Hu.
  - apply map_lookup_filter_Some in Ho as [Ho _]. by eapply Hu.
  - rewrite lookup_fmap in Ho. apply fmap_Some in Ho as (o0 & Ho0 & ->). simpl in Hs. rewrite list_lookup_fmap in Hs.
    apply fmap_Some in Hs as (s0 & Hs0 & ->). unfold retire_slot. simpl. by rewrite (Hu _ _ Ho0 Hs0).
Qed.

Lemma spec_runs_unlent order w tr w' key j :
  runs (spec_step order) w tr w' → Forall (no_publish key) tr → unlent w.2 key j → unlent w'.2 key j.
Proof.
  induction 1 as [|w e w1 tr w2 Hstep _ IH]; [done|]. intros [Hk Hks]%Forall_cons Hh.
  apply IH; [done|]. by eapply spec_step_unlent.
Qed.

(** A slot a put has just filled. *)
Lemma spec_put_holds order h a key op rs h' a' j ps :
  spec_step order (h, a) (EvPut key op (Ok rs)) (h', a') → rs !! j = Some (Ok tt) → op_slots op !! j = Some ps →
  holds a' key (OpPut_spec op) j (contents h (ps_src ps)) ∧ unlent a' key j.
Proof.
  intros Hstep Hrj Hps.
  inversion Hstep as [? ? ? ? ? ? o Hval Hspec Hso Hobj (Hlb & Hl & _ & Hslots) _| | | | | | | | | |]; subst.
  destruct (lookup_lt_is_Some_2 (ao_slots o) j) as [s' Hs']; [rewrite Hl; by eapply lookup_lt_Some|].
  destruct (lookup_lt_is_Some_2 (ao_slots (default (new_object (OpPut_spec op)) (a !! key))) j) as [s Hs];
    [rewrite Hlb; by eapply lookup_lt_Some|].
  destruct (Hslots _ _ _ _ _ Hps Hs Hs' Hrj) as [_ ->]. split; [by eexists o, _|].
  intros o1 s1 Ho1 Hs1. by simplify_eq.
Qed.

(** A get of a slot that is not vacant and whose sources all have the bytes [b]. *)
Lemma spec_get_reads order h a key o s sl j b g r h' a' d n :
  a !! key = Some o → ao_slots o !! j = Some s → spec_slots (ao_spec o) !! j = Some sl → ¬ vacant s →
  (∀ t b', slot_source h s t b' → b' = b) → spec_step order (h, a) (EvGet key g r) (h', a') → get_slot g = Z.of_nat j →
  OpGet_validate g = Ok (d, n) → get_src_offset g + n <= Z.min (spec_len sl) U64_MAX →
  ∃ rp, r = Ok rp ∧ a' = a ∧ writes_only h h' (get_dst g) ∧ (non_overlapping (get_dst g) →
    contents h' (get_dst g) = take (Z.to_nat n) (drop (Z.to_nat (get_src_offset g)) b)).
Proof.
  intros Ho Hs Hsl Hva Hsrc Hstep Hj Hv Hrange.
  inversion Hstep as [| | | |? ? ? ? rp d' n' o' s' b' ? _ Hv' Ho' Hs' Hb' _ Hw Hc|? ? ? ? e Herr| | | | |]; subst.
  - rewrite Hj, Nat2Z.id in Hs'. rewrite Hv in Hv'. injection Hv' as <- <-. simplify_eq. exists rp. split_and!; try done.
    by rewrite <- (Hsrc _ _ Hb').
  - exfalso. erewrite (get_accepted order) in Herr; [done|..]; rewrite ?Hj, ?Nat2Z.id; done.
Qed.

(** A get of a slot that holds [b], with nothing lent to it, delivers [b]. *)
Lemma spec_get_holds order h a key spec sl j b g r h' d n :
  holds a key spec j b → unlent a key j → spec_step order (h, a) (EvGet key g r) (h', a) →
  get_slot g = Z.of_nat j → OpGet_validate g = Ok (d, n) → spec_slots spec !! j = Some sl →
  get_src_offset g + n <= Z.min (spec_len sl) U64_MAX →
  ∃ rp, r = Ok rp ∧ (non_overlapping (get_dst g) →
    contents h' (get_dst g) = take (Z.to_nat n) (drop (Z.to_nat (get_src_offset g)) b)).
Proof.
  intros (o & s & Ho & <- & Hs & Hb) Hu Hstep Hj Hv Hsl Hrange.
  destruct (spec_get_reads order h a key o s sl j b g r h' a d n Ho Hs Hsl) as (rp & -> & _ & _ & Hc); try done; [intros [Hn _]; congruence| |eauto].
  intros t b' [[_ Hb']|[_ (l & Hl & _)]]; [congruence|]. rewrite (Hu _ _ Ho Hs) in Hl. by apply elem_of_nil in Hl.
Qed.
