(* ===== verification/MemorySpec.v ===== *)
(** * [Memory] implements the contract of a store

    [abs] forgets pools, queues, devices of owned replicas and their number;
    every call of the backend is a step of [Spec.spec_step] on the abstract
    state, so every history of calls and answers is one the contract allows. *)

From S2P Require Import Prelude HostMem Types Region Memory MemoryEvict MemoryInv MemoryCopy MemoryPut MemoryPutOps MemoryOps MemoryProps Spec.

(** ** Abstraction *)

Definition owned_bytes (r : ReplicaEntry) : option bytes :=
  match re_data r with Owned b => Some b | ExternalSegs _ _ => None end.

Definition lent_of (r : ReplicaEntry) : option Lent :=
  match re_data r with Owned _ => None | ExternalSegs segs id => Some (mkLent (re_device r) segs id) end.

Definition abs_slot (s : Slot) : ASlot := mkASlot (head (omap owned_bytes s)) (omap lent_of s).
Definition abs_object (o : Object) : AObject := mkAObject (obj_spec o) (abs_slot <$> obj_slots o).
Definition abs (st : State) : AState := abs_object <$> st_objects st.

(** The owned replicas of a slot hold the same bytes. *)
Definition coherent_slot (s : Slot) : Prop :=
  ∀ r r' b b', r ∈ s → r' ∈ s → owned_bytes r = Some b → owned_bytes r' = Some b' → b = b'.

Definition coherent (st : State) : Prop :=
  map_Forall (λ _ o, Forall coherent_slot (obj_slots o)) (st_objects st).

Lemma abs_lookup st k : abs st !! k = abs_object <$> st_objects st !! k.
Proof. apply lookup_fmap. Qed.

Lemma abs_slot_cons r s :
  abs_slot (r :: s) = match re_data r with
    | Owned b => mkASlot (Some b) (as_lent (abs_slot s))
    | ExternalSegs segs id => mkASlot (as_bytes (abs_slot s)) (mkLent (re_device r) segs id :: as_lent (abs_slot s))
    end.
Proof. unfold abs_slot, owned_bytes, lent_of. simpl. by destruct (re_data r). Qed.

Lemma abs_slot_vacant s : vacant (abs_slot s) ↔ s = [].
Proof.
  split; [|by intros ->]. destruct s as [|r s]; [done|]. rewrite abs_slot_cons. unfold vacant.
  by destruct (re_data r); intros [??].
Qed.

Lemma abs_slot_app s t : as_lent (abs_slot (s ++ t)) = as_lent (abs_slot s) ++ as_lent (abs_slot t).
Proof. unfold abs_slot. simpl. by rewrite omap_app. Qed.

Lemma abs_bytes_elem s b : as_bytes (abs_slot s) = Some b → ∃ r, r ∈ s ∧ owned_bytes r = Some b.
Proof.
  unfold abs_slot. simpl. intros Hh. destruct (omap owned_bytes s) as [|x l] eqn:Ho; [done|]. injection Hh as ->.
  apply list_elem_of_omap. rewrite Ho. left.
Qed.

Lemma abs_bytes_owned s r b :
  coherent_slot s → r ∈ s → owned_bytes r = Some b → as_bytes (abs_slot s) = Some b.
Proof.
  intros Hc Hr Hb. destruct (as_bytes (abs_slot s)) as [b'|] eqn:Hh.
  - apply abs_bytes_elem in Hh as (r' & Hr' & Hb'). f_equal. by apply (Hc r' r).
  - unfold abs_slot in Hh. simpl in Hh. assert (b ∈ omap owned_bytes s) as Hin by (apply list_elem_of_omap; eauto).
    destruct (omap owned_bytes s); [by apply elem_of_nil in Hin|done].
Qed.

Lemma lent_externals s : omap lent_of s = omap lent_of (externals s).
Proof.
  induction s as [|r s IH]; [done|]. unfold externals. cbn [List.filter]. fold (externals s).
  destruct (is_owned r) eqn:Hr; cbn [negb]; csimpl; rewrite IH; [|done].
  unfold is_owned in Hr. unfold lent_of at 1. by destruct (re_data r).
Qed.

(** Eviction in the backend is eviction in the contract. *)
Lemma abs_slot_shrink s s' : coherent_slot s → slot_shrink s s' → slot_evicted (abs_slot s) (abs_slot s').
Proof.
  intros Hc [Hsub Hext]. assert (as_lent (abs_slot s') = as_lent (abs_slot s)) as Hl.
  { unfold abs_slot. simpl. by rewrite lent_externals, Hext, <- lent_externals. }
  destruct (as_bytes (abs_slot s')) as [b|] eqn:Hb.
  - left. apply abs_bytes_elem in Hb as Hr. destruct Hr as (r & Hr & Ho).
    apply (fun H => elem_of_sublist _ _ _ H Hsub) in Hr. pose proof (abs_bytes_owned s r b Hc Hr Ho) as Hs.
    destruct (abs_slot s), (abs_slot s'). simpl in *. congruence.
  - right. destruct (abs_slot s'). simpl in *. congruence.
Qed.

Lemma coherent_sublist s s' : s' `sublist_of` s → coherent_slot s → coherent_slot s'.
Proof. intros Hs Hc r r' b b' Hr Hr'. apply Hc; by eapply elem_of_sublist. Qed.

Lemma abs_object_shrinks p k o o' :
  k ≠ p → (∀ x, o = Some x → Forall coherent_slot (obj_slots x)) → shrinks_at p k o o' →
  object_evicted (abs_object <$> o) (abs_object <$> o') ∧ ∀ x, o' = Some x → Forall coherent_slot (obj_slots x).
Proof.
  intros Hk Hc Hs. destruct o as [o|], o' as [o'|]; simpl in *; try done.
  - specialize (Hc _ eq_refl). destruct Hs as [[Hsp Hsl] He]. split.
    + split; [done|]. split; [|intros Hx; by rewrite He by auto].
      apply Forall2_fmap. revert Hc. clear -Hsl. induction Hsl as [|s s' l l' Hs _ IH]; [by constructor|].
      intros [Hc Hcs]%Forall_cons. constructor; [by apply abs_slot_shrink|auto].
    + intros ? [= <-]. apply Forall_forall. intros s' Hs'. apply list_elem_of_lookup in Hs' as [i Hi].
      destruct (Forall2_lookup_r _ _ _ _ _ Hsl Hi) as (s & Hsi & [Hsub _]). eapply coherent_sublist; [done|].
      by eapply (Forall_lookup_1 _ _ _ _ Hc).
  - destruct Hs as (_ & Hca & Hall). split; [|done]. split; [done|]. apply Forall_fmap.
    eapply Forall_impl; [exact Hall|]. intros s Hs%externals_nil. simpl. by rewrite lent_externals, Hs.
Qed.

(** ** Calls *)

Section Simulation.
Context `{BuildProfile} (inner : Inner).

(** The calls of the backend that return, with their answers.  The guards are the
    safety contract of registered memory (iovs over mapped memory, lent memory
    mapped while it may be read) and the bounds of the counters. *)
Inductive mem_step : heap * State → event → heap * State → Prop :=
| ms_put h st key op st' r :
    Forall (λ ps, Forall (iov_valid h) (ps_src ps)) (op_slots op) →
    Z.of_nat (length (op_slots op)) <= 2 ^ 32 → headroom (st_pools st) (zsum (slot_demand <$> op_slots op)) →
    put inner h st key op = Ret (st', r) → mem_step (h, st) (EvPut key op r) (h, st')
| ms_publish h st key op st' r :
    Forall (iov_valid h) (pub_src op) →
    publish st key op = Ret (st', r) → mem_step (h, st) (EvPublish key op r) (h, st')
| ms_get h st key op h' r :
    Forall (iov_valid h) (get_dst op) → 0 <= get_src_offset op →
    replicas_live h st key (Z.to_nat (get_slot op)) →
    get inner h st key op = Ret (h', r) → mem_step (h, st) (EvGet key op r) (h', st)
| ms_stat h st keys : mem_step (h, st) (EvStat keys (stat inner st keys)) (h, st)
| ms_remove h st keys st' : remove st keys = Ret st' → mem_step (h, st) (EvRemove keys) (h, st')
| ms_remove_prefix h st prefix st' n :
    remove_prefix st prefix = Ret (st', n) → mem_step (h, st) (EvRemovePrefix prefix n) (h, st')
| ms_retire h st id : mem_step (h, st) (EvRetire id) (h, retire_region st id)
| ms_memory h st h' : mem_step (h, st) EvMemory (h', st).

Lemma abs_empty_object spec : abs_object (empty_object spec) = new_object spec.
Proof. unfold abs_object, empty_object, new_object. simpl. f_equal. by rewrite fmap_replicate. Qed.

Lemma abs_base key st op :
  default (new_object (OpPut_spec op)) (abs st !! key) = abs_object (base_object key st op).
Proof.
  rewrite abs_lookup. unfold base_object. destruct (st_objects st !! key); simpl; [done|]. symmetry. apply abs_empty_object.
Qed.

Lemma new_replicas_abs b ts : ts ≠ [] → abs_slot (new_replicas b ts) = mkASlot (Some b) [].
Proof.
  intros Hne. unfold new_replicas. destruct ts as [|[d m] ts]; [done|]. csimpl. rewrite abs_slot_cons. simpl. f_equal.
  clear. induction ts as [|[d m] ts IH]; [done|]. csimpl. exact IH.
Qed.

Lemma new_replicas_coherent b ts : coherent_slot (new_replicas b ts).
Proof.
  intros r r' b1 b2 (? & ? & _ & ->)%elem_of_new_replicas (? & ? & _ & ->)%elem_of_new_replicas. unfold owned_bytes. simpl. congruence.
Qed.

(** The outcome of a slot, abstractly. *)
Lemma slot_done_abs h s s' ps r :
  slot_done inner h s s' ps r → coherent_slot s →
  slot_put h ps (abs_slot s) (abs_slot s') r ∧ coherent_slot s'.
Proof.
  intros Hd Hc. destruct r as [[]|e]; simpl in *.
  - destruct Hd as (-> & ts & Hp & ->). split; [|apply new_replicas_coherent]. split; [by split|].
    apply new_replicas_abs. by eapply placed_by_nonempty.
  - destruct Hd as (-> & Hk). split; [|done]. split; [done|]. rewrite abs_slot_vacant. exact Hk.
Qed.

Lemma base_coherent key st op : coherent st → Forall coherent_slot (obj_slots (base_object key st op)).
Proof.
  intros Hco. unfold base_object. destruct (st_objects st !! key) as [o|] eqn:Ho; simpl; [by apply (Hco _ _ Ho)|].
  apply Forall_replicate. intros r r' b b' Hr. by apply elem_of_nil in Hr.
Qed.

(** A put that went through, slot by slot. *)
Lemma put_done_abs h key st op st' o' rs :
  put_pre_at (stale := true) h key st op → coherent st → (∀ o, st_objects st !! key = Some o → obj_spec o = OpPut_spec op) →
  put_done (stale := true) inner h key 0 (op_slots op) st (base_object key st op) st' o' rs →
  obj_spec o' = OpPut_spec op ∧
  slots_put h (op_slots op) (abs_slot <$> obj_slots (base_object key st op)) (abs_slot <$> obj_slots o') rs ∧
  Forall coherent_slot (obj_slots o').
Proof.
  intros Hpre Hco Hsp Hd. pose proof (base_coherent key st op Hco) as Hcb.
  assert (obj_spec (base_object key st op) = OpPut_spec op) as Hsb.
  { unfold base_object. destruct (st_objects st !! key) as [o|] eqn:Ho; [by apply Hsp|done]. }
  assert (length (obj_slots (base_object key st op)) = length (op_slots op)) as Hlb.
  { unfold base_object. destruct (st_objects st !! key) as [o|] eqn:Ho; simpl.
    - rewrite <- (Forall2_length _ _ _ (wf_obj _ (pp_wf _ _ _ _ Hpre) _ _ Ho)), (Hsp _ eq_refl). simpl. by rewrite length_fmap.
    - by rewrite length_replicate, length_fmap. }
  destruct Hd as [Hwf' _ _ Ho' Hso _ Hlr Hps _]. rewrite Hsb in Hso.
  assert (length (obj_slots o') = length (op_slots op)) as Hlo.
  { rewrite <- (Forall2_length _ _ _ (wf_obj _ Hwf' _ _ Ho')), Hso. simpl. by rewrite length_fmap. }
  assert (∀ j ps s s' r, op_slots op !! j = Some ps → obj_slots (base_object key st op) !! j = Some s →
    obj_slots o' !! j = Some s' → rs !! j = Some r → slot_put h ps (abs_slot s) (abs_slot s') r ∧ coherent_slot s') as Hslots.
  { intros j ps s s' r H1 H2 H3 H4. destruct (Hps _ _ _ H1 H4) as (s0 & s1 & H2' & H3' & Hdone). simpl in *. simplify_eq.
    apply slot_done_abs; [done|]. by eapply (Forall_lookup_1 _ _ _ _ Hcb). }
  split; [done|]. split.
  - split_and!; rewrite ?length_fmap; try done. intros j ps s s' r H1 H2 H3 H4. rewrite list_lookup_fmap in H2, H3.
    apply fmap_Some in H2 as (x & Hx & ->). apply fmap_Some in H3 as (x' & Hx' & ->). by eapply Hslots.
  - apply Forall_forall. intros s' [j Hj]%list_elem_of_lookup. pose proof (lookup_lt_Some _ _ _ Hj) as Hlt.
    destruct (lookup_lt_is_Some_2 (op_slots op) j) as [ps Hpsj]; [lia|].
    destruct (lookup_lt_is_Some_2 (obj_slots (base_object key st op)) j) as [s Hs]; [lia|].
    destruct (lookup_lt_is_Some_2 rs j) as [r Hr]; [lia|]. by eapply Hslots.
Qed.

Lemma sim_put h st key op st' r :
  put_pre_at (stale := true) h key st op → coherent st → put inner h st key op = Ret (st', r) →
  spec_step RangeFirst (h, abs st) (EvPut key op r) (h, abs st') ∧ wf_at true st' ∧ coherent st'.
Proof.
  intros Hpre Hco Hput. pose proof (put_returned inner h key st op st' r Hpre Hput) as Hres. destruct r as [rs|e].
  2:{ destruct Hres as [-> He]. split; [|split; [by destruct Hpre|done]]. apply sp_put_error.
      destruct He as [He|(Hv & Hk & o & Ho & Hn)]; [by left|right]. split; [done|]. split; [done|]. exists (abs_object o).
      by rewrite abs_lookup, Ho. }
  destruct Hres as (Hsp & o' & Hd). destruct (put_done_abs _ _ _ _ _ _ _ Hpre Hco Hsp Hd) as (Hso & Hslots & Hco').
  destruct Hd as [Hwf' Hoth _ Ho' _ _ _ _ _].
  assert (∀ k, k ≠ key → object_evicted (abs st !! k) (abs st' !! k) ∧
    ∀ x, st_objects st' !! k = Some x → Forall coherent_slot (obj_slots x)) as Hothers.
  { intros k Hk. rewrite !abs_lookup. apply (abs_object_shrinks key k); [done| |by apply others_lookup].
    intros o Ho. by apply (Hco _ _ Ho). }
  split; [|split; [done|]].
  - apply (sp_put _ _ _ _ _ _ _ (abs_object o')); try done.
    + unfold put in Hput. destruct (OpPut_validate op) as [[]|]; [done|]. by simplify_eq.
    + intros o Ho. rewrite abs_lookup in Ho. apply fmap_Some in Ho as (x & Hx & ->). by apply Hsp.
    + by rewrite abs_lookup, Ho'.
    + by rewrite abs_base.
    + intros k Hk. by apply Hothers.
  - intros k o Ho. destruct (decide (k = key)) as [->|Hk]; [congruence|]. by apply (Hothers k Hk).
Qed.

Lemma abs_published op d id s :
  abs_slot (s ++ [published op d id]) = lend op d id (abs_slot s).
Proof.
  unfold lend. rewrite <- (app_nil_r (as_lent _ ++ _)). unfold abs_slot. simpl. rewrite !omap_app. csimpl. f_equal; [|by rewrite app_nil_r].
  destruct (omap owned_bytes s); done.
Qed.

Lemma coherent_published op d id s : coherent_slot s → coherent_slot (s ++ [published op d id]).
Proof.
  intros Hc r r' b b' Hr Hr' Hb Hb'. apply elem_of_app in Hr as [Hr|Hr%list_elem_of_singleton]; [|by subst].
  apply elem_of_app in Hr' as [Hr'|Hr'%list_elem_of_singleton]; [|by subst]. by apply (Hc r r').
Qed.

Lemma publish_fails_abs st key op k : publish_fails st key op k → publish_refusal (abs st) key op = Some k.
Proof.
  unfold publish_refusal. rewrite abs_lookup.
  intros [e He|d n Hv Ho|d n o Hv Ho Hn|d n o sp Hv Ho Hn Hl]; rewrite ?He, ?Hv, ?Ho; simpl; rewrite ?Hn; try done. by rewrite decide_True.
Qed.

(** A publish that was accepted: nothing refuses it. *)
Lemma publish_accepted st key op st' : publish st key op = Ret (st', Ok tt) → publish_refusal (abs st) key op = None.
Proof.
  unfold publish, publish_refusal. rewrite abs_lookup. destruct (OpPublish_validate op) as [[d n]|]; [|by intros ?; simplify_eq].
  destruct (st_objects st !! key) as [o|]; [|by intros ?; simplify_eq]. simpl.
  destruct (spec_slots (obj_spec o) !! _) as [sp|]; [|by intros ?; simplify_eq]. case_decide; [by intros ?; simplify_eq|done].
Qed.

Lemma sim_publish h st key op st' r :
  wf_at true st → coherent st → Forall (iov_valid h) (pub_src op) → publish st key op = Ret (st', r) →
  spec_step RangeFirst (h, abs st) (EvPublish key op r) (h, abs st') ∧ wf_at true st' ∧ coherent st'.
Proof.
  intros Hwf Hco Hv Hp. destruct (publish_spec h st key op Hwf Hv) as (st1 & r1 & Hp' & Hwf' & Hres).
  rewrite Hp in Hp'. injection Hp' as <- <-. destruct r as [[]|e].
  2:{ destruct Hres as [-> He]. split; [|done]. apply sp_publish_error. by apply publish_fails_abs. }
  destruct Hres as (d & n & o & v & Hval & Ho & Hsrc & Hlt & ->). split; [|split; [done|]].
  - assert (abs (mkState (<[key := append_replica o (Z.to_nat (pub_slot op)) (published op d (region_id (iov_region v)))]>
                (st_objects st)) (st_pools st)) =
            <[key := mkAObject (ao_spec (abs_object o)) (alter (lend op d (region_id (iov_region v)))
                (Z.to_nat (pub_slot op)) (ao_slots (abs_object o)))]> (abs st)) as ->.
    { unfold abs. simpl. rewrite fmap_insert. f_equal. unfold abs_object, append_replica. simpl. f_equal.
      apply list_fmap_alter. apply Forall_forall. intros s _. apply abs_published. }
    apply (sp_publish _ _ _ _ _ d n (abs_object o) v); try done; [by eapply publish_accepted|by rewrite abs_lookup, Ho|]. simpl. by rewrite length_fmap.
  - unfold coherent. simpl. intros k x [[<- <-]|[_ Hx]]%lookup_insert_Some; [|by apply (Hco _ _ Hx)]. specialize (Hco _ _ Ho). simpl in Hco.
    simpl. apply Forall_alter; [done|]. intros s _ Hs. by apply coherent_published.
Qed.

Lemma get_fails_abs st key op k : wf_at true st → get_fails st key op k → get_refusal RangeFirst (abs st) key op = Some k.
Proof.
  intros Hwf [e He|d n Hv Ho|d n o Hv Ho Hn|d n o sp Hv Ho Hn Hr|d n o sp Hv Ho Hn Hr He].
  1-3: unfold get_refusal; rewrite ?He, ?Hv, ?abs_lookup, ?Ho; simpl; by rewrite ?Hn.
  - destruct (Forall2_lookup_l _ _ _ _ _ (wf_obj _ Hwf _ _ Ho) Hn) as (s & Hs & _).
    rewrite (get_refusal_at _ _ _ _ d n (abs_object o) sp (abs_slot s)); [|done|by rewrite abs_lookup, Ho|done|simpl; by rewrite list_lookup_fmap, Hs].
    by rewrite bool_decide_eq_true_2 by lia.
  - rewrite (get_refusal_at _ _ _ _ d n (abs_object o) sp (abs_slot [])); [|done|by rewrite abs_lookup, Ho|done|simpl; by rewrite list_lookup_fmap, He].
    by rewrite bool_decide_eq_false_2, bool_decide_eq_true_2 by (by split || lia).
Qed.

(** A get that was answered: nothing refuses it. *)
Lemma get_answered h st key op h' rp :
  wf_at true st → get inner h st key op = Ret (h', Ok rp) → get_refusal RangeFirst (abs st) key op = None.
Proof.
  unfold get. intros Hwf Hg. destruct (OpGet_validate op) as [[d n]|] eqn:Hv; [|by simplify_eq].
  destruct (st_objects st !! key) as [o|] eqn:Ho; [|by simplify_eq]. simpl in Hg.
  destruct (spec_slots (obj_spec o) !! _) as [sp|] eqn:Hsp; [|by simplify_eq]. unfold checked_add in Hg.
  case_decide as Hmax; [|by simplify_eq]. destruct (Z.ltb_spec (spec_len sp) (get_src_offset op + n)) as [Hlt|Hge]; [by simplify_eq|].
  apply bind_Ret_inv in Hg as (_ & _ & Hg). apply bind_Ret_inv in Hg as (s & Hs%unwrap_Ret & Hg).
  destruct (nearest inner d s) as [r|] eqn:Hr; [|by simplify_eq].
  apply (get_accepted _ _ _ _ d n (abs_object o) sp (abs_slot s)); [done|by rewrite abs_lookup, Ho|done|simpl; by rewrite list_lookup_fmap, Hs|lia|].
  rewrite abs_slot_vacant. intros ->. apply nearest_elem in Hr. by apply elem_of_nil in Hr.
Qed.

(** The replica read is a source of the abstract slot. *)
Lemma replica_source h st key o i s r :
  wf_at true st → coherent st → st_objects st !! key = Some o → obj_slots o !! i = Some s → r ∈ s →
  slot_source h (abs_slot s) (re_tier r) (replica_bytes h (re_data r)).
Proof.
  intros Hwf Hco Ho Hs Hr. pose proof (Forall_lookup_1 _ _ _ _ (Hco _ _ Ho) Hs) as Hc. simpl in Hc.
  destruct (Forall2_lookup_r _ _ _ _ _ (wf_obj _ Hwf _ _ Ho) Hs) as (sp & _ & Hrw). rewrite Forall_forall in Hrw.
  destruct (Hrw _ Hr) as [_ Hd]. unfold slot_source. destruct (re_data r) as [b|segs id] eqn:Hdata; simpl.
  - left. destruct Hd as [-> _]. split; [done|]. apply (abs_bytes_owned s r); [done|done|]. unfold owned_bytes. by rewrite Hdata.
  - right. destruct Hd as [-> _]. split; [done|]. exists (mkLent (re_device r) segs id). split; [|done].
    apply list_elem_of_omap. exists r. split; [done|]. unfold lent_of. by rewrite Hdata.
Qed.

Lemma sim_get h st key op h' r :
  wf_at true st → coherent st → Forall (iov_valid h) (get_dst op) → 0 <= get_src_offset op →
  replicas_live h st key (Z.to_nat (get_slot op)) → get inner h st key op = Ret (h', r) →
  spec_step RangeFirst (h, abs st) (EvGet key op r) (h', abs st).
Proof.
  intros Hwf Hco Hv Hoff Hl Hg. destruct (get_spec inner h st key op Hwf Hv Hoff Hl) as (h1 & r1 & Hg' & Hres).
  rewrite Hg in Hg'. injection Hg' as <- <-. destruct r as [rp|e].
  2:{ destruct Hres as [-> He]. apply sp_get_error. by apply get_fails_abs. }
  destruct Hres as (d & n & o & s & x & [Hval Ho Hs Hn Hrange Hfrom Hdom Hfr Hb]).
  apply (sp_get _ _ _ _ _ _ d n (abs_object o) (abs_slot s) (replica_bytes h (re_data x))); try done.
  - by eapply get_answered.
  - by rewrite abs_lookup, Ho.
  - simpl. by rewrite list_lookup_fmap, Hs.
  - rewrite Hfrom. simpl. eapply replica_source; try done. by eapply nearest_elem.
Qed.

Lemma sim_stat st k :
  wf_at true st → match abs st !! k, object_info inner <$> st_objects st !! k with
          | Some o, Some i => info_of o i | None, None => True | _, _ => False end.
Proof.
  intros Hwf. rewrite abs_lookup. destruct (st_objects st !! k) as [o|] eqn:Ho; [|done]. simpl.
  pose proof (wf_obj _ Hwf _ _ Ho) as Hobj. unfold obj_wf in Hobj. unfold info_of, object_info, abs_object. simpl. split; [done|].
  clear Ho. induction Hobj as [|sp s sps ss Hs _ IH]; simpl; [done|]. destruct IH as [IH1 IH2]. csimpl. split; [|by f_equal].
  constructor; [|done]. unfold is_resident. simpl. rewrite abs_slot_vacant. by destruct s.
Qed.

Lemma coherent_filter (P : bytes * Object → Prop) `{∀ x, Decision (P x)} st pools :
  coherent st → coherent (mkState (filter P (st_objects st)) pools).
Proof. intros Hco k o [Ho _]%map_lookup_filter_Some. by apply (Hco _ _ Ho). Qed.

Lemma abs_filter (P : bytes → Prop) `{∀ k, Decision (P k)} st pools :
  abs (mkState (filter (λ '(k, _), P k) (st_objects st)) pools) = filter (λ '(k, _), P k) (abs st).
Proof. unfold abs. simpl. rewrite map_filter_fmap. f_equal. Qed.

Lemma abs_retire st id :
  abs (retire_region st id) = (λ o, mkAObject (ao_spec o) (retire_slot id <$> ao_slots o)) <$> abs st.
Proof.
  unfold abs, retire_region. simpl. rewrite <- !map_fmap_compose. apply map_fmap_ext. intros k o _. unfold abs_object. simpl.
  f_equal. rewrite <- !list_fmap_compose. apply list_fmap_ext. intros i s _. simpl. clear.
  induction s as [|r s IH]; [done|]. unfold published_from in *. simpl. destruct (re_data r) as [b|segs id'] eqn:Hr; simpl.
  - rewrite !abs_slot_cons, Hr, IH. done.
  - rewrite abs_slot_cons, Hr. unfold retire_slot. simpl. destruct (id' =? id); simpl; rewrite ?abs_slot_cons, ?Hr, IH; done.
Qed.

Lemma coherent_retire st id : coherent st → coherent (retire_region st id).
Proof.
  intros Hco k o Ho. rewrite lookup_retired in Ho. apply fmap_Some in Ho as (x & Hx & ->). simpl. apply Forall_fmap.
  eapply Forall_impl; [exact (Hco _ _ Hx)|]. intros s Hs r r' b b' [Hr _]%elem_of_retired [Hr' _]%elem_of_retired. by apply Hs.
Qed.

Lemma mem_step_spec w e w' :
  mem_step w e w' → wf_at true w.2 → coherent w.2 →
  spec_step RangeFirst (w.1, abs w.2) e (w'.1, abs w'.2) ∧ wf_at true w'.2 ∧ coherent w'.2.
Proof.
  intros Hstep Hwf Hco.
  destruct Hstep as [h st key op st' r Hv Hc Hh Hp|h st key op st' r Hv Hp|h st key op h' r Hv Ho Hl Hg|h st keys
                    |h st keys st' Hr|h st prefix st' n Hr|h st id|]; simpl in *.
  - apply sim_put; [by constructor|done|done].
  - by apply sim_publish.
  - split; [|done]. by apply sim_get.
  - split; [|done]. apply sp_stat. unfold stat. apply Forall2_fmap_r, Forall_Forall2_diag. apply Forall_forall.
    intros k _. by apply sim_stat.
  - destruct (remove_spec st keys Hwf) as (pools & Hr' & Hwf' & _). unfold remove in Hr. rewrite Hr in Hr'.
    injection Hr' as ->. split; [|split; [done|by apply coherent_filter]]. unfold without. rewrite abs_filter. constructor.
  - destruct (remove_prefix_spec st prefix Hwf) as (st1 & Hr' & Hobj & Hwf' & _). rewrite Hr in Hr'. injection Hr' as <- ->.
    destruct st' as [objs pools]. simpl in Hobj. subst objs. unfold has_prefix in *.
    split; [|split; [done|by apply coherent_filter]]. rewrite (abs_filter (λ k, ¬ prefix `prefix_of` k)).
    match goal with |- spec_step _ _ (EvRemovePrefix _ (Z.of_nat ?n)) _ =>
      replace n with (size (filter (λ '(k, _), prefix `prefix_of` k) (abs st))); [constructor|] end.
    unfold abs. by rewrite map_filter_fmap, map_size_fmap.
  - split; [|split; [by apply wf_retire_region|by apply coherent_retire]]. rewrite abs_retire. constructor.
  - split; [constructor|done].
Qed.

(** With nothing lent to a slot, every replica of it is the store's own. *)
Lemma unlent_live h st key j : unlent (abs st) key j → replicas_live h st key j.
Proof.
  intros Hu o s r Ho Hs Hr. assert (as_lent (abs_slot s) = []) as Hl.
  { apply (Hu (abs_object o)); [by rewrite abs_lookup, Ho|]. simpl. by rewrite list_lookup_fmap, Hs. }
  destruct (re_data r) as [b|segs id] eqn:Hd; [done|]. simpl in Hl.
  assert (mkLent (re_device r) segs id ∈ omap lent_of s) as Hin.
  { apply list_elem_of_omap. exists r. split; [done|]. unfold lent_of. by rewrite Hd. }
  rewrite Hl in Hin. by apply elem_of_nil in Hin.
Qed.

(** The simulation relation. *)
Definition implements (w : heap * State) (a : heap * AState) : Prop :=
  wf_at true w.2 ∧ coherent w.2 ∧ a = (w.1, abs w.2).

Lemma mem_runs_spec w a tr w' :
  implements w a → runs mem_step w tr w' → ∃ a', runs (spec_step RangeFirst) a tr a' ∧ implements w' a'.
Proof.
  apply simulation. intros c a0 e c' (Hwf & Hco & ->) Hs. destruct (mem_step_spec _ _ _ Hs Hwf Hco) as (Hs' & Hwf' & Hco').
  eexists. split; [exact Hs'|]. by split_and!.
Qed.

Lemma implements_build b h : implements (h, (build b).2) (h, ∅).
Proof.
  split_and!; simpl; [apply wf_build| |].
  - intros k o Ho. change ((∅ : gmap bytes Object) !! k = Some o) in Ho. by rewrite lookup_empty in Ho.
  - by f_equal.
Qed.

(** A slot a put has just filled, abstractly. *)
Lemma put_holds h st key op st' rs j ps :
  wf_at true st → coherent st → mem_step (h, st) (EvPut key op (Ok rs)) (h, st') →
  rs !! j = Some (Ok tt) → op_slots op !! j = Some ps →
  holds (abs st') key (OpPut_spec op) j (contents h (ps_src ps)) ∧ unlent (abs st') key j.
Proof.
  intros Hwf Hco Hput. destruct (mem_step_spec _ _ _ Hput Hwf Hco) as (Hstep & _). by eapply spec_put_holds.
Qed.

Lemma durable h1 st1 key op st2 rs j ps tr h2 st3 g d n :
  wf_at true st1 → coherent st1 → mem_step (h1, st1) (EvPut key op (Ok rs)) (h1, st2) →
  op_retention op = Explicit → rs !! j = Some (Ok tt) → op_slots op !! j = Some ps →
  runs mem_step (h1, st2) tr (h2, st3) → Forall (keeps key) tr → Forall (no_publish key) tr →
  Forall (iov_valid h2) (get_dst g) → non_overlapping (get_dst g) → get_slot g = Z.of_nat j →
  OpGet_validate g = Ok (d, n) → 0 <= get_src_offset g →
  get_src_offset g + n <= Z.min (spec_len (ps_spec ps)) U64_MAX →
  ∃ h3 rp, get inner h2 st3 key g = Ret (h3, Ok rp) ∧
    contents h3 (get_dst g) = take (Z.to_nat n) (drop (Z.to_nat (get_src_offset g)) (contents h1 (ps_src ps))).
Proof.
  intros Hwf1 Hco1 Hput Hexp Hrj Hps Hr Hk Hp Hdst Hno Hslot Hv Hoff Hrange.
  destruct (put_holds _ _ _ _ _ _ _ _ Hwf1 Hco1 Hput Hrj Hps) as [Hh Hu].
  destruct (mem_step_spec _ _ _ Hput Hwf1 Hco1) as (_ & Hwf2 & Hco2). simpl in *.
  destruct (mem_runs_spec (h1, st2) (h1, abs st2) _ _ ltac:(by split_and!) Hr) as (a3 & Hsr & Hwf3 & Hco3 & ->). simpl in *.
  pose proof (spec_runs_holds _ _ _ _ _ (OpPut_spec op) _ _ Hexp Hsr Hk Hh) as Hh3.
  pose proof (spec_runs_unlent _ _ _ _ _ _ Hsr Hp Hu) as Hu3. simpl in Hh3, Hu3.
  assert (replicas_live h2 st3 key (Z.to_nat (get_slot g))) as Hl.
  { rewrite Hslot, Nat2Z.id. by apply unlent_live. }
  destruct (get_spec inner h2 st3 key g Hwf3 Hdst Hoff Hl) as (h3 & r & Hg & _).
  destruct (spec_get_holds RangeFirst h2 (abs st3) key (OpPut_spec op) (ps_spec ps) j _ g r h3 d n Hh3 Hu3) as (rp & -> & Hc); try done.
  - by apply sim_get.
  - simpl. by rewrite list_lookup_fmap, Hps.
  - exists h3, rp. split; [done|by apply Hc].
Qed.
End Simulation.

(** C1: Every history of a [Memory] backend is one the contract allows: for any
    sequence of calls that return on a freshly built backend, with the answers it
    gave, the same calls and answers are a run of [Spec.spec_step] (the operations
    of [docs/INTERFACE.md], with the answers the backends give: a publish into a
    slot index the object does not have is refused with [InvalidInput], where the
    document says [NotFound], and a get checks its range before it looks for a
    replica), ending in the abstraction of the backend's state. The calls are
    those within the safety contract of registered memory and the width of the
    counters: iovs over mapped memory, lent memory mapped when a get may read it,
    at most [2^32] slots in a put, and [used] counters with room for its bytes.
    Stale queue entries are included: a put that panics on one ends the history.
    *)
Theorem memory_refines_spec `{BuildProfile} b h tr h' st :
  runs (mem_step (build b).1) (h, (build b).2) tr (h', st) →
  runs (spec_step RangeFirst) (h, ∅) tr (h', abs st) ∧ wf_at true st ∧ coherent st.
Proof.
  intros Hr. destruct (mem_runs_spec _ _ _ _ _ (implements_build b h) Hr) as (a' & Hruns & Hwf & Hco & ->). done.
Qed.

(** An [Explicit] put that fills the first pool, then a [Cache] put that finds
    no room there. *)
Definition fx_explicit : OpPut := with_retention fx_put Explicit.
Definition fx_big : OpPut := OpPut_new [fx_slot (Strict (Cpu 0)) 0 8].

#[local] Existing Instance fx_profile.

Definition fx_ex1 : State * Result RpPut :=
  match put fx_inner fx_heap fx_st0 [7] fx_explicit with Ret x => x | _ => (fx_st0, Ok []) end.
Definition fx_ex2 : State * Result RpPut :=
  match put fx_inner fx_heap fx_ex1.1 [8] fx_big with Ret x => x | _ => (fx_st0, Ok []) end.

Lemma fx_calls :
  mem_step fx_inner (fx_heap, fx_st0) (EvPut [7] fx_explicit (Ok [Ok tt; Ok tt])) (fx_heap, fx_ex1.1) ∧
  mem_step fx_inner (fx_heap, fx_ex1.1) (EvPut [8] fx_big fx_ex2.2) (fx_heap, fx_ex2.1).
Proof.
  split; apply ms_put; try (apply (bool_decide_unpack _); by vm_compute); try done; try by vm_compute.
Qed.

Lemma memory_refines_spec_witness :
  runs (spec_step RangeFirst) (fx_heap, ∅)
    [EvPut [7] fx_explicit (Ok [Ok tt; Ok tt]); EvPut [8] fx_big fx_ex2.2] (fx_heap, abs fx_ex2.1).
Proof.
  destruct fx_calls as [H1 H2].
  apply (memory_refines_spec fx_builder fx_heap). econstructor; [exact H1|]. econstructor; [exact H2|]. constructor.
Defined.

(** C6: What [Explicit] retention means: after a put of an [Explicit] object has
    accepted a slot, and after any further calls that return within the guards of
    [mem_step] (puts that fill the pools, region drops, changes of caller memory,
    ...) that neither remove the key nor publish into it, an in-range get of the
    slot succeeds and delivers the bytes that were put. *)
Theorem explicit_durable `{BuildProfile} b h0 tr0 h1 st1 key op st2 rs j ps tr h2 st3 g d n :
  runs (mem_step (build b).1) (h0, (build b).2) tr0 (h1, st1) →
  mem_step (build b).1 (h1, st1) (EvPut key op (Ok rs)) (h1, st2) →
  op_retention op = Explicit → rs !! j = Some (Ok tt) → op_slots op !! j = Some ps →
  runs (mem_step (build b).1) (h1, st2) tr (h2, st3) → Forall (keeps key) tr → Forall (no_publish key) tr →
  Forall (iov_valid h2) (get_dst g) → non_overlapping (get_dst g) → get_slot g = Z.of_nat j →
  OpGet_validate g = Ok (d, n) → 0 <= get_src_offset g →
  get_src_offset g + n <= Z.min (spec_len (ps_spec ps)) U64_MAX →
  ∃ h3 rp, get (build b).1 h2 st3 key g = Ret (h3, Ok rp) ∧
    contents h3 (get_dst g) = take (Z.to_nat n) (drop (Z.to_nat (get_src_offset g)) (contents h1 (ps_src ps))).
Proof.
  intros Hr0. destruct (mem_runs_spec _ _ _ _ _ (implements_build b h0) Hr0) as (a1 & _ & Hwf & Hco & _).
  by apply durable.
Qed.

(** The bytes of the [Explicit] object are still there after the second put was
    refused and the caller's memory was overwritten. *)
Lemma explicit_durable_witness :
  ∃ h3 rp, get fx_inner (<[1001 := 99]> fx_heap) fx_ex2.1 [7] (mkOpGet 0 1 [iov fx_region 8 3]) = Ret (h3, Ok rp) ∧
    contents h3 [iov fx_region 8 3] = [1; 2; 3].
Proof.
  destruct fx_calls as [H1 H2].
  destruct (explicit_durable fx_builder fx_heap [] fx_heap fx_st0 [7] fx_explicit fx_ex1.1 [Ok tt; Ok tt] 0
    (fx_slot (Strict (Cpu 0)) 0 4) [EvPut [8] fx_big fx_ex2.2; EvMemory] (<[1001 := 99]> fx_heap) fx_ex2.1
    (mkOpGet 0 1 [iov fx_region 8 3]) (Cpu 0) 3) as (h3 & rp & Hg & Hc);
    [constructor|exact H1|done|done|done| |by repeat constructor|by repeat constructor
    |apply (bool_decide_unpack _); by vm_compute|by repeat constructor|done|by vm_compute|done|by vm_compute|].
  - econstructor; [exact H2|]. econstructor; [apply ms_memory|]. constructor.
  - exists h3, rp. split; [exact Hg|]. cbn [get_dst] in Hc. rewrite Hc. by vm_compute.
Defined.
