(* ===== verification/Store.v ===== *)
(** * The [Store] handle: [store.rs], [access.rs], [layer.rs]

    [Servicer W] is [Arc<dyn AccessDyn>]: the operations a backend offers, over
    the world [W] it shares with its callers.  [Store] checks each request
    against the backend's [Capability] before delegating, and tags errors with
    the operation. *)

From S2P Require Import Prelude HostMem Types Region Memory.

(** [AccessDyn], the object-safe mirror of [Access]; an operation is awaited,
    so it takes the world to the world and a result. *)
Record Servicer (W : Type) : Type := mkServicer {
  info_dyn : AccessInfo;
  register_dyn : usize → u64 → Device → W → outcome (W * Result MemoryRegion);
  put_dyn : bytes → OpPut → W → outcome (W * Result RpPut);
  publish_dyn : bytes → OpPublish → W → outcome (W * Result unit);
  stat_dyn : list bytes → W → outcome (W * Result (list (option ObjectInfo)));
  get_dyn : bytes → OpGet → W → outcome (W * Result RpGet);
  remove_dyn : list bytes → W → outcome (W * Result unit);
  remove_prefix_dyn : bytes → W → outcome (W * Result u64);
}.
Arguments info_dyn {W} s.
Arguments register_dyn {W} s ptr len d w.
Arguments put_dyn {W} s key op w.
Arguments publish_dyn {W} s key op w.
Arguments stat_dyn {W} s keys w.
Arguments get_dyn {W} s key op w.
Arguments remove_dyn {W} s keys w.
Arguments remove_prefix_dyn {W} s prefix w.

(** [trait Layer]. *)
Definition Layer (W : Type) : Type := Servicer W → Servicer W.

Definition unsupported (what : string) : Error :=
  Error_new Unsupported ("backend does not support " +:+ what).

(** [r.map_err(|e| e.with_operation(op))]. *)
Definition tag {A} (operation : string) (r : Result A) : Result A :=
  map_err (λ e, with_operation e operation) r.

(** [if let Some(max) = limit && n > max]. *)
Definition exceeds (limit : option u32) (n : Z) : option u32 :=
  match limit with Some max => if max <? n then Some max else None | None => None end.

Section Store.
Context {W : Type}.

Record Store : Type := mkStore {
  srv : Servicer W;
  store_info : AccessInfo;
}.

Definition from_servicer (s : Servicer W) : Store := mkStore s (info_dyn s).

Definition layer (s : Store) (l : Layer W) : Store := from_servicer (l (srv s)).

(** [map_err(with_operation)] on an awaited call. *)
Definition awaited {A} (operation : string) (m : outcome (W * Result A)) : outcome (W * Result A) :=
  '(w, r) ← m; Ret (w, tag operation r).

Definition store_register (s : Store) (ptr : usize) (len : u64) (d : Device) (w : W)
    : outcome (W * Result MemoryRegion) :=
  if is_gpu d && negb (gpu_memory (ai_capability (store_info s)))
  then Ret (w, Err (with_operation (unsupported "gpu memory") "register"))
  else register_dyn (srv s) ptr len d w.

Definition check_iov_count (cap : Capability) (n : nat) : Result unit :=
  match exceeds (max_iov cap) (Z.of_nat n) with
  | Some max => Err (with_context (unsupported "too many iov segments") "max_iov" (CInt max))
  | None => Ok tt
  end.

(** The placement arm of the loop of [check_put]. *)
Definition check_placement (cap : Capability) (i : nat) (p : Placement) : Result unit :=
  match p with
  | Strict _ =>
      if negb (placement_strict cap)
      then Err (with_context (unsupported "placement strict") "slot" (CInt (Z.of_nat i))) else Ok tt
  | Each _ =>
      if negb (placement_each cap)
      then Err (with_context (unsupported "placement each") "slot" (CInt (Z.of_nat i))) else Ok tt
  | _ => Ok tt
  end.

Fixpoint check_slots (cap : Capability) (i : nat) (slots : list PutSlot) : Result unit :=
  match slots with
  | [] => Ok tt
  | s :: slots =>
      _ ← check_placement cap i (spec_placement (ps_spec s));
      _ ← match exceeds (max_slot_len cap) (spec_len (ps_spec s)) with
          | Some max => Err (with_context (with_context (unsupported "slot too large")
                              "slot" (CInt (Z.of_nat i))) "max_slot_len" (CInt max))
          | None => Ok tt
          end;
      _ ← check_iov_count cap (length (ps_src s));
      check_slots cap (S i) slots
  end.

Definition check_put (cap : Capability) (op : OpPut) : Result unit :=
  _ ← OpPut_validate op;
  if bool_decide (op_retention op = Explicit) && negb (retention_explicit cap)
  then Err (unsupported "retention explicit")
  else match exceeds (max_slots cap) (Z.of_nat (length (op_slots op))) with
       | Some max => Err (with_context (unsupported "too many slots") "max_slots" (CInt max))
       | None => check_slots cap 0 (op_slots op)
       end.

Definition put_options (s : Store) (key : bytes) (op : OpPut) (w : W) : outcome (W * Result RpPut) :=
  match tag "put" (check_put (ai_capability (store_info s)) op) with
  | Err e => Ret (w, Err e)
  | Ok _ => awaited "put" (put_dyn (srv s) key op w)
  end.

Definition store_put (s : Store) (key : bytes) (slots : list PutSlot) (w : W)
    : outcome (W * Result RpPut) :=
  put_options s key (OpPut_new slots) w.

Definition get_options (s : Store) (key : bytes) (op : OpGet) (w : W) : outcome (W * Result RpGet) :=
  match tag "get" (_ ← OpGet_validate op;
                   check_iov_count (ai_capability (store_info s)) (length (get_dst op))) with
  | Err e => Ret (w, Err e)
  | Ok _ => awaited "get" (get_dyn (srv s) key op w)
  end.

Definition store_get (s : Store) (key : bytes) (slot : u32) (dst : list Iov) (w : W)
    : outcome (W * Result RpGet) :=
  get_options s key (OpGet_new slot dst) w.

(** [get_many]: the stream yields in completion order; [order] is the order in
    which the requests complete. *)
Fixpoint get_many (s : Store) (reqs : list (bytes * OpGet)) (order : list nat) (w : W)
    : outcome (W * list (nat * Result RpGet)) :=
  match order with
  | [] => Ret (w, [])
  | i :: order =>
      '(key, op) ← unwrap (reqs !! i);
      '(w, r) ← get_options s key op w;
      '(w, rs) ← get_many s reqs order w;
      Ret (w, (i, r) :: rs)
  end.

Definition store_publish (s : Store) (key : bytes) (slot : u32) (src : list Iov) (w : W)
    : outcome (W * Result unit) :=
  let cap := ai_capability (store_info s) in
  if negb (cap_publish cap) then Ret (w, Err (with_operation (unsupported "publish") "publish"))
  else
    let op := mkOpPublish slot src in
    match tag "publish" (_ ← OpPublish_validate op; check_iov_count cap (length src)) with
    | Err e => Ret (w, Err e)
    | Ok _ => awaited "publish" (publish_dyn (srv s) key op w)
    end.

Definition store_stat (s : Store) (keys : list bytes) (w : W)
    : outcome (W * Result (list (option ObjectInfo))) :=
  match exceeds (max_stat_batch (ai_capability (store_info s))) (Z.of_nat (length keys)) with
  | Some max => Ret (w, Err (with_operation (with_context (unsupported "stat batch too large")
                              "max_stat_batch" (CInt max)) "stat"))
  | None => awaited "stat" (stat_dyn (srv s) keys w)
  end.

Definition store_remove (s : Store) (keys : list bytes) (w : W) : outcome (W * Result unit) :=
  awaited "remove" (remove_dyn (srv s) keys w).

Definition store_remove_prefix (s : Store) (prefix : bytes) (w : W) : outcome (W * Result u64) :=
  if negb (cap_remove_prefix (ai_capability (store_info s)))
  then Ret (w, Err (with_operation (unsupported "remove_prefix") "remove_prefix"))
  else awaited "remove_prefix" (remove_prefix_dyn (srv s) prefix w).

(** [put_with], the builder it returns, and what awaiting it runs. *)
Record FuturePut : Type := mkFuturePut {
  fp_store : Store;
  fp_key : bytes;
  fp_op : OpPut;
}.

Definition put_with (s : Store) (key : bytes) (slots : list PutSlot) : FuturePut := mkFuturePut s key (OpPut_new slots).
Definition fp_retention (f : FuturePut) (r : Retention) : FuturePut :=
  mkFuturePut (fp_store f) (fp_key f) (mkOpPut r (op_slots (fp_op f))).
Definition fp_await (f : FuturePut) (w : W) : outcome (W * Result RpPut) := put_options (fp_store f) (fp_key f) (fp_op f) w.

Record FutureGet : Type := mkFutureGet {
  fg_store : Store;
  fg_key : bytes;
  fg_op : OpGet;
}.

Definition get_with (s : Store) (key : bytes) (slot : u32) (dst : list Iov) : FutureGet :=
  mkFutureGet s key (OpGet_new slot dst).
Definition fg_src_offset (f : FutureGet) (off : u64) : FutureGet :=
  mkFutureGet (fg_store f) (fg_key f) (mkOpGet (get_slot (fg_op f)) off (get_dst (fg_op f))).
Definition fg_await (f : FutureGet) (w : W) : outcome (W * Result RpGet) := get_options (fg_store f) (fg_key f) (fg_op f) w.

(** [impl Access for Arc<T>]: a shared servicer forwards every operation. *)
Definition arc_access (s : Servicer W) : Servicer W :=
  mkServicer W (info_dyn s) (λ ptr len d, register_dyn s ptr len d) (λ key op, put_dyn s key op)
    (λ key op, publish_dyn s key op) (λ keys, stat_dyn s keys) (λ key op, get_dyn s key op)
    (λ keys, remove_dyn s keys) (λ prefix, remove_prefix_dyn s prefix).

(** Wrapping the servicer of a store once more changes nothing. *)
Lemma arc_access_id s : from_servicer (arc_access s) = from_servicer s.
Proof. by destruct s. Qed.
End Store.
Arguments Store W : clear implicits.
