(* ===== verification/MemoryAccess.v ===== *)
(** * [impl Access for Memory]

    The backend as a [Servicer] over a world: caller memory, backend state and
    the global region-id counter.  [Lawful] is what [Store] relies on; the
    [Memory] backend is an instance. *)

From S2P Require Import Prelude HostMem Types Region Memory MemoryEvict MemoryInv MemoryCopy MemoryPut MemoryPutOps MemoryOps MemoryProps Store.

Record World : Type := mkWorld {
  w_heap : heap;
  w_state : State;
  w_counter : u64;
}.

Section MemoryServicer.
Context `{BuildProfile} (inner : Inner).

Definition with_state (w : World) (st : State) : World := mkWorld (w_heap w) st (w_counter w).

Definition mem_register (ptr : usize) (len : u64) (d : Device) (w : World)
    : outcome (World * Result MemoryRegion) :=
  let '(r, c) := register inner (w_counter w) ptr len d in
  Ret (mkWorld (w_heap w) (w_state w) c, r).

Definition mem_put (key : bytes) (op : OpPut) (w : World) : outcome (World * Result RpPut) :=
  '(st, r) ← put inner (w_heap w) (w_state w) key op; Ret (with_state w st, r).

Definition mem_publish (key : bytes) (op : OpPublish) (w : World) : outcome (World * Result unit) :=
  '(st, r) ← publish (w_state w) key op; Ret (with_state w st, r).

Definition mem_stat (keys : list bytes) (w : World)
    : outcome (World * Result (list (option ObjectInfo))) :=
  Ret (w, Ok (stat inner (w_state w) keys)).

Definition mem_get (key : bytes) (op : OpGet) (w : World) : outcome (World * Result RpGet) :=
  '(h, r) ← get inner (w_heap w) (w_state w) key op;
  Ret (mkWorld h (w_state w) (w_counter w), r).

Definition mem_remove (keys : list bytes) (w : World) : outcome (World * Result unit) :=
  st ← remove (w_state w) keys; Ret (with_state w st, Ok tt).

Definition mem_remove_prefix (prefix : bytes) (w : World) : outcome (World * Result u64) :=
  '(st, n) ← remove_prefix (w_state w) prefix; Ret (with_state w st, Ok n).

Definition memory_servicer : Servicer World :=
  mkServicer World (in_info inner) mem_register mem_put mem_publish mem_stat mem_get mem_remove
    mem_remove_prefix.
End MemoryServicer.

(** ** What a backend promises to [Store] *)

Class Lawful {W : Type} (s : Servicer W) : Type := {
  (** The caller's memory in a world, and the backend's own consistency. *)
  law_heap : W → heap;
  law_inv : W → Prop;
  (** The call is safe: regions are live, counters have headroom. *)
  law_safe_put : W → bytes → OpPut → Prop;
  (** The destination device can be reached. *)
  law_safe_get : W → OpGet → Prop;
  (** A put returns, with one result per slot if any, keeps the backend
      consistent and the caller's memory. *)
  law_put w key op : law_inv w → law_safe_put w key op →
    ∃ w' res, put_dyn s key op w = Ret (w', res) ∧ law_inv w' ∧ law_heap w' = law_heap w ∧
      ∀ rs, res = Ok rs → length rs = length (op_slots op);
  (** A slot it accepted is readable from then on. *)
  law_put_get w key op w' rs j ps g d n :
    law_inv w → law_safe_put w key op → put_dyn s key op w = Ret (w', Ok rs) →
    rs !! j = Some (Ok tt) → op_slots op !! j = Some ps → law_safe_get w' g → get_slot g = Z.of_nat j →
    Forall (iov_valid (law_heap w)) (get_dst g) → non_overlapping (get_dst g) →
    OpGet_validate g = Ok (d, n) → 0 <= get_src_offset g →
    get_src_offset g + n <= spec_len (ps_spec ps) → spec_len (ps_spec ps) <= U64_MAX →
    ∃ w2 rp, get_dyn s key g w' = Ret (w2, Ok rp) ∧
      contents (law_heap w2) (get_dst g) =
        take (Z.to_nat n) (drop (Z.to_nat (get_src_offset g)) (contents (law_heap w) (ps_src ps)));
}.

#[global] Program Instance memory_lawful `{BuildProfile} (inner : Inner) :
    Lawful (memory_servicer inner) := {
  law_heap := w_heap;
  law_inv w := wf (w_state w);
  law_safe_put w key op := put_pre (w_heap w) key (w_state w) op;
  law_safe_get _ _ := True;
}.
Next Obligation.
  intros HB inner w key op _ Hpre. simpl.
  destruct (put_spec inner _ _ _ _ Hpre) as (st' & res & Hp & Hres). unfold mem_put. rewrite Hp.
  simpl. eexists _, _. split; [done|]. simpl. destruct res as [rs|e].
  - destruct Hres as (_ & o' & Hd). destruct Hd. split; [done|]. split; [done|]. by intros ? [= <-].
  - destruct Hres as [-> _]. by destruct Hpre.
Qed.
Next Obligation.
  intros HB inner w key op w' rs j ps g d n _ Hpre Hput Hr Hps _ Hg Hdst Hno Hval Hoff Hle Hmax.
  simpl in *. unfold mem_put in Hput. inv_bind. destruct a as [st' r]. inv_bind.
  destruct (put_get_spec (stale := false) inner (w_heap w) (w_heap w) key (w_state w) op st' rs j ps g d n)
    as (h' & rp & Hget & Hb); [done..|].
  unfold mem_get. simpl. rewrite Hget. simpl. eexists _, _. split; [done|]. done.
Qed.
