(* ===== verification/StoreTheorems.v ===== *)
(** * [Store]: capability gating, error tagging, and the backend contract *)

From S2P Require Import Prelude HostMem Types Region Memory MemoryEvict MemoryInv MemoryCopy MemoryPut MemoryPutOps MemoryOps MemoryProps Store MemoryAccess.

(** ** What [check_put] admits *)

Definition limit_ok (limit : option u32) (n : Z) : Prop := ∀ max, limit = Some max → n <= max.

Definition placement_allowed (cap : Capability) (p : Placement) : Prop :=
  match p with
  | Strict _ => placement_strict cap = true
  | Each _ => placement_each cap = true
  | Prefer _ | Anywhere => True
  end.

Definition slot_admitted (cap : Capability) (s : PutSlot) : Prop :=
  placement_allowed cap (spec_placement (ps_spec s)) ∧
  limit_ok (max_slot_len cap) (spec_len (ps_spec s)) ∧
  limit_ok (max_iov cap) (Z.of_nat (length (ps_src s))).

Definition put_admitted (cap : Capability) (op : OpPut) : Prop :=
  OpPut_validate op = Ok tt ∧
  (op_retention op = Explicit → retention_explicit cap = true) ∧
  limit_ok (max_slots cap) (Z.of_nat (length (op_slots op))) ∧
  Forall (slot_admitted cap) (op_slots op).

Lemma exceeds_None limit n : exceeds limit n = None ↔ limit_ok limit n.
Proof.
  unfold exceeds, limit_ok. destruct limit as [max|]; [|by split].
  destruct (Z.ltb_spec max n); split; try done.
  - intros Hl. specialize (Hl _ eq_refl). lia.
  - by intros _ ? [= <-].
Qed.

Lemma exceeds_spec limit n :
  match exceeds limit n with Some _ => ¬ limit_ok limit n | None => limit_ok limit n end.
Proof.
  destruct (exceeds limit n) eqn:He; [|by apply exceeds_None].
  intros Hl%exceeds_None. congruence.
Qed.

(** A refusal of the gate: [Unsupported], not yet tagged. *)
Definition refusal (e : Error) : Prop := err_kind e = Unsupported ∧ err_operation e = None.

Lemma check_placement_spec cap i p :
  match check_placement cap i p with
  | Ok _ => placement_allowed cap p
  | Err e => refusal e ∧ ¬ placement_allowed cap p
  end.
Proof.
  unfold check_placement, placement_allowed.
  destruct p; try done; [destruct (placement_strict cap)|destruct (placement_each cap)]; simpl;
    try done; (split; [done|]); congruence.
Qed.

Lemma check_iov_count_spec cap n :
  match check_iov_count cap n with
  | Ok _ => limit_ok (max_iov cap) (Z.of_nat n)
  | Err e => refusal e ∧ ¬ limit_ok (max_iov cap) (Z.of_nat n)
  end.
Proof.
  unfold check_iov_count. pose proof (exceeds_spec (max_iov cap) (Z.of_nat n)) as He.
  by destruct (exceeds _ _).
Qed.

Lemma check_slots_spec cap i slots :
  match check_slots cap i slots with
  | Ok _ => Forall (slot_admitted cap) slots
  | Err e => refusal e ∧ ¬ Forall (slot_admitted cap) slots
  end.
Proof.
  revert i. induction slots as [|s slots IH]; intros i; [constructor|]. simpl.
  pose proof (check_placement_spec cap i (spec_placement (ps_spec s))) as Hp.
  destruct (check_placement _ _ _) as [[]|e]; simpl.
  2:{ destruct Hp as [Hr Hn]. split; [done|]. intros [(? & _) _]%Forall_cons. done. }
  pose proof (exceeds_spec (max_slot_len cap) (spec_len (ps_spec s))) as He.
  destruct (exceeds _ _) as [max|]; simpl.
  { split; [done|]. intros [(_ & ? & _) _]%Forall_cons. done. }
  pose proof (check_iov_count_spec cap (length (ps_src s))) as Hc.
  destruct (check_iov_count _ _) as [[]|e]; simpl.
  2:{ destruct Hc as [Hr Hn]. split; [done|]. intros [(_ & _ & ?) _]%Forall_cons. done. }
  specialize (IH (S i)). destruct (check_slots cap (S i) slots) as [[]|e].
  - constructor; [|done]. by split_and!.
  - destruct IH as [Hr Hn]. split; [done|]. by intros [_ ?]%Forall_cons.
Qed.

Lemma validate_slots_Err i slots e :
  Forall (λ ps, Forall iov_typed (ps_src ps)) slots → validate_slots i slots = Err e →
  err_kind e = InvalidInput ∧ err_operation e = None.
Proof.
  intros Hv. revert i. induction Hv as [|ps slots Hps Hv IH]; intros i He; [done|]. simpl in He.
  destruct (validate_iovs _ _) as [[d t]|e'] eqn:Hval; simpl in He; [by eapply IH|].
  destruct (validate_iovs_Err _ _ _ Hval Hps). by simplify_eq/=.
Qed.

Lemma OpPut_validate_Err op e :
  Forall (λ ps, Forall iov_typed (ps_src ps)) (op_slots op) → OpPut_validate op = Err e →
  err_kind e = InvalidInput ∧ err_operation e = None.
Proof.
  unfold OpPut_validate. destruct (op_slots op); [by intros _ [= <-]|]. apply validate_slots_Err.
Qed.

Lemma check_put_spec cap op :
  Forall (λ ps, Forall iov_typed (ps_src ps)) (op_slots op) →
  match check_put cap op with
  | Ok _ => put_admitted cap op
  | Err e => (err_kind e = Unsupported ∨ err_kind e = InvalidInput) ∧ err_operation e = None ∧
             ¬ put_admitted cap op
  end.
Proof.
  intros Hty. unfold check_put. destruct (OpPut_validate op) as [[]|e] eqn:Hval; simpl.
  2:{ destruct (OpPut_validate_Err op e Hty Hval). split; [by right|]. split; [done|].
      unfold put_admitted. intros [? _]. congruence. }
  destruct (bool_decide (op_retention op = Explicit) && negb (retention_explicit cap)) eqn:Hr.
  { apply andb_true_iff in Hr as [He%bool_decide_eq_true Hn%negb_true_iff].
    split; [by left|]. split; [done|]. intros (_ & H1 & _). specialize (H1 He). congruence. }
  assert (op_retention op = Explicit → retention_explicit cap = true) as Hret.
  { intros He. rewrite He in Hr. simpl in Hr. by apply negb_false_iff. }
  pose proof (exceeds_spec (max_slots cap) (Z.of_nat (length (op_slots op)))) as He.
  destruct (exceeds _ _) as [max|].
  { split; [by left|]. split; [done|]. by intros (_ & _ & ? & _). }
  pose proof (check_slots_spec cap 0 (op_slots op)) as Hs.
  destruct (check_slots cap 0 (op_slots op)) as [[]|e].
  - by split_and!.
  - destruct Hs as [[Hk Ho] Hn]. split; [by left|]. split; [done|]. by intros (_ & _ & _ & ?).
Qed.

(** C22: The gate of [Store::put]: a request the capability does not admit is refused
    without a call to the backend, with [Unsupported] or [InvalidInput] and the
    operation set; an admitted one is exactly the backend's answer with errors
    tagged. *)
Theorem store_put_gate {W} (s : Store W) key op w :
  Forall (λ ps, Forall iov_typed (ps_src ps)) (op_slots op) →
  (put_admitted (ai_capability (store_info s)) op ∧
   put_options s key op w = awaited "put" (put_dyn (srv s) key op w)) ∨
  (¬ put_admitted (ai_capability (store_info s)) op ∧
   ∃ e, put_options s key op w = Ret (w, Err e) ∧
        (err_kind e = Unsupported ∨ err_kind e = InvalidInput) ∧ err_operation e = Some "put").
Proof.
  intros Hty. unfold put_options. pose proof (check_put_spec (ai_capability (store_info s)) op Hty) as Hc.
  destruct (check_put _ op) as [[]|e]; simpl; [by left|right].
  destruct Hc as (Hk & Ho & Hn). split; [done|]. eexists. split; [done|].
  unfold with_operation. rewrite Ho. done.
Qed.

#[local] Existing Instance fx_profile.

Definition fx_store : Store World := from_servicer (memory_servicer fx_inner).
Definition fx_world : World := mkWorld fx_heap fx_st0 2.

Lemma store_put_gate_witness :
  ∃ w' r, put_options fx_store [7] fx_put fx_world = Ret (w', Ok r) ∧ all_ok r = true.
Proof.
  destruct (store_put_gate fx_store [7] fx_put fx_world) as [[_ Heq]|[Hn _]].
  - apply (bool_decide_unpack _). by vm_compute.
  - rewrite Heq. eexists _, _. split; [by vm_compute|by vm_compute].
  - exfalso. apply Hn. split; [by vm_compute|]. split; [done|]. split; [done|].
    repeat (constructor; [by split_and!|]). constructor.
Defined.

(** A put and a get through the handle, over any lawful backend. *)
Lemma put_get_lawful {W} (sv : Servicer W) `{!Lawful sv} w key op w' rs j ps g d n :
  let s := from_servicer sv in
  law_inv w → law_safe_put w key op →
  put_options s key op w = Ret (w', Ok rs) →
  rs !! j = Some (Ok tt) → op_slots op !! j = Some ps → law_safe_get w' g → get_slot g = Z.of_nat j →
  Forall (iov_valid (law_heap w)) (get_dst g) → non_overlapping (get_dst g) →
  OpGet_validate g = Ok (d, n) →
  limit_ok (max_iov (ai_capability (info_dyn sv))) (Z.of_nat (length (get_dst g))) →
  0 <= get_src_offset g → get_src_offset g + n <= spec_len (ps_spec ps) →
  spec_len (ps_spec ps) <= U64_MAX →
  ∃ w2 rp, get_options s key g w' = Ret (w2, Ok rp) ∧
    contents (law_heap w2) (get_dst g) =
      take (Z.to_nat n) (drop (Z.to_nat (get_src_offset g)) (contents (law_heap w) (ps_src ps))).
Proof.
  intros s Hinv Hsafe Hput Hr Hps Hsg Hg Hdst Hno Hval Hiov Hoff Hle Hmax.
  unfold put_options in Hput. destruct (tag "put" _); [|by simplify_eq].
  unfold awaited in Hput. inv_bind. destruct a0 as [w1 res]. inv_bind. destruct res; [|done].
  simplify_eq/=.
  destruct (law_put_get w key op w' rs j ps g d n) as (w2 & rp & Hget & Hb); [done..|].
  exists w2, rp. split; [|done]. unfold get_options. rewrite Hval. simpl.
  pose proof (check_iov_count_spec (ai_capability (info_dyn sv)) (length (get_dst g))) as Hc.
  destruct (check_iov_count _ _) as [[]|e]; [|by destruct Hc]. simpl. by rewrite Hget.
Qed.

(** ** [get_many] over the [Memory] backend *)

Definition same_dom (h h' : heap) : Prop := ∀ i, is_Some (h' !! i) ↔ is_Some (h !! i).

Definition outside (dst : list Iov) (i : Z) : Prop :=
  ∀ v, v ∈ dst → ¬ (iov_as_ptr v <= i < iov_as_ptr v + iov_len v).

Lemma iov_valid_dom h h' v : same_dom h h' → iov_valid h v → iov_valid h' v.
Proof.
  intros Hd [(? & ? & ? & Hm) Ht]. split; [|done]. split_and!; [done..|].
  intros i Hi. apply Hd. by apply Hm.
Qed.

(** Every replica of the requested slot is owned by the backend. *)
Definition owned_slot (st : State) (key : bytes) (i : nat) : Prop :=
  ∀ o s r, st_objects st !! key = Some o → obj_slots o !! i = Some s → r ∈ s → is_owned r = true.

Lemma owned_slot_live st key i h : owned_slot st key i → replicas_live h st key i.
Proof.
  intros Ho o s r H1 H2 H3. specialize (Ho o s r H1 H2 H3). unfold is_owned in Ho.
  by destruct (re_data r).
Qed.

Section GetMany.
Context `{BuildProfile} (inner : Inner) (st : State) (c : u64).
Let s : Store World := from_servicer (memory_servicer inner).

(** A request that may be issued: valid destination, owned source. *)
Record good_req (h : heap) (req : bytes * OpGet) : Prop := mkGoodReq {
  gr_dst : Forall (iov_valid h) (get_dst req.2);
  gr_off : 0 <= get_src_offset req.2;
  gr_owned : owned_slot st req.1 (Z.to_nat (get_slot req.2));
  gr_disjoint : non_overlapping (get_dst req.2);
}.

Lemma good_req_dom h h' req : same_dom h h' → good_req h req → good_req h' req.
Proof.
  intros Hd [Hv ? ? ?]. split; try done. eapply Forall_impl; [exact Hv|]. intros v.
  by apply iov_valid_dom.
Qed.

Lemma get_result_heap h1 h2 key g h1' h2' r1 r2 :
  get inner h1 st key g = Ret (h1', r1) → get inner h2 st key g = Ret (h2', r2) → r1 = r2.
Proof.
  unfold get. destruct (OpGet_validate g) as [[d n]|e]; [|congruence].
  destruct (st_objects st !! key) as [o|]; [|congruence].
  destruct (spec_slots (obj_spec o) !! _) as [spec|]; [|congruence].
  destruct (checked_add _ _) as [stop|]; [|congruence].
  destruct (_ <? _); [congruence|]. destruct (debug_assert _); [|done..]. simpl.
  destruct (obj_slots o !! _) as [sl|]; [|done]. simpl.
  destruct (nearest inner d sl) as [rep|]; [|congruence].
  destruct (if debug_build then _ else _) as [u| |]; [|done..].
  intros H1 H2. inv_bind. done.
Qed.

(** The outcome of a get does not depend on the caller's other bytes. *)
Lemma get_alone h key g :
  wf_at true st → good_req h (key, g) →
  ∃ h' r, get inner h st key g = Ret (h', r) ∧ same_dom h h' ∧
    (∀ i, outside (get_dst g) i → h' !! i = h !! i) ∧
    ∀ h2, same_dom h h2 → ∃ h2', get inner h2 st key g = Ret (h2', r) ∧
      (is_ok r = true → contents h2' (get_dst g) = contents h' (get_dst g)).
Proof.
  intros Hwf Hgood. pose proof Hgood as [Hv Ho Hown Hno]. simpl in *.
  destruct (get_spec (stale := true) inner h st key g) as (h' & r & Hg & Hr); [done|done|done|by apply owned_slot_live|].
  exists h', r. split; [done|]. split; [|split].
  - destruct r as [rp|e]; [destruct Hr as (? & ? & ? & ? & ? & Hr); exact (got_dom _ _ _ _ _ _ _ _ _ _ _ _ Hr)|].
    by destruct Hr as [-> _].
  - destruct r as [rp|e]; [destruct Hr as (? & ? & ? & ? & ? & Hr); exact (got_frame _ _ _ _ _ _ _ _ _ _ _ _ Hr)|].
    by destruct Hr as [-> _].
  - intros h2 Hd. destruct (good_req_dom _ _ _ Hd Hgood) as [Hv2 _ _ _]. simpl in Hv2.
    destruct (get_spec (stale := true) inner h2 st key g) as (h2' & r2 & Hg2 & Hr2);
      [done|done|done|by apply owned_slot_live|].
    pose proof (get_result_heap _ _ _ _ _ _ _ _ Hg Hg2) as <-. exists h2'. split; [done|].
    destruct r as [rp|e]; [|done]. intros _.
    destruct Hr as (d & n & o & sl & rep & [V1 O1 S1 N1 _ _ _ _ B1]).
    destruct Hr2 as (d2 & n2 & o2 & sl2 & rep2 & [V2 O2 S2 N2 _ _ _ _ B2]).
    assert (d2 = d ∧ n2 = n ∧ o2 = o) as (-> & -> & ->) by (split_and!; congruence).
    assert (sl2 = sl) as -> by congruence. assert (rep2 = rep) as -> by congruence.
    rewrite (B1 Hno), (B2 Hno). do 2 f_equal.
    pose proof (Hown _ _ _ O1 S1 (nearest_elem _ _ _ _ N1)) as Hrep. unfold is_owned in Hrep.
    by destruct (re_data rep).
Qed.

(** The same through the handle. *)
Lemma get_options_alone h key g :
  wf_at true st → good_req h (key, g) →
  ∃ h' r, get_options s key g (mkWorld h st c) = Ret (mkWorld h' st c, r) ∧ same_dom h h' ∧
    (∀ i, outside (get_dst g) i → h' !! i = h !! i) ∧
    ∀ h2, same_dom h h2 → ∃ h2', get_options s key g (mkWorld h2 st c) = Ret (mkWorld h2' st c, r) ∧
      (is_ok r = true → contents h2' (get_dst g) = contents h' (get_dst g)).
Proof.
  intros Hwf Hgood. unfold get_options.
  destruct (tag "get" _) as [[]|e].
  2:{ exists h, (Err e). do 3 (split; [done|]). intros h2 _. by exists h2. }
  destruct (get_alone h key g Hwf Hgood) as (h' & r & Hg & Hd & Hf & Hany).
  exists h', (tag "get" r). simpl. unfold mem_get. simpl. rewrite Hg. split; [done|].
  split; [done|]. split; [done|]. intros h2 Hd2. destruct (Hany h2 Hd2) as (h2' & Hg2 & Hb).
  exists h2'. rewrite Hg2. split; [done|]. by destruct r.
Qed.

(** Destinations of different requests do not meet. *)
Definition dst_disjoint (reqs : list (bytes * OpGet)) : Prop :=
  ∀ i j x y, i ≠ j → reqs !! i = Some x → reqs !! j = Some y →
  ∀ v a, v ∈ get_dst x.2 → iov_as_ptr v <= a < iov_as_ptr v + iov_len v → outside (get_dst y.2) a.

Lemma contents_ext h h' dst :
  (∀ v a, v ∈ dst → iov_as_ptr v <= a < iov_as_ptr v + iov_len v → h' !! a = h !! a) →
  contents h' dst = contents h dst.
Proof.
  intros He. unfold contents. f_equal. apply list_fmap_ext. intros i v Hv.
  apply bytes_at_ext. intros a Ha. eapply He; [by eapply list_elem_of_lookup_2|done].
Qed.

Lemma get_many_spec reqs order h :
  wf_at true st → Forall (good_req h) reqs → dst_disjoint reqs → NoDup order →
  Forall (λ i, (i < length reqs)%nat) order →
  ∃ h' rs, get_many s reqs order (mkWorld h st c) = Ret (mkWorld h' st c, rs) ∧ rs.*1 = order ∧
    same_dom h h' ∧
    (∀ a, (∀ i x, i ∈ order → reqs !! i = Some x → outside (get_dst x.2) a) → h' !! a = h !! a) ∧
    (∀ i key g, i ∈ order → reqs !! i = Some (key, g) →
       ∃ h1 r, get_options s key g (mkWorld h st c) = Ret (mkWorld h1 st c, r) ∧ (i, r) ∈ rs ∧
               (is_ok r = true → contents h' (get_dst g) = contents h1 (get_dst g))).
Proof.
  intros Hwf Hgood Hdis Hnd. revert h Hgood.
  induction Hnd as [|i order Hi Hnd IH]; intros h Hgood Hlt.
  { exists h, []. do 4 (split; [done|]). intros i key g Hin. by apply elem_of_nil in Hin. }
  apply Forall_cons in Hlt as [Hil Hlt]. destruct (lookup_lt_is_Some_2 _ _ Hil) as [[key g] Hreq].
  pose proof (Forall_lookup_1 _ _ _ _ Hgood Hreq) as Hgi.
  destruct (get_options_alone h key g Hwf Hgi) as (h1 & r & Hg & Hd1 & Hf1 & _).
  assert (Forall (good_req h1) reqs) as Hgood1.
  { eapply Forall_impl; [exact Hgood|]. intros x. by apply good_req_dom. }
  destruct (IH h1 Hgood1 Hlt) as (h' & rs & Hrun & Hfst & Hd & Hf & Hres).
  exists h', ((i, r) :: rs). simpl. rewrite Hreq. cbn [unwrap mbind outcome_bind]. rewrite Hg.
  cbn [mbind outcome_bind]. rewrite Hrun. split; [done|]. split; [by f_equal|].
  split; [intros a; by rewrite (Hd a), (Hd1 a)|]. split.
  - intros a Ha. rewrite Hf; [|intros j x Hj; apply Ha; by right]. apply Hf1. apply (Ha i (key, g)); [left|done].
  - intros j key' g' Hj Hreq'. apply elem_of_cons in Hj as [->|Hj].
    + simplify_eq. exists h1, r. split; [done|]. split; [left|]. intros _.
      apply contents_ext. intros v a Hv Ha. apply Hf. intros k x Hk Hx.
      eapply (Hdis i k); [by intros ->|done..].
    + destruct (Hres j key' g' Hj Hreq') as (h2 & r2 & Hg2 & Hin & Hb).
      destruct (get_options_alone h key' g' Hwf (Forall_lookup_1 _ _ _ _ Hgood Hreq'))
        as (h3 & r3 & Hg3 & _ & _ & Hany).
      destruct (Hany h1 Hd1) as (h4 & Hg4 & Hb4). rewrite Hg2 in Hg4. simplify_eq.
      exists h3, r3. split; [done|]. split; [by right|]. intros Hok. rewrite Hb, Hb4 by done. done.
Qed.
End GetMany.

(** C21: [get_many] over the [Memory] backend yields in whatever order requests
    complete; when the destinations are mapped, of one request and of different
    requests disjoint, and the slots read hold only bytes the backend owns, every
    request gets exactly once the result, and in the end the bytes, that it would
    get if issued alone. *)
Theorem get_many_any_order `{BuildProfile} inner st c reqs order h :
  let s := from_servicer (memory_servicer inner) in
  wf_at true st → Forall (good_req st h) reqs → dst_disjoint reqs → order ≡ₚ seq 0 (length reqs) →
  ∃ h' rs, get_many s reqs order (mkWorld h st c) = Ret (mkWorld h' st c, rs) ∧ rs.*1 = order ∧
    ∀ i key g, reqs !! i = Some (key, g) →
      ∃ h1 r, get_options s key g (mkWorld h st c) = Ret (mkWorld h1 st c, r) ∧ (i, r) ∈ rs ∧
              (is_ok r = true → contents h' (get_dst g) = contents h1 (get_dst g)).
Proof.
  intros s Hwf Hgood Hdis Hperm.
  destruct (get_many_spec inner st c reqs order h) as (h' & rs & Hrun & Hfst & _ & _ & Hres);
    [done|done|done|rewrite Hperm; apply NoDup_seq| |].
  { rewrite Hperm. apply Forall_forall. intros i Hi%elem_of_seq. lia. }
  exists h', rs. split; [done|]. split; [done|]. intros i key g Hreq. apply Hres; [|done].
  rewrite Hperm. apply elem_of_seq. apply lookup_lt_Some in Hreq. lia.
Qed.

Definition fx_reqs : list (bytes * OpGet) :=
  [([7], mkOpGet 0 0 [iov fx_region 8 4]); ([7], mkOpGet 1 0 [iov fx_region 12 4])].

Lemma fx_owned1 i : owned_slot fx_st1 [7] i.
Proof.
  intros o s r Ho Hs Hr.
  assert (Forall (Forall (λ r, is_owned r = true)) (obj_slots o)) as Hall.
  { revert Ho. vm_compute. intros [= <-]. repeat constructor. }
  rewrite Forall_forall in Hall. specialize (Hall s (list_elem_of_lookup_2 _ _ _ Hs)).
  rewrite Forall_forall in Hall. by apply Hall.
Qed.

Lemma get_many_any_order_witness :
  ∃ h' rs, get_many fx_store fx_reqs [1%nat; 0%nat] (mkWorld fx_heap fx_st1 2)
             = Ret (mkWorld h' fx_st1 2, rs) ∧ rs.*1 = [1%nat; 0%nat].
Proof.
  destruct (get_many_any_order fx_inner fx_st1 2 fx_reqs [1%nat; 0%nat] fx_heap (wf_loose _ _ fx_wf1))
    as (h' & rs & Hrun & Hfst & _).
  - repeat constructor; try (apply (bool_decide_unpack _); by vm_compute); try done; apply fx_owned1.
  - intros i j x y Hne Hx Hy v a Hv Ha w Hw.
    destruct i as [|[|i]], j as [|[|j]]; simplify_eq/=; apply list_elem_of_singleton in Hv, Hw; subst;
      revert Ha; unfold iov_as_ptr, wrapping_add; simpl; rewrite !Z.mod_small by lia; lia.
  - apply perm_swap.
  - exists h', rs. split; [exact Hrun|exact Hfst].
Defined.
