(* ===== verification/Pinned.v ===== *)
(** * Pinned host pools: [pegastore-cuda/src/pinned.rs]

    The free-list allocator of [PinnedPool].  Offsets and lengths are [usize];
    the list is kept sorted by offset.  Mapping, first touch and DMA
    registration of the pages are outside the model (they do not touch the
    list).  [mem] of a pool is [0, total). *)

From S2P Require Import Prelude.

Definition ALIGN : usize := Z.shiftl 2 20.

Abbreviation frag := (usize * usize)%type.

(** [usize::div_ceil]. *)
Definition div_ceil (a b : usize) : usize :=
  let d := a / b in if 0 <? a mod b then d + 1 else d.

Record PinnedBuf : Type := mkPinnedBuf {
  buf_off : usize;
  buf_reserved : usize;
  buf_len : usize;
}.

(** [Vec::insert]. *)
Definition vec_insert {A} (i : nat) (x : A) (l : list A) : list A := take i l ++ x :: drop i l.

(** [slice::partition_point] on a partitioned slice. *)
Definition partition_point {A} (p : A → bool) (l : list A) : nat := length (take_while p l).

Section Pinned.
Context `{BuildProfile}.

Definition align_up (n : usize) : outcome usize := u64_wrap (div_ceil n ALIGN * ALIGN).

(** The free list and length of [PinnedPool::new]. *)
Definition pool_new (bytes : usize) : outcome (usize * list frag) :=
  len ← align_up bytes; Ret (len, [(0, len)]).

Definition free_bytes (free : list frag) : Z := zsum (free.*2).

Definition largest_free (free : list frag) : usize := foldr Z.max 0 (free.*2).

Definition alloc (free : list frag) (bytes : usize) : outcome (option (list frag * PinnedBuf)) :=
  need ← align_up bytes;
  match position (λ f, need <=? f.2) free with
  | None => Ret None
  | Some i =>
      '(off, l) ← unwrap (free !! i);
      free ← (if l =? need then Ret (delete i free)
              else o' ← u64_add off need; l' ← u64_sub l need; Ret (<[i := (o', l')]> free));
      Ret (Some (free, mkPinnedBuf off need bytes))
  end.

(** Merge [free[i]] with [free[i + 1]] when they touch. *)
Definition coalesce (free : list frag) (i : nat) : outcome (list frag) :=
  match free !! i, free !! S i with
  | Some (o, l), Some (o', l') =>
      e ← u64_add o l;
      if e =? o' then l2 ← u64_add l l'; Ret (delete (S i) (<[i := (o, l2)]> free)) else Ret free
  | _, _ => Ret free
  end.

Definition release (free : list frag) (off len : usize) : outcome (list frag) :=
  let i := partition_point (λ f, f.1 <? off) free in
  let free := vec_insert i (off, len) free in
  free ← coalesce free i;
  match i with O => Ret free | S i' => coalesce free i' end.

(** [Drop for PinnedBuf]. *)
Definition drop_buf (free : list frag) (b : PinnedBuf) : outcome (list frag) :=
  release free (buf_off b) (buf_reserved b).
End Pinned.

(** ** The free list *)

(** Sorted, non-empty, separated fragments starting at or after [lo]. *)
Fixpoint gaps (lo : Z) (free : list frag) : Prop :=
  match free with
  | [] => True
  | f :: free => lo <= f.1 ∧ 0 < f.2 ∧ gaps (f.1 + f.2 + 1) free
  end.

(** The least offset a fragment after [free] may have. *)
Definition past (lo : Z) (free : list frag) : Z :=
  from_option (λ f, f.1 + f.2 + 1) lo (last free).

Lemma gaps_app lo l1 l2 : gaps lo (l1 ++ l2) ↔ gaps lo l1 ∧ gaps (past lo l1) l2.
Proof.
  revert lo. induction l1 as [|f l1 IH]; intros lo; simpl; [unfold past; simpl; tauto|].
  rewrite IH. unfold past. rewrite last_cons. destruct (last l1); simpl; tauto.
Qed.

Lemma past_snoc lo l f : past lo (l ++ [f]) = f.1 + f.2 + 1.
Proof. unfold past. by rewrite last_snoc. Qed.

Lemma gaps_mono lo lo' l : lo' <= lo → gaps lo l → gaps lo' l.
Proof. destruct l as [|f l]; simpl; [done|]. intros ? (? & ? & ?). split; [lia|done]. Qed.

Lemma gaps_past lo l : gaps lo l → l ≠ [] → lo < past lo l.
Proof.
  revert lo. induction l as [|f l IH]; intros lo Hg Hne; [done|].
  destruct Hg as (H1 & H2 & H3). unfold past. rewrite last_cons.
  destruct l as [|g l]; simpl; [lia|]. specialize (IH _ H3 ltac:(done)). unfold past in IH.
  destruct (last (g :: l)); simpl in *; lia.
Qed.

Definition end_le (hi : Z) (f : frag) : Prop := f.1 + f.2 <= hi.

(** Separated fragments inside [lo, hi) leave at least one byte per gap. *)
Lemma gaps_sum lo hi free :
  gaps lo free → Forall (end_le hi) free → free ≠ [] →
  free_bytes free + Z.of_nat (length free) - 1 <= hi - lo.
Proof.
  unfold free_bytes. revert lo. induction free as [|f free IH]; intros lo Hg He Hne; [done|].
  apply Forall_cons in He as [Hf He]. unfold end_le in Hf. destruct Hg as (H1 & H2 & H3).
  csimpl. rewrite zsum_cons. destruct free as [|g free]; [csimpl; rewrite zsum_nil; lia|].
  specialize (IH _ H3 He ltac:(done)). rewrite length_cons in *. lia.
Qed.

Definition frags_disjoint (f g : frag) : Prop := f.1 + f.2 <= g.1 ∨ g.1 + g.2 <= f.1.

Lemma gaps_after lo l f : gaps lo l → f ∈ l → lo <= f.1 ∧ 0 < f.2 ∧ f.1 + f.2 < past lo l.
Proof.
  intros Hg Hf. apply list_elem_of_split in Hf as (l1 & l2 & ->).
  apply gaps_app in Hg as [Hg1 (H1 & H2 & H3)].
  assert (lo <= past lo l1).
  { destruct l1; [unfold past; simpl; lia|]. apply Z.lt_le_incl, gaps_past; done. }
  split; [lia|]. split; [done|].
  unfold past at 1. rewrite last_app, last_cons.
  destruct (last l2) as [g|] eqn:Hl; simpl; [|lia].
  assert (l2 ≠ []) as Hne by (by intros ->). pose proof (gaps_past _ _ H3 Hne) as Hp.
  unfold past in Hp. rewrite Hl in Hp. simpl in Hp. lia.
Qed.

(** ** The pool invariant *)

Definition buf_frag (b : PinnedBuf) : frag := (buf_off b, buf_reserved b).

Definition aligned (f : frag) : Prop := (ALIGN | f.1) ∧ (ALIGN | f.2).

(** Free fragments are sorted, separated and inside the pool; outstanding
    buffers are pairwise disjoint and disjoint from them; together they have
    the pool's size. *)
Record pool_ok (total : Z) (free : list frag) (out : list PinnedBuf) : Prop := mkPoolOk {
  po_total : total <= U64_MAX;
  po_gaps : gaps 0 free;
  po_end : Forall (end_le total) free;
  po_out : Forall (λ b, 0 <= buf_off b ∧ 0 < buf_reserved b ∧ end_le total (buf_frag b)) out;
  po_disjoint : ForallOrdPairs frags_disjoint (buf_frag <$> out);
  po_apart f b : f ∈ free → b ∈ out → frags_disjoint f (buf_frag b);
  po_sum : free_bytes free + zsum (buf_reserved <$> out) = total;
  po_aligned : Forall aligned (free ++ (buf_frag <$> out));
}.

Lemma div_ceil_spec a b : 0 < b → 0 <= a → a <= div_ceil a b * b < a + b.
Proof.
  intros Hb Ha. unfold div_ceil. pose proof (Z.div_mod a b ltac:(lia)) as Hd.
  pose proof (Z.mod_pos_bound a b Hb). destruct (Z.ltb_spec 0 (a mod b)); nia.
Qed.

Lemma align_up_ok `{BuildProfile} n :
  0 <= n → n + ALIGN <= U64_MAX →
  ∃ need, align_up n = Ret need ∧ n <= need < n + ALIGN ∧ (ALIGN | need).
Proof.
  intros H0 Hle. pose proof (div_ceil_spec n ALIGN ltac:(done) H0) as Hd.
  exists (div_ceil n ALIGN * ALIGN). unfold align_up. rewrite u64_wrap_id by (split; lia).
  split; [done|]. split; [lia|]. by exists (div_ceil n ALIGN).
Qed.

Lemma position_Some {A} (p : A → bool) l i :
  position p l = Some i →
  ∃ l1 x l2, l = l1 ++ x :: l2 ∧ length l1 = i ∧ p x = true ∧ Forall (λ y, p y = false) l1.
Proof.
  revert i. induction l as [|x l IH]; intros i Hi; [done|]. simpl in Hi.
  destruct (p x) eqn:Hp; [simplify_eq; by exists [], x, l|].
  apply fmap_Some in Hi as (j & Hj & ->). destruct (IH j Hj) as (l1 & y & l2 & -> & <- & Hy & Hl).
  exists (x :: l1), y, l2. split_and!; try done. by constructor.
Qed.

Lemma position_None {A} (p : A → bool) l : position p l = None → Forall (λ y, p y = false) l.
Proof.
  induction l as [|x l IH]; [done|]. simpl. destruct (p x) eqn:Hp; [done|].
  intros Hn%fmap_None. constructor; auto.
Qed.

Lemma delete_middle {A} (l1 : list A) x l2 : delete (length l1) (l1 ++ x :: l2) = l1 ++ l2.
Proof. induction l1; simpl; [done|]. f_equal. done. Qed.

Lemma insert_middle {A} (l1 : list A) x y l2 : <[length l1 := y]> (l1 ++ x :: l2) = l1 ++ y :: l2.
Proof. by rewrite insert_app_r_alt, Nat.sub_diag by done. Qed.

(** The list [alloc] leaves when it takes [need] bytes of a fragment. *)
Definition shrink_frag (f : frag) (need : Z) : list frag :=
  if f.2 =? need then [] else [(f.1 + need, f.2 - need)].

Lemma alloc_spec `{BuildProfile} free bytes total out :
  pool_ok total free out → 0 <= bytes → bytes + ALIGN <= U64_MAX →
  ∃ need, bytes <= need < bytes + ALIGN ∧ (ALIGN | need) ∧
    match alloc free bytes with
    | Ret None => Forall (λ f, f.2 < need) free
    | Ret (Some (free', b)) =>
        ∃ l1 f l2, free = l1 ++ f :: l2 ∧ Forall (λ g, g.2 < need) l1 ∧ need <= f.2 ∧
          free' = l1 ++ shrink_frag f need ++ l2 ∧ b = mkPinnedBuf f.1 need bytes
    | _ => False
    end.
Proof.
  intros Hok H0 Hle. destruct (align_up_ok bytes H0 Hle) as (need & Hn & Hb & Hd).
  exists need. split; [done|]. split; [done|]. unfold alloc. rewrite Hn. simpl.
  destruct (position _ free) as [i|] eqn:Hpos.
  2:{ eapply Forall_impl; [by apply position_None|]. intros f. simpl. by intros ?%Z.leb_gt. }
  apply position_Some in Hpos as (l1 & [off l] & l2 & -> & <- & Hfit & Hl1).
  apply Z.leb_le in Hfit. simpl in Hfit. rewrite list_lookup_middle by done. simpl.
  assert (Forall (λ g : frag, g.2 < need) l1) as Hl1'.
  { eapply Forall_impl; [exact Hl1|]. intros f. simpl. by intros ?%Z.leb_gt. }
  pose proof (gaps_after _ _ (off, l) (po_gaps _ _ _ Hok) ltac:(apply elem_of_app; right; left))
    as (Hlo & Hpos & _). simpl in Hlo, Hpos.
  pose proof (po_end _ _ _ Hok) as [_ [He _]%Forall_cons]%Forall_app.
  unfold end_le in He. simpl in He. pose proof (po_total _ _ _ Hok).
  unfold shrink_frag. simpl. destruct (Z.eqb_spec l need) as [->|Hne]; simpl.
  - rewrite delete_middle. exists l1, (off, need), l2. simpl. rewrite Z.eqb_refl. by split_and!.
  - rewrite u64_add_ok, u64_sub_ok by (split; lia). simpl. rewrite insert_middle.
    exists l1, (off, l), l2. simpl. apply Z.eqb_neq in Hne. rewrite Hne. by split_and!.
Qed.

Lemma free_bytes_app l1 l2 : free_bytes (l1 ++ l2) = free_bytes l1 + free_bytes l2.
Proof. unfold free_bytes. by rewrite fmap_app, zsum_app. Qed.

Lemma free_bytes_cons f l : free_bytes (f :: l) = f.2 + free_bytes l.
Proof. done. Qed.

Lemma free_bytes_shrink f need : free_bytes (shrink_frag f need) = f.2 - need.
Proof.
  unfold shrink_frag, free_bytes. destruct (Z.eqb_spec f.2 need); csimpl;
    rewrite ?zsum_cons, zsum_nil; lia.
Qed.

Lemma gaps_shrink lo f need l :
  gaps lo (f :: l) → 0 < need <= f.2 → gaps lo (shrink_frag f need ++ l).
Proof.
  intros (H1 & H2 & H3) Hn. unfold shrink_frag. destruct (Z.eqb_spec f.2 need); simpl.
  - eapply gaps_mono; [|done]. lia.
  - split; [lia|]. split; [lia|]. eapply gaps_mono; [|done]. lia.
Qed.

(** Fragments of the shrunk list lie inside old fragments, clear of the new buffer. *)
Lemma elem_of_shrunk lo l1 f l2 need g :
  gaps lo (l1 ++ f :: l2) → 0 < need <= f.2 → g ∈ l1 ++ shrink_frag f need ++ l2 →
  frags_disjoint g (f.1, need) ∧
  ∃ g0, g0 ∈ l1 ++ f :: l2 ∧ g0.1 <= g.1 ∧ g.1 + g.2 <= g0.1 + g0.2.
Proof.
  intros [Hg1 (H1 & H2 & H3)]%gaps_app Hn Hg. unfold frags_disjoint. simpl.
  apply elem_of_app in Hg as [Hg|[Hg|Hg]%elem_of_app].
  - destruct (gaps_after _ _ _ Hg1 Hg) as (_ & _ & Hlt). split; [left; lia|].
    exists g. split; [apply elem_of_app; by left|lia].
  - unfold shrink_frag in Hg. destruct (Z.eqb_spec f.2 need); [by apply elem_of_nil in Hg|].
    apply list_elem_of_singleton in Hg as ->. simpl. split; [right; lia|].
    exists f. split; [apply elem_of_app; right; left|lia].
  - destruct (gaps_after _ _ _ H3 Hg) as (Hge & _ & _). split; [right; lia|].
    exists g. split; [apply elem_of_app; right; by right|lia].
Qed.

Lemma frags_disjoint_sub g g0 f :
  g0.1 <= g.1 → g.1 + g.2 <= g0.1 + g0.2 → frags_disjoint g0 f → frags_disjoint g f.
Proof. unfold frags_disjoint. lia. Qed.

Lemma pool_ok_alloc total l1 f l2 out need bytes :
  pool_ok total (l1 ++ f :: l2) out → 0 < need <= f.2 → (ALIGN | need) →
  pool_ok total (l1 ++ shrink_frag f need ++ l2) (mkPinnedBuf f.1 need bytes :: out).
Proof.
  intros [Ht Hg He Ho Hd Ha Hs Hal] Hn Hdiv.
  assert (f ∈ l1 ++ f :: l2) as Hf by (apply elem_of_app; right; left).
  destruct (gaps_after _ _ _ Hg Hf) as (Hlo & Hpos & _).
  rewrite Forall_forall in He. pose proof (He f Hf) as Hef. unfold end_le in Hef.
  constructor; [done|..].
  - apply gaps_app in Hg as [Hg1 Hg2]. apply gaps_app. split; [done|]. by apply gaps_shrink.
  - apply Forall_forall. intros g Hg'.
    destruct (elem_of_shrunk _ _ _ _ _ _ Hg Hn Hg') as (_ & g0 & Hg0 & _ & Hle).
    specialize (He g0 Hg0). unfold end_le in *. lia.
  - constructor; [|done]. unfold end_le. simpl. lia.
  - csimpl. constructor; [|done]. apply Forall_fmap, Forall_forall. intros b Hb. simpl.
    specialize (Ha f b Hf Hb). eapply frags_disjoint_sub; [| |exact Ha]; simpl; lia.
  - intros g b Hg' [->|Hb]%elem_of_cons;
      destruct (elem_of_shrunk _ _ _ _ _ _ Hg Hn Hg') as (Hdis & g0 & Hg0 & H1 & H2); [done|].
    eapply frags_disjoint_sub; [done|done|]. by apply Ha.
  - revert Hs. csimpl. rewrite zsum_cons, !free_bytes_app, free_bytes_cons.
    rewrite free_bytes_shrink. simpl. lia.
  - rewrite !Forall_app, Forall_cons in Hal. destruct Hal as ((Hl1 & [Hff1 Hff2] & Hl2) & Hout).
    csimpl. rewrite !Forall_app, Forall_cons. split_and!; try done. unfold shrink_frag.
    destruct (Z.eqb_spec f.2 need); [constructor|]. constructor; [|constructor].
    split; simpl; [by apply Z.divide_add_r|by apply Z.divide_sub_r].
Qed.

(** ** Release *)

(** [coalesce] without the overflow checks. *)
Definition join (free : list frag) (i : nat) : list frag :=
  match free !! i, free !! S i with
  | Some f, Some g =>
      if f.1 + f.2 =? g.1 then delete (S i) (<[i := (f.1, f.2 + g.2)]> free) else free
  | _, _ => free
  end.

Definition merge2 (f g : frag) : list frag :=
  if f.1 + f.2 =? g.1 then [(f.1, f.2 + g.2)] else [f; g].

Lemma join_middle l1 f g l2 : join (l1 ++ f :: g :: l2) (length l1) = l1 ++ merge2 f g ++ l2.
Proof.
  unfold join, merge2. rewrite list_lookup_middle by done.
  rewrite (cons_middle f l1 (g :: l2)), (assoc_L (++)).
  rewrite list_lookup_middle by (rewrite length_app; simpl; lia).
  rewrite <- (assoc_L (++)). simpl.
  destruct (f.1 + f.2 =? g.1); [|done]. rewrite insert_middle.
  rewrite (cons_middle _ l1 (g :: l2)), (assoc_L (++)).
  replace (S (length l1)) with (length (l1 ++ [(f.1, f.2 + g.2)])) by (rewrite length_app; simpl; lia).
  by rewrite delete_middle, <- (assoc_L (++)).
Qed.

Lemma join_last l1 f : join (l1 ++ [f]) (length l1) = l1 ++ [f].
Proof.
  unfold join. rewrite list_lookup_middle by done.
  rewrite (lookup_ge_None_2 _ (S (length l1))); [done|]. rewrite length_app. simpl. lia.
Qed.

(** A [join] leaves the list alone or merges two neighbours. *)
Lemma join_cases free i :
  join free i = free ∨
  ∃ l1 f g l2, free = l1 ++ f :: g :: l2 ∧ f.1 + f.2 = g.1 ∧
               join free i = l1 ++ (f.1, f.2 + g.2) :: l2.
Proof.
  destruct (free !! i) as [f|] eqn:Hf; [|left; unfold join; by rewrite Hf].
  destruct (free !! S i) as [g|] eqn:Hg; [|left; unfold join; by rewrite Hf, Hg].
  pose proof (take_drop_middle _ _ _ Hf) as Hsplit. rewrite (drop_S _ _ _ Hg) in Hsplit.
  assert (i = length (take i free)) as Hi.
  { rewrite length_take. apply lookup_lt_Some in Hf. lia. }
  pose proof (join_middle (take i free) f g (drop (S (S i)) free)) as Hj. rewrite Hsplit, <- Hi in Hj.
  rewrite Hj. unfold merge2. destruct (Z.eqb_spec (f.1 + f.2) g.1) as [He|]; [right|by left].
  by exists (take i free), f, g, (drop (S (S i)) free).
Qed.

(** Properties of fragments that survive merging hold of the joined list. *)
Lemma join_Forall (P : frag → Prop) free i :
  (∀ f g, P f → P g → f.1 + f.2 = g.1 → P (f.1, f.2 + g.2)) →
  Forall P free → Forall P (join free i).
Proof.
  intros HP Hall. destruct (join_cases free i) as [->|(l1 & f & g & l2 & -> & He & ->)]; [done|].
  apply Forall_app in Hall as [Hl1 [Hf [Hg Hl2]%Forall_cons]%Forall_cons].
  apply Forall_app. split; [done|]. constructor; auto.
Qed.

Lemma join_bytes free i : free_bytes (join free i) = free_bytes free.
Proof.
  destruct (join_cases free i) as [->|(l1 & f & g & l2 & -> & He & ->)]; [done|].
  rewrite !free_bytes_app, !free_bytes_cons. simpl. lia.
Qed.

Definition frag_in (total : Z) (f : frag) : Prop := 0 <= f.1 ∧ 0 < f.2 ∧ end_le total f.

Lemma frag_in_merge total f g :
  frag_in total f → frag_in total g → f.1 + f.2 = g.1 → frag_in total (f.1, f.2 + g.2).
Proof. unfold frag_in, end_le. simpl. lia. Qed.

Lemma coalesce_join `{BuildProfile} total free i :
  total <= U64_MAX → Forall (frag_in total) free → coalesce free i = Ret (join free i).
Proof.
  intros Ht Hall. unfold coalesce, join.
  destruct (free !! i) as [[o l]|] eqn:Hf; [|done]. destruct (free !! S i) as [[o' l']|] eqn:Hg; [|done].
  pose proof (Forall_lookup_1 _ _ _ _ Hall Hf) as (H1 & H2 & H3).
  pose proof (Forall_lookup_1 _ _ _ _ Hall Hg) as (G1 & G2 & G3).
  unfold end_le in *. simpl in *. rewrite (u64_add_ok o l) by (split; lia). simpl.
  destruct (Z.eqb_spec (o + l) o'); [|done]. rewrite u64_add_ok by (split; lia). done.
Qed.

Definition inserted (l1 : list frag) (f : frag) (l2 : list frag) : list frag :=
  let l := join (l1 ++ f :: l2) (length l1) in
  match length l1 with O => l | S i => join l i end.

Lemma release_inserted `{BuildProfile} total l1 l2 off len :
  total <= U64_MAX → Forall (frag_in total) (l1 ++ (off, len) :: l2) →
  Forall (λ f, f.1 < off) l1 → (∀ f, head l2 = Some f → off <= f.1) →
  release (l1 ++ l2) off len = Ret (inserted l1 (off, len) l2).
Proof.
  intros Ht Hall H1 H2. unfold release.
  assert (partition_point (λ f, f.1 <? off) (l1 ++ l2) = length l1) as ->.
  { unfold partition_point. clear Hall. induction H1 as [|f l1 Hf H1 IH]; simpl.
    - destruct l2 as [|f l2]; [done|]. simpl. specialize (H2 f eq_refl).
      replace (f.1 <? off) with false by (symmetry; apply Z.ltb_ge; lia). done.
    - apply Z.ltb_lt in Hf. rewrite Hf. simpl. by rewrite IH. }
  unfold vec_insert. rewrite take_app_length, drop_app_length.
  rewrite (coalesce_join total) by done. simpl. unfold inserted.
  destruct (length l1) as [|i]; [done|]. apply (coalesce_join total); [done|].
  apply join_Forall; [apply frag_in_merge|done].
Qed.

Lemma join_head_gaps l1 f l2 :
  gaps (f.1 + f.2) l2 → 0 < f.2 →
  ∃ m l2', join (l1 ++ f :: l2) (length l1) = l1 ++ m :: l2' ∧ m.1 = f.1 ∧ f.2 <= m.2 ∧
           gaps (m.1 + m.2 + 1) l2'.
Proof.
  intros Hg Hf. destruct l2 as [|g l2].
  { exists f, []. rewrite join_last. split; [done|]. split; [done|]. split; [lia|done]. }
  destruct Hg as (G1 & G2 & G3). rewrite join_middle. unfold merge2.
  destruct (Z.eqb_spec (f.1 + f.2) g.1) as [He|Hne]; simpl.
  - exists (f.1, f.2 + g.2), l2. split; [done|]. simpl. split; [done|]. split; [lia|].
    replace (f.1 + (f.2 + g.2)) with (g.1 + g.2) by lia. done.
  - exists f, (g :: l2). split; [done|]. split; [done|]. split; [lia|]. simpl. split_and!; [lia|done|done].
Qed.

Lemma inserted_gaps l1 f l2 :
  gaps 0 l1 → past 0 l1 <= f.1 + 1 → 0 <= f.1 → 0 < f.2 → gaps (f.1 + f.2) l2 →
  gaps 0 (inserted l1 f l2).
Proof.
  intros Hg1 Hp H0 Hf Hg2. unfold inserted.
  destruct (join_head_gaps l1 f l2 Hg2 Hf) as (m & l2' & -> & Hm1 & Hm2 & Hg).
  destruct l1 as [|p l1 _] using rev_ind; simpl; [split_and!; [lia|lia|done]|].
  rewrite length_app. simpl. rewrite Nat.add_1_r, <- (assoc_L (++)). simpl. rewrite join_middle.
  rewrite past_snoc in Hp. apply gaps_app in Hg1 as [Hg1 (P1 & P2 & _)].
  apply gaps_app. split; [done|]. unfold merge2.
  destruct (Z.eqb_spec (p.1 + p.2) m.1) as [He|Hne]; simpl.
  - split; [done|]. split; [lia|]. replace (p.1 + (p.2 + m.2)) with (m.1 + m.2) by lia. done.
  - split; [done|]. split; [done|]. split; [lia|]. split; [lia|done].
Qed.

Lemma inserted_Forall (P : frag → Prop) l1 f l2 :
  (∀ f g, P f → P g → f.1 + f.2 = g.1 → P (f.1, f.2 + g.2)) →
  Forall P (l1 ++ f :: l2) → Forall P (inserted l1 f l2).
Proof.
  intros HP Hall. unfold inserted. destruct (length l1); by repeat apply join_Forall.
Qed.

Lemma inserted_bytes l1 f l2 : free_bytes (inserted l1 f l2) = f.2 + free_bytes (l1 ++ l2).
Proof.
  unfold inserted. destruct (length l1); rewrite !join_bytes, !free_bytes_app, free_bytes_cons; lia.
Qed.

Lemma take_while_app {A} (p : A → bool) l :
  ∃ l2, l = take_while p l ++ l2 ∧ Forall (λ x, p x = true) (take_while p l) ∧
        ∀ x, head l2 = Some x → p x = false.
Proof.
  induction l as [|x l (l2 & Hl & Ht & Hh)]; [by exists []|]. simpl.
  destruct (p x) eqn:Hp; [exists l2; split; [simpl; by f_equal|split; [by constructor|done]]|].
  exists (x :: l). split; [done|]. split; [constructor|]. by intros ? [= <-].
Qed.

Lemma FOP_app {A} (R : A → A → Prop) l1 l2 :
  ForallOrdPairs R (l1 ++ l2) ↔
  ForallOrdPairs R l1 ∧ ForallOrdPairs R l2 ∧ Forall (λ x, Forall (R x) l2) l1.
Proof.
  induction l1 as [|x l1 IH]; simpl.
  { split; [intros; split_and!; [constructor|done|constructor]|tauto]. }
  split.
  - intros Hx. inversion Hx as [|? ? Hall Hrest]; subst. apply Forall_app in Hall as [H1 H2].
    apply IH in Hrest as (? & ? & ?). split_and!; [by constructor|done|by constructor].
  - intros (H1 & H2 & [Hx Hall]%Forall_cons). inversion H1; subst. constructor.
    + by apply Forall_app.
    + apply IH. by split_and!.
Qed.

(** Where a returned range goes: between the fragments before and after it. *)
Lemma release_split total free out1 b out2 :
  pool_ok total free (out1 ++ b :: out2) →
  ∃ l1 l2, free = l1 ++ l2 ∧ Forall (λ f, f.1 < buf_off b) l1 ∧
    (∀ f, head l2 = Some f → buf_off b <= f.1) ∧ gaps 0 l1 ∧ past 0 l1 <= buf_off b + 1 ∧
    gaps (buf_off b + buf_reserved b) l2.
Proof.
  intros [Ht Hg He Ho Hd Ha Hs Hal].
  destruct (take_while_app (λ f : frag, f.1 <? buf_off b) free) as (l2 & Hsplit & H1 & H2).
  set (l1 := take_while _ _) in *. clearbody l1. subst free.
  apply Forall_app in Ho as [_ [(Hb0 & Hbr & _) _]%Forall_cons].
  assert (∀ f, f ∈ l1 ++ l2 → frags_disjoint f (buf_frag b)) as Hab.
  { intros f Hf. apply Ha; [done|]. apply elem_of_app. right. left. }
  apply gaps_app in Hg as [Hg1 Hg2].
  assert (∀ f, head l2 = Some f → buf_off b <= f.1) as H2'.
  { intros f Hf. apply H2 in Hf. simpl in Hf. by apply Z.ltb_ge in Hf. }
  exists l1, l2. split; [done|]. split.
  { eapply Forall_impl; [exact H1|]. intros f. by apply Z.ltb_lt. }
  split; [done|]. split; [done|]. split.
  - unfold past. destruct (last l1) as [p|] eqn:Hp; simpl; [|lia].
    apply last_Some in Hp as (l & ->). apply Forall_app in H1 as [_ [Hlt%Z.ltb_lt _]%Forall_cons].
    specialize (Hab p ltac:(apply elem_of_app; left; apply elem_of_app; right; left)).
    apply gaps_app in Hg1 as [_ (_ & Hp0 & _)]. destruct Hab as [?|?]; simpl in *; lia.
  - destruct l2 as [|g l2]; [done|]. specialize (H2' g eq_refl). destruct Hg2 as (G1 & G2 & G3).
    specialize (Hab g ltac:(apply elem_of_app; right; left)). simpl. split_and!; [|done|done].
    destruct Hab as [?|?]; simpl in *; lia.
Qed.

Lemma gaps_frag_in total free : gaps 0 free → Forall (end_le total) free → Forall (frag_in total) free.
Proof.
  intros Hg He. rewrite Forall_forall in He |- *. intros f Hf.
  destruct (gaps_after 0 free f Hg Hf) as (? & ? & _). split_and!; [done|done|by apply He].
Qed.

(** An outstanding buffer is disjoint from the others. *)
Lemma bufs_apart total out1 b out2 :
  Forall (λ b, 0 <= buf_off b ∧ 0 < buf_reserved b ∧ end_le total (buf_frag b)) (out1 ++ b :: out2) →
  ForallOrdPairs frags_disjoint (buf_frag <$> out1 ++ b :: out2) →
  ∀ x, x ∈ out1 ++ out2 → 0 < buf_reserved x ∧ frags_disjoint (buf_frag b) (buf_frag x).
Proof.
  intros [Ho1 [_ Ho2]%Forall_cons]%Forall_app. rewrite fmap_app, fmap_cons.
  intros (_ & Hd2 & Hd12)%FOP_app. rewrite Forall_forall in Ho1, Ho2.
  intros x [Hx|Hx]%elem_of_app; split; [by apply Ho1| |by apply Ho2|].
  - rewrite Forall_fmap, Forall_forall in Hd12. specialize (Hd12 x Hx). simpl in Hd12.
    apply Forall_cons in Hd12 as [Hd' _]. unfold frags_disjoint in *. lia.
  - inversion Hd2 as [|? ? Hbd _]; subst. rewrite Forall_fmap, Forall_forall in Hbd. by apply Hbd.
Qed.

Lemma drop_spec `{BuildProfile} total free out1 b out2 :
  pool_ok total free (out1 ++ b :: out2) →
  ∃ free', drop_buf free b = Ret free' ∧ pool_ok total free' (out1 ++ out2).
Proof.
  intros Hok. destruct (release_split _ _ _ _ _ Hok) as (l1 & l2 & -> & Hl1 & Hl2 & Hg1 & Hp & Hg2).
  destruct Hok as [Ht Hg He Ho Hd Ha Hs Hal].
  pose proof Ho as [Ho1 [(Hb0 & Hbr & Hbe) Ho2]%Forall_cons]%Forall_app.
  assert (Forall (frag_in total) (l1 ++ buf_frag b :: l2)) as Hin.
  { pose proof (gaps_frag_in total (l1 ++ l2) Hg He) as [Hi1 Hi2]%Forall_app.
    apply Forall_app. split; [done|]. by constructor. }
  exists (inserted l1 (buf_frag b) l2). split; [by eapply release_inserted|].
  rewrite fmap_app, fmap_cons in Hal. pose proof Hd as Hd'. rewrite fmap_app, fmap_cons in Hd'.
  apply FOP_app in Hd' as (Hd1 & Hd2 & Hd12).
  assert (Forall (frags_disjoint (buf_frag b)) (buf_frag <$> out2) ∧
          ForallOrdPairs frags_disjoint (buf_frag <$> out2)) as [Hbd Hd2'] by (by inversion Hd2).
  pose proof (bufs_apart total out1 b out2 Ho Hd) as Hx.
  constructor; [done|by apply inserted_gaps|..].
  - eapply Forall_impl; [apply (inserted_Forall (frag_in total)); [apply frag_in_merge|done]|].
    by intros f (_ & _ & ?).
  - by apply Forall_app.
  - rewrite fmap_app. apply FOP_app. split_and!; [done|done|].
    eapply Forall_impl; [exact Hd12|]. by intros f [_ ?]%Forall_cons.
  - intros f x Hf Hxin. revert f Hf. apply Forall_forall.
    eapply Forall_impl; [apply (inserted_Forall (λ f, 0 < f.2 ∧ frags_disjoint f (buf_frag x)))|];
      [|  |by intros f []].
    + destruct (Hx x Hxin) as [Hxr _]. unfold frags_disjoint. simpl. lia.
    + destruct (Hx x Hxin) as [Hxr Hxb]. rewrite Forall_forall in Hin |- *. intros f Hf.
      split; [by apply Hin|]. rewrite elem_of_app, elem_of_cons in Hf.
      assert (x ∈ out1 ++ b :: out2) by (rewrite elem_of_app, elem_of_cons in *; tauto).
      destruct Hf as [?|[->|?]]; [|done|]; (apply Ha; [apply elem_of_app; auto|done]).
  - rewrite inserted_bytes. revert Hs. rewrite !fmap_app, fmap_cons, !zsum_app, zsum_cons. simpl. lia.
  - rewrite fmap_app. rewrite !Forall_app, Forall_cons in Hal. destruct Hal as ((A1 & A2) & A3 & A4 & A5).
    rewrite !Forall_app. split_and!; [|done|done]. apply inserted_Forall.
    + intros f g [F1 F2] [G1 G2] _. split; simpl; [done|by apply Z.divide_add_r].
    + apply Forall_app. split; [done|]. by constructor.
Qed.

(** ** Executions of a pool *)

Section Pool.
Context `{BuildProfile}.

(** One allocation of at least one byte, or one buffer dropped.  [alloc] also
    accepts zero bytes; the free list may then keep an empty fragment
    ([zero_length_alloc_fragments]), so those requests are not steps here. *)
Inductive pool_step : list frag * list PinnedBuf → list frag * list PinnedBuf → Prop :=
| pool_step_alloc free out bytes free' b :
    0 < bytes → bytes + ALIGN <= U64_MAX →
    alloc free bytes = Ret (Some (free', b)) → pool_step (free, out) (free', b :: out)
| pool_step_drop free out1 b out2 free' :
    drop_buf free b = Ret free' → pool_step (free, out1 ++ b :: out2) (free', out1 ++ out2).

Lemma pool_step_ok total p p' : pool_step p p' → pool_ok total p.1 p.2 → pool_ok total p'.1 p'.2.
Proof.
  intros Hs Hok. destruct Hs as [free out bytes free' b Hb Hle Ha|free out1 b out2 free' Hd]; simpl in *.
  - destruct (alloc_spec free bytes total out Hok ltac:(lia) Hle) as (need & Hn & Hdiv & Hres).
    rewrite Ha in Hres. destruct Hres as (l1 & f & l2 & -> & _ & Hfit & -> & ->).
    apply pool_ok_alloc; [done|lia|done].
  - destruct (drop_spec _ _ _ _ _ Hok) as (free1 & Hd' & Hok'). congruence.
Qed.

Lemma pool_ok_init total :
  0 < total <= U64_MAX → (ALIGN | total) → pool_ok total [(0, total)] [].
Proof.
  intros Ht Hd. constructor; simpl; try done.
  - lia.
  - split; [lia|]. split; [lia|done].
  - constructor; [|done]. unfold end_le. simpl. lia.
  - constructor.
  - by intros f b _ ?%elem_of_nil.
  - unfold free_bytes. csimpl. rewrite zsum_cons, zsum_nil. lia.
  - repeat constructor; simpl; [apply Z.divide_0_r|done].
Qed.

Lemma pool_reachable_ok total free out :
  0 < total <= U64_MAX → (ALIGN | total) →
  rtc pool_step ([(0, total)], []) (free, out) → pool_ok total free out.
Proof.
  intros Ht Hd Hr. cut (∀ p p', rtc pool_step p p' → pool_ok total p.1 p.2 → pool_ok total p'.1 p'.2).
  { intros Hc. apply (Hc _ _ Hr). by apply pool_ok_init. }
  induction 1 as [|p1 p2 p3 Hs _ IH]; [done|]. intros Hok. apply IH. by eapply pool_step_ok.
Qed.

(** C23: Whatever the order of allocations of at least one byte and drops, the
    outstanding buffers of a pool lie inside it, are pairwise disjoint, 2 MiB
    aligned, and together with the free list account for every byte; the free list
    stays sorted with a gap between fragments. *)
Theorem pinned_pool_safe total free out :
  0 < total <= U64_MAX → (ALIGN | total) →
  rtc pool_step ([(0, total)], []) (free, out) → pool_ok total free out.
Proof. apply pool_reachable_ok. Qed.

Lemma pool_ok_empty total free : pool_ok total free [] → 0 < total → free = [(0, total)].
Proof.
  intros [_ Hg He _ _ _ Hs _] Ht. simpl in Hs. rewrite zsum_nil, Z.add_0_r in Hs.
  destruct free as [|[o l] free]; [unfold free_bytes in Hs; simpl in Hs; rewrite zsum_nil in Hs; lia|].
  pose proof (gaps_sum _ _ _ Hg He ltac:(done)) as Hsum. rewrite Hs, length_cons in Hsum.
  destruct free as [|f free]; [|rewrite length_cons in Hsum; lia].
  unfold free_bytes in Hs. csimpl in Hs. rewrite zsum_cons, zsum_nil in Hs. simpl in Hs.
  apply Forall_cons in He as [He _]. unfold end_le in He. simpl in *. do 2 f_equal; lia.
Qed.

(** No fragmentation is left behind: when every buffer has been dropped, in any
    order, the free list is again the single fragment of the whole pool. *)
Theorem pinned_full_coalescing total free :
  0 < total <= U64_MAX → (ALIGN | total) →
  rtc pool_step ([(0, total)], []) (free, []) → free = [(0, total)].
Proof. intros Ht Hd Hr. apply pool_ok_empty; [by apply pool_reachable_ok|lia]. Qed.

(** [alloc] is first fit: it fails exactly when no fragment is large enough for
    the aligned request, and otherwise carves it off the front of the first one. *)
Theorem alloc_first_fit free bytes total out :
  pool_ok total free out → 0 <= bytes → bytes + ALIGN <= U64_MAX →
  ∃ need, bytes <= need < bytes + ALIGN ∧ (ALIGN | need) ∧
    match alloc free bytes with
    | Ret None => Forall (λ f, f.2 < need) free
    | Ret (Some (free', b)) =>
        ∃ l1 f l2, free = l1 ++ f :: l2 ∧ Forall (λ g, g.2 < need) l1 ∧ need <= f.2 ∧
          free' = l1 ++ shrink_frag f need ++ l2 ∧ b = mkPinnedBuf f.1 need bytes
    | _ => False
    end.
Proof. apply alloc_spec. Qed.
End Pool.

(** *** Examples *)

#[local] Instance pin_profile : BuildProfile := true.

(** A pool of four units; two buffers; the first dropped. *)
Definition pin_total : Z := 4 * ALIGN.
Definition pin_b1 : PinnedBuf := mkPinnedBuf 0 ALIGN 5.
Definition pin_b2 : PinnedBuf := mkPinnedBuf ALIGN (2 * ALIGN) (ALIGN + 1).

Lemma pin_run :
  rtc pool_step ([(0, pin_total)], []) ([(0, ALIGN); (3 * ALIGN, ALIGN)], [pin_b2]).
Proof.
  eapply rtc_l; [apply (pool_step_alloc _ _ 5 [(ALIGN, 3 * ALIGN)] pin_b1); [lia|done|by vm_compute]|].
  eapply rtc_l; [apply (pool_step_alloc _ _ (ALIGN + 1) [(3 * ALIGN, ALIGN)] pin_b2);
    [done|done|by vm_compute]|].
  eapply rtc_l; [|apply rtc_refl]. apply (pool_step_drop _ [pin_b2] pin_b1 []). by vm_compute.
Defined.

Lemma pinned_pool_safe_witness :
  pool_ok pin_total [(0, ALIGN); (3 * ALIGN, ALIGN)] [pin_b2].
Proof. apply (pinned_pool_safe pin_total); [done|by exists 4|exact pin_run]. Defined.

Lemma pinned_full_coalescing_witness :
  match drop_buf [(0, ALIGN); (3 * ALIGN, ALIGN)] pin_b2 with
  | Ret free => free = [(0, pin_total)]
  | _ => False
  end.
Proof.
  destruct (drop_buf [(0, ALIGN); (3 * ALIGN, ALIGN)] pin_b2) as [free| |] eqn:Hd.
  - apply (pinned_full_coalescing pin_total); [done|by exists 4|].
    eapply rtc_r; [exact pin_run|]. exact (pool_step_drop _ [] pin_b2 [] _ Hd).
  - revert Hd. vm_compute. congruence.
  - revert Hd. vm_compute. congruence.
Defined.

Lemma alloc_first_fit_witness :
  ∃ need, (ALIGN | need) ∧ need = ALIGN ∧
    alloc [(0, pin_total)] 5 = Ret (Some ([(ALIGN, 3 * ALIGN)], pin_b1)).
Proof.
  destruct (alloc_first_fit [(0, pin_total)] 5 pin_total []) as (need & Hn & Hd & _);
    [apply pool_ok_init; [done|by exists 4]|done|done|].
  exists need. split; [exact Hd|]. split; [|by vm_compute].
  destruct Hd as [k ->]. change ALIGN with 2097152 in *. lia.
Defined.

(** A zero-length buffer dropped after its neighbour was taken leaves an empty
    fragment, and the free list never becomes one fragment again. *)
Example zero_length_alloc_fragments :
  (r ← alloc [(0, 2 * ALIGN)] 0;
   '(free, z) ← unwrap r;
   r ← alloc free 1;
   '(free, b) ← unwrap r;
   free ← drop_buf free z;
   drop_buf free b) = Ret [(0, ALIGN); (0, 0); (ALIGN, ALIGN)].
Proof. by vm_compute. Qed.
