(* ===== verification/RegMap.v ===== *)
(** * Registered memory of the RDMA backend: [rc_backend/state.rs]

    [LocalMemoryMap]: regions in a [BTreeMap] ordered by base pointer.  The
    map is an association list kept sorted by key; the range queries are the
    ones the code makes.  Memory-region handles ([Vec<Arc<MemoryRegion>>]) are
    an opaque type [MR]. *)

From S2P Require Import Prelude.

(** ** [BTreeMap<u64, V>] *)

Section BTree.
Context {V : Type}.
Abbreviation btree := (list (u64 * V)).

Fixpoint bt_insert (k : u64) (v : V) (m : btree) : btree :=
  match m with
  | [] => [(k, v)]
  | (k', v') :: m' =>
      if k <? k' then (k, v) :: m
      else if k =? k' then (k, v) :: m'
      else (k', v') :: bt_insert k v m'
  end.

(** [remove]: the value removed and the rest. *)
Fixpoint bt_remove (k : u64) (m : btree) : option V * btree :=
  match m with
  | [] => (None, [])
  | (k', v') :: m' =>
      if k =? k' then (Some v', m')
      else let '(r, m'') := bt_remove k m' in (r, (k', v') :: m'')
  end.

(** [range(..=k).next_back()]. *)
Definition last_le (k : u64) (m : btree) : option (u64 * V) :=
  last (List.filter (λ e, e.1 <=? k) m).

(** [range(k..).next()]. *)
Definition first_ge (k : u64) (m : btree) : option (u64 * V) :=
  head (List.filter (λ e, k <=? e.1) m).
End BTree.
Abbreviation btree V := (list (u64 * V)).

(** ** Errors of the RDMA crate ([error.rs]) *)

Inductive TransferError : Type :=
| InvalidArgument (what : string)
| MemoryNotRegistered (ptr : u64)
| DeviceNotFound (name : string)
| AddressResolution (what : string)
| Backend (what : string)
| Unimplemented (what : string).

Section RegMap.
Context {MR : Type}.

Record RegisteredMemoryEntry : Type := mkEntry {
  base_ptr : u64;
  entry_len : usize;
  entry_numa : u32;
  mrs : list MR;
}.

Abbreviation LocalMemoryMap := (btree RegisteredMemoryEntry).

Context `{BuildProfile}.

(** The overlapping registration [insert] reports, if any.  The predecessor is
    tested first; the successor only when it does not overlap. *)
Definition overlap (m : LocalMemoryMap) (base stop : u64) : outcome (option RegisteredMemoryEntry) :=
  prev ← match last_le base m with
         | Some (_, prev) =>
             e ← u64_add (base_ptr prev) (entry_len prev);
             Ret (if base <? e then Some prev else None)
         | None => Ret None
         end;
  match prev with
  | Some p => Ret (Some p)
  | None =>
      Ret (match first_ge base m with
           | Some (next_base, next) => if next_base <? stop then Some next else None
           | None => None
           end)
  end.

Definition lmm_insert (m : LocalMemoryMap) (entry : RegisteredMemoryEntry)
    : outcome (LocalMemoryMap * result TransferError unit) :=
  if entry_len entry =? 0 then Ret (m, Err (InvalidArgument "len must be non-zero")) else
  match checked_add (base_ptr entry) (entry_len entry) with
  | None => Ret (m, Err (InvalidArgument "memory region overflows address space"))
  | Some stop =>
      o ← overlap m (base_ptr entry) stop;
      match o with
      | Some _ => Ret (m, Err (Backend "memory region overlaps registered region"))
      | None => Ret (bt_insert (base_ptr entry) entry m, Ok tt)
      end
  end.

Definition lmm_remove (m : LocalMemoryMap) (base : u64) : LocalMemoryMap * option RegisteredMemoryEntry :=
  let '(r, m) := bt_remove base m in (m, r).

Definition find_entry (m : LocalMemoryMap) (ptr : u64) (len : usize)
    : outcome (option RegisteredMemoryEntry) :=
  match checked_add ptr len with
  | None => Ret None
  | Some stop =>
      match last_le ptr m with
      | None => Ret None
      | Some (_, entry) =>
          e ← u64_add (base_ptr entry) (entry_len entry);
          Ret (if stop <=? e then Some entry else None)
      end
  end.

(** ** The invariant *)

(** [e] covers [[ptr, ptr + len)]; two regions share an address. *)
Definition covers (e : RegisteredMemoryEntry) (ptr len : Z) : Prop :=
  base_ptr e <= ptr ∧ ptr + len <= base_ptr e + entry_len e.

Definition overlaps (e f : RegisteredMemoryEntry) : Prop :=
  base_ptr e < base_ptr f + entry_len f ∧ base_ptr f < base_ptr e + entry_len e.

(** Sorted by base pointer, keyed by it, non-empty, inside the address space,
    each region ending before the next begins. *)
Fixpoint regions_from (lo : Z) (m : LocalMemoryMap) : Prop :=
  match m with
  | [] => True
  | (k, e) :: m =>
      k = base_ptr e ∧ lo <= k ∧ 0 < entry_len e ∧ k + entry_len e <= U64_MAX ∧
      regions_from (k + entry_len e) m
  end.

Definition map_ok (m : LocalMemoryMap) : Prop := regions_from 0 m.

(** ** Lemmas *)

Lemma regions_mono lo lo' (m : LocalMemoryMap) : lo' <= lo → regions_from lo m → regions_from lo' m.
Proof. destruct m as [|[k e] m]; simpl; [done|]. intros ? (? & ? & ? & ? & ?). split_and!; try done. lia. Qed.

Lemma regions_elem lo (m : LocalMemoryMap) k e :
  regions_from lo m → (k, e) ∈ m →
  k = base_ptr e ∧ lo <= k ∧ 0 < entry_len e ∧ k + entry_len e <= U64_MAX.
Proof.
  revert lo. induction m as [|[k' e'] m IH]; intros lo Hm Hin; [by apply elem_of_nil in Hin|].
  destruct Hm as (H1 & H2 & H3 & H4 & H5). apply elem_of_cons in Hin as [[= -> ->]|Hin]; [done|].
  destruct (IH _ H5 Hin) as (? & ? & ? & ?). split_and!; try done. lia.
Qed.

Lemma last_le_cons p k e (m : LocalMemoryMap) :
  last_le p ((k, e) :: m) =
  match last_le p m with Some x => Some x | None => if k <=? p then Some (k, e) else None end.
Proof.
  unfold last_le. simpl. destruct (k <=? p); [|by destruct (last _)].
  rewrite last_cons. by destruct (last _).
Qed.

(** The predecessor is the last region starting at or before [p]; every other
    such region ends before it begins. *)
Lemma last_le_spec lo p (m : LocalMemoryMap) :
  regions_from lo m →
  match last_le p m with
  | Some (k, e) => (k, e) ∈ m ∧ k <= p ∧
      ∀ k' e', (k', e') ∈ m → k' <= p → (k', e') = (k, e) ∨ k' + entry_len e' <= k
  | None => ∀ k' e', (k', e') ∈ m → p < k'
  end.
Proof.
  revert lo. induction m as [|[k e] m IH]; intros lo Hm.
  { intros k' e' Hin. by apply elem_of_nil in Hin. }
  rewrite last_le_cons. destruct Hm as (H1 & H2 & H3 & H4 & H5). specialize (IH _ H5).
  destruct (last_le p m) as [[k1 e1]|].
  - destruct IH as (Hin & Hle & Hall). split; [by right|]. split; [done|].
    intros k' e' [[= -> ->]|Hin']%elem_of_cons Hk'; [|by apply Hall].
    right. destruct (regions_elem _ _ _ _ H5 Hin) as (_ & ? & _). lia.
  - destruct (Z.leb_spec k p).
    + split; [left|]. split; [done|]. intros k' e' [?|Hin']%elem_of_cons Hk'; [by left|].
      specialize (IH _ _ Hin'). lia.
    + intros k' e' [[= -> ->]|Hin']%elem_of_cons; [done|]. by eapply IH.
Qed.

Lemma first_ge_spec lo p (m : LocalMemoryMap) :
  regions_from lo m →
  match first_ge p m with
  | Some (k, e) => (k, e) ∈ m ∧ p <= k ∧ ∀ k' e', (k', e') ∈ m → p <= k' → k <= k'
  | None => ∀ k' e', (k', e') ∈ m → k' < p
  end.
Proof.
  revert lo. induction m as [|[k e] m IH]; intros lo Hm.
  { intros k' e' Hin. by apply elem_of_nil in Hin. }
  destruct Hm as (H1 & H2 & H3 & H4 & H5). specialize (IH _ H5). unfold first_ge in *. simpl.
  destruct (Z.leb_spec p k); simpl.
  - split; [left|]. split; [done|]. intros k' e' [[= -> ->]|Hin']%elem_of_cons Hk'; [lia|].
    destruct (regions_elem _ _ _ _ H5 Hin') as (_ & ? & _). lia.
  - destruct (head _) as [[k1 e1]|].
    + destruct IH as (Hin & Hle & Hall). split; [by right|]. split; [done|].
      intros k' e' [[= -> ->]|Hin']%elem_of_cons Hk'; [lia|by eapply Hall].
    + intros k' e' [[= -> ->]|Hin']%elem_of_cons; [done|by eapply IH].
Qed.

(** The predecessor ending in time clears everything before [base]. *)
Lemma pred_clear (m : LocalMemoryMap) base k f :
  map_ok m →
  match last_le base m with Some (_, p) => base_ptr p + entry_len p <= base | None => True end →
  (k, f) ∈ m → k <= base → k + entry_len f <= base.
Proof.
  intros Hm Hp Hin Hk. pose proof (last_le_spec 0 base m Hm) as Hs.
  destruct (last_le base m) as [[k1 e1]|]; [|specialize (Hs _ _ Hin); lia].
  destruct Hs as (Hin1 & Hle & Hall). destruct (regions_elem _ _ _ _ Hm Hin1) as (-> & _).
  destruct (Hall _ _ Hin Hk) as [[= -> ->]|?]; lia.
Qed.

(** The successor starting late clears everything from [base] on. *)
Lemma succ_clear (m : LocalMemoryMap) base stop k f :
  map_ok m →
  match first_ge base m with Some (nb, _) => stop <= nb | None => True end →
  (k, f) ∈ m → base <= k → stop <= k.
Proof.
  intros Hm Hp Hin Hk. pose proof (first_ge_spec 0 base m Hm) as Hs.
  destruct (first_ge base m) as [[nb nx]|]; [|specialize (Hs _ _ Hin); lia].
  destruct Hs as (_ & _ & Hall). specialize (Hall _ _ Hin Hk). lia.
Qed.

(** Two neighbour checks decide overlap with the whole map. *)
Lemma overlap_spec (m : LocalMemoryMap) entry :
  map_ok m → 0 < entry_len entry → base_ptr entry + entry_len entry <= U64_MAX →
  ∃ o, overlap m (base_ptr entry) (base_ptr entry + entry_len entry) = Ret o ∧
    match o with
    | Some f => (∃ k, (k, f) ∈ m) ∧ overlaps entry f
    | None => ∀ k f, (k, f) ∈ m → ¬ overlaps entry f
    end.
Proof.
  intros Hm Hl Hmax. unfold overlap. set (base := base_ptr entry) in *. set (stop := base + entry_len entry) in *.
  assert (∃ prev, (match last_le base m with
      | Some (_, prev) => e ← u64_add (base_ptr prev) (entry_len prev);
                          Ret (if base <? e then Some prev else None)
      | None => Ret None end) = Ret prev ∧
    match prev with
    | Some p => (∃ k, (k, p) ∈ m) ∧ overlaps entry p
    | None => match last_le base m with Some (_, p) => base_ptr p + entry_len p <= base | None => True end
    end) as (prev & -> & Hprev).
  { pose proof (last_le_spec 0 base m Hm) as Hs. destruct (last_le base m) as [[pk pe]|]; [|by exists None].
    destruct Hs as (Hin & Hle & _). destruct (regions_elem _ _ _ _ Hm Hin) as (Hk & ? & ? & ?).
    rewrite u64_add_ok by (split; lia). eexists. split; [done|].
    destruct (Z.ltb_spec base (base_ptr pe + entry_len pe)); [|done].
    split; [eauto|]. unfold overlaps. fold base. lia. }
  cbn [mbind outcome_bind]. destruct prev as [p|]; [by eexists|]. eexists. split; [done|].
  assert (match first_ge base m with Some (nb, _) => stop <= nb | None => True end →
          ∀ k f, (k, f) ∈ m → ¬ overlaps entry f) as Hnone.
  { intros Hnx k f Hin. destruct (regions_elem _ _ _ _ Hm Hin) as (Hk & _ & ? & _).
    unfold overlaps. fold base. destruct (Z.le_gt_cases k base).
    - pose proof (pred_clear _ _ _ _ Hm Hprev Hin ltac:(done)). lia.
    - pose proof (succ_clear _ _ _ _ _ Hm Hnx Hin ltac:(lia)). lia. }
  pose proof (first_ge_spec 0 base m Hm) as Hs. destruct (first_ge base m) as [[nb nx]|]; [|by apply Hnone].
  destruct (Z.ltb_spec nb stop); [|by apply Hnone]. destruct Hs as (Hin & Hge & _).
  destruct (regions_elem _ _ _ _ Hm Hin) as (Hk & _ & ? & _). split; [eauto|].
  unfold overlaps. fold base. lia.
Qed.

Lemma bt_insert_ok lo (m : LocalMemoryMap) entry :
  regions_from lo m → lo <= base_ptr entry → 0 < entry_len entry →
  base_ptr entry + entry_len entry <= U64_MAX → (∀ k f, (k, f) ∈ m → ¬ overlaps entry f) →
  regions_from lo (bt_insert (base_ptr entry) entry m).
Proof.
  intros Hm Hlo Hl Hmax. revert lo Hm Hlo. induction m as [|[k e] m IH]; intros lo Hm Hlo Hno; simpl.
  { by split_and!. }
  destruct Hm as (-> & H2 & H3 & H4 & H5).
  assert (¬ overlaps entry e) as He by (eapply Hno; left). unfold overlaps in He.
  destruct (Z.ltb_spec (base_ptr entry) (base_ptr e)); simpl.
  { split_and!; try done. lia. }
  destruct (Z.eqb_spec (base_ptr entry) (base_ptr e)); simpl; [lia|].
  split_and!; try done. apply IH; [done|lia|]. intros k' f Hin. eapply Hno. by right.
Qed.

Lemma elem_of_bt_insert lo (m : LocalMemoryMap) entry x :
  regions_from lo m → (∀ k f, (k, f) ∈ m → ¬ overlaps entry f) → 0 < entry_len entry →
  x ∈ bt_insert (base_ptr entry) entry m ↔ x = (base_ptr entry, entry) ∨ x ∈ m.
Proof.
  intros Hm Hno Hl. revert lo Hm Hno. induction m as [|[k e] m IH]; intros lo Hm Hno; simpl.
  { by rewrite list_elem_of_singleton, elem_of_nil; intuition. }
  destruct Hm as (-> & H2 & H3 & H4 & H5).
  assert (¬ overlaps entry e) as He by (eapply Hno; left). unfold overlaps in He.
  destruct (Z.ltb_spec (base_ptr entry) (base_ptr e)); [by rewrite !elem_of_cons|].
  destruct (Z.eqb_spec (base_ptr entry) (base_ptr e)); [lia|].
  rewrite !elem_of_cons, (IH _ H5); [tauto|]. intros k' f Hin. eapply Hno. by right.
Qed.

Lemma bt_remove_spec lo (m : LocalMemoryMap) base :
  regions_from lo m →
  let '(m', r) := lmm_remove m base in
  regions_from lo m' ∧
  match r with
  | Some e => (base, e) ∈ m ∧ ∀ x, x ∈ m' ↔ x ∈ m ∧ x.1 ≠ base
  | None => m' = m ∧ ∀ e, (base, e) ∉ m
  end.
Proof.
  unfold lmm_remove. revert lo. induction m as [|[k e] m IH]; intros lo Hm; simpl.
  { split; [done|]. split; [done|]. intros e. apply not_elem_of_nil. }
  destruct Hm as (-> & H2 & H3 & H4 & H5). destruct (Z.eqb_spec base (base_ptr e)) as [->|Hne]; simpl.
  { split; [eapply regions_mono; [|done]; lia|]. split; [left|]. intros [k' e']. rewrite elem_of_cons.
    split; [|intros [[[= -> ->]|?] ?]; done]. intros Hin. split; [by right|]. simpl.
    destruct (regions_elem _ _ _ _ H5 Hin) as (_ & ? & _). lia. }
  specialize (IH _ H5). destruct (bt_remove base m) as [r m']. simpl in *.
  destruct IH as [Hok Hr]. split; [by split_and!|]. destruct r as [e'|].
  - destruct Hr as [Hin Hiff]. split; [by right|]. intros x. rewrite !elem_of_cons, Hiff.
    split; [intros [->|[? ?]]|intros [[->|?] ?]]; simpl; auto.
  - destruct Hr as [-> Hn]. split; [done|]. intros e'. rewrite not_elem_of_cons. split; [congruence|done].
Qed.

Lemma find_entry_spec (m : LocalMemoryMap) ptr len :
  map_ok m → 0 <= ptr → 0 < len →
  ∃ o, find_entry m ptr len = Ret o ∧
    ∀ e, o = Some e ↔ (∃ k, (k, e) ∈ m) ∧ covers e ptr len.
Proof.
  intros Hm Hp Hl. unfold find_entry. pose proof (last_le_spec 0 ptr m Hm) as Hs.
  assert (∀ k e, (k, e) ∈ m → k = base_ptr e ∧ 0 < entry_len e ∧ k + entry_len e <= U64_MAX) as Hk.
  { intros k e Hin. by destruct (regions_elem _ _ _ _ Hm Hin) as (? & _ & ? & ?). }
  unfold checked_add. case_decide as Hmax.
  2:{ eexists. split; [done|]. intros e. split; [done|]. intros [[k Hin] [? ?]].
      destruct (Hk _ _ Hin) as (-> & ? & ?). lia. }
  destruct (last_le ptr m) as [[pk pe]|].
  2:{ eexists. split; [done|]. intros e. split; [done|]. intros [[k Hin] [? ?]].
      destruct (Hk _ _ Hin) as (-> & _). specialize (Hs _ _ Hin). lia. }
  destruct Hs as (Hin & Hle & Hall). destruct (regions_elem _ _ _ _ Hm Hin) as (-> & ? & ? & ?).
  rewrite u64_add_ok by (split; lia). simpl. eexists. split; [done|]. intros e.
  assert (∀ k, (k, e) ∈ m → covers e ptr len → e = pe) as Huniq.
  { intros k He [Hc1 Hc2]. destruct (Hk _ _ He) as (-> & ? & _).
    destruct (Hall _ _ He Hc1) as [[= ? ?]|?]; [done|lia]. }
  unfold covers in *. destruct (Z.leb_spec (ptr + len) (base_ptr pe + entry_len pe)).
  - split; [intros [= <-]; split; [eauto|lia]|]. intros [[k He] Hc]. by rewrite (Huniq k He Hc).
  - split; [done|]. intros [[k He] Hc]. rewrite (Huniq k He Hc) in Hc. lia.
Qed.

(** [insert] looks at the two neighbours only. *)
Lemma lmm_insert_spec (m : LocalMemoryMap) entry :
  map_ok m → 0 <= base_ptr entry → 0 <= entry_len entry →
  ∃ m' r, lmm_insert m entry = Ret (m', r) ∧ map_ok m' ∧
    (r = Ok tt ↔ entry_len entry ≠ 0 ∧ base_ptr entry + entry_len entry <= U64_MAX ∧
                 ∀ k f, (k, f) ∈ m → ¬ overlaps entry f) ∧
    (∀ x, x ∈ m' ↔ x ∈ m ∨ (r = Ok tt ∧ x = (base_ptr entry, entry))).
Proof.
  intros Hm Hb Hl. unfold lmm_insert. destruct (Z.eqb_spec (entry_len entry) 0) as [Hz|Hz].
  { eexists _, _. split; [done|]. split; [done|]. split; [by split; [|intros (? & _)]|].
    intros x. split; [by left|intros [?|[? _]]; done]. }
  unfold checked_add. case_decide as Hmax.
  2:{ eexists _, _. split; [done|]. split; [done|]. split; [by split; [|intros (_ & ? & _)]|].
      intros x. split; [by left|intros [?|[? _]]; done]. }
  destruct (overlap_spec m entry Hm ltac:(lia) Hmax) as (o & -> & Ho). simpl. destruct o as [f|].
  - eexists _, _. split; [done|]. split; [done|]. destruct Ho as [[k Hin] Hov]. split.
    + split; [done|]. intros (_ & _ & Hn). by destruct (Hn k f Hin).
    + intros x. split; [by left|intros [?|[? _]]; done].
  - eexists _, _. split; [done|]. split; [apply bt_insert_ok; try done; lia|].
    split; [done|]. intros x. rewrite (elem_of_bt_insert 0) by (done || lia). tauto.
Qed.

(** C38: A registration is accepted exactly when it is non-empty, fits the address
    space and shares no address with any registered region, although only the
    two neighbours are inspected; then it is added and the map stays sorted and
    disjoint.  Otherwise the map is unchanged. *)
Theorem register_iff_disjoint (m : LocalMemoryMap) entry :
  map_ok m → 0 <= base_ptr entry → 0 <= entry_len entry →
  ∃ m' r, lmm_insert m entry = Ret (m', r) ∧ map_ok m' ∧
    (r = Ok tt ↔ entry_len entry ≠ 0 ∧ base_ptr entry + entry_len entry <= U64_MAX ∧
                 ∀ k f, (k, f) ∈ m → ¬ overlaps entry f) ∧
    (∀ x, x ∈ m' ↔ x ∈ m ∨ (r = Ok tt ∧ x = (base_ptr entry, entry))).
Proof. apply lmm_insert_spec. Qed.

(** [find_entry] looks only at the predecessor, and that is enough: it returns
    exactly the registered region that covers the whole requested range, and
    nothing when there is none. *)
Theorem find_entry_exact (m : LocalMemoryMap) ptr len :
  map_ok m → 0 <= ptr → 0 < len →
  ∃ o, find_entry m ptr len = Ret o ∧
    ∀ e, o = Some e ↔ (∃ k, (k, e) ∈ m) ∧ covers e ptr len.
Proof. apply find_entry_spec. Qed.
End RegMap.
Arguments RegisteredMemoryEntry MR : clear implicits.

#[local] Instance reg_profile : BuildProfile := true.

Definition reg_a : RegisteredMemoryEntry unit := mkEntry 4096 256 0 [].
Definition reg_b : RegisteredMemoryEntry unit := mkEntry 12288 256 1 [].
Definition reg_map : btree (RegisteredMemoryEntry unit) := [(4096, reg_a); (12288, reg_b)].

Lemma register_iff_disjoint_witness :
  ∃ m', lmm_insert reg_map (mkEntry 4352 256 0 []) = Ret (m', Ok tt) ∧ map_ok m'.
Proof.
  destruct (register_iff_disjoint reg_map (mkEntry 4352 256 0 [])) as (m' & r & Hi & Hok & Hr & _);
    [by vm_compute|done|done|].
  exists m'. split; [|exact Hok]. rewrite Hi. do 2 f_equal. revert Hi. vm_compute. congruence.
Defined.

Lemma find_entry_exact_witness : find_entry reg_map 4224 32 = Ret (Some reg_a).
Proof.
  destruct (find_entry_exact reg_map 4224 32) as (o & Hf & Ho); [by vm_compute|done|done|].
  rewrite Hf. f_equal. apply Ho. split; [exists 4096; left|by vm_compute].
Defined.
