(* ===== verification/Session.v ===== *)
(** * The session worker: [rc_backend/session.rs]

    [execute_batch] posts the operations of a batch in chains of up to four,
    keeps at most [MAX_SEND_WR] work requests in flight, and counts the bytes
    of their completions.  The verbs library is a parameter: [post] is the
    outcome of [PostSendGuard::post], and what polling the completion queue
    returns is the list [polls]. *)

From S2P Require Import Prelude RegMap.

Definition MAX_WR_CHAIN_OPS : nat := 4.
Definition MAX_SEND_WR : nat := 128.
Definition PSN_MASK : u32 := 0xffffff.

(** The local PSN of a new session. *)
Definition local_psn (psn_seed : u64) : u32 := Z.land (psn_seed mod 2 ^ 32) PSN_MASK.

Inductive TransferOp : Type := Read | Write.

Section Session.
Context {MR : Type}.

Record RdmaOp : Type := mkRdmaOp {
  local_mr : MR;
  local_ptr : u64;
  remote_ptr : u64;
  op_len : usize;
  remote_rkey : u32;
}.

(** The local variables of [execute_batch]. *)
Record Batch : Type := mkBatch {
  next_idx : nat;
  next_wr_id : u64;
  inflight : gmap u64 usize;
  transferred : usize;
}.

(** A work completion: its id and whether its status is success. *)
Record Wc : Type := mkWc { wr_id : u64; wc_success : bool }.

(** One call of [start_poll]. *)
Inductive poll : Type :=
| PollEmpty
| PollWcs (wcs : list Wc)
| PollErr (what : string).

(** How far a run got: finished, or still spinning on the queue. *)
Inductive run : Type :=
| Finished (r : result TransferError usize) (b : Batch)
| Spinning (b : Batch).

(** [guard.post()] for a chain of requests starting at a work-request id. *)
Variable post : TransferOp → u64 → list RdmaOp → option string.

Definition post_rdma_wr_chain (ops : list RdmaOp) (first_wr_id : u64) (op : TransferOp)
    : result TransferError nat :=
  match ops with
  | [] => Ok 0%nat
  | _ =>
      if existsb (λ o, U32_MAX <? op_len o) ops
      then Err (InvalidArgument "len exceeds RDMA SGE length limit")
      else match post op first_wr_id ops with
           | Some e => Err (Backend e)
           | None => Ok (length ops)
           end
  end.

(** The loop that records posted requests. *)
Fixpoint track (ops : list RdmaOp) (id : u64) (m : gmap u64 usize) : gmap u64 usize * u64 :=
  match ops with
  | [] => (m, id)
  | o :: ops => track ops (wrapping_add id 1) (<[id := op_len o]> m)
  end.

Definition chain_len (total : nat) (b : Batch) : nat :=
  let available := (MAX_SEND_WR - size (inflight b))%nat in
  let remaining := (total - next_idx b)%nat in
  Nat.min (Nat.min MAX_WR_CHAIN_OPS available) remaining.

(** The inner [while]: post until the window is full or nothing is left.  Every
    iteration posts at least one request, so [fuel] = number of operations is
    enough (see [fill_spec]). *)
Fixpoint fill (fuel : nat) (ops : list RdmaOp) (op : TransferOp) (b : Batch)
    : result TransferError Batch * Batch :=
  match fuel with
  | O => (Ok b, b)
  | S fuel =>
      if decide (next_idx b < length ops ∧ size (inflight b) < MAX_SEND_WR)%nat then
        let n := chain_len (length ops) b in
        match post_rdma_wr_chain (take n (drop (next_idx b) ops)) (next_wr_id b) op with
        | Err e => (Err e, b)
        | Ok posted =>
            if decide (posted = 0%nat) then (Ok b, b)
            else
              let '(m, id) := track (take posted (drop (next_idx b) ops)) (next_wr_id b) (inflight b) in
              fill fuel ops op (mkBatch (next_idx b + posted) id m (transferred b))
        end
      else (Ok b, b)
  end.

(** The loop over the completions of one poll. *)
Fixpoint handle_wcs (wcs : list Wc) (b : Batch) : result TransferError Batch * Batch :=
  match wcs with
  | [] => (Ok b, b)
  | wc :: wcs =>
      match inflight b !! wr_id wc with
      | None => handle_wcs wcs b
      | Some bytes =>
          let b' := mkBatch (next_idx b) (next_wr_id b) (delete (wr_id wc) (inflight b)) (transferred b) in
          if negb (wc_success wc) then (Err (Backend "send completion failed"), b')
          else handle_wcs wcs (mkBatch (next_idx b) (next_wr_id b) (inflight b')
                                       (saturating_add (transferred b) bytes))
      end
  end.

(** The outer [while]; it reads one element of [polls] per iteration. *)
Fixpoint batch_loop (ops : list RdmaOp) (op : TransferOp) (polls : list poll) (b : Batch) : run :=
  if decide (next_idx b < length ops ∨ inflight b ≠ ∅)%nat then
    match fill (length ops) ops op b with
    | (Err e, b) => Finished (Err e) b
    | (Ok b, _) =>
        match polls with
        | [] => Spinning b
        | PollEmpty :: polls => batch_loop ops op polls b
        | PollErr what :: _ => Finished (Err (Backend what)) b
        | PollWcs wcs :: polls =>
            match handle_wcs wcs b with
            | (Err e, b) => Finished (Err e) b
            | (Ok b, _) => batch_loop ops op polls b
            end
        end
    end
  else Finished (Ok (transferred b)) b.

Definition batch_start : Batch := mkBatch 0 1 ∅ 0.

Definition execute_batch (ops : list RdmaOp) (op : TransferOp) (polls : list poll) : run :=
  match ops with
  | [] => Finished (Ok 0) batch_start
  | _ => batch_loop ops op polls batch_start
  end.

(** ** The invariant of the loop *)

Definition inflight_bytes (m : gmap u64 usize) : Z := map_sum (λ _ l, l) m.

Record batch_ok (ops : list RdmaOp) (b : Batch) : Prop := mkBatchOk {
  bo_idx : (next_idx b <= length ops)%nat;
  bo_id : next_wr_id b = Z.of_nat (next_idx b) + 1;
  bo_keys id l : inflight b !! id = Some l → 0 < id < next_wr_id b ∧ 0 <= l;
  bo_window : (size (inflight b) <= MAX_SEND_WR)%nat;
  bo_count : (size (inflight b) <= next_idx b)%nat;
  bo_bytes : transferred b + inflight_bytes (inflight b) = zsum (op_len <$> take (next_idx b) ops);
}.

Lemma batch_start_ok ops : batch_ok ops batch_start.
Proof.
  constructor; simpl; [lia|done| |rewrite map_size_empty; lia|rewrite map_size_empty; lia|].
  - intros id l Hl. by rewrite lookup_empty in Hl.
  - unfold inflight_bytes. by rewrite map_sum_empty.
Qed.

(** Fresh ids: the map grows by one entry per posted request. *)
Lemma track_spec ops id m :
  (∀ k l, m !! k = Some l → 0 < k < id ∧ 0 <= l) → 0 < id → id + Z.of_nat (length ops) < 2 ^ 64 →
  Forall (λ o, 0 <= op_len o) ops →
  let '(m', id') := track ops id m in
  id' = id + Z.of_nat (length ops) ∧ (∀ k l, m' !! k = Some l → 0 < k < id' ∧ 0 <= l) ∧
  size m' = (size m + length ops)%nat ∧
  inflight_bytes m' = inflight_bytes m + zsum (op_len <$> ops).
Proof.
  revert id m. induction ops as [|o ops IH]; intros id m Hm Hid Hmax Hpos; cbn [track].
  { simpl length. split; [lia|]. split; [done|]. split; [lia|]. csimpl. rewrite zsum_nil. lia. }
  apply Forall_cons in Hpos as [Ho Hpos]. simpl length in Hmax.
  unfold wrapping_add. rewrite Z.mod_small by lia.
  assert (m !! id = None) as Hnone.
  { destruct (m !! id) as [l|] eqn:Hl; [|done]. destruct (Hm _ _ Hl). lia. }
  specialize (IH (id + 1) (<[id := op_len o]> m)).
  destruct (track ops (id + 1) _) as [m' id']. destruct IH as (-> & Hk & Hsz & Hb); [|lia|lia|done|].
  { intros k l [[<- <-]|[_ Hl]]%lookup_insert_Some; [lia|]. destruct (Hm _ _ Hl). lia. }
  simpl length. split; [lia|]. split; [done|]. split.
  - rewrite Hsz, map_size_insert_None by done. lia.
  - rewrite Hb. unfold inflight_bytes. rewrite map_sum_insert_None by done. rewrite fmap_cons, zsum_cons. lia.
Qed.

(** The library accepts every chain, and the operations fit a work request. *)
Definition posts (op : TransferOp) : Prop := ∀ id ops, post op id ops = None.

Definition ops_valid (ops : list RdmaOp) : Prop :=
  Forall (λ o, 0 <= op_len o <= U32_MAX) ops ∧ Z.of_nat (length ops) + 1 < 2 ^ 64 ∧
  zsum (op_len <$> ops) <= U64_MAX.

Lemma post_chain_ok op ops id :
  posts op → Forall (λ o, 0 <= op_len o <= U32_MAX) ops →
  post_rdma_wr_chain ops id op = Ok (length ops).
Proof.
  intros Hp Hall. unfold post_rdma_wr_chain. destruct ops as [|o ops]; [done|].
  replace (existsb _ _) with false; [by rewrite Hp|]. symmetry. apply not_true_iff_false.
  intros (x & Hin%list_elem_of_In & Hx%Z.ltb_lt)%existsb_exists. rewrite Forall_forall in Hall.
  specialize (Hall x Hin). lia.
Qed.

(** One chain: the state after it is posted and recorded. *)
Lemma chain_ok ops b :
  batch_ok ops b → ops_valid ops → (next_idx b < length ops)%nat →
  (size (inflight b) < MAX_SEND_WR)%nat →
  let n := chain_len (length ops) b in
  (0 < n)%nat ∧ length (take n (drop (next_idx b) ops)) = n ∧
  let '(m, id) := track (take n (drop (next_idx b) ops)) (next_wr_id b) (inflight b) in
  size m = (size (inflight b) + n)%nat ∧
  batch_ok ops (mkBatch (next_idx b + n) id m (transferred b)).
Proof.
  intros [B1 B2 B3 B4 B5 B6] (Hv & Hmax & _) Hlt Hw n.
  assert (0 < n ∧ n <= MAX_SEND_WR - size (inflight b) ∧ n <= length ops - next_idx b)%nat as (Hn & Hn1 & Hn2).
  { unfold n, chain_len, MAX_WR_CHAIN_OPS. lia. }
  assert (length (take n (drop (next_idx b) ops)) = n) as Hlen by (rewrite length_take, length_drop; lia).
  split; [done|]. split; [done|].
  pose proof (track_spec (take n (drop (next_idx b) ops)) (next_wr_id b) (inflight b) B3) as Ht.
  destruct (track _ _ _) as [m id]. destruct Ht as (-> & Hk & Hsz & Hb); [lia|lia| |].
  { apply Forall_take, Forall_drop. eapply Forall_impl; [exact Hv|]. simpl. lia. }
  rewrite Hlen in *. split; [done|]. constructor; simpl; [lia|lia|done|lia|lia|].
  rewrite Hb, <- (take_take_drop ops (next_idx b) n), fmap_app, zsum_app. lia.
Qed.

Lemma fill_spec fuel ops op b :
  posts op → ops_valid ops → batch_ok ops b → (length ops - next_idx b <= fuel)%nat →
  ∃ b', fill fuel ops op b = (Ok b', b') ∧ batch_ok ops b' ∧ transferred b' = transferred b ∧
    (next_idx b' - size (inflight b') = next_idx b - size (inflight b))%nat ∧
    (next_idx b' = length ops ∨ size (inflight b') = MAX_SEND_WR) ∧
    (next_idx b < length ops → inflight b' ≠ ∅)%nat ∧
    (next_idx b = length ops → b' = b).
Proof.
  intros Hp Hv. revert b. induction fuel as [|fuel IH]; intros b Hok Hf.
  { exists b. pose proof (bo_idx _ _ Hok). split_and!; try done; [left; lia|lia]. }
  simpl. case_decide as Hc.
  2:{ exists b. pose proof (bo_idx _ _ Hok). pose proof (bo_window _ _ Hok).
      split_and!; try done; [lia|]. intros Hlt Hem. rewrite Hem, map_size_empty in Hc.
      unfold MAX_SEND_WR in Hc. lia. }
  destruct Hc as [Hlt Hw]. pose proof (chain_ok ops b Hok Hv Hlt Hw) as (Hn & Hlen & Hchain).
  set (n := chain_len (length ops) b) in *.
  rewrite post_chain_ok; [|done|apply Forall_take, Forall_drop; by destruct Hv]. rewrite Hlen.
  rewrite decide_False by lia. destruct (track _ _ _) as [m id]. destruct Hchain as [Hsz Hchain].
  destruct (IH _ Hchain) as (b' & -> & Hok' & Htr & Hcnt & Hexit & _ & _); [simpl; lia|].
  simpl in *. pose proof (bo_count _ _ Hok). pose proof (bo_count _ _ Hchain). pose proof (bo_count _ _ Hok').
  simpl in *. exists b'. split_and!; try done; [lia| |lia].
  intros _ Hem. rewrite Hem, map_size_empty in *. lia.
Qed.

(** ** Completions *)

(** The completions of one poll belong to distinct requests in flight and
    report success. *)
Definition wcs_ok (m : gmap u64 usize) (wcs : list Wc) : Prop :=
  NoDup (wr_id <$> wcs) ∧ Forall (λ wc, is_Some (m !! wr_id wc) ∧ wc_success wc = true) wcs.

Lemma map_sum_le_total ops b : batch_ok ops b → ops_valid ops → zsum (op_len <$> take (next_idx b) ops) <= U64_MAX.
Proof.
  intros _ (Hl & _ & Hsum). rewrite <- (take_drop (next_idx b) ops), fmap_app, zsum_app in Hsum.
  assert (0 <= zsum (op_len <$> drop (next_idx b) ops)); [|lia].
  apply zsum_nonneg, Forall_fmap, Forall_drop. eapply Forall_impl; [exact Hl|]. simpl. lia.
Qed.

Lemma complete_ok ops b id bytes :
  batch_ok ops b → ops_valid ops → inflight b !! id = Some bytes →
  batch_ok ops (mkBatch (next_idx b) (next_wr_id b) (delete id (inflight b))
                        (saturating_add (transferred b) bytes)) ∧
  size (inflight b) = S (size (delete id (inflight b))).
Proof.
  intros Hok Hv Hid. pose proof (map_sum_le_total _ _ Hok Hv) as Hle. destruct Hok as [B1 B2 B3 B4 B5 B6].
  assert (size (inflight b) = S (size (delete id (inflight b)))) as Hsz.
  { rewrite map_size_delete_Some by done. assert (size (inflight b) ≠ 0%nat); [|lia].
    rewrite map_size_non_empty_iff. intros Hem. by rewrite Hem, lookup_empty in Hid. }
  assert (inflight_bytes (inflight b) = bytes + inflight_bytes (delete id (inflight b))) as Hb
    by (unfold inflight_bytes; by rewrite (map_sum_delete _ _ _ _ Hid)).
  assert (0 <= inflight_bytes (delete id (inflight b))) as Hnn.
  { apply map_sum_nonneg. intros k l [_ Hl]%lookup_delete_Some. by destruct (B3 _ _ Hl). }
  split; [|done]. constructor; simpl; [done|done| |lia|lia|].
  - intros k l [_ Hl]%lookup_delete_Some. by apply B3.
  - unfold saturating_add. rewrite Z.min_l by lia. lia.
Qed.

Lemma handle_wcs_spec ops wcs b :
  batch_ok ops b → ops_valid ops → wcs_ok (inflight b) wcs →
  ∃ b', handle_wcs wcs b = (Ok b', b') ∧ batch_ok ops b' ∧ next_idx b' = next_idx b ∧
    size (inflight b) = (size (inflight b') + length wcs)%nat.
Proof.
  revert b. induction wcs as [|wc wcs IH]; intros b Hok Hv [Hnd Hall].
  { exists b. simpl. rewrite Nat.add_0_r. by split_and!. }
  csimpl in Hnd. apply NoDup_cons in Hnd as [Hni Hnd].
  apply Forall_cons in Hall as [[[bytes Hb] Hs] Hall]. simpl. rewrite Hb, Hs. simpl.
  destruct (complete_ok ops b (wr_id wc) bytes Hok Hv Hb) as [Hok' Hsz].
  destruct (IH _ Hok' Hv) as (b' & -> & Hok'' & Hidx & Hsz').
  { split; [done|]. rewrite Forall_forall in Hall |- *. intros x Hx. destruct (Hall x Hx) as [Hx1 Hx2].
    split; [|done]. simpl. rewrite lookup_delete_ne; [done|]. intros Heq. apply Hni. rewrite Heq.
    by apply list_elem_of_fmap_2. }
  simpl in *. exists b'. split_and!; try done. lia.
Qed.

(** ** Runs against well-behaved hardware *)

Definition filled (ops : list RdmaOp) (op : TransferOp) (b : Batch) : Batch :=
  (fill (length ops) ops op b).2.

(** Every poll succeeds and reports successful completions of requests this batch
    has posted and not yet seen complete.  Failed completions, and leftovers of an
    earlier batch that ended early, are outside (for the latter see
    [aborted_batch_leaves_requests]). *)
Fixpoint honest (ops : list RdmaOp) (op : TransferOp) (polls : list poll) (b : Batch) : Prop :=
  match polls with
  | [] => True
  | PollErr _ :: _ => False
  | PollEmpty :: polls => honest ops op polls (filled ops op b)
  | PollWcs wcs :: polls =>
      wcs_ok (inflight (filled ops op b)) wcs ∧
      honest ops op polls (handle_wcs wcs (filled ops op b)).2
  end.

Definition completions (polls : list poll) : nat :=
  sum_list_with (λ p, match p with PollWcs wcs => length wcs | _ => 0%nat end) polls.

(** What a run against such hardware gives. *)
Definition run_ok (ops : list RdmaOp) (delivered : nat) (r : run) : Prop :=
  match r with
  | Finished (Ok n) b => n = zsum (op_len <$> ops) ∧ inflight b = ∅ ∧ next_idx b = length ops
  | Finished (Err _) _ => False
  | Spinning b => batch_ok ops b ∧ inflight b ≠ ∅ ∧ (next_idx b - size (inflight b) = delivered)%nat ∧
                  (delivered < length ops)%nat
  end.

Lemma batch_loop_spec ops op polls b :
  posts op → ops_valid ops → batch_ok ops b → honest ops op polls b →
  run_ok ops (next_idx b - size (inflight b) + completions polls) (batch_loop ops op polls b).
Proof.
  intros Hp Hv. revert b. induction polls as [|p polls IH]; intros b Hok Hh.
  all: cbn [batch_loop]; case_decide as Hc.
  2,4: apply Decidable.not_or in Hc as [Hc1 Hc2]; apply dec_stable in Hc2;
    pose proof (bo_idx _ _ Hok); pose proof (bo_bytes _ _ Hok) as Hb;
    rewrite Hc2 in Hb; unfold inflight_bytes in Hb; rewrite map_sum_empty in Hb;
    simpl; rewrite take_ge in Hb by lia; split_and!; [lia|done|lia].
  all: destruct (fill_spec (length ops) ops op b Hp Hv Hok ltac:(lia))
      as (b1 & Hf & Hok1 & Htr & Hcnt & Hex & Hne & Hsame); rewrite Hf;
    assert (inflight b1 ≠ ∅) as Hne1 by
      (destruct Hc as [Hc|Hc]; [by apply Hne|];
       destruct (decide (next_idx b < length ops)%nat) as [|Hge]; [by apply Hne|];
       rewrite Hsame; [done|pose proof (bo_idx _ _ Hok); lia]);
    pose proof (proj2 (map_size_non_empty_iff _) Hne1) as Hsz1;
    pose proof (bo_count _ _ Hok1); pose proof (bo_idx _ _ Hok1); simpl in Hh.
  - simpl. split_and!; [done|done|lia|lia].
  - unfold filled in Hh. rewrite Hf in Hh. simpl in Hh. destruct p as [|wcs|e]; [| |done].
    + rewrite <- Hcnt. unfold completions. simpl. by apply IH.
    + destruct Hh as [Hw Hh].
      destruct (handle_wcs_spec ops wcs b1 Hok1 Hv Hw) as (b2 & Hh2 & Hok2 & Hidx & Hsz).
      rewrite Hh2 in Hh |- *. simpl in Hh. specialize (IH b2 Hok2 Hh).
      replace (next_idx b - size (inflight b) + completions (PollWcs wcs :: polls))%nat
        with (next_idx b2 - size (inflight b2) + completions polls)%nat; [done|].
      change (completions (PollWcs wcs :: polls)) with (length wcs + completions polls)%nat.
      rewrite Hidx. lia.
Qed.

(** ** The send window, whatever the hardware reports *)

Definition window (b : Batch) : Prop := (size (inflight b) <= MAX_SEND_WR)%nat.

Lemma track_size ops id m : (size (track ops id m).1 <= size m + length ops)%nat.
Proof.
  revert id m. induction ops as [|o ops IH]; intros id m; simpl; [lia|].
  etrans; [apply IH|]. destruct (m !! id) eqn:Hm.
  - rewrite map_size_insert_Some by (by eexists). lia.
  - rewrite map_size_insert_None by done. lia.
Qed.

Lemma fill_window fuel ops op b :
  window b → window (fill fuel ops op b).2 ∧ ∀ b', (fill fuel ops op b).1 = Ok b' → window b'.
Proof.
  revert b. induction fuel as [|fuel IH]; intros b Hw; simpl; [split; [done|by intros ? [= <-]]|].
  case_decide as Hc; [|split; [done|by intros ? [= <-]]].
  destruct (post_rdma_wr_chain _ _ _) as [posted|e] eqn:Hp; [|by split].
  case_decide; [split; [done|by intros ? [= <-]]|].
  assert (posted <= chain_len (length ops) b)%nat as Hle.
  { unfold post_rdma_wr_chain in Hp. set (l := take _ _) in Hp.
    assert (length l <= chain_len (length ops) b)%nat by (unfold l; rewrite length_take; lia).
    destruct l; [by simplify_eq|]. destruct (existsb _ _); [done|]. destruct (post _ _ _); by simplify_eq. }
  pose proof (track_size (take posted (drop (next_idx b) ops)) (next_wr_id b) (inflight b)) as Ht.
  destruct (track _ _ _) as [m id]. apply IH. unfold window, chain_len in *. cbn [fst inflight] in *.
  rewrite length_take in Ht. lia.
Qed.

Lemma handle_wcs_window wcs b :
  window b → window (handle_wcs wcs b).2 ∧ ∀ b', (handle_wcs wcs b).1 = Ok b' → window b'.
Proof.
  revert b. induction wcs as [|wc wcs IH]; intros b Hw; simpl; [split; [done|by intros ? [= <-]]|].
  destruct (inflight b !! wr_id wc) as [bytes|] eqn:Hl; [|by apply IH].
  assert (size (delete (wr_id wc) (inflight b)) <= MAX_SEND_WR)%nat as Hd.
  { rewrite map_size_delete_Some by (by eexists). unfold window in Hw. lia. }
  destruct (wc_success wc); simpl; [by apply IH|by split].
Qed.

Lemma batch_loop_window ops op polls b :
  window b →
  match batch_loop ops op polls b with Finished _ b' | Spinning b' => window b' end.
Proof.
  revert b. induction polls as [|p polls IH]; intros b Hw; cbn [batch_loop]; (case_decide; [|done]).
  all: destruct (fill_window (length ops) ops op b Hw) as [Hf1 Hf2];
    destruct (fill (length ops) ops op b) as [[b1|e] b1'] eqn:Hf; simpl in *; [|done];
    specialize (Hf2 b1 eq_refl); try done.
  destruct p as [|wcs|what]; [by apply IH| |done].
  destruct (handle_wcs_window wcs b1 Hf2) as [Hh1 Hh2].
  destruct (handle_wcs wcs b1) as [[b2|e] b2']; simpl in *; [|done]. apply IH. by apply Hh2.
Qed.

(** The send queue never overflows: at no point of a batch, whatever polling
    reports, are more than [MAX_SEND_WR] requests in flight. *)
Theorem batch_window_bound ops op polls :
  match execute_batch ops op polls with
  | Finished _ b | Spinning b => (size (inflight b) <= MAX_SEND_WR)%nat
  end.
Proof.
  unfold execute_batch. assert (window batch_start) as Hw.
  { unfold window. simpl. rewrite map_size_empty. unfold MAX_SEND_WR. lia. }
  destruct ops as [|o ops]; [exact Hw|]. apply (batch_loop_window (o :: ops) op polls _ Hw).
Qed.

Lemma execute_batch_run ops op polls :
  posts op → ops_valid ops → honest ops op polls batch_start →
  run_ok ops (completions polls) (execute_batch ops op polls).
Proof.
  intros Hp Hv Hh. unfold execute_batch. destruct ops as [|o ops]; [by split_and!|].
  exact (batch_loop_spec (o :: ops) op polls _ Hp Hv (batch_start_ok _) Hh).
Qed.

Lemma run_ok_finished ops delivered r :
  run_ok ops delivered r → (length ops <= delivered)%nat → ∃ b, r = Finished (Ok (zsum (op_len <$> ops))) b.
Proof.
  intros Hr Hn. destruct r as [[n|e] b|b]; simpl in Hr; [|done|].
  - destruct Hr as (-> & _). eauto.
  - destruct Hr as (_ & _ & _ & Hlt). lia.
Qed.

(** C24: Against hardware that accepts the posts and whose completions are
    successful and of requests this batch has in flight, for operations of less
    than 4 GiB each, [execute_batch] reports the sum of all operation lengths,
    with nothing left in flight, and it returns as soon as every operation has
    completed; until then it is still polling. *)
Theorem batch_transfers_all ops op polls :
  posts op → ops_valid ops → honest ops op polls batch_start →
  run_ok ops (completions polls) (execute_batch ops op polls) ∧
  ((length ops <= completions polls)%nat →
   ∃ b, execute_batch ops op polls = Finished (Ok (zsum (op_len <$> ops))) b).
Proof.
  intros Hp Hv Hh. pose proof (execute_batch_run ops op polls Hp Hv Hh) as Hr.
  split; [done|]. by apply run_ok_finished.
Qed.
End Session.
Arguments RdmaOp MR : clear implicits.

Definition ses_op (len : Z) : RdmaOp unit := mkRdmaOp tt 0 0 len 7.
Definition ses_post : TransferOp → u64 → list (RdmaOp unit) → option string := λ _ _ _, None.

Lemma batch_transfers_all_witness :
  ∃ b, execute_batch ses_post [ses_op 10; ses_op 20; ses_op 30] Read
         [PollEmpty; PollWcs [mkWc 2 true]; PollWcs [mkWc 3 true; mkWc 1 true]]
       = Finished (Ok 60) b.
Proof.
  destruct (batch_transfers_all ses_post [ses_op 10; ses_op 20; ses_op 30] Read
    [PollEmpty; PollWcs [mkWc 2 true]; PollWcs [mkWc 3 true; mkWc 1 true]]) as [_ Hfin].
  - intros id ops. reflexivity.
  - split; [|split; [done|by vm_compute]]. repeat constructor; simpl; done.
  - split; [|split; [|done]]; (split; [apply (bool_decide_unpack _); by vm_compute|]);
      repeat constructor; (eexists; by vm_compute).
  - apply Hfin. vm_compute. lia.
Defined.

(** An operation above the 4 GiB limit behind a posted chain makes the batch
    fail while four requests are still in flight.  The next batch numbers its
    requests from 1 again, so the completion of an old request is taken for
    one of its own. *)
Example aborted_batch_leaves_requests :
  match execute_batch ses_post [ses_op 10; ses_op 10; ses_op 10; ses_op 10; ses_op (2 ^ 32)] Write [] with
  | Finished (Err (InvalidArgument _)) b => size (inflight b) = 4%nat
  | _ => False
  end ∧
  match execute_batch ses_post [ses_op 500] Read [PollWcs [mkWc 1 true]] with
  | Finished (Ok 500) _ => True
  | _ => False
  end.
Proof. by vm_compute. Qed.
