(* ===== verification/RcBackend.v ===== *)
(** * The RDMA backend: [rc_backend/mod.rs], [rc_backend/state.rs], [engine.rs]

    NIC selection by NUMA node, memory registration, the resolution of a
    transfer batch into per-session work, and the handshake tables.  The verbs
    library is a parameter: registering memory on NIC [i] gives [reg i], a
    memory region has a remote key [rkey], and connecting a queue pair gives
    [connect].  Numbers interpolated into error messages are left out. *)

From S2P Require Import Prelude RegMap Session.

(** ** [engine.rs] *)

Record RegionDescriptor : Type := mkDescriptor {
  rd_addr : u64;
  rd_len : u64;
  rkeys : list u32;
}.

Definition contains (r : RegionDescriptor) (ptr : u64) (len : usize) : bool :=
  match checked_add ptr len with
  | None => false
  | Some stop => (rd_addr r <=? ptr) && (stop <=? saturating_add (rd_addr r) (rd_len r))
  end.

Record TransferDesc : Type := mkTransferDesc {
  td_local : u64;
  td_remote : u64;
  td_len : usize;
  td_region : RegionDescriptor;
}.

Record RcEndpoint : Type := mkEndpoint {
  ep_gid : list u8;
  ep_lid : u16;
  qp_num : u32;
  ep_psn : u32;
}.

(** [NicHandshake { endpoints }]. *)
Abbreviation NicHandshake := (list RcEndpoint).

(** A session is known by its local endpoint. *)
Record RcSession : Type := mkSession { local_endpoint : RcEndpoint }.

(** ** NIC selection *)

Definition UNKNOWN : u32 := U32_MAX.
Definition numa_is_valid (n : u32) : bool := negb (n =? UNKNOWN).

Record NicGroup : Type := mkNicGroup {
  nic_indices : list nat;
  rr_counter : usize;
}.

(** [NicGroup::next]: the index and the group after [fetch_add]. *)
Definition next (g : NicGroup) : outcome (nat * NicGroup) :=
  match nic_indices g with
  | [] => Panicked
  | l =>
      i ← unwrap (l !! Z.to_nat (rr_counter g mod Z.of_nat (length l)));
      Ret (i, mkNicGroup l (wrapping_add (rr_counter g) 1))
  end.

Record NumaRoundRobin : Type := mkRoundRobin {
  groups : gmap u32 NicGroup;
  fallback : NicGroup;
}.

(** The loop of [from_runtimes] that groups the valid NUMA nodes. *)
Fixpoint group_nics (i : nat) (numas : list u32) (m : gmap u32 (list nat)) : gmap u32 (list nat) :=
  match numas with
  | [] => m
  | n :: numas =>
      group_nics (S i) numas
        (if numa_is_valid n then <[n := default [] (m !! n) ++ [i]]> m else m)
  end.

Definition from_runtimes (numas : list u32) : NumaRoundRobin :=
  mkRoundRobin ((λ l, mkNicGroup l 0) <$> group_nics 0 numas ∅)
               (mkNicGroup (seq 0 (length numas)) 0).

Definition pick (rr : NumaRoundRobin) (numa : u32) : outcome (nat * NumaRoundRobin) :=
  match (if numa_is_valid numa then groups rr !! numa else None) with
  | Some g =>
      '(i, g) ← next g;
      Ret (i, mkRoundRobin (<[numa := g]> (groups rr)) (fallback rr))
  | None =>
      '(i, g) ← next (fallback rr);
      Ret (i, mkRoundRobin (groups rr) g)
  end.

(** ** State *)

Section Backend.
Context {MR : Type} (rkey : MR → u32).

Record ConnNic : Type := mkConnNic {
  conn_sessions : list RcSession;
  conn_rr : usize;
}.

Record AddrConnection : Type := mkConnection {
  conn_nics : list ConnNic;
  conn_local : list NicHandshake;
}.

Record RcBackendState : Type := mkRcState {
  registered : btree (RegisteredMemoryEntry MR);
  pending : list (list RcSession);
  addr_connections : gmap string AddrConnection;
  connecting : gset string;
}.

Definition state_new (nic_count : nat) : RcBackendState :=
  mkRcState [] (replicate nic_count []) ∅ ∅.

Definition num_qps (st : RcBackendState) : Z :=
  map_sum (λ _ c, zsum ((λ n, Z.of_nat (length (conn_sessions n))) <$> conn_nics c)) (addr_connections st).

Context `{BuildProfile}.

(** [register_with]: one registration per NIC, then the map. *)
Fixpoint reg_all (reg : nat → result string MR) (i n : nat) : result TransferError (list MR) :=
  match n with
  | O => Ok []
  | S n =>
      match reg i with
      | Err e => Err (Backend e)
      | Ok mr => rest ← reg_all reg (S i) n; Ok (mr :: rest)
      end
  end.

Definition register_with (nic_count : nat) (reg : nat → result string MR) (st : RcBackendState)
    (addr : u64) (len : usize) (numa : u32)
    : outcome (RcBackendState * result TransferError RegionDescriptor) :=
  if len =? 0 then Ret (st, Err (InvalidArgument "len must be non-zero")) else
  match reg_all reg 0 nic_count with
  | Err e => Ret (st, Err e)
  | Ok ms =>
      '(m, r) ← lmm_insert (registered st) (mkEntry addr len numa ms);
      let st := mkRcState m (pending st) (addr_connections st) (connecting st) in
      match r with
      | Err e => Ret (st, Err e)
      | Ok _ => Ret (st, Ok (mkDescriptor addr len (rkey <$> ms)))
      end
  end.

(** [register_host]: the NUMA node of the first page, [reg_mr] on every NIC. *)
Definition register_host (query_numa : u64 → u32) (reg_mr : nat → u64 → usize → result string MR)
    (nic_count : nat) (st : RcBackendState) (addr : u64) (len : usize)
    : outcome (RcBackendState * result TransferError RegionDescriptor) :=
  register_with nic_count (λ i, reg_mr i addr len) st addr len (query_numa addr).

Definition register_dmabuf (reg_dmabuf_mr : nat → u64 → usize → u64 → Z → result string MR)
    (nic_count : nat) (st : RcBackendState) (addr : u64) (len : usize) (fd : Z) (offset : u64) (numa : u32)
    : outcome (RcBackendState * result TransferError RegionDescriptor) :=
  register_with nic_count (λ i, reg_dmabuf_mr i offset len addr fd) st addr len numa.

Definition unregister (st : RcBackendState) (addr : u64) : RcBackendState * result TransferError unit :=
  let '(m, removed) := lmm_remove (registered st) addr in
  let st := mkRcState m (pending st) (addr_connections st) (connecting st) in
  match removed with
  | None => (st, Err (MemoryNotRegistered addr))
  | Some _ => (st, Ok tt)
  end.

(** ** Batches *)

(** [v[i].push(x)]. *)
Definition push_at {A} (v : list (list A)) (i : nat) (x : A) : outcome (list (list A)) :=
  l ← unwrap (v !! i); Ret (<[i := l ++ [x]]> v).

(** One descriptor: its NIC and the RDMA operation. *)
Definition resolve_one (reg : btree (RegisteredMemoryEntry MR)) (rr : NumaRoundRobin) (d : TransferDesc)
    : outcome (NumaRoundRobin * result TransferError (nat * RdmaOp MR)) :=
  if td_len d =? 0 then Ret (rr, Err (InvalidArgument "len must be non-zero")) else
  o ← find_entry reg (td_local d) (td_len d);
  match o with
  | None => Ret (rr, Err (MemoryNotRegistered (td_local d)))
  | Some entry =>
      if negb (contains (td_region d) (td_remote d) (td_len d)) then
        Ret (rr, Err (InvalidArgument "remote range not covered by its region descriptor"))
      else
        '(nic, rr) ← pick rr (entry_numa entry);
        match rkeys (td_region d) !! nic with
        | None => Ret (rr, Err (InvalidArgument "region descriptor has no rkey for paired NIC"))
        | Some key =>
            mr ← unwrap (mrs entry !! nic);
            Ret (rr, Ok (nic, mkRdmaOp mr (td_local d) (td_remote d) (td_len d) key))
        end
  end.

(** The resolution loop. *)
Fixpoint resolve (reg : btree (RegisteredMemoryEntry MR)) (rr : NumaRoundRobin) (descs : list TransferDesc)
    (per_nic : list (list (RdmaOp MR)))
    : outcome (NumaRoundRobin * result TransferError (list (list (RdmaOp MR)))) :=
  match descs with
  | [] => Ret (rr, Ok per_nic)
  | d :: descs =>
      '(rr, r) ← resolve_one reg rr d;
      match r with
      | Err e => Ret (rr, Err e)
      | Ok (nic, op) =>
          per_nic ← push_at per_nic nic op;
          resolve reg rr descs per_nic
      end
  end.

(** [buckets[rot.wrapping_add(i) % n].push(op)] for each op. *)
Fixpoint spread (rot : usize) (n : nat) (i : nat) (ops : list (RdmaOp MR)) (buckets : list (list (RdmaOp MR)))
    : outcome (list (list (RdmaOp MR))) :=
  match ops with
  | [] => Ret buckets
  | op :: ops =>
      if decide (n = 0%nat) then Panicked else
      buckets ← push_at buckets (Z.to_nat (wrapping_add rot (Z.of_nat i) mod Z.of_nat n)) op;
      spread rot n (S i) ops buckets
  end.

(** The sessions of a NIC that have work. *)
Definition nic_jobs (sessions : list RcSession) (buckets : list (list (RdmaOp MR)))
    : list (RcSession * list (RdmaOp MR)) :=
  List.filter (λ p, match p.2 with [] => false | _ => true end) (zip sessions buckets).

Fixpoint nic_work (per_nic : list (list (RdmaOp MR))) (conns : list (list RcSession * usize))
    : outcome (list (RcSession * list (RdmaOp MR))) :=
  match per_nic with
  | [] => Ret []
  | ops :: per_nic =>
      match ops with
      | [] => nic_work per_nic (tail conns)
      | _ =>
          '(sessions, rot) ← unwrap (head conns);
          let n := length sessions in
          buckets ← spread rot n 0 ops (replicate n []);
          rest ← nic_work per_nic (tail conns);
          Ret (nic_jobs sessions buckets ++ rest)
      end
  end.

(** A command in the channel of a session's worker ([SessionCommand::Transfer]);
    the caller holds one receiver per command. *)
Record SessionCommand : Type := mkCommand {
  cmd_session : RcSession;
  cmd_ops : list (RdmaOp MR);
  cmd_op : TransferOp;
}.

(** [transfer_batch_async]: the send fails when the worker is gone. *)
Definition transfer_batch_async (alive : RcSession → bool) (s : RcSession) (ops : list (RdmaOp MR)) (op : TransferOp)
    : result TransferError SessionCommand :=
  if alive s then Ok (mkCommand s ops op) else Err (Backend "session worker channel disconnected").

(** The submission loop: the commands sent, and whether all were. *)
Fixpoint submit (alive : RcSession → bool) (op : TransferOp) (work : list (RcSession * list (RdmaOp MR)))
    : list SessionCommand * result TransferError unit :=
  match work with
  | [] => ([], Ok tt)
  | (s, prepared) :: work =>
      match transfer_batch_async alive s prepared op with
      | Err e => ([], Err e)
      | Ok c => let '(sent, r) := submit alive op work in (c :: sent, r)
      end
  end.

Record batch_out : Type := mkBatchOut {
  bo_state : RcBackendState;
  bo_rr : NumaRoundRobin;
  bo_sent : list SessionCommand;
  bo_result : result TransferError unit;
}.

(** The connection after [rr_counter.fetch_add(1)] on each NIC. *)
Definition bump (conn : AddrConnection) : AddrConnection :=
  mkConnection ((λ n, mkConnNic (conn_sessions n) (wrapping_add (conn_rr n) 1)) <$> conn_nics conn)
    (conn_local conn).

Definition batch_transfer_async (alive : RcSession → bool) (nic_count : nat) (st : RcBackendState)
    (rr : NumaRoundRobin) (op : TransferOp) (remote_addr : string) (descs : list TransferDesc)
    : outcome batch_out :=
  match descs with
  | [] => Ret (mkBatchOut st rr [] (Ok tt))
  | _ =>
      match addr_connections st !! remote_addr with
      | None => Ret (mkBatchOut st rr [] (Err (Backend "no connection for remote addr")))
      | Some conn =>
          let snapshot := (λ n, (conn_sessions n, conn_rr n)) <$> conn_nics conn in
          let st := mkRcState (registered st) (pending st)
                      (<[remote_addr := bump conn]> (addr_connections st)) (connecting st) in
          '(rr, r) ← resolve (registered st) rr descs (replicate nic_count []);
          match r with
          | Err e => Ret (mkBatchOut st rr [] (Err e))
          | Ok per_nic =>
              work ← nic_work per_nic snapshot;
              let '(sent, r) := submit alive op work in
              Ret (mkBatchOut st rr sent r)
          end
      end
  end.
End Backend.
