(* ===== verification/RcBatch.v ===== *)
(** * RDMA backend: NIC affinity and the partition of a batch *)

From S2P Require Import Prelude RegMap Session RcBackend.

(** ** NIC selection *)

(** Groups hold indices of NICs on their node, the fallback all NICs. *)
Record rr_ok (numas : list u32) (rr : NumaRoundRobin) : Prop := mkRrOk {
  rr_group n g : groups rr !! n = Some g → nic_indices g ≠ [] ∧ Forall (λ i, numas !! i = Some n) (nic_indices g);
  rr_some i n : numas !! i = Some n → numa_is_valid n = true → is_Some (groups rr !! n);
  rr_all : nic_indices (fallback rr) = seq 0 (length numas);
}.

Lemma group_nics_spec numas0 numas m :
  (∀ n l, m !! n = Some l → l ≠ [] ∧ Forall (λ j, numas0 !! j = Some n) l) →
  (∀ j n, numas0 !! j = Some n → numa_is_valid n = true → is_Some (m !! n)) →
  (∀ n l, group_nics (length numas0) numas m !! n = Some l → l ≠ [] ∧ Forall (λ j, (numas0 ++ numas) !! j = Some n) l) ∧
  (∀ j n, (numas0 ++ numas) !! j = Some n → numa_is_valid n = true → is_Some (group_nics (length numas0) numas m !! n)).
Proof.
  revert numas0 m. induction numas as [|x numas IH]; intros numas0 m Hm Hs; simpl.
  { rewrite app_nil_r. done. }
  rewrite (cons_middle x numas0 numas), (assoc_L (++)).
  replace (S (length numas0)) with (length (numas0 ++ [x])) by (rewrite length_app; simpl; lia).
  assert (∀ j n, numas0 !! j = Some n → (numas0 ++ [x]) !! j = Some n) as Hext
    by (intros; by apply lookup_app_l_Some).
  apply IH.
  - intros n l Hl. destruct (numa_is_valid x).
    + apply lookup_insert_Some in Hl as [[<- <-]|[_ Hl]].
      * split; [by destruct (default [] (m !! x))|]. apply Forall_app. split.
        { destruct (m !! x) as [l|] eqn:Hx; [|constructor]. destruct (Hm _ _ Hx) as [_ Hall].
          eapply Forall_impl; [exact Hall|]. auto. }
        constructor; [|constructor]. by rewrite list_lookup_middle.
      * destruct (Hm _ _ Hl) as [? Hall]. split; [done|]. eapply Forall_impl; [exact Hall|]. auto.
    + destruct (Hm _ _ Hl) as [? Hall]. split; [done|]. eapply Forall_impl; [exact Hall|]. auto.
  - intros j n Hj Hv. apply lookup_app_Some in Hj as [Hj|[_ Hj]].
    + destruct (numa_is_valid x); [|by eapply Hs]. rewrite lookup_insert_is_Some.
      destruct (decide (x = n)); [by left|right]. split; [done|by eapply Hs].
    + apply list_lookup_singleton_Some in Hj as [_ <-]. rewrite Hv. by rewrite lookup_insert_eq.
Qed.

Lemma from_runtimes_ok numas : rr_ok numas (from_runtimes numas).
Proof.
  destruct (group_nics_spec [] numas ∅) as [H1 H2].
  - intros n l Hl. by rewrite lookup_empty in Hl.
  - intros j n Hj. by rewrite lookup_nil in Hj.
  - simpl in *. constructor; simpl.
    + intros n g Hg. rewrite lookup_fmap in Hg. apply fmap_Some in Hg as (l & Hl & ->). by apply H1.
    + intros i n Hi Hv. rewrite lookup_fmap. destruct (H2 _ _ Hi Hv) as [l ->]. by eexists.
    + done.
Qed.

Lemma next_spec g :
  nic_indices g ≠ [] →
  ∃ i, next g = Ret (i, mkNicGroup (nic_indices g) (wrapping_add (rr_counter g) 1)) ∧
    nic_indices g !! Z.to_nat (rr_counter g mod Z.of_nat (length (nic_indices g))) = Some i.
Proof.
  intros Hne. unfold next. destruct (nic_indices g) as [|x l] eqn:Hl; [done|]. rewrite <- Hl in *.
  assert (0 < Z.of_nat (length (nic_indices g))) as Hpos by (rewrite Hl; simpl; lia).
  pose proof (Z.mod_pos_bound (rr_counter g) _ Hpos) as Hb.
  destruct (lookup_lt_is_Some_2 (nic_indices g) (Z.to_nat (rr_counter g mod Z.of_nat (length (nic_indices g)))))
    as [i Hi]; [lia|]. exists i. by rewrite Hi.
Qed.

Lemma pick_spec numas rr numa :
  rr_ok numas rr → numas ≠ [] →
  ∃ i rr', pick rr numa = Ret (i, rr') ∧ rr_ok numas rr' ∧ (i < length numas)%nat ∧
    (numa_is_valid numa = true → (∃ j, numas !! j = Some numa) → numas !! i = Some numa).
Proof.
  intros Hok Hne. pose proof Hok as [Hg Hs Ha]. unfold pick.
  destruct (if numa_is_valid numa then groups rr !! numa else None) as [g|] eqn:Hgrp.
  - destruct (numa_is_valid numa); [|done]. destruct (Hg _ _ Hgrp) as [Hnz Hall].
    destruct (next_spec g Hnz) as (i & -> & Hi). simpl. eexists i, _. split; [done|].
    rewrite Forall_lookup in Hall. pose proof (Hall _ _ Hi) as Hin. split.
    + constructor; simpl; [|intros j n Hj Hv; rewrite lookup_insert_is_Some;
        destruct (decide (numa = n)); [by left|right; split; [done|by eapply Hs]]|done].
      intros n g' [[<- <-]|[_ Hg']]%lookup_insert_Some; [by apply (Hg _ _ Hgrp)|by apply Hg].
    + split; [by eapply lookup_lt_Some|done].
  - assert (nic_indices (fallback rr) ≠ []) as Hnz.
    { rewrite Ha. by destruct numas. }
    destruct (next_spec _ Hnz) as (i & -> & Hi). simpl. eexists i, _. split; [done|].
    rewrite Ha in Hi. apply lookup_seq in Hi as [Hi1 Hi2]. split.
    + constructor; simpl; [done|done|done].
    + split; [lia|]. intros Hv [j Hj]. rewrite Hv in Hgrp. destruct (Hs _ _ Hj Hv) as [g Hg']. congruence.
Qed.

(** ** Permutations *)

Lemma mjoin_insert_perm {A} (v : list (list A)) i l x :
  v !! i = Some l → mjoin (<[i := l ++ [x]]> v) ≡ₚ x :: mjoin v.
Proof.
  revert i. induction v as [|l' v IH]; intros [|i] Hi; simplify_eq/=.
  - rewrite <- (assoc_L (++)). simpl. by rewrite Permutation_middle.
  - rewrite (IH i Hi). by rewrite Permutation_middle.
Qed.

Lemma mjoin_fmap {A B} (f : A → B) (v : list (list A)) : mjoin (map (fmap (M := list) f) v) = f <$> mjoin v.
Proof. induction v as [|l v IH]; [done|]. csimpl. by rewrite IH, fmap_app. Qed.

Section Batch.
Context {MR : Type} `{BuildProfile}.
Implicit Types ops : list (RdmaOp MR).

(** Operations with the index of their list. *)
Fixpoint tagged (k : nat) (v : list (list (RdmaOp MR))) : list (nat * RdmaOp MR) :=
  match v with
  | [] => []
  | l :: v => ((λ op, (k, op)) <$> l) ++ tagged (S k) v
  end.

Lemma tagged_push k v i l (x : RdmaOp MR) :
  v !! i = Some l → tagged k (<[i := l ++ [x]]> v) ≡ₚ ((k + i)%nat, x) :: tagged k v.
Proof.
  revert k i. induction v as [|l' v IH]; intros k [|i] Hi; simplify_eq/=.
  - rewrite fmap_app, <- (assoc_L (++)). simpl. rewrite Nat.add_0_r. by rewrite Permutation_middle.
  - rewrite (IH (S k) i Hi). rewrite Nat.add_succ_r, <- Nat.add_succ_l. by rewrite Permutation_middle.
Qed.

Lemma tagged_replicate k n : tagged k (replicate n []) = [].
Proof. revert k. induction n as [|n IH]; intros k; [done|]. simpl. apply IH. Qed.

(** [spread] puts every operation in some bucket. *)
Lemma spread_spec rot n i ops buckets :
  (0 < n)%nat → length buckets = n →
  ∃ b', spread rot n i ops buckets = Ret b' ∧ length b' = n ∧ mjoin b' ≡ₚ mjoin buckets ++ ops.
Proof.
  intros Hn. revert i buckets. induction ops as [|op ops IH]; intros i buckets Hl.
  { exists buckets. rewrite app_nil_r. done. }
  cbn [spread]. rewrite decide_False by lia. unfold push_at.
  set (j := Z.to_nat _).
  assert (j < length buckets)%nat as Hj.
  { unfold j. pose proof (Z.mod_pos_bound (wrapping_add rot (Z.of_nat i)) (Z.of_nat n) ltac:(lia)). lia. }
  destruct (lookup_lt_is_Some_2 _ _ Hj) as [l Hlk]. rewrite Hlk. cbn [unwrap mbind outcome_bind].
  destruct (IH (S i) (<[j := l ++ [op]]> buckets)) as (b' & -> & Hlen & Hperm); [by rewrite length_insert|].
  exists b'. split; [done|]. split; [done|]. rewrite Hperm, (mjoin_insert_perm _ _ _ _ Hlk).
  simpl. apply Permutation_middle.
Qed.

Lemma nic_jobs_spec sessions (buckets : list (list (RdmaOp MR))) :
  length sessions = length buckets →
  mjoin ((nic_jobs sessions buckets).*2) = mjoin buckets ∧
  Forall (λ j, j.1 ∈ sessions ∧ j.2 ≠ []) (nic_jobs sessions buckets).
Proof.
  revert buckets. induction sessions as [|s ss IH]; intros [|b bs] Hl; try done.
  destruct (IH bs) as [Hj Hall]; [simpl in Hl; lia|]. unfold nic_jobs in *. simpl.
  assert (Forall (λ j : RcSession * list (RdmaOp MR), j.1 ∈ s :: ss ∧ j.2 ≠ [])
    (List.filter (λ p, match p.2 with [] => false | _ => true end) (zip ss bs))) as Hall'.
  { eapply Forall_impl; [exact Hall|]. intros j [? ?]. split; [by right|done]. }
  destruct b as [|op b]; csimpl; [done|]. split.
  - by rewrite Hj.
  - constructor; [|done]. split; [left|done].
Qed.

(** The jobs of all NICs, NIC by NIC. *)
Definition jobs_ok (sessions : list RcSession) ops (jobs : list (RcSession * list (RdmaOp MR))) : Prop :=
  mjoin (jobs.*2) ≡ₚ ops ∧ Forall (λ j, j.1 ∈ sessions ∧ j.2 ≠ []) jobs.

Lemma nic_work_spec per_nic conns :
  Forall2 (λ (_ : list (RdmaOp MR)) (c : list RcSession * usize), c.1 ≠ []) per_nic conns →
  ∃ parts, nic_work per_nic conns = Ret (mjoin parts) ∧
    Forall2 (λ part p, jobs_ok (p.2.1) p.1 part) parts (zip per_nic conns).
Proof.
  induction 1 as [|ops [ss rot] per_nic conns Hc Hrest IH]; [by exists []|].
  destruct IH as (parts & Hw & Hparts). simpl in *. destruct ops as [|op ops].
  - exists ([] :: parts). simpl. rewrite Hw. split; [done|]. constructor; [|done]. by split.
  - destruct (spread_spec rot (length ss) 0 (op :: ops) (replicate (length ss) []))
      as (b & Hs & Hl & Hperm); [destruct ss; [done|simpl; lia]|by rewrite length_replicate|].
    cbn [unwrap mbind outcome_bind]. rewrite Hs. cbn [mbind outcome_bind]. rewrite Hw.
    cbn [mbind outcome_bind]. exists (nic_jobs ss b :: parts). split; [done|].
    destruct (nic_jobs_spec ss b) as [Hj Hall]; [done|]. constructor; [|done]. split; [|done]. simpl.
    rewrite Hj, Hperm. assert (mjoin (replicate (length ss) ([] : list (RdmaOp MR))) = []) as ->; [|done].
    clear. induction (length ss); [done|]. done.
Qed.

(** ** Resolution *)

Implicit Types reg : btree (RegisteredMemoryEntry MR).

(** Every registration has a memory region on each NIC. *)
Definition reg_ok (nics : nat) reg : Prop :=
  map_ok reg ∧ ∀ k e, (k, e) ∈ reg → length (mrs e) = nics.

(** What [batch_transfer_async] asks of a descriptor. *)
Definition desc_ok (nics : nat) reg (d : TransferDesc) : Prop :=
  0 < td_len d ∧ (∃ k e, (k, e) ∈ reg ∧ covers e (td_local d) (td_len d)) ∧
  contains (td_region d) (td_remote d) (td_len d) = true ∧ (nics <= length (rkeys (td_region d)))%nat.

Definition desc_u64 (d : TransferDesc) : Prop := 0 <= td_local d ∧ 0 <= td_len d.

(** [(nic, op)] carries out [d]: the same ranges, the local and remote keys of
    that NIC, and a NIC on the memory's NUMA node when that node has one. *)
Definition carries (numas : list u32) reg (d : TransferDesc) (p : nat * RdmaOp MR) : Prop :=
  contains (td_region d) (td_remote d) (td_len d) = true ∧
  local_ptr p.2 = td_local d ∧ remote_ptr p.2 = td_remote d ∧ op_len p.2 = td_len d ∧
  rkeys (td_region d) !! p.1 = Some (remote_rkey p.2) ∧ (p.1 < length numas)%nat ∧
  ∃ k e, (k, e) ∈ reg ∧ covers e (td_local d) (td_len d) ∧ mrs e !! p.1 = Some (local_mr p.2) ∧
    (numa_is_valid (entry_numa e) = true → (∃ j, numas !! j = Some (entry_numa e)) →
     numas !! p.1 = Some (entry_numa e)).

Lemma resolve_one_spec numas reg rr d :
  rr_ok numas rr → numas ≠ [] → reg_ok (length numas) reg → desc_u64 d →
  ∃ rr' r, resolve_one reg rr d = Ret (rr', r) ∧ rr_ok numas rr' ∧
    (desc_ok (length numas) reg d → ∃ p, r = Ok p) ∧
    (∀ p, r = Ok p → carries numas reg d p).
Proof.
  intros Hrr Hne [Hm Hmr] [Hl Hz]. unfold resolve_one.
  destruct (Z.eqb_spec (td_len d) 0) as [H0|H0].
  { eexists _, _. split; [done|]. split; [done|]. split; [|done]. intros [? _]. lia. }
  destruct (find_entry_spec reg (td_local d) (td_len d) Hm) as (o & -> & Ho); [lia|lia|].
  cbn [mbind outcome_bind]. destruct o as [e|].
  2:{ eexists _, _. split; [done|]. split; [done|]. split; [|done]. intros (_ & (k & e & He & Hc) & _).
      assert (None = Some e); [|done]. apply Ho. split; [by exists k|done]. }
  destruct (proj1 (Ho e) eq_refl) as [[k Hin] Hc].
  destruct (contains (td_region d) (td_remote d) (td_len d)) eqn:Hr; cbn [negb].
  2:{ eexists _, _. split; [done|]. split; [done|]. split; [|done]. intros (_ & _ & ? & _). congruence. }
  destruct (pick_spec numas rr (entry_numa e) Hrr Hne) as (i & rr' & -> & Hrr' & Hi & Hnuma).
  cbn [mbind outcome_bind]. destruct (lookup_lt_is_Some_2 (mrs e) i) as [mr Hmi].
  { by rewrite (Hmr _ _ Hin). }
  rewrite Hmi. cbn [unwrap mbind outcome_bind].
  destruct (rkeys (td_region d) !! i) as [key|] eqn:Hkey.
  - eexists _, _. split; [done|]. split; [done|]. split; [by eexists|]. intros p [= <-].
    unfold carries; simpl. split_and!; try done. by exists k, e.
  - eexists _, _. split; [done|]. split; [done|]. split; [|done]. intros (_ & _ & _ & Hlen).
    apply lookup_ge_None in Hkey. lia.
Qed.

Lemma resolve_spec numas reg rr descs per_nic :
  rr_ok numas rr → numas ≠ [] → reg_ok (length numas) reg → Forall desc_u64 descs →
  length per_nic = length numas →
  ∃ rr' r, resolve reg rr descs per_nic = Ret (rr', r) ∧ rr_ok numas rr' ∧
    (Forall (desc_ok (length numas) reg) descs → ∃ v, r = Ok v) ∧
    (∀ v, r = Ok v → length v = length numas ∧
      ∃ ps, Forall2 (carries numas reg) descs ps ∧ tagged 0 v ≡ₚ tagged 0 per_nic ++ ps).
Proof.
  intros Hrr Hne Hreg Hd. revert rr per_nic Hrr.
  induction Hd as [|d descs Hd _ IH]; intros rr per_nic Hrr Hlen; cbn [resolve].
  { eexists _, _. split; [done|]. split; [done|]. split; [by eexists|]. intros v [= <-]. split; [done|].
    exists []. by rewrite app_nil_r. }
  destruct (resolve_one_spec numas reg rr d Hrr Hne Hreg Hd) as (rr1 & r & -> & Hrr1 & Hok & Hc).
  cbn [mbind outcome_bind]. destruct r as [[i op]|e].
  2:{ eexists _, _. split; [done|]. split; [done|]. split; [|done]. intros [Hd1 _]%Forall_cons.
      by destruct (Hok Hd1). }
  pose proof (Hc _ eq_refl) as Hcar. pose proof Hcar as (_ & _ & _ & _ & _ & Hi & _). simpl in Hi.
  unfold push_at. destruct (lookup_lt_is_Some_2 per_nic i) as [l Hl]; [lia|]. rewrite Hl.
  cbn [unwrap mbind outcome_bind].
  destruct (IH rr1 (<[i := l ++ [op]]> per_nic) Hrr1) as (rr2 & r & -> & Hrr2 & Hok2 & Hv);
    [by rewrite length_insert|].
  eexists _, _. split; [done|]. split; [done|]. split; [intros [_ ?]%Forall_cons; by apply Hok2|].
  intros v Hr. destruct (Hv v Hr) as (Hlv & ps & Hps & Hperm). split; [done|].
  exists ((i, op) :: ps). split; [by constructor|]. rewrite Hperm, (tagged_push 0 _ _ _ _ Hl).
  simpl. apply Permutation_middle.
Qed.

(** ** Submission *)

Lemma submit_all alive op (work : list (RcSession * list (RdmaOp MR))) :
  Forall (λ w, alive w.1 = true) work →
  submit alive op work = ((λ w, mkCommand w.1 w.2 op) <$> work, Ok tt).
Proof.
  induction 1 as [|[s ops] work Hs _ IH]; [done|]. simpl in *. unfold transfer_batch_async.
  rewrite Hs, IH. done.
Qed.

(** ** Commands per NIC *)

Lemma tagged_filter k j (v : list (list (RdmaOp MR))) l :
  v !! j = Some l → (filter (λ p, p.1 = (k + j)%nat) (tagged k v)).*2 = l.
Proof.
  assert (∀ (v : list (list (RdmaOp MR))) a b, (a < b)%nat → filter (λ p, p.1 = a) (tagged b v) = []) as Hlow.
  { clear. induction v as [|l v IH]; intros a b Hab; [done|]. cbn [tagged]. rewrite filter_app, IH by lia.
    rewrite app_nil_r. induction l as [|x l IHl]; [done|]. csimpl. rewrite filter_cons_False; [done|]. simpl. lia. }
  assert (∀ (x : list (RdmaOp MR)) (a b : nat), filter (λ p, p.1 = a) ((λ op, (b, op)) <$> x) =
    if decide (a = b) then (λ op, (b, op)) <$> x else []) as Htag.
  { clear. induction x as [|o x IH]; intros a b; [by case_decide|]. csimpl. rewrite filter_cons, IH. simpl.
    destruct (decide (b = a)), (decide (a = b)); congruence. }
  revert k j. induction v as [|x v IH]; intros k [|j] Hj; simplify_eq/=; rewrite filter_app, Htag.
  - rewrite Nat.add_0_r, Hlow by lia. rewrite decide_True by done. rewrite app_nil_r.
    rewrite <- list_fmap_compose. by rewrite list_fmap_id.
  - rewrite decide_False by lia. replace (k + S j)%nat with (S k + j)%nat by lia. by apply IH.
Qed.

(** A connection made by the handshake: sessions on every NIC. *)
Definition conn_ok (nics : nat) (conn : AddrConnection) : Prop :=
  length (conn_nics conn) = nics ∧ Forall (λ n, conn_sessions n ≠ []) (conn_nics conn).

(** The commands of NIC [k]: sessions of its connection, the operations that
    were assigned to it, none empty. *)
Definition part_ok (op : TransferOp) (n : ConnNic) (ops : list (RdmaOp MR)) (part : list (SessionCommand (MR := MR))) : Prop :=
  mjoin (cmd_ops <$> part) ≡ₚ ops ∧
  Forall (λ c, cmd_session c ∈ conn_sessions n ∧ cmd_ops c ≠ [] ∧ cmd_op c = op) part.

Lemma nic_work_conn (per_nic : list (list (RdmaOp MR))) conn :
  conn_ok (length per_nic) conn →
  ∃ parts, nic_work per_nic ((λ n, (conn_sessions n, conn_rr n)) <$> conn_nics conn) = Ret (mjoin parts) ∧
    length parts = length per_nic ∧
    ∀ k part n ops, parts !! k = Some part → conn_nics conn !! k = Some n → per_nic !! k = Some ops →
      jobs_ok (conn_sessions n) ops part.
Proof.
  intros [Hlen Hne].
  destruct (nic_work_spec per_nic ((λ n, (conn_sessions n, conn_rr n)) <$> conn_nics conn)) as (parts & Hw & Hp).
  { apply Forall2_same_length_lookup. rewrite length_fmap. split; [done|]. intros k ops c _ Hc.
    rewrite list_lookup_fmap in Hc. apply fmap_Some in Hc as (n & Hn & ->).
    by eapply (Forall_lookup_1 _ _ _ _ Hne). }
  exists parts. split; [done|]. split.
  { rewrite (Forall2_length _ _ _ Hp), length_zip, length_fmap. lia. }
  intros k part n ops Hpart Hn Hops.
  eapply (Forall2_lookup_lr _ _ _ k part (ops, (conn_sessions n, conn_rr n))) in Hp; [exact Hp|done|].
  apply lookup_zip_Some. split; [done|]. by rewrite list_lookup_fmap, Hn.
Qed.

Lemma jobs_alive alive (nics : list ConnNic) (parts : list (list (RcSession * list (RdmaOp MR)))) (P : nat → list (RdmaOp MR)) :
  Forall (λ n, Forall (λ s, alive s = true) (conn_sessions n)) nics → length parts = length nics →
  (∀ k part n, parts !! k = Some part → nics !! k = Some n → jobs_ok (conn_sessions n) (P k) part) →
  Forall (λ w, alive w.1 = true) (mjoin parts).
Proof.
  intros Ha Hlen Hj. apply Forall_forall. intros w (part & Hw & [k Hk]%list_elem_of_lookup)%list_elem_of_join.
  destruct (lookup_lt_is_Some_2 nics k) as [n Hn]; [rewrite <- Hlen; by eapply lookup_lt_Some|].
  destruct (Hj _ _ _ Hk Hn) as [_ Hall]. rewrite Forall_forall in Hall. destruct (Hall _ Hw) as [Hin _].
  pose proof (Forall_lookup_1 _ _ _ _ Ha Hn) as Hs. simpl in Hs. rewrite Forall_forall in Hs. by apply Hs.
Qed.

(** The commands of a part. *)
Lemma part_of_jobs op n ops (part : list (RcSession * list (RdmaOp MR))) :
  jobs_ok (conn_sessions n) ops part → part_ok op n ops ((λ w, mkCommand w.1 w.2 op) <$> part).
Proof.
  intros [Hj Hall]. split.
  - by rewrite <- list_fmap_compose.
  - apply Forall_fmap. eapply Forall_impl; [exact Hall|]. intros w [? ?]. simpl. done.
Qed.

Lemma batch_safe_aux alive numas (st : RcBackendState (MR := MR)) rr op addr descs conn :
  rr_ok numas rr → numas ≠ [] → reg_ok (length numas) (registered st) →
  addr_connections st !! addr = Some conn → conn_ok (length numas) conn →
  Forall desc_u64 descs → descs ≠ [] →
  ∃ rr' r, resolve (registered st) rr descs (replicate (length numas) []) = Ret (rr', r) ∧ rr_ok numas rr' ∧
    let st' := mkRcState (registered st) (pending st) (<[addr := bump conn]> (addr_connections st)) (connecting st) in
    match r with
    | Err e => ¬ Forall (desc_ok (length numas) (registered st)) descs ∧
        batch_transfer_async alive (length numas) st rr op addr descs = Ret (mkBatchOut st' rr' [] (Err e))
    | Ok _ => ∃ ps parts, Forall2 (carries numas (registered st)) descs ps ∧ length parts = length numas ∧
        (∀ k part n, parts !! k = Some part → conn_nics conn !! k = Some n →
           jobs_ok (conn_sessions n) ((filter (λ p, p.1 = k) ps).*2) part) ∧
        batch_transfer_async alive (length numas) st rr op addr descs =
          Ret (let s := submit alive op (mjoin parts) in mkBatchOut st' rr' s.1 s.2)
    end.
Proof.
  intros Hrr Hne Hreg Hconn Hc Hd Hdn.
  destruct (resolve_spec numas (registered st) rr descs (replicate (length numas) []))
    as (rr' & r & Hres & Hrr' & Hok & Hv); [done..|by rewrite length_replicate|].
  exists rr', r. split; [done|]. split; [done|]. unfold batch_transfer_async.
  destruct descs as [|d0 ds] eqn:Hds; [done|]. rewrite <- Hds in *. rewrite Hconn. cbn [registered].
  rewrite Hres. cbn [mbind outcome_bind]. destruct r as [v|e].
  2:{ split; [|done]. intros Hall. by destruct (Hok Hall). }
  destruct (Hv v eq_refl) as (Hlv & ps & Hps & Hperm). rewrite tagged_replicate in Hperm. simpl in Hperm.
  destruct (nic_work_conn v conn) as (parts & -> & Hlen & Hjobs); [by rewrite Hlv|].
  exists ps, parts. split; [done|]. split; [lia|]. split.
  - intros k part n Hpart Hn. destruct (lookup_lt_is_Some_2 v k) as [ops Hops].
    { rewrite Hlv, <- (proj1 Hc). by eapply lookup_lt_Some. }
    destruct (Hjobs _ _ _ _ Hpart Hn Hops) as [Hj Hall]. split; [|done]. rewrite Hj.
    rewrite <- (tagged_filter 0 k v ops Hops). simpl. by rewrite Hperm.
  - cbn [mbind outcome_bind]. by destruct (submit alive op (mjoin parts)).
Qed.

Lemma batch_spec alive numas (st : RcBackendState (MR := MR)) rr op addr descs :
  rr_ok numas rr → numas ≠ [] → reg_ok (length numas) (registered st) →
  map_Forall (λ _ c, conn_ok (length numas) c) (addr_connections st) → Forall desc_u64 descs →
  ∃ o, batch_transfer_async alive (length numas) st rr op addr descs = Ret o ∧ rr_ok numas (bo_rr o) ∧
    addr_connections (bo_state o) = (match addr_connections st !! addr, descs with
      | Some c, _ :: _ => <[addr := bump c]> (addr_connections st)
      | _, _ => addr_connections st end) ∧
    registered (bo_state o) = registered st ∧ pending (bo_state o) = pending st ∧
    connecting (bo_state o) = connecting st ∧
    (bo_result o = Ok tt ∨ bo_sent o ≠ [] → ∃ ps, Forall2 (carries numas (registered st)) descs ps).
Proof.
  intros Hrr Hne Hreg Hconns Hu. destruct (decide (descs = [])) as [->|Hdn].
  { eexists. split; [done|]. split; [done|]. split; [by destruct (addr_connections st !! addr)|].
    split_and!; try done. intros _. by exists []. }
  destruct (addr_connections st !! addr) as [conn|] eqn:Hconn.
  2:{ exists (mkBatchOut st rr [] (Err (Backend "no connection for remote addr"))). unfold batch_transfer_async.
      rewrite Hconn. split; [by destruct descs|]. split_and!; try done. by intros [?|?]. }
  destruct (batch_safe_aux alive numas st rr op addr descs conn) as (rr' & r & _ & Hrr' & Hb);
    [done|done|done|done|by eapply Hconns|done|done|].
  assert (∀ A (x y : A), match descs with [] => y | _ :: _ => x end = x) as Hdesc by (by destruct descs).
  rewrite Hdesc. destruct r as [v|e].
  - destruct Hb as (ps & parts & Hps & _ & _ & ->). eexists. split; [done|].
    destruct (submit alive op (mjoin parts)). split_and!; try done. by exists ps.
  - destruct Hb as [_ ->]. eexists. split; [done|]. split_and!; try done. by intros [?|?].
Qed.

(** C33: When every descriptor of a batch is valid and the workers are running,
    [batch_transfer_async] turns it into exactly that work: each descriptor
    becomes one operation on one NIC, with its ranges and that NIC's keys, on
    the memory's NUMA node when the node has a NIC; and each NIC's operations
    are split, none lost or repeated, over non-empty commands to sessions of
    that NIC's connection to the peer. *)
Theorem batch_partition alive numas (st : RcBackendState (MR := MR)) rr op addr descs conn :
  rr_ok numas rr → numas ≠ [] → reg_ok (length numas) (registered st) →
  addr_connections st !! addr = Some conn → conn_ok (length numas) conn →
  Forall (λ n, Forall (λ s, alive s = true) (conn_sessions n)) (conn_nics conn) →
  Forall desc_u64 descs → descs ≠ [] → Forall (desc_ok (length numas) (registered st)) descs →
  ∃ o ps parts, batch_transfer_async alive (length numas) st rr op addr descs = Ret o ∧ bo_result o = Ok tt ∧
    Forall2 (carries numas (registered st)) descs ps ∧
    bo_sent o = mjoin parts ∧ length parts = length numas ∧
    ∀ k part n, parts !! k = Some part → conn_nics conn !! k = Some n →
      part_ok op n ((filter (λ p, p.1 = k) ps).*2) part.
Proof.
  intros Hrr Hne Hreg Hconn Hc Ha Hu Hdn Hd.
  destruct (batch_safe_aux alive numas st rr op addr descs conn) as (rr' & r & _ & _ & Hb); [done..|].
  destruct r as [v|e]; [|by destruct Hb]. destruct Hb as (ps & parts & Hps & Hlen & Hj & ->).
  rewrite submit_all by (apply (jobs_alive alive (conn_nics conn) parts (λ k, (filter (λ p, p.1 = k) ps).*2)); [exact Ha|by rewrite Hlen, (proj1 Hc)|exact Hj]).
  eexists _, ps, (map (fmap (M := list) (λ w, mkCommand w.1 w.2 op)) parts). split; [done|]. split; [done|]. split; [done|].
  split; [by rewrite mjoin_fmap|]. rewrite length_map. split; [done|].
  intros k part n Hpart Hn. change (map ?f parts) with (f <$> parts) in Hpart. rewrite list_lookup_fmap in Hpart. apply fmap_Some in Hpart as (p & Hp & ->).
  apply part_of_jobs. by apply Hj.
Qed.

(** [batch_transfer_async] returns on every batch, whatever its descriptors,
    and sends nothing before all of them are validated: a command reaches a
    worker only if every descriptor's local range is covered by one registered
    region and its remote range by its descriptor.  The registrations, the
    pending sessions and the handshakes in progress are untouched. *)
Theorem batch_all_or_nothing alive numas (st : RcBackendState (MR := MR)) rr op addr descs :
  rr_ok numas rr → numas ≠ [] → reg_ok (length numas) (registered st) →
  map_Forall (λ _ c, conn_ok (length numas) c) (addr_connections st) → Forall desc_u64 descs →
  ∃ o, batch_transfer_async alive (length numas) st rr op addr descs = Ret o ∧ rr_ok numas (bo_rr o) ∧
    registered (bo_state o) = registered st ∧ pending (bo_state o) = pending st ∧
    connecting (bo_state o) = connecting st ∧
    (bo_result o = Ok tt ∨ bo_sent o ≠ [] → ∃ ps, Forall2 (carries numas (registered st)) descs ps).
Proof.
  intros Hrr Hne Hreg Hconns Hu. destruct (batch_spec alive numas st rr op addr descs) as (o & Ho & H1 & _ & H2);
    [done..|]. by exists o.
Qed.
End Batch.

(** ** A concrete batch *)

#[local] Instance rb_profile : BuildProfile := true.

Definition rb_session (n : u32) : RcSession := mkSession (mkEndpoint [] 0 n n).
Definition rb_numas : list u32 := [0; 1].
Definition rb_reg : btree (RegisteredMemoryEntry u32) := [(4096, mkEntry 4096 256 1 [11; 12])].
Definition rb_conn : AddrConnection := mkConnection [mkConnNic [rb_session 1] 0; mkConnNic [rb_session 2; rb_session 3] 0] [].
Definition rb_state : RcBackendState (MR := u32) := mkRcState rb_reg [[]; []] {["peer" := rb_conn]} ∅.
Definition rb_desc (ptr : u64) : TransferDesc := mkTransferDesc ptr 9000 16 (mkDescriptor 8192 4096 [21; 22]).
Definition rb_descs : list TransferDesc := [rb_desc 4200; rb_desc 4300].

Lemma rb_reg_ok : reg_ok 2 rb_reg.
Proof. split; [by vm_compute|]. intros k e Hin%list_elem_of_singleton. by injection Hin as -> ->. Qed.

Lemma rb_conn_ok : conn_ok 2 rb_conn.
Proof. split; [done|]. by repeat constructor. Qed.

Lemma rb_desc_ok ptr : 4096 <= ptr <= 4336 → desc_ok 2 rb_reg (rb_desc ptr).
Proof.
  intros Hp. split; [done|]. split; [|by vm_compute].
  exists 4096, (mkEntry 4096 256 1 [11; 12]). split; [left|]. unfold covers. simpl. lia.
Qed.

Lemma batch_partition_witness :
  ∃ o, batch_transfer_async (λ _, true) 2 rb_state (from_runtimes rb_numas) Read "peer" rb_descs = Ret o ∧ bo_result o = Ok tt.
Proof.
  destruct (batch_partition (λ _, true) rb_numas rb_state (from_runtimes rb_numas) Read "peer" rb_descs rb_conn)
    as (o & ps & parts & Ho & Hr & _).
  - apply from_runtimes_ok.
  - done.
  - apply rb_reg_ok.
  - vm_compute. reflexivity.
  - apply rb_conn_ok.
  - by repeat constructor.
  - by repeat constructor.
  - done.
  - constructor; [|constructor; [|constructor]]; apply rb_desc_ok; lia.
  - exists o. split; [exact Ho|exact Hr].
Defined.

(** The first descriptor is valid, the second is not registered: nothing is sent. *)
Lemma batch_all_or_nothing_witness :
  ∃ o, batch_transfer_async (λ _, true) 2 rb_state (from_runtimes rb_numas) Read "peer" [rb_desc 4200; rb_desc 0] = Ret o ∧
    bo_sent o = [].
Proof.
  destruct (batch_all_or_nothing (λ _, true) rb_numas rb_state (from_runtimes rb_numas) Read "peer" [rb_desc 4200; rb_desc 0])
    as (o & Ho & _ & _ & _ & _ & Hs).
  - apply from_runtimes_ok.
  - done.
  - apply rb_reg_ok.
  - apply map_Forall_singleton, rb_conn_ok.
  - by repeat constructor.
  - exists o. split; [exact Ho|]. destruct (bo_sent o) as [|c cs] eqn:Hc; [reflexivity|]. exfalso.
    destruct Hs as (ps & Hps); [right; congruence|]. apply Forall2_cons_inv_l in Hps as (p & ps' & _ & Hps & _).
    apply Forall2_cons_inv_l in Hps as (p' & _ & Hcar & _ & _). destruct Hcar as (_ & _ & _ & _ & _ & _ & k & e & He & Hcov & _).
    apply list_elem_of_singleton in He. injection He as -> ->. unfold covers in Hcov. simpl in Hcov. lia.
Defined.
