(* ===== verification/Worker.v ===== *)
(** * The worker thread of a session: [spawn_worker] in [rc_backend/session.rs]

    A session is shared by reference counting: the backend and the callers hold
    strong references, the worker only a weak one, which it upgrades for the
    duration of a batch.  The channel of commands lives as long as the session.
    [worker_step] is the loop of the thread, cut where another thread can act;
    [session_step] interleaves it with the holders, who clone, drop and send. *)

From S2P Require Import Prelude RegMap Session RcBackend.

Definition session_invalidated : TransferError := Backend "session invalidated before batch execution".

Section Worker.
Context {MR : Type} (post : TransferOp → u64 → list (RdmaOp MR) → option string).
Context (self : RcSession).
Abbreviation Command := (nat * SessionCommand (MR := MR))%type.

(** Where the thread is: blocked in [recv], holding a command before and after
    [upgrade], in the [try_recv] loop after a failed upgrade, or finished. *)
Inductive Worker : Type :=
| Receiving
| Received (c : Command)
| Executing (c : Command)
| Draining
| Stopped.

(** [holders] counts the strong references outside the worker.  A command is
    paired with the number of its reply channel, its position in [accepted],
    the history of the commands sent; [replies] is the history of what was sent
    on the reply channels. *)
Record Chan : Type := mkChan {
  holders : nat;
  worker : Worker;
  queue : list Command;
  replies : list (nat * result TransferError usize);
  accepted : list (SessionCommand (MR := MR));
}.

(** The thread as [spawn_worker] leaves it, or the error of [spawn]; [create]
    hands out the one strong reference. *)
Definition spawn_worker (spawn : option string) : result TransferError Chan :=
  match spawn with
  | Some e => Err (Backend (String.append "failed to spawn session worker: " e))
  | None => Ok (mkChan 1 Receiving [] [] [])
  end.

(** The receiver is dropped when the thread ends. *)
Definition channel_open (st : Chan) : bool := match worker st with Stopped => false | _ => true end.

(** [transfer_batch_async]: the state after the send, and the reply channel. *)
Definition send (ops : list (RdmaOp MR)) (op : TransferOp) (st : Chan) : Chan * result TransferError nat :=
  match transfer_batch_async (λ _, channel_open st) self ops op with
  | Err e => (st, Err e)
  | Ok c =>
      let d := length (accepted st) in
      (mkChan (holders st) (worker st) (queue st ++ [(d, c)]) (replies st) (accepted st ++ [c]), Ok d)
  end.

Definition reply (d : nat) (r : result TransferError usize) (w : Worker) (q : list Command) (st : Chan) : Chan :=
  mkChan (holders st) w q (replies st ++ [(d, r)]) (accepted st).

Definition reply_session_invalidated (c : Command) (q : list Command) (st : Chan) : Chan :=
  reply c.1 (Err session_invalidated) Draining q st.

Definition set_worker (w : Worker) (q : list Command) (st : Chan) : Chan :=
  mkChan (holders st) w q (replies st) (accepted st).

(** One step of the thread; [None] when it is blocked or has ended.  [polls] is
    what polling the completion queue returns during a batch. *)
Definition worker_step (polls : list poll) (st : Chan) : option Chan :=
  match worker st with
  | Receiving =>
      match queue st with
      | c :: q => Some (set_worker (Received c) q st)
      | [] => if decide (holders st = 0%nat) then Some (set_worker Stopped [] st) else None
      end
  | Received c =>
      if decide (holders st = 0%nat) then Some (reply_session_invalidated c (queue st) st)
      else Some (set_worker (Executing c) (queue st) st)
  | Executing (d, c) =>
      match execute_batch post (cmd_ops c) (cmd_op c) polls with
      | Finished r _ => Some (reply d r Receiving (queue st) st)
      | Spinning _ => None
      end
  | Draining =>
      match queue st with
      | c :: q => Some (reply_session_invalidated c q st)
      | [] => Some (set_worker Stopped [] st)
      end
  | Stopped => None
  end.

Definition set_holders (n : nat) (st : Chan) : Chan :=
  mkChan n (worker st) (queue st) (replies st) (accepted st).

(** Only a holder can clone, drop or send. *)
Inductive session_step (st : Chan) : Chan → Prop :=
| step_clone : (0 < holders st)%nat → session_step st (set_holders (S (holders st)) st)
| step_drop : (0 < holders st)%nat → session_step st (set_holders (pred (holders st)) st)
| step_send ops op : (0 < holders st)%nat → session_step st (send ops op st).1
| step_work polls st' : worker_step polls st = Some st' → session_step st st'.

Definition session_reachable (st : Chan) : Prop :=
  ∃ st0, spawn_worker None = Ok st0 ∧ rtc session_step st0 st.

(** ** The invariant *)

Definition in_hand (w : Worker) : list Command :=
  match w with Received c | Executing c => [c] | _ => [] end.

(** Commands not answered yet, in the order of the answers. *)
Definition waiting (st : Chan) : list Command := in_hand (worker st) ++ queue st.

(** [r] is the outcome of executing the batch of [c] against some hardware. *)
Definition batch_outcome (c : SessionCommand (MR := MR)) (r : result TransferError usize) : Prop :=
  ∃ polls b, execute_batch post (cmd_ops c) (cmd_op c) polls = Finished r b.

Definition answered (l : list (SessionCommand (MR := MR))) (a : nat * result TransferError usize) : Prop :=
  ∃ c, l !! a.1 = Some c ∧ batch_outcome c a.2.

Definition closing (w : Worker) : bool := match w with Draining | Stopped => true | _ => false end.

Record chan_ok (st : Chan) : Prop := mkChanOk {
  co_order : (replies st).*1 ++ (waiting st).*1 = seq 0 (length (accepted st));
  co_cmds : Forall (λ c : Command, accepted st !! c.1 = Some c.2) (waiting st);
  co_replies : Forall (λ a, answered (accepted st) a ∨ a.2 = Err session_invalidated) (replies st);
  co_live : closing (worker st) = false → Forall (answered (accepted st)) (replies st);
  co_closing : closing (worker st) = true → holders st = 0%nat;
  co_stopped : worker st = Stopped → queue st = [];
}.

Lemma answered_app l k a : answered l a → answered (l ++ k) a.
Proof. intros (c & Hc & Ho). exists c. split; [|done]. by apply lookup_app_l_Some. Qed.

(** A step of the thread that answers nothing keeps the order. *)
Lemma set_worker_ok w q st :
  chan_ok st → in_hand w ++ q = waiting st → closing (worker st) = false ∨ closing w = true →
  (closing w = true → holders st = 0%nat) → (w = Stopped → q = []) → chan_ok (set_worker w q st).
Proof.
  intros [H1 H2 H3 H4 H5 H6] Hw Hc Hh Hs.
  assert (waiting (set_worker w q st) = waiting st) as Heq by done.
  constructor; rewrite ?Heq; simpl; try done.
  intros Hcw. apply H4. destruct Hc as [Hc|Hc]; congruence.
Qed.

(** One that answers the first command waiting. *)
Lemma reply_ok d c r w q st :
  chan_ok st → waiting st = (d, c) :: q → in_hand w = [] → w ≠ Stopped →
  batch_outcome c r ∧ closing (worker st) = false ∨ r = Err session_invalidated ∧ closing w = true →
  (closing w = true → holders st = 0%nat) → chan_ok (reply d r w q st).
Proof.
  intros [H1 H2 H3 H4 H5 H6] Hw Hi Hns Hr Hh. rewrite Hw in H1, H2. apply Forall_cons in H2 as [Hc H2]. simpl in Hc.
  constructor; unfold waiting; simpl; rewrite ?Hi; simpl; try done.
  - rewrite fmap_app, <- app_assoc. exact H1.
  - apply Forall_app. split; [done|]. constructor; [|done]. destruct Hr as [[Ho _]|[-> _]]; [|by right].
    left. by exists c.
  - intros Hcw. destruct Hr as [[Ho Hcl]|[_ Hcl]]; [|congruence].
    apply Forall_app. split; [by apply H4|]. constructor; [|done]. by exists c.
Qed.

Lemma worker_step_ok polls st st' : chan_ok st → worker_step polls st = Some st' → chan_ok st'.
Proof.
  intros Hok. unfold worker_step. destruct (worker st) as [|c|[d c]| |] eqn:Hw; [| | | |done].
  - destruct (queue st) as [|c q] eqn:Hq; [case_decide; [|done]|]; intros [= <-];
      (apply set_worker_ok; [done|unfold waiting; by rewrite Hw, Hq|rewrite Hw; by left|done|done]).
  - assert (waiting st = c :: queue st) as Hwt by (unfold waiting; by rewrite Hw).
    case_decide as Hh; intros [= <-].
    + destruct c as [d c]. eapply reply_ok; try done. by right.
    + apply set_worker_ok; [done|by rewrite Hwt|rewrite Hw; by left|done|done].
  - destruct (execute_batch _ _ _ _) as [r b|] eqn:He; [|done]. intros [= <-].
    apply (reply_ok d c); try done; [unfold waiting; by rewrite Hw|]. left. rewrite Hw. split; [by exists polls, b|done].
  - pose proof (co_closing _ Hok) as Hh. rewrite Hw in Hh.
    destruct (queue st) as [|[d c] q] eqn:Hq; intros [= <-].
    + apply set_worker_ok; [done|unfold waiting; by rewrite Hw, Hq|by right|done|done].
    + eapply reply_ok; try done; [unfold waiting; by rewrite Hw, Hq|by right].
Qed.

Lemma set_holders_ok n st : chan_ok st → closing (worker st) = false → chan_ok (set_holders n st).
Proof. intros [H1 H2 H3 H4 H5 H6] Hc. constructor; simpl; try done. congruence. Qed.

(** While a reference is held the thread is in its loop. *)
Lemma held_not_closing st : chan_ok st → (0 < holders st)%nat → closing (worker st) = false.
Proof. intros Hok Hh. destruct (closing (worker st)) eqn:Hc; [|done]. pose proof (co_closing _ Hok Hc). lia. Qed.

Lemma held_send ops op st :
  chan_ok st → (0 < holders st)%nat →
  send ops op st = (mkChan (holders st) (worker st) (queue st ++ [(length (accepted st), mkCommand self ops op)])
                      (replies st) (accepted st ++ [mkCommand self ops op]), Ok (length (accepted st))).
Proof.
  intros Hok Hh. unfold send, transfer_batch_async.
  assert (channel_open st = true) as ->; [|done].
  pose proof (held_not_closing _ Hok Hh). unfold channel_open. by destruct (worker st).
Qed.

Lemma send_ok ops op st : chan_ok st → (0 < holders st)%nat → chan_ok (send ops op st).1.
Proof.
  intros Hok Hh. pose proof (held_not_closing _ Hok Hh) as Hc. rewrite held_send by done. destruct Hok as [H1 H2 H3 H4 H5 H6].
  constructor; unfold waiting in *; simpl; rewrite ?app_assoc; try done.
  - rewrite fmap_app, app_assoc, H1, length_app, seq_app. done.
  - apply Forall_app. split.
    + eapply Forall_impl; [exact H2|]. intros c Hl. by apply lookup_app_l_Some.
    + constructor; [|done]. simpl. by apply list_lookup_middle.
  - eapply Forall_impl; [exact H3|]. intros a [Ha|Ha]; [left; by apply answered_app|by right].
  - intros _. eapply Forall_impl; [exact (H4 Hc)|]. intros a. apply answered_app.
  - intros Hs. rewrite Hs in Hc. done.
Qed.

Lemma session_step_ok st st' : chan_ok st → session_step st st' → chan_ok st'.
Proof.
  intros Hok [Hh|Hh|ops op Hh|polls ? Hs].
  - by apply set_holders_ok; [|apply held_not_closing].
  - by apply set_holders_ok; [|apply held_not_closing].
  - by apply send_ok.
  - by eapply worker_step_ok.
Qed.

Lemma session_reachable_ok st : session_reachable st → chan_ok st.
Proof.
  intros (st0 & [= <-] & Hr).
  assert (chan_ok (mkChan 1 Receiving [] [] [])) as H0 by (constructor; by try constructor).
  revert H0. induction Hr as [|x y z Hxy _ IH]; [done|]. intros H0. apply IH. by eapply session_step_ok.
Qed.

(** ** Termination of the thread's work *)

Definition work_left (st : Chan) : nat :=
  3 * length (queue st) +
  match worker st with Receiving => 1 | Received _ => 3 | Executing _ => 2 | Draining => 1 | Stopped => 0 end.

Definition work (st st' : Chan) : Prop := ∃ polls, worker_step polls st = Some st'.

Lemma work_decreases st st' : work st st' → (work_left st' < work_left st)%nat.
Proof.
  intros [polls Hs]. unfold worker_step in Hs. unfold work_left.
  destruct (worker st) as [|c|[d c]| |]; repeat case_match; simplify_eq/=; lia.
Qed.

Lemma work_bound n st st' : nsteps work n st st' → (n <= work_left st)%nat.
Proof.
  intros Hn. assert (n + work_left st' <= work_left st)%nat; [|lia].
  induction Hn as [|n x y z Hxy _ IH]; [lia|]. pose proof (work_decreases _ _ Hxy). lia.
Qed.

(** C29: A session answers every command exactly once and in the order of the
    sends, whatever the interleaving of its worker with the holders of the
    session.  While a reference is held a send is accepted and every answer so
    far is the outcome of the command's own batch; a command may be answered
    "session invalidated" only once the last holder is gone.  When the thread
    has ended, every command accepted has been answered. *)
Theorem worker_answers_once st :
  session_reachable st →
  (replies st).*1 ++ (waiting st).*1 = seq 0 (length (accepted st)) ∧
  Forall (λ a, answered (accepted st) a ∨ a.2 = Err session_invalidated) (replies st) ∧
  ((0 < holders st)%nat → Forall (answered (accepted st)) (replies st) ∧
     ∀ ops op, (send ops op st).2 = Ok (length (accepted st))) ∧
  (worker st = Stopped → holders st = 0%nat ∧ (replies st).*1 = seq 0 (length (accepted st))).
Proof.
  intros Hr%session_reachable_ok. pose proof Hr as [H1 H2 H3 H4 H5 H6]. split_and!; try done.
  - intros Hh. split; [by apply H4, held_not_closing|]. intros ops op. by rewrite held_send.
  - intros Hs. split; [apply H5; by rewrite Hs|]. unfold waiting in H1. rewrite Hs, (H6 Hs) in H1.
    simpl in H1. by rewrite app_nil_r in H1.
Qed.

(** C30: The worker always gets to the end of its work: left to itself it takes at
    most three steps per queued command and three more, and it is stuck only
    inside a batch whose completions have not arrived, or waiting for a holder
    to send, or ended because there is no holder; in the last two cases every
    command accepted has been answered. *)
Theorem worker_terminates st :
  session_reachable st →
  (∀ n st', nsteps work n st st' → (n <= 3 * length (queue st) + 3)%nat) ∧
  (∀ polls, worker_step polls st = None →
     (∃ d c b, worker st = Executing (d, c) ∧ execute_batch post (cmd_ops c) (cmd_op c) polls = Spinning b) ∨
     ((replies st).*1 = seq 0 (length (accepted st)) ∧
      (worker st = Receiving ∧ (0 < holders st)%nat ∨ worker st = Stopped ∧ holders st = 0%nat))).
Proof.
  intros Hr%session_reachable_ok. split.
  - intros n st' Hn%work_bound. unfold work_left in Hn. destruct (worker st); lia.
  - intros polls Hs. pose proof Hr as [H1 _ _ _ H5 H6]. unfold waiting in H1. unfold worker_step in Hs.
    destruct (worker st) as [|c|[d c]| |] eqn:Hw.
    + destruct (queue st) as [|]; [|done]. case_decide; [done|]. simpl in H1. rewrite app_nil_r in H1.
      right. split; [done|]. left. split; [done|lia].
    + by case_decide.
    + destruct (execute_batch _ _ _ _) as [|b] eqn:He; [done|]. left. by exists d, c, b.
    + by destruct (queue st).
    + rewrite (H6 eq_refl) in H1. simpl in H1. rewrite app_nil_r in H1. right. split; [done|]. right.
      split; [done|]. by apply H5.
Qed.
End Worker.

(** ** A concrete session: two sends, the first batch completes, the last
    reference is dropped before the second is executed *)

Definition wk_self : RcSession := mkSession (mkEndpoint [] 0 101 1).
Definition wk_cmd : SessionCommand (MR := unit) := mkCommand wk_self [ses_op 10] Write.
Definition wk_polls : list poll := [PollWcs [mkWc 1 true]].

Definition wk_busy : Chan (MR := unit) := mkChan 1 (Executing (0%nat, wk_cmd)) [(1%nat, wk_cmd)] [] [wk_cmd; wk_cmd].
Definition wk_dropped : Chan (MR := unit) :=
  mkChan 0 Receiving [(1%nat, wk_cmd)] [(0%nat, Ok 10)] [wk_cmd; wk_cmd].
Definition wk_end : Chan (MR := unit) :=
  mkChan 0 Stopped [] [(0%nat, Ok 10); (1%nat, Err session_invalidated)] [wk_cmd; wk_cmd].

Lemma wk_busy_reachable : session_reachable ses_post wk_self wk_busy.
Proof.
  eexists. split; [reflexivity|]. eapply rtc_l; [apply (step_send _ _ _ [ses_op 10] Write); simpl; lia|].
  eapply rtc_l; [apply (step_send _ _ _ [ses_op 10] Write); simpl; lia|].
  do 2 (eapply rtc_l; [apply (step_work _ _ _ wk_polls); vm_compute; reflexivity|]). apply rtc_refl.
Qed.

Lemma wk_dropped_reachable : session_reachable ses_post wk_self wk_dropped.
Proof.
  destruct wk_busy_reachable as (st0 & H0 & Hr). exists st0. split; [done|]. etrans; [exact Hr|].
  eapply rtc_l; [apply (step_work _ _ _ wk_polls); vm_compute; reflexivity|].
  apply rtc_once. apply (step_drop _ _ (mkChan 1 Receiving [(1%nat, wk_cmd)] [(0%nat, Ok 10)] [wk_cmd; wk_cmd])). simpl. lia.
Qed.

Lemma wk_end_reachable : session_reachable ses_post wk_self wk_end.
Proof.
  destruct wk_dropped_reachable as (st0 & H0 & Hr). exists st0. split; [done|]. etrans; [exact Hr|].
  do 3 (eapply rtc_l; [apply (step_work _ _ _ []); vm_compute; reflexivity|]). apply rtc_refl.
Qed.

Lemma worker_answers_once_witness :
  (replies wk_end).*1 = seq 0 (length (accepted wk_end)) ∧ (send wk_self [ses_op 5] Read wk_busy).2 = Ok 2%nat.
Proof.
  split.
  - destruct (worker_answers_once ses_post wk_self wk_end wk_end_reachable) as (_ & _ & _ & Hs).
    by destruct (Hs eq_refl).
  - destruct (worker_answers_once ses_post wk_self wk_busy wk_busy_reachable) as (_ & _ & Hs & _).
    destruct Hs as [_ Hs]; [simpl; lia|]. apply (Hs [ses_op 5] Read).
Defined.

(** With no completion the worker spins in the batch; after the last step it has
    answered both commands. *)
Lemma worker_terminates_witness :
  (∃ d c b, worker wk_busy = Executing (d, c) ∧ execute_batch ses_post (cmd_ops c) (cmd_op c) [] = Spinning b) ∧
  (∃ st, nsteps (work ses_post) 3 wk_dropped st ∧ (3 <= 3 * length (queue wk_dropped) + 3)%nat) ∧
  (replies wk_end).*1 = seq 0 (length (accepted wk_end)).
Proof.
  split_and!.
  - destruct (worker_terminates ses_post wk_self wk_busy wk_busy_reachable) as [_ Hb].
    destruct (Hb []) as [Hs|[_ [[Hw _]|[Hw _]]]]; [by vm_compute|done|done|done].
  - exists wk_end.
    assert (nsteps (work ses_post) 3 wk_dropped wk_end) as Hn
      by (do 3 (eapply nsteps_l; [exists []; vm_compute; reflexivity|]); apply nsteps_O).
    split; [done|]. destruct (worker_terminates ses_post wk_self wk_dropped wk_dropped_reachable) as [Hb _].
    by eapply Hb.
  - destruct (worker_terminates ses_post wk_self wk_end wk_end_reachable) as [_ Hb].
    destruct (Hb []) as [(d & c & b & Hw & _)|[Hs _]]; [by vm_compute|done|exact Hs].
Defined.
