(* ===== verification/Handshake.v ===== *)
(** * The handshake of the RDMA backend: [rc_backend/mod.rs], [state.rs], [session.rs]

    [get_or_prepare], [complete_handshake_for], [abort_handshake] and
    [invalidate_connection].  Each of the first two takes the state lock more
    than once, so each critical section is a definition and the method is their
    composition; [HandshakeInv] interleaves the sections of different callers.
    The verbs library is a parameter: [build_qp] is the number of a new queue
    pair (or an error), [modify] the outcome of its transitions to RTR and RTS
    towards a remote endpoint. *)

From S2P Require Import Prelude RegMap Session RcBackend.

Inductive LinkLayer : Type := InfiniBand | Ethernet | Unspecified.

(** The fields of [RcRuntime] the backend reads. *)
Record RcRuntime : Type := mkRuntime {
  rt_gid : list u8;
  rt_lid : u16;
  rt_link : LinkLayer;
  rt_numa : u32;
}.

(** [RcSession::create]. *)
Definition create (rt : RcRuntime) (qp : result string u32) (psn_seed : u64) : result TransferError RcSession :=
  match qp with
  | Err e => Err (Backend e)
  | Ok n => Ok (mkSession (mkEndpoint (rt_gid rt) (rt_lid rt) n (local_psn psn_seed)))
  end.

(** [RcSession::connect]. *)
Definition connect (rt : RcRuntime) (modify : option string) (remote : RcEndpoint) : result TransferError unit :=
  match rt_link rt with
  | InfiniBand =>
      if ep_lid remote =? 0 then Err (InvalidArgument "remote LID is zero for InfiniBand connection")
      else match modify with Some e => Err (Backend e) | None => Ok tt end
  | Ethernet => match modify with Some e => Err (Backend e) | None => Ok tt end
  | Unspecified => Err (Backend "unsupported link layer for RC connection")
  end.

Definition endpoints (ss : list RcSession) : list RcEndpoint := local_endpoint <$> ss.

(** [PerNicState::remove_pending_by_qpn]. *)
Definition remove_pending_by_qpn (pending : list RcSession) (qpn : u32) : option RcSession * list RcSession :=
  match position (λ s, qp_num (local_endpoint s) =? qpn) pending with
  | None => (None, pending)
  | Some pos => (pending !! pos, delete pos pending)
  end.

(** The loops that drop pending sessions by number. *)
Fixpoint drop_nic (eps : list RcEndpoint) (q : list RcSession) : list RcSession :=
  match eps with
  | [] => q
  | ep :: eps => drop_nic eps (remove_pending_by_qpn q (qp_num ep)).2
  end.

Fixpoint drop_pending (local_nics : list NicHandshake) (nics : list (list RcSession))
    : outcome (list (list RcSession)) :=
  match local_nics, nics with
  | [], _ => Ret nics
  | [] :: local_nics, [] => drop_pending local_nics []
  | _ :: _, [] => Panicked
  | eps :: local_nics, q :: nics => rest ← drop_pending local_nics nics; Ret (drop_nic eps q :: rest)
  end.

(** The loops of [complete_handshake_for] that pop the caller's sessions; what
    was popped before an error stays popped. *)
Fixpoint take_nic (eps : list RcEndpoint) (q : list RcSession)
    : list RcSession * result TransferError (list RcSession) :=
  match eps with
  | [] => (q, Ok [])
  | ep :: eps =>
      match remove_pending_by_qpn q (qp_num ep) with
      | (None, q) => (q, Err (Backend "no pending session to complete"))
      | (Some s, q) => let '(q, r) := take_nic eps q in (q, rest ← r; Ok (s :: rest))
      end
  end.

Fixpoint take_pending (local_nics : list NicHandshake) (nics : list (list RcSession))
    : outcome (list (list RcSession) * result TransferError (list (list RcSession))) :=
  match local_nics, nics with
  | [], _ => Ret (nics, Ok (replicate (length nics) []))
  | [] :: local_nics, [] => take_pending local_nics []
  | _ :: _, [] => Panicked
  | eps :: local_nics, q :: nics =>
      match take_nic eps q with
      | (q, Err e) => Ret (q :: nics, Err e)
      | (q, Ok ss) =>
          '(nics, r) ← take_pending local_nics nics;
          Ret (q :: nics, rest ← r; Ok (ss :: rest))
      end
  end.

(** Creating the queue pairs: [qps_per_peer] on each NIC. *)
Fixpoint create_nic (build_qp : u64 → result string u32) (rt : RcRuntime) (psn : u64) (qps : nat)
    : u64 * result TransferError (list RcSession) :=
  match qps with
  | O => (psn, Ok [])
  | S qps =>
      let next := wrapping_add psn 1 in
      match create rt (build_qp psn) psn with
      | Err _ => (next, Err (Backend "QP creation failed"))
      | Ok s => let '(psn, r) := create_nic build_qp rt next qps in (psn, rest ← r; Ok (s :: rest))
      end
  end.

Fixpoint create_all (build_qp : nat → u64 → result string u32) (nic : nat) (rts : list RcRuntime) (psn : u64)
    (qps : nat) : u64 * result TransferError (list (list RcSession)) :=
  match rts with
  | [] => (psn, Ok [])
  | rt :: rts =>
      match create_nic (build_qp nic) rt psn qps with
      | (psn, Err e) => (psn, Err e)
      | (psn, Ok ss) => let '(psn, r) := create_all build_qp (S nic) rts psn qps in (psn, rest ← r; Ok (ss :: rest))
      end
  end.

(** [state.nics[nic_idx].pending.push_back(s)] for every new session. *)
Fixpoint push_pending (per_nic : list (list RcSession)) (nics : list (list RcSession))
    : outcome (list (list RcSession)) :=
  match per_nic, nics with
  | [], _ => Ret nics
  | [] :: per_nic, [] => push_pending per_nic []
  | _ :: _, [] => Panicked
  | ss :: per_nic, q :: nics => rest ← push_pending per_nic nics; Ret ((q ++ ss) :: rest)
  end.

(** Connecting local queue pair [i] to remote queue pair [i] on each NIC. *)
Fixpoint connect_nic (modify : RcSession → RcEndpoint → option string) (rt : RcRuntime) (ss : list RcSession)
    (eps : list RcEndpoint) : outcome (result TransferError unit) :=
  match ss, eps with
  | [], _ => Ret (Ok tt)
  | _ :: _, [] => Panicked
  | s :: ss, ep :: eps =>
      match connect rt (modify s ep) ep with
      | Err e => Ret (Err e)
      | Ok _ => connect_nic modify rt ss eps
      end
  end.

Fixpoint connect_all (modify : nat → RcSession → RcEndpoint → option string) (nic : nat) (rts : list RcRuntime)
    (pend : list (list RcSession)) (remote_nics : list NicHandshake) : outcome (result TransferError unit) :=
  match pend, rts, remote_nics with
  | [], _, _ => Ret (Ok tt)
  | ss :: pend, rt :: rts, eps :: remote_nics =>
      r ← connect_nic (modify nic) rt ss eps;
      match r with
      | Err e => Ret (Err e)
      | Ok _ => connect_all modify (S nic) rts pend remote_nics
      end
  | _, _, _ => Panicked
  end.

(** ** Opening the backend *)

(** [RcBackend], without its locked state and atomics. *)
Record RcBackend : Type := mkBackend {
  rc_runtimes : list RcRuntime;
  rc_qps_per_peer : nat;
}.

(** [trim().is_empty()] on an ASCII name. *)
Fixpoint is_blank (s : string) : bool :=
  match s with
  | EmptyString => true
  | String c s =>
      let n := Ascii.nat_of_ascii c in
      (((9 <=? n) && (n <=? 13)) || (n =? 32))%nat && is_blank s
  end.

Fixpoint open_all (open : string → result TransferError RcRuntime) (nic_names : list string)
    : result TransferError (list RcRuntime) :=
  match nic_names with
  | [] => Ok []
  | name :: nic_names =>
      if is_blank name then Err (InvalidArgument "nic_name is empty") else
      rt ← open name;
      rest ← open_all open nic_names;
      Ok (rt :: rest)
  end.

(** [RcBackend::new]; [open] is [RcRuntime::open].  The state starts as
    [state_new], the round robin as [from_runtimes]. *)
Definition rc_new (open : string → result TransferError RcRuntime) (nic_names : list string) (qps_per_peer : nat)
    : result TransferError RcBackend :=
  match nic_names with
  | [] => Err (InvalidArgument "nic_names is empty")
  | _ =>
      if decide (qps_per_peer = 0%nat) then Err (InvalidArgument "qps_per_peer must be > 0") else
      runtimes ← open_all open nic_names;
      Ok (mkBackend runtimes qps_per_peer)
  end.

Lemma rc_new_spec open nic_names qps b :
  rc_new open nic_names qps = Ok b → (0 < rc_qps_per_peer b)%nat ∧ rc_runtimes b ≠ [].
Proof.
  unfold rc_new. destruct nic_names as [|n names]; [done|]. case_decide; [done|]. cbn [open_all].
  destruct (is_blank n); [done|]. destruct (open n) as [rt|]; [|done]. cbn [mbind result_bind].
  destruct (open_all open names); [|done]. intros [= <-]. simpl. split; [lia|done].
Qed.

Section Handshake.
Context {MR : Type} `{BuildProfile}.
Abbreviation RcState := (RcBackendState (MR := MR)).
Context (runtimes : list RcRuntime) (qps_per_peer : nat).

Inductive GetOrPrepareResult : Type :=
| Existing
| AlreadyConnecting
| NeedHandshake (nics : list NicHandshake).

Definition set_pending (p : list (list RcSession)) (st : RcState) : RcState :=
  mkRcState (registered st) p (addr_connections st) (connecting st).

Definition set_connecting (c : gset string) (st : RcState) : RcState :=
  mkRcState (registered st) (pending st) (addr_connections st) c.

Definition set_connections (c : gmap string AddrConnection) (st : RcState) : RcState :=
  mkRcState (registered st) (pending st) c (connecting st).

(** [connecting.remove(addr)] followed by [debug_assert!(removed)]. *)
Definition leave (addr : string) (st : RcState) : outcome RcState :=
  _ ← debug_assert (bool_decide (addr ∈ connecting st));
  Ret (set_connecting (connecting st ∖ {[addr]}) st).

(** First section of [get_or_prepare]: [None] means this caller prepares. *)
Definition get_or_prepare_enter (addr : string) (st : RcState) : RcState * option GetOrPrepareResult :=
  match addr_connections st !! addr with
  | Some _ => (st, Some Existing)
  | None =>
      if decide (addr ∈ connecting st) then (st, Some AlreadyConnecting)
      else (set_connecting ({[addr]} ∪ connecting st) st, None)
  end.

(** The locked part of [prepare_handshake]. *)
Definition prepare_push (per_nic : list (list RcSession)) (st : RcState) : outcome (RcState * list NicHandshake) :=
  p ← push_pending per_nic (pending st);
  Ret (set_pending p st, endpoints <$> per_nic).

Definition get_or_prepare (build_qp : nat → u64 → result string u32) (addr : string) (psn : u64) (st : RcState)
    : outcome (u64 * RcState * result TransferError GetOrPrepareResult) :=
  match get_or_prepare_enter addr st with
  | (st, Some r) => Ret (psn, st, Ok r)
  | (st, None) =>
      match create_all build_qp 0 runtimes psn qps_per_peer with
      | (psn, Ok per_nic) =>
          '(st, nics) ← prepare_push per_nic st;
          Ret (psn, st, Ok (NeedHandshake nics))
      | (psn, Err e) => st ← leave addr st; Ret (psn, st, Err e)
      end
  end.

(** The checks of [complete_handshake_for] on the peer's metadata. *)
Definition check_remote (remote_nics : list NicHandshake) : result TransferError unit :=
  if negb (length remote_nics =? length runtimes)%nat
  then Err (InvalidArgument "remote NIC count mismatch in handshake")
  else if existsb (λ nic, negb (length nic =? qps_per_peer)%nat) remote_nics
  then Err (Backend "remote qps_per_peer mismatch")
  else Ok tt.

(** Its first section: [Ok None] when another caller has already connected. *)
Definition complete_take (addr : string) (local_nics : list NicHandshake) (st : RcState)
    : outcome (RcState * result TransferError (option (list (list RcSession)))) :=
  match addr_connections st !! addr with
  | Some _ =>
      p ← drop_pending local_nics (pending st);
      Ret (set_connecting (connecting st ∖ {[addr]}) (set_pending p st), Ok None)
  | None =>
      '(p, r) ← take_pending local_nics (pending st);
      Ret (set_pending p st, ss ← r; Ok (Some ss))
  end.

(** Its last section. *)
Definition complete_install (addr : string) (local_nics : list NicHandshake) (pend : list (list RcSession))
    (st : RcState) : outcome RcState :=
  st ← leave addr st;
  Ret (set_connections
         (<[addr := mkConnection ((λ ss, mkConnNic ss 0) <$> pend) local_nics]> (addr_connections st)) st).

Definition complete_handshake_for (modify : nat → RcSession → RcEndpoint → option string) (addr : string)
    (local_nics remote_nics : list NicHandshake) (st : RcState)
    : outcome (RcState * result TransferError unit) :=
  match check_remote remote_nics with
  | Err e => Ret (st, Err e)
  | Ok _ =>
      '(st, r) ← complete_take addr local_nics st;
      match r with
      | Err e => Ret (st, Err e)
      | Ok None => Ret (st, Ok tt)
      | Ok (Some pend) =>
          r ← connect_all modify 0 runtimes pend remote_nics;
          match r with
          | Err e => Ret (st, Err e)
          | Ok _ => st ← complete_install addr local_nics pend st; Ret (st, Ok tt)
          end
      end
  end.

Definition abort_handshake (addr : string) (local_nics : list NicHandshake) (st : RcState) : outcome RcState :=
  st ← leave addr st;
  p ← drop_pending local_nics (pending st);
  Ret (set_pending p st).

Definition local_meta_for_addr (addr : string) (st : RcState) : option (list NicHandshake) :=
  conn_local <$> addr_connections st !! addr.

Definition invalidate_connection (addr : string) (st : RcState) : RcState :=
  set_connections (delete addr (addr_connections st)) st.
End Handshake.
