(* ===== verification/HandshakeInv.v ===== *)
(** * The RDMA backend as a transition system

    Callers run the critical sections of the backend's methods in any order.
    A caller between [get_or_prepare] and the end of its handshake is a ticket;
    the invariant relates the tickets to the pending queues and the
    [connecting] set. *)

From S2P Require Import Prelude RegMap Session RcBackend RcBatch Handshake.

(** ** Pending queues *)

Abbreviation qpns eps := (qp_num <$> (eps : list RcEndpoint)).

Lemma remove_pending_cons s q n :
  remove_pending_by_qpn (s :: q) n =
  if qp_num (local_endpoint s) =? n then (Some s, q)
  else ((remove_pending_by_qpn q n).1, s :: (remove_pending_by_qpn q n).2).
Proof.
  unfold remove_pending_by_qpn. simpl. destruct (_ =? n); [done|].
  destruct (position _ q) as [p|]; done.
Qed.

Lemma remove_pending_spec q ep :
  ep ∈ endpoints q → NoDup (qpns (endpoints q)) →
  ∃ s q', remove_pending_by_qpn q (qp_num ep) = (Some s, q') ∧ local_endpoint s = ep ∧
    endpoints q ≡ₚ ep :: endpoints q'.
Proof.
  induction q as [|s q IH]; intros Hin Hnd; [by apply elem_of_nil in Hin|].
  rewrite remove_pending_cons. unfold endpoints in *. csimpl in Hnd. apply NoDup_cons in Hnd as [Hn Hnd].
  csimpl in Hin. apply elem_of_cons in Hin as [->|Hin].
  - rewrite Z.eqb_refl. by exists s, q.
  - destruct (Z.eqb_spec (qp_num (local_endpoint s)) (qp_num ep)) as [Heq|Hne].
    { destruct Hn. rewrite Heq. by apply list_elem_of_fmap_2. }
    destruct (IH Hin Hnd) as (s' & q' & -> & Hs & Hp). exists s', (s :: q'). split; [done|]. split; [done|].
    csimpl. rewrite Hp. constructor.
Qed.

Lemma remove_pending_other q ep :
  qp_num ep ∉ qpns (endpoints q) → remove_pending_by_qpn q (qp_num ep) = (None, q).
Proof.
  induction q as [|s q IH]; intros Hn; [done|]. rewrite remove_pending_cons. unfold endpoints in *. csimpl in Hn.
  apply not_elem_of_cons in Hn as [Hne Hn]. destruct (Z.eqb_spec (qp_num (local_endpoint s)) (qp_num ep)); [congruence|].
  by rewrite IH.
Qed.

(** A caller takes exactly its own sessions, in the order of its metadata. *)
Lemma take_nic_spec eps q R :
  endpoints q ≡ₚ eps ++ R → NoDup (qpns (endpoints q)) →
  ∃ q' ss, take_nic eps q = (q', Ok ss) ∧ drop_nic eps q = q' ∧ endpoints ss = eps ∧ endpoints q' ≡ₚ R.
Proof.
  revert q. induction eps as [|ep eps IH]; intros q Hq Hnd; [by exists q, []|].
  destruct (remove_pending_spec q ep) as (s & q1 & Hrm & Hs & Hp); [rewrite Hq; left|done|].
  cbn [take_nic drop_nic]. rewrite Hrm. simpl.
  assert (endpoints q1 ≡ₚ eps ++ R) as Hq1.
  { apply (Permutation_cons_inv (a := ep)). by rewrite <- Hp, Hq. }
  rewrite Hp in Hnd. csimpl in Hnd. apply NoDup_cons in Hnd as [_ Hnd].
  destruct (IH q1 Hq1 Hnd) as (q' & ss & -> & Hd & Hss & HR). exists q', (s :: ss). split; [done|].
  split; [done|]. split; [|done]. unfold endpoints in *. csimpl. by rewrite Hs, Hss.
Qed.

Lemma drop_nic_other eps q :
  (∀ n, n ∈ qpns eps → n ∉ qpns (endpoints q)) → drop_nic eps q = q.
Proof.
  induction eps as [|ep eps IH]; intros Hn; [done|]. cbn [drop_nic]. rewrite remove_pending_other.
  - apply IH. intros n Hin. apply Hn. csimpl. by right.
  - apply Hn. csimpl. left.
Qed.

Lemma take_pending_spec local nics (R : nat → list RcEndpoint) :
  length local = length nics →
  (∀ i eps q, local !! i = Some eps → nics !! i = Some q →
     endpoints q ≡ₚ eps ++ R i ∧ NoDup (qpns (endpoints q))) →
  ∃ nics' ss, take_pending local nics = Ret (nics', Ok ss) ∧ drop_pending local nics = Ret nics' ∧
    endpoints <$> ss = local ∧ length nics' = length nics ∧
    ∀ i q', nics' !! i = Some q' → endpoints q' ≡ₚ R i.
Proof.
  revert nics R. induction local as [|eps local IH]; intros [|q nics] R Hlen Hq; try done.
  { by exists [], []. }
  destruct (Hq 0%nat eps q eq_refl eq_refl) as [Hp Hnd].
  destruct (take_nic_spec eps q (R 0%nat) Hp Hnd) as (q' & ss & Ht & Hd & Hss & HR).
  destruct (IH nics (λ i, R (S i))) as (nics' & sss & Ht' & Hd' & Hsss & Hl' & HR').
  { simpl in Hlen. lia. }
  { intros i eps' q0 H1 H2. by apply (Hq (S i)). }
  exists (q' :: nics'), (ss :: sss).
  assert (take_pending (eps :: local) (q :: nics) = Ret (q' :: nics', Ok (ss :: sss))) as Htp.
  { destruct eps; cbn [take_pending]; rewrite Ht; cbn [mbind outcome_bind]; by rewrite Ht'. }
  assert (drop_pending (eps :: local) (q :: nics) = Ret (q' :: nics')) as Hdp.
  { destruct eps; cbn [drop_pending]; rewrite Hd'; cbn [mbind outcome_bind]; by rewrite Hd. }
  split; [done|]. split; [done|]. split; [csimpl; by rewrite Hss, Hsss|]. split; [simpl; lia|].
  intros [|i] q0 Hi; simplify_eq/=; [done|]. by apply HR'.
Qed.

Lemma drop_pending_other local nics :
  length local = length nics →
  (∀ i eps q, local !! i = Some eps → nics !! i = Some q → ∀ n, n ∈ qpns eps → n ∉ qpns (endpoints q)) →
  drop_pending local nics = Ret nics.
Proof.
  revert nics. induction local as [|eps local IH]; intros [|q nics] Hlen Hq; try done.
  assert (drop_pending (eps :: local) (q :: nics) = Ret (drop_nic eps q :: nics)) as ->.
  { destruct eps; cbn [drop_pending]; rewrite IH; try done; [simpl in Hlen; lia| |simpl in Hlen; lia|];
      intros i eps' q0 H1 H2; by apply (Hq (S i)). }
  rewrite drop_nic_other; [done|]. by apply (Hq 0%nat).
Qed.

Lemma push_pending_spec per_nic nics :
  length per_nic = length nics →
  push_pending per_nic nics = Ret (zip_with (++) nics per_nic).
Proof.
  revert nics. induction per_nic as [|ss per_nic IH]; intros [|q nics] Hlen; try done.
  assert (push_pending (ss :: per_nic) (q :: nics) = rest ← push_pending per_nic nics; Ret ((q ++ ss) :: rest)) as ->.
  { by destruct ss. }
  rewrite IH by (simpl in Hlen; lia). done.
Qed.

(** ** Creating and connecting *)

Lemma create_nic_length build rt psn n psn' ss :
  create_nic build rt psn n = (psn', Ok ss) → length ss = n.
Proof.
  revert psn psn' ss. induction n as [|n IH]; intros psn psn' ss; cbn [create_nic]; [by intros [= _ <-]|].
  destruct (create rt (build psn) psn); [|done].
  destruct (create_nic build rt _ n) as [p [r|e]] eqn:Hr; [|done]. intros [= _ <-]. simpl. f_equal. eauto.
Qed.

(** Every NIC has [qps] sessions. *)
Definition shape {A} (nics qps : nat) (v : list (list A)) : Prop :=
  length v = nics ∧ Forall (λ l, length l = qps) v.

Lemma create_all_shape build nic rts psn qps psn' v :
  create_all build nic rts psn qps = (psn', Ok v) → shape (length rts) qps v.
Proof.
  revert nic psn psn' v. induction rts as [|rt rts IH]; intros nic psn psn' v; cbn [create_all].
  { intros [= _ <-]. by split. }
  destruct (create_nic (build nic) rt psn qps) as [p [ss|e]] eqn:Hs; [|done].
  destruct (create_all build (S nic) rts p qps) as [p' [r|e]] eqn:Hr; [|done]. intros [= _ <-].
  destruct (IH _ _ _ _ Hr) as [Hl Hall]. split; [simpl; lia|]. constructor; [by eapply create_nic_length|done].
Qed.

Lemma connect_nic_ret modify rt ss eps :
  length ss = length eps → ∃ r, connect_nic modify rt ss eps = Ret r.
Proof.
  revert eps. induction ss as [|s ss IH]; intros [|ep eps] Hl; try done; [by eexists|]. cbn [connect_nic].
  destruct (connect rt (modify s ep) ep); [|by eexists]. apply IH. simpl in Hl. lia.
Qed.

Lemma connect_all_ret modify nic rts qps ss remote :
  shape (length rts) qps ss → shape (length rts) qps remote → ∃ r, connect_all modify nic rts ss remote = Ret r.
Proof.
  revert nic rts remote. induction ss as [|s ss IH]; intros nic rts remote [Hl1 Hs] [Hl2 Hr].
  { exists (Ok tt). by destruct rts. }
  destruct rts as [|rt rts]; [done|]. destruct remote as [|ep remote]; [done|]. cbn [connect_all].
  apply Forall_cons in Hs as [? Hs]. apply Forall_cons in Hr as [? Hr].
  destruct (connect_nic_ret (modify nic) rt s ep) as [r ->]; [congruence|]. cbn [mbind outcome_bind].
  destruct r; [|by eexists]. simpl in *. apply IH; split; try done; lia.
Qed.

(** ** Callers *)

Section System.
Context {MR : Type} (rkey : MR → u32) `{BuildProfile}.
Context (runtimes : list RcRuntime) (qps_per_peer : nat).
Abbreviation nic_count := (length runtimes).
Abbreviation numas := (rt_numa <$> runtimes).

(** Where a caller is: creating its queue pairs; holding metadata; between the
    two sections of [complete_handshake_for]; after a failed connect. *)
Inductive phase : Type :=
| Preparing
| Prepared (local : list NicHandshake)
| Taken (local remote : list NicHandshake) (pend : list (list RcSession))
| Failed (local : list NicHandshake).

Definition ticket : Type := string * phase.

Record Sys : Type := mkSys {
  sys_st : RcBackendState (MR := MR);
  sys_rr : NumaRoundRobin;
  tickets : list ticket;
}.

Definition phase_local (ph : phase) : option (list NicHandshake) :=
  match ph with Preparing => None | Prepared l | Taken l _ _ | Failed l => Some l end.

(** The endpoints a ticket names on a NIC, and those still pending. *)
Definition held_at (i : nat) (t : ticket) : list RcEndpoint :=
  match phase_local t.2 with Some l => default [] (l !! i) | None => [] end.

Definition pend_at (i : nat) (t : ticket) : list RcEndpoint :=
  match t.2 with Prepared l => default [] (l !! i) | _ => [] end.

(** The numbers the driver may give to new queue pairs.  What verbs promise is
    that queue pairs that exist have different numbers; of these, the ones in the
    pending queues matter. *)
Definition live_qpns (st : RcBackendState (MR := MR)) (per_nic : list (list RcSession)) : Prop :=
  ∀ i ss q, per_nic !! i = Some ss → pending st !! i = Some q → NoDup (qpns (endpoints ss ++ endpoints q)).

(** No reuse at all while a handshake names the number: it also keeps clear of a
    handshake that failed to connect, whose queue pairs are already destroyed. *)
Definition fresh_qpns (ts : list ticket) (per_nic : list (list RcSession)) : Prop :=
  ∀ i ss, per_nic !! i = Some ss → NoDup (qpns (endpoints ss ++ (ts ≫= held_at i))).

(** The numbers the driver gives, as a condition on the state, the other
    handshakes and the new sessions. *)
Definition numbering : Type := RcBackendState (MR := MR) → list ticket → list (list RcSession) → Prop.
Definition any_qpns : numbering := λ _ _ _, True.
Definition alive_qpns : numbering := λ st _ per_nic, live_qpns st per_nic.
Definition apart_qpns : numbering := λ _ ts per_nic, fresh_qpns ts per_nic.

Definition sys_new : Sys := mkSys (state_new nic_count) (from_runtimes numas) [].

(** ** The invariant *)

(** A connection owns the sessions of the metadata it was made from. *)
Definition conn_good (c : AddrConnection) : Prop :=
  (λ n, endpoints (conn_sessions n)) <$> conn_nics c = conn_local c ∧ shape nic_count qps_per_peer (conn_local c).

Definition ticket_ok (t : ticket) : Prop :=
  match t.2 with
  | Preparing => True
  | Prepared l | Failed l => shape nic_count qps_per_peer l
  | Taken l remote pend =>
      shape nic_count qps_per_peer l ∧ shape nic_count qps_per_peer remote ∧ endpoints <$> pend = l
  end.

Record sys_inv (s : Sys) : Prop := mkSysInv {
  inv_len : length (pending (sys_st s)) = nic_count;
  inv_tickets : NoDup (tickets s).*1;
  inv_connecting a : a ∈ connecting (sys_st s) ↔ a ∈ (tickets s).*1;
  inv_excl a : a ∈ (tickets s).*1 → addr_connections (sys_st s) !! a = None;
  inv_pending i q : pending (sys_st s) !! i = Some q → endpoints q ≡ₚ tickets s ≫= pend_at i;
  inv_qpns i : NoDup (qpns (tickets s ≫= held_at i));
  inv_ok : Forall ticket_ok (tickets s);
  inv_conns : map_Forall (λ _ c, conn_good c) (addr_connections (sys_st s));
  inv_reg : reg_ok nic_count (registered (sys_st s));
  inv_rr : rr_ok numas (sys_rr s);
}.

#[local] Instance ticket_bind_proper {B} (f : ticket → list B) : Proper ((≡ₚ) ==> (≡ₚ)) (λ ts, ts ≫= f).
Proof. intros ts ts' Hp. by apply bind_Permutation. Qed.

Lemma inv_perm st rr ts ts' : ts ≡ₚ ts' → sys_inv (mkSys st rr ts) → sys_inv (mkSys st rr ts').
Proof.
  intros Hp [H1 H2 H3 H4 H5 H6 H7 H8 H9 H10]. simpl in *. constructor; simpl; try done.
  - by rewrite <- Hp.
  - intros a. by rewrite <- Hp.
  - intros a. rewrite <- Hp. apply H4.
  - intros i q Hq. rewrite (H5 i q Hq). by apply ticket_bind_proper.
  - intros i. assert (ts ≫= held_at i ≡ₚ ts' ≫= held_at i) as Hb by by apply ticket_bind_proper. by rewrite <- Hb.
  - by rewrite <- Hp.
Qed.

Lemma sys_new_inv : sys_inv sys_new.
Proof.
  constructor; simpl.
  - by rewrite length_replicate.
  - constructor.
  - intros a. split; set_solver.
  - intros a. by rewrite lookup_empty.
  - intros i q [-> _]%lookup_replicate. done.
  - intros i. constructor.
  - constructor.
  - intros a c. by rewrite lookup_empty.
  - split; [done|]. by intros k e ?%elem_of_nil.
  - apply from_runtimes_ok.
Qed.

(** Removing a ticket that has nothing pending. *)
Lemma inv_leave st rr addr ph rest :
  sys_inv (mkSys st rr ((addr, ph) :: rest)) → (∀ i, pend_at i (addr, ph) = []) →
  sys_inv (mkSys (set_connecting (connecting st ∖ {[addr]}) st) rr rest).
Proof.
  intros [H1 H2 H3 H4 H5 H6 H7 H8 H9 H10] Hp. simpl in *. apply NoDup_cons in H2 as [Hnin H2].
  constructor; simpl; try done.
  - intros a. rewrite elem_of_difference, H3, elem_of_cons, elem_of_singleton. split; [tauto|].
    intros Ha. split; [by right|]. intros ->. done.
  - intros a Ha. apply H4. by right.
  - intros i q Hq. rewrite (H5 i q Hq), Hp. done.
  - intros i. specialize (H6 i). rewrite fmap_app in H6. by apply NoDup_app in H6 as (_ & _ & ?).
  - by apply Forall_cons in H7 as [_ ?].
Qed.

Lemma leave_ok st rr addr ph rest :
  sys_inv (mkSys st rr ((addr, ph) :: rest)) →
  leave addr st = Ret (set_connecting (connecting st ∖ {[addr]}) st).
Proof.
  intros Hinv. unfold leave. rewrite debug_assert_ok; [done|]. apply bool_decide_eq_true.
  apply (inv_connecting _ Hinv). left.
Qed.

Lemma pend_held_sublist i ts : ts ≫= pend_at i `sublist_of` ts ≫= held_at i.
Proof.
  induction ts as [|[a ph] ts IH]; [done|]. csimpl. apply sublist_app; [|done].
  unfold pend_at, held_at. destruct ph; simpl; done || apply sublist_nil_l.
Qed.

Lemma inv_pending_nodup s i q :
  sys_inv s → pending (sys_st s) !! i = Some q → NoDup (qpns (endpoints q)).
Proof.
  intros Hinv Hq. rewrite (inv_pending _ Hinv i q Hq).
  eapply sublist_NoDup; [exact (inv_qpns _ Hinv i)|]. apply fmap_sublist, pend_held_sublist.
Qed.

(** The pending sessions a [Prepared] ticket names can be taken or dropped. *)
Lemma inv_take st rr addr local rest :
  sys_inv (mkSys st rr ((addr, Prepared local) :: rest)) →
  ∃ p ss, take_pending local (pending st) = Ret (p, Ok ss) ∧ drop_pending local (pending st) = Ret p ∧
    endpoints <$> ss = local ∧ sys_inv (mkSys (set_pending p st) rr ((addr, Failed local) :: rest)).
Proof.
  intros Hinv. pose proof Hinv as [H1 H2 H3 H4 H5 H6 H7 H8 H9 H10]. simpl in *.
  apply Forall_cons in H7 as [[Hlen Hq] H7]. simpl in Hlen.
  destruct (take_pending_spec local (pending st) (λ i, rest ≫= pend_at i)) as (p & ss & Ht & Hd & Hss & Hl & HR).
  - by rewrite H1.
  - intros i eps q He Hqi. split; [|by eapply (inv_pending_nodup _ i)]. specialize (H5 i q Hqi).
    unfold pend_at in H5 at 1. simpl in H5. by rewrite He in H5.
  - exists p, ss. split; [done|]. split; [done|]. split; [done|].
    constructor; simpl; try done; [congruence|].
    constructor; [|done]. by split.
Qed.

Lemma inv_set_connections c st rr ts :
  sys_inv (mkSys st rr ts) → (∀ a, a ∈ ts.*1 → c !! a = None) → map_Forall (λ _ c, conn_good c) c →
  sys_inv (mkSys (set_connections c st) rr ts).
Proof. intros [H1 H2 H3 H4 H5 H6 H7 H8 H9 H10] Hn Hc. by constructor. Qed.

Lemma inv_set_reg m st rr ts :
  sys_inv (mkSys st rr ts) → reg_ok nic_count m →
  sys_inv (mkSys (mkRcState m (pending st) (addr_connections st) (connecting st)) rr ts).
Proof. intros [H1 H2 H3 H4 H5 H6 H7 H8 H9 H10] Hm. by constructor. Qed.

Lemma inv_enter st rr ts addr st' r :
  sys_inv (mkSys st rr ts) → get_or_prepare_enter addr st = (st', r) →
  sys_inv (mkSys st' rr (match r with None => [(addr, Preparing)] | Some _ => [] end ++ ts)).
Proof.
  intros Hinv He. unfold get_or_prepare_enter in He.
  destruct (addr_connections st !! addr) eqn:Hc; [by injection He as <- <-|].
  destruct (decide (addr ∈ connecting st)) as [?|Hn]; [by injection He as <- <-|].
  injection He as <- <-. pose proof Hinv as [H1 H2 H3 H4 H5 H6 H7 H8 H9 H10]. simpl in *.
  constructor; simpl; try done.
  - apply NoDup_cons. by rewrite <- H3.
  - intros a. rewrite elem_of_union, elem_of_singleton, elem_of_cons. by rewrite H3.
  - intros a [->|Ha]%elem_of_cons; [done|by apply H4].
  - by constructor.
Qed.

Lemma inv_prepare st rr rest addr build psn psn' per_nic :
  sys_inv (mkSys st rr ((addr, Preparing) :: rest)) →
  create_all build 0 runtimes psn qps_per_peer = (psn', Ok per_nic) → fresh_qpns rest per_nic →
  ∃ st' local, prepare_push per_nic st = Ret (st', local) ∧ sys_inv (mkSys st' rr ((addr, Prepared local) :: rest)).
Proof.
  intros [H1 H2 H3 H4 H5 H6 H7 H8 H9 H10] [Hl Hall]%create_all_shape Hf. simpl in *.
  unfold prepare_push. rewrite push_pending_spec by (by rewrite H1). eexists _, _. split; [done|].
  constructor; simpl; try done.
  - rewrite length_zip_with. lia.
  - intros i q Hq. apply lookup_zip_with_Some in Hq as (q0 & ss & -> & Hq0 & Hss).
    unfold pend_at at 1. simpl. rewrite list_lookup_fmap, Hss. simpl. unfold endpoints. rewrite fmap_app.
    change (local_endpoint <$> q0) with (endpoints q0). rewrite (H5 i q0 Hq0). simpl.
    apply Permutation_app_comm.
  - intros i. unfold held_at at 1. simpl. rewrite list_lookup_fmap. destruct (per_nic !! i) as [ss|] eqn:Hss.
    + by apply Hf.
    + simpl. specialize (H6 i). done.
  - apply Forall_cons in H7 as [_ H7]. constructor; [|done]. split; [by rewrite length_fmap|].
    apply Forall_fmap. eapply Forall_impl; [exact Hall|]. intros ss Hs. simpl. unfold endpoints. by rewrite length_fmap.
Qed.

Lemma inv_untake st rr addr local remote pend rest :
  sys_inv (mkSys st rr ((addr, Failed local) :: rest)) → endpoints <$> pend = local →
  shape nic_count qps_per_peer remote → sys_inv (mkSys st rr ((addr, Taken local remote pend) :: rest)).
Proof.
  intros [H1 H2 H3 H4 H5 H6 H7 H8 H9 H10] Hp Hs. constructor; simpl in *; try done.
  apply Forall_cons in H7 as [? H7]. by constructor.
Qed.

Lemma inv_fail st rr addr local remote pend rest :
  sys_inv (mkSys st rr ((addr, Taken local remote pend) :: rest)) →
  sys_inv (mkSys st rr ((addr, Failed local) :: rest)).
Proof.
  intros [H1 H2 H3 H4 H5 H6 H7 H8 H9 H10]. constructor; simpl in *; try done.
  apply Forall_cons in H7 as [[? _] H7]. by constructor.
Qed.

Lemma check_remote_shape remote :
  check_remote runtimes qps_per_peer remote = Ok tt ↔ shape nic_count qps_per_peer remote.
Proof.
  unfold check_remote, shape. destruct (Nat.eqb_spec (length remote) nic_count) as [Hl|Hl]; cbn [negb];
    [|by split; [|intros [? _]]].
  destruct (existsb _ remote) eqn:He; split; try done.
  - intros [_ Hall]. apply existsb_exists in He as (l & Hin%list_elem_of_In & Hn).
    rewrite Forall_forall in Hall. by rewrite (Hall _ Hin), Nat.eqb_refl in Hn.
  - intros _. split; [done|]. apply Forall_forall. intros l Hin. destruct (Nat.eqb_spec (length l) qps_per_peer) as [|Hn]; [done|].
    apply not_true_iff_false in He. destruct He. apply existsb_exists. exists l. rewrite <- list_elem_of_In.
    split; [done|]. by apply Nat.eqb_neq in Hn as ->.
Qed.

Lemma inv_complete_take st rr addr local remote rest :
  sys_inv (mkSys st rr ((addr, Prepared local) :: rest)) → shape nic_count qps_per_peer remote →
  ∃ st' pend, complete_take addr local st = Ret (st', Ok (Some pend)) ∧ endpoints <$> pend = local ∧
    connecting st' = connecting st ∧ addr_connections st' = addr_connections st ∧
    registered st' = registered st ∧
    sys_inv (mkSys st' rr ((addr, Taken local remote pend) :: rest)).
Proof.
  intros Hinv Hs. destruct (inv_take _ _ _ _ _ Hinv) as (p & ss & Ht & _ & Hss & Hinv').
  assert (addr_connections st !! addr = None) as Hnone by (apply (inv_excl _ Hinv addr); left).
  unfold complete_take. rewrite Hnone, Ht. cbn [mbind outcome_bind].
  eexists _, ss. split; [done|]. split_and!; try done. by apply inv_untake.
Qed.

Lemma inv_install st rr addr local remote pend rest :
  sys_inv (mkSys st rr ((addr, Taken local remote pend) :: rest)) →
  ∃ st', complete_install addr local pend st = Ret st' ∧
    addr_connections st' = <[addr := mkConnection ((λ ss, mkConnNic ss 0) <$> pend) local]> (addr_connections st) ∧
    connecting st' = connecting st ∖ {[addr]} ∧ pending st' = pending st ∧ registered st' = registered st ∧
    sys_inv (mkSys st' rr rest).
Proof.
  intros Hinv. unfold complete_install. rewrite (leave_ok _ _ _ _ _ Hinv). cbn [mbind outcome_bind].
  eexists. split; [done|]. split_and!; try done. apply inv_set_connections.
  - eapply inv_leave; [exact Hinv|]. done.
  - intros a Ha. pose proof (inv_tickets _ Hinv) as [Hn _]%NoDup_cons. rewrite lookup_insert_ne.
    + apply (inv_excl _ Hinv). by right.
    + intros <-. done.
  - apply map_Forall_insert_2; [|apply (inv_conns _ Hinv)].
    pose proof (inv_ok _ Hinv) as [(Hs & _ & Hp) _]%Forall_cons. split; [|done]. simpl.
    rewrite <- list_fmap_compose. exact Hp.
Qed.

Lemma inv_abort st rr addr local rest :
  sys_inv (mkSys st rr ((addr, Prepared local) :: rest)) ∨ sys_inv (mkSys st rr ((addr, Failed local) :: rest)) →
  ∃ st', abort_handshake addr local st = Ret st' ∧ sys_inv (mkSys st' rr rest).
Proof.
  intros [Hinv|Hinv]; unfold abort_handshake; rewrite (leave_ok _ _ _ _ _ Hinv); cbn [mbind outcome_bind];
    cbn [set_connecting pending].
  - destruct (inv_take _ _ _ _ _ Hinv) as (p & ss & _ & -> & _ & Hinv'). eexists. split; [done|].
    by apply (inv_leave _ _ _ _ _ Hinv').
  - rewrite drop_pending_other.
    + eexists. split; [done|]. by apply (inv_leave _ _ _ _ _ Hinv).
    + pose proof (inv_ok _ Hinv) as [[-> _] _]%Forall_cons. symmetry. exact (inv_len _ Hinv).
    + intros i eps q He Hq n Hn Hn'. pose proof (inv_qpns _ Hinv i) as Hnd. simpl in Hnd.
      unfold held_at in Hnd at 1. simpl in Hnd. rewrite He, fmap_app in Hnd. apply NoDup_app in Hnd as (_ & Hdis & _).
      eapply Hdis; [exact Hn|]. pose proof (inv_pending _ Hinv i q Hq) as Hp. rewrite Hp in Hn'. simpl in Hn'.
      eapply elem_of_submseteq; [exact Hn'|]. apply sublist_submseteq, fmap_sublist, pend_held_sublist.
Qed.

(** Registering and unregistering change the registrations alone. *)
Lemma register_keeps reg (st : RcBackendState (MR := MR)) addr len numa :
  reg_ok nic_count (registered st) → 0 <= addr → 0 <= len →
  ∃ m r, register_with rkey nic_count reg st addr len numa =
      Ret (mkRcState m (pending st) (addr_connections st) (connecting st), r) ∧ reg_ok nic_count m.
Proof.
  intros [Hm Hmr] Ha Hl. assert (mkRcState (registered st) (pending st) (addr_connections st) (connecting st) = st) as Heta by (by destruct st).
  unfold register_with. destruct (len =? 0); [by exists (registered st); eexists; rewrite Heta|].
  assert (∀ n i ms, reg_all reg i n = Ok ms → length ms = n) as Hlen.
  { induction n as [|n IH]; intros i ms; simpl; [by intros [= <-]|]. destruct (reg i); [|done].
    destruct (reg_all reg (S i) n) as [rest|] eqn:Hr; [|done]. intros [= <-]. simpl. f_equal. eauto. }
  destruct (reg_all reg 0 nic_count) as [ms|e] eqn:Hms; [|by exists (registered st); eexists; rewrite Heta].
  destruct (lmm_insert_spec (registered st) (mkEntry addr len numa ms)) as (m' & r & -> & Hm' & _ & Hin); [done..|].
  cbn [mbind outcome_bind]. exists m'.
  assert (reg_ok nic_count m') by (split; [done|]; intros k e [He|[_ [= -> ->]]]%Hin; [by eapply Hmr|]; by eapply Hlen).
  destruct r; by eexists.
Qed.

Lemma unregister_keeps (st : RcBackendState (MR := MR)) addr :
  reg_ok nic_count (registered st) →
  ∃ m, (unregister st addr).1 = mkRcState m (pending st) (addr_connections st) (connecting st) ∧ reg_ok nic_count m.
Proof.
  intros [Hm Hmr]. unfold unregister. pose proof (bt_remove_spec 0 (registered st) addr Hm) as Hr.
  destruct (lmm_remove (registered st) addr) as [m o]. exists m.
  assert (reg_ok nic_count m).
  { destruct Hr as [Hm' Hr]. split; [done|]. intros k e He. apply (Hmr k). destruct o.
    - destruct Hr as [_ Hiff]. by apply Hiff in He as [? _].
    - by destruct Hr as [-> _]. }
  by destruct o.
Qed.

Lemma inv_register reg st rr ts addr len numa :
  sys_inv (mkSys st rr ts) → 0 <= addr → 0 <= len →
  ∃ st' r, register_with rkey nic_count reg st addr len numa = Ret (st', r) ∧ sys_inv (mkSys st' rr ts).
Proof.
  intros Hinv Ha Hl. destruct (register_keeps reg st addr len numa (inv_reg _ Hinv) Ha Hl) as (m & r & -> & Hm).
  eexists _, _. split; [done|]. by apply inv_set_reg.
Qed.

Lemma inv_unregister st rr ts addr : sys_inv (mkSys st rr ts) → sys_inv (mkSys (unregister st addr).1 rr ts).
Proof.
  intros Hinv. destruct (unregister_keeps st addr (inv_reg _ Hinv)) as (m & -> & Hm). by apply inv_set_reg.
Qed.

Lemma conn_good_ok c : (0 < qps_per_peer)%nat → conn_good c → conn_ok nic_count c.
Proof.
  intros Hq [Heq [Hl Hall]]. rewrite <- Heq in *. rewrite length_fmap in Hl. split; [done|].
  apply Forall_fmap in Hall. eapply Forall_impl; [exact Hall|]. intros n Hn Hz. simpl in Hn. rewrite Hz in Hn.
  simpl in Hn. lia.
Qed.

(** A batch turns the round robins of the NICs and of one connection. *)
Lemma batch_keeps (good : AddrConnection → Prop) (st : RcBackendState (MR := MR)) rr alive op addr descs :
  runtimes ≠ [] → rr_ok numas rr → reg_ok nic_count (registered st) → map_Forall (λ _ c, good c) (addr_connections st) →
  (∀ c, good c → conn_ok nic_count c) →
  (∀ c c', good c → conn_sessions <$> conn_nics c' = conn_sessions <$> conn_nics c → conn_local c' = conn_local c → good c') →
  Forall desc_u64 descs →
  ∃ o, batch_transfer_async alive nic_count st rr op addr descs = Ret o ∧ rr_ok numas (bo_rr o) ∧
    registered (bo_state o) = registered st ∧ pending (bo_state o) = pending st ∧ connecting (bo_state o) = connecting st ∧
    map_Forall (λ _ c, good c) (addr_connections (bo_state o)) ∧
    ∀ a, addr_connections st !! a = None → addr_connections (bo_state o) !! a = None.
Proof.
  intros Hne H10 H9 H8 Hok Hturn Hd. destruct (batch_spec alive numas st rr op addr descs) as (o & Ho & Hrr & Hc & Hreg & Hp & Hcon & _).
  - done.
  - by destruct runtimes.
  - by rewrite length_fmap.
  - intros a c Ha. rewrite length_fmap. by apply Hok, (H8 a).
  - done.
  - rewrite length_fmap in Ho. exists o. split_and!; try done.
    + rewrite Hc. destruct (addr_connections st !! addr) as [c|] eqn:Hca; [|done]. destruct descs as [|d descs]; [done|].
      apply map_Forall_insert_2; [|done]. eapply (Hturn c); [by apply (H8 addr)| |done]. simpl. by rewrite <- list_fmap_compose.
    + intros a Ha. rewrite Hc. destruct (addr_connections st !! addr) as [c|] eqn:Hca; [|done]. destruct descs as [|d descs]; [done|].
      rewrite lookup_insert_ne; [done|]. congruence.
Qed.

Lemma inv_batch st rr ts alive op addr descs :
  (0 < qps_per_peer)%nat → runtimes ≠ [] → sys_inv (mkSys st rr ts) → Forall desc_u64 descs →
  ∃ o, batch_transfer_async alive nic_count st rr op addr descs = Ret o ∧ sys_inv (mkSys (bo_state o) (bo_rr o) ts).
Proof.
  intros Hq Hne [H1 H2 H3 H4 H5 H6 H7 H8 H9 H10] Hd. simpl in *.
  destruct (batch_keeps conn_good st rr alive op addr descs) as (o & Ho & Hrr & Hreg & Hp & Hcon & Hg & Hn); try done.
  - intros c. by apply conn_good_ok.
  - intros c c' [He Hs] Hc Hl. split; [|by rewrite Hl]. rewrite Hl, <- He.
    by rewrite (list_fmap_compose conn_sessions endpoints), Hc, <- list_fmap_compose.
  - exists o. split; [done|]. constructor; simpl; rewrite ?Hp, ?Hcon, ?Hreg; try done. intros a Ha. by apply Hn, H4.
Qed.
End System.

(** ** Transitions *)

Section Transitions.
Context {MR : Type} (rkey : MR → u32) `{BuildProfile}.
Context (runtimes : list RcRuntime) (qps_per_peer : nat) (numbers : numbering (MR := MR)).
Abbreviation nic_count := (length runtimes).
Abbreviation Sys := (Sys (MR := MR)).
Abbreviation sys_inv := (sys_inv (MR := MR) runtimes qps_per_peer).

(** The critical sections of the methods, each by a caller that is where it can
    run it. *)
Inductive step (s : Sys) : outcome Sys → Prop :=
| step_enter addr st r :
    get_or_prepare_enter addr (sys_st s) = (st, r) →
    step s (Ret (mkSys st (sys_rr s)
                   (match r with None => [(addr, Preparing)] | Some _ => [] end ++ tickets s)))
| step_prepare addr rest build psn psn' per_nic :
    tickets s ≡ₚ (addr, Preparing) :: rest →
    create_all build 0 runtimes psn qps_per_peer = (psn', Ok per_nic) → numbers (sys_st s) rest per_nic →
    step s ('(st, local) ← prepare_push per_nic (sys_st s);
            Ret (mkSys st (sys_rr s) ((addr, Prepared local) :: rest)))
| step_prepare_fails addr rest :
    tickets s ≡ₚ (addr, Preparing) :: rest →
    step s (st ← leave addr (sys_st s); Ret (mkSys st (sys_rr s) rest))
| step_take addr rest local remote :
    tickets s ≡ₚ (addr, Prepared local) :: rest → check_remote runtimes qps_per_peer remote = Ok tt →
    step s ('(st, r) ← complete_take addr local (sys_st s);
            Ret (mkSys st (sys_rr s)
                   (match r with
                    | Ok None => []
                    | Ok (Some pend) => [(addr, Taken local remote pend)]
                    | Err _ => [(addr, Failed local)]
                    end ++ rest)))
| step_install addr rest local remote pend modify :
    tickets s ≡ₚ (addr, Taken local remote pend) :: rest →
    step s (r ← connect_all modify 0 runtimes pend remote;
            match r with
            | Err _ => Ret (mkSys (sys_st s) (sys_rr s) ((addr, Failed local) :: rest))
            | Ok _ => st ← complete_install addr local pend (sys_st s); Ret (mkSys st (sys_rr s) rest)
            end)
| step_abort addr rest local :
    tickets s ≡ₚ (addr, Prepared local) :: rest ∨ tickets s ≡ₚ (addr, Failed local) :: rest →
    step s (st ← abort_handshake addr local (sys_st s); Ret (mkSys st (sys_rr s) rest))
| step_invalidate addr :
    step s (Ret (mkSys (invalidate_connection addr (sys_st s)) (sys_rr s) (tickets s)))
| step_register reg addr len numa :
    0 <= addr → 0 <= len →
    step s ('(st, _) ← register_with rkey nic_count reg (sys_st s) addr len numa;
            Ret (mkSys st (sys_rr s) (tickets s)))
| step_unregister addr :
    step s (Ret (mkSys (unregister (sys_st s) addr).1 (sys_rr s) (tickets s)))
| step_batch alive op addr descs :
    Forall desc_u64 descs →
    step s (o ← batch_transfer_async alive nic_count (sys_st s) (sys_rr s) op addr descs;
            Ret (mkSys (bo_state o) (bo_rr o) (tickets s))).

Inductive reachable : Sys → Prop :=
| reach_new : reachable (sys_new runtimes)
| reach_step s s' : reachable s → step s (Ret s') → reachable s'.

(** Every section returns and keeps the invariant. *)
Lemma step_inv s o :
  (∀ st ts per_nic, numbers st ts per_nic → fresh_qpns ts per_nic) → (0 < qps_per_peer)%nat → runtimes ≠ [] → sys_inv s → step s o → ∃ s', o = Ret s' ∧ sys_inv s'.
Proof.
  intros Hnum Hq Hne Hinv Hstep. destruct s as [st rr ts].
  inversion Hstep as [addr st' r He|addr rest build psn psn' per_nic Hts Hc Hf|addr rest Hts
    |addr rest local remote Hts Hr|addr rest local remote pend modify Hts|addr rest local Hts|addr
    |reg addr len numa Ha Hl|addr|alive op addr descs Hd]; subst; clear Hstep; simpl in *.
  - eexists. split; [done|]. by eapply inv_enter.
  - apply (inv_perm _ _ _ _ _ _ Hts) in Hinv.
    destruct (inv_prepare _ _ _ _ _ _ _ _ _ _ Hinv Hc (Hnum _ _ _ Hf)) as (st' & local & -> & Hinv'). by eexists.
  - apply (inv_perm _ _ _ _ _ _ Hts) in Hinv. rewrite (leave_ok _ _ _ _ _ _ _ Hinv). eexists. split; [done|].
    by eapply inv_leave.
  - apply (inv_perm _ _ _ _ _ _ Hts) in Hinv. apply (check_remote_shape runtimes qps_per_peer) in Hr.
    destruct (inv_complete_take _ _ _ _ _ _ _ _ Hinv Hr) as (st' & pend & -> & _ & _ & _ & _ & Hinv'). by eexists.
  - apply (inv_perm _ _ _ _ _ _ Hts) in Hinv. pose proof (inv_ok _ _ _ Hinv) as [(Hs & Hr & Hp) _]%Forall_cons.
    destruct (connect_all_ret modify 0 runtimes qps_per_peer pend remote) as [r ->]; [|done|].
    { rewrite <- Hp in Hs. destruct Hs as [Hl Hall]. rewrite length_fmap in Hl. split; [done|].
      apply Forall_fmap in Hall. eapply Forall_impl; [exact Hall|]. intros ss Hss. simpl in Hss.
      unfold endpoints in Hss. by rewrite length_fmap in Hss. }
    cbn [mbind outcome_bind]. destruct r as [[]|e].
    + destruct (inv_install _ _ _ _ _ _ _ _ _ Hinv) as (st' & -> & _ & _ & _ & _ & Hinv'). by eexists.
    + eexists. split; [done|]. by eapply inv_fail.
  - destruct (inv_abort runtimes qps_per_peer st rr addr local rest) as (st' & -> & Hinv'); [|by eexists].
    destruct Hts as [Hts|Hts]; apply (inv_perm _ _ _ _ _ _ Hts) in Hinv; auto.
  - eexists. split; [done|]. apply inv_set_connections; [done| |].
    + intros a Ha. rewrite lookup_delete_None. right. by apply (inv_excl _ _ _ Hinv).
    + intros a c [_ Hc]%lookup_delete_Some. by apply (inv_conns _ _ _ Hinv a).
  - destruct (inv_register rkey runtimes qps_per_peer reg st rr ts addr len numa Hinv Ha Hl) as (st' & r & -> & Hinv'). by eexists.
  - eexists. split; [done|]. by apply inv_unregister.
  - destruct (inv_batch runtimes qps_per_peer st rr ts alive op addr descs Hq Hne Hinv Hd) as (o & -> & Hinv'). by eexists.
Qed.

Lemma reachable_inv s :
  (∀ st ts per_nic, numbers st ts per_nic → fresh_qpns ts per_nic) → (0 < qps_per_peer)%nat → runtimes ≠ [] →
  reachable s → sys_inv s.
Proof.
  intros Hnum Hq Hne. induction 1 as [|s s' _ IH Hstep]; [apply sys_new_inv|].
  by destruct (step_inv s _ Hnum Hq Hne IH Hstep) as (? & [= <-] & ?).
Qed.
End Transitions.
