(* ===== verification/HandshakeShape.v ===== *)
(** * The RDMA backend whatever numbers queue pairs get

    The part of the handshake invariant that does not depend on how the driver
    numbers queue pairs: the sections return, one handshake per address, full
    shapes.  With numbers that are unique among the queue pairs that exist, every
    pending session is named by a handshake that has not ended. *)

From S2P Require Import Prelude RegMap Session RcBackend RcBatch Handshake HandshakeInv.

(** ** Pending queues, by number *)

Abbreviation numbers_of q := (qpns (endpoints q)).

Lemma remove_pending_inv q n :
  match remove_pending_by_qpn q n with
  | (Some s, q') => qp_num (local_endpoint s) = n ∧ q' `sublist_of` q ∧ (NoDup (numbers_of q) → n ∉ numbers_of q')
  | (None, q') => q' = q ∧ n ∉ numbers_of q
  end.
Proof.
  induction q as [|s q IH]; [split; [done|]; by apply not_elem_of_nil|]. rewrite remove_pending_cons. unfold endpoints in *.
  destruct (Z.eqb_spec (qp_num (local_endpoint s)) n) as [<-|Hne].
  - split; [done|]. split; [by constructor|]. csimpl. by intros [? _]%NoDup_cons.
  - destruct (remove_pending_by_qpn q n) as [[x|] q']; simpl in *.
    + destruct IH as (Hx & Hsub & Hn). split; [done|]. split; [by constructor|]. csimpl.
      intros [_ Hnd]%NoDup_cons. apply not_elem_of_cons. split; [done|]. by apply Hn.
    + destruct IH as [-> Hn]. split; [done|]. csimpl. by apply not_elem_of_cons.
Qed.

Lemma elem_of_numbers q e : e ∈ endpoints q → qp_num e ∈ numbers_of q.
Proof. apply list_elem_of_fmap_2. Qed.

Lemma endpoints_sublist q q' : q' `sublist_of` q → endpoints q' `sublist_of` endpoints q.
Proof. apply fmap_sublist. Qed.

Lemma numbers_sublist q q' : q' `sublist_of` q → numbers_of q' `sublist_of` numbers_of q.
Proof. intros Hs. by apply fmap_sublist, endpoints_sublist. Qed.

(** Dropping by number drops those numbers and adds nothing. *)
Lemma drop_nic_inv eps q :
  drop_nic eps q `sublist_of` q ∧
  (NoDup (numbers_of q) → ∀ n, n ∈ qpns eps → n ∉ numbers_of (drop_nic eps q)).
Proof.
  revert q. induction eps as [|ep eps IH]; intros q; cbn [drop_nic]; [split; [done|]; by intros _ n ?%elem_of_nil|].
  pose proof (remove_pending_inv q (qp_num ep)) as Hr. destruct (remove_pending_by_qpn q (qp_num ep)) as [r q1]. simpl.
  assert (q1 `sublist_of` q ∧ (NoDup (numbers_of q) → qp_num ep ∉ numbers_of q1)) as [Hsub Hn].
  { destruct r as [s|]; [by destruct Hr as (_ & ? & ?)|]. by destruct Hr as [-> ?]. }
  destruct (IH q1) as [Hsub1 Hn1]. split; [by etrans|]. intros Hnd n. csimpl. intros [->|Hin]%elem_of_cons.
  - intros Hx. apply (Hn Hnd). eapply elem_of_sublist; [exact Hx|by apply numbers_sublist].
  - apply Hn1; [|done]. eapply sublist_NoDup; [exact Hnd|by apply numbers_sublist].
Qed.

Definition no_pending : TransferError := Backend "no pending session to complete".

(** Taking by number finds the numbers or says which error it is. *)
Lemma take_nic_inv eps q :
  match take_nic eps q with
  | (q', Ok ss) => q' = drop_nic eps q ∧ numbers_of ss = qpns eps ∧ ∀ n, n ∈ qpns eps → n ∈ numbers_of q
  | (q', Err e) => e = no_pending ∧ q' `sublist_of` q
  end.
Proof.
  revert q. induction eps as [|ep eps IH]; intros q; cbn [take_nic drop_nic].
  { split; [done|]. split; [done|]. by intros n ?%elem_of_nil. }
  pose proof (remove_pending_inv q (qp_num ep)) as Hr. destruct (remove_pending_by_qpn q (qp_num ep)) as [[s|] q1] eqn:Hq.
  2:{ destruct Hr as [-> _]. by split. }
  destruct Hr as (Hs & Hsub & _). specialize (IH q1). destruct (take_nic eps q1) as [q2 [ss|e]]; simpl.
  - destruct IH as (-> & Hn & Hin). split; [done|]. unfold endpoints in *. csimpl. split; [f_equal; [done|exact Hn]|].
    intros n [->|Hx]%elem_of_cons.
    + destruct (decide (qp_num ep ∈ qp_num <$> (local_endpoint <$> q))) as [|Hno]; [done|exfalso].
      pose proof (remove_pending_other q ep) as Ho. unfold endpoints in Ho. rewrite (Ho Hno) in Hq. done.
    + eapply elem_of_sublist; [by apply Hin|]. by apply numbers_sublist.
  - destruct IH as [-> Hs2]. split; [done|]. by etrans.
Qed.

Lemma drop_pending_inv local nics :
  length local = length nics →
  ∃ nics', drop_pending local nics = Ret nics' ∧ length nics' = length nics ∧
    ∀ i q', nics' !! i = Some q' → ∃ eps q, local !! i = Some eps ∧ nics !! i = Some q ∧ q' = drop_nic eps q.
Proof.
  revert nics. induction local as [|eps local IH]; intros [|q nics] Hl; try done; [by exists []|]. injection Hl as Hl.
  destruct (IH nics Hl) as (nics' & Hd & Hlen & Hall). exists (drop_nic eps q :: nics').
  assert (drop_pending (eps :: local) (q :: nics) = Ret (drop_nic eps q :: nics')) as ->.
  { destruct eps; cbn [drop_pending]; by rewrite Hd. }
  split; [done|]. split; [simpl; lia|]. intros [|i] q' Hq; simplify_eq/=; [by exists eps, q|]. by apply Hall.
Qed.

Lemma take_pending_inv local nics :
  length local = length nics →
  ∃ nics' r, take_pending local nics = Ret (nics', r) ∧ length nics' = length nics ∧
    match r with
    | Ok ss => drop_pending local nics = Ret nics' ∧ (λ l, numbers_of l) <$> ss = (λ l, qpns l) <$> local ∧
        ∀ i eps q n, local !! i = Some eps → nics !! i = Some q → n ∈ qpns eps → n ∈ numbers_of q
    | Err e => e = no_pending ∧ ∀ i q', nics' !! i = Some q' → ∃ q, nics !! i = Some q ∧ q' `sublist_of` q
    end.
Proof.
  revert nics. induction local as [|eps local IH]; intros [|q nics] Hl; try done.
  { exists [], (Ok []). by split_and!. }
  injection Hl as Hl. pose proof (take_nic_inv eps q) as Ht. destruct (take_nic eps q) as [q1 [ss|e]] eqn:Hq.
  2:{ exists (q1 :: nics), (Err e). split; [destruct eps; cbn [take_pending]; by rewrite Hq|]. split; [done|].
      destruct Ht as [-> Hsub]. split; [done|]. intros [|i] q' Hi; simplify_eq/=; eauto. }
  destruct Ht as (-> & Hn & Hin). destruct (IH nics Hl) as (nics' & r & Htp & Hlen & Hr).
  assert (take_pending (eps :: local) (q :: nics) = Ret (drop_nic eps q :: nics', rest ← r; Ok (ss :: rest))) as ->.
  { destruct eps; cbn [take_pending]; rewrite Hq; cbn [mbind outcome_bind]; by rewrite Htp. }
  eexists _, _. split; [done|]. split; [simpl; lia|]. destruct r as [sss|e]; simpl.
  - destruct Hr as (Hd & Hns & Hall). split.
    { destruct eps; cbn [drop_pending]; by rewrite Hd. }
    split; [f_equal; [exact Hn|exact Hns]|]. intros [|i] eps' q' n H1 H2 H3; simplify_eq/=; [by apply Hin|by eapply Hall].
  - destruct Hr as [-> Hall]. split; [done|]. intros [|i] q' Hi; simplify_eq/=; [|by apply Hall].
    exists q. split; [done|]. apply drop_nic_inv.
Qed.

(** ** Shapes *)

Section Shape.
Context {MR : Type} (rkey : MR → u32) `{BuildProfile}.
Context (runtimes : list RcRuntime) (qps_per_peer : nat).
Abbreviation nic_count := (length runtimes).
Abbreviation numas := (rt_numa <$> runtimes).
Abbreviation full := (shape nic_count qps_per_peer).
Abbreviation Sys := (Sys (MR := MR)).

(** Sessions with the numbers of some metadata. *)
Definition carries (ss : list (list RcSession)) (local : list NicHandshake) : Prop :=
  (λ l, numbers_of l) <$> ss = (λ l, qpns l) <$> local.

(** A connection has a session for every queue pair of its metadata. *)
Definition conn_full (c : AddrConnection) : Prop := carries (conn_sessions <$> conn_nics c) (conn_local c) ∧ full (conn_local c).

Definition ticket_full (t : ticket) : Prop :=
  match t.2 with
  | Preparing => True
  | Prepared l | Failed l => full l
  | Taken l remote pend => full l ∧ full remote ∧ carries pend l
  end.

Record sys_full (s : Sys) : Prop := mkSysFull {
  sf_len : length (pending (sys_st s)) = nic_count;
  sf_tickets : NoDup (tickets s).*1;
  sf_connecting a : a ∈ connecting (sys_st s) ↔ a ∈ (tickets s).*1;
  sf_excl a : a ∈ (tickets s).*1 → addr_connections (sys_st s) !! a = None;
  sf_ok : Forall ticket_full (tickets s);
  sf_conns : map_Forall (λ _ c, conn_full c) (addr_connections (sys_st s));
  sf_reg : reg_ok nic_count (registered (sys_st s));
  sf_rr : rr_ok numas (sys_rr s);
}.

Lemma carries_full ss local : carries ss local → full local → full ss.
Proof.
  intros Hc [Hl Hall]. unfold carries in Hc. pose proof (f_equal length Hc) as Hlen. rewrite !length_fmap in Hlen. split; [congruence|].
  apply Forall_lookup. intros i l Hi. pose proof (f_equal (.!! i) Hc) as Hn. simpl in Hn. rewrite !list_lookup_fmap, Hi in Hn.
  destruct (local !! i) as [eps|] eqn:He; [|done]. injection Hn as Hn. apply (f_equal length) in Hn. unfold endpoints in Hn.
  rewrite !length_fmap in Hn. rewrite Hn. by eapply (Forall_lookup_1 _ _ _ _ Hall).
Qed.

Lemma conn_full_ok c : (0 < qps_per_peer)%nat → conn_full c → conn_ok nic_count c.
Proof.
  intros Hq [Hc Hf]. destruct (carries_full _ _ Hc Hf) as [Hl Hall]. rewrite length_fmap in Hl. split; [done|].
  apply Forall_fmap in Hall. eapply Forall_impl; [exact Hall|]. intros n Hn Hz. simpl in Hn. rewrite Hz in Hn. simpl in Hn. lia.
Qed.

Lemma conn_good_full c : conn_good runtimes qps_per_peer c → conn_full c.
Proof.
  intros [He Hs]. split; [|done]. unfold carries. rewrite <- He, <- !list_fmap_compose. done.
Qed.

Lemma full_perm st rr ts ts' : ts ≡ₚ ts' → sys_full (mkSys st rr ts) → sys_full (mkSys st rr ts').
Proof.
  intros Hp [H1 H2 H3 H4 H5 H6 H7 H8]. simpl in *. constructor; simpl; try done.
  - by rewrite <- Hp.
  - intros a. by rewrite <- Hp.
  - intros a. rewrite <- Hp. apply H4.
  - by rewrite <- Hp.
Qed.

Lemma sys_new_full : sys_full (sys_new runtimes).
Proof.
  destruct (sys_new_inv (MR := MR) runtimes qps_per_peer) as [H1 H2 H3 H4 _ _ H7 H8 H9 H10]. constructor; try done.
Qed.

(** The handshake of [addr] moves on. *)
Lemma full_ticket st st' rr addr ph ph' rest :
  sys_full (mkSys st rr ((addr, ph) :: rest)) → length (pending st') = length (pending st) →
  registered st' = registered st → addr_connections st' = addr_connections st → connecting st' = connecting st →
  ticket_full (addr, ph') → sys_full (mkSys st' rr ((addr, ph') :: rest)).
Proof.
  intros [H1 H2 H3 H4 H5 H6 H7 H8] Ep Er Ea Ec Ht. simpl in *. constructor; simpl; rewrite ?Ep, ?Er, ?Ea, ?Ec; try done.
  apply Forall_cons in H5 as [_ H5]. by constructor.
Qed.

(** The handshake of [addr] ends. *)
Lemma full_leave st rr addr ph rest :
  sys_full (mkSys st rr ((addr, ph) :: rest)) →
  leave addr st = Ret (set_connecting (connecting st ∖ {[addr]}) st) ∧
  sys_full (mkSys (set_connecting (connecting st ∖ {[addr]}) st) rr rest).
Proof.
  intros [H1 H2 H3 H4 H5 H6 H7 H8]. simpl in *. apply NoDup_cons in H2 as [Hnin H2]. split.
  - unfold leave. rewrite debug_assert_ok; [done|]. apply bool_decide_eq_true. apply H3. left.
  - constructor; simpl; try done.
    + intros a. rewrite elem_of_difference, H3, elem_of_cons, elem_of_singleton. split; [tauto|].
      intros Ha. split; [by right|]. by intros ->.
    + intros a Ha. apply H4. by right.
    + by apply Forall_cons in H5 as [_ ?].
Qed.

Lemma full_set_pending p st rr ts :
  length p = length (pending st) → sys_full (mkSys st rr ts) → sys_full (mkSys (set_pending p st) rr ts).
Proof. intros Hp [H1 H2 H3 H4 H5 H6 H7 H8]. constructor; simpl in *; try done. congruence. Qed.

Lemma full_set_connections c st rr ts :
  (∀ a, a ∈ ts.*1 → c !! a = None) → map_Forall (λ _ c, conn_full c) c → sys_full (mkSys st rr ts) →
  sys_full (mkSys (set_connections c st) rr ts).
Proof. intros Hn Hc [H1 H2 H3 H4 H5 H6 H7 H8]. by constructor. Qed.

Lemma full_set_reg m st rr ts :
  reg_ok nic_count m → sys_full (mkSys st rr ts) →
  sys_full (mkSys (mkRcState m (pending st) (addr_connections st) (connecting st)) rr ts).
Proof. intros Hm [H1 H2 H3 H4 H5 H6 H7 H8]. by constructor. Qed.

Lemma full_enter st rr ts addr st' r :
  sys_full (mkSys st rr ts) → get_or_prepare_enter addr st = (st', r) →
  sys_full (mkSys st' rr (match r with None => [(addr, Preparing)] | Some _ => [] end ++ ts)).
Proof.
  intros Hinv He. unfold get_or_prepare_enter in He.
  destruct (addr_connections st !! addr) eqn:Hc; [by injection He as <- <-|].
  destruct (decide (addr ∈ connecting st)) as [?|Hn]; [by injection He as <- <-|].
  injection He as <- <-. destruct Hinv as [H1 H2 H3 H4 H5 H6 H7 H8]. simpl in *.
  constructor; simpl; try done.
  - apply NoDup_cons. by rewrite <- H3.
  - intros a. rewrite elem_of_union, elem_of_singleton, elem_of_cons. by rewrite H3.
  - intros a [->|Ha]%elem_of_cons; [done|by apply H4].
  - by constructor.
Qed.

Lemma full_prepare st rr rest addr build psn psn' per_nic :
  sys_full (mkSys st rr ((addr, Preparing) :: rest)) → create_all build 0 runtimes psn qps_per_peer = (psn', Ok per_nic) →
  prepare_push per_nic st = Ret (set_pending (zip_with (++) (pending st) per_nic) st, endpoints <$> per_nic) ∧
  sys_full (mkSys (set_pending (zip_with (++) (pending st) per_nic) st) rr ((addr, Prepared (endpoints <$> per_nic)) :: rest)).
Proof.
  intros Hf [Hl Hall]%create_all_shape. pose proof (sf_len _ Hf) as H1. simpl in H1. unfold prepare_push.
  rewrite push_pending_spec by congruence. split; [done|]. eapply full_ticket; [exact Hf|simpl; rewrite length_zip_with; lia|done..|].
  split; [by rewrite length_fmap|]. apply Forall_fmap. eapply Forall_impl; [exact Hall|]. intros ss Hs. simpl.
  unfold endpoints. by rewrite length_fmap.
Qed.

(** The sessions of a caller are found by number, or the handshake has failed. *)
Lemma full_take st rr addr local remote rest :
  sys_full (mkSys st rr ((addr, Prepared local) :: rest)) → full remote →
  ∃ p r, complete_take addr local st = Ret (set_pending p st, ss ← r; Ok (Some ss)) ∧ take_pending local (pending st) = Ret (p, r) ∧
    sys_full (mkSys (set_pending p st) rr
      ((addr, match r with Ok pend => Taken local remote pend | Err _ => Failed local end) :: rest)).
Proof.
  intros Hf Hr. pose proof (sf_ok _ Hf) as [Hl _]%Forall_cons. simpl in Hl.
  destruct (take_pending_inv local (pending st)) as (p & r & Ht & Hlen & Hres).
  { pose proof (sf_len _ Hf) as H1. simpl in H1. destruct Hl. congruence. }
  exists p, r. split; [|split; [done|]].
  - unfold complete_take. assert (addr_connections st !! addr = None) as -> by (apply (sf_excl _ Hf addr); left).
    rewrite Ht. by destruct r.
  - eapply full_ticket; [exact Hf|done..|]. destruct r as [pend|e]; [|done]. by destruct Hres as (_ & ? & _).
Qed.

Lemma full_install st rr addr local remote pend rest :
  sys_full (mkSys st rr ((addr, Taken local remote pend) :: rest)) →
  ∃ st', complete_install addr local pend st = Ret st' ∧ pending st' = pending st ∧ sys_full (mkSys st' rr rest).
Proof.
  intros Hf. destruct (full_leave _ _ _ _ _ Hf) as [Hlv Hf']. unfold complete_install. rewrite Hlv. cbn [mbind outcome_bind].
  eexists. split; [done|]. split; [done|]. apply full_set_connections; [|apply map_Forall_insert_2|done].
  - intros a Ha. pose proof (sf_tickets _ Hf) as [Hn _]%NoDup_cons. rewrite lookup_insert_ne; [|by intros <-].
    apply (sf_excl _ Hf). by right.
  - pose proof (sf_ok _ Hf) as [(Hs & _ & Hc) _]%Forall_cons. split; [|done]. unfold carries in *. simpl.
    rewrite <- !list_fmap_compose. exact Hc.
  - apply (sf_conns _ Hf).
Qed.

Lemma full_abort st rr addr ph local rest :
  sys_full (mkSys st rr ((addr, ph) :: rest)) → ph = Prepared local ∨ ph = Failed local →
  ∃ p, abort_handshake addr local st = Ret (set_pending p (set_connecting (connecting st ∖ {[addr]}) st)) ∧
    drop_pending local (pending st) = Ret p ∧
    sys_full (mkSys (set_pending p (set_connecting (connecting st ∖ {[addr]}) st)) rr rest).
Proof.
  intros Hf Hph. destruct (full_leave _ _ _ _ _ Hf) as [Hlv Hf']. unfold abort_handshake. rewrite Hlv. cbn [mbind outcome_bind].
  pose proof (sf_len _ Hf) as H1. simpl in H1.
  assert (full local) as [Hl _] by (pose proof (sf_ok _ Hf) as [Ht _]%Forall_cons; destruct Hph; by subst).
  destruct (drop_pending_inv local (pending st)) as (p & Hd & Hlen & _); [congruence|].
  exists p. cbn [set_connecting pending]. rewrite Hd. split; [done|]. split; [done|]. by apply full_set_pending.
Qed.

Lemma full_batch st rr ts alive op addr descs :
  (0 < qps_per_peer)%nat → runtimes ≠ [] → sys_full (mkSys st rr ts) → Forall desc_u64 descs →
  ∃ o, batch_transfer_async alive nic_count st rr op addr descs = Ret o ∧ pending (bo_state o) = pending st ∧
    sys_full (mkSys (bo_state o) (bo_rr o) ts).
Proof.
  intros Hq Hne [H1 H2 H3 H4 H5 H6 H7 H8] Hd. simpl in *.
  destruct (batch_keeps runtimes conn_full st rr alive op addr descs) as (o & Ho & Hrr & Hreg & Hp & Hcon & Hg & Hn); try done.
  - intros c. by apply conn_full_ok.
  - intros c c' [He Hs] Hc Hl. split; [|by rewrite Hl]. by rewrite Hl, Hc.
  - exists o. split; [done|]. split; [done|]. constructor; simpl; rewrite ?Hp, ?Hcon, ?Hreg; try done. intros a Ha. by apply Hn, H4.
Qed.

(** ** Sessions nobody asks for any more *)

(** The endpoints on NIC [i] that the caller will still take or drop. *)
Definition owed_at (i : nat) (t : ticket) : list RcEndpoint :=
  match t.2 with Prepared l | Failed l => default [] (l !! i) | _ => [] end.

(** Pending sessions have different numbers, and each is named by a handshake
    that has not ended. *)
Definition pending_owed (st : RcBackendState (MR := MR)) (ts : list ticket) : Prop :=
  ∀ i q, pending st !! i = Some q → NoDup (numbers_of q) ∧ ∀ e, e ∈ endpoints q → e ∈ ts ≫= owed_at i.

#[local] Instance owed_proper {B} (f : ticket → list B) : Proper ((≡ₚ) ==> (≡ₚ)) (λ ts, ts ≫= f).
Proof. intros ts ts' Hp. by apply bind_Permutation. Qed.

Lemma owed_perm st ts ts' : ts ≡ₚ ts' → pending_owed st ts → pending_owed st ts'.
Proof.
  intros Hp Ho i q Hq. destruct (Ho i q Hq) as [Hn He]. split; [done|]. intros e Hin. specialize (He e Hin).
  assert (ts ≫= owed_at i ≡ₚ ts' ≫= owed_at i) as Hb by (by apply owed_proper). by rewrite <- Hb.
Qed.

Lemma owed_same st st' ts : pending st' = pending st → pending_owed st ts → pending_owed st' ts.
Proof. intros Hp Ho i q. rewrite Hp. apply Ho. Qed.

(** Fewer sessions, and those of a handshake that owes no less. *)
Lemma owed_shrink st st' addr ph ph' rest :
  (∀ i q', pending st' !! i = Some q' → ∃ q, pending st !! i = Some q ∧ q' `sublist_of` q) →
  (∀ i, owed_at i (addr, ph') = owed_at i (addr, ph)) →
  pending_owed st ((addr, ph) :: rest) → pending_owed st' ((addr, ph') :: rest).
Proof.
  intros Hsub Hph Ho i q' Hq'. destruct (Hsub i q' Hq') as (q & Hq & Hs). destruct (Ho i q Hq) as [Hn He]. split.
  - eapply sublist_NoDup; [exact Hn|by apply numbers_sublist].
  - intros e Hin. csimpl. rewrite Hph. apply He. eapply elem_of_sublist; [exact Hin|by apply endpoints_sublist].
Qed.

(** Dropping everything a handshake names leaves what the others name. *)
Lemma owed_drop st st' addr ph local rest :
  drop_pending local (pending st) = Ret (pending st') → length local = length (pending st) →
  (∀ i, owed_at i (addr, ph) = default [] (local !! i)) →
  pending_owed st ((addr, ph) :: rest) → pending_owed st' rest.
Proof.
  intros Hd Hl Hph Ho i q' Hq'. destruct (drop_pending_inv local (pending st) Hl) as (p & Hd' & _ & Hp).
  rewrite Hd in Hd'. injection Hd' as <-. destruct (Hp i q' Hq') as (eps & q & He & Hq & ->). destruct (Ho i q Hq) as [Hn Hin].
  destruct (drop_nic_inv eps q) as [Hsub Hgone]. split.
  - eapply sublist_NoDup; [exact Hn|by apply numbers_sublist].
  - intros e Hie. assert (e ∈ endpoints q) as Heq by (eapply elem_of_sublist; [exact Hie|by apply endpoints_sublist]).
    specialize (Hin e Heq). csimpl in Hin. apply elem_of_app in Hin as [Hown|]; [|done]. exfalso.
    rewrite Hph, He in Hown. simpl in Hown. apply (Hgone Hn (qp_num e)); [by apply list_elem_of_fmap_2|by apply elem_of_numbers].
Qed.
End Shape.

(** ** Every section *)

Section Transitions.
Context {MR : Type} (rkey : MR → u32) `{BuildProfile}.
Context (runtimes : list RcRuntime) (qps_per_peer : nat) (numbers : numbering (MR := MR)).
Context (Hq : (0 < qps_per_peer)%nat) (Hne : runtimes ≠ []).
Abbreviation Sys := (Sys (MR := MR)).
Abbreviation full_state := (sys_full (MR := MR) runtimes qps_per_peer).
Abbreviation next := (step rkey runtimes qps_per_peer numbers).

(** It returns, with the shapes kept. *)
Lemma step_full s o : full_state s → next s o → ∃ s', o = Ret s' ∧ full_state s'.
Proof.
  intros Hf Hstep. destruct s as [st rr ts].
  inversion Hstep as [addr st' r He|addr rest build psn psn' per_nic Hts Hc _|addr rest Hts
    |addr rest local remote Hts Hr|addr rest local remote pend modify Hts|addr rest local Hts|addr
    |reg addr len numa Ha Hl|addr|alive op addr descs Hd]; subst; clear Hstep; simpl in *.
  - eexists. split; [done|]. by eapply full_enter.
  - apply (full_perm _ _ _ _ _ _ Hts) in Hf. destruct (full_prepare _ _ _ _ _ _ _ _ _ _ Hf Hc) as [-> Hf']. by eexists.
  - apply (full_perm _ _ _ _ _ _ Hts) in Hf. destruct (full_leave _ _ _ _ _ _ _ Hf) as [-> Hf']. by eexists.
  - apply (full_perm _ _ _ _ _ _ Hts) in Hf. apply (check_remote_shape runtimes qps_per_peer) in Hr.
    destruct (full_take _ _ _ _ _ _ _ _ Hf Hr) as (p & r & -> & _ & Hf'). cbn [mbind outcome_bind].
    eexists. split; [done|]. by destruct r.
  - apply (full_perm _ _ _ _ _ _ Hts) in Hf. pose proof (sf_ok _ _ _ Hf) as [(Hs & Hr & Hp) _]%Forall_cons.
    destruct (connect_all_ret modify 0 runtimes qps_per_peer pend remote) as [r ->]; [by eapply carries_full|done|].
    cbn [mbind outcome_bind]. destruct r as [[]|e].
    + destruct (full_install _ _ _ _ _ _ _ _ _ Hf) as (st' & -> & _ & Hf'). by eexists.
    + eexists. split; [done|]. by eapply full_ticket; [exact Hf|..].
  - assert (∃ ph, full_state (mkSys st rr ((addr, ph) :: rest)) ∧ (ph = Prepared local ∨ ph = Failed local)) as (ph & Hf' & Hph).
    { destruct Hts as [Hts|Hts]; apply (full_perm _ _ _ _ _ _ Hts) in Hf; eauto. }
    destruct (full_abort _ _ _ _ _ _ _ _ Hf' Hph) as (p & -> & _ & Hf''). by eexists.
  - eexists. split; [done|]. apply full_set_connections; [..|done].
    + intros a Ha. rewrite lookup_delete_None. right. by apply (sf_excl _ _ _ Hf).
    + intros a c [_ Hc]%lookup_delete_Some. by apply (sf_conns _ _ _ Hf a).
  - destruct (register_keeps rkey runtimes reg st addr len numa (sf_reg _ _ _ Hf) Ha Hl) as (m & r & -> & Hm).
    eexists. split; [done|]. by apply full_set_reg.
  - destruct (unregister_keeps runtimes st addr (sf_reg _ _ _ Hf)) as (m & -> & Hm). eexists. split; [done|]. by apply full_set_reg.
  - destruct (full_batch runtimes qps_per_peer st rr ts alive op addr descs Hq Hne Hf Hd) as (o & -> & _ & Hf'). by eexists.
Qed.

Lemma reachable_full s : reachable rkey runtimes qps_per_peer numbers s → full_state s.
Proof.
  induction 1 as [|s s' _ IH Hstep]; [apply sys_new_full|]. by destruct (step_full s _ IH Hstep) as (? & [= <-] & ?).
Qed.

(** With numbers unique among the pending sessions, none is left behind. *)
Lemma step_owed s s' :
  (∀ st ts per_nic, numbers st ts per_nic → live_qpns st per_nic) →
  full_state s → pending_owed (sys_st s) (tickets s) → next s (Ret s') → pending_owed (sys_st s') (tickets s').
Proof.
  intros Hnum Hf Ho Hstep. destruct s as [st rr ts].
  inversion Hstep as [addr st' r He E|addr rest build psn psn' per_nic Hts Hc Hn E|addr rest Hts E
    |addr rest local remote Hts Hr E|addr rest local remote pend modify Hts E|addr rest local Hts E|addr E
    |reg addr len numa Ha Hl E|addr E|alive op addr descs Hd E]; subst; clear Hstep; simpl in *.
  - unfold get_or_prepare_enter in He. destruct (addr_connections st !! addr); [by injection He as <- <-|].
    destruct (decide _); by injection He as <- <-.
  - apply (full_perm _ _ _ _ _ _ Hts) in Hf. destruct (full_prepare _ _ _ _ _ _ _ _ _ _ Hf Hc) as [Hp Hf']. rewrite Hp in E.
    injection E as <-. simpl. apply (owed_perm _ _ _ Hts) in Ho. intros i q Hq0. simpl in Hq0.
    apply lookup_zip_with_Some in Hq0 as (q0 & ss & -> & Hq0 & Hss). destruct (Ho i q0 Hq0) as [_ Hin].
    unfold endpoints. rewrite !fmap_app. split.
    + pose proof (Hnum _ _ _ Hn i ss q0 Hss Hq0) as Hnd. rewrite fmap_app in Hnd. by rewrite (Permutation_app_comm (_ <$> _)).
    + intros e. unfold owed_at at 1. simpl. rewrite list_lookup_fmap, Hss. simpl. rewrite !elem_of_app.
      intros [He|He]; [right; by apply (Hin e) in He|by left].
  - apply (full_perm _ _ _ _ _ _ Hts) in Hf. destruct (full_leave _ _ _ _ _ _ _ Hf) as [Hlv _]. rewrite Hlv in E.
    injection E as <-. apply (owed_perm _ _ _ Hts) in Ho. intros i q Hi. destruct (Ho i q Hi) as [? Hin]. split; [done|]. exact Hin.
  - apply (full_perm _ _ _ _ _ _ Hts) in Hf. apply (owed_perm _ _ _ Hts) in Ho. apply (check_remote_shape runtimes qps_per_peer) in Hr.
    destruct (full_take _ _ _ _ _ _ _ _ Hf Hr) as (p & r & Ht & Htp & _). rewrite Ht in E. cbn [mbind outcome_bind] in E.
    assert (length local = length (pending st)) as Hl.
    { pose proof (sf_ok _ _ _ Hf) as [[Hl _] _]%Forall_cons. pose proof (sf_len _ _ _ Hf) as H1. simpl in *. congruence. }
    destruct (take_pending_inv local (pending st) Hl) as (p' & r' & Htp' & _ & Hres). rewrite Htp in Htp'. injection Htp' as <- <-.
    destruct r as [ss|e]; cbn [mbind result_bind] in E; injection E as <-; simpl.
    + destruct Hres as (Hd & _). intros i q Hi.
      destruct (owed_drop st (set_pending p st) addr (Prepared local) local rest Hd Hl (λ _, eq_refl) Ho i q Hi) as [? Hin].
      split; [done|]. exact Hin.
    + destruct Hres as [_ Hsub]. by eapply (owed_shrink st _ addr (Prepared local)).
  - apply (full_perm _ _ _ _ _ _ Hts) in Hf. apply (owed_perm _ _ _ Hts) in Ho.
    destruct (connect_all modify 0 runtimes pend remote) as [[[]|e]| |]; try done; cbn [mbind outcome_bind] in E.
    + destruct (full_install _ _ _ _ _ _ _ _ _ Hf) as (st' & Hi & Hp & _). rewrite Hi in E. cbn [mbind outcome_bind] in E. injection E as <-.
      simpl. eapply owed_same; [exact Hp|]. intros i q Hiq. destruct (Ho i q Hiq) as [? Hin]. split; [done|]. exact Hin.
    + injection E as <-. simpl. intros i q Hiq. destruct (Ho i q Hiq) as [? Hin]. split; [done|]. intros x Hx. specialize (Hin x Hx).
      csimpl. apply elem_of_app. right. exact Hin.
  - assert (∃ ph, full_state (mkSys st rr ((addr, ph) :: rest)) ∧ pending_owed st ((addr, ph) :: rest) ∧
      (ph = Prepared local ∨ ph = Failed local)) as (ph & Hf' & Ho' & Hph).
    { destruct Hts as [Hts|Hts]; apply (full_perm _ _ _ _ _ _ Hts) in Hf; apply (owed_perm _ _ _ Hts) in Ho; eauto 10. }
    destruct (full_abort _ _ _ _ _ _ _ _ Hf' Hph) as (p & Hab & Hd & _). rewrite Hab in E. injection E as <-. simpl.
    eapply (owed_drop st _ addr ph local); [exact Hd| |by destruct Hph; subst|done].
    pose proof (sf_len _ _ _ Hf') as H1. pose proof (sf_ok _ _ _ Hf') as [Hok _]%Forall_cons. simpl in *.
    destruct Hph; subst; destruct Hok; congruence.
  - done.
  - destruct (register_keeps rkey runtimes reg st addr len numa (sf_reg _ _ _ Hf) Ha Hl) as (m & r & Hreg & _). rewrite Hreg in E. by injection E as <-.
  - destruct (unregister_keeps runtimes st addr (sf_reg _ _ _ Hf)) as (m & Hreg & _). simpl. by rewrite Hreg.
  - destruct (full_batch runtimes qps_per_peer st rr ts alive op addr descs Hq Hne Hf Hd) as (o & Hb & Hp & _). rewrite Hb in E.
    injection E as <-. simpl. by eapply owed_same.
Qed.

Lemma reachable_owed s :
  (∀ st ts per_nic, numbers st ts per_nic → live_qpns st per_nic) →
  reachable rkey runtimes qps_per_peer numbers s → pending_owed (sys_st s) (tickets s).
Proof.
  intros Hnum. induction 1 as [|s s' Hr IH Hstep].
  - intros i q [-> _]%lookup_replicate. split; [constructor|]. by intros e ?%elem_of_nil.
  - eapply step_owed; [done|by apply reachable_full|exact IH|exact Hstep].
Qed.
End Transitions.
