(* ===== verification/HandshakeTheorems.v ===== *)
(** * Theorems on the handshakes of the RDMA backend *)

From S2P Require Import Prelude RegMap Session RcBackend RcBatch Handshake HandshakeInv HandshakeShape.

(** ** Connecting succeeds when the links and the driver allow it *)

Definition link_ok (rt : RcRuntime) (eps : list RcEndpoint) : Prop :=
  match rt_link rt with
  | InfiniBand => Forall (λ ep, ep_lid ep ≠ 0) eps
  | Ethernet => True
  | Unspecified => False
  end.

(** The driver connects queue pair [j] of NIC [i] to the peer's queue pair [j] of
    NIC [i]; it may refuse any other pair. *)
Definition links_up (modify : nat → RcSession → RcEndpoint → option string) (local remote : list NicHandshake) : Prop :=
  ∀ i l r j ep rep, local !! i = Some l → remote !! i = Some r → l !! j = Some ep → r !! j = Some rep →
    modify i (mkSession ep) rep = None.

Lemma connect_nic_ok modify rt ss eps :
  (∀ j s ep, ss !! j = Some s → eps !! j = Some ep → modify s ep = None) → link_ok rt eps → length ss = length eps →
  connect_nic modify rt ss eps = Ret (Ok tt).
Proof.
  revert eps. induction ss as [|s ss IH]; intros [|ep eps] Hm Hl Hlen; try done. cbn [connect_nic].
  assert (connect_nic modify rt ss eps = Ret (Ok tt)) as IH'.
  { apply IH; [intros j; apply (Hm (S j))| |simpl in Hlen; lia]. unfold link_ok in *.
    destruct (rt_link rt); [by apply Forall_cons in Hl as [_ ?]|done|done]. }
  unfold connect, link_ok in *. rewrite (Hm 0%nat s ep) by done. destruct (rt_link rt); [|done|done].
  apply Forall_cons in Hl as [Hz _]. by apply Z.eqb_neq in Hz as ->.
Qed.

Lemma connect_all_ok modify nic rts qps ss remote :
  (∀ i l r j s ep, ss !! i = Some l → remote !! i = Some r → l !! j = Some s → r !! j = Some ep →
     modify (nic + i)%nat s ep = None) →
  Forall2 link_ok rts remote → shape (length rts) qps ss → Forall (λ l, length l = qps) remote →
  connect_all modify nic rts ss remote = Ret (Ok tt).
Proof.
  intros Hm Hl. revert nic ss Hm. induction Hl as [|rt eps rts remote Hl _ IH]; intros nic ss Hm [Hlen Hs] Hr.
  { by destruct ss. }
  destruct ss as [|s ss]; [done|]. cbn [connect_all]. apply Forall_cons in Hs as [? Hs]. apply Forall_cons in Hr as [? Hr].
  rewrite connect_nic_ok; [|intros j x ep Hx He|done|congruence].
  - cbn [mbind outcome_bind]. apply IH; [|simpl in Hlen; split; [lia|done]|done].
    intros i l r j x ep H1 H2. replace (S nic + i)%nat with (nic + S i)%nat by lia. by apply Hm.
  - specialize (Hm 0%nat s eps j x ep). rewrite Nat.add_0_r in Hm. by apply Hm.
Qed.

(** [links_up] speaks of endpoints, the code of the sessions that have them. *)
Lemma links_up_sessions modify pend remote i l r j s ep :
  links_up modify (endpoints <$> pend) remote →
  pend !! i = Some l → remote !! i = Some r → l !! j = Some s → r !! j = Some ep → modify i s ep = None.
Proof.
  intros Hm Hi Hr Hs He. destruct s as [e]. apply (Hm i (endpoints l) r j e ep); try done.
  - by rewrite list_lookup_fmap, Hi.
  - unfold endpoints. by rewrite list_lookup_fmap, Hs.
Qed.

(** ** The methods run alone, in any state of the system *)

Section Methods.
Context {MR : Type} `{BuildProfile} (runtimes : list RcRuntime) (qps : nat).
Abbreviation MInv := (sys_inv (MR := MR) runtimes qps).

Lemma prepare_idle (st : RcBackendState (MR := MR)) rr ts addr build psn psn' per_nic :
  MInv (mkSys st rr ts) → addr_connections st !! addr = None → addr ∉ connecting st →
  create_all build 0 runtimes psn qps = (psn', Ok per_nic) → fresh_qpns ts per_nic →
  ∃ st', get_or_prepare runtimes qps build addr psn st = Ret (psn', st', Ok (NeedHandshake (endpoints <$> per_nic))) ∧
    MInv (mkSys st' rr ((addr, Prepared (endpoints <$> per_nic)) :: ts)) ∧
    addr_connections st' = addr_connections st ∧ registered st' = registered st.
Proof.
  intros Hinv Hc Hn Hcreate Hf. unfold get_or_prepare.
  assert (get_or_prepare_enter addr st = (set_connecting ({[addr]} ∪ connecting st) st, None)) as He
    by (unfold get_or_prepare_enter; by rewrite Hc, decide_False by done).
  pose proof (inv_enter _ _ _ _ _ _ _ _ Hinv He) as Hinv1. rewrite He, Hcreate.
  destruct (inv_prepare _ _ _ _ _ _ _ _ _ _ Hinv1 Hcreate Hf) as (st' & local & Hpush & Hinv2). rewrite Hpush.
  unfold prepare_push in Hpush. destruct (push_pending _ _) as [p| |]; [|done|done]. injection Hpush as <- <-.
  eexists. by split_and!.
Qed.

Lemma complete_prepared (st : RcBackendState (MR := MR)) rr addr local remote rest modify :
  MInv (mkSys st rr ((addr, Prepared local) :: rest)) →
  shape (length runtimes) qps remote → Forall2 link_ok runtimes remote → links_up modify local remote →
  ∃ st' pend, complete_handshake_for runtimes qps modify addr local remote st = Ret (st', Ok tt) ∧
    endpoints <$> pend = local ∧
    addr_connections st' = <[addr := mkConnection ((λ ss, mkConnNic ss 0) <$> pend) local]> (addr_connections st) ∧
    connecting st' = connecting st ∖ {[addr]} ∧ registered st' = registered st ∧
    MInv (mkSys st' rr rest).
Proof.
  intros Hinv Hs Hl Hm.
  destruct (inv_complete_take _ _ _ _ _ _ remote _ Hinv Hs) as (st1 & pend & Ht & Hp & Hc & Ha & Hg & Hinv1).
  destruct (inv_install _ _ _ _ _ _ _ _ _ Hinv1) as (st2 & Hi & Ha2 & Hc2 & _ & Hg2 & Hinv2).
  exists st2, pend. unfold complete_handshake_for. rewrite (proj2 (check_remote_shape _ _ remote) Hs), Ht.
  cbn [mbind outcome_bind]. rewrite (connect_all_ok modify 0 runtimes qps); [| |done| |apply Hs].
  - cbn [mbind outcome_bind]. rewrite Hi, Ha2, Hc2, Hg2, Ha, Hc. by split_and!.
  - intros i l r j x ep. apply links_up_sessions. by rewrite Hp.
  - pose proof (inv_ok _ _ _ Hinv1) as [((Hlen & Hall) & _ & _) _]%Forall_cons. rewrite <- Hp in Hlen, Hall.
    rewrite length_fmap in Hlen. split; [done|]. apply Forall_fmap in Hall. eapply Forall_impl; [exact Hall|].
    intros ss Hss. simpl in Hss. unfold endpoints in Hss. by rewrite length_fmap in Hss.
Qed.
End Methods.

Section Theorems.
Context {MR : Type} (rkey : MR → u32) `{BuildProfile}.
Context (open : string → result TransferError RcRuntime) (nic_names : list string) (qps : nat) (b : RcBackend).
Context (Hnew : rc_new open nic_names qps = Ok b).
Abbreviation runtimes := (rc_runtimes b).
Abbreviation qps_per_peer := (rc_qps_per_peer b).
Abbreviation nic_count := (length runtimes).
Abbreviation RSys := (Sys (MR := MR)).

(** C31: However the critical sections of concurrent callers interleave, and
    whatever numbers the driver gives to queue pairs, each one returns: no
    assertion that an address is in the [connecting] set fails, no queue is
    indexed out of range, and the arithmetic on registrations does not
    overflow. *)
Theorem backend_sections_return numbers (s : RSys) o :
  reachable rkey runtimes qps_per_peer numbers s →
  step rkey runtimes qps_per_peer numbers s o → ∃ s', o = Ret s' ∧ reachable rkey runtimes qps_per_peer numbers s'.
Proof.
  destruct (rc_new_spec _ _ _ _ Hnew) as [Hq Hne]. intros Hr Hs. pose proof (reachable_full _ _ _ _ Hq Hne _ Hr) as Hf.
  destruct (step_full _ _ _ _ Hq Hne _ _ Hf Hs) as (s' & -> & _). exists s'. split; [done|]. by eapply reach_step.
Qed.

(** C32: The [connecting] set is exactly the addresses with a handshake under way,
    at most one per address, and none of them is connected; every connection has
    on every NIC a session with each number of the metadata it was made from.
    This holds whatever numbers queue pairs get.  When numbers are unique among
    the sessions pending on a NIC, every pending session is named by a handshake
    that has not ended; and when moreover no number is given out again while a
    handshake names it, the pending queues hold exactly the sessions of the
    handshakes whose metadata is out, and connections exactly the sessions of
    their metadata. *)
Theorem handshake_exclusive numbers (s : RSys) :
  reachable rkey runtimes qps_per_peer numbers s →
  (NoDup (tickets s).*1 ∧
   (∀ a, a ∈ connecting (sys_st s) ↔ a ∈ (tickets s).*1) ∧
   (∀ a, a ∈ connecting (sys_st s) → addr_connections (sys_st s) !! a = None) ∧
   map_Forall (λ _ c, conn_full runtimes qps_per_peer c) (addr_connections (sys_st s))) ∧
  ((∀ st ts per_nic, numbers st ts per_nic → live_qpns st per_nic) → pending_owed (sys_st s) (tickets s)) ∧
  ((∀ st ts per_nic, numbers st ts per_nic → fresh_qpns ts per_nic) →
   (∀ i q, pending (sys_st s) !! i = Some q → endpoints q ≡ₚ tickets s ≫= pend_at i) ∧
   map_Forall (λ _ c, conn_good runtimes qps_per_peer c) (addr_connections (sys_st s))).
Proof.
  destruct (rc_new_spec _ _ _ _ Hnew) as [Hq Hne]. intros Hr. destruct (reachable_full _ _ _ _ Hq Hne _ Hr) as [H1 H2 H3 H4 H5 H6 H7 H8].
  split; [split_and!; try done; intros a Ha; apply H4; by apply H3|]. split.
  - intros Hnum. by apply (reachable_owed rkey _ _ _ Hq Hne _ Hnum).
  - intros Hnum. pose proof (reachable_inv _ _ _ _ _ Hnum Hq Hne Hr) as Hinv. split; [apply (inv_pending _ _ _ Hinv)|apply (inv_conns _ _ _ Hinv)].
Qed.

(** C39: [abort_handshake] drops pending sessions by number alone.  When a connect
    has failed (its queue pairs are destroyed) and another peer's handshake holds
    a queue pair with one of its numbers, as the driver may give out once the
    first is gone, then aborting the failed handshake drops that number from the
    pending queue, and the other peer's handshake can only fail, whatever the
    driver would have answered. *)
Theorem abort_drops_reused_qpn (s : RSys) a b' la lb rest i ea eb n remote modify :
  reachable rkey runtimes qps_per_peer alive_qpns s →
  tickets s ≡ₚ (a, Failed la) :: (b', Prepared lb) :: rest →
  la !! i = Some ea → lb !! i = Some eb → n ∈ qpns ea → n ∈ qpns eb → shape nic_count qps_per_peer remote →
  ∃ st1 st2, abort_handshake a la (sys_st s) = Ret st1 ∧ (∀ q, pending st1 !! i = Some q → n ∉ numbers_of q) ∧
    complete_handshake_for runtimes qps_per_peer modify b' lb remote st1 = Ret (st2, Err no_pending).
Proof.
  destruct (rc_new_spec _ _ _ _ Hnew) as [Hq Hne]. intros Hr Hts Hla Hlb Ha Hb Hs.
  pose proof (reachable_full _ _ _ _ Hq Hne _ Hr) as Hf. pose proof (reachable_owed rkey _ _ _ Hq Hne _ (λ _ _ _ H, H) Hr) as Ho.
  destruct s as [st rr ts]. simpl in *. apply (full_perm _ _ _ _ _ _ Hts) in Hf.
  destruct (full_abort _ _ _ _ _ _ la _ Hf) as (p & Hab & Hd & Hf'); [by right|].
  assert (length la = length (pending st)) as Hl.
  { pose proof (sf_ok _ _ _ Hf) as [[Hl _] _]%Forall_cons. pose proof (sf_len _ _ _ Hf) as H1. simpl in *. congruence. }
  assert (∀ q, p !! i = Some q → n ∉ numbers_of q) as Hgone.
  { intros q Hpi. destruct (drop_pending_inv la (pending st) Hl) as (p' & Hd' & _ & Hp). rewrite Hd in Hd'. injection Hd' as <-.
    destruct (Hp i q Hpi) as (eps & q0 & He & Hq0 & ->). simplify_eq. destruct (Ho i q0 Hq0) as [Hnd _]. by apply (drop_nic_inv ea q0). }
  destruct (full_take _ _ _ _ _ _ remote _ Hf' Hs) as (p2 & r & Ht & Htp & _).
  eexists _, _. split; [exact Hab|]. split; [exact Hgone|]. unfold complete_handshake_for.
  rewrite (proj2 (check_remote_shape _ _ remote) Hs), Ht. cbn [mbind outcome_bind].
  assert (length lb = length p) as Hlp.
  { pose proof (sf_ok _ _ _ Hf') as [[Hl2 _] _]%Forall_cons. pose proof (sf_len _ _ _ Hf') as H1. simpl in *. congruence. }
  destruct (take_pending_inv lb p Hlp) as (p3 & r3 & Ht3 & _ & Hres). simpl in Htp. rewrite Htp in Ht3. injection Ht3 as <- <-.
  destruct r as [ss|e]; [exfalso|by destruct Hres as [-> _]]. destruct Hres as (_ & _ & Hin).
  destruct (lookup_lt_is_Some_2 p i) as [q Hpi]; [rewrite <- Hlp; by eapply lookup_lt_Some|].
  apply (Hgone q Hpi). by eapply Hin.
Qed.

(** A caller that holds the metadata of its handshake and completes it with a
    peer of the same shape, when the driver connects queue pairs of equal
    position, gets its connection: exactly the sessions it
    prepared, in the order of its metadata, whatever other handshakes did to
    the queues in between; other connections, the registrations and the other
    callers' pending sessions are kept. *)
Theorem complete_owns_sessions (s : RSys) addr local remote rest modify :
  reachable rkey runtimes qps_per_peer apart_qpns s →
  tickets s ≡ₚ (addr, Prepared local) :: rest →
  shape nic_count qps_per_peer remote → Forall2 link_ok runtimes remote → links_up modify local remote →
  ∃ st pend, complete_handshake_for runtimes qps_per_peer modify addr local remote (sys_st s) = Ret (st, Ok tt) ∧
    endpoints <$> pend = local ∧
    addr_connections st = <[addr := mkConnection ((λ ss, mkConnNic ss 0) <$> pend) local]> (addr_connections (sys_st s)) ∧
    connecting st = connecting (sys_st s) ∖ {[addr]} ∧ registered st = registered (sys_st s) ∧
    ∀ i q, pending st !! i = Some q → endpoints q ≡ₚ rest ≫= pend_at i.
Proof.
  destruct (rc_new_spec _ _ _ _ Hnew) as [Hq Hne]. intros Hr Hts Hs Hl Hm. pose proof (reachable_inv _ _ _ _ _ (λ _ _ _ H, H) Hq Hne Hr) as Hinv.
  destruct s as [st rr ts]. simpl in *. apply (inv_perm _ _ _ _ _ _ Hts) in Hinv.
  destruct (complete_prepared _ _ _ _ _ _ _ _ _ Hinv Hs Hl Hm) as (st' & pend & Hc & Hp & Ha & Hcn & Hg & Hinv').
  exists st', pend. split_and!; try done. apply (inv_pending _ _ _ Hinv').
Qed.
End Theorems.

(** ** A concrete backend: two NICs, one queue pair each *)

#[local] Instance hs_profile : BuildProfile := true.

Definition hs_runtimes : list RcRuntime := [mkRuntime [] 0 Ethernet 0; mkRuntime [] 5 InfiniBand 1].
Definition hs_open (name : string) : result TransferError RcRuntime :=
  if String.eqb name "mlx5_0" then Ok (mkRuntime [] 0 Ethernet 0) else Ok (mkRuntime [] 5 InfiniBand 1).
Definition hs_names : list string := ["mlx5_0"; "mlx5_1"]%string.
Definition hs_backend : RcBackend := mkBackend hs_runtimes 1.
Definition hs_key (mr : u32) : u32 := mr.
Definition hs_build (nic : nat) (psn : u64) : result string u32 := Ok (100 + psn).
Definition hs_sessions : list (list RcSession) :=
  [[mkSession (mkEndpoint [] 0 101 1)]; [mkSession (mkEndpoint [] 5 102 2)]].
Definition hs_local : list NicHandshake := endpoints <$> hs_sessions.
Definition hs_remote : list NicHandshake := [[mkEndpoint [] 0 7 7]; [mkEndpoint [] 9 8 8]].

Definition hs0 : Sys (MR := u32) := sys_new hs_runtimes.
Definition hs1 : Sys (MR := u32) :=
  mkSys (get_or_prepare_enter "peer" (sys_st hs0)).1 (sys_rr hs0) [("peer", Preparing)].
Definition hs2 : Sys (MR := u32) :=
  mkSys (set_pending hs_sessions (sys_st hs1)) (sys_rr hs0) [("peer", Prepared hs_local)].

Lemma hs1_reachable : reachable hs_key hs_runtimes 1 apart_qpns hs1.
Proof.
  apply (reach_step _ _ _ _ hs0); [constructor|].
  apply (step_enter _ _ _ _ hs0 "peer" _ None). vm_compute. reflexivity.
Defined.

Lemma hs2_reachable : reachable hs_key hs_runtimes 1 apart_qpns hs2.
Proof.
  apply (reach_step _ _ _ _ hs1); [apply hs1_reachable|].
  apply (step_prepare _ _ _ _ hs1 "peer" [] hs_build 1 3 hs_sessions).
  - reflexivity.
  - vm_compute. reflexivity.
  - intros [|[|i]] ss Hss; simplify_eq/=; apply NoDup_singleton.
Defined.

Lemma backend_sections_return_witness :
  ∃ s', (st ← abort_handshake "peer" hs_local (sys_st hs2); Ret (mkSys st (sys_rr hs2) [])) = Ret s' ∧
    reachable hs_key hs_runtimes 1 apart_qpns s'.
Proof.
  apply (backend_sections_return hs_key hs_open hs_names 1 hs_backend eq_refl apart_qpns hs2); [apply hs2_reachable|].
  apply step_abort. by left.
Defined.

Lemma handshake_exclusive_witness : addr_connections (sys_st hs2) !! "peer" = None.
Proof.
  destruct (handshake_exclusive hs_key hs_open hs_names 1 hs_backend eq_refl apart_qpns hs2 hs2_reachable) as ((_ & Hc & Hn & _) & _).
  apply Hn, Hc. left.
Defined.

Lemma complete_owns_sessions_witness :
  ∃ st pend, complete_handshake_for hs_runtimes 1 (λ _ _ _, None) "peer" hs_local hs_remote (sys_st hs2) = Ret (st, Ok tt) ∧
    endpoints <$> pend = hs_local.
Proof.
  destruct (complete_owns_sessions hs_key hs_open hs_names 1 hs_backend eq_refl hs2 "peer" hs_local hs_remote [] (λ _ _ _, None))
    as (st & pend & Hc & Hp & _).
  - apply hs2_reachable.
  - reflexivity.
  - split; [done|]. repeat constructor.
  - repeat constructor. simpl. lia.
  - done.
  - exists st, pend. split; [exact Hc|exact Hp].
Defined.

(** ** A queue-pair number reused between a failed connect and its abort *)

(** One NIC, one queue pair.  Peer A's queue pair gets number 100 and its connect
    fails; peer B's new queue pair gets the number again. *)
Definition ru_runtimes : list RcRuntime := [mkRuntime [] 0 Ethernet 0].
Definition ru_session (psn : u32) : RcSession := mkSession (mkEndpoint [] 0 100 psn).
Definition ru_local (psn : u32) : list NicHandshake := [[mkEndpoint [] 0 100 psn]].
Definition ru_remote : list NicHandshake := [[mkEndpoint [] 0 9 9]].
Definition ru_state (connecting : gset string) (pending : list (list RcSession)) : RcBackendState (MR := u32) :=
  mkRcState [] pending ∅ connecting.
Definition ru_sys (connecting : gset string) (pending : list (list RcSession)) (ts : list ticket) : Sys (MR := u32) :=
  mkSys (ru_state connecting pending) (from_runtimes (rt_numa <$> ru_runtimes)) ts.

Abbreviation ru_reachable := (reachable hs_key ru_runtimes 1 alive_qpns).

Lemma ru_prepare (s : Sys (MR := u32)) addr rest psn :
  ru_reachable s → tickets s = (addr, Preparing) :: rest → pending (sys_st s) = [[]] → psn = 1 ∨ psn = 2 →
  ru_reachable (mkSys (set_pending [[ru_session psn]] (sys_st s)) (sys_rr s) ((addr, Prepared (ru_local psn)) :: rest)).
Proof.
  intros Hr Ht Hp Hpsn. apply (reach_step _ _ _ _ s); [done|].
  pose proof (step_prepare hs_key ru_runtimes 1 alive_qpns s addr rest (λ _ _, Ok 100) psn (wrapping_add psn 1) [[ru_session psn]]) as Hs.
  unfold prepare_push in Hs. rewrite Hp in Hs. apply Hs; [by rewrite Ht| |].
  - by destruct Hpsn as [-> | ->]; vm_compute.
  - intros [|i] ss q H1 H2; [|by destruct i]. rewrite Hp in H2. simplify_eq/=. apply NoDup_singleton.
Qed.

Lemma ru_reached :
  ∃ s, ru_reachable s ∧ tickets s = [("B", Prepared (ru_local 2)); ("A", Failed (ru_local 1))]%string.
Proof.
  set (s0 := sys_new (MR := u32) ru_runtimes).
  set (s1 := ru_sys {["A"%string]} [[]] [("A"%string, Preparing)]).
  assert (ru_reachable s1) as H1.
  { apply (reach_step _ _ _ _ s0); [constructor|]. apply (step_enter _ _ _ _ s0 "A" _ None). by vm_compute. }
  apply (ru_prepare s1 "A" [] 1) in H1; [|by try left..].
  set (s2 := ru_sys {["A"%string]} [[]] [("A"%string, Taken (ru_local 1) ru_remote [[ru_session 1]])]).
  assert (ru_reachable s2) as H2.
  { eapply (reach_step _ _ _ _ _ _ H1). exact (step_take hs_key ru_runtimes 1 alive_qpns _ "A" [] (ru_local 1) ru_remote (reflexivity _) eq_refl). }
  set (s3 := ru_sys {["A"%string]} [[]] [("A"%string, Failed (ru_local 1))]).
  assert (ru_reachable s3) as H3.
  { apply (reach_step _ _ _ _ _ _ H2).
    exact (step_install hs_key ru_runtimes 1 alive_qpns s2 "A" [] (ru_local 1) ru_remote [[ru_session 1]] (λ _ _ _, Some "modify failed"%string) (reflexivity _)). }
  set (s4 := mkSys (get_or_prepare_enter "B" (sys_st s3)).1 (sys_rr s3) [("B"%string, Preparing); ("A"%string, Failed (ru_local 1))]).
  assert (ru_reachable s4) as H4.
  { apply (reach_step _ _ _ _ _ _ H3). apply (step_enter _ _ _ _ s3 "B" _ None). by vm_compute. }
  apply (ru_prepare s4 "B" [("A"%string, Failed (ru_local 1))] 2) in H4; [|by try right..]. by eexists.
Qed.

Lemma abort_drops_reused_qpn_witness :
  ∃ st st1 st2, abort_handshake (MR := u32) "A" (ru_local 1) st = Ret st1 ∧
    complete_handshake_for ru_runtimes 1 (λ _ _ _, None) "B" (ru_local 2) ru_remote st1 = Ret (st2, Err no_pending).
Proof.
  destruct ru_reached as (s & Hr & Ht).
  destruct (abort_drops_reused_qpn hs_key (λ _, Ok (mkRuntime [] 0 Ethernet 0)) ["mlx5_0"%string] 1 (mkBackend ru_runtimes 1) eq_refl
    s "A" "B" (ru_local 1) (ru_local 2) [] 0 [mkEndpoint [] 0 100 1] [mkEndpoint [] 0 100 2] 100 ru_remote (λ _ _ _, None) Hr)
    as (st1 & st2 & H1 & _ & H2).
  - rewrite Ht. apply perm_swap.
  - done.
  - done.
  - left.
  - left.
  - split; [done|]. repeat constructor.
  - exists (sys_st s), st1, st2. by split.
Defined.
