(* ===== verification/Engine.v ===== *)
(** * The transfer engine: [engine.rs]

    The public face of the RDMA crate: the wire form of descriptors and
    handshake metadata, and the engine over the backend.  The serialiser is a
    class: what [bincode] promises is [CodecLaws].  [connect_engines] is how two
    engines meet (the [connect] of the [gpu_rdma_bench] example). *)

From S2P Require Import Prelude RegMap Session RcBackend RcBatch Handshake HandshakeInv HandshakeTheorems.

(** ** The wire *)

(** [encode_to_vec] and [decode_from_slice]: a value and the bytes it consumed. *)
Class Codec (A : Type) : Type := {
  encode : A → option bytes;
  decode : bytes → option (A * nat);
}.

(** Encoding does not fail, and decoding reads a value back from the front of
    the input, consuming exactly its encoding. *)
Class CodecLaws (A : Type) `{Codec A} : Prop :=
  decode_encode a : ∃ bs, encode a = Some bs ∧ ∀ rest, decode (bs ++ rest) = Some (a, length bs).

(** [from_bytes]: decode, then refuse trailing bytes. *)
Definition from_wire {A} `{Codec A} (invalid trailing : string) (bs : bytes) : result TransferError A :=
  match decode bs with
  | None => Err (InvalidArgument invalid)
  | Some (a, consumed) =>
      if negb (consumed =? length bs)%nat then Err (InvalidArgument trailing) else Ok a
  end.

Lemma from_wire_encoded {A} `{CodecLaws A} invalid trailing a :
  ∃ bs, encode a = Some bs ∧ from_wire invalid trailing bs = Ok a ∧
    ∀ x rest, from_wire (A := A) invalid trailing (bs ++ x :: rest) = Err (InvalidArgument trailing).
Proof.
  destruct (decode_encode a) as (bs & He & Hd). exists bs. split; [done|]. unfold from_wire. split.
  - specialize (Hd []). rewrite app_nil_r in Hd. by rewrite Hd, Nat.eqb_refl.
  - intros x rest. rewrite Hd, length_app. simpl. by replace (_ =? _)%nat with false by (symmetry; apply Nat.eqb_neq; lia).
Qed.

Definition rd_to_bytes `{Codec RegionDescriptor} (d : RegionDescriptor) : outcome bytes := unwrap (encode d).

Definition rd_from_bytes `{Codec RegionDescriptor} : bytes → result TransferError RegionDescriptor :=
  from_wire "invalid region descriptor" "trailing bytes in region descriptor".

Record HandshakeMetadata : Type := mkMetadata { md_nics : list NicHandshake }.
Record WireHandshakeMetadata : Type := mkWireMetadata { wire_nics : list NicHandshake }.

Definition md_to_bytes `{Codec WireHandshakeMetadata} (m : HandshakeMetadata) : outcome bytes :=
  unwrap (encode (mkWireMetadata (md_nics m))).

Definition md_from_bytes `{Codec WireHandshakeMetadata} (bs : bytes) : result TransferError HandshakeMetadata :=
  wire ← from_wire "invalid handshake metadata" "trailing bytes in handshake metadata" bs;
  Ok (mkMetadata (wire_nics wire)).

Lemma md_bytes `{CodecLaws WireHandshakeMetadata} m :
  ∃ bs, md_to_bytes m = Ret bs ∧ md_from_bytes bs = Ok m.
Proof.
  destruct (from_wire_encoded "invalid handshake metadata" "trailing bytes in handshake metadata" (mkWireMetadata (md_nics m)))
    as (bs & He & Hf & _).
  exists bs. unfold md_to_bytes, md_from_bytes. rewrite He, Hf. split; [done|]. by destruct m.
Qed.

(** ** The engine *)

Inductive ConnectionStatus : Type :=
| CsExisting
| CsConnecting
| CsPrepared (m : HandshakeMetadata).

Section Engine.
Context {MR : Type} (rkey : MR → u32) `{BuildProfile}.

(** [TransferEngine { backend }], with the backend's fields spelled out. *)
Record TransferEngine : Type := mkEngine {
  eng_backend : RcBackend;
  eng_psn : u64;
  eng_state : RcBackendState (MR := MR);
  eng_rr : NumaRoundRobin;
}.

Definition put_state (e : TransferEngine) (st : RcBackendState (MR := MR)) : TransferEngine :=
  mkEngine (eng_backend e) (eng_psn e) st (eng_rr e).

Abbreviation rts e := (rc_runtimes (eng_backend e)).
Abbreviation qps e := (rc_qps_per_peer (eng_backend e)).

Definition engine_new (open : string → result TransferError RcRuntime) (nic_names : list string) (qps_per_peer : nat)
    : result TransferError TransferEngine :=
  b ← rc_new open nic_names qps_per_peer;
  Ok (mkEngine b 1 (state_new (length (rc_runtimes b))) (from_runtimes (rt_numa <$> rc_runtimes b))).

Definition num_nics (e : TransferEngine) : nat := length (rts e).
Definition engine_num_qps (e : TransferEngine) : Z := num_qps (eng_state e).

Definition engine_register_host (query_numa : u64 → u32) (reg_mr : nat → u64 → usize → result string MR)
    (e : TransferEngine) (addr : u64) (len : usize)
    : outcome (TransferEngine * result TransferError RegionDescriptor) :=
  '(st, r) ← register_host rkey query_numa reg_mr (num_nics e) (eng_state e) addr len;
  Ret (put_state e st, r).

Definition engine_register_dmabuf (reg_dmabuf_mr : nat → u64 → usize → u64 → Z → result string MR)
    (e : TransferEngine) (addr : u64) (len : usize) (fd : Z) (offset : u64) (numa : u32)
    : outcome (TransferEngine * result TransferError RegionDescriptor) :=
  '(st, r) ← register_dmabuf rkey reg_dmabuf_mr (num_nics e) (eng_state e) addr len fd offset numa;
  Ret (put_state e st, r).

Definition engine_unregister (e : TransferEngine) (addr : u64) : TransferEngine * result TransferError unit :=
  let '(st, r) := unregister (eng_state e) addr in (put_state e st, r).

Definition engine_get_or_prepare (build_qp : nat → u64 → result string u32) (e : TransferEngine) (remote_addr : string)
    : outcome (TransferEngine * result TransferError ConnectionStatus) :=
  '(psn, st, r) ← get_or_prepare (rts e) (qps e) build_qp remote_addr (eng_psn e) (eng_state e);
  let e := mkEngine (eng_backend e) psn st (eng_rr e) in
  Ret (e, s ← r;
          Ok (match s with
              | Existing => CsExisting
              | AlreadyConnecting => CsConnecting
              | NeedHandshake nics => CsPrepared (mkMetadata nics)
              end)).

Definition engine_complete_handshake (modify : nat → RcSession → RcEndpoint → option string) (e : TransferEngine)
    (remote_addr : string) (local_meta remote_meta : HandshakeMetadata)
    : outcome (TransferEngine * result TransferError unit) :=
  '(st, r) ← complete_handshake_for (rts e) (qps e) modify remote_addr (md_nics local_meta) (md_nics remote_meta)
               (eng_state e);
  Ret (put_state e st, r).

Definition engine_abort_handshake (e : TransferEngine) (remote_addr : string) (local_meta : HandshakeMetadata)
    : outcome TransferEngine :=
  st ← abort_handshake remote_addr (md_nics local_meta) (eng_state e);
  Ret (put_state e st).

Definition local_meta_for (e : TransferEngine) (remote_addr : string) : option HandshakeMetadata :=
  mkMetadata <$> local_meta_for_addr remote_addr (eng_state e).

Definition engine_invalidate_connection (e : TransferEngine) (remote_addr : string) : TransferEngine :=
  put_state e (invalidate_connection remote_addr (eng_state e)).

(** The engine after the call, the commands sent and the result. *)
Definition engine_batch_transfer_async (alive : RcSession → bool) (e : TransferEngine) (op : TransferOp)
    (remote_addr : string) (descs : list TransferDesc)
    : outcome (TransferEngine * list (SessionCommand (MR := MR)) * result TransferError unit) :=
  o ← batch_transfer_async alive (num_nics e) (eng_state e) (eng_rr e) op remote_addr descs;
  Ret (mkEngine (eng_backend e) (eng_psn e) (bo_state o) (bo_rr o), bo_sent o, bo_result o).

(** ** Two engines meet *)

(** [prepared(engine.get_or_prepare(peer).unwrap())]. *)
Definition prepared (build_qp : nat → u64 → result string u32) (e : TransferEngine) (peer : string)
    : outcome (TransferEngine * HandshakeMetadata) :=
  '(e, r) ← engine_get_or_prepare build_qp e peer;
  match r with
  | Ok (CsPrepared m) => Ret (e, m)
  | _ => Panicked
  end.

(** [complete_handshake(..).unwrap()]. *)
Definition completed (modify : nat → RcSession → RcEndpoint → option string) (e : TransferEngine)
    (peer : string) (local_meta remote_meta : HandshakeMetadata) : outcome TransferEngine :=
  '(e, r) ← engine_complete_handshake modify e peer local_meta remote_meta;
  match r with Ok _ => Ret e | Err _ => Panicked end.

(** Both sides prepare, exchange metadata and complete; [peer_s] and [peer_c]
    are the addresses under which server and client know each other. *)
Definition connect_as (peer_s peer_c : string) (s_build c_build : nat → u64 → result string u32)
    (s_modify c_modify : nat → RcSession → RcEndpoint → option string) (server client : TransferEngine)
    : outcome (TransferEngine * TransferEngine) :=
  '(server, s_meta) ← prepared s_build server peer_c;
  '(client, c_meta) ← prepared c_build client peer_s;
  server ← completed s_modify server peer_c s_meta c_meta;
  client ← completed c_modify client peer_s c_meta s_meta;
  Ret (server, client).

Definition connect_engines : (nat → u64 → result string u32) → (nat → u64 → result string u32) →
    (nat → RcSession → RcEndpoint → option string) → (nat → RcSession → RcEndpoint → option string) →
    TransferEngine → TransferEngine → outcome (TransferEngine * TransferEngine) :=
  connect_as "server" "client".

(** An engine between calls: opened, and left by its callers in a reachable
    state with the tickets [ts] outstanding; no queue pair got a number that an
    outstanding ticket names (the condition [apart_qpns]). *)
Definition engine_at (e : TransferEngine) (ts : list ticket) : Prop :=
  (∃ open names, rc_new open names (qps e) = Ok (eng_backend e)) ∧
  reachable rkey (rts e) (qps e) apart_qpns (mkSys (eng_state e) (eng_rr e) ts).

(** No connection to [peer] and no handshake with it under way. *)
Definition idle (e : TransferEngine) (peer : string) : Prop :=
  addr_connections (eng_state e) !! peer = None ∧ peer ∉ connecting (eng_state e).

(** The driver creates the queue pairs of the next handshake, with new numbers. *)
Definition builds (build : nat → u64 → result string u32) (e : TransferEngine) (ts : list ticket)
    (per_nic : list (list RcSession)) : Prop :=
  (∃ psn', create_all build 0 (rts e) (eng_psn e) (qps e) = (psn', Ok per_nic)) ∧ fresh_qpns ts per_nic.

(** What holds of an engine connected to [peer] with the sessions [per_nic]. *)
Definition connected (e e' : TransferEngine) (peer : string) (per_nic : list (list RcSession)) : Prop :=
  (∀ build, ∃ e'', engine_get_or_prepare build e' peer = Ret (e'', Ok CsExisting)) ∧
  local_meta_for e' peer = Some (mkMetadata (endpoints <$> per_nic)) ∧
  addr_connections (eng_state e') =
    <[peer := mkConnection ((λ ss, mkConnNic ss 0) <$> per_nic) (endpoints <$> per_nic)]> (addr_connections (eng_state e)) ∧
  registered (eng_state e') = registered (eng_state e) ∧
  engine_num_qps e' = engine_num_qps e + Z.of_nat (num_nics e * qps e).

(** What every reachable engine satisfies. *)
Definition engine_ok (e : TransferEngine) (ts : list ticket) : Prop :=
  (0 < qps e)%nat ∧ rts e ≠ [] ∧ sys_inv (rts e) (qps e) (mkSys (eng_state e) (eng_rr e) ts).

Lemma engine_at_ok e ts : engine_at e ts → engine_ok e ts.
Proof.
  intros [(open & names & Hn) Hr]. destruct (rc_new_spec _ _ _ _ Hn) as [Hq Hne].
  do 2 (split; [done|]). by apply (reachable_inv _ _ _ _ _ (λ _ _ _ H, H) Hq Hne Hr).
Qed.

Lemma prepared_ok build e ts peer per_nic :
  engine_ok e ts → idle e peer → builds build e ts per_nic →
  ∃ e', prepared build e peer = Ret (e', mkMetadata (endpoints <$> per_nic)) ∧ eng_backend e' = eng_backend e ∧
    engine_ok e' ((peer, Prepared (endpoints <$> per_nic)) :: ts) ∧
    addr_connections (eng_state e') = addr_connections (eng_state e) ∧ registered (eng_state e') = registered (eng_state e).
Proof.
  intros (Hq & Hne & Hat) [Hc Hn] [[psn' Hb] Hf].
  destruct (prepare_idle _ _ _ _ _ _ _ _ _ _ Hat Hc Hn Hb Hf) as (st' & Hg & Hinv & Ha & Hr).
  unfold prepared, engine_get_or_prepare. rewrite Hg. cbn [mbind outcome_bind]. eexists. by split_and!.
Qed.

Lemma endpoints_inj (l1 l2 : list RcSession) : endpoints l1 = endpoints l2 → l1 = l2.
Proof. apply list_fmap_eq_inj. intros [?] [?]. simpl. congruence. Qed.

(** Completing gives the connection of the sessions prepared. *)
Lemma completed_ok modify e ts peer per_nic remote :
  engine_ok e ((peer, Prepared (endpoints <$> per_nic)) :: ts) →
  shape (num_nics e) (qps e) remote → Forall2 link_ok (rts e) remote →
  links_up modify (endpoints <$> per_nic) remote →
  ∃ e', completed modify e peer (mkMetadata (endpoints <$> per_nic)) (mkMetadata remote) = Ret e' ∧
    connected e e' peer per_nic ∧ engine_ok e' ts ∧ eng_backend e' = eng_backend e.
Proof.
  intros (Hq & Hne & Hinv) Hs Hl Hm. pose proof (inv_excl _ _ _ Hinv peer) as Hnone. simpl in Hnone.
  destruct (complete_prepared _ _ _ _ _ _ _ _ _ Hinv Hs Hl Hm) as (st' & pend & Hc & Hp & Ha & _ & Hg & Hinv').
  assert (pend = per_nic) as -> by (by apply (list_fmap_eq_inj _ endpoints_inj)).
  unfold completed, engine_complete_handshake. cbn [md_nics]. rewrite Hc. cbn [mbind outcome_bind].
  eexists. split; [done|]. split; [|by split_and!]. unfold connected, engine_num_qps, num_nics, local_meta_for, local_meta_for_addr. simpl.
  rewrite Ha. split_and!; [|by rewrite lookup_insert_eq|done|done|].
  - intros build. unfold engine_get_or_prepare, get_or_prepare, get_or_prepare_enter. simpl.
    rewrite Ha, lookup_insert_eq. cbn [mbind outcome_bind]. by eexists.
  - unfold num_qps. rewrite Ha, map_sum_insert_None by (apply Hnone; left). simpl.
    pose proof (inv_ok _ _ _ Hinv) as [[Hlen Hall] _]%Forall_cons. simpl in Hlen, Hall. rewrite length_fmap in Hlen.
    rewrite <- Hlen. apply Forall_fmap in Hall. rewrite <- list_fmap_compose.
    enough (zsum ((λ n, Z.of_nat (length (conn_sessions n))) ∘ (λ ss, mkConnNic ss 0) <$> per_nic)
            = Z.of_nat (length per_nic * qps e)) by lia.
    clear -Hall. induction Hall as [|ss l Hss _ IH]; [done|]. csimpl. rewrite zsum_cons, IH. simpl in *.
    unfold endpoints in Hss. rewrite length_fmap in Hss. lia.
Qed.

(** A NIC can reach its peer: InfiniBand needs the peer's LID. *)
Definition link_pair (rt peer : RcRuntime) : Prop :=
  match rt_link rt with InfiniBand => rt_lid peer ≠ 0 | Ethernet => True | Unspecified => False end.

Lemma create_nic_lid build rt psn n psn' ss :
  create_nic build rt psn n = (psn', Ok ss) → Forall (λ ep, ep_lid ep = rt_lid rt) (endpoints ss).
Proof.
  revert psn psn' ss. induction n as [|n IH]; intros psn psn' ss; cbn [create_nic]; [intros [= _ <-]; constructor|].
  unfold create. destruct (build psn); [|done]. destruct (create_nic build rt _ n) as [p [r|e]] eqn:Hr; [|done].
  intros [= _ <-]. constructor; [done|]. by eapply IH.
Qed.

Lemma create_all_links build nic rts0 peers psn n psn' v :
  create_all build nic rts0 psn n = (psn', Ok v) → Forall2 link_pair peers rts0 →
  Forall2 link_ok peers (endpoints <$> v).
Proof.
  intros Hc Hl. revert nic psn psn' v Hc. induction Hl as [|p rt peers rts0 Hp _ IH]; intros nic psn psn' v; cbn [create_all].
  { intros [= _ <-]. constructor. }
  destruct (create_nic (build nic) rt psn n) as [q [ss|e]] eqn:Hs; [|done].
  destruct (create_all build (S nic) rts0 q n) as [q' [r|e]] eqn:Hr; [|done]. intros [= _ <-]. csimpl.
  constructor; [|by eapply IH]. unfold link_ok, link_pair in *. destruct (rt_link p); [|done|done].
  eapply Forall_impl; [by eapply create_nic_lid|]. simpl. congruence.
Qed.

(** What each side has when the other's metadata arrives. *)
Lemma peer_metadata build e ts per_nic (runtimes : list RcRuntime) :
  builds build e ts per_nic → Forall2 link_pair runtimes (rts e) →
  shape (length runtimes) (qps e) (endpoints <$> per_nic) ∧ Forall2 link_ok runtimes (endpoints <$> per_nic).
Proof.
  intros [[psn' Hb] _] Hl. pose proof (create_all_shape _ _ _ _ _ _ _ Hb) as [Hlen Hall].
  split; [split|by eapply create_all_links].
  - by rewrite length_fmap, Hlen, (Forall2_length _ _ _ Hl).
  - apply Forall_fmap. eapply Forall_impl; [exact Hall|]. intros ss Hs. simpl. unfold endpoints. by rewrite length_fmap.
Qed.

(** Two engines meet under any names. *)
Lemma connect_as_ok peer_s peer_c server client ts tc s_build c_build s_modify c_modify s_qps c_qps :
  engine_ok server ts → engine_ok client tc → idle server peer_c → idle client peer_s →
  qps server = qps client →
  Forall2 link_pair (rts server) (rts client) → Forall2 link_pair (rts client) (rts server) →
  builds s_build server ts s_qps → builds c_build client tc c_qps →
  links_up s_modify (endpoints <$> s_qps) (endpoints <$> c_qps) →
  links_up c_modify (endpoints <$> c_qps) (endpoints <$> s_qps) →
  ∃ server' client', connect_as peer_s peer_c s_build c_build s_modify c_modify server client = Ret (server', client') ∧
    (connected server server' peer_c s_qps ∧ engine_ok server' ts ∧ eng_backend server' = eng_backend server) ∧
    (connected client client' peer_s c_qps ∧ engine_ok client' tc ∧ eng_backend client' = eng_backend client).
Proof.
  intros Hs Hc His Hic Hq Hsc Hcs Hbs Hbc Hls Hlc.
  destruct (peer_metadata _ _ _ _ (rts client) Hbs Hcs) as [Hshs Hlks].
  destruct (peer_metadata _ _ _ _ (rts server) Hbc Hsc) as [Hshc Hlkc].
  destruct (prepared_ok _ _ _ _ _ Hs His Hbs) as (s1 & Hp1 & Hb1 & Hinv1 & Ha1 & Hr1).
  destruct (prepared_ok _ _ _ _ _ Hc Hic Hbc) as (c1 & Hp2 & Hb2 & Hinv2 & Ha2 & Hr2).
  rewrite <- Hb1 in Hlkc. rewrite <- Hb2 in Hlks.
  destruct (completed_ok s_modify s1 ts peer_c s_qps (endpoints <$> c_qps) Hinv1) as (s2 & Hd1 & Hco1 & Hi1 & He1);
    [unfold num_nics; by rewrite Hb1, Hq|done|done|].
  destruct (completed_ok c_modify c1 tc peer_s c_qps (endpoints <$> s_qps) Hinv2) as (c2 & Hd2 & Hco2 & Hi2 & He2);
    [unfold num_nics; by rewrite Hb2, <- Hq|done|done|].
  exists s2, c2. unfold connect_as. rewrite Hp1. cbn [mbind outcome_bind]. rewrite Hp2. cbn [mbind outcome_bind].
  rewrite Hd1. cbn [mbind outcome_bind]. rewrite Hd2. split; [done|].
  unfold connected, engine_num_qps, num_qps, num_nics in *. rewrite Ha1, Hr1, Hb1 in Hco1. rewrite Ha2, Hr2, Hb2 in Hco2.
  split; (split; [done|]); (split; [done|congruence]).
Qed.

(** C28: Two engines of the same shape that are not yet connected, whatever else
    they are doing, connect: when the drivers create queue pairs with numbers no
    pending session or outstanding handshake has, the links of the NICs match, and
    the driver connects queue pairs of equal position, preparing on both sides,
    exchanging metadata and completing returns without a panic; each side then
    reports the other as connected, with exactly the queue pairs it prepared, one
    more set of [qps_per_peer] on every NIC, and its registrations kept. *)
Theorem engines_connect server client ts tc s_build c_build s_modify c_modify s_qps c_qps :
  engine_at server ts → engine_at client tc → idle server "client" → idle client "server" →
  qps server = qps client →
  Forall2 link_pair (rts server) (rts client) → Forall2 link_pair (rts client) (rts server) →
  builds s_build server ts s_qps → builds c_build client tc c_qps →
  links_up s_modify (endpoints <$> s_qps) (endpoints <$> c_qps) →
  links_up c_modify (endpoints <$> c_qps) (endpoints <$> s_qps) →
  ∃ server' client', connect_engines s_build c_build s_modify c_modify server client = Ret (server', client') ∧
    connected server server' "client" s_qps ∧ connected client client' "server" c_qps.
Proof.
  intros Hs%engine_at_ok Hc%engine_at_ok His Hic Hq Hsc Hcs Hbs Hbc Hls Hlc.
  destruct (connect_as_ok "server" "client" _ _ _ _ _ _ _ _ _ _ Hs Hc His Hic Hq Hsc Hcs Hbs Hbc Hls Hlc)
    as (s' & c' & Hco & (H1 & _) & (H2 & _)). by exists s', c'.
Qed.
End Engine.

(** ** Two fresh engines: an Ethernet and an InfiniBand NIC, two queue pairs each.
    The driver refuses to pair queue pairs of different positions. *)

#[local] Instance en_profile : BuildProfile := true.

Definition en_engine : TransferEngine (MR := u32) :=
  mkEngine (mkBackend hs_runtimes 2) 1 (state_new 2) (from_runtimes (rt_numa <$> hs_runtimes)).
Definition en_build (base : u32) (nic : nat) (psn : u64) : result string u32 := Ok (base + psn).
Definition en_sessions (base : u32) : list (list RcSession) :=
  [[mkSession (mkEndpoint [] 0 (base + 1) 1); mkSession (mkEndpoint [] 0 (base + 2) 2)];
   [mkSession (mkEndpoint [] 5 (base + 3) 3); mkSession (mkEndpoint [] 5 (base + 4) 4)]].
Definition en_modify (nic : nat) (s : RcSession) (remote : RcEndpoint) : option string :=
  if ep_psn (local_endpoint s) =? ep_psn remote then None else Some "wrong queue pair".

Lemma en_engine_at : engine_new hs_open hs_names 2 = Ok en_engine ∧ engine_at hs_key en_engine [].
Proof. split; [reflexivity|]. split; [by exists hs_open, hs_names|]. apply reach_new. Qed.

Lemma en_builds base : builds (en_build base) en_engine [] (en_sessions base).
Proof.
  split; [exists 5; reflexivity|]. intros [|[|i]] ss Hss; simplify_eq/=.
  all: apply NoDup_cons; split; [rewrite list_elem_of_singleton; lia|apply NoDup_singleton].
Qed.

Lemma en_links_up base base' : links_up en_modify (endpoints <$> en_sessions base) (endpoints <$> en_sessions base').
Proof.
  intros [|[|i]] l r [|[|j]] ep rep Hl Hr He Hrep; simplify_eq/=; done.
Qed.

Lemma engines_connect_witness :
  ∃ server client, connect_engines (en_build 100) (en_build 200) en_modify en_modify en_engine en_engine = Ret (server, client) ∧
    engine_num_qps server = 4 ∧ engine_num_qps client = 4.
Proof.
  destruct (engines_connect hs_key en_engine en_engine [] [] (en_build 100) (en_build 200) en_modify en_modify
              (en_sessions 100) (en_sessions 200)) as (s & c & Hc & (_ & _ & _ & _ & Hs) & (_ & _ & _ & _ & Hcl)).
  - apply en_engine_at.
  - apply en_engine_at.
  - split; [reflexivity|apply not_elem_of_empty].
  - split; [reflexivity|apply not_elem_of_empty].
  - reflexivity.
  - constructor; [exact I|constructor; [by vm_compute|apply Forall2_nil_2]].
  - constructor; [exact I|constructor; [by vm_compute|apply Forall2_nil_2]].
  - apply en_builds.
  - apply en_builds.
  - apply en_links_up.
  - apply en_links_up.
  - exists s, c. split; [exact Hc|]. rewrite Hs, Hcl. split; vm_compute; reflexivity.
Defined.
