(* ===== verification/EngineRegister.v ===== *)
(** * Registering memory with an engine

    A registration that fits the address space and overlaps nothing registered
    is accepted; the descriptor has one key per NIC, and what was registered
    stays registered. *)

From S2P Require Import Prelude RegMap Session RcBackend RcBatch Handshake HandshakeInv HandshakeTheorems Engine.

Section Register.
Context {MR : Type} (rkey : MR → u32) `{BuildProfile}.
Abbreviation Engine := (TransferEngine (MR := MR)).

Lemma reg_all_ok (reg : nat → result string MR) i n :
  (∀ i, ∃ mr, reg i = Ok mr) → ∃ ms, reg_all reg i n = Ok ms ∧ length ms = n.
Proof.
  intros Hreg. revert i. induction n as [|n IH]; intros i; [by exists []|]. cbn [reg_all]. destruct (Hreg i) as [mr ->].
  destruct (IH (S i)) as (ms & -> & Hl). exists (mr :: ms). split; [done|]. simpl. by f_equal.
Qed.

(** The [len] bytes at [ptr] are registered. *)
Definition has_region (e : Engine) (ptr : u64) (len : usize) : Prop :=
  ∃ entry, (ptr, entry) ∈ registered (eng_state e) ∧ base_ptr entry = ptr ∧ entry_len entry = len.

(** Nothing registered meets the [len] bytes at [ptr]. *)
Definition region_free (e : Engine) (ptr : u64) (len : usize) : Prop :=
  ∀ k f, (k, f) ∈ registered (eng_state e) → ptr + len <= base_ptr f ∨ base_ptr f + entry_len f <= ptr.

(** What registering leaves as it was. *)
Record same_connections (e e' : Engine) : Prop := mkSameConnections {
  sc_backend : eng_backend e' = eng_backend e;
  sc_psn : eng_psn e' = eng_psn e;
  sc_conns : addr_connections (eng_state e') = addr_connections (eng_state e);
  sc_connecting : connecting (eng_state e') = connecting (eng_state e);
}.

#[global] Instance same_connections_trans : Transitive same_connections.
Proof. intros a b c [] []. constructor; congruence. Qed.

Lemma register_ok e ts reg addr len numa :
  engine_ok e ts → region_free e addr len → (∀ i, ∃ mr, reg i = Ok mr) → 0 < len → 0 <= addr → addr + len <= U64_MAX →
  ∃ st keys, register_with rkey (num_nics e) reg (eng_state e) addr len numa = Ret (st, Ok (mkDescriptor addr len keys)) ∧
    length keys = num_nics e ∧ engine_ok (put_state e st) ts ∧ same_connections e (put_state e st) ∧
    has_region (put_state e st) addr len ∧
    (∀ p n, has_region e p n → has_region (put_state e st) p n) ∧
    (∀ p n, region_free e p n → (p + n <= addr ∨ addr + len <= p) → region_free (put_state e st) p n).
Proof.
  intros (Hq & Hne & Hinv) Hfree Hreg Hlen Hp Hmax.
  destruct (reg_all_ok reg 0 (num_nics e) Hreg) as (ms & Hms & Hl).
  set (entry := mkEntry addr len numa ms).
  destruct (lmm_insert_spec (registered (eng_state e)) entry) as (m & r & Hins & _ & Hr & Hm);
    [apply (inv_reg _ _ _ Hinv)|done|simpl; lia|].
  assert (r = Ok tt) as ->.
  { apply Hr. simpl. split; [lia|]. split; [done|]. intros k f Hf [H1 H2]. simpl in *. destruct (Hfree k f Hf); lia. }
  assert (register_with rkey (num_nics e) reg (eng_state e) addr len numa =
          Ret (mkRcState m (pending (eng_state e)) (addr_connections (eng_state e)) (connecting (eng_state e)),
               Ok (mkDescriptor addr len (rkey <$> ms)))) as Hrw.
  { unfold register_with. rewrite (proj2 (Z.eqb_neq _ _)) by lia. rewrite Hms. fold entry. by rewrite Hins. }
  destruct (step_inv rkey _ _ apart_qpns _ _ (λ _ _ _ H, H) Hq Hne Hinv (step_register _ _ _ _ _ reg addr len numa Hp ltac:(lia))) as (s' & Hs' & Hinv').
  cbn [sys_st sys_rr tickets] in Hs'. change (length (rc_runtimes (eng_backend e))) with (num_nics e) in Hs'. rewrite Hrw in Hs'. cbn [mbind outcome_bind] in Hs'. injection Hs' as <-.
  eexists _, (rkey <$> ms). split; [exact Hrw|]. split; [by rewrite length_fmap|]. split; [by split_and!|]. split; [done|].
  split_and!.
  - exists entry. simpl. split; [|done]. apply Hm. by right.
  - intros p n (f & Hf & Hb). exists f. split; [|done]. simpl. apply Hm. by left.
  - intros p n Hpn Hap k f [Hf|[_ [= -> ->]]]%Hm; [by eapply Hpn|simpl; lia].
Qed.

Lemma engine_new_ok open names q b :
  rc_new open names q = Ok b →
  ∃ e : Engine, engine_new open names q = Ok e ∧ eng_backend e = b ∧ eng_psn e = 1 ∧ engine_ok e [] ∧
    registered (eng_state e) = [] ∧ addr_connections (eng_state e) = ∅ ∧ connecting (eng_state e) = ∅.
Proof.
  intros Hb. unfold engine_new. rewrite Hb. cbn [mbind result_bind]. eexists. split; [done|]. split; [done|]. split; [done|].
  destruct (rc_new_spec _ _ _ _ Hb) as [Hq Hne]. split; [|done]. split; [done|]. split; [done|]. apply sys_new_inv.
Qed.
End Register.
