(* ===== verification/EngineTransfer.v ===== *)
(** * A batch from submission to completion: [examples/gpu_rdma_bench.rs]

    How the benchmark drives the engine: a range is cut into blocks, the batch
    is submitted, and the answers of all receivers are added up.  This composes
    the engine, the partition over NICs and sessions, the session workers and
    the completion queues.  [hw] gives, for each command, what polling its
    session's completion queue returns. *)

From S2P Require Import Prelude RegMap Session RcBackend RcBatch Handshake HandshakeInv HandshakeTheorems Engine.

Section Transfer.
Context {MR : Type} (rkey : MR → u32) `{BuildProfile}.
Context (post : TransferOp → u64 → list (RdmaOp MR) → option string).
Abbreviation Cmd := (SessionCommand (MR := MR)).

(** [(0..len).step_by(block)]: the offsets. *)
Definition offsets (len block : usize) : list Z :=
  (λ i, Z.of_nat i * block) <$> seq 0 (Z.to_nat ((len + block - 1) / block)).

Definition block_at (local : u64) (remote : RegionDescriptor) (len block off : usize) : outcome TransferDesc :=
  l ← u64_add local off;
  r ← u64_add (rd_addr remote) off;
  rest ← u64_sub len off;
  Ret (mkTransferDesc l r (Z.min block rest) remote).

Fixpoint blocks_at (local : u64) (remote : RegionDescriptor) (len block : usize) (offs : list Z)
    : outcome (list TransferDesc) :=
  match offs with
  | [] => Ret []
  | off :: offs =>
      d ← block_at local remote len block off;
      ds ← blocks_at local remote len block offs;
      Ret (d :: ds)
  end.

(** [step_by] panics on a zero step. *)
Definition blocks (local : u64) (remote : RegionDescriptor) (len block : usize) : outcome (list TransferDesc) :=
  if block =? 0 then Panicked else blocks_at local remote len block (offsets len block).

(** The loop over the receivers; [None] while a batch is still spinning. *)
Fixpoint receive_all (hw : Cmd → list poll) (sent : list Cmd) (done : usize) : outcome (option usize) :=
  match sent with
  | [] => Ret (Some done)
  | c :: sent =>
      match execute_batch post (cmd_ops c) (cmd_op c) (hw c) with
      | Finished (Ok n) _ => done ← u64_add done n; receive_all hw sent done
      | Finished (Err _) _ => Panicked
      | Spinning _ => Ret None
      end
  end.

(** [descs.iter().map(|d| d.len).sum()]. *)
Fixpoint sum_len (descs : list TransferDesc) (sum : usize) : outcome usize :=
  match descs with
  | [] => Ret sum
  | d :: descs => sum ← u64_add sum (td_len d); sum_len descs sum
  end.

(** One iteration of [timed]: submit, receive, [assert_eq!(done, bytes)]. *)
Definition timed_round (alive : RcSession → bool) (hw : Cmd → list poll) (client : TransferEngine (MR := MR))
    (op : TransferOp) (descs : list TransferDesc) : outcome (option (TransferEngine (MR := MR) * usize)) :=
  bytes ← sum_len descs 0;
  '(client, sent, r) ← engine_batch_transfer_async alive client op "server" descs;
  match r with
  | Err _ => Panicked
  | Ok _ =>
      o ← receive_all hw sent 0;
      match o with
      | None => Ret None
      | Some done => if done =? bytes then Ret (Some (client, done)) else Panicked
      end
  end.

(** ** Blocks *)

Definition block_ok (local : u64) (remote : RegionDescriptor) (len block : usize) (d : TransferDesc) : Prop :=
  0 < td_len d <= block ∧ local <= td_local d ∧ td_local d + td_len d <= local + len ∧
  td_remote d - rd_addr remote = td_local d - local ∧ td_region d = remote.

(** The [k]-th block. *)
Definition nth_block (local : u64) (remote : RegionDescriptor) (len block : usize) (k : nat) : TransferDesc :=
  mkTransferDesc (local + Z.of_nat k * block) (rd_addr remote + Z.of_nat k * block)
    (Z.min block (len - Z.of_nat k * block)) remote.

Lemma blocks_at_spec local remote len block k n :
  0 < block → 0 <= local → 0 <= rd_addr remote → local + len <= U64_MAX → rd_addr remote + len <= U64_MAX →
  Z.of_nat (k + n) = (len + block - 1) / block →
  blocks_at local remote len block ((λ i, Z.of_nat i * block) <$> seq k n) = Ret (nth_block local remote len block <$> seq k n) ∧
  Forall (block_ok local remote len block) (nth_block local remote len block <$> seq k n) ∧
  zsum (td_len <$> (nth_block local remote len block <$> seq k n)) = Z.max 0 (len - Z.of_nat k * block).
Proof.
  intros Hb Hl Hr Hlm Hrm. revert k. induction n as [|n IH]; intros k Hk.
  { split; [done|]. split; [constructor|]. rewrite Z.max_l; [done|].
    pose proof (Z.mod_pos_bound (len + block - 1) block Hb). pose proof (Z.div_mod (len + block - 1) block ltac:(lia)) as Hdm.
    rewrite <- Hk, Nat.add_0_r in Hdm. lia. }
  destruct (IH (S k)) as (Hds & Hall & Hsum); [rewrite <- Hk; lia|].
  pose proof (Z.mul_div_le (len + block - 1) block Hb) as Hdiv. rewrite <- Hk in Hdiv.
  assert (Z.of_nat k * block < len) as Hoff by nia. assert (0 <= Z.of_nat k * block) as Hoff0 by nia.
  cbn [seq]. rewrite !fmap_cons. cbn [blocks_at]. unfold block_at.
  rewrite !u64_add_ok, u64_sub_ok by (unfold is_u64; lia). cbn [mbind outcome_bind]. rewrite Hds. split; [done|].
  split; [constructor; [|done]|].
  - unfold block_ok, nth_block. cbn [td_len td_local td_remote td_region]. split_and!; try done; lia.
  - rewrite zsum_cons, Hsum. unfold nth_block. cbn [td_len]. lia.
Qed.

(** The blocks tile the range. *)
Lemma blocks_ok local remote len block :
  0 < block → 0 <= len → 0 <= local → 0 <= rd_addr remote → local + len <= U64_MAX → rd_addr remote + len <= U64_MAX →
  ∃ ds, blocks local remote len block = Ret ds ∧ Forall (block_ok local remote len block) ds ∧
    zsum (td_len <$> ds) = len ∧ ds = nth_block local remote len block <$> seq 0 (Z.to_nat ((len + block - 1) / block)).
Proof.
  intros Hb Hlen Hl Hr Hlm Hrm. unfold blocks. rewrite (proj2 (Z.eqb_neq block 0)) by lia.
  destruct (blocks_at_spec local remote len block 0 (Z.to_nat ((len + block - 1) / block))) as (Hds & Hall & Hsum);
    [done..| |].
  - simpl. rewrite Z2Nat.id; [done|]. apply Z.div_pos; lia.
  - eexists. split; [exact Hds|]. split; [done|]. split; [lia|done].
Qed.

(** ** Every operation is in exactly one command *)

Lemma filter_below (ps : list (nat * RdmaOp MR)) n :
  filter (λ p, p.1 < S n)%nat ps ≡ₚ filter (λ p, p.1 < n)%nat ps ++ filter (λ p, p.1 = n) ps.
Proof.
  induction ps as [|p ps IH]; [done|]. rewrite !filter_cons.
  destruct (decide (p.1 < S n)%nat), (decide (p.1 < n)%nat), (decide (p.1 = n)); try lia; simpl; rewrite IH; [done|..].
  - by rewrite Permutation_middle.
  - done.
Qed.

(** Parts that hold the operations of tags [0..n) hold all below [n]. *)
Lemma parts_below (ps : list (nat * RdmaOp MR)) (parts : list (list (RcSession * list (RdmaOp MR)))) :
  (∀ k part, parts !! k = Some part → mjoin part.*2 ≡ₚ (filter (λ p, p.1 = k) ps).*2) →
  mjoin (mjoin parts).*2 ≡ₚ (filter (λ p, p.1 < length parts)%nat ps).*2.
Proof.
  induction parts as [|part parts IH] using rev_ind; intros Hp.
  { simpl. replace (filter (λ p, p.1 < 0)%nat ps) with (@nil (nat * RdmaOp MR)); [done|]. symmetry.
    induction ps as [|p ps IHp]; [done|]. rewrite filter_cons_False by lia. apply IHp. by intros. }
  rewrite length_app, Nat.add_1_r, filter_below, fmap_app, <- IH.
  - rewrite join_app, fmap_app, join_app. simpl. rewrite app_nil_r. f_equiv. apply Hp.
    by rewrite lookup_app_r, Nat.sub_diag by done.
  - intros k q Hk. apply Hp. by apply lookup_app_l_Some.
Qed.

Lemma carries_below numas reg descs (ps : list (nat * RdmaOp MR)) :
  Forall2 (carries numas reg) descs ps → filter (λ p, p.1 < length numas)%nat ps = ps.
Proof.
  induction 1 as [|d p descs ps (_ & _ & _ & _ & _ & Hp & _) _ IH]; [done|].
  rewrite filter_cons_True by exact Hp. by rewrite IH.
Qed.

Lemma carries_lens numas reg descs (ps : list (nat * RdmaOp MR)) :
  Forall2 (carries numas reg) descs ps → op_len <$> ps.*2 = td_len <$> descs.
Proof. induction 1 as [|d p descs ps (_ & _ & _ & Hp & _) _ IH]; [done|]. csimpl. by rewrite Hp, IH. Qed.

(** A valid batch: the commands sent hold one operation per descriptor. *)
Lemma batch_ops alive numas (st : RcBackendState (MR := MR)) rr op addr descs conn :
  rr_ok numas rr → numas ≠ [] → reg_ok (length numas) (registered st) →
  addr_connections st !! addr = Some conn → conn_ok (length numas) conn →
  Forall (λ n, Forall (λ s, alive s = true) (conn_sessions n)) (conn_nics conn) →
  Forall desc_u64 descs → descs ≠ [] → Forall (desc_ok (length numas) (registered st)) descs →
  ∃ o ps, batch_transfer_async alive (length numas) st rr op addr descs = Ret o ∧ bo_result o = Ok tt ∧
    Forall2 (carries numas (registered st)) descs ps ∧ mjoin (cmd_ops <$> bo_sent o) ≡ₚ ps.*2 ∧
    Forall (λ c, cmd_op c = op) (bo_sent o) ∧
    bo_state o = mkRcState (registered st) (pending st) (<[addr := bump conn]> (addr_connections st)) (connecting st).
Proof.
  intros Hrr Hne Hreg Hconn Hc Ha Hu Hdn Hd.
  destruct (batch_safe_aux alive numas st rr op addr descs conn) as (rr' & r & _ & _ & Hb); [done..|].
  destruct r as [v|e]; [|by destruct Hb]. destruct Hb as (ps & parts & Hps & Hlen & Hj & ->).
  rewrite submit_all by (apply (jobs_alive alive (conn_nics conn) parts (λ k, (filter (λ p, p.1 = k) ps).*2));
    [exact Ha|by rewrite Hlen, (proj1 Hc)|exact Hj]).
  eexists _, ps. split; [done|]. split; [done|]. split; [done|]. simpl. split.
  - rewrite <- list_fmap_compose. change (cmd_ops ∘ _) with (snd (A := RcSession) (B := list (RdmaOp MR))).
    rewrite (parts_below ps).
    + by rewrite Hlen, (carries_below _ _ _ _ Hps).
    + intros k part Hk. destruct (lookup_lt_is_Some_2 (conn_nics conn) k) as [n Hn].
      { rewrite (proj1 Hc), <- Hlen. by eapply lookup_lt_Some. }
      apply (proj1 (Hj _ _ _ Hk Hn)).
  - split; [|done]. apply Forall_fmap, Forall_true. done.
Qed.

(** ** The answers add up *)

(** Hardware that completes all requests of a command. *)
Definition hw_completes (hw : Cmd → list poll) (c : Cmd) : Prop :=
  honest post (cmd_ops c) (cmd_op c) (hw c) batch_start ∧ (length (cmd_ops c) <= completions (hw c))%nat.

Lemma zsum_perm (l l' : list Z) : l ≡ₚ l' → zsum l = zsum l'.
Proof. induction 1; rewrite ?zsum_cons in *; lia. Qed.

Lemma sum_len_ok descs sum :
  Forall desc_u64 descs → 0 <= sum → sum + zsum (td_len <$> descs) <= U64_MAX →
  sum_len descs sum = Ret (sum + zsum (td_len <$> descs)).
Proof.
  intros Hd. revert sum. induction Hd as [|d descs [_ Hl] Hd IH]; intros sum H0 Hs; csimpl.
  { by rewrite zsum_nil, Z.add_0_r. }
  csimpl in Hs. rewrite zsum_cons in Hs |- *.
  assert (0 <= zsum (td_len <$> descs)) by (apply zsum_nonneg, Forall_fmap; eapply Forall_impl; [exact Hd|by intros ? []]).
  rewrite u64_add_ok by (unfold is_u64; lia). cbn [mbind outcome_bind]. rewrite IH by lia. f_equal. lia.
Qed.

Lemma receive_all_ok hw sent done :
  (∀ op, posts post op) → Forall (hw_completes hw) sent → 0 <= done →
  ops_valid (mjoin (cmd_ops <$> sent)) → done + zsum (op_len <$> mjoin (cmd_ops <$> sent)) <= U64_MAX →
  receive_all hw sent done = Ret (Some (done + zsum (op_len <$> mjoin (cmd_ops <$> sent)))).
Proof.
  intros Hp Hhw. revert done. induction Hhw as [|c sent [Hh Hn] _ IH]; intros done H0 (Hv & Hlen & _) Hsum; csimpl.
  { rewrite zsum_nil. by rewrite Z.add_0_r. }
  csimpl in Hv. csimpl in Hlen. csimpl in Hsum. rewrite length_app in Hlen. rewrite fmap_app, zsum_app in Hsum |- *.
  apply Forall_app in Hv as [Hv1 Hv2].
  assert (∀ l : list (RdmaOp MR), Forall (λ o, 0 <= op_len o <= U32_MAX) l → 0 <= zsum (op_len <$> l)) as Hnn.
  { intros l Hl. apply zsum_nonneg, Forall_fmap. eapply Forall_impl; [exact Hl|]. simpl. lia. }
  pose proof (Hnn _ Hv1) as Hn1. pose proof (Hnn _ Hv2) as Hn2.
  destruct (run_ok_finished _ _ _ (execute_batch_run post (cmd_ops c) (cmd_op c) (hw c) (Hp _)
    ltac:(split; [done|split; lia]) Hh) Hn) as [b ->].
  rewrite u64_add_ok by (unfold is_u64; lia). cbn [mbind outcome_bind].
  rewrite IH; [f_equal; f_equal; lia|lia|split; [done|split; lia]|lia].
Qed.

(** The hardware that completes one request in flight per poll. *)
Fixpoint prompt (n : nat) (ops : list (RdmaOp MR)) (op : TransferOp) (b : Batch) : list poll :=
  match n with
  | O => []
  | S n =>
      let f := filled post ops op b in
      match map_to_list (inflight f) with
      | [] => []
      | (id, _) :: _ => PollWcs [mkWc id true] :: prompt n ops op (handle_wcs [mkWc id true] f).2
      end
  end.

Definition prompt_hw (c : Cmd) : list poll := prompt (length (cmd_ops c)) (cmd_ops c) (cmd_op c) batch_start.

Lemma prompt_ok n ops op b :
  posts post op → ops_valid ops → batch_ok ops b → (next_idx b - size (inflight b) + n = length ops)%nat →
  honest post ops op (prompt n ops op b) b ∧ completions (prompt n ops op b) = n.
Proof.
  intros Hp Hv. revert b. induction n as [|n IH]; intros b Hok Hn; [done|]. cbn [prompt].
  destruct (fill_spec post (length ops) ops op b Hp Hv Hok ltac:(lia)) as (b1 & Hf & Hok1 & _ & Hcnt & Hex & _).
  assert (filled post ops op b = b1) as Hfil by (unfold filled; by rewrite Hf).
  pose proof (bo_idx _ _ Hok1). pose proof (bo_count _ _ Hok1). rewrite Hfil.
  destruct (map_to_list (inflight b1)) as [|[id len] l] eqn:Hl.
  { apply map_to_list_empty_iff in Hl. rewrite Hl, map_size_empty in *. unfold MAX_SEND_WR in *. lia. }
  assert (inflight b1 !! id = Some len) as Hid by (apply elem_of_map_to_list; rewrite Hl; left).
  assert (wcs_ok (inflight b1) [mkWc id true]) as Hwcs.
  { split; [apply NoDup_singleton|]. constructor; [|constructor]. simpl. by rewrite Hid. }
  destruct (handle_wcs_spec ops [mkWc id true] b1 Hok1 Hv Hwcs) as (b2 & Hh & Hok2 & Hi2 & Hs2).
  destruct (IH b2 Hok2) as [Hhon Hc]; [simpl in Hs2; lia|]. rewrite Hh. cbn [honest completions sum_list_with snd].
  rewrite Hfil, Hh. split; [done|]. unfold completions in Hc. simpl. lia.
Qed.

Lemma prompt_hw_completes c : (∀ op, posts post op) → ops_valid (cmd_ops c) → hw_completes prompt_hw c.
Proof.
  intros Hp Hv. unfold hw_completes, prompt_hw.
  destruct (prompt_ok (length (cmd_ops c)) (cmd_ops c) (cmd_op c) batch_start (Hp _) Hv) as [Hh Hc];
    [apply batch_start_ok|done|]. split; [done|lia].
Qed.

Lemma ops_valid_commands (sent : list Cmd) :
  ops_valid (mjoin (cmd_ops <$> sent)) → Forall (λ c, ops_valid (cmd_ops c)) sent.
Proof.
  induction sent as [|c sent IH]; intros (Hv & Hlen & Hsum); [constructor|]. csimpl in Hv. csimpl in Hlen. csimpl in Hsum.
  rewrite length_app in Hlen. rewrite fmap_app, zsum_app in Hsum. apply Forall_app in Hv as [Hv1 Hv2].
  assert (∀ l : list (RdmaOp MR), Forall (λ o, 0 <= op_len o <= U32_MAX) l → 0 <= zsum (op_len <$> l)) as Hnn.
  { intros l Hl. apply zsum_nonneg, Forall_fmap. eapply Forall_impl; [exact Hl|]. simpl. lia. }
  pose proof (Hnn _ Hv1). pose proof (Hnn _ Hv2).
  constructor; [split; [done|split; lia]|]. apply IH. split; [done|split; lia].
Qed.

(** A batch to [peer]: accepted, carried out in full, and the engine still
    connected after it. *)
Lemma batch_round alive (client : TransferEngine (MR := MR)) ts peer op descs conn :
  engine_ok client ts → addr_connections (eng_state client) !! peer = Some conn →
  Forall (λ n, Forall (λ s, alive s = true) (conn_sessions n)) (conn_nics conn) → (∀ op, posts post op) →
  descs ≠ [] → Forall desc_u64 descs → Forall (λ d, td_len d <= U32_MAX) descs →
  Forall (desc_ok (num_nics client) (registered (eng_state client))) descs →
  Z.of_nat (length descs) + 1 < 2 ^ 64 → zsum (td_len <$> descs) <= U64_MAX →
  ∃ client' sent, engine_batch_transfer_async alive client op peer descs = Ret (client', sent, Ok tt) ∧
    engine_ok client' ts ∧ eng_backend client' = eng_backend client ∧
    registered (eng_state client') = registered (eng_state client) ∧
    addr_connections (eng_state client') !! peer = Some (bump conn) ∧
    Forall (λ c, ops_valid (cmd_ops c)) sent ∧
    (∃ ps, Forall2 (carries (rt_numa <$> rc_runtimes (eng_backend client)) (registered (eng_state client))) descs ps ∧
       mjoin (cmd_ops <$> sent) ≡ₚ ps.*2) ∧
    ∀ hw, Forall (hw_completes hw) sent → receive_all hw sent 0 = Ret (Some (zsum (td_len <$> descs))).
Proof.
  intros (Hq & Hrt & Hinv) Hconn Ha Hp Hne Hu Hmax Hd Hlen Hsum.
  set (numas := rt_numa <$> rc_runtimes (eng_backend client)).
  assert (num_nics client = length numas) as Hnics by (unfold numas; by rewrite length_fmap).
  rewrite Hnics in Hd.
  destruct (batch_ops alive numas (eng_state client) (eng_rr client) op peer descs conn)
    as (o & ps & Ho & Hr & Hps & Hperm & Hop & Hst); try done.
  - apply (inv_rr _ _ _ Hinv).
  - unfold numas. by destruct (rc_runtimes (eng_backend client)).
  - rewrite <- Hnics. apply (inv_reg _ _ _ Hinv).
  - rewrite <- Hnics. eapply conn_good_ok; [exact Hq|]. by apply (inv_conns _ _ _ Hinv peer).
  - pose proof (carries_lens _ _ _ _ Hps) as Hlens.
    assert (zsum (op_len <$> mjoin (cmd_ops <$> bo_sent o)) = zsum (td_len <$> descs)) as Htot.
    { rewrite <- Hlens. apply zsum_perm. by rewrite Hperm. }
    assert (ops_valid (mjoin (cmd_ops <$> bo_sent o))) as Hval.
    { split; [|split; [|lia]].
      + assert (Forall (λ l, 0 <= l <= U32_MAX) (op_len <$> ps.*2)) as Hall.
        { rewrite Hlens. apply Forall_fmap, Forall_forall. intros d Hin. rewrite Forall_forall in Hu, Hmax.
          specialize (Hmax d Hin). destruct (Hu d Hin). simpl. lia. }
        rewrite Hperm. by apply Forall_fmap in Hall.
      + by rewrite Hperm, <- (length_fmap op_len), Hlens, length_fmap. }
    destruct (step_inv rkey _ _ apart_qpns _ _ (λ _ _ _ H, H) Hq Hrt Hinv (step_batch _ _ _ _ _ alive op peer descs Hu)) as (s' & Hs' & Hinv').
    cbn [sys_st sys_rr tickets] in Hs'. unfold num_nics in Hnics. rewrite Hnics, Ho in Hs'. cbn [mbind outcome_bind] in Hs'. injection Hs' as <-.
    eexists _, (bo_sent o). unfold engine_batch_transfer_async, num_nics. rewrite Hnics, Ho. cbn [mbind outcome_bind].
    rewrite Hr. split; [done|]. split; [by split_and!|]. split; [done|]. simpl. rewrite Hst. simpl.
    split; [done|]. split; [by rewrite lookup_insert_eq|]. split; [by apply ops_valid_commands|].
    split; [by exists ps|]. intros hw Hhw.
    rewrite (receive_all_ok hw (bo_sent o) 0 Hp Hhw) by (done || lia). by rewrite Z.add_0_l, Htot.
Qed.

(** A batch moves every byte of its descriptors: submitted by an engine in any
    reachable state to a peer it is connected to, over running workers, a batch
    of valid descriptors is accepted, and when the hardware completes the
    requests of every command, the benchmark's loop receives from all of them,
    no addition overflows, and the sum is the total length, so its assertion
    holds. *)
Theorem batch_moves_all_bytes alive (client : TransferEngine (MR := MR)) ts op descs conn :
  engine_at rkey client ts → addr_connections (eng_state client) !! "server" = Some conn →
  Forall (λ n, Forall (λ s, alive s = true) (conn_sessions n)) (conn_nics conn) → (∀ op, posts post op) →
  descs ≠ [] → Forall desc_u64 descs → Forall (λ d, td_len d <= U32_MAX) descs →
  Forall (desc_ok (num_nics client) (registered (eng_state client))) descs →
  Z.of_nat (length descs) + 1 < 2 ^ 64 → zsum (td_len <$> descs) <= U64_MAX →
  ∃ client' sent, engine_batch_transfer_async alive client op "server" descs = Ret (client', sent, Ok tt) ∧
    ∀ hw, Forall (hw_completes hw) sent →
      timed_round alive hw client op descs = Ret (Some (client', zsum (td_len <$> descs))).
Proof.
  intros Hat%engine_at_ok Hconn Ha Hp Hne Hu Hmax Hd Hlen Hsum.
  destruct (batch_round alive client ts "server" op descs conn) as (client' & sent & Hb & _ & _ & _ & _ & _ & _ & Hrecv); [done..|].
  exists client', sent. split; [done|]. intros hw Hhw. unfold timed_round.
  rewrite (sum_len_ok descs 0), Hb by (done || lia). cbn [mbind outcome_bind]. rewrite Hrecv by done.
  cbn [mbind outcome_bind]. by rewrite Z.add_0_l, Z.eqb_refl.
Qed.
End Transfer.

(** ** A concrete transfer: connect, register 256 bytes, move them in blocks of 100 *)

#[local] Instance et_profile : BuildProfile := true.

Abbreviation ESys := (Sys (MR := u32)).
Definition et_or (o : outcome ESys) (s : ESys) : ESys := match o with Ret s => s | _ => s end.

Definition et0 : ESys := sys_new hs_runtimes.
Definition et1 : ESys := mkSys (get_or_prepare_enter "server" (sys_st et0)).1 (sys_rr et0) [("server", Preparing)].
Definition et_prepare : outcome ESys :=
  '(st, local) ← prepare_push hs_sessions (sys_st et1); Ret (mkSys st (sys_rr et1) [("server", Prepared local)]).
Definition et2 : ESys := et_or et_prepare et0.
Definition et_take : outcome ESys :=
  '(st, r) ← complete_take "server" hs_local (sys_st et2);
  Ret (mkSys st (sys_rr et2)
         (match r with
          | Ok None => []
          | Ok (Some pend) => [("server", Taken hs_local hs_remote pend)]
          | Err _ => [("server", Failed hs_local)]
          end ++ [])).
Definition et3 : ESys := et_or et_take et0.
Definition et_install : outcome ESys :=
  r ← connect_all (λ _ _ _, None) 0 hs_runtimes hs_sessions hs_remote;
  match r with
  | Err _ => Ret (mkSys (sys_st et3) (sys_rr et3) [("server", Failed hs_local)])
  | Ok _ => st ← complete_install "server" hs_local hs_sessions (sys_st et3); Ret (mkSys st (sys_rr et3) [])
  end.
Definition et4 : ESys := et_or et_install et0.
Definition et_register : outcome ESys :=
  '(st, _) ← register_with hs_key 2 (λ i, Ok (11 + Z.of_nat i)) (sys_st et4) 4096 256 1;
  Ret (mkSys st (sys_rr et4) (tickets et4)).
Definition et5 : ESys := et_or et_register et0.

Lemma et2_reachable : reachable hs_key hs_runtimes 1 apart_qpns et2.
Proof.
  apply (reach_step _ _ _ _ et1).
  - apply (reach_step _ _ _ _ et0); [constructor|]. apply (step_enter _ _ _ _ et0 "server" _ None). vm_compute. reflexivity.
  - assert (et_prepare = Ret et2) as <- by (vm_compute; reflexivity).
    apply (step_prepare _ _ _ _ et1 "server" [] hs_build 1 3 hs_sessions).
    + reflexivity.
    + vm_compute. reflexivity.
    + intros [|[|i]] ss Hss; simplify_eq/=; apply NoDup_singleton.
Qed.

Lemma et5_reachable : reachable hs_key hs_runtimes 1 apart_qpns et5.
Proof.
  apply (reach_step _ _ _ _ et4); [apply (reach_step _ _ _ _ et3); [apply (reach_step _ _ _ _ et2); [apply et2_reachable|]|]|].
  - assert (et_take = Ret et3) as <- by (vm_compute; reflexivity). apply step_take; vm_compute; reflexivity.
  - assert (et_install = Ret et4) as <- by (vm_compute; reflexivity).
    apply (step_install _ _ _ _ et3 "server" [] hs_local hs_remote hs_sessions). vm_compute. reflexivity.
  - assert (et_register = Ret et5) as <- by (vm_compute; reflexivity). apply step_register; lia.
Qed.

Definition et_client : TransferEngine (MR := u32) := mkEngine hs_backend 3 (sys_st et5) (sys_rr et5).
Definition et_conn : AddrConnection := mkConnection ((λ ss, mkConnNic ss 0) <$> hs_sessions) hs_local.
Definition et_region : RegionDescriptor := mkDescriptor 8192 4096 [21; 22].
Definition et_descs : list TransferDesc :=
  match blocks 4096 et_region 256 100 with Ret ds => ds | _ => [] end.
Definition et_post : TransferOp → u64 → list (RdmaOp u32) → option string := λ _ _ _, None.
Definition et_hw (c : SessionCommand (MR := u32)) : list poll :=
  [PollEmpty; PollWcs [mkWc 3 true; mkWc 1 true]; PollWcs [mkWc 2 true]].

Lemma et_descs_ok : Forall (desc_ok 2 (registered (eng_state et_client))) et_descs.
Proof.
  repeat constructor; try (by vm_compute).
  all: exists 4096, (mkEntry 4096 256 1 [11; 12]); split; [vm_compute; left|unfold covers; vm_compute; by repeat split].
Qed.

Lemma et_hw_completes (c : SessionCommand (MR := u32)) :
  honest et_post (cmd_ops c) (cmd_op c) (et_hw c) batch_start → length (cmd_ops c) = 3%nat → hw_completes et_post et_hw c.
Proof. intros Hh Hl. split; [done|]. rewrite Hl. vm_compute. lia. Qed.

Lemma batch_moves_all_bytes_witness :
  ∃ client', timed_round et_post (λ _, true) et_hw et_client Write et_descs = Ret (Some (client', 256)).
Proof.
  destruct (batch_moves_all_bytes hs_key et_post (λ _, true) et_client [] Write et_descs et_conn)
    as (client' & sent & Hs & Hr).
  - split; [exists hs_open, hs_names; reflexivity|apply et5_reachable].
  - vm_compute. reflexivity.
  - repeat constructor.
  - intros op id ops. reflexivity.
  - vm_compute. discriminate.
  - repeat constructor; vm_compute; discriminate.
  - repeat constructor; vm_compute; discriminate.
  - apply et_descs_ok.
  - vm_compute. reflexivity.
  - vm_compute. discriminate.
  - exists client'. apply Hr. vm_compute in Hs. injection Hs as <- <-. constructor; [|constructor].
    apply et_hw_completes; [|reflexivity]. cbn [honest et_hw cmd_ops cmd_op]. split; [|split; [|exact I]];
      (split; [apply (bool_decide_unpack _); vm_compute; exact I|]); repeat constructor; eexists; vm_compute; reflexivity.
Defined.
