(* ===== verification/RdmaData.v ===== *)
(** * What a batch does to memory

    A one-sided RDMA operation copies bytes between registered memory of the two
    peers: READ from the remote range to the local one, WRITE the other way.  The
    verbs order nothing between queue pairs, so the operations of a batch may
    take effect in any order.  [batch_lands]: when the ranges written are apart
    from each other and from those read, every order has the same effect. *)

From S2P Require Import Prelude HostMem RegMap Session RcBackend RcBatch Handshake HandshakeInv HandshakeTheorems Engine EngineTransfer.

(** A copy: source, destination, length. *)
Record Move : Type := mkMove { mv_src : u64; mv_dst : u64; mv_len : usize }.

Definition run_move (h : heap) (m : Move) : option heap :=
  b ← load h (mv_src m) (Z.to_nat (mv_len m)); store h (mv_dst m) b.

(** The requests taking effect one after the other, on the memory of both peers as
    one address space; the keys of an operation are not consulted. *)
Fixpoint run_moves (ms : list Move) (h : heap) : option heap :=
  match ms with
  | [] => Some h
  | m :: ms => h ← run_move h m; run_moves ms h
  end.

Definition op_move {MR} (op : TransferOp) (o : RdmaOp MR) : Move :=
  match op with
  | Read => mkMove (remote_ptr o) (local_ptr o) (op_len o)
  | Write => mkMove (local_ptr o) (remote_ptr o) (op_len o)
  end.

Definition desc_move (op : TransferOp) (d : TransferDesc) : Move :=
  match op with
  | Read => mkMove (td_remote d) (td_local d) (td_len d)
  | Write => mkMove (td_local d) (td_remote d) (td_len d)
  end.

(** ** Moves that do not interfere *)

Definition reads (m : Move) (x : Z) : Prop := mv_src m <= x < mv_src m + mv_len m.
Definition writes (m : Move) (x : Z) : Prop := mv_dst m <= x < mv_dst m + mv_len m.

Record apart (ms : list Move) : Prop := mkApart {
  ap_len : Forall (λ m, 0 <= mv_len m) ms;
  ap_writes i j m m' x : ms !! i = Some m → ms !! j = Some m' → writes m x → writes m' x → i = j;
  ap_reads m m' x : m ∈ ms → m' ∈ ms → reads m x → writes m' x → False;
}.

Definition moves_mapped (h : heap) (ms : list Move) : Prop :=
  Forall (λ m, mapped h (mv_src m) (mv_len m) ∧ mapped h (mv_dst m) (mv_len m)) ms.

Lemma apart_cons m ms : apart (m :: ms) → apart ms ∧ 0 <= mv_len m ∧
  (∀ m' x, m' ∈ ms → writes m x → writes m' x → False) ∧ (∀ m' x, m' ∈ ms → reads m' x → writes m x → False).
Proof.
  intros [Hl Hw Hr]. apply Forall_cons in Hl as [Hm Hl]. split; [|split; [done|split]].
  - constructor; [done| |].
    + intros i j a b x Hi Hj Ha Hb. apply (inj S). by apply (Hw (S i) (S j) a b x).
    + intros a b x Ha Hb. apply Hr; by right.
  - intros m' x [j Hj]%list_elem_of_lookup Hx Hx'. by pose proof (Hw 0%nat (S j) m m' x eq_refl Hj Hx Hx').
  - intros m' x Hm' Hx Hx'. apply (Hr m' m x); [by right|left|done|done].
Qed.

Lemma run_move_spec h m :
  0 <= mv_len m → mapped h (mv_src m) (mv_len m) → mapped h (mv_dst m) (mv_len m) →
  ∃ h', run_move h m = Some h' ∧ (∀ x, is_Some (h' !! x) ↔ is_Some (h !! x)) ∧
    (∀ x, ¬ writes m x → h' !! x = h !! x) ∧
    ∀ i, 0 <= i < mv_len m → h' !! (mv_dst m + i) = h !! (mv_src m + i).
Proof.
  intros Hl Hs Hd. unfold run_move. destruct (load_mapped h (mv_src m) (Z.to_nat (mv_len m))) as [b Hb]; [by rewrite Z2Nat.id|].
  pose proof (load_length _ _ _ _ Hb) as Hlen. rewrite Hb. simpl.
  destruct (store_mapped h (mv_dst m) b) as [h' Hst]; [rewrite Hlen, Z2Nat.id by done; done|]. exists h'. split; [done|].
  split; [intros x; by eapply store_dom|]. split.
  - intros x Hx. eapply store_lookup_ne; [exact Hst|]. rewrite Hlen, Z2Nat.id by done. exact Hx.
  - intros i Hi. assert (b !! Z.to_nat i = h !! (mv_src m + i)) as Hbi.
    { rewrite (load_lookup _ _ _ _ _ Hb) by lia. by rewrite Z2Nat.id by lia. }
    destruct (Hs (mv_src m + i)) as [y Hy]; [lia|]. rewrite Hy in Hbi |- *.
    rewrite <- (Z2Nat.id i) by lia. by eapply store_lookup.
Qed.

(** The effect of all moves, whatever their order. *)
Definition landed (ms : list Move) (h h' : heap) : Prop :=
  (∀ x, is_Some (h' !! x) ↔ is_Some (h !! x)) ∧
  (∀ x, (∀ m, m ∈ ms → ¬ writes m x) → h' !! x = h !! x) ∧
  ∀ m i, m ∈ ms → 0 <= i < mv_len m → h' !! (mv_dst m + i) = h !! (mv_src m + i).

Lemma run_moves_landed ms h :
  apart ms → moves_mapped h ms → ∃ h', run_moves ms h = Some h' ∧ landed ms h h'.
Proof.
  revert h. induction ms as [|m ms IH]; intros h Hap Hm.
  { exists h. split; [done|]. split_and!; [done|done|]. by intros m i ?%elem_of_nil. }
  apply apart_cons in Hap as (Hap & Hl & Hww & Hrw). apply Forall_cons in Hm as [[Hs Hd] Hm].
  destruct (run_move_spec h m Hl Hs Hd) as (h1 & Hr1 & Hdom1 & Hout1 & Hcp1).
  destruct (IH h1 Hap) as (h2 & Hr2 & Hdom2 & Hout2 & Hcp2).
  { eapply Forall_impl; [exact Hm|]. intros m' [H1 H2]. split; intros x Hx; apply Hdom1; [by apply H1|by apply H2]. }
  exists h2. cbn [run_moves]. rewrite Hr1. split; [done|]. split_and!.
  - intros x. by rewrite Hdom2.
  - intros x Hx. rewrite Hout2 by (intros m' Hm'; apply Hx; by right). apply Hout1, Hx. left.
  - intros m' i Hm' Hi. apply elem_of_cons in Hm' as [->|Hm'].
    + rewrite Hout2; [by apply Hcp1|]. intros m' Hm' Hw. apply (Hww m' (mv_dst m + i) Hm'); [unfold writes; lia|done].
    + rewrite Hcp2 by done. apply Hout1. intros Hw. apply (Hrw m' (mv_src m' + i) Hm'); [unfold reads; lia|done].
Qed.

#[global] Instance landed_proper : Proper ((≡ₚ) ==> (=) ==> (=) ==> iff) landed.
Proof.
  assert (∀ ms ms' h h', ms ≡ₚ ms' → landed ms h h' → landed ms' h h') as Hdir.
  { intros ms ms' h h' Hp (H1 & H2 & H3). split_and!; [done| |].
    - intros x Hx. apply H2. intros m Hm. apply Hx. by rewrite <- Hp.
    - intros m i Hm. apply H3. by rewrite Hp. }
  intros ms ms' Hp h ? <- h' ? <-. split; by apply Hdir.
Qed.

Lemma apart_perm ms ms' : ms ≡ₚ ms' → apart ms → apart ms'.
Proof.
  intros Hp [Hl Hw Hr]. constructor.
  - by rewrite <- Hp.
  - intros i j m m' x Hi Hj Hm Hm'. destruct (decide (i = j)) as [|Hne]; [done|]. exfalso.
    symmetry in Hp. apply Permutation_inj in Hp as [_ (f & Hf & Heq)].
    assert (f i = f j) as Hij.
    { apply (Hw (f i) (f j) m m' x); [by rewrite <- Heq|by rewrite <- Heq|done|done]. }
    by apply Hne, Hf.
  - intros m m' x Hm Hm'. apply Hr; by rewrite Hp.
Qed.

(** ** Batches *)

Section Data.
Context {MR : Type} (rkey : MR → u32) `{BuildProfile}.
Context (post : TransferOp → u64 → list (RdmaOp MR) → option string).

Lemma carries_moves numas reg op descs (ps : list (nat * RdmaOp MR)) :
  Forall2 (carries numas reg) descs ps → op_move op <$> ps.*2 = desc_move op <$> descs.
Proof.
  induction 1 as [|d p descs ps (_ & Hl & Hr & Hn & _) _ IH]; [done|]. csimpl. rewrite IH. f_equal.
  unfold op_move, desc_move. destruct op; by rewrite Hl, Hr, Hn.
Qed.

(** Whatever order the operations of a batch take effect in. *)
Lemma sent_lands numas reg op descs (ps : list (nat * RdmaOp MR)) sent order h :
  Forall2 (carries numas reg) descs ps → mjoin (cmd_ops <$> sent) ≡ₚ ps.*2 → order ≡ₚ mjoin (cmd_ops <$> sent) →
  apart (desc_move op <$> descs) → moves_mapped h (desc_move op <$> descs) →
  ∃ h', run_moves (op_move op <$> order) h = Some h' ∧ landed (desc_move op <$> descs) h h'.
Proof.
  intros Hps Hperm Hord Hap Hm. assert (op_move op <$> order ≡ₚ desc_move op <$> descs) as Hp.
  { by rewrite Hord, Hperm, (carries_moves _ _ _ _ _ Hps). }
  destruct (run_moves_landed (op_move op <$> order) h) as (h' & Hr & Hl).
  - by apply (apart_perm (desc_move op <$> descs)).
  - unfold moves_mapped. by rewrite Hp.
  - exists h'. split; [done|]. by rewrite Hp in Hl.
Qed.

(** C27: A batch puts every byte where its descriptor says: a batch of valid
    descriptors from an engine in any reachable state is accepted, and whatever
    NICs and queue pairs its operations were spread over, and in whatever order
    they take effect, each destination range ends up with the bytes its source
    range had and no other memory changes, provided the ranges are mapped and the
    ranges written are apart from each other and from those read. Both peers'
    memory is one address space here, and an operation takes effect without a
    check of its keys. *)
Theorem batch_lands alive (client : TransferEngine (MR := MR)) ts peer op descs conn h :
  engine_at rkey client ts → addr_connections (eng_state client) !! peer = Some conn →
  Forall (λ n, Forall (λ s, alive s = true) (conn_sessions n)) (conn_nics conn) → (∀ op, posts post op) →
  descs ≠ [] → Forall desc_u64 descs → Forall (λ d, td_len d <= U32_MAX) descs →
  Forall (desc_ok (num_nics client) (registered (eng_state client))) descs →
  Z.of_nat (length descs) + 1 < 2 ^ 64 → zsum (td_len <$> descs) <= U64_MAX →
  apart (desc_move op <$> descs) → moves_mapped h (desc_move op <$> descs) →
  ∃ client' sent, engine_batch_transfer_async alive client op peer descs = Ret (client', sent, Ok tt) ∧
    ∀ order, order ≡ₚ mjoin (cmd_ops <$> sent) →
      ∃ h', run_moves (op_move op <$> order) h = Some h' ∧ landed (desc_move op <$> descs) h h'.
Proof.
  intros Hat%engine_at_ok Hconn Ha Hp Hne Hu Hmax Hd Hlen Hsum Hap Hm.
  destruct (batch_round rkey post alive client ts peer op descs conn) as (client' & sent & Hb & _ & _ & _ & _ & _ & (ps & Hps & Hperm) & _); [done..|].
  exists client', sent. split; [done|]. intros order Hord. by eapply sent_lands.
Qed.
End Data.

#[local] Instance rd_profile : BuildProfile := true.

(** The 256 bytes of the transfer example, read from 8192 to 4096, in the order
    opposite to the one they were posted in. *)
Definition rd_heap : heap := list_to_map ((λ x, (x, x mod 256)) <$> (seqZ 4096 256 ++ seqZ 8192 256)).

Lemma rd_moves : desc_move Read <$> et_descs = [mkMove 8192 4096 100; mkMove 8292 4196 100; mkMove 8392 4296 56].
Proof. vm_compute. reflexivity. Qed.

Lemma rd_mapped a n : (4096 <= a ∧ a + n <= 4352) ∨ (8192 <= a ∧ a + n <= 8448) → mapped rd_heap a n.
Proof.
  intros Ha x Hx. exists (x mod 256). apply elem_of_list_to_map_1'.
  - intros y Hy. apply list_elem_of_fmap in Hy as (z & [= -> ->] & _). done.
  - apply (list_elem_of_fmap_2 (λ x, (x, x mod 256))). rewrite elem_of_app, !elem_of_seqZ. lia.
Qed.

Lemma batch_lands_witness :
  ∃ client' sent h', engine_batch_transfer_async (λ _, true) et_client Read "server" et_descs = Ret (client', sent, Ok tt) ∧
    run_moves (op_move Read <$> reverse (mjoin (cmd_ops <$> sent))) rd_heap = Some h' ∧ landed (desc_move Read <$> et_descs) rd_heap h'.
Proof.
  destruct (batch_lands hs_key et_post (λ _, true) et_client [] "server" Read et_descs et_conn rd_heap) as (client' & sent & Hb & Hl).
  - split; [exists hs_open, hs_names; reflexivity|apply et5_reachable].
  - vm_compute. reflexivity.
  - repeat constructor.
  - intros op id ops. reflexivity.
  - vm_compute. discriminate.
  - repeat constructor; vm_compute; discriminate.
  - repeat constructor; vm_compute; discriminate.
  - apply et_descs_ok.
  - vm_compute. reflexivity.
  - vm_compute. discriminate.
  - rewrite rd_moves. constructor.
    + by repeat constructor.
    + intros [|[|[|i]]] [|[|[|j]]] m m' x Hi Hj Hm Hm'; simplify_eq/=; try done;
        unfold writes in *; cbn [mv_dst mv_len] in *; lia.
    + intros m m' x Hm Hm'. rewrite !elem_of_cons, elem_of_nil in Hm, Hm'. unfold reads, writes.
      destruct Hm as [->|[->|[->|[]]]], Hm' as [->|[->|[->|[]]]]; cbn [mv_src mv_dst mv_len]; lia.
  - rewrite rd_moves. repeat constructor; apply rd_mapped; cbn [mv_src mv_dst mv_len]; lia.
  - destruct (Hl (reverse (mjoin (cmd_ops <$> sent)))) as (h' & Hr & Hland); [apply reverse_Permutation|].
    exists client', sent, h'. split; [exact Hb|]. split; [exact Hr|exact Hland].
Defined.
