(* ===== verification/Text.v ===== *)
(** * Text: the string functions of the Rust standard library the code uses

    A [&str] is its bytes; the modelled inputs (sysfs files, driver tools) are
    ASCII, where characters are bytes.  [str "..."] is a literal. *)

From S2P Require Import Prelude.

Fixpoint str (s : string) : bytes :=
  match s with
  | EmptyString => []
  | String c s => Z.of_nat (Ascii.nat_of_ascii c) :: str s
  end.

Definition is_space (c : u8) : bool := ((9 <=? c) && (c <=? 13)) || (c =? 32).
Definition is_digit (c : u8) : bool := (48 <=? c) && (c <=? 57).

(** [trim_start], [trim]. *)
Fixpoint trim_start (s : bytes) : bytes :=
  match s with
  | c :: s' => if is_space c then trim_start s' else s
  | [] => []
  end.

Definition trim (s : bytes) : bytes := reverse (trim_start (reverse (trim_start s))).

(** [str::split] on a character: always at least one piece. *)
Fixpoint split (c : u8) (s : bytes) : list bytes :=
  match s with
  | [] => [[]]
  | x :: s =>
      if x =? c then [] :: split c s
      else match split c s with [] => [[x]] | p :: ps => (x :: p) :: ps end
  end.

(** [str::split_once]: at the first occurrence. *)
Fixpoint split_once (c : u8) (s : bytes) : option (bytes * bytes) :=
  match s with
  | [] => None
  | x :: s => if x =? c then Some ([], s) else '(a, b) ← split_once c s; Some (x :: a, b)
  end.

(** [[String]::join]. *)
Fixpoint join_with (sep : bytes) (parts : list bytes) : bytes :=
  match parts with
  | [] => []
  | [p] => p
  | p :: parts => p ++ sep ++ join_with sep parts
  end.

(** [char::to_lowercase] on ASCII. *)
Definition to_lower (s : bytes) : bytes := (λ c, if (65 <=? c) && (c <=? 90) then c + 32 else c) <$> s.

(** [str::parse] for unsigned integers up to [max]. *)
Fixpoint parse_digits (max acc : Z) (s : bytes) : option Z :=
  match s with
  | [] => Some acc
  | c :: s =>
      if is_digit c then
        let v := acc * 10 + (c - 48) in
        if v <=? max then parse_digits max v s else None
      else None
  end.

Definition parse_uint (max : Z) (s : bytes) : option Z :=
  match s with
  | [] => None
  | c :: s' => if c =? 43 then match s' with [] => None | _ => parse_digits max 0 s' end else parse_digits max 0 s
  end.

Definition parse_usize : bytes → option usize := parse_uint U64_MAX.
Definition parse_u32 : bytes → option u32 := parse_uint U32_MAX.
Definition parse_u16 : bytes → option u16 := parse_uint (2 ^ 16 - 1).

(** [str::parse::<i32>]. *)
Definition parse_i32 (s : bytes) : option Z :=
  match s with
  | c :: _ :: _ => if c =? 45 then Z.opp <$> parse_digits (2 ^ 31) 0 (tail s) else parse_uint (2 ^ 31 - 1) s
  | _ => parse_uint (2 ^ 31 - 1) s
  end.

(** [Display] of an unsigned integer: 20 digits hold any [u64]. *)
Fixpoint dec (fuel : nat) (n : Z) : bytes :=
  match fuel with
  | O => []
  | S fuel => if n <? 10 then [48 + n] else dec fuel (n / 10) ++ [48 + n mod 10]
  end.

Definition display (n : usize) : bytes := dec 20 n.

(** ** Printing and parsing *)

Lemma parse_digits_app max acc s t :
  parse_digits max acc (s ++ t) = parse_digits max acc s ≫= λ a, parse_digits max a t.
Proof.
  revert acc. induction s as [|c s IH]; intros acc; simpl; [done|].
  destruct (is_digit c); [|done]. destruct (_ <=? max); [|done]. apply IH.
Qed.

Lemma is_digit_of d : 0 <= d < 10 → is_digit (48 + d) = true.
Proof. intros. unfold is_digit. apply andb_true_iff. split; apply Z.leb_le; lia. Qed.

Lemma dec_digits fuel n : 0 <= n → Forall (λ c, is_digit c = true) (dec fuel n).
Proof.
  revert n. induction fuel as [|fuel IH]; intros n Hn; simpl; [constructor|].
  destruct (Z.ltb_spec n 10); [by constructor; [apply is_digit_of; lia|]|].
  apply Forall_app. split; [apply IH; apply Z.div_pos; lia|].
  constructor; [|done]. apply is_digit_of. apply Z.mod_pos_bound. lia.
Qed.

Lemma dec_parse max fuel n :
  0 <= n <= max → n < 10 ^ Z.of_nat fuel → (0 < fuel)%nat → parse_digits max 0 (dec fuel n) = Some n.
Proof.
  revert n. induction fuel as [|fuel IH]; intros n Hn Hf Hp; [lia|]. cbn [dec].
  destruct (Z.ltb_spec n 10).
  { cbn [parse_digits]. rewrite is_digit_of by lia. replace (0 * 10 + (48 + n - 48)) with n by lia.
    by rewrite (proj2 (Z.leb_le n max)) by lia. }
  rewrite Nat2Z.inj_succ, Z.pow_succ_r in Hf by lia.
  pose proof (Z.div_mod n 10 ltac:(lia)). pose proof (Z.mod_pos_bound n 10 ltac:(lia)).
  assert (n / 10 <= n) by (apply Z.div_le_upper_bound; lia).
  rewrite parse_digits_app, IH; [|split; [apply Z.div_pos; lia|lia]|apply Z.div_lt_upper_bound; lia|].
  - cbn [mbind option_bind parse_digits]. rewrite is_digit_of by lia.
    replace (n / 10 * 10 + (48 + n mod 10 - 48)) with n by lia. by rewrite (proj2 (Z.leb_le n max)) by lia.
  - destruct fuel; [|lia]. simpl in Hf. lia.
Qed.

Lemma display_digits n : 0 <= n → Forall (λ c, is_digit c = true) (display n).
Proof. apply dec_digits. Qed.

Lemma display_nonempty n : display n ≠ [].
Proof. unfold display. cbn [dec]. destruct (n <? 10); [done|]. by intros [_ ?]%app_nil. Qed.

(** Digits are neither separators nor signs. *)
Lemma display_no n c : 0 <= n → is_digit c = false → c ∉ display n.
Proof.
  intros Hn Hc Hin. pose proof (display_digits n Hn) as Hd. rewrite Forall_forall in Hd.
  specialize (Hd _ Hin). congruence.
Qed.

Lemma parse_display n : 0 <= n <= U64_MAX → parse_usize (display n) = Some n.
Proof.
  intros Hn. pose proof (dec_parse U64_MAX 20 n Hn ltac:(unfold U64_MAX in *; lia) ltac:(lia)) as Hp.
  pose proof (display_digits n ltac:(lia)) as Hd. pose proof (display_nonempty n) as Hne.
  unfold parse_usize, parse_uint. unfold display in *. destruct (dec 20 n) as [|c s]; [done|].
  apply Forall_cons in Hd as [Hc _]. destruct (Z.eqb_spec c 43) as [->|]; [done|]. exact Hp.
Qed.

(** ** Splitting *)

Lemma split_none c p : c ∉ p → split c p = [p].
Proof.
  induction p as [|x p IH]; intros Hn; [done|]. apply not_elem_of_cons in Hn as [Hne Hn]. cbn [split].
  destruct (Z.eqb_spec x c); [congruence|]. by rewrite IH.
Qed.

Lemma split_app c p s : c ∉ p → split c (p ++ c :: s) = p :: split c s.
Proof.
  induction p as [|x p IH]; intros Hn; cbn [app split]; [by rewrite Z.eqb_refl|].
  apply not_elem_of_cons in Hn as [Hne Hn]. destruct (Z.eqb_spec x c); [congruence|]. by rewrite IH.
Qed.

Lemma split_join c parts :
  parts ≠ [] → Forall (λ p, c ∉ p) parts → split c (join_with [c] parts) = parts.
Proof.
  intros Hne Hall. induction Hall as [|p parts Hp Hall IH]; [done|]. destruct parts as [|q parts].
  - by apply split_none.
  - change (join_with [c] (p :: q :: parts)) with (p ++ c :: join_with [c] (q :: parts)).
    rewrite split_app by done. by rewrite IH.
Qed.

Lemma split_once_app c p s : c ∉ p → split_once c (p ++ c :: s) = Some (p, s).
Proof.
  induction p as [|x p IH]; intros Hn; cbn [app split_once]; [by rewrite Z.eqb_refl|].
  apply not_elem_of_cons in Hn as [Hne Hn]. destruct (Z.eqb_spec x c); [congruence|]. by rewrite IH.
Qed.

Lemma split_once_none c p : c ∉ p → split_once c p = None.
Proof.
  induction p as [|x p IH]; intros Hn; [done|]. apply not_elem_of_cons in Hn as [Hne Hn]. cbn [split_once].
  destruct (Z.eqb_spec x c); [congruence|]. by rewrite IH.
Qed.

Lemma split_nonempty c s : split c s ≠ [].
Proof. destruct s as [|x s]; [done|]. cbn [split]. destruct (x =? c); [done|]. by destruct (split c s). Qed.

Lemma split_one c s p : split c s = [p] → s = p.
Proof.
  revert p. induction s as [|x s IH]; intros p; cbn [split]; [by intros [= <-]|]. destruct (x =? c).
  - intros [= _ Hs]. by apply split_nonempty in Hs.
  - destruct (split c s) as [|q ps] eqn:Hs; [by apply split_nonempty in Hs|]. intros [= <- ->]. by rewrite (IH q).
Qed.

Lemma split_two c s a b : split c s = [a; b] → split_once c s = Some (a, b).
Proof.
  revert a b. induction s as [|x s IH]; intros a b; cbn [split split_once]; [done|]. destruct (x =? c).
  - intros [= <- Hs]. by rewrite (split_one _ _ _ Hs).
  - destruct (split c s) as [|p ps]; [done|]. intros [= <- ->]. by rewrite (IH p b).
Qed.
