(* ===== verification/Display.v ===== *)
(** * Text forms of keys, devices and errors: [types.rs], [error.rs] *)

From S2P Require Import Prelude Types Text.

(** ** Hexadecimal *)

Definition hex_digit (n : Z) : u8 := if n <? 10 then 48 + n else 87 + n.

(** [hex]: [{b:02x}] of each byte. *)
Definition hex (bs : bytes) : bytes := bs ≫= λ b, [hex_digit (b / 16); hex_digit (b mod 16)].

Definition unhex_digit (c : u8) : option Z :=
  if is_digit c then Some (c - 48) else if (97 <=? c) && (c <=? 102) then Some (c - 87) else None.

Fixpoint unhex (s : bytes) : option bytes :=
  match s with
  | [] => Some []
  | a :: b :: s => x ← unhex_digit a; y ← unhex_digit b; bs ← unhex s; Some (16 * x + y :: bs)
  | _ => None
  end.

Lemma unhex_hex_digit n : 0 <= n < 16 → unhex_digit (hex_digit n) = Some n.
Proof.
  intros Hn. unfold hex_digit, unhex_digit, is_digit.
  destruct (Z.ltb_spec n 10).
  - rewrite !(proj2 (Z.leb_le _ _)) by lia. simpl. f_equal. lia.
  - rewrite (proj2 (Z.leb_gt (87 + n) 57)), andb_false_r by lia. rewrite !(proj2 (Z.leb_le _ _)) by lia. simpl. f_equal. lia.
Qed.

(** The text of a key names it: no two keys have the same digits. *)
Lemma unhex_hex bs : Forall (λ b, 0 <= b < 256) bs → unhex (hex bs) = Some bs.
Proof.
  induction 1 as [|b bs Hb _ IH]; [done|]. unfold hex in *. rewrite bind_cons. cbn [app unhex].
  assert (0 <= b / 16 < 16) by (split; [apply Z.div_pos; lia|apply Z.div_lt_upper_bound; lia]).
  pose proof (Z.mod_pos_bound b 16). rewrite !unhex_hex_digit by lia. simpl. rewrite IH. simpl.
  pose proof (Z.div_mod b 16). do 2 f_equal. lia.
Qed.

(** ** Devices *)

(** [Display for Device]. *)
Definition device_display (d : Device) : bytes :=
  match d with Cpu numa => str "cpu:" ++ display numa | Gpu index => str "gpu:" ++ display index end.

(** The text names the device. *)
Lemma device_display_inj d d' :
  (match d with Cpu n | Gpu n => 0 <= n <= U64_MAX end) → (match d' with Cpu n | Gpu n => 0 <= n <= U64_MAX end) →
  device_display d = device_display d' → d = d'.
Proof.
  destruct d as [n|n], d' as [m|m]; simpl; intros Hn Hm Heq; simplify_eq; f_equal;
    (apply (inj Some); rewrite <- (parse_display n), <- (parse_display m) by done; by f_equal).
Qed.

(** ** Errors *)

(** [Display for ErrorKind]. *)
Definition kind_display (k : ErrorKind) : bytes := str (as_str k).

(** [Display for Error]; [key_text] is how a key of the context was formatted. *)
Section Errors.
Context (key_text : bytes → bytes).

Definition ctx_display (v : CtxVal) : bytes :=
  match v with CInt n => display n | CDevice d => device_display d | CKey k => key_text k end.

Definition error_display (e : Error) : bytes :=
  kind_display (err_kind e) ++
  (if decide (err_status e = Temporary) then str " (temporary)" else []) ++
  (match err_operation e with Some op => str " at " ++ str op | None => [] end) ++
  (if decide (str (err_message e) = []) then [] else str " => " ++ str (err_message e)) ++
  (match err_context e with
   | [] => []
   | ctx => str " {" ++ join_with (str ", ") ((λ '(k, v), str k ++ str ": " ++ ctx_display v) <$> ctx) ++ str "}"
   end).
End Errors.

Example error_text :
  error_display id (with_operation (with_context (Error_new NoSpace "dram full") "device" (CDevice (Cpu 1))) "put") =
  str "NoSpace (temporary) at put => dram full {device: cpu:1}".
Proof. vm_compute. reflexivity. Qed.
