(* ===== verification/Numa.v ===== *)
(** * NUMA topology: [numa.rs] of the RDMA crate

    CPU lists in the kernel's format, GPU affinity, and thread placement.
    Directory listings and file contents are arguments; error messages keep
    their constant part. *)

From S2P Require Import Prelude Text RcBackend.

(** [NumaNode] is its number; [UNKNOWN] is [u32::MAX]. *)
Definition numa_display (n : u32) : bytes :=
  if negb (numa_is_valid n) then str "UNKNOWN" else str "NUMA" ++ display n.

Definition COMMA : u8 := 44.
Definition DASH : u8 := 45.
Definition COLON : u8 := 58.

Section Cpus.
Context `{BuildProfile}.

Definition format_run (start prev : usize) : bytes :=
  if start =? prev then display start else display start ++ DASH :: display prev.

(** The loop of [format_cpu_list] and the push after it. *)
Fixpoint format_loop (cpus : list usize) (start prev : usize) : outcome (list bytes) :=
  match cpus with
  | [] => Ret [format_run start prev]
  | cpu :: cpus =>
      next ← u64_add prev 1;
      if cpu =? next then format_loop cpus start cpu
      else rest ← format_loop cpus cpu cpu; Ret (format_run start prev :: rest)
  end.

Definition format_cpu_list (cpus : list usize) : outcome bytes :=
  match cpus with
  | [] => Ret []
  | c :: cpus => parts ← format_loop cpus c c; Ret (join_with [COMMA] parts)
  end.
End Cpus.

(** [start..=end]. *)
Definition range_incl (start stop : usize) : list usize := seqZ start (stop - start + 1).

(** One piece of a CPU list. *)
Definition parse_part (part : bytes) : result string (list usize) :=
  if bool_decide (DASH ∈ part) then
    match split DASH part with
    | [a; b] =>
        match parse_usize a with
        | None => Err "Invalid CPU ID"
        | Some start =>
            match parse_usize b with
            | None => Err "Invalid CPU ID"
            | Some stop => Ok (range_incl start stop)
            end
        end
    | _ => Err "Invalid CPU range format"
    end
  else match parse_usize part with None => Err "Invalid CPU ID" | Some cpu => Ok [cpu] end.

Fixpoint parse_parts (parts : list bytes) : result string (list usize) :=
  match parts with
  | [] => Ok []
  | p :: parts => cpus ← parse_part p; rest ← parse_parts parts; Ok (cpus ++ rest)
  end.

(** [Vec::dedup]: consecutive repeats. *)
Fixpoint dedup (l : list Z) : list Z :=
  match l with
  | x :: ((y :: _) as l') => if x =? y then dedup l' else x :: dedup l'
  | _ => l
  end.

(** [sort_unstable] then [dedup]. *)
Definition sort_dedup (l : list Z) : list Z := dedup (merge_sort Z.le l).

Definition parse_cpulist (cpulist : bytes) : result string (list usize) :=
  match cpulist with
  | [] => Ok []
  | _ => cpus ← parse_parts (split COMMA cpulist); Ok (sort_dedup cpus)
  end.

(** ** sysfs *)

(** An entry of the node directory: its name and its [cpulist] file ([None]
    when there is no such file, [Some None] when it cannot be read). *)
Record node_entry : Type := mkNodeEntry {
  ne_name : bytes;
  ne_cpulist : option (option bytes);
}.

Fixpoint read_nodes (entries : list node_entry) (m : gmap u32 (list usize)) : result string (gmap u32 (list usize)) :=
  match entries with
  | [] => Ok m
  | e :: entries =>
      if negb (starts_with (str "node") (ne_name e)) then read_nodes entries m else
      match parse_u32 (drop 4 (ne_name e)) with
      | None => Err "Invalid node directory name"
      | Some node_id =>
          match ne_cpulist e with
          | None => read_nodes entries m
          | Some None => Err "Failed to read"
          | Some (Some cpulist) =>
              cpus ← parse_cpulist (trim cpulist);
              read_nodes entries (<[node_id := cpus]> m)
          end
      end
  end.

(** [dir] is the listing of the node directory: [None] when it does not exist,
    [Some None] when it cannot be read. *)
Definition read_cpu_topology_from_sysfs (dir : option (option (list node_entry))) : result string (gmap u32 (list usize)) :=
  match dir with
  | None => Err "NUMA not supported"
  | Some None => Err "Failed to read node directory"
  | Some (Some entries) =>
      m ← read_nodes entries ∅;
      if decide (m = ∅) then Err "No NUMA nodes found" else Ok m
  end.

(** The bits of a [cpu_set_t]; [CPU_SET] beyond them is an index out of bounds. *)
Definition CPU_SETSIZE : usize := 1024.

(** [pin_thread_to_numa_node]: the CPUs given to [sched_setaffinity], whose
    outcome is [setaffinity]. *)
Definition pin_thread_to_numa_node (dir : option (option (list node_entry))) (setaffinity : list usize → bool)
    (node : u32) : outcome (result string (list usize)) :=
  if negb (numa_is_valid node) then Ret (Err "Cannot pin to unknown NUMA node") else
  match read_cpu_topology_from_sysfs dir with
  | Err _ => Ret (Err "Failed to get NUMA topology")
  | Ok m =>
      match m !! node with
      | None => Ret (Err "No CPUs found for NUMA node")
      | Some [] => Ret (Err "CPU list is empty for NUMA node")
      | Some cpus =>
          if existsb (λ c, CPU_SETSIZE <=? c) cpus then Panicked
          else Ret (if setaffinity cpus then Ok cpus else Err "sched_setaffinity failed")
      end
  end.

(** [run_on_numa]: the closure's result comes over a channel; when the thread
    panics, in the closure or before it, the channel closes.  [spawned] tells
    whether the thread could be started. *)
Definition run_on_numa {T} (dir : option (option (list node_entry))) (setaffinity : list usize → bool) (spawned : bool)
    (node : u32) (f : outcome T) : result string T :=
  if negb (numa_is_valid node) then Err "Cannot run on unknown NUMA node" else
  if negb spawned then Err "Failed to spawn NUMA thread" else
  match pin_thread_to_numa_node dir setaffinity node with
  | Ret (Err e) => Err e
  | Ret (Ok _) => match f with Ret a => Ok a | _ => Err "NUMA thread panicked or closed channel" end
  | _ => Err "NUMA thread panicked or closed channel"
  end.

(** ** GPU affinity *)

(** [str::lines]: the first line, without its end. *)
Definition first_line (s : bytes) : option bytes :=
  match s with
  | [] => None
  | _ =>
      let l := default [] (head (split 10 s)) in
      Some (match split_once 10 s, reverse l with Some _, 13 :: r => reverse r | _, _ => l end)
  end.

Definition parse_closest_cpu_numa_node (output : bytes) : u32 :=
  default UNKNOWN
    (line ← first_line output;
     numa_ids ← split COLON line !! 1%nat;
     numa_id ← head (split COMMA numa_ids);
     parse_u32 (trim numa_id)).

(** [get_device_numa_node]: [smi_topo] is the text [nvidia-smi topo] prints for a
    device, [None] when it fails or prints something else. *)
Definition get_device_numa_node (smi_topo : u32 → option bytes) (device_id : u32) : u32 :=
  match smi_topo device_id with
  | Some stdout => parse_closest_cpu_numa_node stdout
  | None => UNKNOWN
  end.

(** [get_gpu_numa_affinity]: [smi_count] is what the count query prints. *)
Definition get_gpu_numa_affinity (smi_count : option bytes) (smi_topo : u32 → option bytes) : list (u32 * u32) :=
  match smi_count with
  | None => []
  | Some stdout =>
      match parse_u32 (from_option trim [] (first_line stdout)) with
      | None => []
      | Some count => (λ d, (d, get_device_numa_node smi_topo d)) <$> seqZ 0 count
      end
  end.

Record NumaTopology : Type := mkNumaTopology {
  gpu_numa_map : gmap Z u32;
  topo_numa_nodes : list u32;
}.

(** [dev as i32]. *)
Definition as_i32 (v : u32) : Z := if v <? 2 ^ 31 then v else v - 2 ^ 32.

(** [NumaTopology::detect], from the affinity pairs and the node directory. *)
Definition detect_numa (affinity : list (u32 * u32)) (dir : option (option (list node_entry))) : NumaTopology :=
  mkNumaTopology
    (foldl (λ m '(dev, node), <[as_i32 dev := node]> m) ∅ affinity)
    (match read_cpu_topology_from_sysfs dir with
     | Ok m => merge_sort Z.le ((map_to_list m).*1)
     | Err _ => [0]
     end).

Definition numa_detect (smi_count : option bytes) (smi_topo : u32 → option bytes) (dir : option (option (list node_entry)))
    : NumaTopology :=
  detect_numa (get_gpu_numa_affinity smi_count smi_topo) dir.

Definition numa_for_gpu (t : NumaTopology) (device_id : Z) : u32 := default UNKNOWN (gpu_numa_map t !! device_id).

Definition gpu_numa_nodes (t : NumaTopology) : list u32 :=
  sort_dedup (List.filter numa_is_valid ((map_to_list (gpu_numa_map t)).*2)).

Definition num_nodes (t : NumaTopology) : nat := length (topo_numa_nodes t).

Definition is_multi_numa (t : NumaTopology) : bool := (1 <? num_nodes t)%nat.

(** [query_pages_numa]: [None] when the system call fails. *)
Definition query_pages_numa (move_pages : list usize → option (list Z)) (page_size : usize) (addrs : list usize) : list u32 :=
  match addrs with
  | [] => []
  | _ =>
      let pages := (λ a, Z.land a (Z.lnot (page_size - 1))) <$> addrs in
      match move_pages pages with
      | None => replicate (length addrs) UNKNOWN
      | Some status => (λ s, if 0 <=? s then s else UNKNOWN) <$> status
      end
  end.

(** ** Sorted lists without repeats *)

Lemma dedup_cons2 x y l : dedup (x :: y :: l) = if x =? y then dedup (y :: l) else x :: dedup (y :: l).
Proof. done. Qed.

Lemma elem_of_dedup x l : x ∈ dedup l ↔ x ∈ l.
Proof.
  induction l as [|a l IH]; [done|]. destruct l as [|b l]; [done|]. rewrite dedup_cons2.
  destruct (Z.eqb_spec a b) as [->|]; rewrite ?elem_of_cons in *; rewrite ?IH; [|done]. tauto.
Qed.

Lemma dedup_sorted l : Sorted Z.le l → StronglySorted Z.lt (dedup l).
Proof.
  intros Hs. apply Sorted_StronglySorted in Hs; [|intros ???; lia].
  induction Hs as [|a l Hs IH Hall]; [constructor|]. destruct l as [|b l]; [by repeat constructor|].
  rewrite dedup_cons2. destruct (Z.eqb_spec a b) as [->|Hne]; [done|]. constructor; [done|].
  apply Forall_forall. intros x Hx. rewrite elem_of_dedup in Hx.
  apply Forall_cons in Hall as [Hab _]. apply elem_of_cons in Hx as [->|Hx]; [lia|].
  inversion Hs as [|? ? _ Hb]; subst. rewrite Forall_forall in Hb. specialize (Hb _ Hx). lia.
Qed.

Lemma sort_dedup_sorted l : StronglySorted Z.lt (sort_dedup l).
Proof. apply dedup_sorted, Sorted_merge_sort. intros x y. lia. Qed.

Lemma elem_of_sort_dedup x l : x ∈ sort_dedup l ↔ x ∈ l.
Proof. unfold sort_dedup. rewrite elem_of_dedup. by rewrite merge_sort_Permutation. Qed.

(** A strictly increasing list is determined by its elements. *)
Lemma sorted_lt_ext l l' :
  StronglySorted Z.lt l → StronglySorted Z.lt l' → (∀ x, x ∈ l ↔ x ∈ l') → l = l'.
Proof.
  intros Hl. revert l'. induction Hl as [|a l Hl IH Ha]; intros l' Hl' Hext.
  { destruct l' as [|b l']; [done|]. exfalso. apply (not_elem_of_nil b). apply Hext. left. }
  destruct Hl' as [|b l' Hl' Hb].
  { exfalso. apply (not_elem_of_nil a). apply Hext. left. }
  rewrite Forall_forall in Ha, Hb.
  assert (a = b) as <-.
  { destruct (proj1 (elem_of_cons l' a b)) as [|Hin]; [apply Hext; left|done|].
    destruct (proj1 (elem_of_cons l b a)) as [|Hin']; [apply Hext; left|done|].
    specialize (Ha _ Hin'). specialize (Hb _ Hin). lia. }
  f_equal. apply IH; [done|]. intros x. specialize (Hext x). rewrite !elem_of_cons in Hext.
  split; intros Hx; [specialize (Ha _ Hx)|specialize (Hb _ Hx)]; destruct Hext as [H1 H2];
    [destruct (H1 (or_intror Hx)) as [->|]|destruct (H2 (or_intror Hx)) as [->|]]; done || lia.
Qed.

Lemma sort_dedup_id l : StronglySorted Z.lt l → sort_dedup l = l.
Proof. intros Hl. apply sorted_lt_ext; [apply sort_dedup_sorted|done|]. intros x. apply elem_of_sort_dedup. Qed.

(** ** Printing and parsing CPU lists *)

Lemma range_incl_single a : range_incl a a = [a].
Proof. unfold range_incl. replace (a - a + 1) with 1 by lia. done. Qed.

Lemma range_incl_snoc a b : a <= b → range_incl a b ++ [b + 1] = range_incl a (b + 1).
Proof.
  intros. unfold range_incl. replace (b + 1 - a + 1) with ((b - a + 1) + 1) by lia.
  rewrite (seqZ_app _ (b - a + 1) 1) by lia. apply (f_equal (app _)). rewrite <- (range_incl_single (b + 1)).
  unfold range_incl. f_equal; lia.
Qed.

Lemma elem_of_range_incl x a b : x ∈ range_incl a b ↔ a <= x <= b.
Proof. unfold range_incl. rewrite elem_of_seqZ. lia. Qed.

Definition run_ok (r : Z * Z) : Prop := 0 <= r.1 ∧ r.1 <= r.2 ∧ r.2 <= U64_MAX.

Lemma display_no_dash n : 0 <= n → DASH ∉ display n.
Proof. intros. by apply display_no. Qed.

Lemma display_no_comma n : 0 <= n → COMMA ∉ display n.
Proof. intros. by apply display_no. Qed.

Lemma format_run_no_comma r : run_ok r → COMMA ∉ format_run r.1 r.2.
Proof.
  intros (H1 & H2 & _). unfold format_run. destruct (_ =? _); [by apply display_no_comma|].
  rewrite not_elem_of_app, not_elem_of_cons. split_and!; [by apply display_no_comma|done|apply display_no_comma; lia].
Qed.

Lemma parse_format_run r : run_ok r → parse_part (format_run r.1 r.2) = Ok (range_incl r.1 r.2).
Proof.
  intros (H1 & H2 & H3). unfold parse_part, format_run. destruct (Z.eqb_spec r.1 r.2) as [Heq|Hne].
  - rewrite bool_decide_false by (by apply display_no_dash). rewrite parse_display by lia.
    by rewrite <- Heq, range_incl_single.
  - rewrite bool_decide_true by (rewrite elem_of_app, elem_of_cons; auto).
    rewrite split_app by (by apply display_no_dash). rewrite split_none by (apply display_no_dash; lia).
    by rewrite !parse_display by lia.
Qed.

Lemma parse_format_runs runs :
  Forall run_ok runs → parse_parts ((λ r, format_run r.1 r.2) <$> runs) = Ok (mjoin ((λ r, range_incl r.1 r.2) <$> runs)).
Proof.
  induction 1 as [|r runs Hr _ IH]; [done|]. csimpl. rewrite parse_format_run by done. cbn [mbind result_bind].
  by rewrite IH.
Qed.

Section Roundtrip.
Context `{BuildProfile}.

(** The loop splits the list into maximal runs. *)
Lemma format_loop_spec cpus start prev :
  0 <= start → start <= prev → prev <= U64_MAX → StronglySorted Z.lt (prev :: cpus) → Forall is_u64 cpus →
  ∃ runs, format_loop cpus start prev = Ret ((λ r, format_run r.1 r.2) <$> runs) ∧ runs ≠ [] ∧
    Forall run_ok runs ∧ mjoin ((λ r, range_incl r.1 r.2) <$> runs) = range_incl start prev ++ cpus.
Proof.
  revert start prev. induction cpus as [|cpu cpus IH]; intros start prev H0 H1 H2 Hs Hu.
  { exists [(start, prev)]. split; [done|]. split; [done|]. split; [by repeat constructor|]. done. }
  apply Forall_cons in Hu as [Hc Hu]. inversion Hs as [|? ? Hs' Hlt]; subst.
  apply Forall_cons in Hlt as [Hlt _]. destruct Hc as [Hc0 Hc1]. cbn [format_loop].
  rewrite u64_add_ok by (split; lia). cbn [mbind outcome_bind]. destruct (Z.eqb_spec cpu (prev + 1)) as [->|Hne].
  - destruct (IH start (prev + 1)) as (runs & Hf & Hr1 & Hr2 & Hr3); [lia..|done|done|]. exists runs.
    rewrite Hr3, <- range_incl_snoc by lia. by rewrite <- (assoc_L (++)).
  - destruct (IH cpu cpu) as (runs & Hf & Hr1 & Hr2 & Hr3); [lia..|done|done|]. rewrite Hf.
    exists ((start, prev) :: runs). split; [done|]. split; [done|]. split; [by constructor|].
    csimpl. by rewrite Hr3, range_incl_single.
Qed.

Lemma join_nonempty c parts : parts ≠ [] → Forall (λ p, p ≠ []) parts → join_with [c] parts ≠ [].
Proof.
  intros Hne Hall. destruct Hall as [|p parts Hp _]; [done|]. destruct parts as [|q parts]; [done|].
  change (join_with [c] (p :: q :: parts)) with (p ++ c :: join_with [c] (q :: parts)). by destruct p.
Qed.

(** [parse_cpulist] inverts [format_cpu_list]: a strictly increasing list of
    CPUs is printed without overflow and parsed back to itself. *)
Theorem cpulist_roundtrip cpus :
  StronglySorted Z.lt cpus → Forall is_u64 cpus →
  ∃ s, format_cpu_list cpus = Ret s ∧ parse_cpulist s = Ok cpus.
Proof.
  intros Hs Hu. destruct cpus as [|c cpus]; [by exists []|]. apply Forall_cons in Hu as [[? ?] Hu].
  destruct (format_loop_spec cpus c c) as (runs & Hf & Hne & Hok & Hr); [lia..|done|done|].
  unfold format_cpu_list. rewrite Hf. cbn [mbind outcome_bind]. eexists. split; [done|].
  rewrite range_incl_single in Hr. unfold parse_cpulist.
  assert (join_with [COMMA] ((λ r, format_run r.1 r.2) <$> runs) ≠ []) as Hj.
  { apply join_nonempty; [by destruct runs|]. apply Forall_fmap. eapply Forall_impl; [exact Hok|].
    intros r _. simpl. unfold format_run. destruct (_ =? _); [apply display_nonempty|].
    destruct (display r.1); done. }
  destruct (join_with _ _) as [|x s] eqn:Heq; [done|]. rewrite <- Heq, split_join; [|by destruct runs|].
  - rewrite parse_format_runs by done. cbn [mbind result_bind]. rewrite Hr. simpl. by rewrite sort_dedup_id.
  - apply Forall_fmap. eapply Forall_impl; [exact Hok|]. intros r. apply format_run_no_comma.
Qed.
End Roundtrip.

Lemma cpulist_roundtrip_witness :
  ∃ s, format_cpu_list (H := true) [0; 1; 2; 8; 16; 17] = Ret s ∧ parse_cpulist s = Ok [0; 1; 2; 8; 16; 17].
Proof.
  apply (cpulist_roundtrip (H := true)).
  - repeat constructor; lia.
  - repeat constructor; unfold U64_MAX; lia.
Defined.

Example cpulist_text : format_cpu_list (H := true) [0; 1; 2; 4; 6; 7; 8] = Ret (str "0-2,4,6-8").
Proof. vm_compute. reflexivity. Qed.

Example closest_cpu : parse_closest_cpu_numa_node (str "NUMA IDs of closest CPU: 1,18-33") = 1.
Proof. vm_compute. reflexivity. Qed.

(** ** What detection finds *)

Lemma as_i32_inj a b : 0 <= a <= U32_MAX → 0 <= b <= U32_MAX → as_i32 a = as_i32 b → a = b.
Proof. unfold as_i32, U32_MAX. intros Ha Hb. destruct (Z.ltb_spec a (2 ^ 31)), (Z.ltb_spec b (2 ^ 31)); lia. Qed.

Lemma affinity_map (f : u32 → u32) ds (m : gmap Z u32) d :
  Forall (λ d, 0 <= d <= U32_MAX) ds → 0 <= d <= U32_MAX →
  foldl (λ m '(dev, node), <[as_i32 dev := node]> m) m ((λ d, (d, f d)) <$> ds) !! as_i32 d =
    if decide (d ∈ ds) then Some (f d) else m !! as_i32 d.
Proof.
  intros Hds Hd. revert m. induction Hds as [|x ds Hx _ IH]; intros m; csimpl; [done|].
  rewrite IH. destruct (decide (d = x)) as [->|Hne].
  - rewrite lookup_insert_eq, (decide_True (P := x ∈ x :: ds)) by left. by case_decide.
  - rewrite lookup_insert_ne by (intros Heq; by apply Hne, as_i32_inj).
    destruct (decide (d ∈ ds)); [by rewrite decide_True by by right|]. rewrite decide_False; [done|]. by intros [?|?]%elem_of_cons.
Qed.

(** Every GPU [nvidia-smi] counts has the node it reports; any other is unknown. *)
Lemma numa_detect_gpu out count smi_topo dir d :
  parse_u32 (from_option trim [] (first_line out)) = Some count → 0 <= count <= U32_MAX → 0 <= d <= U32_MAX →
  numa_for_gpu (numa_detect (Some out) smi_topo dir) (as_i32 d) =
    if decide (d < count) then get_device_numa_node smi_topo d else UNKNOWN.
Proof.
  intros Hout Hc Hd. unfold numa_for_gpu, numa_detect, detect_numa, get_gpu_numa_affinity. simpl. rewrite Hout.
  rewrite affinity_map; [|apply Forall_forall; intros x Hx; apply elem_of_seqZ in Hx; lia|done].
  destruct (decide (d < count)) as [Hlt|Hge].
  - by rewrite decide_True by (apply elem_of_seqZ; lia).
  - rewrite decide_False by (rewrite elem_of_seqZ; lia). by rewrite lookup_empty.
Qed.

Example smi_two_gpus :
  let t := numa_detect (Some (str "2")) (λ d, Some (str "NUMA IDs of closest CPU: 1,3")) None in
  (numa_for_gpu t 0, numa_for_gpu t 1, numa_for_gpu t 2, gpu_numa_nodes t) = (1, 1, UNKNOWN, [1]).
Proof. vm_compute. reflexivity. Qed.
