(* ===== verification/Topology.v ===== *)
(** * Device topology: [pegastore-cuda/src/topology.rs]

    Which CPUs and GPUs belong to which NUMA node, and the distance between
    devices.  The contents of sysfs are arguments. *)

From S2P Require Import Prelude Types Memory Text Numa.

Record Topology : Type := mkTopology {
  numa_nodes : list u16;
  cpus_by_numa : gmap u16 (list usize);
  gpu_numa : gmap u16 u16;
}.

(** One piece of a CPU list; malformed pieces are skipped. *)
Definition parse_piece (part : bytes) : list usize :=
  match split_once DASH part with
  | Some (a, b) =>
      match parse_usize a, parse_usize b with
      | Some a, Some b => range_incl a b
      | _, _ => []
      end
  | None => match parse_usize part with Some v => [v] | None => [] end
  end.

Definition parse_cpulist (s : bytes) : list usize :=
  mjoin (parse_piece <$> List.filter (λ p, negb (bool_decide (p = []))) (split COMMA s)).

(** [00000008:06:00.0] becomes [0008:06:00.0]. *)
Definition normalize_domain (bus : bytes) : bytes :=
  match split_once COLON bus with
  | Some (dom, rest) =>
      if (4 <? length dom)%nat then drop (length dom - 4) dom ++ COLON :: rest else bus
  | None => bus
  end.

(** [read] gives the contents of a device's [numa_node] file. *)
Fixpoint first_numa (read : bytes → option bytes) (candidates : list bytes) : option u16 :=
  match candidates with
  | [] => None
  | c :: candidates =>
      match s ← read c; parse_i32 (trim s) with
      | Some v => if 0 <=? v then Some (v mod 2 ^ 16) else first_numa read candidates
      | None => first_numa read candidates
      end
  end.

Definition pci_numa (read : bytes → option bytes) (bus : bytes) : option u16 :=
  first_numa read [bus; normalize_domain bus].

(** [s.strip_prefix("node")]. *)
Definition strip_node (name : bytes) : option bytes :=
  if starts_with (str "node") name then Some (drop 4 name) else None.

(** The loop over the node directory: name and [cpulist] contents. *)
Fixpoint scan_nodes (entries : list (bytes * option bytes)) (m : gmap u16 (list usize)) : gmap u16 (list usize) :=
  match entries with
  | [] => m
  | (name, cpulist) :: entries =>
      match s ← strip_node name; parse_u16 s with
      | None => scan_nodes entries m
      | Some id =>
          match parse_cpulist (trim (default [] cpulist)) with
          | [] => scan_nodes entries m
          | cpus => scan_nodes entries (<[id := cpus]> m)
          end
      end
  end.

Fixpoint scan_gpus (read : bytes → option bytes) (nodes : list u16) (gpus : list (u16 * bytes)) (m : gmap u16 u16)
    : gmap u16 u16 :=
  match gpus with
  | [] => m
  | (idx, bus) :: gpus =>
      match pci_numa read bus with
      | Some n => scan_gpus read nodes gpus (if bool_decide (n ∈ nodes) then <[idx := n]> m else m)
      | None => scan_gpus read nodes gpus m
      end
  end.

(** [Topology::detect]; [dir] is the listing of the node directory, [num_cpus]
    at least one. *)
Definition detect (dir : option (list (bytes * option bytes))) (num_cpus : nat) (read : bytes → option bytes)
    (gpus : list (u16 * bytes)) : Topology :=
  let cpus := scan_nodes (default [] dir) ∅ in
  let cpus := if decide (cpus = ∅) then <[0 := Z.of_nat <$> seq 0 num_cpus]> cpus else cpus in
  let nodes := merge_sort Z.le ((map_to_list cpus).*1) in
  mkTopology nodes cpus (scan_gpus read nodes gpus ∅).

Definition numa_of_gpu (t : Topology) (gpu : u16) : option u16 := gpu_numa t !! gpu.

Definition distance (t : Topology) (a b : Device) : u32 :=
  if decide (a = b) then 0 else
  match a, b with
  | Gpu _, Gpu _ => 1
  | Cpu numa, Gpu index | Gpu index, Cpu numa =>
      match numa_of_gpu t index with
      | Some n => if n =? numa then 2 else 4
      | None => 3
      end
  | Cpu _, Cpu _ => 3
  end.

(** [pin_to_numa]: the CPUs set in the affinity mask. *)
Definition pin_to_numa (setaffinity : list usize → bool) (t : Topology) (numa : u16) : bool :=
  match cpus_by_numa t !! numa with
  | None => false
  | Some cpus => setaffinity (List.filter (λ c, c <? CPU_SETSIZE) cpus)
  end.

(** ** Properties *)

(** The distance of the CUDA backend is a symmetric function of the affinity
    map, zero exactly on the same device, and the same as the distance of the
    in-memory backend when both know the same affinities: the two backends
    rank replicas alike. *)
Theorem distance_agrees (t : Topology) (inner : Inner) a b :
  gpu_numa t = in_gpu_numa inner →
  distance t a b = Memory.distance inner a b ∧ distance t a b = distance t b a ∧ (distance t a b = 0 ↔ a = b) ∧
  0 <= distance t a b <= 4.
Proof.
  intros Heq. unfold distance, Memory.distance, numa_of_gpu. rewrite Heq.
  destruct (decide (a = b)) as [->|Hne]; [by rewrite decide_True|]. rewrite (decide_False (P := b = a)) by done.
  destruct a as [x|x], b as [y|y]; repeat case_match; split_and!; try done; lia.
Qed.

(** Every known GPU affinity names a known node. *)
Lemma scan_gpus_nodes read nodes gpus m :
  map_Forall (λ _ n, n ∈ nodes) m → map_Forall (λ _ n, n ∈ nodes) (scan_gpus read nodes gpus m).
Proof.
  revert m. induction gpus as [|[idx bus] gpus IH]; intros m Hm; [done|]. cbn [scan_gpus].
  destruct (pci_numa read bus) as [n|]; [|by apply IH]. apply IH. case_bool_decide; [|done].
  by apply map_Forall_insert_2.
Qed.

Lemma scan_nodes_cpus entries m :
  map_Forall (λ _ cpus, cpus ≠ []) m → map_Forall (λ _ cpus, cpus ≠ []) (scan_nodes entries m).
Proof.
  revert m. induction entries as [|[name cpulist] entries IH]; intros m Hm; [done|]. cbn [scan_nodes].
  destruct (s ← strip_node name; parse_u16 s) as [id|]; [|by apply IH].
  destruct (parse_cpulist (trim (default [] cpulist))) eqn:Hc; [by apply IH|]. apply IH.
  by apply map_Forall_insert_2.
Qed.

(** Whatever sysfs contains, a detected topology is usable: there is a NUMA
    node, the nodes are listed once each in increasing order and are exactly
    those with CPUs, each has at least one, and every GPU's node is one of
    them. *)
Theorem detect_usable dir num_cpus read gpus :
  (0 < num_cpus)%nat →
  numa_nodes (detect dir num_cpus read gpus) ≠ [] ∧
  StronglySorted Z.lt (numa_nodes (detect dir num_cpus read gpus)) ∧
  (∀ n, n ∈ numa_nodes (detect dir num_cpus read gpus) ↔ is_Some (cpus_by_numa (detect dir num_cpus read gpus) !! n)) ∧
  map_Forall (λ _ cpus, cpus ≠ []) (cpus_by_numa (detect dir num_cpus read gpus)) ∧
  map_Forall (λ _ n, n ∈ numa_nodes (detect dir num_cpus read gpus)) (gpu_numa (detect dir num_cpus read gpus)).
Proof.
  intros Hn. unfold detect. cbn [numa_nodes cpus_by_numa gpu_numa].
  assert (map_Forall (λ _ cpus, cpus ≠ []) (scan_nodes (default [] dir) ∅)) as Hc.
  { apply scan_nodes_cpus, map_Forall_empty. }
  set (m := if decide _ then _ else _).
  assert (m ≠ ∅ ∧ map_Forall (λ _ cpus, cpus ≠ []) m) as [Hne Hall].
  { unfold m. case_decide as Hd; [|done]. split; [apply insert_non_empty|].
    apply map_Forall_insert_2; [|done]. destruct num_cpus; [lia|]. done. }
  assert (∀ n, n ∈ merge_sort Z.le (map_to_list m).*1 ↔ is_Some (m !! n)) as Hin.
  { intros n. rewrite merge_sort_Permutation, list_elem_of_fmap. split.
    - intros ([k c] & -> & Hk%elem_of_map_to_list). by exists c.
    - intros [c Hk]. exists (n, c). split; [done|]. by apply elem_of_map_to_list. }
  split_and!; try done.
  - intros Hz. apply Hne. apply map_empty. intros n. destruct (m !! n) as [c|] eqn:Hm; [|done].
    assert (n ∈ merge_sort Z.le (map_to_list m).*1) as Hbad by (apply Hin; eauto). rewrite Hz in Hbad.
    by apply not_elem_of_nil in Hbad.
  - assert (Sorted Z.le (merge_sort Z.le (map_to_list m).*1)) as Hs by (apply Sorted_merge_sort; intros x y; lia).
    apply Sorted_StronglySorted in Hs; [|intros ???; lia].
    assert (NoDup (merge_sort Z.le (map_to_list m).*1)) as Hd.
    { rewrite merge_sort_Permutation. apply NoDup_fst_map_to_list. }
    clear Hin. induction Hs as [|x l Hs IH Hx]; [constructor|]. apply NoDup_cons in Hd as [Hnx Hd].
    constructor; [by apply IH|]. rewrite Forall_forall in *. intros y Hy. specialize (Hx _ Hy).
    assert (x ≠ y) by (by intros ->). lia.
  - apply scan_gpus_nodes, map_Forall_empty.
Qed.

(** ** The two CPU-list parsers *)

Lemma parse_part_piece p l : parse_part p = Ok l → p ≠ [] ∧ parse_piece p = l.
Proof.
  unfold parse_part, parse_piece. case_bool_decide as Hd.
  - destruct (split DASH p) as [|a [|b [|]]] eqn:Hs; try done. rewrite (split_two _ _ _ _ Hs).
    destruct (parse_usize a); [|done]. destruct (parse_usize b); [|done]. intros [= <-]. split; [|done].
    intros ->. by apply not_elem_of_nil in Hd.
  - rewrite split_once_none by done. destruct (parse_usize p) as [v|] eqn:Hp; [|done]. intros [= <-].
    split; [|done]. by intros ->.
Qed.

(** The CPU-list parser of the CUDA crate, which skips what it cannot read,
    and the strict one of the RDMA crate find the same CPUs in every list the
    strict one accepts. *)
Theorem cpulist_parsers_agree s cpus :
  Numa.parse_cpulist s = Ok cpus → ∀ x, x ∈ parse_cpulist s ↔ x ∈ cpus.
Proof.
  unfold Numa.parse_cpulist, parse_cpulist. destruct s as [|c s]; [by intros [= <-]|].
  destruct (parse_parts (split COMMA (c :: s))) as [l|] eqn:Hp; [|done]. cbn [mbind result_bind].
  intros [= <-] x. rewrite elem_of_sort_dedup.
  assert (∀ parts l, parse_parts parts = Ok l →
    mjoin (parse_piece <$> List.filter (λ p, negb (bool_decide (p = []))) parts) = l) as Hj; [|by rewrite (Hj _ _ Hp)].
  clear. induction parts as [|p parts IH]; intros l; simpl; [by intros [= <-]|].
  destruct (parse_part p) as [a|] eqn:Ha; [|done]. destruct (parse_parts parts) as [b|]; [|done]. intros [= <-].
  destruct (parse_part_piece _ _ Ha) as [Hne Hpiece]. rewrite bool_decide_false by done. csimpl.
  by rewrite Hpiece, (IH b).
Qed.

(** ** Witnesses *)

Definition tp_node0 : bytes * option bytes := (str "node0", Some (str "0-3,8")).
Definition tp_node7 : bytes * option bytes := (str "node7", Some (str "")).
Definition tp_topology : Topology := detect (Some [tp_node0; tp_node7]) 1 (λ _, Some (str "0")) [(1, str "00000008:06:00.0")].

Example tp_nodes : numa_nodes tp_topology = [0] ∧ gpu_numa tp_topology !! 1 = Some 0 ∧
  cpus_by_numa tp_topology !! 0 = Some [0; 1; 2; 3; 8] ∧ normalize_domain (str "00000008:06:00.0") = str "0008:06:00.0".
Proof. vm_compute. done. Qed.

Lemma distance_agrees_witness :
  distance tp_topology (Cpu 0) (Gpu 1) =
  Memory.distance (mkInner (mkAccessInfo "memory" 0 [] Capability_all) [] {[1 := 0]}) (Cpu 0) (Gpu 1).
Proof. apply (distance_agrees tp_topology (mkInner (mkAccessInfo "memory" 0 [] Capability_all) [] {[1 := 0]})). vm_compute. reflexivity. Defined.

Lemma detect_usable_witness : numa_nodes tp_topology ≠ [].
Proof. apply (detect_usable (Some [tp_node0; tp_node7]) 1 (λ _, Some (str "0")) [(1, str "00000008:06:00.0")]). lia. Defined.

Lemma cpulist_parsers_agree_witness : ∀ x, x ∈ parse_cpulist (str "0-3,8") ↔ x ∈ [0; 1; 2; 3; 8].
Proof. apply cpulist_parsers_agree. vm_compute. reflexivity. Defined.
