(* ===== verification/RdmaTopo.v ===== *)
(** * System topology of the RDMA crate: [rdma_topo.rs]

    GPUs and NICs grouped by NUMA node.  The output of [nvidia-smi] and the
    contents of sysfs are arguments; logging is not modelled. *)

From S2P Require Import Prelude Text RcBackend Numa.

Record GpuInfo : Type := mkGpuInfo {
  device_id : u32;
  gpu_pci : bytes;
  gpu_node : u32;
}.

Record RdmaNicInfo : Type := mkNicInfo {
  nic_name : bytes;
  nic_pci : bytes;
  nic_node : u32;
}.

Record NumaGroup : Type := mkNumaGroup {
  grp_node : u32;
  grp_gpus : list GpuInfo;
  grp_nics : list RdmaNicInfo;
  grp_cpus : list usize;
}.

(** ** PCI addresses *)

Definition normalize_pci_addr (addr : bytes) : bytes :=
  let addr := to_lower (trim addr) in
  match length (List.filter (λ c, c =? COLON) addr) with
  | 2%nat =>
      match split_once COLON addr with
      | Some (domain, rest) =>
          if (4 <? length domain)%nat then drop (length domain - 4) domain ++ COLON :: rest else addr
      | None => addr
      end
  | 1%nat => str "0000:" ++ addr
  | _ => addr
  end.

(** [read] gives the contents of a device's [numa_node] file. *)
Definition read_numa_node_sysfs (read : bytes → option bytes) (pci_addr : bytes) : u32 :=
  match read pci_addr with
  | Some s =>
      match parse_i32 (trim s) with
      | Some n => if 0 <=? n then n else UNKNOWN
      | None => UNKNOWN
      end
  | None => UNKNOWN
  end.

(** The PCI components of a canonical sysfs path. *)
Definition get_pcie_path (canonical : option bytes) : list bytes :=
  match canonical with
  | None => []
  | Some p =>
      List.filter (λ s, bool_decide (COLON ∈ s) && bool_decide (46 ∈ s) && negb (starts_with (str "pci") s)) (split 47 p)
  end.

Definition PCIE_GEN_TABLE : list (bytes * bytes) :=
  [(str "2.5", str "1.0"); (str "5.0", str "2.0"); (str "8.0", str "3.0");
   (str "16.0", str "4.0"); (str "32.0", str "5.0"); (str "64.0", str "6.0")].

(** [split_whitespace().next()]. *)
Definition first_token (s : bytes) : bytes := take_while (λ c, negb (is_space c)) (trim_start s).

Definition gts_to_pcie_gen (speed : bytes) : bytes :=
  match List.find (λ e, bool_decide (first_token speed = e.1)) PCIE_GEN_TABLE with
  | Some e => e.2
  | None => str "?"
  end.

(** [speed] and [width] are the contents of the two link files. *)
Definition read_pcie_link_info (speed width : option bytes) : option bytes :=
  speed_raw ← speed;
  width_raw ← width;
  let pcie_gen := gts_to_pcie_gen (trim speed_raw) in
  let width := trim width_raw in
  if bool_decide (pcie_gen = str "?") || bool_decide (width = []) then None
  else Some (str "PCIe " ++ pcie_gen ++ str " x" ++ width).

(** ** Detection *)

(** [sort_by_key]: stable insertion. *)
Fixpoint insert_by {A} (le : A → A → bool) (x : A) (l : list A) : list A :=
  match l with
  | [] => [x]
  | y :: l => if le x y then x :: y :: l else y :: insert_by le x l
  end.

Definition sort_by {A} (le : A → A → bool) (l : list A) : list A := foldr (insert_by le) [] l.

Definition gpu_le (a b : GpuInfo) : bool := device_id a <=? device_id b.
Definition nic_le (a b : RdmaNicInfo) : bool := bytes_leb (nic_name a) (nic_name b).

(** [str::lines]: the pieces that end in a line feed lose a carriage return
    before it; a last piece without one is kept as it is, unless empty. *)
Definition strip_cr (l : bytes) : bytes := match reverse l with 13 :: r => reverse r | _ => l end.

Fixpoint lines_of (pieces : list bytes) : list bytes :=
  match pieces with
  | [] => []
  | [l] => match l with [] => [] | _ => [l] end
  | l :: pieces => strip_cr l :: lines_of pieces
  end.

Definition lines (s : bytes) : list bytes := lines_of (split 10 s).

Fixpoint parse_gpus (read : bytes → option bytes) (ls : list bytes) : list GpuInfo :=
  match ls with
  | [] => []
  | line :: ls =>
      match split_once COMMA line with
      | None => parse_gpus read ls
      | Some (idx_str, addr_str) =>
          match parse_u32 (trim idx_str) with
          | None => parse_gpus read ls
          | Some id =>
              let pci_addr := normalize_pci_addr addr_str in
              mkGpuInfo id pci_addr (read_numa_node_sysfs read pci_addr) :: parse_gpus read ls
          end
      end
  end.

(** [smi] is the output of [nvidia-smi], [None] when it fails. *)
Definition detect_gpus (read : bytes → option bytes) (smi : option bytes) : list GpuInfo :=
  match smi with
  | None => []
  | Some stdout => sort_by gpu_le (parse_gpus read (lines stdout))
  end.

(** A device directory: its name ([None] when it is not UTF-8), the contents of
    its port states, and the last component of its [device] link ([None] when
    there is no link). *)
Record nic_entry : Type := mkNicEntry {
  en_name : option bytes;
  en_ports : option (list (option bytes));
  en_device : option bytes;
}.

Definition nic_has_active_port (ports : option (list (option bytes))) : bool :=
  match ports with
  | None => false
  | Some ps => existsb (λ s, match s with Some s => starts_with (str "4:") (trim_start s) | None => false end) ps
  end.

Fixpoint scan_nics (read : bytes → option bytes) (entries : list nic_entry) : list RdmaNicInfo :=
  match entries with
  | [] => []
  | e :: entries =>
      match en_name e with
      | None => scan_nics read entries
      | Some name =>
          if negb (nic_has_active_port (en_ports e)) then scan_nics read entries else
          match en_device e with
          | None => scan_nics read entries
          | Some [] => scan_nics read entries
          | Some pci_addr => mkNicInfo name pci_addr (read_numa_node_sysfs read pci_addr) :: scan_nics read entries
          end
      end
  end.

(** [dir]: the listing of the device directory, when it exists and is readable. *)
Definition enumerate_rdma_nics (read : bytes → option bytes) (dir : option (list nic_entry)) : list RdmaNicInfo :=
  match dir with
  | None => []
  | Some entries => sort_by nic_le (scan_nics read entries)
  end.

(** [nic_numa_node]; [link] is the last component of the NIC's [device] link. *)
Definition nic_numa_node (read : bytes → option bytes) (link : option bytes) : u32 :=
  match link with
  | None => UNKNOWN
  | Some [] => UNKNOWN
  | Some pci_addr => read_numa_node_sysfs read pci_addr
  end.

(** The [BTreeSet] of node ids, ascending. *)
Definition node_ids (gpus : list GpuInfo) (nics : list RdmaNicInfo) (cpu_topo : gmap u32 (list usize)) : list u32 :=
  sort_dedup (List.filter numa_is_valid (gpu_node <$> gpus) ++ List.filter numa_is_valid (nic_node <$> nics)
              ++ (map_to_list cpu_topo).*1).

Definition make_group (gpus : list GpuInfo) (nics : list RdmaNicInfo) (cpu_topo : gmap u32 (list usize)) (node : u32)
    : NumaGroup :=
  mkNumaGroup node (sort_by gpu_le (List.filter (λ g, gpu_node g =? node) gpus))
    (sort_by nic_le (List.filter (λ n, nic_node n =? node) nics)) (default [] (cpu_topo !! node)).

(** [SystemTopology::detect] on what was detected. *)
Definition detect_groups (gpus : list GpuInfo) (nics : list RdmaNicInfo) (cpu_topo : gmap u32 (list usize))
    : list NumaGroup :=
  make_group gpus nics cpu_topo <$> node_ids gpus nics cpu_topo.

Fixpoint nics_for_gpu (groups : list NumaGroup) (id : u32) : list RdmaNicInfo :=
  match groups with
  | [] => []
  | g :: groups => if existsb (λ x, device_id x =? id) (grp_gpus g) then grp_nics g else nics_for_gpu groups id
  end.

(** ** Properties *)

Lemma insert_by_perm {A} (le : A → A → bool) x l : insert_by le x l ≡ₚ x :: l.
Proof.
  induction l as [|y l IH]; [done|]. simpl. destruct (le x y); [done|]. rewrite IH. constructor.
Qed.

Lemma sort_by_perm {A} (le : A → A → bool) l : sort_by le l ≡ₚ l.
Proof. induction l as [|x l IH]; [done|]. simpl. by rewrite insert_by_perm, IH. Qed.

(** The first group that has the GPU is the group of its node. *)
Lemma nics_for_gpu_find gpus nics cpu_topo nodes g :
  g ∈ gpus → NoDup (device_id <$> gpus) →
  nics_for_gpu (make_group gpus nics cpu_topo <$> nodes) (device_id g) =
  if bool_decide (gpu_node g ∈ nodes) then grp_nics (make_group gpus nics cpu_topo (gpu_node g)) else [].
Proof.
  intros Hin Hnd.
  assert (∀ node, existsb (λ x, device_id x =? device_id g) (grp_gpus (make_group gpus nics cpu_topo node)) = (gpu_node g =? node)) as Hex.
  { intros node. simpl. destruct (Z.eqb_spec (gpu_node g) node) as [Heq|Hne].
    - apply existsb_exists. exists g. rewrite <- list_elem_of_In, sort_by_perm, list_elem_of_In, filter_In, <- list_elem_of_In.
      split; [split; [done|by apply Z.eqb_eq]|by apply Z.eqb_refl].
    - apply not_true_iff_false. intros (x & Hx & Hid)%existsb_exists.
      rewrite <- list_elem_of_In, sort_by_perm, list_elem_of_In, filter_In, <- list_elem_of_In in Hx.
      destruct Hx as [Hx Hnode]. apply Z.eqb_eq in Hid, Hnode. apply Hne.
      assert (x = g) as ->; [|done].
      apply list_elem_of_lookup in Hin as [i Hi]. apply list_elem_of_lookup in Hx as [j Hj].
      assert (i = j) as ->; [|congruence].
      apply (NoDup_lookup (device_id <$> gpus) i j (device_id g)); [done|by rewrite list_lookup_fmap, Hi|].
      rewrite list_lookup_fmap, Hj. simpl. by rewrite Hid. }
  induction nodes as [|node nodes IH]; [done|]. rewrite fmap_cons. cbn [nics_for_gpu]. rewrite Hex.
  destruct (Z.eqb_spec (gpu_node g) node) as [->|Hne].
  - by rewrite bool_decide_true by left.
  - rewrite IH. case_bool_decide as H1; case_bool_decide as H2; try done.
    + destruct H2. by right.
    + by apply elem_of_cons in H2 as [?|?].
Qed.

(** [nics_for_gpu] returns exactly the NICs on the GPU's NUMA node (each once),
    whatever other groups there are, and none when the GPU's node is unknown or
    the GPU was not detected. *)
Theorem nics_for_gpu_colocated gpus nics cpu_topo id :
  NoDup (device_id <$> gpus) → Forall (λ n, numa_is_valid n = true) ((map_to_list cpu_topo).*1) →
  (∀ g, g ∈ gpus → device_id g = id → numa_is_valid (gpu_node g) = true →
     nics_for_gpu (detect_groups gpus nics cpu_topo) id ≡ₚ List.filter (λ n, nic_node n =? gpu_node g) nics) ∧
  ((∀ g, g ∈ gpus → device_id g = id → numa_is_valid (gpu_node g) = false) →
     nics_for_gpu (detect_groups gpus nics cpu_topo) id = []).
Proof.
  intros Hnd Hcpu. unfold detect_groups.
  assert (∀ n, n ∈ node_ids gpus nics cpu_topo → numa_is_valid n = true) as Hvalid.
  { intros n. unfold node_ids. rewrite elem_of_sort_dedup, !elem_of_app.
    intros [Hn|[Hn|Hn]]; [apply list_elem_of_In, filter_In in Hn; tauto|apply list_elem_of_In, filter_In in Hn; tauto|].
    rewrite Forall_forall in Hcpu. by apply Hcpu. }
  split.
  - intros g Hg <- Hv. rewrite nics_for_gpu_find by done. rewrite bool_decide_true; [simpl; apply sort_by_perm|].
    unfold node_ids. rewrite elem_of_sort_dedup, elem_of_app. left. apply list_elem_of_In, filter_In.
    rewrite <- list_elem_of_In. split; [by apply list_elem_of_fmap_2|done].
  - intros Hno. destruct (decide (id ∈ device_id <$> gpus)) as [Hin|Hin].
    + apply list_elem_of_fmap in Hin as (g & -> & Hg). rewrite nics_for_gpu_find by done.
      rewrite bool_decide_false; [done|]. intros Hn%Hvalid. rewrite (Hno g) in Hn by done. done.
    + clear Hno Hvalid. induction (node_ids gpus nics cpu_topo) as [|node nodes IH]; [done|]. rewrite fmap_cons. cbn [nics_for_gpu].
      replace (existsb _ _) with false; [done|]. symmetry. apply not_true_iff_false.
      intros (x & Hx & Hid)%existsb_exists. simpl in Hx.
      rewrite <- list_elem_of_In, sort_by_perm, list_elem_of_In, filter_In, <- list_elem_of_In in Hx.
      apply Hin. apply Z.eqb_eq in Hid as <-. apply list_elem_of_fmap_2. tauto.
Qed.

(** ** Examples *)

Definition rt_read (pci : bytes) : option bytes :=
  if bool_decide (pci = str "0000:19:00.0") then Some (str "1") else Some (str "-1").
Definition rt_gpus : list GpuInfo := detect_gpus rt_read (Some (str "0, 00000000:19:00.0")).
Definition rt_nics : list RdmaNicInfo :=
  enumerate_rdma_nics rt_read (Some
    [mkNicEntry (Some (str "mlx5_1")) (Some [Some (str "4: ACTIVE")]) (Some (str "0000:19:00.0"));
     mkNicEntry (Some (str "mlx5_0")) (Some [Some (str "1: DOWN")]) (Some (str "0000:19:00.0"))]).

Example rt_detects :
  rt_gpus = [mkGpuInfo 0 (str "0000:19:00.0") 1] ∧ rt_nics = [mkNicInfo (str "mlx5_1") (str "0000:19:00.0") 1] ∧
  normalize_pci_addr (str "  00000000:2A:00.0 ") = str "0000:2a:00.0" ∧ normalize_pci_addr (str "19:00.0") = str "0000:19:00.0" ∧
  gts_to_pcie_gen (str "16.0 GT/s PCIe") = str "4.0" ∧
  read_pcie_link_info (Some (str "16.0 GT/s PCIe")) (Some (str "16")) = Some (str "PCIe 4.0 x16").
Proof. vm_compute. done. Qed.

Lemma nics_for_gpu_colocated_witness :
  nics_for_gpu (detect_groups rt_gpus rt_nics {[1 := [0; 1]]}) 0 ≡ₚ rt_nics.
Proof.
  apply (nics_for_gpu_colocated rt_gpus rt_nics {[1 := [0; 1]]} 0) with (g := mkGpuInfo 0 (str "0000:19:00.0") 1).
  - change rt_gpus with [mkGpuInfo 0 (str "0000:19:00.0") 1]. apply NoDup_singleton.
  - rewrite map_to_list_singleton. by repeat constructor.
  - vm_compute. left.
  - reflexivity.
  - reflexivity.
Defined.
