(* ===== verification/TopoSummary.v ===== *)
(** * The topology report: [SystemTopology::log_summary], [rdma_topo.rs]

    The lines it logs.  [canon] resolves a PCI address to its canonical sysfs
    path, [link] reads the two link files of a device. *)

From S2P Require Import Prelude Text Numa RdmaTopo.

Section Summary.
Context `{BuildProfile} (canon : bytes → option bytes) (link : bytes → option bytes * option bytes).

Definition format_pci_device (name pci_addr : bytes) : bytes :=
  match read_pcie_link_info (link pci_addr).1 (link pci_addr).2 with
  | Some l => name ++ str " (" ++ pci_addr ++ str ", " ++ l ++ str ")"
  | None => name ++ str " (" ++ pci_addr ++ str ")"
  end.

(** The root of a device: the first PCI component of its path. *)
Definition pcie_root (pci_addr : bytes) : bytes := default (str "?") (head (get_pcie_path (canon pci_addr))).

(** [by_root.entry(root).or_default().push(label)]. *)
Definition push_device (m : gmap bytes (list bytes)) (d : bytes * bytes) : gmap bytes (list bytes) :=
  <[d.1 := default [] (m !! d.1) ++ [d.2]]> m.

(** The devices in the order they are entered: GPUs with an address, then NICs. *)
Definition tree_devices (g : NumaGroup) : list (bytes * bytes) :=
  ((λ x, (pcie_root (gpu_pci x), format_pci_device (str "GPU " ++ display (device_id x)) (gpu_pci x))) <$>
     List.filter (λ x, negb (bool_decide (gpu_pci x = []))) (grp_gpus g)) ++
  ((λ n, (pcie_root (nic_pci n), format_pci_device (nic_name n) (nic_pci n))) <$> grp_nics g).

Definition pcie_tree (g : NumaGroup) : gmap bytes (list bytes) := foldl push_device ∅ (tree_devices g).

Definition log_pcie_tree (g : NumaGroup) : list bytes :=
  let by_root := pcie_tree g in
  if decide (by_root = ∅) then []
  else str "  PCIe:" :: ((λ root, str "    [" ++ root ++ str "] " ++ join_with (str ", ") (default [] (by_root !! root))) <$>
         merge_sort (λ a b, Is_true (bytes_leb a b)) ((map_to_list by_root).*1)).

Definition log_group (g : NumaGroup) : outcome (list bytes) :=
  cpus ← (if decide (grp_cpus g = []) then Ret (str "  CPUs: (none)")
          else l ← format_cpu_list (grp_cpus g); Ret (str "  CPUs: " ++ l));
  Ret ([numa_display (grp_node g) ++ str ":";
        if decide (grp_gpus g = []) then str "  GPUs: (none)"
        else str "  GPUs: " ++ join_with (str ", ") ((λ x, display (device_id x)) <$> grp_gpus g);
        if decide (grp_nics g = []) then str "  NICs: (none)"
        else str "  NICs: " ++ join_with (str ", ") ((λ n, nic_name n ++ str " (" ++ nic_pci n ++ str ")") <$> grp_nics g);
        cpus] ++ log_pcie_tree g ++ [[]]).

Fixpoint log_groups (gs : list NumaGroup) : outcome (list bytes) :=
  match gs with
  | [] => Ret []
  | g :: gs => l ← log_group g; ls ← log_groups gs; Ret (l ++ ls)
  end.

Definition log_summary (groups : list NumaGroup) : outcome (list bytes) :=
  ls ← log_groups groups;
  Ret ([str "=== PegaFlow System Topology ==="; []] ++ ls).

(** Each root has exactly its devices, in order. *)
Lemma pcie_tree_exact g root :
  default [] (pcie_tree g !! root) = (List.filter (λ d, bool_decide (d.1 = root)) (tree_devices g)).*2.
Proof.
  unfold pcie_tree. rewrite <- (app_nil_l (_.*2)). change [] with (default [] ((∅ : gmap bytes (list bytes)) !! root)) at 2.
  generalize (∅ : gmap bytes (list bytes)) as m. induction (tree_devices g) as [|d ds IH]; intros m; simpl.
  { by rewrite app_nil_r. }
  rewrite IH. unfold push_device. destruct (decide (d.1 = root)) as [<-|Hne].
  - rewrite lookup_insert_eq, bool_decide_eq_true_2 by done. simpl. by rewrite <- (assoc_L (++)).
  - by rewrite lookup_insert_ne, bool_decide_eq_false_2 by done.
Qed.

(** No device is lost: every GPU with an address and every NIC is in the tree. *)
Lemma pcie_tree_complete g d : d ∈ tree_devices g → d.2 ∈ default [] (pcie_tree g !! d.1).
Proof.
  intros Hd. rewrite pcie_tree_exact. apply list_elem_of_fmap_2. apply list_elem_of_In, List.filter_In.
  split; [by apply list_elem_of_In|]. by apply bool_decide_eq_true.
Qed.
End Summary.

Example summary_lines :
  log_summary (H := true) (λ _, Some (str "/sys/devices/pci0000:15/0000:15:01.0/0000:19:00.0")) (λ _, (Some (str "32.0 GT/s PCIe"), Some (str "16")))
    [mkNumaGroup 0 [mkGpuInfo 0 (str "0000:19:00.0") 0] [] [0; 1; 2]] =
  Ret [str "=== PegaFlow System Topology ==="; []; str "NUMA0:"; str "  GPUs: 0"; str "  NICs: (none)"; str "  CPUs: 0-2";
       str "  PCIe:"; str "    [0000:15:01.0] GPU 0 (0000:19:00.0, PCIe 5.0 x16)"; []].
Proof. vm_compute. reflexivity. Qed.

(** ** [NumaTopology::log_summary], [numa.rs] *)

Definition display_i32 (n : Z) : bytes := if n <? 0 then str "-" ++ display (- n) else display n.

Definition numa_log_summary (t : NumaTopology) : list bytes :=
  [str "=== GPU-NUMA Topology ==="; str "NUMA nodes: " ++ display (Z.of_nat (num_nodes t))] ++
  (if decide (gpu_numa_map t = ∅) then [str "No GPU NUMA affinity detected (nvidia-smi unavailable?)"]
   else (λ dev, str "  GPU " ++ display_i32 dev ++ str " -> " ++ numa_display (numa_for_gpu t dev)) <$>
          merge_sort Z.le ((map_to_list (gpu_numa_map t)).*1)).

(** A line per GPU with a known node, or the warning. *)
Lemma numa_summary_lines t : length (numa_log_summary t) = (2 + Nat.max 1 (size (gpu_numa_map t)))%nat.
Proof.
  unfold numa_log_summary. rewrite length_app. cbn [length]. f_equal. case_decide as He; [by rewrite He, map_size_empty|].
  rewrite length_fmap, merge_sort_Permutation, length_fmap, length_map_to_list. apply map_size_non_empty_iff in He. lia.
Qed.

Example numa_summary_example :
  numa_log_summary (mkNumaTopology {[1 := 0; 0 := 0]} [0; 1]) =
  [str "=== GPU-NUMA Topology ==="; str "NUMA nodes: 2"; str "  GPU 0 -> NUMA0"; str "  GPU 1 -> NUMA0"].
Proof. by vm_compute. Qed.
