(* ===== verification/SplitMix.v ===== *)
(** * [SimpleRng] of [examples/cpu_bench.rs]

    SplitMix64 on 64-bit words.  Every step of the mixing is invertible, so a
    full period of 2^64 draws yields every word exactly once. *)

From S2P Require Import Prelude.

Definition wrapping_mul (a b : u64) : u64 := (a * b) mod 2 ^ 64.

Record SimpleRng : Type := mkRng { rng_state : u64 }.

Definition rng_new (seed : u64) : SimpleRng := mkRng (wrapping_add seed 1).

Definition GAMMA : u64 := 0x9e3779b97f4a7c15.
Definition MIX1 : u64 := 0xbf58476d1ce4e5b9.
Definition MIX2 : u64 := 0x94d049bb133111eb.

Definition next_u64 (r : SimpleRng) : SimpleRng * u64 :=
  let state := wrapping_add (rng_state r) GAMMA in
  let z := state in
  let z := wrapping_mul (Z.lxor z (Z.shiftr z 30)) MIX1 in
  let z := wrapping_mul (Z.lxor z (Z.shiftr z 27)) MIX2 in
  (mkRng state, Z.lxor z (Z.shiftr z 31)).

(** The first word of SplitMix64 from the zero state. *)
Example next_u64_zero : (next_u64 (mkRng 0)).2 = 0xe220a8397b1dcdaf.
Proof. reflexivity. Qed.

(** [range]: the remainder of a draw, [lo] itself without one. *)
Definition range `{BuildProfile} (lo hi : usize) (r : SimpleRng) : outcome (SimpleRng * usize) :=
  if lo =? hi then Ret (r, lo) else
  d ← u64_sub hi lo;
  span ← u64_add d 1;
  let '(r, x) := next_u64 r in
  if span =? 0 then Panicked else
  v ← u64_add lo (x mod span);
  Ret (r, v).

(** ** The mixing is a permutation of the words *)

Definition xorshift (k z : Z) : Z := Z.lxor z (Z.shiftr z k).
Definition unxorshift (k y : Z) : Z := Z.lxor (Z.lxor y (Z.shiftr y k)) (Z.shiftr y (2 * k)).

Lemma is_u64_bits z : is_u64 z ↔ 0 <= z ∧ ∀ i, 64 <= i → Z.testbit z i = false.
Proof.
  unfold is_u64, U64_MAX. split.
  - intros Hz. split; [lia|]. intros i Hi. destruct (decide (z = 0)) as [->|Hz0]; [apply Z.bits_0|].
    apply Z.bits_above_log2; [lia|]. apply Z.log2_lt_pow2; [lia|]. apply Z.lt_le_trans with (2 ^ 64); [lia|].
    apply Z.pow_le_mono_r; lia.
  - intros [H0 Hb]. split; [done|]. assert (z mod 2 ^ 64 = z) as Hm.
    { apply Z.bits_inj'. intros i Hi. destruct (decide (i < 64)); [by apply Z.mod_pow2_bits_low; lia|].
      rewrite Z.mod_pow2_bits_high by lia. symmetry. apply Hb. lia. }
    pose proof (Z.mod_pos_bound z (2 ^ 64)). lia.
Qed.

Lemma lxor_u64 a b : is_u64 a → is_u64 b → is_u64 (Z.lxor a b).
Proof.
  intros [Ha Ba]%is_u64_bits [Hb Bb]%is_u64_bits. apply is_u64_bits. split; [by apply Z.lxor_nonneg|].
  intros i Hi. by rewrite Z.lxor_spec, Ba, Bb.
Qed.

Lemma shiftr_u64 k z : 0 <= k → is_u64 z → is_u64 (Z.shiftr z k).
Proof.
  intros Hk [Hz Bz]%is_u64_bits. apply is_u64_bits. split; [by apply Z.shiftr_nonneg|].
  intros i Hi. rewrite Z.shiftr_spec by lia. apply Bz. lia.
Qed.

Lemma shiftr_u64_all k z : 64 <= k → is_u64 z → Z.shiftr z k = 0.
Proof.
  intros Hk [Hz Bz]%is_u64_bits. apply Z.bits_inj'. intros i Hi. rewrite Z.shiftr_spec, Z.bits_0 by lia. apply Bz. lia.
Qed.

Lemma xorshift_u64 k z : 0 <= k → is_u64 z → is_u64 (xorshift k z).
Proof. intros. apply lxor_u64; [done|by apply shiftr_u64]. Qed.

Lemma unxorshift_u64 k z : 0 <= k → is_u64 z → is_u64 (unxorshift k z).
Proof. intros. apply lxor_u64; [apply lxor_u64|]; try apply shiftr_u64; done || lia. Qed.

(** Three terms undo the shift: the next one is shifted out of the word. *)
Lemma xorshift_inv k z : 22 <= k → is_u64 z → xorshift k (unxorshift k z) = z.
Proof.
  intros Hk Hz. unfold xorshift, unxorshift. rewrite !Z.shiftr_lxor, !Z.shiftr_shiftr by lia.
  rewrite (shiftr_u64_all (2 * k + k)) by (done || lia). replace (k + k) with (2 * k) by lia.
  apply Z.bits_inj'. intros i _. rewrite !Z.lxor_spec, Z.bits_0.
  destruct (Z.testbit z i), (Z.testbit (Z.shiftr z k) i), (Z.testbit (Z.shiftr z (2 * k)) i); done.
Qed.

Lemma unxorshift_inv k z : 22 <= k → is_u64 z → unxorshift k (xorshift k z) = z.
Proof.
  intros Hk Hz. unfold xorshift, unxorshift. rewrite !Z.shiftr_lxor, !Z.shiftr_shiftr by lia.
  rewrite (shiftr_u64_all (k + 2 * k)) by (done || lia). replace (k + k) with (2 * k) by lia.
  apply Z.bits_inj'. intros i _. rewrite !Z.lxor_spec, Z.bits_0.
  destruct (Z.testbit z i), (Z.testbit (Z.shiftr z k) i), (Z.testbit (Z.shiftr z (2 * k)) i); done.
Qed.

Lemma wrap_u64 v : is_u64 (v mod 2 ^ 64).
Proof. pose proof (Z.mod_pos_bound v (2 ^ 64)). unfold is_u64, U64_MAX. lia. Qed.

Lemma u64_mod z : is_u64 z → z mod 2 ^ 64 = z.
Proof. unfold is_u64, U64_MAX. intros. apply Z.mod_small. lia. Qed.

(** Odd factors have an inverse. *)
Lemma wrapping_mul_inv c d z : wrapping_mul c d = 1 → is_u64 z → wrapping_mul (wrapping_mul z c) d = z.
Proof.
  unfold wrapping_mul. intros Hcd Hz. rewrite Z.mul_mod_idemp_l, <- Z.mul_assoc, <- Z.mul_mod_idemp_r, Hcd, Z.mul_1_r by lia.
  by apply u64_mod.
Qed.

Definition GAMMA_INV : u64 := 0xf1de83e19937733d.
Definition MIX1_INV : u64 := 0x96de1b173f119089.
Definition MIX2_INV : u64 := 0x319642b2d24d8ec3.

Definition mix (z : u64) : u64 := xorshift 31 (wrapping_mul (xorshift 27 (wrapping_mul (xorshift 30 z) MIX1)) MIX2).
Definition unmix (y : u64) : u64 :=
  unxorshift 30 (wrapping_mul (unxorshift 27 (wrapping_mul (unxorshift 31 y) MIX2_INV)) MIX1_INV).

Lemma mix_u64 z : is_u64 (mix z).
Proof. apply xorshift_u64; [lia|]. apply wrap_u64. Qed.

Lemma unmix_u64 y : is_u64 (unmix y).
Proof. apply unxorshift_u64; [lia|]. apply wrap_u64. Qed.

Lemma mix_unmix y : is_u64 y → mix (unmix y) = y.
Proof.
  intros Hy. unfold mix, unmix. rewrite (xorshift_inv 30) by (lia || apply wrap_u64).
  rewrite (wrapping_mul_inv MIX1_INV MIX1); [|done|apply unxorshift_u64; [lia|apply wrap_u64]].
  rewrite (xorshift_inv 27) by (lia || apply wrap_u64).
  rewrite (wrapping_mul_inv MIX2_INV MIX2); [|done|by apply unxorshift_u64]. by apply xorshift_inv.
Qed.

Lemma unmix_mix z : is_u64 z → unmix (mix z) = z.
Proof.
  intros Hz. unfold mix, unmix. rewrite (unxorshift_inv 31) by (lia || apply wrap_u64).
  rewrite (wrapping_mul_inv MIX2 MIX2_INV); [|done|apply xorshift_u64; [lia|apply wrap_u64]].
  rewrite (unxorshift_inv 27) by (lia || apply wrap_u64).
  rewrite (wrapping_mul_inv MIX1 MIX1_INV); [|done|by apply xorshift_u64]. by apply unxorshift_inv.
Qed.

(** ** Draws *)

Definition advance (k : Z) (r : SimpleRng) : SimpleRng := Nat.iter (Z.to_nat k) (λ r, (next_u64 r).1) r.

Lemma next_u64_mix r : next_u64 r = (mkRng (wrapping_add (rng_state r) GAMMA), mix (wrapping_add (rng_state r) GAMMA)).
Proof. done. Qed.

Lemma next_u64_is_u64 r : is_u64 (next_u64 r).2.
Proof. apply mix_u64. Qed.

Lemma advance_state k r : 0 <= k → is_u64 (rng_state r) → rng_state (advance k r) = (rng_state r + k * GAMMA) mod 2 ^ 64.
Proof.
  intros Hk Hr. unfold advance. rewrite <- (Z2Nat.id k) at 2 by done. induction (Z.to_nat k) as [|n IH].
  - simpl. by rewrite Z.add_0_r, u64_mod.
  - cbn [Nat.iter nat_rect]. unfold Nat.iter in IH. rewrite next_u64_mix. cbn [fst rng_state]. rewrite IH. unfold wrapping_add.
    rewrite Z.add_mod_idemp_l by lia. f_equal. lia.
Qed.

(** The draw after [k] others. *)
Lemma advance_draw k r :
  0 <= k → is_u64 (rng_state r) → (next_u64 (advance k r)).2 = mix ((rng_state r + (k + 1) * GAMMA) mod 2 ^ 64).
Proof.
  intros Hk Hr. rewrite next_u64_mix. cbn [snd]. rewrite advance_state by done. unfold wrapping_add.
  rewrite Z.add_mod_idemp_l by lia. do 2 f_equal. lia.
Qed.

(** Every word comes up within a period ... *)
Lemma word_reached r y : is_u64 (rng_state r) → is_u64 y → ∃ k, 0 <= k < 2 ^ 64 ∧ (next_u64 (advance k r)).2 = y.
Proof.
  intros Hr Hy. set (k := ((unmix y - rng_state r) * GAMMA_INV - 1) mod 2 ^ 64).
  assert (0 <= k < 2 ^ 64) as Hk by (apply Z.mod_pos_bound; lia). exists k.
  split; [done|]. rewrite advance_draw by (done || lia).
  enough ((rng_state r + (k + 1) * GAMMA) mod 2 ^ 64 = unmix y) as -> by (by apply mix_unmix).
  rewrite <- Z.add_mod_idemp_r, <- (Z.mul_mod_idemp_l (k + 1)) by lia. unfold k. rewrite Z.add_mod_idemp_l by lia.
  rewrite Z.mul_mod_idemp_l, Z.add_mod_idemp_r by lia.
  replace (rng_state r + ((unmix y - rng_state r) * GAMMA_INV - 1 + 1) * GAMMA)
    with (unmix y + (unmix y - rng_state r) * (GAMMA_INV * GAMMA / 2 ^ 64) * 2 ^ 64).
  - rewrite Z_mod_plus_full. apply u64_mod, unmix_u64.
  - assert (GAMMA_INV * GAMMA = GAMMA_INV * GAMMA / 2 ^ 64 * 2 ^ 64 + 1) as Hg by done. nia.
Qed.

(** ... at a place the word determines. *)
Lemma word_place r k :
  is_u64 (rng_state r) → 0 <= k < 2 ^ 64 →
  k = ((unmix (next_u64 (advance k r)).2 - rng_state r) * GAMMA_INV - 1) mod 2 ^ 64.
Proof.
  intros Hr Hk. rewrite advance_draw, unmix_mix by (apply wrap_u64 || lia || done).
  set (a := rng_state r + (k + 1) * GAMMA). rewrite (Z.mod_eq a) by lia.
  replace ((a - 2 ^ 64 * (a / 2 ^ 64) - rng_state r) * GAMMA_INV - 1)
    with (k + ((k + 1) * (GAMMA * GAMMA_INV / 2 ^ 64) - a / 2 ^ 64 * GAMMA_INV) * 2 ^ 64).
  - rewrite Z_mod_plus_full. symmetry. by apply Z.mod_small.
  - assert (GAMMA * GAMMA_INV = GAMMA * GAMMA_INV / 2 ^ 64 * 2 ^ 64 + 1) as Hg by done.
    generalize (a / 2 ^ 64). unfold a. intros q. clear -Hg. nia.
Qed.

(** C35: [next_u64] has full period: from any state, within 2^64 draws every
    64-bit word comes up exactly once. *)
Theorem rng_full_period r y :
  is_u64 (rng_state r) → is_u64 y → exists! k, 0 <= k < 2 ^ 64 ∧ (next_u64 (advance k r)).2 = y.
Proof.
  intros Hr Hy. destruct (word_reached r y Hr Hy) as (k & Hk & Hd). exists k. split; [done|].
  intros k' [Hk' Hd']. rewrite (word_place r k Hr Hk), (word_place r k' Hr Hk'). congruence.
Qed.

Lemma rng_full_period_witness : exists! k, 0 <= k < 2 ^ 64 ∧ (next_u64 (advance k (rng_new 0x42))).2 = 7.
Proof. apply rng_full_period; [apply wrap_u64|by split]. Defined.

(** A draw within [range] is in the interval, and needs no wider arithmetic. *)
Lemma range_in `{BuildProfile} lo hi r :
  0 <= lo <= hi → hi - lo < U64_MAX → hi <= U64_MAX →
  ∃ r' v, range lo hi r = Ret (r', v) ∧ lo <= v <= hi ∧
    (lo = hi → r' = r) ∧ (lo < hi → r' = (next_u64 r).1 ∧ v = lo + (next_u64 r).2 mod (hi - lo + 1)).
Proof.
  intros Hlo Hspan Hhi. unfold range. destruct (Z.eqb_spec lo hi) as [->|Hne].
  { exists r, hi. split_and!; [done|lia|lia|done|lia]. }
  rewrite u64_sub_ok by (unfold is_u64; lia). cbn [mbind outcome_bind]. rewrite u64_add_ok by (unfold is_u64; lia).
  cbn [mbind outcome_bind]. destruct (next_u64 r) as [r' x]. cbn [fst snd]. rewrite (proj2 (Z.eqb_neq _ 0)) by lia.
  pose proof (Z.mod_pos_bound x (hi - lo + 1) ltac:(lia)). rewrite u64_add_ok by (unfold is_u64; lia).
  cbn [mbind outcome_bind]. eexists r', _. split; [done|]. split; [lia|]. split; [lia|]. done.
Qed.
