(* ===== verification/BenchBlocks.v ===== *)
(** * Tasks of the CPU benchmark: [examples/cpu_bench.rs]

    The schedule of block counts and the scatter list of a task.  Blocks are
    drawn until enough are found, those already drawn rejected; the loop has no
    bound in the source.  [pick_loop] has fuel, and [pick_loop_ends] shows that
    it returns: the generator reaches every block within a period. *)

From S2P Require Import Prelude RegMap Session RcBackend RcBatch SplitMix.

Section Blocks.
Context `{BuildProfile}.

Definition u64_mul (a b : u64) : outcome u64 := u64_wrap (a * b).

(** [generate_task_schedule]. *)
Fixpoint draw_counts (n : nat) (lo hi : usize) (r : SimpleRng) : outcome (list usize) :=
  match n with
  | O => Ret []
  | S n => '(r, x) ← range lo hi r; xs ← draw_counts n lo hi r; Ret (x :: xs)
  end.

Definition generate_task_schedule (total_tasks : nat) (block_range : usize * usize) (seed : u64) : outcome (list usize) :=
  draw_counts total_tasks block_range.1 block_range.2 (rng_new seed).

(** The [while] of [build_random_block_scatter]; [None] when the fuel runs out.
    [seen.insert] is not reached when a task has more blocks than the pool. *)
Fixpoint pick_loop (fuel : nat) (nblocks pool_blocks : usize) (seen : gset Z) (picked : list usize) (r : SimpleRng)
    : outcome (option (list usize * SimpleRng)) :=
  match fuel with
  | O => Ret None
  | S fuel =>
      if Z.of_nat (length picked) <? nblocks then
        last ← u64_sub pool_blocks 1;
        '(r, idx) ← range 0 last r;
        if pool_blocks <? nblocks then pick_loop fuel nblocks pool_blocks seen (picked ++ [idx]) r
        else if decide (idx ∈ seen) then pick_loop fuel nblocks pool_blocks seen picked r
        else pick_loop fuel nblocks pool_blocks ({[idx]} ∪ seen) (picked ++ [idx]) r
      else Ret (Some (picked, r))
  end.

Definition block_desc (local_base : u64) (remote : RegionDescriptor) (block_size idx : usize) : outcome TransferDesc :=
  off ← u64_mul idx block_size;
  l ← u64_add local_base off;
  rem ← u64_add (rd_addr remote) off;
  Ret (mkTransferDesc l rem block_size remote).

Fixpoint block_descs (local_base : u64) (remote : RegionDescriptor) (block_size : usize) (idxs : list usize)
    : outcome (list TransferDesc) :=
  match idxs with
  | [] => Ret []
  | idx :: idxs =>
      d ← block_desc local_base remote block_size idx;
      ds ← block_descs local_base remote block_size idxs;
      Ret (d :: ds)
  end.

Definition build_random_block_scatter (fuel : nat) (local_base : u64) (remote : RegionDescriptor)
    (nblocks block_size pool_blocks : usize) (r : SimpleRng) : outcome (option (list TransferDesc * SimpleRng)) :=
  o ← pick_loop fuel nblocks pool_blocks ∅ [] r;
  match o with
  | None => Ret None
  | Some (idxs, r) => ds ← block_descs local_base remote block_size idxs; Ret (Some (ds, r))
  end.

(** ** The schedule *)

Definition rng_ok (r : SimpleRng) : Prop := is_u64 (rng_state r).

Lemma rng_new_ok seed : rng_ok (rng_new seed).
Proof. apply wrap_u64. Qed.

Lemma range_rng_ok lo hi r :
  0 <= lo <= hi → hi - lo < U64_MAX → hi <= U64_MAX → rng_ok r →
  ∃ r' v, range lo hi r = Ret (r', v) ∧ lo <= v <= hi ∧ rng_ok r'.
Proof.
  intros Hlo Hs Hhi Hr. destruct (range_in lo hi r) as (r' & v & Hg & Hv & Heq & Hlt); [done..|].
  exists r', v. split; [done|]. split; [done|]. destruct (decide (lo = hi)) as [He|He]; [by rewrite Heq|].
  destruct Hlt as [-> _]; [lia|]. apply wrap_u64.
Qed.

Lemma draw_counts_ok n lo hi r :
  0 <= lo <= hi → hi - lo < U64_MAX → hi <= U64_MAX → rng_ok r →
  ∃ xs, draw_counts n lo hi r = Ret xs ∧ length xs = n ∧ Forall (λ x, lo <= x <= hi) xs.
Proof.
  intros Hlo Hs Hhi. revert r. induction n as [|n IH]; intros r Hr; [by exists []|]. cbn [draw_counts].
  destruct (range_rng_ok lo hi r) as (r' & v & -> & Hv & Hr'); [done..|]. cbn [mbind outcome_bind].
  destruct (IH r' Hr') as (xs & -> & Hl & Hall). cbn [mbind outcome_bind]. exists (v :: xs). split; [done|].
  split; [by f_equal/=|by constructor].
Qed.

(** ** Drawing blocks ends *)

(** More fuel does not change a result. *)
Lemma pick_loop_more fuel fuel' nblocks pool_blocks seen picked r x :
  pick_loop fuel nblocks pool_blocks seen picked r = Ret (Some x) → (fuel <= fuel')%nat →
  pick_loop fuel' nblocks pool_blocks seen picked r = Ret (Some x).
Proof.
  revert fuel' seen picked r. induction fuel as [|fuel IH]; intros fuel' seen picked r Hp Hle; [done|].
  destruct fuel' as [|fuel']; [lia|]. cbn [pick_loop] in *. destruct (_ <? nblocks); [|done].
  destruct (u64_sub pool_blocks 1) as [last| |]; [|done|done]. cbn [mbind outcome_bind] in *.
  destruct (range 0 last r) as [[r' idx]| |]; [|done|done]. cbn [mbind outcome_bind] in *.
  destruct (pool_blocks <? nblocks); [|case_decide]; (apply IH; [done|lia]).
Qed.

(** Some block has not been drawn while fewer than [pool_blocks] have. *)
Lemma fresh_block (picked : list Z) n :
  NoDup picked → Z.of_nat (length picked) < n → ∃ j, 0 <= j < n ∧ j ∉ picked.
Proof.
  intros Hnd Hlt. destruct (decide (Exists (λ j, j ∉ picked) (seqZ 0 n))) as [He|He].
  - apply Exists_exists in He as (j & Hj & Hn). apply elem_of_seqZ in Hj. exists j. split; [lia|done].
  - apply not_Exists_Forall in He; [|apply _]. exfalso.
    assert (seqZ 0 n ⊆+ picked) as Hsub.
    { apply NoDup_submseteq; [apply NoDup_seqZ|]. intros j Hj. rewrite Forall_forall in He. specialize (He j Hj). by apply dec_stable. }
    apply submseteq_length in Hsub. rewrite length_seqZ in Hsub. lia.
Qed.

(** Within a period the generator draws any given block. *)
Lemma draw_reaches r n j :
  rng_ok r → 0 <= j < n → n <= 2 ^ 64 →
  ∃ k : nat, Z.of_nat k < 2 ^ 64 ∧ (next_u64 (Nat.iter k (λ r, (next_u64 r).1) r)).2 mod n = j.
Proof.
  intros Hr Hj Hn. destruct (word_reached r j Hr) as (k & Hk & Hd); [unfold is_u64, U64_MAX; lia|].
  exists (Z.to_nat k). split; [lia|]. unfold advance in Hd. rewrite Hd. apply Z.mod_small. lia.
Qed.

(** A loop invariant when blocks are distinct. *)
Record picking (nblocks pool_blocks : usize) (seen : gset Z) (picked : list usize) (r : SimpleRng) : Prop := mkPicking {
  pk_seen x : x ∈ seen ↔ x ∈ picked;
  pk_nodup : NoDup picked;
  pk_range : Forall (λ x, 0 <= x < pool_blocks) picked;
  pk_rng : rng_ok r;
}.

Lemma picking_push nblocks pool_blocks seen picked r r' idx :
  picking nblocks pool_blocks seen picked r → idx ∉ seen → 0 <= idx < pool_blocks → rng_ok r' →
  picking nblocks pool_blocks ({[idx]} ∪ seen) (picked ++ [idx]) r'.
Proof.
  intros [Hs Hnd Hr _] Hni Hi Hr'. constructor; [|apply NoDup_app; split; [done|]|by apply Forall_app; split; [|constructor]|done].
  - intros x. rewrite elem_of_union, elem_of_singleton, elem_of_app, list_elem_of_singleton, Hs. tauto.
  - split; [|apply NoDup_singleton]. intros x Hx ->%list_elem_of_singleton. by apply Hni, Hs.
Qed.

(** The loop moves on: from [(seen, picked, r)], [n] iterations later it has one
    block more. *)
Definition moves_on (n : nat) (nblocks pool_blocks : usize) (seen : gset Z) (picked : list usize) (r : SimpleRng) : Prop :=
  ∃ seen' idx r', picking nblocks pool_blocks seen' (picked ++ [idx]) r' ∧
    ∀ fuel, pick_loop (n + fuel) nblocks pool_blocks seen picked r =
            pick_loop fuel nblocks pool_blocks seen' (picked ++ [idx]) r'.

(** One iteration, the pool not smaller than the task. *)
Lemma pick_once nblocks pool_blocks seen picked r :
  picking nblocks pool_blocks seen picked r → Z.of_nat (length picked) < nblocks <= pool_blocks → pool_blocks <= U64_MAX →
  ∃ r' idx, rng_ok r' ∧ 0 <= idx < pool_blocks ∧
    (1 < pool_blocks → r' = (next_u64 r).1 ∧ idx = (next_u64 r).2 mod pool_blocks) ∧
    ∀ fuel, pick_loop (S fuel) nblocks pool_blocks seen picked r =
      if decide (idx ∈ seen) then pick_loop fuel nblocks pool_blocks seen picked r'
      else pick_loop fuel nblocks pool_blocks ({[idx]} ∪ seen) (picked ++ [idx]) r'.
Proof.
  intros Hpk Hlt Hmax. destruct (range_in 0 (pool_blocks - 1) r) as (r' & v & Hg & Hv & Heq & Hd); [lia..|].
  exists r', v. assert (rng_ok r') as Hr'.
  { destruct (decide (0 = pool_blocks - 1)) as [He|He]; [rewrite Heq by done; apply Hpk|]. destruct Hd as [-> _]; [lia|]. apply wrap_u64. }
  split; [done|]. split; [lia|]. split.
  - intros Hp. destruct Hd as [-> ->]; [lia|]. split; [done|]. replace (pool_blocks - 1 - 0 + 1) with pool_blocks by lia. by rewrite Z.add_0_l.
  - intros fuel. cbn [pick_loop]. rewrite (proj2 (Z.ltb_lt _ _)) by lia. rewrite u64_sub_ok by (unfold is_u64; lia).
    cbn [mbind outcome_bind]. rewrite Hg. cbn [mbind outcome_bind]. by rewrite (proj2 (Z.ltb_ge _ _)) by lia.
Qed.

Lemma pick_reaches k nblocks pool_blocks seen picked r :
  picking nblocks pool_blocks seen picked r → Z.of_nat (length picked) < nblocks <= pool_blocks → 1 < pool_blocks <= U64_MAX →
  (next_u64 (Nat.iter k (λ r, (next_u64 r).1) r)).2 mod pool_blocks ∉ seen →
  ∃ n, (n <= S k)%nat ∧ moves_on n nblocks pool_blocks seen picked r.
Proof.
  revert r. induction k as [|k IH]; intros r Hpk Hlt Hp Hfresh;
    destruct (pick_once _ _ _ _ _ Hpk Hlt ltac:(lia)) as (r' & idx & Hr' & Hi & Hdraw & Hstep);
    destruct Hdraw as [Er Ei]; [lia| |lia|].
  - exists 1%nat. split; [lia|]. assert (idx ∉ seen) as Hni by (rewrite Ei; exact Hfresh). exists ({[idx]} ∪ seen), idx, r'.
    split; [by eapply picking_push|]. intros fuel. cbn [Nat.add]. by rewrite Hstep, decide_False.
  - destruct (decide (idx ∈ seen)) as [Hin|Hni].
    + destruct (IH r') as (n & Hn & seen' & j & r2 & Hpk' & Hgo); [by destruct Hpk; constructor|done|done| |].
      { rewrite Nat.iter_succ_r in Hfresh. by rewrite Er. }
      exists (S n). split; [lia|]. exists seen', j, r2. split; [done|]. intros fuel. cbn [Nat.add].
      by rewrite Hstep.
    + exists 1%nat. split; [lia|]. exists ({[idx]} ∪ seen), idx, r'. split; [by eapply picking_push|].
      intros fuel. cbn [Nat.add]. by rewrite Hstep.
Qed.

Lemma pick_moves_on nblocks pool_blocks seen picked r :
  picking nblocks pool_blocks seen picked r → Z.of_nat (length picked) < nblocks <= pool_blocks → pool_blocks <= U64_MAX →
  ∃ n, Z.of_nat n <= 2 ^ 64 ∧ moves_on n nblocks pool_blocks seen picked r.
Proof.
  intros Hpk Hlt Hp. pose proof Hpk as [Hs Hnd _ Hr]. destruct (decide (pool_blocks = 1)) as [Hone|Hne].
  - destruct (pick_once _ _ _ _ _ Hpk Hlt Hp) as (r' & idx & Hr' & Hi & _ & Hstep). exists 1%nat. split; [lia|].
    assert (idx ∉ seen) as Hni.
    { rewrite Hs. destruct picked; [apply not_elem_of_nil|simpl in Hlt; lia]. }
    exists ({[idx]} ∪ seen), idx, r'. split; [by eapply picking_push|]. intros fuel. cbn [Nat.add]. by rewrite Hstep, decide_False.
  - destruct (fresh_block picked pool_blocks Hnd) as (j & Hj & Hni); [lia|].
    destruct (draw_reaches r pool_blocks j Hr Hj) as (k & Hk & Hd); [unfold U64_MAX in Hp; lia|].
    destruct (pick_reaches k nblocks pool_blocks seen picked r Hpk Hlt) as (n & Hn & Hm); [lia|by rewrite Hd, Hs|].
    exists n. split; [lia|done].
Qed.

(** All blocks distinct: the pool is not smaller than the task. *)
Lemma pick_distinct m nblocks pool_blocks seen picked r :
  picking nblocks pool_blocks seen picked r → Z.of_nat (length picked + m) = nblocks → nblocks <= pool_blocks <= U64_MAX →
  ∃ fuel picked' r', pick_loop fuel nblocks pool_blocks seen picked r = Ret (Some (picked', r')) ∧
    Z.of_nat fuel <= Z.of_nat m * 2 ^ 64 + 1 ∧ Z.of_nat (length picked') = nblocks ∧
    ∃ seen', picking nblocks pool_blocks seen' picked' r'.
Proof.
  revert seen picked r. induction m as [|m IH]; intros seen picked r Hpk Hm Hp.
  { exists 1%nat, picked, r. cbn [pick_loop]. rewrite (proj2 (Z.ltb_ge _ _)) by lia. split; [done|]. split; [lia|]. split; [lia|]. by exists seen. }
  destruct (pick_moves_on _ _ _ _ _ Hpk) as (n & Hn & seen' & idx & r' & Hpk' & Hgo); [lia..|].
  destruct (IH seen' (picked ++ [idx]) r' Hpk') as (fuel & picked' & r2 & Hrun & Hf & Hrest); [rewrite length_app; simpl; lia|done|].
  exists (n + fuel)%nat, picked', r2. rewrite Hgo. split; [done|]. split; [lia|done].
Qed.

(** A task larger than the pool takes every draw. *)
Lemma pick_repeating m fuel nblocks pool_blocks seen picked r :
  (m < fuel)%nat → Z.of_nat (length picked + m) = nblocks → pool_blocks < nblocks → 0 < pool_blocks <= U64_MAX →
  rng_ok r → Forall (λ x, 0 <= x < pool_blocks) picked →
  ∃ picked' r', pick_loop fuel nblocks pool_blocks seen picked r = Ret (Some (picked', r')) ∧
    Z.of_nat (length picked') = nblocks ∧ Forall (λ x, 0 <= x < pool_blocks) picked' ∧ rng_ok r'.
Proof.
  revert fuel picked r. induction m as [|m IH]; intros [|fuel] picked r Hf Hm Hlt Hp Hr Hall; try lia; cbn [pick_loop].
  { rewrite (proj2 (Z.ltb_ge _ _)) by lia. exists picked, r. split; [done|]. split; [lia|done]. }
  rewrite (proj2 (Z.ltb_lt _ _)) by lia. rewrite u64_sub_ok by (unfold is_u64; lia). cbn [mbind outcome_bind].
  destruct (range_rng_ok 0 (pool_blocks - 1) r) as (r' & v & -> & Hv & Hr'); [lia..|done|]. cbn [mbind outcome_bind].
  rewrite (proj2 (Z.ltb_lt _ _)) by lia.
  apply IH; [lia|rewrite length_app; simpl; lia|done|done|done|]. apply Forall_app. split; [done|]. constructor; [lia|constructor].
Qed.

Lemma pick_loop_ends nblocks pool_blocks r :
  0 <= nblocks → 0 < pool_blocks <= U64_MAX → rng_ok r →
  ∃ fuel picked r', pick_loop fuel nblocks pool_blocks ∅ [] r = Ret (Some (picked, r')) ∧
    Z.of_nat fuel <= nblocks * 2 ^ 64 + 1 ∧ Z.of_nat (length picked) = nblocks ∧
    Forall (λ x, 0 <= x < pool_blocks) picked ∧ (nblocks <= pool_blocks → NoDup picked) ∧ rng_ok r'.
Proof.
  intros Hn Hp Hr. destruct (decide (nblocks <= pool_blocks)) as [Hle|Hgt].
  - destruct (pick_distinct (Z.to_nat nblocks) nblocks pool_blocks ∅ [] r) as (fuel & picked & r' & Hrun & Hf & Hl & seen & Hpk).
    + constructor; [intros x; by rewrite elem_of_empty, elem_of_nil|constructor|constructor|done].
    + simpl. lia.
    + lia.
    + exists fuel, picked, r'. destruct Hpk. split_and!; try done. lia.
  - destruct (pick_repeating (Z.to_nat nblocks) (S (Z.to_nat nblocks)) nblocks pool_blocks ∅ [] r) as (picked & r' & Hrun & Hl & Hall & Hr'); try done; [lia|simpl; lia|lia|].
    exists (S (Z.to_nat nblocks)), picked, r'. split_and!; try done; lia.
Qed.

(** ** The scatter list *)

(** Block [idx] of the pool on both sides. *)
Definition pool_block (local_base : u64) (remote : RegionDescriptor) (block_size idx : usize) : TransferDesc :=
  mkTransferDesc (local_base + idx * block_size) (rd_addr remote + idx * block_size) block_size remote.

(** Both ends of the pool are addressable. *)
Record pool_ok (local_base : u64) (remote : RegionDescriptor) (block_size pool_blocks : usize) : Prop := mkPoolOk {
  po_block : 0 < block_size;
  po_blocks : 0 < pool_blocks <= U64_MAX;
  po_local : 0 <= local_base ∧ local_base + pool_blocks * block_size <= U64_MAX;
  po_remote : 0 <= rd_addr remote ∧ rd_addr remote + pool_blocks * block_size <= U64_MAX;
}.

Lemma block_descs_ok local_base remote block_size pool_blocks idxs :
  pool_ok local_base remote block_size pool_blocks → Forall (λ x, 0 <= x < pool_blocks) idxs →
  block_descs local_base remote block_size idxs = Ret (pool_block local_base remote block_size <$> idxs).
Proof.
  intros [Hb Hp Hl Hr]. induction 1 as [|idx idxs Hi _ IH]; [done|]. cbn [block_descs].
  assert (0 <= idx * block_size <= pool_blocks * block_size) as Hoff by nia.
  unfold block_desc, u64_mul, u64_add, u64_wrap. rewrite !decide_True by (unfold is_u64; lia). cbn [mbind outcome_bind].
  rewrite !decide_True by (unfold is_u64; lia). cbn [mbind outcome_bind]. by rewrite IH.
Qed.

Lemma scatter_returns local_base remote nblocks block_size pool_blocks r :
  pool_ok local_base remote block_size pool_blocks → 0 <= nblocks → rng_ok r →
  ∃ fuel idxs r', Z.of_nat fuel <= nblocks * 2 ^ 64 + 1 ∧
    (∀ fuel', (fuel <= fuel')%nat → build_random_block_scatter fuel' local_base remote nblocks block_size pool_blocks r =
       Ret (Some (pool_block local_base remote block_size <$> idxs, r'))) ∧
    Z.of_nat (length idxs) = nblocks ∧ Forall (λ x, 0 <= x < pool_blocks) idxs ∧
    (nblocks <= pool_blocks → NoDup idxs) ∧ rng_ok r'.
Proof.
  intros Hpool Hn Hr. destruct (pick_loop_ends nblocks pool_blocks r Hn (po_blocks _ _ _ _ Hpool) Hr)
    as (fuel & idxs & r' & Hrun & Hf & Hl & Hall & Hnd & Hr').
  exists fuel, idxs, r'. split; [done|]. split; [|done]. intros fuel' Hle. unfold build_random_block_scatter.
  rewrite (pick_loop_more _ _ _ _ _ _ _ _ Hrun Hle). cbn [mbind outcome_bind].
  by rewrite (block_descs_ok _ _ _ pool_blocks).
Qed.

(** C34: The scatter list of a task is found: although the loop that draws blocks
    rejects repeats and has no bound of its own, the generator's full period
    makes it end, within [nblocks] periods; no arithmetic overflows, and the
    descriptors are [nblocks] blocks inside the pool on both sides, all different
    when the pool has that many. *)
Theorem scatter_terminates local_base remote nblocks block_size pool_blocks r :
  pool_ok local_base remote block_size pool_blocks → 0 <= nblocks → rng_ok r →
  ∃ fuel idxs r', Z.of_nat fuel <= nblocks * 2 ^ 64 + 1 ∧
    (∀ fuel', (fuel <= fuel')%nat → build_random_block_scatter fuel' local_base remote nblocks block_size pool_blocks r =
       Ret (Some (pool_block local_base remote block_size <$> idxs, r'))) ∧
    Z.of_nat (length idxs) = nblocks ∧ Forall (λ x, 0 <= x < pool_blocks) idxs ∧
    (nblocks <= pool_blocks → NoDup idxs) ∧ rng_ok r'.
Proof. apply scatter_returns. Qed.
End Blocks.

#[local] Instance bb_profile : BuildProfile := true.

(** Four of five blocks, drawn as the benchmark draws them. *)
Definition bb_remote : RegionDescriptor := mkDescriptor 65536 20480 [7].

Example bb_draw :
  build_random_block_scatter 10 4096 bb_remote 4 4096 5 (rng_new 0xfeed4242) =
  Ret (Some (pool_block 4096 bb_remote 4096 <$> [4; 1; 2; 0], mkRng 1663341879764299436)).
Proof. vm_compute. reflexivity. Qed.

Lemma scatter_terminates_witness :
  ∃ fuel idxs r', (∀ fuel', (fuel <= fuel')%nat →
     build_random_block_scatter fuel' 4096 bb_remote 4 4096 5 (rng_new 0xfeed4242) =
       Ret (Some (pool_block 4096 bb_remote 4096 <$> idxs, r'))) ∧ length idxs = 4%nat ∧ NoDup idxs.
Proof.
  destruct (scatter_terminates 4096 bb_remote 4 4096 5 (rng_new 0xfeed4242)) as (fuel & idxs & r' & _ & Hrun & Hl & _ & Hnd & _).
  - by constructor.
  - lia.
  - apply rng_new_ok.
  - exists fuel, idxs, r'. split; [exact Hrun|]. split; [lia|]. apply Hnd. lia.
Defined.
