(* ===== verification/Floats.v ===== *)
(** * Floats: [f64], and [Duration] as the benchmarks read it

    An [f64] is a [spec_float] of the Standard Library at precision 53 and
    maximal exponent 1024, IEEE 754 binary64 without NaN payloads; arithmetic
    rounds to nearest, ties to even.  The functions of [core] the code uses on
    floats (casts, [ceil], [total_cmp], [str::parse], [{:.n}]) are written out. *)

From Stdlib Require Import SpecFloat.
From S2P Require Import Prelude Text.

Definition f64 : Type := spec_float.

Definition f64_mul : f64 → f64 → f64 := SFmul 53 1024.
Definition f64_div : f64 → f64 → f64 := SFdiv 53 1024.
Definition f64_add : f64 → f64 → f64 := SFadd 53 1024.
Definition f64_leb : f64 → f64 → bool := SFleb.

(** [n as f64]. *)
Definition f64_of (n : Z) : f64 := binary_normalize 53 1024 n 0 false.

(** [±d·10^e], rounded once: literals and parsed numbers. *)
Definition f64_decimal (neg : bool) (d e : Z) : f64 :=
  match d with
  | Zpos m =>
      if 0 <=? e then binary_round 53 1024 neg (m * Z.to_pos (10 ^ e)) 0
      else let '(q, e', l) := SFdiv_core_binary 53 1024 (Zpos m) 0 (10 ^ (- e)) 0 in binary_round_aux 53 1024 neg q e' l
  | _ => S754_zero neg
  end.

(** The integer part of [m·2^e], and the next integer up. *)
Definition scaled_floor (m e : Z) : Z := if 0 <=? e then m * 2 ^ e else m / 2 ^ (- e).
Definition scaled_ceil (m e : Z) : Z := - scaled_floor (- m) e.

(** [f as usize]: truncates, saturates, and NaN is 0. *)
Definition f64_as_usize (f : f64) : usize :=
  match f with
  | S754_finite false m e => Z.min (scaled_floor (Zpos m) e) U64_MAX
  | S754_infinity false => U64_MAX
  | _ => 0
  end.

(** [f64::ceil]. *)
Definition f64_ceil (f : f64) : f64 :=
  match f with
  | S754_finite neg m e => binary_normalize 53 1024 (scaled_ceil (if neg then Zneg m else Zpos m) e) 0 neg
  | _ => f
  end.

(** [f64::total_cmp]: the bits below the sign, then the sign. *)
Definition f64_magnitude (f : f64) : Z :=
  match f with
  | S754_zero _ => 0
  | S754_finite _ m e => if Zpos m <? 2 ^ 52 then Zpos m else (e + 1075) * 2 ^ 52 + (Zpos m - 2 ^ 52)
  | S754_infinity _ => 2047 * 2 ^ 52
  | S754_nan => 2047 * 2 ^ 52 + 2 ^ 51
  end.

Definition f64_negative (f : f64) : bool :=
  match f with S754_zero s | S754_infinity s | S754_finite s _ _ => s | S754_nan => false end.

Definition total_key (f : f64) : Z := if f64_negative f then - 1 - f64_magnitude f else f64_magnitude f.

Definition total_le (a b : f64) : Prop := total_key a <= total_key b.
#[global] Instance total_le_dec a b : Decision (total_le a b).
Proof. unfold total_le. apply _. Defined.
#[global] Instance total_le_trans : Transitive total_le.
Proof. unfold total_le. intros a b c. lia. Qed.
#[global] Instance total_le_total : Total total_le.
Proof. unfold total_le. intros a b. lia. Qed.

(** [v.sort_by(f64::total_cmp)]. *)
Definition sort_floats : list f64 → list f64 := merge_sort total_le.

(** [Duration]: seconds, and nanoseconds below 10^9. *)
Record Duration : Type := mkDuration {
  dur_secs : u64;
  dur_nanos : u32;
}.

Definition as_secs_f64 (d : Duration) : f64 :=
  f64_add (f64_of (dur_secs d)) (f64_div (f64_of (dur_nanos d)) (f64_of 1000000000)).

(** ** Parsing *)

(** A run of digits: the number it continues, how many there are, what is left. *)
Fixpoint take_digits (acc : Z) (n : nat) (s : bytes) : Z * nat * bytes :=
  match s with
  | c :: s' => if is_digit c then take_digits (acc * 10 + (c - 48)) (S n) s' else (acc, n, s)
  | [] => (acc, n, [])
  end.

Definition take_sign (s : bytes) : bool * bytes :=
  match s with
  | c :: s' => if c =? 45 then (true, s') else if c =? 43 then (false, s') else (false, s)
  | [] => (false, [])
  end.

(** What follows the digits: nothing, or an exponent. *)
Definition parse_exponent (s : bytes) : option Z :=
  match s with
  | [] => Some 0
  | c :: s =>
      if (c =? 101) || (c =? 69) then
        let '(neg, s) := take_sign s in
        match take_digits 0 0 s with
        | (v, S _, []) => Some (if neg then - v else v)
        | _ => None
        end
      else None
  end.

(** [Number]: digits with at most one point among them, and an exponent. *)
Definition parse_number (s : bytes) : option (Z * Z) :=
  let '(i, ni, s) := take_digits 0 0 s in
  let '(d, nf, s) :=
    match s with
    | c :: s' => if c =? 46 then take_digits i 0 s' else (i, 0%nat, s)
    | [] => (i, 0%nat, [])
    end in
  match (ni + nf)%nat with
  | O => None
  | S _ => e ← parse_exponent s; Some (d, e - Z.of_nat nf)
  end.

(** [str::parse::<f64>]. *)
Definition parse_f64 (s : bytes) : option f64 :=
  let '(neg, s) := take_sign s in
  match parse_number s with
  | Some (d, e) => Some (f64_decimal neg d e)
  | None =>
      let w := to_lower s in
      if decide (w = str "inf" ∨ w = str "infinity") then Some (S754_infinity neg)
      else if decide (w = str "nan") then Some S754_nan else None
  end.

(** ** Printing *)

(** [m·2^e] to the nearest integer, ties to even. *)
Definition scaled_round (m e : Z) : Z :=
  let q := scaled_floor m e in
  if 0 <=? e then q
  else match Z.compare (2 * (m mod 2 ^ (- e))) (2 ^ (- e)) with
       | Lt => q
       | Gt => q + 1
       | Eq => if Z.even q then q else q + 1
       end.

(** An integer in decimal, of any size. *)
Definition digits (n : Z) : bytes := dec (S (Z.to_nat (Z.log2 n))) n.

(** The last [p] digits of [n], zeros in front. *)
Fixpoint padded (p : nat) (n : Z) : bytes :=
  match p with
  | O => []
  | S p => padded p (n / 10) ++ [48 + n mod 10]
  end.

(** A magnitude with [p] digits after the point. *)
Definition fixed (p : nat) (m e : Z) : bytes :=
  let n := scaled_round (m * 10 ^ Z.of_nat p) e in
  digits (n / 10 ^ Z.of_nat p) ++ match p with O => [] | S _ => str "." ++ padded p n end.

(** [format!("{:.p}", f)]. *)
Definition format_fixed (p : nat) (f : f64) : bytes :=
  let sign (s : bool) := if s then str "-" else [] in
  match f with
  | S754_nan => str "NaN"
  | S754_infinity s => sign s ++ str "inf"
  | S754_zero s => sign s ++ fixed p 0 0
  | S754_finite s m e => sign s ++ fixed p (Zpos m) e
  end.

Example format_examples :
  format_fixed 2 (f64_decimal false 314159 (-5)) = str "3.14" ∧ format_fixed 1 (f64_decimal true 25 (-2)) = str "-0.2" ∧
  format_fixed 0 (f64_decimal false 15 (-1)) = str "2" ∧ format_fixed 0 (f64_decimal false 5 (-1)) = str "0" ∧
  format_fixed 1 (f64_of (2 ^ 70)) = str "1180591620717411303424.0" ∧ format_fixed 2 (f64_of 0) = str "0.00".
Proof. by vm_compute. Qed.

Example parse_examples :
  parse_f64 (str "1.5") = Some (f64_div (f64_of 3) (f64_of 2)) ∧ parse_f64 (str ".5e1") = Some (f64_of 5) ∧
  parse_f64 (str "+12.") = Some (f64_of 12) ∧ parse_f64 (str "-Inf") = Some (S754_infinity true) ∧
  parse_f64 (str "1e400") = Some (S754_infinity false) ∧ parse_f64 (str "9007199254740993") = Some (f64_of 9007199254740992) ∧
  parse_f64 (str ".") = None ∧ parse_f64 (str "1e") = None ∧ parse_f64 (str "0x10") = None ∧ parse_f64 [] = None.
Proof. by vm_compute. Qed.

(** ** Rounding *)

Lemma digits2_bounds m : 2 ^ (Zpos (digits2_pos m) - 1) <= Zpos m < 2 ^ Zpos (digits2_pos m).
Proof.
  induction m as [m IH|m IH|]; cbn [digits2_pos]; [| |done].
  all: rewrite Pos2Z.inj_succ; replace (Z.succ (Zpos (digits2_pos m)) - 1) with (Z.succ (Zpos (digits2_pos m) - 1)) by lia.
  all: rewrite !Z.pow_succ_r by lia; lia.
Qed.

Lemma digits2_unique m d : 0 < d → 2 ^ (d - 1) <= Zpos m < 2 ^ d → Zpos (digits2_pos m) = d.
Proof.
  intros Hd [Hlo Hhi]. pose proof (digits2_bounds m) as [Hl Hh].
  assert (d - 1 < Zpos (digits2_pos m)) by (apply (Z.pow_lt_mono_r_iff 2); lia).
  assert (Zpos (digits2_pos m) - 1 < d) by (apply (Z.pow_lt_mono_r_iff 2); lia). lia.
Qed.

Lemma iter_pos_nat {A} (f : A → A) (p : positive) (x : A) : SpecFloat.iter_pos f p x = Nat.iter (Pos.to_nat p) f x.
Proof.
  revert x. induction p as [p IH|p IH|]; intros x; cbn [SpecFloat.iter_pos]; [| |done].
  - rewrite !IH, Pos2Nat.inj_xI, <- Nat.iter_add, Nat.iter_succ_r. f_equal. lia.
  - rewrite !IH, Pos2Nat.inj_xO, <- Nat.iter_add. f_equal. lia.
Qed.

(** After [j] steps of [shr_1]: the quotient, the last bit out, and whether any
    bit below it was set. *)
Definition shifted (m : Z) (j : nat) (r : shr_record) : Prop :=
  0 <= shr_m r ∧ ∃ h rest, m = shr_m r * 2 ^ Z.of_nat j + h + rest ∧ 0 <= rest ∧ shr_s r = negb (rest =? 0) ∧
    match j with
    | O => h = 0 ∧ rest = 0 ∧ shr_r r = false
    | S j => rest < 2 ^ Z.of_nat j ∧ h = if shr_r r then 2 ^ Z.of_nat j else 0
    end.

Lemma shr_1_spec m r s : 0 <= m → shr_1 (Build_shr_record m r s) = Build_shr_record (m / 2) (Z.odd m) (r || s).
Proof.
  intros Hm. destruct m as [|[p|p|]|p]; [done| | |done|lia]; cbn [shr_1 Z.odd].
  - f_equal. rewrite (Zdiv_unique (Zpos p~1) 2 (Zpos p) 1) by lia. done.
  - f_equal. rewrite (Zdiv_unique (Zpos p~0) 2 (Zpos p) 0) by lia. done.
Qed.

Lemma shifted_step m j r : shifted m j r → shifted m (S j) (shr_1 r).
Proof.
  destruct r as [q b s]. intros [Hq (h & rest & Hm & Hr & Hs & Hj)]. cbn [shr_m shr_r shr_s] in *.
  rewrite shr_1_spec by done. split; cbn [shr_m shr_r shr_s]; [apply Z.div_pos; lia|].
  pose proof (Z.div_mod q 2 ltac:(lia)) as Hdm. rewrite Zmod_odd in Hdm.
  assert (0 < 2 ^ Z.of_nat j) as Hpow by (apply Z.pow_pos_nonneg; lia).
  exists (if Z.odd q then 2 ^ Z.of_nat j else 0), (h + rest). rewrite Nat2Z.inj_succ, Z.pow_succ_r by lia.
  split_and!.
  - rewrite Hm at 1. rewrite Hdm at 1. destruct (Z.odd q); ring.
  - destruct j; [lia|]. destruct Hj as [_ ->]. assert (0 < 2 ^ Z.of_nat j) by (apply Z.pow_pos_nonneg; lia). destruct b; lia.
  - destruct j as [|j]; [destruct Hj as (-> & -> & ->); by subst|]. destruct Hj as [Hlt ->].
    assert (0 < 2 ^ Z.of_nat j) by (apply Z.pow_pos_nonneg; lia). destruct b; simpl orb.
    + symmetry. apply negb_true_iff, Z.eqb_neq. lia.
    + rewrite Hs. done.
  - destruct j as [|j]; [destruct Hj as (-> & -> & _); done|]. destruct Hj as [Hlt ->].
    rewrite Nat2Z.inj_succ, Z.pow_succ_r by lia. rewrite Nat2Z.inj_succ, Z.pow_succ_r in Hpow by lia. destruct b; lia.
  - done.
Qed.

Lemma shifted_iter m j : 0 <= m → shifted m j (Nat.iter j shr_1 (Build_shr_record m false false)).
Proof.
  intros Hm. induction j as [|j IH]; [|by apply shifted_step]. split; [done|]. exists 0, 0. simpl. split_and!; try done; lia.
Qed.

(** Rounding is off by half a unit at most, and exact where nothing is lost. *)
Lemma shifted_round m j r :
  shifted m j r → let v := round_nearest_even (shr_m r) (loc_of_shr_record r) in
  0 <= v ∧ - 2 ^ Z.of_nat j <= 2 * (v * 2 ^ Z.of_nat j - m) <= 2 ^ Z.of_nat j ∧ (m mod 2 ^ Z.of_nat j = 0 → v = m / 2 ^ Z.of_nat j).
Proof.
  destruct r as [q b s]. intros [Hq (h & rest & Hm & Hr & Hs & Hj)]. cbn [shr_m shr_r shr_s loc_of_shr_record] in *.
  assert (0 < 2 ^ Z.of_nat j) as Hpow by (apply Z.pow_pos_nonneg; lia).
  assert (0 <= h + rest < 2 ^ Z.of_nat j ∧ (b = false → h = 0) ∧ (b = true → 2 * h = 2 ^ Z.of_nat j) ∧ (2 * rest < 2 ^ Z.of_nat j)) as (Hhr & Hb0 & Hb1 & H2).
  { destruct j as [|j]; [destruct Hj as (-> & -> & ->); simpl; lia|]. destruct Hj as [Hlt ->].
    rewrite Nat2Z.inj_succ, Z.pow_succ_r in * by lia. destruct b; lia. }
  assert (m / 2 ^ Z.of_nat j = q ∧ m mod 2 ^ Z.of_nat j = h + rest) as [Hdiv Hmod].
  { split; [symmetry; apply (Zdiv_unique _ _ q (h + rest)); lia|symmetry; apply (Zmod_unique _ _ q (h + rest)); lia]. }
  rewrite Hdiv, Hmod. destruct (Z.eqb_spec rest 0) as [->|Hne]; simpl in Hs; subst s; destruct b;
    cbn [round_nearest_even]; try (specialize (Hb0 eq_refl)); try (specialize (Hb1 eq_refl)); try destruct (Z.even q);
    split_and!; try lia; nia.
Qed.

Lemma shr_nat mrs e n : 0 <= n → shr mrs e n = (Nat.iter (Z.to_nat n) shr_1 mrs, e + n).
Proof.
  intros Hn. destruct n as [|p|p]; [|by cbn [shr]; rewrite iter_pos_nat|lia]. cbn [shr]. by rewrite Z.add_0_r.
Qed.

Lemma fexp_normal x : -1021 <= x → fexp 53 1024 x = x - 53.
Proof. intros Hx. unfold fexp, emin. lia. Qed.

Lemma shr_fexp_normal m e d :
  Zdigits2 m = d → 53 <= d → -1021 <= d + e →
  shr_fexp 53 1024 m e loc_Exact = (Nat.iter (Z.to_nat (d - 53)) shr_1 (Build_shr_record m false false), e + (d - 53)).
Proof.
  intros Hd Hge Hlo. unfold shr_fexp. rewrite Hd, fexp_normal by lia. replace (d + e - 53 - e) with (d - 53) by lia.
  by rewrite shr_nat by lia.
Qed.

(** A float from a mantissa of 53 bits that rounding may have carried to [2^53]. *)
Definition carried (s : bool) (r e : Z) : f64 :=
  if decide (r = 2 ^ 53) then S754_finite s (2 ^ 52) (e + 1) else S754_finite s (Z.to_pos r) e.

Lemma round_aux_spec s m e :
  let d := Zpos (digits2_pos m) in 53 <= d → -1021 <= d + e <= 1023 →
  ∃ r, 2 ^ 52 <= r <= 2 ^ 53 ∧ - 2 ^ (d - 53) <= 2 * (r * 2 ^ (d - 53) - Zpos m) <= 2 ^ (d - 53) ∧
    (Zpos m mod 2 ^ (d - 53) = 0 → r = Zpos m / 2 ^ (d - 53)) ∧
    binary_round_aux 53 1024 s (Zpos m) e loc_Exact = carried s r (e + (d - 53)).
Proof.
  intros d Hd He. pose proof (digits2_bounds m) as Hm. fold d in Hm.
  unfold binary_round_aux. rewrite (shr_fexp_normal _ _ d) by (done || lia).
  pose proof (shifted_iter (Zpos m) (Z.to_nat (d - 53)) ltac:(lia)) as Hsh. apply shifted_round in Hsh as (H0 & Herr & Hex).
  rewrite !Z2Nat.id in Herr, Hex by lia.
  set (rec := Nat.iter _ _ _) in *. set (r := round_nearest_even (shr_m rec) (loc_of_shr_record rec)) in *.
  replace (2 ^ (d - 1)) with (2 ^ 52 * 2 ^ (d - 53)) in Hm by (rewrite <- Z.pow_add_r by lia; f_equal; lia).
  replace (2 ^ d) with (2 ^ 53 * 2 ^ (d - 53)) in Hm by (rewrite <- Z.pow_add_r by lia; f_equal; lia).
  assert (0 < 2 ^ (d - 53)) as Hpow by (apply Z.pow_pos_nonneg; lia).
  assert (2 ^ 52 <= r <= 2 ^ 53) as Hr by nia. exists r. split; [done|]. split; [done|]. split; [done|].
  unfold carried. case_decide as Hc.
  - rewrite Hc. rewrite (shr_fexp_normal _ _ 54) by (done || lia). cbn -[Z.leb Z.add Z.sub Z.pow].
    rewrite (proj2 (Z.leb_le _ _)) by lia. f_equal; lia.
  - destruct r as [|p|p]; [lia| |lia]. assert (Zpos (digits2_pos p) = 53) as Hp by (apply digits2_unique; lia).
    rewrite (shr_fexp_normal _ _ 53) by (done || lia). cbn -[Z.leb Z.add Z.sub Z.pow].
    rewrite (proj2 (Z.leb_le _ _)) by lia. f_equal; lia.
Qed.

(** ** Integers below [2^53] are exact *)

Lemma shl_align_le m e e' : e' <= e → shl_align m e e' = (Z.to_pos (Zpos m * 2 ^ (e - e')), e').
Proof.
  intros Hle. unfold shl_align. destruct (e' - e) as [|p|p] eqn:Hd; [|lia|].
  - replace (e - e') with 0 by lia. rewrite Z.mul_1_r. f_equal. lia.
  - f_equal. replace (e - e') with (Zpos p) by lia. rewrite <- (Pos2Z.id (Pos.iter xO m p)). f_equal.
    clear. induction p as [|p IH] using Pos.peano_ind; [simpl; lia|].
    rewrite Pos.iter_succ, Pos2Z.inj_succ, Z.pow_succ_r by lia. lia.
Qed.

(** A whole number in the form the hardware keeps it. *)
Lemma binary_round_exact s m e :
  let d := Zpos (digits2_pos m) in d <= 53 → -1021 <= d + e <= 1023 →
  binary_round 53 1024 s m e = S754_finite s (Z.to_pos (Zpos m * 2 ^ (53 - d))) (e + d - 53).
Proof.
  intros d Hd He. pose proof (digits2_bounds m) as Hm. fold d in Hm. unfold binary_round. fold d.
  rewrite fexp_normal, shl_align_le by lia. replace (e - (d + e - 53)) with (53 - d) by lia.
  set (M := Zpos m * 2 ^ (53 - d)). assert (0 < 2 ^ (53 - d)) by (apply Z.pow_pos_nonneg; lia).
  assert (2 ^ 52 <= M < 2 ^ 53) as HM.
  { unfold M. replace (2 ^ 52) with (2 ^ (d - 1) * 2 ^ (53 - d)) by (rewrite <- Z.pow_add_r by lia; f_equal; lia).
    replace (2 ^ 53) with (2 ^ d * 2 ^ (53 - d)) by (rewrite <- Z.pow_add_r by lia; f_equal; lia). nia. }
  assert (Zpos (digits2_pos (Z.to_pos M)) = 53) as HD by (apply digits2_unique; rewrite ?Z2Pos.id; lia).
  destruct (round_aux_spec s (Z.to_pos M) (d + e - 53)) as (r & _ & _ & Hex & ->); [lia|lia|].
  rewrite HD, Z.sub_diag, Z.pow_0_r, Z.mod_1_r, Z.div_1_r in Hex. rewrite (Hex eq_refl), Z2Pos.id, HD by lia.
  unfold carried. rewrite decide_False by lia. f_equal. lia.
Qed.

Lemma digits2_small m k : 0 <= k → Zpos m < 2 ^ k → Zpos (digits2_pos m) <= k.
Proof.
  intros Hk Hm. pose proof (digits2_bounds m) as [Hl _].
  assert (Zpos (digits2_pos m) - 1 < k); [|lia]. apply (Z.pow_lt_mono_r_iff 2); lia.
Qed.

Lemma f64_of_exact m :
  Zpos m < 2 ^ 53 → let d := Zpos (digits2_pos m) in
  d <= 53 ∧ f64_of (Zpos m) = S754_finite false (Z.to_pos (Zpos m * 2 ^ (53 - d))) (d - 53).
Proof.
  intros Hm d. assert (d <= 53) as Hd by (apply digits2_small; lia). split; [done|].
  unfold f64_of, binary_normalize. rewrite binary_round_exact by (fold d; lia). fold d. f_equal.
Qed.

Lemma scaled_floor_exact n d k : 0 <= n → 0 <= d <= 53 → 0 <= k → scaled_floor (n * 2 ^ (53 - d)) (d + k - 53) = n * 2 ^ k.
Proof.
  intros Hn Hd Hk. unfold scaled_floor. destruct (Z.leb_spec 0 (d + k - 53)).
  - rewrite <- Z.mul_assoc, <- Z.pow_add_r by lia. do 2 f_equal. lia.
  - replace (53 - d) with (k + - (d + k - 53)) by lia. rewrite Z.pow_add_r, Z.mul_assoc by lia.
    apply Z.div_mul. assert (0 < 2 ^ (- (d + k - 53))) by (apply Z.pow_pos_nonneg; lia). lia.
Qed.

(** [n as f64 as usize] gives [n] back. *)
Lemma f64_usize_exact n : 0 <= n < 2 ^ 53 → f64_as_usize (f64_of n) = n.
Proof.
  intros [H0 Hn]. destruct n as [|m|m]; [done| |lia]. destruct (f64_of_exact m Hn) as [Hd ->]. cbn [f64_as_usize].
  assert (0 < 2 ^ (53 - Zpos (digits2_pos m))) by (apply Z.pow_pos_nonneg; lia).
  rewrite Z2Pos.id by lia. pose proof (scaled_floor_exact (Zpos m) (Zpos (digits2_pos m)) 0) as He.
  rewrite Z.add_0_r in He. rewrite He by lia. unfold U64_MAX. lia.
Qed.

(** ** Products *)

Lemma digits2_product a b :
  2 ^ 52 <= Zpos a < 2 ^ 53 → 2 ^ 52 <= Zpos b < 2 ^ 53 → 105 <= Zpos (digits2_pos (a * b)) <= 106.
Proof.
  intros Ha Hb. assert (2 ^ 104 <= Zpos (a * b) < 2 ^ 106) as [Hl Hh] by (rewrite Pos2Z.inj_mul; nia). split; [|apply digits2_small; lia].
  pose proof (digits2_bounds (a * b)) as [_ Hd].
  assert (104 < Zpos (digits2_pos (a * b))) by (apply (Z.pow_lt_mono_r_iff 2); lia). lia.
Qed.

(** A mantissa with its top bit at place 52. *)
Lemma mantissa_normal m d :
  d = Zpos (digits2_pos m) → d <= 53 → 2 ^ 52 <= Zpos m * 2 ^ (53 - d) < 2 ^ 53.
Proof.
  intros -> Hd. pose proof (digits2_bounds m) as Hm. set (d := Zpos (digits2_pos m)) in *.
  assert (0 < 2 ^ (53 - d)) by (apply Z.pow_pos_nonneg; lia).
  replace (2 ^ 52) with (2 ^ (d - 1) * 2 ^ (53 - d)) by (rewrite <- Z.pow_add_r by lia; f_equal; lia).
  replace (2 ^ 53) with (2 ^ d * 2 ^ (53 - d)) by (rewrite <- Z.pow_add_r by lia; f_equal; lia). nia.
Qed.

(** A whole number times a fraction [c·2^-53]: a mantissa [r] and a scale [g]
    with [r / g] within half a unit of the product. *)
Lemma f64_mul_fraction n c :
  Zpos n < 2 ^ 40 → 2 ^ 52 <= Zpos c < 2 ^ 53 →
  ∃ r k, 13 <= k <= 60 ∧ 2 ^ 52 <= r <= 2 ^ 53 ∧ - 2 ^ 52 <= r * 2 ^ 53 - 2 ^ k * (Zpos n * Zpos c) <= 2 ^ 52 ∧
    f64_mul (f64_of (Zpos n)) (S754_finite false c (-53)) = carried false r (- k).
Proof.
  intros Hn Hc. destruct (f64_of_exact n ltac:(lia)) as [Hd ->]. set (d := Zpos (digits2_pos n)) in *.
  assert (d <= 40) as Hd40 by (apply digits2_small; lia). assert (1 <= d) by (unfold d; lia).
  pose proof (mantissa_normal n d eq_refl Hd) as Hmn.
  set (a := Z.to_pos (Zpos n * 2 ^ (53 - d))). assert (Zpos a = Zpos n * 2 ^ (53 - d)) as Ea by (unfold a; rewrite Z2Pos.id; lia).
  pose proof (digits2_product a c ltac:(lia) Hc) as HD. set (D := Zpos (digits2_pos (a * c))) in *.
  destruct (round_aux_spec false (a * c) (d - 53 + -53)) as (r & Hr & Herr & _ & Hround); [lia|lia|]. fold D in Herr, Hround.
  exists r, (159 - d - D). split; [lia|]. split; [done|]. split.
  - rewrite Pos2Z.inj_mul, Ea in Herr.
    assert (∃ t, 0 < t ∧ 2 ^ 53 = 2 ^ (D - 53) * t ∧ 2 ^ (159 - d - D) = 2 ^ (53 - d) * t) as (t & Ht & E1 & E2).
    { exists (2 ^ (106 - D)). split; [apply Z.pow_pos_nonneg; lia|]. rewrite <- !Z.pow_add_r by lia. split; f_equal; lia. }
    assert (2 ^ 53 = 2 * 2 ^ 52) as E3 by done. rewrite E2. rewrite E1 at 1.
    assert (- (2 ^ (D - 53) * t) <= 2 * (r * (2 ^ (D - 53) * t) - 2 ^ (53 - d) * t * (Zpos n * Zpos c)) <= 2 ^ (D - 53) * t) as Hs by nia.
    rewrite <- E1 in Hs at 1. rewrite <- E1 in Hs at 2. lia.
  - unfold f64_mul, SFmul. cbn [xorb]. fold a. rewrite Hround. f_equal. lia.
Qed.

(** [ceil] of such a quotient. *)
Lemma ceil_carried r k K :
  1 <= k → 2 ^ 52 <= r <= 2 ^ 53 → 0 <= K → (K - 1) * 2 ^ k < r <= K * 2 ^ k → f64_ceil (carried false r (- k)) = f64_of K.
Proof.
  intros Hk Hr HK Hb. assert (0 < 2 ^ k) as Hp by (apply Z.pow_pos_nonneg; lia).
  assert (∀ m e, e < 0 → (K - 1) * 2 ^ (- e) < Zpos m <= K * 2 ^ (- e) → scaled_ceil (Zpos m) e = K) as Hceil.
  { intros m e He Hm. unfold scaled_ceil, scaled_floor. rewrite (proj2 (Z.leb_gt _ _)) by lia.
    assert (- Zpos m / 2 ^ (- e) = - K); [|lia]. symmetry. apply (Zdiv_unique _ _ _ (K * 2 ^ (- e) - Zpos m)); lia. }
  unfold carried. case_decide as Hc; cbn [f64_ceil].
  - destruct (decide (k = 1)) as [->|Hne].
    + change (scaled_ceil (2 ^ 52) (- (1) + 1)) with (2 ^ 52). replace K with (2 ^ 52) by lia. done.
    + rewrite Hceil; [done|lia|]. replace (- (- k + 1)) with (k - 1) by lia.
      replace (2 ^ k) with (2 * 2 ^ (k - 1)) in Hb by (rewrite <- Z.pow_succ_r by lia; f_equal; lia). lia.
  - rewrite Hceil; [done|lia|]. rewrite Z.opp_involutive, Z2Pos.id by lia. done.
Qed.

(** [(n as f64 * c).ceil() as usize] is [⌈n·q/100⌉], where [c] is the float just
    at or below [q/100]. *)
Lemma ceil_percent n c q :
  Zpos n < 2 ^ 40 → 2 ^ 52 <= Zpos c < 2 ^ 53 → 0 < q → 0 <= q * 2 ^ 53 - 100 * Zpos c <= 100 →
  f64_as_usize (f64_ceil (f64_mul (f64_of (Zpos n)) (S754_finite false c (-53)))) = (Zpos n * q + 99) / 100.
Proof.
  intros Hn Hc Hq Herr. destruct (f64_mul_fraction n c Hn Hc) as (r & k & Hk & Hr & Hb & ->).
  set (K := (Zpos n * q + 99) / 100). assert (2 ^ 13 <= 2 ^ k) as Hg by (apply Z.pow_le_mono_r; lia).
  assert (100 * (K - 1) + 1 <= Zpos n * q <= 100 * K) as HK.
  { pose proof (Z.div_mod (Zpos n * q + 99) 100 ltac:(lia)). pose proof (Z.mod_pos_bound (Zpos n * q + 99) 100 ltac:(lia)). unfold K. lia. }
  assert (0 <= Zpos n * q * 2 ^ 53 - 100 * (Zpos n * Zpos c) <= 100 * Zpos n) as HA by nia.
  assert (Zpos n * Zpos c <= K * 2 ^ 53) as Hup by nia.
  assert (100 * (K - 1) * 2 ^ 53 + 2 ^ 52 <= 100 * (Zpos n * Zpos c)) as Hlow by nia.
  rewrite (ceil_carried r k K); [|lia|done|nia|].
  - apply f64_usize_exact. split; [nia|]. assert (q <= 101) by nia. nia.
  - split; nia.
Qed.

Lemma f64_of_pow2 k : 0 <= k <= 52 → f64_of (2 ^ k) = S754_finite false (2 ^ 52) (k - 52).
Proof.
  intros Hk. assert (0 < 2 ^ k) as Hp by (apply Z.pow_pos_nonneg; lia).
  assert (2 ^ k < 2 ^ 53) as Hlt by (apply Z.pow_lt_mono_r; lia).
  destruct (2 ^ k) as [|m|m] eqn:Hm; [lia| |lia]. destruct (f64_of_exact m ltac:(lia)) as [_ ->].
  assert (Zpos (digits2_pos m) = k + 1) as ->.
  { apply digits2_unique; [lia|]. rewrite <- Hm. replace (k + 1 - 1) with k by lia. split; [lia|]. apply Z.pow_lt_mono_r; lia. }
  rewrite <- Hm, <- Z.pow_add_r by lia. replace (k + (53 - (k + 1))) with 52 by lia. f_equal. lia.
Qed.

(** Scaling by a power of two only moves the exponent. *)
Lemma f64_mul_pow2 n k :
  0 <= n < 2 ^ 53 → 0 <= k <= 52 → f64_as_usize (f64_mul (f64_of n) (f64_of (2 ^ k))) = Z.min (n * 2 ^ k) U64_MAX.
Proof.
  intros [H0 Hn] Hk. rewrite f64_of_pow2 by done. destruct n as [|m|m]; [done| |lia].
  destruct (f64_of_exact m Hn) as [Hd ->]. set (d := Zpos (digits2_pos m)) in *. assert (1 <= d) by (unfold d; lia).
  pose proof (mantissa_normal m d eq_refl Hd) as HM. set (M := Zpos m * 2 ^ (53 - d)) in *.
  assert (Zpos (digits2_pos (Z.to_pos M * 2 ^ 52)) = 105) as HD.
  { apply digits2_unique; [lia|]. rewrite Pos2Z.inj_mul, Z2Pos.id by lia. change (Zpos (2 ^ 52)) with (2 ^ 52).
    change (2 ^ (105 - 1)) with (2 ^ 52 * 2 ^ 52). change (2 ^ 105) with (2 ^ 53 * 2 ^ 52). nia. }
  unfold f64_mul, SFmul. cbn [xorb].
  destruct (round_aux_spec false (Z.to_pos M * 2 ^ 52) (d - 53 + (k - 52))) as (r & _ & _ & Hex & ->); [lia|lia|].
  rewrite HD in *. change (105 - 53) with 52 in *. rewrite Pos2Z.inj_mul, Z2Pos.id in Hex by lia.
  change (Zpos (2 ^ 52)) with (2 ^ 52) in Hex. rewrite Z.mod_mul, Z.div_mul in Hex by lia. rewrite (Hex eq_refl).
  unfold carried. rewrite decide_False by lia. cbn [f64_as_usize]. rewrite Z2Pos.id by lia.
  replace (d - 53 + (k - 52) + 52) with (d + k - 53) by lia. unfold M. by rewrite scaled_floor_exact by lia.
Qed.

(** The digits of a printed number are the number. *)
Lemma take_digits_stop acc n s c t :
  Forall (λ x, is_digit x = true) s → is_digit c = false →
  take_digits acc n (s ++ c :: t) = (foldl (λ a x, a * 10 + (x - 48)) acc s, (n + length s)%nat, c :: t).
Proof.
  intros Hs Hc. revert acc n. induction Hs as [|x s Hx Hs IH]; intros acc n; cbn [app take_digits foldl length].
  - by rewrite Hc, Nat.add_0_r.
  - rewrite Hx, IH. do 2 f_equal. lia.
Qed.

Lemma take_digits_all acc n s :
  Forall (λ x, is_digit x = true) s → take_digits acc n s = (foldl (λ a x, a * 10 + (x - 48)) acc s, (n + length s)%nat, []).
Proof.
  intros Hs. revert acc n. induction Hs as [|x s Hx Hs IH]; intros acc n; cbn [take_digits foldl length].
  - by rewrite Nat.add_0_r.
  - rewrite Hx, IH. do 2 f_equal. lia.
Qed.

Lemma parse_digits_foldl max acc s v :
  parse_digits max acc s = Some v → foldl (λ a x, a * 10 + (x - 48)) acc s = v.
Proof.
  revert acc. induction s as [|c s IH]; intros acc; cbn [parse_digits foldl]; [by intros [= ->]|].
  destruct (is_digit c); [|done]. destruct (_ <=? max); [|done]. apply IH.
Qed.

Lemma take_sign_digits s : Forall (λ x, is_digit x = true) s → take_sign s = (false, s).
Proof.
  intros Hs. destruct Hs as [|c s Hc _]; [done|]. cbn [take_sign].
  destruct (Z.eqb_spec c 45) as [->|_]; [done|]. by destruct (Z.eqb_spec c 43) as [->|_].
Qed.

Lemma parse_f64_display n : 0 <= n <= U64_MAX → parse_f64 (display n) = Some (f64_of n).
Proof.
  intros Hn. pose proof (display_digits n ltac:(lia)) as Hd. unfold parse_f64. rewrite take_sign_digits by done.
  assert (foldl (λ a x, a * 10 + (x - 48)) 0 (display n) = n) as Hv.
  { apply (parse_digits_foldl U64_MAX), dec_parse; [done|unfold U64_MAX in *; lia|lia]. }
  unfold parse_number. rewrite take_digits_all, Hv by done. rewrite Nat.add_0_l, Nat.add_0_r.
  assert (length (display n) ≠ 0%nat) as Hne by (intros Hl%nil_length_inv; by apply (display_nonempty n)).
  destruct (length (display n)); [done|]. cbn [parse_exponent mbind option_bind]. f_equal.
  destruct n as [|m|m]; [done| |lia]. unfold f64_decimal. cbn. by rewrite Pos.mul_1_r.
Qed.
