(* ===== verification/BenchStats.v ===== *)
(** * What the CPU benchmark computes in floating point

    [parse_size], the rates and percentiles, and the report of
    [examples/cpu_bench.rs]. *)

From Stdlib Require Import SpecFloat.
From S2P Require Import Prelude Text Session Floats.

(** ** Sizes *)

(** [s.ends_with(..)] and the slice before the suffix. *)
Definition strip_suffix (suffix s : bytes) : option bytes :=
  let n := (length s - length suffix)%nat in
  if decide (s = take n s ++ suffix) then Some (take n s) else None.

Definition parse_size (s : bytes) : outcome usize :=
  let s := to_lower (trim s) in
  let '(num_str, multiplier) :=
    match strip_suffix (str "tb") s with
    | Some n => (n, Z.shiftl 1 40)
    | None =>
    match strip_suffix (str "gb") s with
    | Some n => (n, Z.shiftl 1 30)
    | None =>
    match strip_suffix (str "mb") s with
    | Some n => (n, Z.shiftl 1 20)
    | None =>
    match strip_suffix (str "kb") s with
    | Some n => (n, Z.shiftl 1 10)
    | None => (s, 1)
    end end end end in
  num ← unwrap (parse_f64 num_str);
  Ret (f64_as_usize (f64_mul num (f64_of multiplier))).

Definition format_size (bytes : usize) : list u8 :=
  if Z.shiftl 1 30 <=? bytes then format_fixed 1 (f64_div (f64_of bytes) (f64_of (Z.shiftl 1 30))) ++ str "GB"
  else if Z.shiftl 1 20 <=? bytes then format_fixed 0 (f64_div (f64_of bytes) (f64_of (Z.shiftl 1 20))) ++ str "MB"
  else if Z.shiftl 1 10 <=? bytes then format_fixed 0 (f64_div (f64_of bytes) (f64_of (Z.shiftl 1 10))) ++ str "KB"
  else display bytes ++ str "B".

Example parse_size_examples :
  parse_size (str " 1.5KB ") = Ret 1536 ∧ parse_size (str "0.5tb") = Ret (2 ^ 39) ∧ parse_size (str "12") = Ret 12 ∧
  parse_size (str "nan") = Ret 0 ∧ parse_size (str "-3mb") = Ret 0 ∧ parse_size (str "infGB") = Ret U64_MAX ∧
  parse_size (str "17179869184gb") = Ret U64_MAX ∧ parse_size (str "512b") = Panicked ∧ parse_size (str "kb") = Panicked.
Proof. by vm_compute. Qed.

(** ** Rates and percentiles *)

Definition gib_per_sec (bytes : usize) (secs : f64) : f64 :=
  if f64_leb secs (f64_of 0) then f64_of 0
  else f64_div (f64_div (f64_of bytes) secs) (f64_mul (f64_mul (f64_of 1024) (f64_of 1024)) (f64_of 1024)).

Definition gbps (bytes : usize) (secs : f64) : f64 :=
  if f64_leb secs (f64_of 0) then f64_of 0
  else f64_div (f64_div (f64_mul (f64_of bytes) (f64_of 8)) secs) (f64_decimal false 1 9).

(** [percentile(sorted, p)]. *)
Definition percentile (sorted : list f64) (p : f64) : outcome f64 :=
  match sorted with
  | [] => Ret (f64_of 0)
  | _ =>
      let len := Z.of_nat (length sorted) in
      let idx := Z.min (Z.max (f64_as_usize (f64_ceil (f64_mul (f64_of len) p)) - 1) 0) (len - 1) in
      unwrap (sorted !! Z.to_nat idx)
  end.

(** The literals [0.50], [0.95] and [0.99]. *)
Definition percent (q : Z) : f64 := f64_decimal false q (-2).

(** The end of [timed] in [gpu_rdma_bench.rs]: best and mean GiB/s. *)
Definition f64_min (a b : f64) : f64 :=
  match a, b with
  | S754_nan, _ => b
  | _, S754_nan => a
  | _, _ => if f64_leb a b then a else b
  end.

Definition rates (bytes : usize) (secs : list f64) : f64 * f64 :=
  let gib := f64_div (f64_of bytes) (f64_of (2 ^ 30)) in
  (f64_div gib (foldl f64_min (S754_infinity false) secs),
   f64_div gib (f64_div (foldl f64_add (f64_of 0) secs) (f64_of (Z.of_nat (length secs))))).

Example rates_example :
  rates (3 * 2 ^ 30) [f64_of 2; f64_decimal false 5 (-1); f64_decimal false 5 (-1)] = (f64_of 6, f64_of 3).
Proof. by vm_compute. Qed.

(** ** The report *)

Record TaskResult : Type := mkTaskResult {
  latency_ms : f64;
  tr_bytes : usize;
}.

Record BenchResult : Type := mkBenchResult {
  br_label : bytes;
  br_tasks : list TaskResult;
}.

Definition op_debug (op : TransferOp) : bytes := match op with Read => str "Read" | Write => str "Write" end.

Section Profile.
Context `{BuildProfile}.

(** [.sum::<usize>()]. *)
Fixpoint sum_bytes (tasks : list usize) (sum : usize) : outcome usize :=
  match tasks with
  | [] => Ret sum
  | b :: tasks => sum ← u64_add sum b; sum_bytes tasks sum
  end.

(** Bytes and blocks per task on average. *)
Definition bench_averages (tasks : list usize) (block_size : usize) : outcome (usize * usize) :=
  total ← sum_bytes tasks 0;
  let avg_bytes := total / Z.max (Z.of_nat (length tasks)) 1 in
  if block_size =? 0 then Panicked else Ret (avg_bytes, avg_bytes / block_size).

Definition print_bench_result (result : BenchResult) (op : TransferOp) (block_size : usize) (numa : u32)
    (nic_count : nat) : outcome (list bytes) :=
  let latencies := sort_floats (latency_ms <$> br_tasks result) in
  '(avg_bytes, avg_blocks) ← bench_averages (tr_bytes <$> br_tasks result) block_size;
  p50 ← percentile latencies (percent 50);
  p95 ← percentile latencies (percent 95);
  p99 ← percentile latencies (percent 99);
  let nics := display (Z.of_nat nic_count) in
  let mb := format_fixed 1 (f64_div (f64_of avg_bytes) (f64_mul (f64_of 1024) (f64_of 1024))) in
  let secs := f64_div p50 (f64_of 1000) in
  Ret [ [];
        if decide (nic_count = 1%nat)
        then str "=== RDMA " ++ op_debug op ++ str " — " ++ br_label result ++ str " (NUMA" ++ display numa ++ str ", single NIC) ==="
        else str "=== RDMA " ++ op_debug op ++ str " — NUMA" ++ display numa ++ str ", " ++ nics ++ str " NICs aggregate ["
             ++ br_label result ++ str "] ===";
        str "  avg " ++ display avg_blocks ++ str " blocks x " ++ format_size block_size ++ str "  (" ++ mb ++ str " MB/task"
          ++ (if (1 <? nic_count)%nat then str ", split across " ++ nics ++ str " NICs)" else str ")");
        str "  p50=" ++ format_fixed 2 p50 ++ str "ms  p95=" ++ format_fixed 2 p95 ++ str "ms  p99=" ++ format_fixed 2 p99 ++ str "ms";
        str "  p50 equiv: " ++ format_fixed 1 (gbps avg_bytes secs) ++ str " Gbps (" ++ format_fixed 2 (gib_per_sec avg_bytes secs)
          ++ str " GiB/s)" ].

End Profile.

(** ** Whole sizes are exact *)

Definition unit_suffix (k : Z) : bytes :=
  if k =? 40 then str "tb" else if k =? 30 then str "gb" else if k =? 20 then str "mb" else if k =? 10 then str "kb" else [].

Lemma display_clean n : 0 <= n → Forall (λ c, is_space c = false ∧ (65 <=? c) && (c <=? 90) = false) (display n).
Proof.
  intros Hn. eapply Forall_impl; [by apply display_digits|]. intros c. unfold is_digit, is_space.
  rewrite !andb_true_iff, !Z.leb_le. intros [? ?]. split.
  - apply orb_false_iff. rewrite andb_false_iff, !Z.leb_gt, Z.eqb_neq. lia.
  - apply andb_false_iff. rewrite !Z.leb_gt. lia.
Qed.

Lemma trim_start_clean s : Forall (λ c, is_space c = false) s → trim_start s = s.
Proof. intros Hs. destruct Hs as [|c s Hc _]; [done|]. cbn [trim_start]. by rewrite Hc. Qed.

Lemma clean_text s :
  Forall (λ c, is_space c = false ∧ (65 <=? c) && (c <=? 90) = false) s → to_lower (trim s) = s.
Proof.
  intros Hs. assert (Forall (λ c, is_space c = false) s) as Hsp by (eapply Forall_impl; [exact Hs|]; by intros c [? _]).
  unfold trim. rewrite (trim_start_clean s) by done. rewrite trim_start_clean, reverse_involutive by (by apply Forall_reverse).
  unfold to_lower. induction Hs as [|c s [_ Hc] _ IH]; [done|]. apply Forall_cons in Hsp as [_ Hsp]. by rewrite fmap_cons, Hc, IH.
Qed.

Lemma strip_suffix_app suffix s : strip_suffix suffix (s ++ suffix) = Some s.
Proof. unfold strip_suffix. rewrite length_app, Nat.add_sub, take_app_length. by rewrite decide_True. Qed.

Lemma strip_suffix_other suffix s t : length suffix = length t → suffix ≠ t → strip_suffix suffix (s ++ t) = None.
Proof.
  intros Hl Hne. unfold strip_suffix. rewrite decide_False; [done|]. intros Heq. rewrite length_app, Hl, Nat.add_sub, take_app_length in Heq.
  by apply app_inv_head in Heq.
Qed.

Lemma strip_suffix_digits suffix c s :
  last suffix = Some c → is_digit c = false → Forall (λ x, is_digit x = true) s → strip_suffix suffix s = None.
Proof.
  intros Hl Hc Hs. unfold strip_suffix. rewrite decide_False; [done|]. intros Heq. rewrite Heq in Hs.
  apply Forall_app in Hs as [_ Hs]. rewrite Forall_forall in Hs. apply last_Some in Hl as [l' ->].
  specialize (Hs c). rewrite Hc in Hs. discriminate Hs. apply elem_of_app. right. by left.
Qed.

(** C37: [parse_size] reads a whole number of bytes, KB, MB, GB or TB exactly:
    below [2^53] units neither the decimal conversion nor the product in
    floating point rounds, and a size past [u64] is the largest one. *)
Theorem parse_size_exact n k :
  k ∈ [0; 10; 20; 30; 40] → 0 <= n < 2 ^ 53 → parse_size (display n ++ unit_suffix k) = Ret (Z.min (n * 2 ^ k) U64_MAX).
Proof.
  intros Hk Hn. pose proof (display_digits n ltac:(lia)) as Hd.
  assert (0 <= k <= 52) as Hk52 by (rewrite !elem_of_cons, elem_of_nil in Hk; lia).
  unfold parse_size. rewrite clean_text.
  2: { apply Forall_app. split; [apply display_clean; lia|]. rewrite !elem_of_cons, elem_of_nil in Hk.
       destruct Hk as [->|[->|[->|[->|[->|[]]]]]]; by repeat constructor. }
  assert (parse_f64 (display n) = Some (f64_of n)) as Hp by (apply parse_f64_display; unfold U64_MAX; lia).
  assert (∀ m, m = 2 ^ k → (num ← unwrap (parse_f64 (display n)); Ret (f64_as_usize (f64_mul num (f64_of m)))) = Ret (Z.min (n * 2 ^ k) U64_MAX)) as Hnum.
  { intros m ->. rewrite Hp. cbn [unwrap mbind outcome_bind]. by rewrite f64_mul_pow2 by done. }
  rewrite !elem_of_cons, elem_of_nil in Hk. destruct Hk as [->|[->|[->|[->|[->|[]]]]]]; cbn [unit_suffix Z.eqb Pos.eqb].
  - rewrite app_nil_r. rewrite !(strip_suffix_digits _ 98) by done. by apply Hnum.
  - rewrite !(strip_suffix_other _ _ (str "kb")) by done. rewrite strip_suffix_app. by apply Hnum.
  - rewrite !(strip_suffix_other _ _ (str "mb")) by done. rewrite strip_suffix_app. by apply Hnum.
  - rewrite !(strip_suffix_other _ _ (str "gb")) by done. rewrite strip_suffix_app. by apply Hnum.
  - rewrite strip_suffix_app. by apply Hnum.
Qed.

Lemma parse_size_exact_witness : parse_size (str "80gb") = Ret (80 * 2 ^ 30).
Proof.
  change (str "80gb") with (display 80 ++ unit_suffix 30). rewrite (parse_size_exact 80 30); [done| |lia].
  rewrite !elem_of_cons. auto.
Defined.

(** ** Printed sizes read back *)

Definition reads_back (n : usize) : bool := match parse_size (format_size n) with Ret m => m =? n | _ => false end.

Lemma reads_back_all u : u ∈ [10; 20; 30] → forallb (λ k, reads_back (k * 2 ^ u)) (seqZ 1 1023) = true.
Proof. rewrite !elem_of_cons, elem_of_nil. intros [->|[->|[->|[]]]]; by vm_compute. Qed.

(** A size that is a whole number of KB, MB or GB (below 1024 of them) is
    printed so that [parse_size] reads the same size back: the division, the
    decimal digits and the conversion back lose nothing. *)
Theorem size_roundtrip k u : u ∈ [10; 20; 30] → 1 <= k < 1024 → parse_size (format_size (k * 2 ^ u)) = Ret (k * 2 ^ u).
Proof.
  intros Hu Hk. pose proof (reads_back_all u Hu) as Hall. rewrite forallb_forall in Hall.
  specialize (Hall k). unfold reads_back in Hall.
  destruct (parse_size (format_size (k * 2 ^ u))) as [m| |]; [|discriminate Hall..].
  1: f_equal; apply Z.eqb_eq, Hall. all: apply list_elem_of_In, elem_of_seqZ; lia.
Qed.

Lemma size_roundtrip_witness : format_size (64 * 2 ^ 20) = str "64MB" ∧ parse_size (str "64MB") = Ret (64 * 2 ^ 20).
Proof.
  split; [by vm_compute|]. change (str "64MB") with (format_size (64 * 2 ^ 20)). apply size_roundtrip; [|lia].
  rewrite !elem_of_cons. auto.
Defined.

(** ** Percentiles *)

(** How many samples of [l] are at most, and below, [v]. *)
Definition at_most (v : f64) (l : list f64) : Z := Z.of_nat (length (filter (λ x, total_key x <= total_key v) l)).
Definition below (v : f64) (l : list f64) : Z := Z.of_nat (length (filter (λ x, total_key x < total_key v) l)).

Lemma at_most_cons v x l : at_most v (x :: l) = (if decide (total_key x <= total_key v) then 1 else 0) + at_most v l.
Proof. unfold at_most. rewrite filter_cons. case_decide; simpl length; lia. Qed.

Lemma below_cons v x l : below v (x :: l) = (if decide (total_key x < total_key v) then 1 else 0) + below v l.
Proof. unfold below. rewrite filter_cons. case_decide; simpl length; lia. Qed.

Lemma below_none v l : Forall (total_le v) l → below v l = 0.
Proof. induction 1 as [|x l Hx _ IH]; [done|]. rewrite below_cons, IH. unfold total_le in Hx. case_decide; lia. Qed.

(** The rank of an element of a sorted list. *)
Lemma sorted_rank l i v :
  StronglySorted total_le l → l !! i = Some v → Z.of_nat i + 1 <= at_most v l ∧ below v l <= Z.of_nat i.
Proof.
  intros Hs. revert i. induction Hs as [|x l Hs IH Hx]; intros i Hi; [done|]. rewrite at_most_cons, below_cons. destruct i as [|i].
  - injection Hi as <-. rewrite (below_none x l Hx). unfold at_most. repeat case_decide; lia.
  - cbn in Hi. destruct (IH i Hi) as [Ha Hb]. rewrite Forall_forall in Hx. specialize (Hx v (list_elem_of_lookup_2 _ _ _ Hi)).
    unfold total_le in Hx. repeat case_decide; lia.
Qed.

Lemma at_most_perm v l l' : l ≡ₚ l' → at_most v l = at_most v l'.
Proof. intros Hp. unfold at_most. by rewrite Hp. Qed.
Lemma below_perm v l l' : l ≡ₚ l' → below v l = below v l'.
Proof. intros Hp. unfold below. by rewrite Hp. Qed.

(** [percentile] never indexes out of bounds. *)
Lemma percentile_returns l p : ∃ v, percentile l p = Ret v.
Proof.
  destruct l as [|x l]; [by eexists|]. unfold percentile.
  destruct ((x :: l) !! Z.to_nat _) as [v|] eqn:Hv; [by exists v|]. apply lookup_ge_None in Hv. simpl length in Hv. lia.
Qed.

(** The literals sit at or just below the fraction they stand for. *)
Lemma percent_mantissa q :
  q ∈ [50; 95; 99] → ∃ c, percent q = SpecFloat.S754_finite false c (-53) ∧ 2 ^ 52 <= Zpos c < 2 ^ 53 ∧ 0 <= q * 2 ^ 53 - 100 * Zpos c <= 100.
Proof.
  rewrite !elem_of_cons, elem_of_nil. intros [->|[->|[->|[]]]]; (eexists; split; [by vm_compute|lia]).
Qed.

(** The rank the code computes in floating point is the exact one. *)
Lemma percentile_lookup s q :
  q ∈ [50; 95; 99] → s ≠ [] → Z.of_nat (length s) < 2 ^ 40 →
  let rank := (Z.of_nat (length s) * q + 99) / 100 in
  1 <= rank <= Z.of_nat (length s) ∧ percentile s (percent q) = unwrap (s !! Z.to_nat (rank - 1)).
Proof.
  intros Hq Hne Hlen rank. destruct (percent_mantissa q Hq) as (c & Hc & Hm & Herr).
  assert (0 < q <= 100) as Hq0 by (rewrite !elem_of_cons, elem_of_nil in Hq; lia).
  assert (0 < Z.of_nat (length s)) as Hpos by (destruct s; [done|simpl; lia]).
  assert (1 <= rank <= Z.of_nat (length s)) as Hrank.
  { unfold rank. split; [apply Z.div_le_lower_bound; nia|]. apply Z.lt_succ_r, Z.div_lt_upper_bound; nia. }
  split; [done|]. unfold percentile. destruct s as [|x s']; [done|]. set (s := x :: s') in *. rewrite Hc.
  assert (∃ n, Z.of_nat (length s) = Zpos n) as [n Hn] by (destruct (Z.of_nat (length s)); [lia|by eexists|lia]).
  unfold rank in *. rewrite Hn in *. rewrite (ceil_percent n c q) by lia. do 2 f_equal. lia.
Qed.

(** C36: The reported latencies are nearest-rank percentiles: for the ranks the
    benchmark reports, 50, 95 and 99 percent, and [n] measured tasks, fewer than
    [2^40], at least [⌈n·q/100⌉] took at most [p_q], and fewer than that took
    less; the product in floating point never moves the rank, and the index is in
    bounds. *)
Theorem percentile_nearest_rank l q :
  q ∈ [50; 95; 99] → l ≠ [] → Z.of_nat (length l) < 2 ^ 40 →
  let rank := (Z.of_nat (length l) * q + 99) / 100 in
  ∃ v, percentile (sort_floats l) (percent q) = Ret v ∧ v ∈ l ∧ rank <= at_most v l ∧ below v l < rank.
Proof.
  intros Hq Hne Hlen rank. set (s := sort_floats l). assert (s ≡ₚ l) as Hp by apply merge_sort_Permutation.
  assert (StronglySorted total_le s) as Hs by (apply StronglySorted_merge_sort; apply _).
  assert (length s = length l) as Hl by (by apply Permutation_length).
  destruct (percentile_lookup s q Hq) as [Hrank Hpc]; [intros He; rewrite He in Hp; by apply Permutation_nil_l in Hp|lia|].
  rewrite Hl in Hrank, Hpc. fold rank in Hrank, Hpc.
  destruct (lookup_lt_is_Some_2 s (Z.to_nat (rank - 1))) as [v Hv]; [lia|]. exists v. rewrite Hpc, Hv.
  destruct (sorted_rank s _ v Hs Hv) as [Ha Hb]. rewrite (at_most_perm v s l Hp) in Ha. rewrite (below_perm v s l Hp) in Hb.
  split; [done|]. split; [rewrite <- Hp; by eapply list_elem_of_lookup_2|lia].
Qed.

Lemma percentile_nearest_rank_witness :
  let l := f64_of <$> [7; 3; 9; 1; 5] in
  ∃ v, percentile (sort_floats l) (percent 95) = Ret v ∧ v ∈ l ∧ 5 <= at_most v l ∧ below v l < 5.
Proof.
  intros l. change 5 with ((Z.of_nat (length l) * 95 + 99) / 100).
  apply (percentile_nearest_rank l 95); [rewrite !elem_of_cons; auto|discriminate|by vm_compute].
Defined.

(** ** The report is printed *)

Section Report.
Context `{BuildProfile}.

Lemma sum_bytes_ok tasks sum :
  Forall (λ b, 0 <= b) tasks → 0 <= sum → sum + zsum tasks <= U64_MAX → sum_bytes tasks sum = Ret (sum + zsum tasks).
Proof.
  intros Ht. revert sum. induction Ht as [|b tasks Hb Ht IH]; intros sum H0 Hs; cbn [sum_bytes].
  { by rewrite zsum_nil, Z.add_0_r. }
  rewrite zsum_cons in Hs |- *. pose proof (zsum_nonneg _ Ht). rewrite u64_add_ok by (unfold is_u64; lia).
  cbn [mbind outcome_bind]. rewrite IH by lia. f_equal. lia.
Qed.

Lemma averages_ok tasks block_size :
  Forall (λ b, 0 <= b) tasks → zsum tasks <= U64_MAX → block_size ≠ 0 → ∃ a, bench_averages tasks block_size = Ret a.
Proof.
  intros Ht Hs Hb. unfold bench_averages. rewrite sum_bytes_ok by (done || lia). cbn [mbind outcome_bind].
  rewrite (proj2 (Z.eqb_neq _ _)) by done. by eexists.
Qed.

Lemma print_bench_result_ok r op block_size numa nic_count :
  Forall (λ b, 0 <= b) (tr_bytes <$> br_tasks r) → zsum (tr_bytes <$> br_tasks r) <= U64_MAX → block_size ≠ 0 →
  ∃ out, print_bench_result r op block_size numa nic_count = Ret out ∧ length out = 5%nat.
Proof.
  intros Ht Hs Hb. destruct (averages_ok _ _ Ht Hs Hb) as [[a b] Ha]. unfold print_bench_result. rewrite Ha. cbn [mbind outcome_bind].
  destruct (percentile_returns (sort_floats (latency_ms <$> br_tasks r)) (percent 50)) as [? ->].
  destruct (percentile_returns (sort_floats (latency_ms <$> br_tasks r)) (percent 95)) as [? ->].
  destruct (percentile_returns (sort_floats (latency_ms <$> br_tasks r)) (percent 99)) as [? ->].
  cbn [mbind outcome_bind]. by eexists.
Qed.
End Report.

Example report_example :
  let ms n := f64_mul (as_secs_f64 (mkDuration 0 (n * 1000000))) (f64_of 1000) in
  @print_bench_result true (mkBenchResult (str "mlx5_0") [mkTaskResult (ms 4) 104857600; mkTaskResult (ms 2) 104857600]) Read 1048576 0 1
  = Ret [ []; str "=== RDMA Read — mlx5_0 (NUMA0, single NIC) ===";
          str "  avg 100 blocks x 1MB  (100.0 MB/task)"; str "  p50=2.00ms  p95=4.00ms  p99=4.00ms";
          str "  p50 equiv: 419.4 Gbps (48.83 GiB/s)" ].
Proof. by vm_compute. Qed.
