(* ===== verification/CpuBench.v ===== *)
(** * The CPU benchmark: [examples/cpu_bench.rs]

    Its arguments, its buffers, the pair of engines of one run and the run.  The
    operating system, the verbs driver and the hardware are the fields of
    [BenchSys], the clock among them; what is printed is a list of lines. *)

From S2P Require Import Prelude HostMem RegMap Session RcBackend RcBatch Handshake HandshakeInv HandshakeTheorems Engine EngineTransfer Text Numa RdmaTopo SplitMix BenchBlocks Floats BenchStats.

(** [.expect(..)] on a [Result]. *)
Definition expect {E A} (r : result E A) : outcome A := match r with Ok a => Ret a | Err _ => Panicked end.

(** [assert!]. *)
Definition assert (b : bool) : outcome unit := if b then Ret tt else Panicked.

(** ** Arguments *)

Definition parse_block_range (s : bytes) : outcome (usize * usize) :=
  match split_once DASH s with
  | Some (lo, hi) =>
      lo ← unwrap (parse_usize (trim lo));
      hi ← unwrap (parse_usize (trim hi));
      _ ← assert (lo <=? hi);
      _ ← assert (0 <? lo);
      Ret (lo, hi)
  | None =>
      n ← unwrap (parse_usize (trim s));
      _ ← assert (0 <? n);
      Ret (n, n)
  end.

(** ** Huge pages *)

Section Profile.
Context `{BuildProfile}.

(** [split_whitespace]. *)
Fixpoint words (cur : bytes) (s : bytes) : list bytes :=
  match s with
  | [] => match cur with [] => [] | _ => [reverse cur] end
  | c :: s =>
      if is_space c then match cur with [] => words [] s | _ => reverse cur :: words [] s end
      else words (c :: cur) s
  end.
Definition split_whitespace (s : bytes) : list bytes := words [] s.

Fixpoint hugepage_line (ls : list bytes) : outcome (option usize) :=
  match ls with
  | [] => Ret None
  | line :: ls =>
      if starts_with (str "Hugepagesize:") line then
        match split_whitespace line with
        | [_; n; unit] =>
            if decide (unit = str "kB") then
              match parse_usize n with
              | None => Ret None
              | Some kb => size ← u64_mul kb 1024; Ret (Some size)
              end
            else hugepage_line ls
        | _ => hugepage_line ls
        end
      else hugepage_line ls
  end.

Definition read_hugepage_size_from_proc (meminfo : option bytes) : outcome (option usize) :=
  match meminfo with None => Ret None | Some content => hugepage_line (lines content) end.

(** [usize::is_power_of_two]. *)
Definition is_power_of_two (v : usize) : bool := (0 <? v) && (v =? 2 ^ Z.log2 v).

Definition align_up (value align : usize) : outcome usize :=
  _ ← assert (is_power_of_two align);
  v ← u64_add value align;
  v ← u64_sub v 1;
  m ← u64_sub align 1;
  Ret (Z.land v (Z.lxor m U64_MAX)).
End Profile.

(** ** The machine *)

Section Bench.
Context {MR : Type} (rkey : MR → u32) `{BuildProfile}.
Context (post : TransferOp → u64 → list (RdmaOp MR) → option string).
Abbreviation Engine := (TransferEngine (MR := MR)).
Abbreviation Cmd := (SessionCommand (MR := MR)).

(** What the benchmark asks of the system: sysfs, [sched_setaffinity],
    [/proc/meminfo], [mmap] (which depends on what is mapped), the NICs, memory
    registration, queue pairs on either side, and how long each task of a run
    took. *)
Record BenchSys : Type := mkBenchSys {
  by_sysfs : option (option (list node_entry));
  by_setaffinity : list usize → bool;
  by_meminfo : option bytes;
  by_mmap : heap → usize → bool → option u64;
  by_open : string → result TransferError RcRuntime;
  by_page_numa : u64 → u32;
  by_reg_mr : nat → u64 → usize → result string MR;
  by_server_qp : nat → u64 → result string u32;
  by_client_qp : nat → u64 → result string u32;
  by_server_modify : nat → RcSession → RcEndpoint → option string;
  by_client_modify : nat → RcSession → RcEndpoint → option string;
  by_elapsed : string → TransferOp → nat → Duration;
}.

Variable sys : BenchSys.

(** ** [NumaBuffer] *)

Record NumaBuffer : Type := mkNumaBuffer {
  nb_ptr : u64;
  nb_len : usize;
}.

(** A new mapping, every byte [b]. *)
Definition map_range (h : heap) (p len : Z) (b : u8) : heap := list_to_map ((λ x, (x, b)) <$> seqZ p len) ∪ h.
Definition unmap_range (h : heap) (p len : Z) : heap := filter (λ '(x, _), ¬ (p <= x < p + len)) h.

(** The length mapped: whole huge pages if asked for. *)
Definition mmap_len (len : usize) (use_hugepages : bool) : outcome usize :=
  if use_hugepages then
    o ← read_hugepage_size_from_proc (by_meminfo sys);
    size ← unwrap o;
    align_up len size
  else Ret len.

(** [NumaBuffer::alloc]: the thread that maps and touches the pages is pinned to
    the node first; a panic in it is a panic of the caller, which joins it. *)
Definition buffer_alloc (numa_node : u32) (len : usize) (use_hugepages : bool) (h : heap) : outcome (heap * NumaBuffer) :=
  _ ← assert (0 <? len);
  topo ← expect (read_cpu_topology_from_sysfs (by_sysfs sys));
  cpus ← unwrap (topo !! numa_node);
  n ← mmap_len len use_hugepages;
  _ ← assert (negb (existsb (λ c, CPU_SETSIZE <=? c) cpus));
  _ ← assert (by_setaffinity sys cpus);
  p ← unwrap (by_mmap sys h n use_hugepages);
  _ ← assert (negb (p =? 0));
  Ret (map_range h p n 0xAB, mkNumaBuffer p n).

(** [fill]: [write_bytes] over the mapping. *)
Definition buffer_fill (b : NumaBuffer) (pattern : u8) (h : heap) : outcome heap :=
  deref (store h (nb_ptr b) (replicate (Z.to_nat (nb_len b)) pattern)).

(** [Drop for NumaBuffer]: [munmap]. *)
Definition buffer_drop (b : NumaBuffer) (h : heap) : heap := unmap_range h (nb_ptr b) (nb_len b).

(** ** [EngineContext] *)

Record EngineContext : Type := mkContext {
  cx_label : string;
  cx_server : Engine;
  cx_client : Engine;
  cx_server_buf : NumaBuffer;
  cx_client_buf : NumaBuffer;
  cx_server_region : RegionDescriptor;
}.

(** [register_host(..).expect(..)]. *)
Definition register_buffer (e : Engine) (b : NumaBuffer) (len : usize) : outcome (Engine * RegionDescriptor) :=
  '(e, r) ← engine_register_host rkey (by_page_numa sys) (by_reg_mr sys) e (nb_ptr b) len;
  d ← expect r;
  Ret (e, d).

Definition create_engine_context (label : string) (nic_names : list string) (numa_node : u32) (buf_size : usize)
    (use_hugepages : bool) (qps_per_peer : nat) (h : heap) : outcome (heap * EngineContext) :=
  '(h, server_buf) ← buffer_alloc numa_node buf_size use_hugepages h;
  '(h, client_buf) ← buffer_alloc numa_node buf_size use_hugepages h;
  h ← buffer_fill server_buf 0xAA h;
  h ← buffer_fill client_buf 0xBB h;
  server ← expect (engine_new (by_open sys) nic_names qps_per_peer);
  '(server, server_region) ← register_buffer server server_buf buf_size;
  client ← expect (engine_new (by_open sys) nic_names qps_per_peer);
  '(client, _) ← register_buffer client client_buf buf_size;
  '(server, client) ← connect_as "bench-server" "bench-client" (by_server_qp sys) (by_client_qp sys)
                        (by_server_modify sys) (by_client_modify sys) server client;
  let expected_qps := Z.of_nat (length nic_names * qps_per_peer) in
  _ ← assert (engine_num_qps server =? expected_qps);
  _ ← assert (engine_num_qps client =? expected_qps);
  Ret (h, mkContext label server client server_buf client_buf server_region).

(** [cleanup_engine_context]: failures are only logged. *)
Definition cleanup_engine_context (cx : EngineContext) : EngineContext :=
  mkContext (cx_label cx) (engine_unregister (cx_server cx) (nb_ptr (cx_server_buf cx))).1
    (engine_unregister (cx_client cx) (nb_ptr (cx_client_buf cx))).1
    (cx_server_buf cx) (cx_client_buf cx) (cx_server_region cx).

(** ** [run_bench] *)

(** The loop over the receivers: the count of bytes is not looked at; [None]
    while a batch is still spinning. *)
Fixpoint receive_each (hw : Cmd → list poll) (sent : list Cmd) : outcome (option unit) :=
  match sent with
  | [] => Ret (Some tt)
  | c :: sent =>
      match execute_batch post (cmd_ops c) (cmd_op c) (hw c) with
      | Finished (Ok _) _ => receive_each hw sent
      | Finished (Err _) _ => Panicked
      | Spinning _ => Ret None
      end
  end.

(** One task: its scatter list, the batch, all answers. *)
Definition run_task (fuel : nat) (alive : RcSession → bool) (hw : Cmd → list poll) (op : TransferOp) (local_base : u64)
    (remote : RegionDescriptor) (nblocks block_size pool_blocks : usize) (client : Engine) (r : SimpleRng)
    : outcome (option (Engine * SimpleRng)) :=
  o ← build_random_block_scatter fuel local_base remote nblocks block_size pool_blocks r;
  match o with
  | None => Ret None
  | Some (descs, r) =>
      '(client, sent, res) ← engine_batch_transfer_async alive client op "bench-server" descs;
      _ ← expect res;
      o ← receive_each hw sent;
      Ret (_ ← o; Some (client, r))
  end.

(** The tasks from the [i]-th on; those after the warm-up are measured. *)
Definition task_result (elapsed : Duration) (bytes : usize) : TaskResult :=
  mkTaskResult (f64_mul (as_secs_f64 elapsed) (f64_of 1000)) bytes.

Fixpoint run_tasks (fuel : nat) (alive : RcSession → bool) (hw : Cmd → list poll) (elapsed : nat → Duration) (op : TransferOp)
    (local_base : u64) (remote : RegionDescriptor) (block_size pool_blocks : usize) (warmup i : nat) (schedule : list usize)
    (client : Engine) (r : SimpleRng) (tasks : list TaskResult) : outcome (option (Engine * list TaskResult)) :=
  match schedule with
  | [] => Ret (Some (client, tasks))
  | nblocks :: schedule =>
      o ← run_task fuel alive hw op local_base remote nblocks block_size pool_blocks client r;
      match o with
      | None => Ret None
      | Some (client, r) =>
          tasks ← (if (warmup <=? i)%nat
                   then bytes ← u64_mul nblocks block_size; Ret (tasks ++ [task_result (elapsed i) bytes]) else Ret tasks);
          run_tasks fuel alive hw elapsed op local_base remote block_size pool_blocks warmup (S i) schedule client r tasks
      end
  end.

(** [run_bench].  The transfers are posted, completed and counted; their effect on
    the two buffers, which nothing here reads, is that of [RdmaData]. *)
Definition run_bench (fuel : nat) (alive : RcSession → bool) (hw : Cmd → list poll) (cx : EngineContext) (op : TransferOp)
    (schedule : list usize) (warmup : nat) (block_size pool_blocks : usize) : outcome (option (Engine * BenchResult)) :=
  o ← run_tasks fuel alive hw (by_elapsed sys (cx_label cx) op) op (nb_ptr (cx_client_buf cx)) (cx_server_region cx)
        block_size pool_blocks warmup 0 schedule (cx_client cx) (rng_new 0xfeed4242) [];
  Ret ('(client, tasks) ← o; Some (client, mkBenchResult (str (cx_label cx)) tasks)).

(** One engine pair of [run_mode]: made, its client buffer zeroed before reads,
    measured, reported, cleaned up and dropped. *)
Definition bench_engine (fuel : nat) (alive : RcSession → bool) (hw : Cmd → list poll) (label : string)
    (nic_names : list string) (numa_node : u32) (pool_size : usize) (use_hugepages : bool) (qps_per_peer : nat)
    (op : TransferOp) (schedule : list usize) (warmup : nat) (block_size pool_blocks : usize) (h : heap)
    : outcome (option (heap * (BenchResult * list bytes))) :=
  '(h, cx) ← create_engine_context label nic_names numa_node pool_size use_hugepages qps_per_peer h;
  h ← match op with Read => buffer_fill (cx_client_buf cx) 0 h | Write => Ret h end;
  o ← run_bench fuel alive hw cx op schedule warmup block_size pool_blocks;
  match o with
  | None => Ret None
  | Some (client, result) =>
      report ← print_bench_result result op block_size numa_node (length nic_names);
      let cx := cleanup_engine_context (mkContext (cx_label cx) (cx_server cx) client (cx_server_buf cx)
                                          (cx_client_buf cx) (cx_server_region cx)) in
      Ret (Some (buffer_drop (cx_client_buf cx) (buffer_drop (cx_server_buf cx) h), (result, report)))
  end.

(** ** [main] *)

(** The arguments as [clap] hands them over. *)
Record Cli : Type := mkCli {
  cli_block_size : bytes;
  cli_blocks_per_task : bytes;
  cli_pool_size : option bytes;
  cli_use_hugepages : bool;
  cli_tasks : usize;
  cli_warmup_tasks : usize;
  cli_mode : string;
  cli_nic : option bytes;
  cli_nics : list bytes;
  cli_exclude_nic : list bytes;
  cli_numa : option u32;
  cli_qps_per_peer : nat;
}.

(** What [main] makes of them; [--nic] and [--nics] together are [cfg_include]. *)
Record Config : Type := mkConfig {
  cfg_block_size : usize;
  cfg_block_range : usize * usize;
  cfg_pool_size : option usize;
  cfg_use_hugepages : bool;
  cfg_tasks : usize;
  cfg_warmup : usize;
  cfg_mode : string;
  cfg_include : gset bytes;
  cfg_exclude : gset bytes;
  cfg_numa : option u32;
  cfg_qps_per_peer : nat;
}.

(** Sizes, the range and the two sets of names. *)
Definition parse_cli (cli : Cli) : outcome Config :=
  block_size ← parse_size (cli_block_size cli);
  block_range ← parse_block_range (cli_blocks_per_task cli);
  pool_size ← match cli_pool_size cli with None => Ret None | Some s => n ← parse_size s; Ret (Some n) end;
  Ret (mkConfig block_size block_range pool_size (cli_use_hugepages cli) (cli_tasks cli) (cli_warmup_tasks cli) (cli_mode cli)
    (list_to_set (option_list (cli_nic cli) ++ cli_nics cli)) (list_to_set (cli_exclude_nic cli)) (cli_numa cli)
    (cli_qps_per_peer cli)).

(** [schedule.iter().max()] and [.min()]. *)
Definition list_max (l : list Z) : option Z := match l with [] => None | x :: l => Some (foldl Z.max x l) end.

Definition list_min (l : list Z) : option Z := match l with [] => None | x :: l => Some (foldl Z.min x l) end.

(** The pool: its size and how many blocks it has. *)
Definition pool_config (cfg : Config) (schedule : list usize) : outcome (usize * usize) :=
  max_blocks ← unwrap (list_max schedule);
  min_pool_size ← u64_mul max_blocks (cfg_block_size cfg);
  let pool_size := default min_pool_size (cfg_pool_size cfg) in
  _ ← assert (cfg_block_size cfg <=? pool_size);
  if cfg_block_size cfg =? 0 then Panicked else Ret (pool_size, pool_size / cfg_block_size cfg).

Definition select_groups (cfg : Config) (groups : list NumaGroup) : list NumaGroup :=
  List.filter (λ g, negb (bool_decide (grp_nics g = [])))
    (List.filter (λ g, match cfg_numa cfg with None => true | Some n => grp_node g =? n end) groups).

Definition select_nics (cfg : Config) (g : NumaGroup) : list RdmaNicInfo :=
  List.filter (λ n, negb (bool_decide (nic_name n ∈ cfg_exclude cfg)))
    (List.filter (λ n, bool_decide (cfg_include cfg = ∅) || bool_decide (nic_name n ∈ cfg_include cfg)) (grp_nics g)).

Definition to_string (b : bytes) : string :=
  foldr (λ c s, String (Ascii.ascii_of_nat (Z.to_nat c)) s) EmptyString b.

(** The engine pairs of [run_mode]: each NIC alone, then all of them. *)
Definition mode_jobs (ns : list RdmaNicInfo) : list (string * list string) :=
  let names := (λ n, to_string (nic_name n)) <$> ns in
  ((λ name, (name, [name])) <$> names) ++
  (if (1 <? length ns)%nat then [(String.concat ", " names, names)] else []).

Definition mode_ops (mode : string) : list TransferOp :=
  if decide (mode = "write"%string) then [Write] else if decide (mode = "read"%string) then [Read] else [Write; Read].

Record Job : Type := mkJob {
  job_numa : u32;
  job_op : TransferOp;
  job_label : string;
  job_nics : list string;
}.

(** The runs in order: groups, modes, engine pairs. *)
Definition bench_plan (cfg : Config) (groups : list NumaGroup) : list Job :=
  g ← select_groups cfg groups;
  op ← mode_ops (cfg_mode cfg);
  '(label, names) ← mode_jobs (select_nics cfg g);
  [mkJob (grp_node g) op label names].

Fixpoint run_jobs (fuel : nat) (alive : RcSession → bool) (hw : Cmd → list poll) (cfg : Config) (schedule : list usize)
    (warmup : nat) (pool_size pool_blocks : usize) (jobs : list Job) (h : heap) (results : list (BenchResult * list bytes))
    : outcome (option (heap * list (BenchResult * list bytes))) :=
  match jobs with
  | [] => Ret (Some (h, results))
  | j :: jobs =>
      o ← bench_engine fuel alive hw (job_label j) (job_nics j) (job_numa j) pool_size (cfg_use_hugepages cfg)
            (cfg_qps_per_peer cfg) (job_op j) schedule warmup (cfg_block_size cfg) pool_blocks h;
      match o with
      | None => Ret None
      | Some (h, result) => run_jobs fuel alive hw cfg schedule warmup pool_size pool_blocks jobs h (results ++ [result])
      end
  end.

(** The schedule and the pool. *)
Definition bench_setup (cfg : Config) : outcome (list usize * (usize * usize)) :=
  total_tasks ← u64_add (cfg_warmup cfg) (cfg_tasks cfg);
  schedule ← generate_task_schedule (Z.to_nat total_tasks) (cfg_block_range cfg) 0x42;
  pool ← pool_config cfg schedule;
  Ret (schedule, pool).

(** The names of a [BTreeSet], in order, with commas. *)
Definition name_list (names : gset bytes) : bytes :=
  join_with (str ", ") (merge_sort (λ a b, Is_true (bytes_leb a b)) (elements names)).

Definition bool_display (b : bool) : bytes := if b then str "true" else str "false".

(** The lines [main] prints before it looks at the machine. *)
Definition print_config (cli : Cli) (cfg : Config) (schedule : list usize) (pool_size pool_blocks : usize) : outcome (list bytes) :=
  max_blocks ← unwrap (list_max schedule);
  min_blocks ← unwrap (list_min schedule);
  min_pool_size ← u64_mul max_blocks (cfg_block_size cfg);
  Ret ([ str "pegastore-cpu-bench: block_size=" ++ cli_block_size cli ++ str " blocks_per_task=" ++ cli_blocks_per_task cli
           ++ str " tasks=" ++ display (cli_tasks cli) ++ str " warmup=" ++ display (cli_warmup_tasks cli)
           ++ str " pool_size=" ++ format_size pool_size ++ str " hugepages=" ++ bool_display (cli_use_hugepages cli);
         str "  random pool: " ++ display pool_blocks ++ str " block(s) of " ++ format_size (cfg_block_size cfg)
           ++ str " usable for random block picks" ]
       ++ (if pool_size <? min_pool_size
           then [str "  note: pool is smaller than max task transfer (" ++ format_size min_pool_size
                   ++ str "); random picks may repeat within a task"] else [])
       ++ (if decide ((cfg_block_range cfg).1 ≠ (cfg_block_range cfg).2)
           then [str "  schedule: min=" ++ display min_blocks ++ str " max=" ++ display max_blocks
                   ++ str " blocks (deterministic seed)"] else [])
       ++ (match cli_nic cli with Some nic => [str "  filter: nic=" ++ nic] | None => [] end)
       ++ (if decide (cfg_include cfg = ∅) then [] else [str "  filter: nics=" ++ name_list (cfg_include cfg)])
       ++ (if decide (cfg_exclude cfg = ∅) then [] else [str "  exclude: nics=" ++ name_list (cfg_exclude cfg)])
       ++ (match cfg_numa cfg with Some n => [str "  filter: numa=" ++ display n] | None => [] end)).

(** The engine pairs on the detected groups: the results of all runs, or the
    reason for exit code 1.  Detection itself ([RdmaTopo.detect_groups]), and the
    heading and progress lines between the runs, are not part of it. *)
Definition bench_groups (fuel : nat) (alive : RcSession → bool) (hw : Cmd → list poll) (cfg : Config) (groups : list NumaGroup)
    (schedule : list usize) (pool_size pool_blocks : usize) (h : heap)
    : outcome (option (heap * result string (list (BenchResult * list bytes)))) :=
  if decide (select_groups cfg groups = []) then Ret (Some (h, Err "no NUMA groups with RDMA NICs found")) else
  o ← run_jobs fuel alive hw cfg schedule (Z.to_nat (cfg_warmup cfg)) pool_size pool_blocks (bench_plan cfg groups) h [];
  match o with
  | None => Ret None
  | Some (h, results) =>
      Ret (Some (h, if forallb (λ g, bool_decide (select_nics cfg g = [])) (select_groups cfg groups)
                    then Err "no RDMA NICs matched the selected filters" else Ok results))
  end.

(** [main], on the groups [SystemTopology::detect] finds. *)
Definition bench_main (fuel : nat) (alive : RcSession → bool) (hw : Cmd → list poll) (cli : Cli) (groups : list NumaGroup)
    (h : heap) : outcome (option (list bytes * heap * result string (list (BenchResult * list bytes)))) :=
  cfg ← parse_cli cli;
  '(schedule, (pool_size, pool_blocks)) ← bench_setup cfg;
  banner ← print_config cli cfg schedule pool_size pool_blocks;
  o ← bench_groups fuel alive hw cfg groups schedule pool_size pool_blocks h;
  Ret ('(h, r) ← o; Some (banner, h, r)).
End Bench.
