(* ===== verification/CpuBenchRun.v ===== *)
(** * The CPU benchmark runs to its end

    Buffers, registration, handshake, scatter lists, batches and clean-up put
    together: [bench_engine] on a machine that works. *)

From S2P Require Import Prelude HostMem RegMap Session RcBackend RcBatch Handshake HandshakeInv HandshakeTheorems Engine EngineRegister EngineTransfer Text Numa RdmaTopo SplitMix BenchBlocks Floats BenchStats CpuBench.

(** ** Alignment *)

Lemma lxor_mask k : 0 <= k < 64 → Z.lxor (2 ^ k - 1) U64_MAX = U64_MAX - (2 ^ k - 1).
Proof.
  intros Hk. assert (∀ n : nat, (n < 64)%nat → Z.lxor (2 ^ Z.of_nat n - 1) U64_MAX = U64_MAX - (2 ^ Z.of_nat n - 1)) as Hall.
  { intros n Hn. do 64 (destruct n as [|n]; [done|]). lia. }
  rewrite <- (Z2Nat.id k) by lia. apply Hall. lia.
Qed.

Lemma land_mask v k : 0 <= k < 64 → is_u64 v → Z.land v (U64_MAX - (2 ^ k - 1)) = v / 2 ^ k * 2 ^ k.
Proof.
  intros Hk Hv. rewrite <- lxor_mask by done. rewrite <- Z.shiftr_div_pow2, <- Z.shiftl_mul_pow2, <- Z.ldiff_ones_r by lia.
  apply Z.bits_inj'. intros i Hi. rewrite Z.land_spec, Z.lxor_spec, Z.ldiff_spec.
  change U64_MAX with (Z.ones 64).
  replace (2 ^ k - 1) with (Z.ones k) by (rewrite Z.ones_equiv; lia).
  destruct (decide (i < 64)) as [Hlt|Hge].
  - rewrite (Z.ones_spec_low 64) by lia. by rewrite xorb_true_r.
  - apply is_u64_bits in Hv as [_ Hv]. rewrite Hv by lia. done.
Qed.

(** [align_up] gives the next multiple of the alignment. *)
Lemma bench_align_up_ok `{BuildProfile} value k :
  0 <= value → 0 <= k < 64 → value + 2 ^ k <= U64_MAX →
  ∃ v, align_up value (2 ^ k) = Ret v ∧ value <= v < value + 2 ^ k ∧ v mod 2 ^ k = 0.
Proof.
  intros Hv Hk Hmax. assert (0 < 2 ^ k) as Hp by (apply Z.pow_pos_nonneg; lia).
  assert (is_power_of_two (2 ^ k) = true) as Hpow.
  { unfold is_power_of_two. rewrite Z.log2_pow2, Z.eqb_refl by lia. rewrite (proj2 (Z.ltb_lt _ _)) by done. done. }
  exists ((value + 2 ^ k - 1) / 2 ^ k * 2 ^ k). unfold align_up. rewrite Hpow. cbn [assert mbind outcome_bind].
  rewrite u64_add_ok by (unfold is_u64; lia). cbn [mbind outcome_bind]. rewrite !u64_sub_ok by (unfold is_u64; lia).
  cbn [mbind outcome_bind]. rewrite lxor_mask, land_mask by (done || unfold is_u64; lia). split; [done|]. split; [|by apply Z_mod_mult].
  pose proof (Z.div_mod (value + 2 ^ k - 1) (2 ^ k) ltac:(lia)). pose proof (Z.mod_pos_bound (value + 2 ^ k - 1) (2 ^ k) Hp). lia.
Qed.

(** ** Memory *)

Definition in_range (p n x : Z) : Prop := p <= x < p + n.

Lemma map_range_lookup h p n b x :
  map_range h p n b !! x = if decide (in_range p n x) then Some b else h !! x.
Proof.
  unfold map_range, in_range. case_decide as Hx.
  - apply lookup_union_Some_l, elem_of_list_to_map_1'.
    + intros y Hy. apply list_elem_of_fmap in Hy as (z & [= _ ->] & _). done.
    + apply (list_elem_of_fmap_2 (λ x, (x, b))), elem_of_seqZ. lia.
  - rewrite lookup_union_r; [done|]. apply not_elem_of_list_to_map_1. intros Hin.
    apply list_elem_of_fmap in Hin as ([z b'] & -> & Hz). apply list_elem_of_fmap in Hz as (y & [= -> ->] & Hy).
    apply elem_of_seqZ in Hy. simpl in Hx. lia.
Qed.

Lemma unmap_range_lookup h p n x : unmap_range h p n !! x = if decide (in_range p n x) then None else h !! x.
Proof.
  unfold unmap_range, in_range. case_decide as Hx.
  - apply map_lookup_filter_None. right. intros b _ Hn. by apply Hn.
  - destruct (h !! x) as [b|] eqn:Hb; [by apply map_lookup_filter_Some|]. apply map_lookup_filter_None. by left.
Qed.

(** Changed inside the ranges of two buffers, mapped there. *)
Definition around (h h' : heap) (b c : NumaBuffer) : Prop :=
  mapped h' (nb_ptr b) (nb_len b) ∧ mapped h' (nb_ptr c) (nb_len c) ∧
  ∀ x, ¬ in_range (nb_ptr b) (nb_len b) x → ¬ in_range (nb_ptr c) (nb_len c) x → h' !! x = h !! x.

Lemma around_swap h h' b c : around h h' b c → around h h' c b.
Proof. intros (H1 & H2 & H3). split_and!; [done|done|]. intros x Hx Hy. by apply H3. Qed.

Lemma fill_around h h' b c pattern :
  around h h' b c → 0 <= nb_len b → ∃ h'', buffer_fill b pattern h' = Ret h'' ∧ around h h'' b c.
Proof.
  intros (Hb & Hc & Hout) Hn. unfold buffer_fill.
  destruct (store_mapped h' (nb_ptr b) (replicate (Z.to_nat (nb_len b)) pattern)) as [h'' Hs].
  { rewrite length_replicate, Z2Nat.id by done. exact Hb. }
  rewrite Hs. exists h''. split; [done|]. split_and!; [by eapply store_mapped_iff|by eapply store_mapped_iff|].
  intros x Hx Hy. rewrite <- Hout by done. eapply store_lookup_ne; [exact Hs|].
  rewrite length_replicate, Z2Nat.id by done. exact Hx.
Qed.

(** Dropping both buffers gives back the memory there was. *)
Lemma drop_around h h' b c :
  around h h' b c → (∀ x, in_range (nb_ptr b) (nb_len b) x ∨ in_range (nb_ptr c) (nb_len c) x → h !! x = None) →
  buffer_drop c (buffer_drop b h') = h.
Proof.
  intros (_ & _ & Hout) Hfree. apply map_eq. intros x. unfold buffer_drop. rewrite !unmap_range_lookup.
  case_decide as Hc; [symmetry; apply Hfree; by right|]. case_decide as Hb; [symmetry; apply Hfree; by left|]. by apply Hout.
Qed.

Section Run.
Context {MR : Type} (rkey : MR → u32) `{BuildProfile}.
Context (post : TransferOp → u64 → list (RdmaOp MR) → option string).
Context (sys : BenchSys (MR := MR)).
Abbreviation Engine := (TransferEngine (MR := MR)).

(** [mmap] gives a free range of the address space. *)
Definition mmap_free (h : heap) (n : usize) (huge : bool) (p : u64) : Prop :=
  by_mmap sys h n huge = Some p ∧ 0 < p ∧ p + n <= U64_MAX ∧ ∀ x, in_range p n x → h !! x = None.

(** The node has CPUs a thread can run on, and huge pages, if asked for, have a
    size: two buffers of [len] bytes, [n] mapped, go to [p] and [q]. *)
Record buffers_ok (numa_node : u32) (len : usize) (huge : bool) (h : heap) (n : usize) (p q : u64) : Prop := mkBuffersOk {
  bk_len : 0 < len;
  bk_pages : if huge then ∃ k, read_hugepage_size_from_proc (by_meminfo sys) = Ret (Some (2 ^ k)) ∧ 0 <= k < 64 ∧ len + 2 ^ k <= U64_MAX
             else True;
  bk_mmap : mmap_len sys len huge = Ret n;
  bk_cpus : ∃ topo cpus, read_cpu_topology_from_sysfs (by_sysfs sys) = Ok topo ∧ topo !! numa_node = Some cpus ∧
              Forall (λ c, c < CPU_SETSIZE) cpus ∧ by_setaffinity sys cpus = true;
  bk_server : mmap_free h n huge p;
  bk_client : mmap_free (map_range h p n 0xAB) n huge q;
}.

Lemma buffers_len numa_node len huge h n p q : buffers_ok numa_node len huge h n p q → len <= n.
Proof.
  intros [Hlen Hpages Hm _ _ _]. unfold mmap_len in Hm. destruct huge; [|by simplify_eq/=].
  destruct Hpages as (k & Hr & Hk & Hmax). rewrite Hr in Hm. cbn [mbind outcome_bind unwrap] in Hm.
  destruct (bench_align_up_ok len k) as (v & Hv & ? & _); [lia|done|done|]. rewrite Hv in Hm. simplify_eq. lia.
Qed.

Lemma buffer_alloc_ok numa_node len huge h n p :
  0 < len → mmap_len sys len huge = Ret n →
  (∃ topo cpus, read_cpu_topology_from_sysfs (by_sysfs sys) = Ok topo ∧ topo !! numa_node = Some cpus ∧
     Forall (λ c, c < CPU_SETSIZE) cpus ∧ by_setaffinity sys cpus = true) →
  mmap_free h n huge p → buffer_alloc sys numa_node len huge h = Ret (map_range h p n 0xAB, mkNumaBuffer p n).
Proof.
  intros Hlen Hn (topo & cpus & Ht & Hc & Hall & Hset) (Hm & Hp & _). unfold buffer_alloc.
  rewrite (proj2 (Z.ltb_lt _ _)) by done. cbn [assert mbind outcome_bind]. rewrite Ht. cbn [expect mbind outcome_bind].
  rewrite Hc. cbn [unwrap mbind outcome_bind]. rewrite Hn. cbn [mbind outcome_bind].
  assert (existsb (λ c, CPU_SETSIZE <=? c) cpus = false) as ->.
  { apply not_true_iff_false. intros (c & Hin & Hle)%existsb_exists. apply list_elem_of_In in Hin.
    rewrite Forall_forall in Hall. specialize (Hall c Hin). apply Z.leb_le in Hle. simpl in Hall. lia. }
  cbn [negb assert mbind outcome_bind]. rewrite Hset. cbn [assert mbind outcome_bind]. rewrite Hm. cbn [unwrap mbind outcome_bind].
  by rewrite (proj2 (Z.eqb_neq _ _)) by lia.
Qed.

Lemma buffers_around numa_node len huge h n p q :
  buffers_ok numa_node len huge h n p q →
  around h (map_range (map_range h p n 0xAB) q n 0xAB) (mkNumaBuffer p n) (mkNumaBuffer q n) ∧
  ∀ x, in_range p n x ∨ in_range q n x → h !! x = None.
Proof.
  intros [_ _ _ _ (_ & _ & _ & Hfp) (_ & _ & _ & Hfq)]. split.
  - split_and!; simpl.
    + intros x Hx. rewrite !map_range_lookup. case_decide; [by eexists|]. rewrite decide_True by done. by eexists.
    + intros x Hx. rewrite map_range_lookup, decide_True by done. by eexists.
    + intros x Hx Hy. by rewrite !map_range_lookup, !decide_False.
  - intros x [Hx|Hx]; [by apply Hfp|]. specialize (Hfq x Hx). rewrite map_range_lookup in Hfq. by case_decide.
Qed.

(** ** The engines *)

(** A fresh engine registers its buffer. *)
Lemma register_buffer_ok e ts b len :
  engine_ok e ts → registered (eng_state e) = [] → (∀ i a l, ∃ mr, by_reg_mr sys i a l = Ok mr) →
  0 < len → 0 <= nb_ptr b → nb_ptr b + len <= U64_MAX →
  ∃ e' keys, register_buffer rkey sys e b len = Ret (e', mkDescriptor (nb_ptr b) len keys) ∧
    length keys = num_nics e ∧ engine_ok e' ts ∧ same_connections e e' ∧ has_region e' (nb_ptr b) len.
Proof.
  intros Hok Hnil Hreg Hlen Hp Hmax.
  destruct (register_ok rkey e ts (λ i, by_reg_mr sys i (nb_ptr b) len) (nb_ptr b) len (by_page_numa sys (nb_ptr b)) Hok)
    as (st & keys & Hrw & Hl & Hok' & Hsame & Hreg' & _); [|intros i; apply Hreg|done|done|done|].
  { intros k f Hf. rewrite Hnil in Hf. by apply elem_of_nil in Hf. }
  exists (put_state e st), keys. unfold register_buffer, engine_register_host, register_host. rewrite Hrw. by split_and!.
Qed.

Lemma rc_new_shape open names q b :
  rc_new open names q = Ok b → rc_qps_per_peer b = q ∧ length (rc_runtimes b) = length names.
Proof.
  unfold rc_new. destruct names as [|n0 names0] eqn:Hnames; [done|]. rewrite <- Hnames. clear Hnames. case_decide; [done|].
  destruct (open_all open names) as [rts|] eqn:Ho; [|done]. cbn [mbind result_bind]. intros [= <-]. split; [done|]. simpl.
  clear -Ho. revert rts Ho. induction names as [|n names IH]; intros rts; cbn [open_all]; [by intros [= <-]|].
  destruct (is_blank n); [done|]. destruct (open n); [|done]. cbn [mbind result_bind].
  destruct (open_all open names) as [rest|]; [|done]. cbn [mbind result_bind]. intros [= <-]. simpl. by rewrite (IH rest).
Qed.

(** The NICs open, register memory, and create and connect queue pairs. *)
Record fabric_ok (names : list string) (q : nat) (b : RcBackend) (s_qps c_qps : list (list RcSession)) : Prop := mkFabricOk {
  fb_new : rc_new (by_open sys) names q = Ok b;
  fb_reg i a l : ∃ mr, by_reg_mr sys i a l = Ok mr;
  fb_links : Forall2 link_pair (rc_runtimes b) (rc_runtimes b);
  fb_server : (∃ psn, create_all (by_server_qp sys) 0 (rc_runtimes b) 1 q = (psn, Ok s_qps)) ∧ fresh_qpns [] s_qps;
  fb_client : (∃ psn, create_all (by_client_qp sys) 0 (rc_runtimes b) 1 q = (psn, Ok c_qps)) ∧ fresh_qpns [] c_qps;
  fb_server_up : links_up (by_server_modify sys) (endpoints <$> s_qps) (endpoints <$> c_qps);
  fb_client_up : links_up (by_client_modify sys) (endpoints <$> c_qps) (endpoints <$> s_qps);
}.

Definition conn_of (per_nic : list (list RcSession)) : AddrConnection :=
  mkConnection ((λ ss, mkConnNic ss 0) <$> per_nic) (endpoints <$> per_nic).

(** A context ready to be measured. *)
Record context_ok (cx : EngineContext (MR := MR)) (len : usize) (b : RcBackend) (c_qps : list (list RcSession)) : Prop := mkContextOk {
  co_client : engine_ok (cx_client cx) [];
  co_backend : eng_backend (cx_client cx) = b;
  co_conn : addr_connections (eng_state (cx_client cx)) !! "bench-server" = Some (conn_of c_qps);
  co_local : has_region (cx_client cx) (nb_ptr (cx_client_buf cx)) len;
  co_remote : ∃ keys, cx_server_region cx = mkDescriptor (nb_ptr (cx_server_buf cx)) len keys ∧ length keys = length (rc_runtimes b);
}.

(** A fresh engine with its buffer registered. *)
Lemma engine_with_buffer names q b buf len :
  rc_new (by_open sys) names q = Ok b → (∀ i a l, ∃ mr, by_reg_mr sys i a l = Ok mr) →
  0 < len → 0 <= nb_ptr buf → nb_ptr buf + len <= U64_MAX →
  ∃ e e' keys, engine_new (by_open sys) names q = Ok e ∧
    register_buffer rkey sys e buf len = Ret (e', mkDescriptor (nb_ptr buf) len keys) ∧
    length keys = length (rc_runtimes b) ∧ engine_ok e' [] ∧ eng_backend e' = b ∧ eng_psn e' = 1 ∧
    addr_connections (eng_state e') = ∅ ∧ connecting (eng_state e') = ∅ ∧ has_region e' (nb_ptr buf) len.
Proof.
  intros Hb Hreg Hlen Hp Hmax. destruct (engine_new_ok (MR := MR) _ _ _ _ Hb) as (e & He & Eb & Epsn & Hok & Hnil & Hc & Hg).
  destruct (register_buffer_ok e [] buf len Hok Hnil Hreg Hlen Hp Hmax) as (e' & keys & Hr & Hl & Hok' & [Eb' Ep' Hc' Hg'] & Hreg').
  exists e, e', keys. split; [done|]. split; [done|]. unfold num_nics in Hl. rewrite Eb in Hl. split; [done|].
  split; [done|]. split_and!; try congruence.
Qed.

Lemma create_context_ok label names numa_node len huge q h n p r b s_qps c_qps :
  buffers_ok numa_node len huge h n p r → fabric_ok names q b s_qps c_qps →
  ∃ h' cx, create_engine_context rkey sys label names numa_node len huge q h = Ret (h', cx) ∧
    around h h' (mkNumaBuffer p n) (mkNumaBuffer r n) ∧ cx_label cx = label ∧ cx_server_buf cx = mkNumaBuffer p n ∧
    cx_client_buf cx = mkNumaBuffer r n ∧ context_ok cx len b c_qps.
Proof.
  intros Hbuf [Hnew Hreg Hlk Hsq Hcq Hsu Hcu]. pose proof (buffers_len _ _ _ _ _ _ _ Hbuf) as Hle.
  destruct (buffers_around _ _ _ _ _ _ _ Hbuf) as [Har _].
  destruct Hbuf as [Hlen _ Hm Hcpus Hfp Hfr]. pose proof Hfp as (_ & Hp & Hpn & _). pose proof Hfr as (_ & Hr & Hrn & _).
  destruct (fill_around _ _ _ _ 0xAA Har) as (h1 & Hf1 & Har1); [simpl; lia|].
  destruct (fill_around _ _ _ _ 0xBB (around_swap _ _ _ _ Har1)) as (h2 & Hf2 & Har2%around_swap); [simpl; lia|].
  destruct (engine_with_buffer names q b (mkNumaBuffer p n) len Hnew Hreg Hlen) as (e & s & skeys & He & Hrs & Hls & Hoks & Ebs & Eps & Hcs & Hgs & _);
    [simpl; lia..|].
  destruct (engine_with_buffer names q b (mkNumaBuffer r n) len Hnew Hreg Hlen) as (e' & c & ckeys & He' & Hrc & Hlc & Hokc & Ebc & Epc & Hcc & Hgc & Hregc);
    [simpl; lia..|]. rewrite He in He'. injection He' as <-.
  destruct (rc_new_shape _ _ _ _ Hnew) as [Eq El].
  destruct (connect_as_ok "bench-server" "bench-client" s c [] [] (by_server_qp sys) (by_client_qp sys)
    (by_server_modify sys) (by_client_modify sys) s_qps c_qps) as (s' & c' & Hcon & (Hco1 & Hok1 & Eb1) & (Hco2 & Hok2 & Eb2)); try done.
  all: rewrite ?Ebs, ?Ebc, ?Eps, ?Epc; try done.
  { by split; rewrite ?Hcs, ?Hgs. }
  { by split; rewrite ?Hcc, ?Hgc. }
  { unfold builds. by rewrite Ebs, Eps, Eq. }
  { unfold builds. by rewrite Ebc, Epc, Eq. }
  assert (engine_num_qps s' = Z.of_nat (length names * q) ∧ engine_num_qps c' = Z.of_nat (length names * q)) as [Hn1 Hn2].
  { destruct Hco1 as (_ & _ & _ & _ & ->), Hco2 as (_ & _ & _ & _ & ->). unfold engine_num_qps, num_qps, num_nics.
    rewrite Hcs, Hcc, !map_sum_empty, Ebs, Ebc, Eq, El. done. }
  eexists h2, _. unfold create_engine_context. rewrite (buffer_alloc_ok _ _ _ _ n p) by done. cbn [mbind outcome_bind].
  rewrite (buffer_alloc_ok _ _ _ _ n r) by done. cbn [mbind outcome_bind]. rewrite Hf1. cbn [mbind outcome_bind]. rewrite Hf2.
  cbn [mbind outcome_bind]. rewrite He. cbn [expect mbind outcome_bind]. rewrite Hrs. cbn [mbind outcome_bind]. rewrite Hrc.
  cbn [mbind outcome_bind]. rewrite Hcon. cbn [mbind outcome_bind]. rewrite Hn1, Hn2, Z.eqb_refl. cbn [assert mbind outcome_bind].
  split; [done|]. split; [done|]. do 3 (split; [done|]). destruct Hco2 as (_ & _ & Hconn & Hr2 & _).
  constructor; simpl; [done|congruence| | |by exists skeys].
  - by rewrite Hconn, lookup_insert_eq.
  - unfold has_region in *. by rewrite Hr2.
Qed.

(** ** Measuring *)

Lemma receive_each_all hw sent acc total :
  receive_all post hw sent acc = Ret (Some total) → receive_each post hw sent = Ret (Some tt).
Proof.
  revert acc. induction sent as [|c sent IH]; intros acc; cbn [receive_all receive_each]; [done|].
  destruct (execute_batch post (cmd_ops c) (cmd_op c) (hw c)) as [[n|e] b|b]; [|done|done].
  destruct (u64_add acc n); [|done|done]. cbn [mbind outcome_bind]. apply IH.
Qed.

Variable alive : RcSession → bool.
Variable hw : SessionCommand (MR := MR) → list poll.

(** A client between two tasks. *)
Record client_ready (nics : nat) (base : u64) (len : usize) (client : Engine) : Prop := mkClientReady {
  cr_ok : engine_ok client [];
  cr_nics : num_nics client = nics;
  cr_conn : ∃ conn, addr_connections (eng_state client) !! "bench-server" = Some conn ∧
              Forall (λ n, Forall (λ s, alive s = true) (conn_sessions n)) (conn_nics conn);
  cr_region : has_region client base len;
}.

(** Workers accept posts and the hardware completes every valid command. *)
Record hardware_ok : Prop := mkHardwareOk {
  hk_posts op : posts post op;
  hk_completes c : ops_valid (cmd_ops c) → hw_completes post hw c;
}.

(** Blocks of a pool inside both regions. *)
Record pool_fits (base : u64) (remote : RegionDescriptor) (len : usize) (nics : nat) (block_size pool_blocks : usize) : Prop := mkPoolFits {
  pf_block : 0 < block_size <= U32_MAX;
  pf_pool : 0 < pool_blocks ∧ pool_blocks * block_size <= len;
  pf_local : 0 <= base ∧ base + len <= U64_MAX;
  pf_remote : 0 <= rd_addr remote ∧ rd_addr remote + len <= U64_MAX ∧ rd_len remote = len;
  pf_keys : length (rkeys remote) = nics;
}.

Definition count_ok (block_size nblocks : usize) : Prop := 0 < nblocks < U64_MAX ∧ nblocks * block_size <= U64_MAX.

Lemma pool_fits_ok base remote len nics block_size pool_blocks :
  pool_fits base remote len nics block_size pool_blocks → pool_ok base remote block_size pool_blocks.
Proof. intros [Hb Hp Hl Hr _]. constructor; [lia| |lia|lia]. split; [lia|]. nia. Qed.

Lemma pool_block_ok base remote len nics block_size pool_blocks client idx :
  pool_fits base remote len nics block_size pool_blocks → client_ready nics base len client → 0 <= idx < pool_blocks →
  desc_ok nics (registered (eng_state client)) (pool_block base remote block_size idx) ∧
  desc_u64 (pool_block base remote block_size idx).
Proof.
  intros [Hb Hp Hl Hr Hk] [_ _ _ (entry & Hin & Hbase & Hlen)] Hi.
  assert (0 <= idx * block_size ∧ idx * block_size + block_size <= len) as Hoff by nia.
  split; [|split; simpl; lia]. split; [simpl; lia|]. split.
  - exists base, entry. split; [done|]. unfold covers. simpl. lia.
  - split; [|simpl; lia]. unfold contains, checked_add. simpl. rewrite decide_True by lia.
    apply andb_true_iff. rewrite !Z.leb_le. unfold saturating_add. lia.
Qed.

Lemma pool_blocks_sum base remote block_size idxs :
  zsum (td_len <$> (pool_block base remote block_size <$> idxs)) = Z.of_nat (length idxs) * block_size.
Proof. induction idxs as [|i idxs IH]; [done|]. rewrite !fmap_cons, zsum_cons, IH. simpl. lia. Qed.

Lemma run_task_ok op base remote len nics nblocks block_size pool_blocks client r :
  hardware_ok → pool_fits base remote len nics block_size pool_blocks → client_ready nics base len client →
  count_ok block_size nblocks → rng_ok r →
  ∃ fuel client' r', client_ready nics base len client' ∧ rng_ok r' ∧ ∀ fuel', (fuel <= fuel')%nat →
    run_task post fuel' alive hw op base remote nblocks block_size pool_blocks client r = Ret (Some (client', r')).
Proof.
  intros [Hposts Hhw] Hfit Hcl [Hn Hnb] Hr.
  destruct (scatter_returns base remote nblocks block_size pool_blocks r (pool_fits_ok _ _ _ _ _ _ Hfit) ltac:(lia) Hr)
    as (fuel & idxs & r' & _ & Hsc & Hl & Hall & _ & Hr').
  pose proof Hcl as [Hok Hnics (conn & Hconn & Hal) Hreg].
  destruct (batch_round rkey post alive client [] "bench-server" op (pool_block base remote block_size <$> idxs) conn)
    as (client' & sent & Hb & Hok' & Eb & Hreg' & Hconn' & Hops & _ & Hrecv); try done.
  - destruct idxs; [simpl in Hl; lia|done].
  - apply Forall_fmap. eapply Forall_impl; [exact Hall|]. intros x Hx. by apply (pool_block_ok _ _ _ _ _ _ _ _ Hfit Hcl).
  - apply Forall_fmap, Forall_true. intros x. simpl. apply Hfit.
  - rewrite Hnics. apply Forall_fmap. eapply Forall_impl; [exact Hall|]. intros x Hx. by apply (pool_block_ok _ _ _ _ _ _ _ _ Hfit Hcl).
  - rewrite length_fmap, Hl. unfold U64_MAX in Hn. lia.
  - rewrite pool_blocks_sum. lia.
  - exists fuel, client', r'. split; [|split; [done|]].
    + constructor; [done|unfold num_nics in *; by rewrite Eb| |unfold has_region; by rewrite Hreg'].
      exists (bump conn). split; [done|]. simpl. apply Forall_fmap. exact Hal.
    + intros fuel' Hle. unfold run_task. rewrite Hsc by done. cbn [mbind outcome_bind]. rewrite Hb. cbn [mbind outcome_bind expect].
      rewrite (receive_each_all hw sent 0 (zsum (td_len <$> (pool_block base remote block_size <$> idxs)))); [done|].
      apply Hrecv. eapply Forall_impl; [exact Hops|]. exact Hhw.
Qed.

(** What the tasks from the [i]-th on give. *)
Definition measured_from (elapsed : nat → Duration) (block_size : usize) (i : nat) (schedule : list usize) : list TaskResult :=
  imap (λ j nblocks, task_result (elapsed (i + j)%nat) (nblocks * block_size)) schedule.

Lemma measured_cons elapsed block_size i n schedule :
  measured_from elapsed block_size i (n :: schedule) =
  task_result (elapsed i) (n * block_size) :: measured_from elapsed block_size (S i) schedule.
Proof.
  unfold measured_from. rewrite imap_cons, Nat.add_0_r. f_equal. apply imap_ext. intros j x _. simpl. do 2 f_equal. lia.
Qed.

Lemma measured_bytes elapsed block_size i schedule :
  tr_bytes <$> measured_from elapsed block_size i schedule = (λ n, n * block_size) <$> schedule.
Proof. revert i. induction schedule as [|n schedule IH]; intros i; [done|]. rewrite measured_cons, !fmap_cons, IH. done. Qed.

Lemma run_tasks_ok elapsed op base remote len nics block_size pool_blocks warmup i schedule client r tasks :
  hardware_ok → pool_fits base remote len nics block_size pool_blocks → client_ready nics base len client →
  Forall (count_ok block_size) schedule → rng_ok r →
  ∃ fuel client', client_ready nics base len client' ∧ ∀ fuel', (fuel <= fuel')%nat →
    run_tasks post fuel' alive hw elapsed op base remote block_size pool_blocks warmup i schedule client r tasks =
      Ret (Some (client', tasks ++ measured_from elapsed block_size (warmup `max` i) (drop (warmup - i) schedule))).
Proof.
  intros Hhw Hfit Hcl Hs. revert i client r tasks Hcl. induction Hs as [|nblocks schedule Hn Hs IH]; intros i client r tasks Hcl Hr.
  { exists 0%nat, client. split; [done|]. intros fuel' _. rewrite drop_nil. simpl. by rewrite app_nil_r. }
  destruct (run_task_ok op base remote len nics nblocks block_size pool_blocks client r Hhw Hfit Hcl Hn Hr)
    as (f1 & client1 & r1 & Hcl1 & Hr1 & Htask).
  assert (∃ tasks1, (if (warmup <=? i)%nat then bytes ← u64_mul nblocks block_size; Ret (tasks ++ [task_result (elapsed i) bytes])
      else Ret tasks) = Ret tasks1 ∧
    tasks1 ++ measured_from elapsed block_size (warmup `max` S i) (drop (warmup - S i) schedule) =
    tasks ++ measured_from elapsed block_size (warmup `max` i) (drop (warmup - i) (nblocks :: schedule))) as (tasks1 & Ht1 & Heq).
  { destruct (Nat.leb_spec warmup i) as [Hle|Hlt].
    - exists (tasks ++ [task_result (elapsed i) (nblocks * block_size)]). destruct Hn as [? ?]. unfold u64_mul, u64_wrap.
      pose proof (pf_block _ _ _ _ _ _ Hfit). rewrite decide_True by (unfold is_u64; nia). split; [done|].
      replace (warmup - S i)%nat with 0%nat by lia. replace (warmup - i)%nat with 0%nat by lia.
      replace (warmup `max` S i)%nat with (S i) by lia. replace (warmup `max` i)%nat with i by lia.
      by rewrite !drop_0, measured_cons, <- (assoc_L (++)).
    - exists tasks. split; [done|]. replace (warmup - i)%nat with (S (warmup - S i)) by lia.
      by replace (warmup `max` S i)%nat with (warmup `max` i)%nat by lia. }
  destruct (IH (S i) client1 r1 tasks1 Hcl1 Hr1) as (f2 & client2 & Hcl2 & Hrest).
  exists (f1 `max` f2)%nat, client2. split; [done|]. intros fuel' Hle. cbn [run_tasks]. rewrite Htask by lia.
  cbn [mbind outcome_bind]. rewrite Ht1. cbn [mbind outcome_bind]. rewrite Hrest by lia. by rewrite Heq.
Qed.

Lemma zsum_le_const l m : Forall (λ x, x <= m) l → zsum l <= Z.of_nat (length l) * m.
Proof. induction 1 as [|x l Hx _ IH]; [done|]. rewrite zsum_cons. simpl length. lia. Qed.

(** One engine pair: the draws end, every [expect] and [assert] holds, exactly
    the tasks after the warm-up are measured and reported, and memory is as it was. *)
Definition run_result (label : string) (op : TransferOp) (block_size : usize) (warmup : nat) (schedule : list usize) : BenchResult :=
  mkBenchResult (str label) (measured_from (by_elapsed sys label op) block_size warmup (drop warmup schedule)).

Lemma bench_engine_ok label names numa_node pool_size huge q op schedule warmup block_size pool_blocks h n p r b s_qps c_qps :
  buffers_ok numa_node pool_size huge h n p r → fabric_ok names q b s_qps c_qps → hardware_ok →
  Forall (Forall (λ s, alive s = true)) c_qps →
  0 < block_size <= U32_MAX → 0 < pool_blocks → pool_blocks * block_size <= pool_size →
  Forall (count_ok block_size) schedule → zsum ((λ n, n * block_size) <$> drop warmup schedule) <= U64_MAX →
  ∃ fuel report, print_bench_result (run_result label op block_size warmup schedule) op block_size numa_node (length names) = Ret report ∧
    ∀ fuel', (fuel <= fuel')%nat →
    bench_engine rkey post sys fuel' alive hw label names numa_node pool_size huge q op schedule warmup block_size pool_blocks h =
      Ret (Some (h, (run_result label op block_size warmup schedule, report))).
Proof.
  intros Hbuf Hfab Hhw Hal Hb Hp Hpool Hsched Htot. pose proof (buffers_len _ _ _ _ _ _ _ Hbuf) as Hle.
  destruct (buffers_around _ _ _ _ _ _ _ Hbuf) as [_ Hfree].
  destruct (create_context_ok label _ _ _ _ _ _ _ _ _ _ _ _ Hbuf Hfab) as (h1 & cx & Hcx & Har & El & Es & Ec & [Hok Eb Hconn Hreg (keys & Erem & Hkeys)]).
  destruct Hbuf as [Hlen _ _ _ (_ & Hp0 & Hpn & _) (_ & Hr0 & Hrn & _)]. rewrite Ec in Hreg. rewrite Es in Erem. simpl in Hreg, Erem.
  assert (∃ h2, match op with Read => buffer_fill (cx_client_buf cx) 0 h1 | Write => Ret h1 end = Ret h2 ∧
    around h h2 (mkNumaBuffer p n) (mkNumaBuffer r n)) as (h2 & Hh2 & Har2).
  { rewrite Ec. destruct op; [|by exists h1]. destruct (fill_around _ _ _ _ 0 (around_swap _ _ _ _ Har)) as (h2 & Hf & Har2); [simpl; lia|].
    exists h2. split; [done|by apply around_swap]. }
  destruct (run_tasks_ok (by_elapsed sys label op) op r (cx_server_region cx) pool_size (length (rc_runtimes b)) block_size pool_blocks warmup 0 schedule
    (cx_client cx) (rng_new 0xfeed4242) [] Hhw) as (fuel & client' & _ & Hrun).
  - rewrite Erem. constructor; simpl; [done|done|lia|lia|done].
  - constructor; [done|unfold num_nics; by rewrite Eb| |done]. exists (conn_of c_qps). split; [done|]. simpl. by apply Forall_fmap.
  - done.
  - apply rng_new_ok.
  - destruct (print_bench_result_ok (run_result label op block_size warmup schedule) op block_size numa_node (length names))
      as (report & Hrep & _); [|simpl br_tasks; by rewrite measured_bytes|lia|].
    { simpl br_tasks. rewrite measured_bytes. apply Forall_fmap, Forall_drop. eapply Forall_impl; [exact Hsched|].
      intros x [? ?]. simpl. nia. }
    exists fuel, report. split; [done|]. intros fuel' Hf. unfold bench_engine. rewrite Hcx. cbn [mbind outcome_bind].
    rewrite Hh2. cbn [mbind outcome_bind]. unfold run_bench. rewrite Ec, El. cbn [nb_ptr]. rewrite Hrun by done.
    cbn [mbind outcome_bind option_bind app]. rewrite Nat.sub_0_r, Nat.max_0_r. fold (run_result label op block_size warmup schedule).
    rewrite Hrep. cbn [mbind outcome_bind cleanup_engine_context cx_client_buf cx_server_buf]. by rewrite Es, (drop_around h h2).
Qed.

(** ** [main] *)

Lemma list_max_spec l m : list_max l = Some m → m ∈ l ∧ Forall (λ x, x <= m) l.
Proof.
  destruct l as [|x l]; [done|]. intros [= <-]. revert x. induction l as [|y l IH]; intros x; simpl.
  { split; [left|by constructor]. }
  destruct (IH (Z.max x y)) as [Hin Hall]. apply Forall_cons in Hall as [Hm Hall]. split.
  - apply elem_of_cons in Hin as [->|Hin]; [|by do 2 right].
    destruct (Z.max_spec x y) as [[_ ->]|[_ ->]]; [right; left|left].
  - constructor; [lia|]. constructor; [lia|done].
Qed.

(** Arguments that make sense: counts and sizes positive and within words. *)
Record config_ok (cfg : Config) : Prop := mkConfigOk {
  ck_block : 0 < cfg_block_size cfg <= U32_MAX;
  ck_range : 0 < (cfg_block_range cfg).1 <= (cfg_block_range cfg).2;
  ck_bytes : (cfg_block_range cfg).2 < U64_MAX ∧ (cfg_block_range cfg).2 * cfg_block_size cfg <= U64_MAX;
  ck_total : cfg_tasks cfg * ((cfg_block_range cfg).2 * cfg_block_size cfg) <= U64_MAX;
  ck_tasks : 0 <= cfg_warmup cfg ∧ 0 <= cfg_tasks cfg ∧ 0 < cfg_warmup cfg + cfg_tasks cfg <= U64_MAX;
  ck_pool ps : cfg_pool_size cfg = Some ps → cfg_block_size cfg <= ps;
}.

Lemma setup_ok cfg :
  config_ok cfg → ∃ schedule pool_size pool_blocks, bench_setup cfg = Ret (schedule, (pool_size, pool_blocks)) ∧
    Z.of_nat (length schedule) = cfg_warmup cfg + cfg_tasks cfg ∧
    Forall (λ x, (cfg_block_range cfg).1 <= x <= (cfg_block_range cfg).2) schedule ∧
    0 < pool_blocks ∧ pool_blocks * cfg_block_size cfg <= pool_size ∧
    (cfg_pool_size cfg = None → Forall (λ x, x <= pool_blocks) schedule).
Proof.
  intros [Hb Hr Hby _ (Hw & Ht & Hwt) Hps]. unfold bench_setup. rewrite u64_add_ok by (unfold is_u64; lia). cbn [mbind outcome_bind].
  destruct (draw_counts_ok (Z.to_nat (cfg_warmup cfg + cfg_tasks cfg)) (cfg_block_range cfg).1 (cfg_block_range cfg).2 (rng_new 0x42))
    as (schedule & Hs & Hl & Hall); [lia..|apply rng_new_ok|].
  unfold generate_task_schedule. rewrite Hs. cbn [mbind outcome_bind]. unfold pool_config.
  assert (∃ m, list_max schedule = Some m) as [m Hm] by (destruct schedule; [simpl in Hl; lia|by eexists]).
  pose proof (list_max_spec _ _ Hm) as [Hin Hmax]. rewrite Hm. cbn [unwrap mbind outcome_bind].
  rewrite Forall_forall in Hall. pose proof (Hall m Hin) as Hmr. simpl in Hmr.
  unfold u64_mul, u64_wrap. rewrite decide_True by (unfold is_u64; nia). cbn [mbind outcome_bind].
  set (ps := default (m * cfg_block_size cfg) (cfg_pool_size cfg)).
  assert (cfg_block_size cfg <= ps) as Hge.
  { unfold ps. destruct (cfg_pool_size cfg) as [x|]; simpl; [by apply Hps|nia]. }
  rewrite (proj2 (Z.leb_le _ _)) by done. cbn [assert mbind outcome_bind]. rewrite (proj2 (Z.eqb_neq _ _)) by lia.
  eexists schedule, ps, _. split; [done|]. split; [lia|]. split; [by apply Forall_forall|].
  split; [apply Z.div_str_pos; lia|]. split; [rewrite Z.mul_comm; apply Z.mul_div_le; lia|].
  intros Hnone. unfold ps. rewrite Hnone. simpl. rewrite Z.div_mul by lia. exact Hmax.
Qed.

Lemma print_config_ok cli cfg schedule pool_size pool_blocks :
  0 < Z.of_nat (length schedule) → 0 < (cfg_block_range cfg).1 → 0 < cfg_block_size cfg <= U32_MAX →
  (cfg_block_range cfg).2 * cfg_block_size cfg <= U64_MAX →
  Forall (λ x, (cfg_block_range cfg).1 <= x <= (cfg_block_range cfg).2) schedule →
  ∃ out, print_config cli cfg schedule pool_size pool_blocks = Ret out.
Proof.
  intros Hl Hlo Hb Hmax Hall. unfold print_config. destruct schedule as [|x schedule]; [simpl in Hl; lia|].
  destruct (list_max (x :: schedule)) as [m|] eqn:Hm; [|done]. destruct (list_max_spec _ _ Hm) as [Hin _].
  rewrite Forall_forall in Hall. specialize (Hall m Hin). simpl in Hall. cbn [list_min unwrap mbind outcome_bind].
  assert (is_u64 (m * cfg_block_size cfg)) by (unfold is_u64; split; [|transitivity ((cfg_block_range cfg).2 * cfg_block_size cfg)]; nia).
  unfold u64_mul, u64_wrap. rewrite (decide_True (P := is_u64 _)) by done. by eexists.
Qed.

(** What the machine must offer for a run. *)
Definition job_ok (cfg : Config) (pool_size : usize) (h : heap) (j : Job) : Prop :=
  ∃ n p r b s_qps c_qps, buffers_ok (job_numa j) pool_size (cfg_use_hugepages cfg) h n p r ∧
    fabric_ok (job_nics j) (cfg_qps_per_peer cfg) b s_qps c_qps ∧ Forall (Forall (λ s, alive s = true)) c_qps.

(** A run of the plan gives the measured tasks and their report. *)
Definition job_result (cfg : Config) (schedule : list usize) (j : Job) (res : BenchResult * list bytes) : Prop :=
  res.1 = run_result (job_label j) (job_op j) (cfg_block_size cfg) (Z.to_nat (cfg_warmup cfg)) schedule ∧
  print_bench_result res.1 (job_op j) (cfg_block_size cfg) (job_numa j) (length (job_nics j)) = Ret res.2.

Lemma run_jobs_ok cfg schedule pool_size pool_blocks jobs h results :
  let warmup := Z.to_nat (cfg_warmup cfg) in
  hardware_ok → 0 < cfg_block_size cfg <= U32_MAX → 0 < pool_blocks → pool_blocks * cfg_block_size cfg <= pool_size →
  Forall (count_ok (cfg_block_size cfg)) schedule → zsum ((λ n, n * cfg_block_size cfg) <$> drop warmup schedule) <= U64_MAX →
  Forall (job_ok cfg pool_size h) jobs →
  ∃ fuel new, Forall2 (job_result cfg schedule) jobs new ∧ ∀ fuel', (fuel <= fuel')%nat →
    run_jobs rkey post sys fuel' alive hw cfg schedule warmup pool_size pool_blocks jobs h results = Ret (Some (h, results ++ new)).
Proof.
  intros warmup Hhw Hb Hp Hpool Hs Htot Hjobs. revert results. induction Hjobs as [|j jobs Hj _ IH]; intros results.
  { exists 0%nat, []. split; [constructor|]. intros fuel' _. simpl. by rewrite app_nil_r. }
  destruct Hj as (n & p & r & b & s_qps & c_qps & Hbuf & Hfab & Hal).
  destruct (bench_engine_ok (job_label j) _ _ _ _ _ (job_op j) schedule warmup (cfg_block_size cfg) pool_blocks _ _ _ _ _ _ _
    Hbuf Hfab Hhw Hal Hb Hp Hpool Hs Htot) as (f1 & report & Hrep & Hf1).
  set (res := (run_result (job_label j) (job_op j) (cfg_block_size cfg) warmup schedule, report)) in *.
  destruct (IH (results ++ [res])) as (f2 & new & Hnew & Hf2).
  exists (f1 `max` f2)%nat, (res :: new). split; [by constructor|]. intros fuel' Hle. cbn [run_jobs]. rewrite Hf1 by lia.
  cbn [mbind outcome_bind]. rewrite Hf2 by lia. by rewrite <- (assoc_L (++)).
Qed.

Lemma plan_selects cfg groups :
  bench_plan cfg groups ≠ [] → select_groups cfg groups ≠ [] ∧
  forallb (λ g, bool_decide (select_nics cfg g = [])) (select_groups cfg groups) = false.
Proof.
  intros Hne. split; [intros Hn; unfold bench_plan in Hne; by rewrite Hn in Hne|]. apply not_true_iff_false. intros Hall. apply Hne.
  unfold bench_plan. induction (select_groups cfg groups) as [|g gs IH]; [done|]. simpl in Hall. apply andb_true_iff in Hall as [Hg Hall].
  apply bool_decide_eq_true in Hg. rewrite bind_cons, IH by done. rewrite Hg. simpl.
  assert (∀ ops : list TransferOp, (ops ≫= λ op, '(label, names) ← mode_jobs []; [mkJob (grp_node g) op label names]) = []) as ->; [|done].
  induction ops as [|op ops IHo]; [done|]. by rewrite bind_cons, IHo.
Qed.

(** C26: The benchmark as a whole comes to its end: on arguments that parse and
    make sense the schedule and the pool are computed without overflow, with one
    count in range per task and, unless a pool size was asked for, no count above
    the pool; and on a machine where each planned engine pair can be set up
    ([job_ok]: its buffers can be mapped, its NICs open, connect and keep their
    workers) and the hardware completes what is posted ([hardware_ok]), [main]
    runs every pair of the plan, all [expect]s and [assert]s hold, the random
    draws end, and each run measures exactly the tasks after the warm-up, with
    their times and the bytes of their blocks, and reports them; every mapping is
    released again. The bytes that transfers move into the buffers are not part of
    this model (they are that of [RdmaData]). *)
Theorem bench_main_completes cli cfg groups h :
  parse_cli cli = Ret cfg → config_ok cfg → hardware_ok → bench_plan cfg groups ≠ [] →
  ∃ schedule pool_size pool_blocks, bench_setup cfg = Ret (schedule, (pool_size, pool_blocks)) ∧
    Z.of_nat (length schedule) = cfg_warmup cfg + cfg_tasks cfg ∧
    Forall (λ x, (cfg_block_range cfg).1 <= x <= (cfg_block_range cfg).2) schedule ∧
    (cfg_pool_size cfg = None → Forall (λ x, x <= pool_blocks) schedule) ∧
    (Forall (job_ok cfg pool_size h) (bench_plan cfg groups) →
     ∃ fuel banner results, Forall2 (job_result cfg schedule) (bench_plan cfg groups) results ∧ ∀ fuel', (fuel <= fuel')%nat →
       bench_main rkey post sys fuel' alive hw cli groups h = Ret (Some (banner, h, Ok results))).
Proof.
  intros Hparse Hcfg Hhw Hplan. destruct (setup_ok cfg Hcfg) as (schedule & ps & pb & Hset & Hlen & Hall & Hpb & Hpool & Hfit).
  exists schedule, ps, pb. do 4 (split; [done|]). intros Hjobs. destruct Hcfg as [Hb Hr [Hu Hby] Htot (Hw & Ht & Hwt) _].
  destruct (run_jobs_ok cfg schedule ps pb (bench_plan cfg groups) h [] Hhw Hb Hpb Hpool) as (fuel & results & Hres & Hf); [| |done|].
  { eapply Forall_impl; [exact Hall|]. intros x Hx. simpl in Hx. split; [lia|nia]. }
  { etransitivity; [apply zsum_le_const with (m := (cfg_block_range cfg).2 * cfg_block_size cfg)|].
    - apply Forall_fmap, Forall_drop. eapply Forall_impl; [exact Hall|]. intros x Hx. simpl in *. nia.
    - rewrite length_fmap, length_drop. replace (Z.of_nat (length schedule - Z.to_nat (cfg_warmup cfg))) with (cfg_tasks cfg) by lia. done. }
  destruct (print_config_ok cli cfg schedule ps pb) as [banner Hbanner]; [lia|lia|done..|].
  exists fuel, banner, results. split; [done|]. intros fuel' Hle. unfold bench_main. rewrite Hparse. cbn [mbind outcome_bind].
  rewrite Hset. cbn [mbind outcome_bind]. rewrite Hbanner. cbn [mbind outcome_bind]. unfold bench_groups.
  destruct (plan_selects cfg groups Hplan) as [Hg Hn]. rewrite decide_False by done. rewrite Hf by done. cbn [mbind outcome_bind app].
  by rewrite Hn.
Qed.
End Run.

(** ** A machine with two NICs, and four blocks of ten bytes *)

#[local] Instance cb_profile : BuildProfile := true.

Definition cb_mmap (h : heap) (n : usize) (huge : bool) : option u64 :=
  Some (if decide (h !! 4096 = None) then 4096 else 65536).
Definition cb_sys : BenchSys (MR := u32) :=
  mkBenchSys (Some (Some [mkNodeEntry (str "node0") (Some (Some (str "0-3")))])) (λ _, true) None cb_mmap hs_open (λ _, 0)
    (λ i a l, Ok (11 + Z.of_nat i)) (en_build 100) (en_build 200) en_modify en_modify (λ _ _ i, mkDuration 0 (Z.of_nat i * 1000)).
Definition cb_post : TransferOp → u64 → list (RdmaOp u32) → option string := λ _ _ _, None.

Lemma cb_buffers len : 0 < len <= 4096 → buffers_ok cb_sys 0 len false ∅ len 4096 65536.
Proof.
  intros Hlen. constructor; [lia|done|done| | |].
  - eexists {[0 := [0; 1; 2; 3]]}, [0; 1; 2; 3]. split; [by vm_compute|]. split; [done|]. split; [|done]. by repeat constructor.
  - split; [done|]. split; [lia|]. split; [unfold U64_MAX; lia|]. intros x _. apply lookup_empty.
  - split.
    + simpl. unfold cb_mmap. rewrite decide_False; [done|].
      rewrite map_range_lookup, decide_True by (unfold in_range; lia). done.
    + split; [lia|]. split; [unfold U64_MAX; lia|]. intros x Hx. unfold in_range in Hx.
      rewrite map_range_lookup, decide_False by (unfold in_range; lia). apply lookup_empty.
Qed.

(** The sessions of an engine on [rts]. *)
Definition cb_sessions (base : u32) (rts : list RcRuntime) : list (list RcSession) :=
  match (create_all (en_build base) 0 rts 1 2).2 with Ok v => v | Err _ => [] end.

Lemma cb_fabric names rts :
  (names, rts) ∈ [(["mlx5_0"%string], [mkRuntime [] 0 Ethernet 0]); (["mlx5_1"%string], [mkRuntime [] 5 InfiniBand 1]); (hs_names, hs_runtimes)] →
  fabric_ok cb_sys names 2 (mkBackend rts 2) (cb_sessions 100 rts) (cb_sessions 200 rts).
Proof.
  rewrite !elem_of_cons, elem_of_nil. intros Hin.
  destruct Hin as [[= -> ->]|[[= -> ->]|[[= -> ->]|[]]]];
    (constructor; [reflexivity|by eexists|by repeat constructor
                  |split; [eexists; reflexivity|]|split; [eexists; reflexivity|]| |]).
  all: try (intros [|[|i]] ss Hss; vm_compute in Hss; simplify_eq; apply (bool_decide_unpack _); by vm_compute).
  all: intros [|[|i]] l r [|[|j]] ep rep Hl Hr He Hrep; vm_compute in Hl, Hr; simplify_eq;
    vm_compute in He, Hrep; simplify_eq; reflexivity.
Qed.

Definition cb_cfg : Config := mkConfig 10 (2, 4) None false 3 1 "both" ∅ ∅ None 2.
Definition cb_cli : Cli := mkCli (str "10") (str "2-4") None false 3 1 "both" None [] [] None 2.
Definition cb_groups : list NumaGroup :=
  [mkNumaGroup 0 [] [mkNicInfo (str "mlx5_0") [] 0; mkNicInfo (str "mlx5_1") [] 0] [0; 1; 2; 3]].

Example cb_plan : bench_plan cb_cfg cb_groups =
  [mkJob 0 Write "mlx5_0" ["mlx5_0"]; mkJob 0 Write "mlx5_1" ["mlx5_1"]; mkJob 0 Write "mlx5_0, mlx5_1" ["mlx5_0"; "mlx5_1"];
   mkJob 0 Read "mlx5_0" ["mlx5_0"]; mkJob 0 Read "mlx5_1" ["mlx5_1"]; mkJob 0 Read "mlx5_0, mlx5_1" ["mlx5_0"; "mlx5_1"]]%string.
Proof. by vm_compute. Qed.

Lemma cb_jobs len : 0 < len <= 4096 → Forall (job_ok cb_sys (λ _, true) cb_cfg len ∅) (bench_plan cb_cfg cb_groups).
Proof.
  intros Hlen. rewrite cb_plan.
  assert (∀ names rts op label, (names, rts) ∈ [(["mlx5_0"%string], [mkRuntime [] 0 Ethernet 0]); (["mlx5_1"%string], [mkRuntime [] 5 InfiniBand 1]); (hs_names, hs_runtimes)] →
    job_ok cb_sys (λ _, true) cb_cfg len ∅ (mkJob 0 op label names)) as Hjob.
  { intros names rts op label Hin. exists len, 4096, 65536, (mkBackend rts 2), (cb_sessions 100 rts), (cb_sessions 200 rts).
    split; [by apply cb_buffers|]. split; [by apply cb_fabric|]. apply Forall_forall. intros ss _. by apply Forall_true. }
  repeat constructor; eapply Hjob; rewrite !elem_of_cons; eauto.
Qed.

Lemma bench_main_completes_witness :
  ∃ fuel banner results, length results = 6%nat ∧ ∀ fuel', (fuel <= fuel')%nat →
    bench_main hs_key cb_post cb_sys fuel' (λ _, true) (prompt_hw cb_post) cb_cli cb_groups ∅ = Ret (Some (banner, ∅, Ok results)).
Proof.
  destruct (bench_main_completes hs_key cb_post cb_sys (λ _, true) (prompt_hw cb_post) cb_cli cb_cfg cb_groups ∅)
    as (schedule & ps & pb & Hset & Hlen & _ & _ & Hrun).
  - by vm_compute.
  - constructor; simpl; try done; lia.
  - constructor; [done|]. intros c. apply prompt_hw_completes. done.
  - rewrite cb_plan. done.
  - destruct Hrun as (fuel & banner & results & Hres & Hf).
    + apply cb_jobs. revert Hset. vm_compute. intros [= _ <- _]. done.
    + exists fuel, banner, results. split; [|exact Hf]. rewrite cb_plan in Hres. by apply Forall2_length in Hres.
Defined.
