(* ===== verification/Runtime.v ===== *)
(** * The device runtime: [rc_backend/runtime.rs]

    Opening a NIC and choosing its port and GID.  The verbs library is a
    parameter: a device context answers queries; [is_zero] and [link_local]
    classify a GID. *)

From S2P Require Import Prelude RegMap RcBackend Handshake.

Inductive GidType : Type := GidInfiniBand | RoceV1 | RoceV2.
#[global] Instance GidType_eq_dec : EqDecision GidType.
Proof. solve_decision. Defined.

Record GidEntry : Type := mkGidEntry {
  ge_port : u32;
  ge_index : u32;
  ge_gid : list u8;
  ge_type : GidType;
}.

Record PortAttr : Type := mkPortAttr {
  pa_active : bool;
  pa_link : LinkLayer;
  pa_lid : u16;
  pa_mtu : Z;
}.

(** What a device context answers. *)
Record DeviceContext : Type := mkDeviceContext {
  query_device : result string nat;
  query_gid_table : result string (list GidEntry);
  query_port : nat → result string PortAttr;
  query_gid : nat → nat → result string (list u8);
}.

Record PortChoice : Type := mkPortChoice {
  pc_port : nat;
  pc_link : LinkLayer;
  pc_lid : u16;
  pc_gid_index : u8;
  pc_mtu : Z;
  pc_gid : list u8;
}.

Section Runtime.
Context (is_zero link_local : list u8 → bool).

Definition backend {A} (r : result string A) : result TransferError A := map_err Backend r.

(** The preference: routable RoCEv2, InfiniBand, any routable. *)
Definition pick_gid (entries : list GidEntry) : option GidEntry :=
  match List.find (λ e, bool_decide (ge_type e = RoceV2) && negb (link_local (ge_gid e))) entries with
  | Some e => Some e
  | None =>
      match List.find (λ e, bool_decide (ge_type e = GidInfiniBand)) entries with
      | Some e => Some e
      | None => List.find (λ e, negb (link_local (ge_gid e))) entries
      end
  end.

Definition port_lid (attr : PortAttr) : result TransferError u16 :=
  match pa_link attr with
  | InfiniBand => if pa_lid attr =? 0 then Err (Backend "invalid zero LID for InfiniBand") else Ok (pa_lid attr)
  | Ethernet => Ok 0
  | Unspecified => Err (Backend "unsupported link layer")
  end.

(** The loop over the ports from [port] on; [more] ports remain. *)
Fixpoint choose_loop (ctx : DeviceContext) (gids : list GidEntry) (port more : nat) : result TransferError PortChoice :=
  match more with
  | O => Err (Backend "no active port found on selected NIC")
  | S more =>
      attr ← backend (query_port ctx port);
      if negb (pa_active attr) then choose_loop ctx gids (S port) more else
      lid ← port_lid attr;
      let port_entries := List.filter (λ e, (ge_port e =? Z.of_nat port) && negb (is_zero (ge_gid e))) gids in
      '(index, gid) ← match pick_gid port_entries with
                      | Some e => Ok (ge_index e mod 2 ^ 8, ge_gid e)
                      | None => gid ← backend (query_gid ctx port 0); Ok (0, gid)
                      end;
      Ok (mkPortChoice port (pa_link attr) lid index (pa_mtu attr) gid)
  end.

Definition choose_port_and_gid (ctx : DeviceContext) : result TransferError PortChoice :=
  n ← backend (query_device ctx);
  gids ← backend (query_gid_table ctx);
  choose_loop ctx gids 1 n.

(** A device of the list: its name, the outcomes of opening it and allocating
    a protection domain. *)
Record IbDevice : Type := mkIbDevice {
  dev_name : string;
  dev_open : result string DeviceContext;
  dev_alloc_pd : option string;
}.

(** [RcRuntime::open]; [numa] is [nic_numa_node]. *)
Definition open (devices : result string (list IbDevice)) (numa : string → u32) (nic_name : string)
    : result TransferError RcRuntime :=
  list ← backend devices;
  device ← ok_or (List.find (λ d, String.eqb (dev_name d) nic_name) list) (DeviceNotFound nic_name);
  ctx ← backend (dev_open device);
  match dev_alloc_pd device with
  | Some e => Err (Backend e)
  | None =>
      c ← choose_port_and_gid ctx;
      Ok (mkRuntime (pc_gid c) (pc_lid c) (pc_link c) (numa nic_name))
  end.

(** ** Properties *)

Lemma find_spec {A} (p : A → bool) l :
  match List.find p l with
  | Some x => x ∈ l ∧ p x = true
  | None => Forall (λ x, p x = false) l
  end.
Proof.
  induction l as [|x l IH]; simpl; [constructor|]. destruct (p x) eqn:Hp; [by split; [left|]|].
  destruct (List.find p l); [destruct IH; split; [by right|done]|by constructor].
Qed.

(** Preference of a GID: lower is better. *)
Definition gid_rank (e : GidEntry) : Z :=
  if bool_decide (ge_type e = RoceV2) && negb (link_local (ge_gid e)) then 0
  else if bool_decide (ge_type e = GidInfiniBand) then 1
  else if negb (link_local (ge_gid e)) then 2 else 3.

Lemma pick_gid_best entries :
  match pick_gid entries with
  | Some e => e ∈ entries ∧ gid_rank e < 3 ∧ Forall (λ e', gid_rank e <= gid_rank e') entries
  | None => Forall (λ e, gid_rank e = 3) entries
  end.
Proof.
  unfold pick_gid. pose proof (find_spec (λ e, bool_decide (ge_type e = RoceV2) && negb (link_local (ge_gid e))) entries) as H0.
  destruct (List.find _ entries) as [e|].
  { destruct H0 as [Hin He]. assert (gid_rank e = 0) as -> by (unfold gid_rank; by rewrite He). split; [done|].
    split; [lia|]. apply Forall_forall. intros e' _. unfold gid_rank. repeat case_match; lia. }
  pose proof (find_spec (λ e, bool_decide (ge_type e = GidInfiniBand)) entries) as H1.
  destruct (List.find _ entries) as [e|].
  { destruct H1 as [Hin He]. rewrite Forall_forall in H0.
    assert (gid_rank e = 1) as -> by (unfold gid_rank; rewrite (H0 _ Hin); by rewrite He). split; [done|].
    split; [lia|]. apply Forall_forall. intros e' Hin'. unfold gid_rank. rewrite (H0 _ Hin'). repeat case_match; lia. }
  pose proof (find_spec (λ e, negb (link_local (ge_gid e))) entries) as H2.
  rewrite Forall_forall in H0, H1. destruct (List.find _ entries) as [e|].
  - destruct H2 as [Hin He]. assert (gid_rank e = 2) as -> by (unfold gid_rank; rewrite (H0 _ Hin), (H1 _ Hin); by rewrite He).
    split; [done|]. split; [lia|]. apply Forall_forall. intros e' Hin'. unfold gid_rank. rewrite (H0 _ Hin'), (H1 _ Hin').
    repeat case_match; lia.
  - rewrite Forall_forall in H2. apply Forall_forall. intros e Hin. unfold gid_rank. by rewrite (H0 _ Hin), (H1 _ Hin), (H2 _ Hin).
Qed.

(** The entries of a port that may be picked. *)
Definition usable (port : nat) (e : GidEntry) : Prop := ge_port e = Z.of_nat port ∧ is_zero (ge_gid e) = false.

Lemma choose_loop_spec ctx gids port more c :
  choose_loop ctx gids port more = Ok c →
  (port <= pc_port c < port + more)%nat ∧
  (∀ p, (port <= p < pc_port c)%nat → ∃ a, query_port ctx p = Ok a ∧ pa_active a = false) ∧
  ∃ a, query_port ctx (pc_port c) = Ok a ∧ pa_active a = true ∧ pc_link c = pa_link a ∧ pc_mtu c = pa_mtu a ∧
    port_lid a = Ok (pc_lid c) ∧
    ((∃ e, e ∈ gids ∧ usable (pc_port c) e ∧ gid_rank e < 3 ∧ pc_gid c = ge_gid e ∧ pc_gid_index c = ge_index e mod 2 ^ 8 ∧
        ∀ e', e' ∈ gids → usable (pc_port c) e' → gid_rank e <= gid_rank e') ∨
     (query_gid ctx (pc_port c) 0 = Ok (pc_gid c) ∧ pc_gid_index c = 0 ∧
        ∀ e', e' ∈ gids → usable (pc_port c) e' → gid_rank e' = 3)).
Proof.
  revert port. induction more as [|more IH]; intros port; cbn [choose_loop]; [done|].
  destruct (query_port ctx port) as [a|] eqn:Hq; [|done]. cbn [backend map_err mbind result_bind].
  destruct (pa_active a) eqn:Hact; cbn [negb].
  2:{ intros Hc. destruct (IH _ Hc) as (Hr & Hbefore & Hrest). split; [lia|]. split; [|done].
      intros p Hp. destruct (decide (p = port)) as [->|]; [by exists a|]. apply Hbefore. lia. }
  destruct (port_lid a) as [lid|] eqn:Hlid; [|done]. cbn [mbind result_bind].
  assert (∀ e, e ∈ List.filter (λ e, (ge_port e =? Z.of_nat port) && negb (is_zero (ge_gid e))) gids ↔ e ∈ gids ∧ usable port e) as Hf.
  { intros e. rewrite list_elem_of_In, filter_In, <- list_elem_of_In, andb_true_iff, Z.eqb_eq, negb_true_iff. done. }
  pose proof (pick_gid_best (List.filter (λ e, (ge_port e =? Z.of_nat port) && negb (is_zero (ge_gid e))) gids)) as Hp.
  destruct (pick_gid _) as [e|].
  - destruct Hp as (Hin & Hr & Hall). apply Hf in Hin as [Hin Hu]. cbn [mbind result_bind]. intros [= <-]. simpl.
    split; [lia|]. split; [intros; lia|]. exists a. split_and!; try done. left. exists e. split_and!; try done.
    intros e' Hin' Hu'. rewrite Forall_forall in Hall. apply Hall. by apply Hf.
  - destruct (query_gid ctx port 0) as [gid|] eqn:Hg; [|done]. cbn [backend map_err mbind result_bind]. intros [= <-]. simpl.
    split; [lia|]. split; [intros; lia|]. exists a. split_and!; try done. right. split_and!; try done.
    intros e' Hin' Hu'. rewrite Forall_forall in Hp. apply Hp. by apply Hf.
Qed.

(** The port chosen is the first active one, with its link layer, MTU and (on
    InfiniBand) non-zero LID, and the GID chosen is the best of that port's
    non-zero GIDs: routable RoCEv2 before InfiniBand before any routable one;
    index 0 only when there is none of these. *)
Theorem choose_port_best ctx c :
  choose_port_and_gid ctx = Ok c →
  ∃ gids, query_gid_table ctx = Ok gids ∧ (1 <= pc_port c)%nat ∧
    (∀ p, (1 <= p < pc_port c)%nat → ∃ a, query_port ctx p = Ok a ∧ pa_active a = false) ∧
    ∃ a, query_port ctx (pc_port c) = Ok a ∧ pa_active a = true ∧ pc_link c = pa_link a ∧ pc_mtu c = pa_mtu a ∧
      port_lid a = Ok (pc_lid c) ∧
      ((∃ e, e ∈ gids ∧ usable (pc_port c) e ∧ gid_rank e < 3 ∧ pc_gid c = ge_gid e ∧ pc_gid_index c = ge_index e mod 2 ^ 8 ∧
          ∀ e', e' ∈ gids → usable (pc_port c) e' → gid_rank e <= gid_rank e') ∨
       (query_gid ctx (pc_port c) 0 = Ok (pc_gid c) ∧ pc_gid_index c = 0 ∧
          ∀ e', e' ∈ gids → usable (pc_port c) e' → gid_rank e' = 3)).
Proof.
  unfold choose_port_and_gid. destruct (query_device ctx) as [n|]; [|done]. destruct (query_gid_table ctx) as [gids|]; [|done].
  cbn [backend map_err mbind result_bind]. intros Hc. exists gids. destruct (choose_loop_spec _ _ _ _ _ Hc) as (? & ? & ?).
  split; [done|]. split; [lia|]. done.
Qed.
End Runtime.

Definition rt_ctx : DeviceContext :=
  mkDeviceContext (Ok 2%nat)
    (Ok [mkGidEntry 2 0 [254; 128] RoceV2; mkGidEntry 2 3 [1] RoceV2; mkGidEntry 2 1 [2] GidInfiniBand])
    (λ p, Ok (mkPortAttr (p =? 2)%nat Ethernet 0 5)) (λ _ _, Err "unused").

Lemma choose_port_best_witness :
  ∃ gids, query_gid_table rt_ctx = Ok gids ∧ (1 <= 2)%nat.
Proof.
  destruct (choose_port_best (λ _, false) (λ g, bool_decide (g = [254; 128])) rt_ctx (mkPortChoice 2 Ethernet 0 3 5 [1]))
    as (gids & Hg & Hp & _); [vm_compute; reflexivity|]. exists gids. split; [exact Hg|exact Hp].
Defined.
