(* ===== verification/Cuda.v ===== *)
(** * The CUDA driver helpers: [pegastore-cuda/src/cuda.rs]

    The driver library is a record of its answers: the status of each call and
    the value it writes through its out-pointer.  The definitions are the
    helpers around it. *)

From S2P Require Import Prelude Types Text.

Abbreviation CUresult := Z (only parsing).
Definition CUDA_SUCCESS : CUresult := 0.
Definition CUDA_ERROR_PEER_ACCESS_ALREADY_ENABLED : CUresult := 704.
Definition CU_DEVICE_ATTRIBUTE_DMA_BUF_SUPPORTED : Z := 124.

(** [Gpu]: contexts and streams are handles. *)
Record CudaGpu : Type := mkCudaGpu {
  gpu_index : u16;
  gpu_ctx : Z;
  gpu_stream : Z;
  gpu_pci_bus_id : bytes;
}.

Record CudaSys : Type := mkCudaSys {
  cuInit : CUresult;
  cuDeviceGetCount : CUresult * Z;
  cuDeviceGet : Z → CUresult * Z;
  (** the 32 bytes of the buffer after the call *)
  cuDeviceGetPCIBusId : Z → CUresult * bytes;
  cuDeviceGetAttribute : Z → Z → CUresult * Z;
  cuCtxEnablePeerAccess : Z → Z → CUresult;
  cuMemcpyHtoDAsync : u64 → u64 → usize → Z → CUresult;
  cuMemcpyDtoHAsync : u64 → u64 → usize → Z → CUresult;
  cuMemcpyPeerAsync : u64 → Z → u64 → Z → usize → Z → CUresult;
  cuMemHostRegister : u64 → usize → CUresult;
  cuMemAlloc : Z → usize → CUresult * u64;
  cuMemsetD32Async : u64 → u32 → usize → Z → CUresult;
  cuMemGetHandleForAddressRange : u64 → usize → CUresult * Z;
  (** cudarc's context and stream objects *)
  ctx_new : usize → option Z;
  ctx_new_stream : Z → option Z;
  ctx_bind : Z → bool;
  stream_synchronize : Z → bool;
}.

Definition check (res : CUresult) (what : string) : Result unit :=
  if res =? CUDA_SUCCESS then Ok tt else Err (Error_new Unexpected what).

Section Cuda.
Context (sys : CudaSys).

(** The bytes of the name up to its terminator, in lower case. *)
Definition c_name (buf : bytes) : bytes := to_lower (take (default (length buf) (position (λ b, b =? 0) buf)) buf).

Definition pci_bus_id (index : u16) : Result bytes :=
  let '(res, dev) := cuDeviceGet sys index in
  _ ← check res "cuDeviceGet failed";
  let '(res, buf) := cuDeviceGetPCIBusId sys dev in
  _ ← check res "cuDeviceGetPCIBusId failed";
  Ok (c_name buf).

(** [Gpus::open]: one context and one stream per index, then peer access between
    every ordered pair; the second result is the pairs that were refused. *)
Fixpoint open_devices (indices : list u16) : Result (list CudaGpu) :=
  match indices with
  | [] => Ok []
  | i :: indices =>
      ctx ← ok_or (ctx_new sys i) (Error_new Unavailable "cuda device");
      stream ← ok_or (ctx_new_stream sys ctx) (Error_new Unexpected "new_stream gpu");
      id ← pci_bus_id i;
      rest ← open_devices indices;
      Ok (mkCudaGpu i ctx stream id :: rest)
  end.

Definition peer_refused (a b : CudaGpu) : bool :=
  if gpu_index a =? gpu_index b then false
  else
    let r := cuCtxEnablePeerAccess sys (gpu_ctx a) (gpu_ctx b) in
    negb (r =? CUDA_SUCCESS) && negb (r =? CUDA_ERROR_PEER_ACCESS_ALREADY_ENABLED).

Definition gpus_open (indices : list u16) : Result (list CudaGpu * list (u16 * u16)) :=
  devices ← open_devices indices;
  let refused := devices ≫= λ a, (λ b, (gpu_index a, gpu_index b)) <$> List.filter (peer_refused a) devices in
  Ok (devices, refused).

(** [Gpus::get], [Gpus::by_index]. *)
Definition gpus_get (gpus : list CudaGpu) (index : u16) : option CudaGpu :=
  List.find (λ g, gpu_index g =? index) gpus.

Definition by_index (gpus : list CudaGpu) : gmap u16 CudaGpu :=
  foldl (λ m g, <[gpu_index g := g]> m) ∅ gpus.

(** Asynchronous copies on a stream. *)
Definition h2d_async (dst src : u64) (len : usize) (stream : Z) : Result unit :=
  check (cuMemcpyHtoDAsync sys dst src len stream) "cuMemcpyHtoDAsync failed".

Definition d2h_async (dst src : u64) (len : usize) (stream : Z) : Result unit :=
  check (cuMemcpyDtoHAsync sys dst src len stream) "cuMemcpyDtoHAsync failed".

Definition peer_async (dst : u64) (dst_ctx : Z) (src : u64) (src_ctx : Z) (len : usize) (stream : Z) : Result unit :=
  check (cuMemcpyPeerAsync sys dst dst_ctx src src_ctx len stream) "cuMemcpyPeerAsync failed".

Definition sync (stream : Z) : Result unit :=
  if stream_synchronize sys stream then Ok tt else Err (Error_new Unexpected "stream sync").

Definition host_register (ptr : u64) (len : usize) : bool := cuMemHostRegister sys ptr len =? CUDA_SUCCESS.

Definition device_alloc (g : CudaGpu) (len : usize) : Result u64 :=
  if ctx_bind sys (gpu_ctx g) then
    let '(res, ptr) := cuMemAlloc sys (gpu_ctx g) len in
    _ ← check res "cuMemAlloc failed"; Ok ptr
  else Err (Error_new Unexpected "bind ctx").

Definition memset_d32_async (ptr : u64) (value : u32) (len : usize) (stream : Z) : Result unit :=
  check (cuMemsetD32Async sys ptr value (len / 4) stream) "cuMemsetD32Async failed".

(** [n.max(0) as u16]. *)
Definition device_count : Result u16 :=
  let '(res, n) := cuDeviceGetCount sys in
  _ ← check res "cuDeviceGetCount failed";
  Ok (Z.max n 0 mod 2 ^ 16).

Definition cuda_init : Result unit := check (cuInit sys) "cuInit failed".

Definition dmabuf_supported (g : CudaGpu) : bool :=
  let '(res, dev) := cuDeviceGet sys (gpu_index g) in
  (res =? CUDA_SUCCESS) &&
  (let '(res, v) := cuDeviceGetAttribute sys CU_DEVICE_ATTRIBUTE_DMA_BUF_SUPPORTED dev in
   (res =? CUDA_SUCCESS) && negb (v =? 0)).

Definition dmabuf_fd (ptr : u64) (len : usize) : Result Z :=
  let '(res, fd) := cuMemGetHandleForAddressRange sys ptr len in
  _ ← check res "cuMemGetHandleForAddressRange(DMA_BUF_FD) failed"; Ok fd.
End Cuda.

(** ** Opened GPUs *)

Lemma open_devices_spec sys indices gpus :
  open_devices sys indices = Ok gpus →
  gpu_index <$> gpus = indices ∧
  Forall (λ g, ctx_new sys (gpu_index g) = Some (gpu_ctx g) ∧ ctx_new_stream sys (gpu_ctx g) = Some (gpu_stream g) ∧
               pci_bus_id sys (gpu_index g) = Ok (gpu_pci_bus_id g)) gpus.
Proof.
  revert gpus. induction indices as [|i indices IH]; intros gpus Hg; cbn [open_devices] in Hg; [by simplify_eq|].
  apply bind_Ok_inv in Hg as (ctx & Hctx%ok_or_Ok & Hg). apply bind_Ok_inv in Hg as (stream & Hst%ok_or_Ok & Hg).
  apply bind_Ok_inv in Hg as (id & Hid & Hg). apply bind_Ok_inv in Hg as (rest & Hrest & Hg). simplify_eq.
  destruct (IH rest Hrest) as [<- Hall]. split; [done|]. by constructor.
Qed.

(** A GPU is found exactly when its index was asked for, and it is the first one. *)
Lemma gpus_get_open sys indices gpus index :
  open_devices sys indices = Ok gpus → is_Some (gpus_get gpus index) ↔ index ∈ indices.
Proof.
  intros [<- _]%open_devices_spec. unfold gpus_get. induction gpus as [|g gpus IH]; csimpl.
  - split; [by intros [? ?]|by intros ?%elem_of_nil].
  - rewrite elem_of_cons, <- IH. destruct (Z.eqb_spec (gpu_index g) index) as [->|Hne].
    + split; [by left|by eexists].
    + split; [by right|]. intros [?|?]; [congruence|done].
Qed.
