(* ===== verification/GpuBench.v ===== *)
(** * The GPU benchmark: [examples/gpu_rdma_bench.rs]

    GPU memory is part of the heap, as for the CUDA backend.  The driver's
    answers may change between calls, so each allocation has its own. *)

From S2P Require Import Prelude HostMem Types RegMap Session RcBackend RcBatch Handshake HandshakeInv HandshakeTheorems Engine EngineTransfer RdmaData Text Numa Topology Cuda RdmaTopo SplitMix BenchBlocks CpuBench.

Definition MIB : usize := 2 ^ 20.

(** ** Buffers *)

Record GpuBuf : Type := mkGpuBuf {
  gb_ptr : u64;
  gb_len : usize;
  gb_fd : Z;
}.

(** [GpuBuf::alloc]; new device memory holds anything, here zeros. *)
Definition gpubuf_alloc (cs : CudaSys) (g : CudaGpu) (len : usize) (h : heap) : outcome (heap * GpuBuf) :=
  _ ← assert (ctx_bind cs (gpu_ctx g));
  ptr ← expect (device_alloc cs g len);
  fd ← expect (dmabuf_fd cs ptr len);
  Ret (map_range h ptr len 0, mkGpuBuf ptr len fd).

(** [fill]: [host] is a slice of the buffer's length at [host_ptr]. *)
Definition gpubuf_fill (cs : CudaSys) (g : CudaGpu) (b : GpuBuf) (host_ptr : u64) (host : bytes) (h : heap) : outcome heap :=
  _ ← expect (h2d_async cs (gb_ptr b) host_ptr (gb_len b) (gpu_stream g));
  _ ← expect (sync cs (gpu_stream g));
  deref (store h (gb_ptr b) host).

(** [zero]: the driver sets whole words, [len / 4] of them. *)
Definition gpubuf_zero (cs : CudaSys) (g : CudaGpu) (b : GpuBuf) (h : heap) : outcome heap :=
  _ ← expect (memset_d32_async cs (gb_ptr b) 0 (gb_len b) (gpu_stream g));
  _ ← expect (sync cs (gpu_stream g));
  deref (store h (gb_ptr b) (replicate (4 * Z.to_nat (gb_len b / 4)) 0)).

(** [read_back]: the bytes of the buffer. *)
Definition gpubuf_read_back (cs : CudaSys) (g : CudaGpu) (b : GpuBuf) (host_ptr : u64) (h : heap) : outcome bytes :=
  _ ← expect (d2h_async cs host_ptr (gb_ptr b) (gb_len b) (gpu_stream g));
  _ ← expect (sync cs (gpu_stream g));
  deref (load h (gb_ptr b) (Z.to_nat (gb_len b))).

Record HostBuf : Type := mkHostBuf {
  hb_ptr : u64;
  hb_len : usize;
}.

(** [HostBuf::alloc]: pinning the touching thread may fail without consequence;
    registering the mapping may not. *)
Definition hostbuf_alloc (cs : CudaSys) (mmap : heap → usize → option u64) (len : usize) (h : heap) : outcome (heap * HostBuf) :=
  p ← unwrap (mmap h len);
  _ ← assert (host_register cs p len);
  Ret (map_range h p len 0, mkHostBuf p len).

Definition hostbuf_slice (b : HostBuf) (h : heap) : outcome bytes := deref (load h (hb_ptr b) (Z.to_nat (hb_len b))).

Definition gpu_numa_node (t : Topology) (gpu : u16) : u32 := default UNKNOWN (numa_of_gpu t gpu).

(** ** The reference data *)

(** [(i as u32).wrapping_mul(2_654_435_761).to_le_bytes()]. *)
Definition ref_word (i : Z) : bytes :=
  let w := (i mod 2 ^ 32 * 2654435761) mod 2 ^ 32 in
  [w mod 256; w / 2 ^ 8 mod 256; w / 2 ^ 16 mod 256; w / 2 ^ 24].

(** Whole words; what is left of the length stays zero. *)
Definition reference (len : usize) : bytes :=
  (seqZ 0 (len / 4) ≫= ref_word) ++ replicate (Z.to_nat (len mod 4)) 0.

Definition verify (got want : bytes) : outcome unit := assert (bool_decide (got = want)).

(** ** [timed] *)

Section Bench.
Context {MR : Type} (rkey : MR → u32) `{BuildProfile}.
Context (post : TransferOp → u64 → list (RdmaOp MR) → option string).
Abbreviation Engine := (TransferEngine (MR := MR)).
Abbreviation Cmd := (SessionCommand (MR := MR)).

(** The fabric: which workers run, what their queues return, in which order the
    operations of a batch take effect. *)
Record Fabric : Type := mkFabric {
  fa_alive : RcSession → bool;
  fa_hw : Cmd → list poll;
  fa_order : list (RdmaOp MR) → list (RdmaOp MR);
}.

(** One iteration, with its effect on memory. *)
Definition timed_step (fa : Fabric) (op : TransferOp) (descs : list TransferDesc) (bytes : usize) (client : Engine) (h : heap)
    : outcome (option (Engine * heap)) :=
  '(client, sent, r) ← engine_batch_transfer_async (fa_alive fa) client op "server" descs;
  _ ← expect r;
  o ← receive_all post (fa_hw fa) sent 0;
  match o with
  | None => Ret None
  | Some total =>
      _ ← assert (total =? bytes);
      h ← deref (run_moves (op_move op <$> fa_order fa (mjoin (cmd_ops <$> sent))) h);
      Ret (Some (client, h))
  end.

Fixpoint timed_steps (fa : Fabric) (op : TransferOp) (descs : list TransferDesc) (bytes : usize) (iters : nat)
    (client : Engine) (h : heap) : outcome (option (Engine * heap)) :=
  match iters with
  | O => Ret (Some (client, h))
  | S iters =>
      o ← timed_step fa op descs bytes client h;
      match o with
      | None => Ret None
      | Some (client, h) => timed_steps fa op descs bytes iters client h
      end
  end.

Definition timed (fa : Fabric) (op : TransferOp) (descs : list TransferDesc) (iters : nat) (client : Engine) (h : heap)
    : outcome (option (Engine * heap)) :=
  bytes ← sum_len descs 0;
  timed_steps fa op descs bytes iters client h.

(** ** [main] *)

(** Everything outside the program. *)
Record GpuSys : Type := mkGpuSys {
  gs_cuda : CudaSys;
  gs_alloc_src : CudaSys;
  gs_alloc_sink : CudaSys;
  gs_alloc_dst : CudaSys;
  gs_mmap : heap → usize → option u64;
  gs_nodes : option (list (bytes * option bytes));
  gs_num_cpus : nat;
  gs_read : bytes → option bytes;
  gs_open : string → result TransferError RcRuntime;
  gs_page_numa : u64 → u32;
  gs_reg_mr : nat → u64 → usize → result string MR;
  gs_reg_dmabuf : nat → u64 → usize → u64 → Z → result string MR;
  gs_server_qp : nat → u64 → result string u32;
  gs_client_qp : nat → u64 → result string u32;
  gs_server_modify : nat → RcSession → RcEndpoint → option string;
  gs_client_modify : nat → RcSession → RcEndpoint → option string;
}.

(** What [main] opens before the engines. *)
Record GpuBufs : Type := mkGpuBufs {
  bf_topo : Topology;
  bf_src_gpu : CudaGpu;
  bf_dst_gpu : CudaGpu;
  bf_src : GpuBuf;
  bf_sink : GpuBuf;
  bf_dst : GpuBuf;
  bf_host : HostBuf;
}.

Definition open_buffers (gs : GpuSys) (src_index dst_index : u16) (len : usize) (ref_ptr : u64) (h : heap)
    : outcome (heap * GpuBufs) :=
  let cs := gs_cuda gs in
  _ ← expect (cuda_init cs);
  '(devices, _) ← expect (gpus_open cs [src_index; dst_index]);
  src_gpu ← unwrap (gpus_get devices src_index);
  dst_gpu ← unwrap (gpus_get devices dst_index);
  _ ← assert (forallb (dmabuf_supported cs) devices);
  let topo := detect (gs_nodes gs) (gs_num_cpus gs) (gs_read gs) ((λ g, (gpu_index g, gpu_pci_bus_id g)) <$> devices) in
  '(h, src) ← gpubuf_alloc (gs_alloc_src gs) src_gpu len h;
  h ← gpubuf_fill cs src_gpu src ref_ptr (reference len) h;
  '(h, sink) ← gpubuf_alloc (gs_alloc_sink gs) dst_gpu len h;
  h ← gpubuf_zero cs dst_gpu sink h;
  '(h, dst) ← gpubuf_alloc (gs_alloc_dst gs) dst_gpu len h;
  h ← gpubuf_zero cs dst_gpu dst h;
  '(h, host) ← hostbuf_alloc cs (gs_mmap gs) len h;
  Ret (h, mkGpuBufs topo src_gpu dst_gpu src sink dst host).

Definition register_gpu (gs : GpuSys) (e : Engine) (b : GpuBuf) (numa : u32) : outcome (Engine * RegionDescriptor) :=
  '(e, r) ← engine_register_dmabuf rkey (gs_reg_dmabuf gs) e (gb_ptr b) (gb_len b) (gb_fd b) 0 numa;
  d ← expect r;
  Ret (e, d).

Definition register_host_buf (gs : GpuSys) (e : Engine) (b : HostBuf) : outcome (Engine * RegionDescriptor) :=
  '(e, r) ← engine_register_host rkey (gs_page_numa gs) (gs_reg_mr gs) e (hb_ptr b) (hb_len b);
  d ← expect r;
  Ret (e, d).

(** Both engines with their regions, connected: the client and the descriptors
    of source and sink. *)
Definition open_engines (gs : GpuSys) (nics : list string) (qps_per_peer : nat) (src_numa dst_numa : u32) (bufs : GpuBufs)
    : outcome (Engine * (RegionDescriptor * RegionDescriptor)) :=
  server ← expect (engine_new (gs_open gs) nics qps_per_peer);
  client ← expect (engine_new (gs_open gs) nics qps_per_peer);
  '(server, src_desc) ← register_gpu gs server (bf_src bufs) src_numa;
  '(server, sink_desc) ← register_gpu gs server (bf_sink bufs) dst_numa;
  '(client, _) ← register_gpu gs client (bf_dst bufs) dst_numa;
  '(client, _) ← register_host_buf gs client (bf_host bufs);
  '(_, client) ← connect_engines (gs_server_qp gs) (gs_client_qp gs) (gs_server_modify gs) (gs_client_modify gs) server client;
  Ret (client, (src_desc, sink_desc)).

(** The three cases, each verified against the reference. *)
Definition run_cases (fa : Fabric) (cs : CudaSys) (len block : usize) (iters : nat) (scratch : u64) (bufs : GpuBufs)
    (src_desc sink_desc : RegionDescriptor) (client : Engine) (h : heap) : outcome (option heap) :=
  descs ← blocks (gb_ptr (bf_dst bufs)) src_desc len block;
  o ← timed fa Read descs iters client h;
  match o with
  | None => Ret None
  | Some (client, h) =>
      got ← gpubuf_read_back cs (bf_dst_gpu bufs) (bf_dst bufs) scratch h;
      _ ← verify got (reference len);
      descs ← blocks (hb_ptr (bf_host bufs)) src_desc len block;
      o ← timed fa Read descs iters client h;
      match o with
      | None => Ret None
      | Some (client, h) =>
          got ← hostbuf_slice (bf_host bufs) h;
          _ ← verify got (reference len);
          descs ← blocks (hb_ptr (bf_host bufs)) sink_desc len block;
          o ← timed fa Write descs iters client h;
          match o with
          | None => Ret None
          | Some (_, h) =>
              got ← gpubuf_read_back cs (bf_dst_gpu bufs) (bf_sink bufs) scratch h;
              _ ← verify got (reference len);
              h ← deref (store h (hb_ptr (bf_host bufs)) (replicate (Z.to_nat (hb_len (bf_host bufs))) 0));
              Ret (Some h)
          end
      end
  end.

(** The NICs asked for, or all with an active port. *)
Definition bench_nics (cli_nics : list string) (groups : list NumaGroup) : list string :=
  if decide (cli_nics = []) then groups ≫= λ g, (λ n, to_string (nic_name n)) <$> grp_nics g else cli_nics.

(** [main]; [None] while a batch is spinning. *)
Definition gpu_bench_main (gs : GpuSys) (fa : Fabric) (src_index dst_index : u16) (mib block_mib : usize) (iters : nat)
    (cli_nics : list string) (groups : list NumaGroup) (qps_per_peer : nat) (ref_ptr scratch : u64) (h : heap)
    : outcome (option heap) :=
  len ← u64_mul mib MIB;
  block ← u64_mul block_mib MIB;
  _ ← assert ((len mod (2 * MIB) =? 0) && (block mod (2 * MIB) =? 0));
  let nics := bench_nics cli_nics groups in
  _ ← assert (negb (bool_decide (nics = [])));
  '(h, bufs) ← open_buffers gs src_index dst_index len ref_ptr h;
  '(client, (src_desc, sink_desc)) ← open_engines gs nics qps_per_peer (gpu_numa_node (bf_topo bufs) src_index)
     (gpu_numa_node (bf_topo bufs) dst_index) bufs;
  run_cases fa (gs_cuda gs) len block iters scratch bufs src_desc sink_desc client h.
End Bench.
