(* ===== verification/GpuBenchRun.v ===== *)
(** * The GPU benchmark verifies its data

    Blocks tile the buffers, batches land them, and every comparison with the
    reference succeeds, in whatever order the operations take effect. *)

From S2P Require Import Prelude HostMem Types RegMap Session RcBackend RcBatch Handshake HandshakeInv HandshakeTheorems Engine EngineRegister EngineTransfer RdmaData Text Numa Topology Cuda RdmaTopo SplitMix BenchBlocks CpuBench CpuBenchRun GpuBench.

(** ** The reference *)

(** 2654435761 is odd: different word positions hold different words, so data
    moved to another place in the buffer is not taken for the right one. *)
Lemma ref_word_inj i j : 0 <= i < 2 ^ 32 → 0 <= j < 2 ^ 32 → ref_word i = ref_word j → i = j.
Proof.
  intros Hi Hj. unfold ref_word. rewrite (Z.mod_small i), (Z.mod_small j) by done.
  set (a := (i * 2654435761) mod 2 ^ 32). set (b := (j * 2654435761) mod 2 ^ 32).
  assert (0 <= a < 2 ^ 32) as Ha by (apply Z.mod_pos_bound; lia). assert (0 <= b < 2 ^ 32) as Hb by (apply Z.mod_pos_bound; lia).
  intros [= H0 H1 H2 H3].
  assert (∀ w, w = w mod 256 + 2 ^ 8 * (w / 2 ^ 8 mod 256 + 2 ^ 8 * (w / 2 ^ 16 mod 256 + 2 ^ 8 * (w / 2 ^ 24)))) as Hw.
  { intros w. change (2 ^ 24) with (2 ^ 8 * 2 ^ 8 * 2 ^ 8). change (2 ^ 16) with (2 ^ 8 * 2 ^ 8). rewrite <- !Zdiv_Zdiv by lia.
    change 256 with (2 ^ 8). pose proof (Z.div_mod w (2 ^ 8)). pose proof (Z.div_mod (w / 2 ^ 8) (2 ^ 8)).
    pose proof (Z.div_mod (w / 2 ^ 8 / 2 ^ 8) (2 ^ 8)). lia. }
  assert (a = b) as Hab by (rewrite (Hw a), (Hw b), H0, H1, H2, H3; done).
  assert (∀ k, 0 <= k < 2 ^ 32 → (k * 2654435761) mod 2 ^ 32 * 244002641 mod 2 ^ 32 = k) as Hinv.
  { intros k Hk. rewrite Z.mul_mod_idemp_l, <- Z.mul_assoc, <- Z.mul_mod_idemp_r by lia.
    change (2654435761 * 244002641 mod 2 ^ 32) with 1. rewrite Z.mul_1_r. by apply Z.mod_small. }
  rewrite <- (Hinv i Hi), <- (Hinv j Hj). fold a b. by rewrite Hab.
Qed.

(** ** Blocks as moves *)

Definition tile (src dst len block : Z) (k : nat) : Move :=
  mkMove (src + Z.of_nat k * block) (dst + Z.of_nat k * block) (Z.min block (len - Z.of_nat k * block)).

Definition tiles (len block : Z) : nat := Z.to_nat ((len + block - 1) / block).

(** Source and destination of a transfer of local and remote ranges. *)
Definition from_of (op : TransferOp) (local remote : u64) : u64 := match op with Read => remote | Write => local end.
Definition to_of (op : TransferOp) (local remote : u64) : u64 := match op with Read => local | Write => remote end.

Lemma tiles_bound len block k : 0 < block → 0 <= len → (k < tiles len block)%nat → Z.of_nat k * block < len.
Proof.
  intros Hb Hl Hk. unfold tiles in Hk. pose proof (Z.mul_div_le (len + block - 1) block Hb). nia.
Qed.

(** The tile an offset is in. *)
Lemma tile_of len block i :
  0 < block → 0 <= i < len → (Z.to_nat (i / block) < tiles len block)%nat ∧
  i = Z.of_nat (Z.to_nat (i / block)) * block + i mod block ∧ i mod block < Z.min block (len - Z.of_nat (Z.to_nat (i / block)) * block).
Proof.
  intros Hb Hi. pose proof (Z.div_mod i block ltac:(lia)) as Hdm. pose proof (Z.mod_pos_bound i block Hb).
  assert (0 <= i / block) as H0 by (apply Z.div_pos; lia). rewrite Z2Nat.id by done. split; [|lia].
  unfold tiles. apply Z2Nat.inj_lt; [done|apply Z.div_pos; lia|]. apply Z.div_lt_upper_bound; [done|].
  pose proof (Z.div_mod (len + block - 1) block ltac:(lia)). pose proof (Z.mod_pos_bound (len + block - 1) block Hb). nia.
Qed.

Lemma tiles_apart src dst len block :
  0 < block → 0 <= len → src + len <= dst ∨ dst + len <= src → apart (tile src dst len block <$> seq 0 (tiles len block)).
Proof.
  intros Hb Hl Hap. constructor.
  - apply Forall_fmap, Forall_seq. intros k Hk. pose proof (tiles_bound len block k Hb Hl ltac:(lia)). simpl. lia.
  - intros i j m m' x Hi Hj. rewrite list_lookup_fmap in Hi, Hj. apply fmap_Some in Hi as (a & [-> Ha]%lookup_seq & ->).
    apply fmap_Some in Hj as (b & [-> Hb']%lookup_seq & ->). unfold writes. simpl. intros H1 H2.
    destruct (Nat.lt_trichotomy i j) as [Hlt|[|Hlt]]; [exfalso|done|exfalso]; nia.
  - intros m m' x (a & -> & Ha)%list_elem_of_fmap (b & -> & Hb')%list_elem_of_fmap. apply elem_of_seq in Ha, Hb'.
    pose proof (tiles_bound len block a Hb Hl ltac:(lia)). pose proof (tiles_bound len block b Hb Hl ltac:(lia)).
    unfold reads, writes. simpl. intros H1 H2. pose proof (Z.mul_nonneg_nonneg (Z.of_nat a) block). pose proof (Z.mul_nonneg_nonneg (Z.of_nat b) block). lia.
Qed.

Lemma tiles_mapped h src dst len block :
  0 < block → 0 <= len → mapped h src len → mapped h dst len → moves_mapped h (tile src dst len block <$> seq 0 (tiles len block)).
Proof.
  intros Hb Hl Hs Hd. apply Forall_fmap, Forall_seq. intros k Hk. pose proof (tiles_bound len block k Hb Hl ltac:(lia)).
  pose proof (Z.mul_nonneg_nonneg (Z.of_nat k) block). split; simpl; [apply (mapped_sub h src len)|apply (mapped_sub h dst len)]; (done || lia).
Qed.

(** [len] bytes at [dst] are those that were at [src]; the rest is as before. *)
Definition range_copied (src dst len : Z) (h h' : heap) : Prop :=
  (∀ x, is_Some (h' !! x) ↔ is_Some (h !! x)) ∧ (∀ x, ¬ in_range dst len x → h' !! x = h !! x) ∧
  ∀ i, 0 <= i < len → h' !! (dst + i) = h !! (src + i).

Lemma tiles_landed src dst len block h h' :
  0 < block → 0 <= len → landed (tile src dst len block <$> seq 0 (tiles len block)) h h' → range_copied src dst len h h'.
Proof.
  intros Hb Hl (Hdom & Hout & Hcp). split; [done|]. split.
  - intros x Hx. apply Hout. intros m (k & -> & Hk%elem_of_seq)%list_elem_of_fmap Hw.
    pose proof (tiles_bound len block k Hb Hl ltac:(lia)). pose proof (Z.mul_nonneg_nonneg (Z.of_nat k) block).
    apply Hx. unfold writes, in_range in *. simpl in Hw. lia.
  - intros i Hi. destruct (tile_of len block i Hb Hi) as (Hk & Hi' & Hr). pose proof (Z.mod_pos_bound i block Hb).
    specialize (Hcp (tile src dst len block (Z.to_nat (i / block))) (i mod block)). simpl in Hcp. rewrite Hi', !Z.add_assoc.
    apply Hcp; [|lia]. apply list_elem_of_fmap_2, elem_of_seq. lia.
Qed.

Lemma range_copied_again src dst len h h1 h2 :
  src + len <= dst ∨ dst + len <= src → range_copied src dst len h h1 → range_copied src dst len h1 h2 → range_copied src dst len h h2.
Proof.
  intros Hap (D1 & O1 & C1) (D2 & O2 & C2). split; [intros x; by rewrite D2|]. split; [intros x Hx; by rewrite O2, O1|].
  intros i Hi. rewrite C2 by done. apply O1. unfold in_range. lia.
Qed.

(** ** Contents of ranges *)

Lemma reference_length len : 0 <= len → length (reference len) = Z.to_nat len.
Proof.
  intros Hl. unfold reference. rewrite length_app, length_replicate. pose proof (Z.div_mod len 4 ltac:(lia)).
  pose proof (Z.mod_pos_bound len 4 ltac:(lia)). assert (0 <= len / 4) by (apply Z.div_pos; lia).
  assert (∀ l : list Z, length (l ≫= ref_word) = (4 * length l)%nat) as Hb.
  { induction l as [|x l IH]; [done|]. csimpl. rewrite IH. lia. }
  rewrite Hb, length_seqZ. lia.
Qed.

(** Two ranges of [len] bytes with nothing in common. *)
Definition far (len : usize) (p q : u64) : Prop := p + len <= q ∨ q + len <= p.

Lemma copied_load src dst len h h' bs :
  0 <= len → range_copied src dst len h h' → load h src (Z.to_nat len) = Some bs → load h' dst (Z.to_nat len) = Some bs.
Proof.
  intros Hl (_ & _ & Hcp) Hld. assert (mapped h src len) as Hm by (apply mapped_load_iff; by eexists).
  destruct (load_mapped h' dst (Z.to_nat len)) as [cs Hcs].
  { intros x Hx. rewrite Z2Nat.id in Hx by done. replace x with (dst + (x - dst)) by lia. rewrite Hcp by lia. apply Hm. lia. }
  rewrite Hcs. f_equal. pose proof (load_length _ _ _ _ Hcs). pose proof (load_length _ _ _ _ Hld). apply list_eq. intros i.
  destruct (decide (i < Z.to_nat len)%nat) as [Hi|Hi]; [|by rewrite !lookup_ge_None_2 by lia].
  rewrite (load_lookup _ _ _ _ _ Hcs), (load_lookup _ _ _ _ _ Hld) by done. apply Hcp. lia.
Qed.

Lemma copied_load_far src dst len h h' p :
  0 <= len → range_copied src dst len h h' → far len p dst → load h' p (Z.to_nat len) = load h p (Z.to_nat len).
Proof. intros Hl (_ & Hout & _) Hf. apply load_ext. intros x Hx. apply Hout. unfold in_range, far in *. lia. Qed.

(** ** [timed] *)

Section Run.
Context {MR : Type} (rkey : MR → u32) `{BuildProfile}.
Context (post : TransferOp → u64 → list (RdmaOp MR) → option string) (fa : Fabric (MR := MR)).
Abbreviation Engine := (TransferEngine (MR := MR)).

(** The workers run, the hardware completes, and the operations of a batch take
    effect in some order. *)
Record fabric_runs : Prop := mkFabricRuns {
  fr_hardware : hardware_ok post (fa_hw fa);
  fr_order ops : fa_order fa ops ≡ₚ ops;
}.

(** A client between two batches. *)
Record bench_ready (nics : nat) (client : Engine) : Prop := mkBenchReady {
  br_ok : engine_ok client [];
  br_nics : num_nics client = nics;
  br_conn : ∃ conn, addr_connections (eng_state client) !! "server" = Some conn ∧
              Forall (λ n, Forall (λ s, fa_alive fa s = true) (conn_sessions n)) (conn_nics conn);
}.

(** The local range and the remote region of a case. *)
Record case_ok (nics : nat) (len block : usize) (local : u64) (remote : RegionDescriptor) (client : Engine) : Prop := mkCaseOk {
  ca_len : 0 < len;
  ca_block : 0 < block <= U32_MAX;
  ca_local : 0 <= local ∧ local + len <= U64_MAX;
  ca_remote : 0 <= rd_addr remote ∧ rd_addr remote + len <= U64_MAX ∧ rd_len remote = len;
  ca_keys : length (rkeys remote) = nics;
  ca_region : has_region client local len;
  ca_apart : local + len <= rd_addr remote ∨ rd_addr remote + len <= local;
}.

Lemma case_descs nics len block local remote client ds :
  case_ok nics len block local remote client → Forall (block_ok local remote len block) ds →
  Forall desc_u64 ds ∧ Forall (λ d, td_len d <= U32_MAX) ds ∧ Forall (desc_ok nics (registered (eng_state client))) ds.
Proof.
  intros [Hlen Hb Hl Hr Hk (entry & Hin & Hbase & Hel) _] Hall.
  assert (∀ d, block_ok local remote len block d →
    desc_u64 d ∧ td_len d <= U32_MAX ∧ desc_ok nics (registered (eng_state client)) d) as Hd.
  { intros d (H1 & H2 & H3 & H4 & H5). split; [split; lia|]. split; [lia|]. split; [lia|]. split.
    - exists local, entry. split; [done|]. unfold covers. lia.
    - rewrite H5. split; [|lia]. unfold contains, checked_add. rewrite decide_True by lia.
      apply andb_true_iff. rewrite !Z.leb_le. unfold saturating_add. lia. }
  split_and!; (eapply Forall_impl; [exact Hall|]); intros d Hdd; by apply Hd.
Qed.

Lemma nth_block_tile op local remote len block k :
  desc_move op (nth_block local remote len block k) =
  tile (from_of op local (rd_addr remote)) (to_of op local (rd_addr remote)) len block k.
Proof. by destruct op. Qed.

Lemma blocks_moves op local remote len block n :
  desc_move op <$> (nth_block local remote len block <$> seq 0 n) =
  tile (from_of op local (rd_addr remote)) (to_of op local (rd_addr remote)) len block <$> seq 0 n.
Proof. rewrite <- list_fmap_compose. apply list_fmap_ext. intros ? k _. apply nth_block_tile. Qed.

Lemma timed_step_ok nics op len block local remote client ds h :
  fabric_runs → bench_ready nics client → case_ok nics len block local remote client → blocks local remote len block = Ret ds →
  mapped h local len → mapped h (rd_addr remote) len →
  ∃ client' h', timed_step post fa op ds len client h = Ret (Some (client', h')) ∧ bench_ready nics client' ∧
    registered (eng_state client') = registered (eng_state client) ∧
    range_copied (from_of op local (rd_addr remote)) (to_of op local (rd_addr remote)) len h h'.
Proof.
  intros [[Hposts Hhw] Hord] [Hok Hn (conn & Hconn & Hal)] Hcase Hbl Hml Hmr.
  pose proof Hcase as [Hlen Hb Hl Hr Hk Hreg Hap].
  destruct (blocks_ok local remote len block) as (ds' & Hbl' & Hall & Hsum & Eds); try lia.
  rewrite Hbl in Hbl'. injection Hbl' as <-. destruct (case_descs _ _ _ _ _ _ _ Hcase Hall) as (Hu & Hmax & Hd).
  assert (Z.of_nat (length ds) <= len) as Hnum.
  { rewrite Eds, length_fmap, length_seq, Z2Nat.id by (apply Z.div_pos; lia).
    apply Z.div_le_upper_bound; [lia|]. nia. }
  pose proof (blocks_moves op local remote len block (tiles len block)) as Hmv. fold (tiles len block) in Eds. rewrite <- Eds in Hmv.
  destruct (batch_round rkey post (fa_alive fa) client [] "server" op ds conn)
    as (client' & sent & Hsend & Hok' & Eb & Hreg' & Hconn' & Hops & (ps & Hps & Hperm) & Hrecv); try done.
  - intros ->. simpl in Hsum. change (zsum []) with 0 in Hsum. lia.
  - by rewrite Hn.
  - unfold U64_MAX in *. lia.
  - unfold U64_MAX in *. lia.
  - destruct (sent_lands _ _ op ds ps sent (fa_order fa (mjoin (cmd_ops <$> sent))) h Hps Hperm (Hord _)) as (h' & Hrun & Hland).
    + rewrite Hmv. apply tiles_apart; [lia|lia|]. destruct op; simpl; lia.
    + rewrite Hmv. apply tiles_mapped; [lia|lia|..]; destruct op; done.
    + exists client', h'. split; [|split; [|split; [done|]]].
      * unfold timed_step. rewrite Hsend. cbn [mbind outcome_bind expect]. rewrite Hrecv by (by eapply Forall_impl).
        cbn [mbind outcome_bind]. rewrite Hsum, Z.eqb_refl. cbn [assert mbind outcome_bind]. by rewrite Hrun.
      * constructor; [done|unfold num_nics in *; by rewrite Eb|]. exists (bump conn). split; [done|].
        simpl. apply Forall_fmap. exact Hal.
      * rewrite Hmv in Hland. apply (tiles_landed _ _ _ block); [lia|lia|exact Hland].
Qed.

Lemma copied_mapped src dst len h h' a n : range_copied src dst len h h' → mapped h a n → mapped h' a n.
Proof. intros (Hdom & _) Hm x Hx. apply Hdom. by apply Hm. Qed.

Lemma timed_steps_ok nics op len block local remote client ds iters h :
  fabric_runs → bench_ready nics client → case_ok nics len block local remote client → blocks local remote len block = Ret ds →
  mapped h local len → mapped h (rd_addr remote) len → (0 < iters)%nat →
  ∃ client' h', timed_steps post fa op ds len iters client h = Ret (Some (client', h')) ∧ bench_ready nics client' ∧
    registered (eng_state client') = registered (eng_state client) ∧
    range_copied (from_of op local (rd_addr remote)) (to_of op local (rd_addr remote)) len h h'.
Proof.
  intros Hfr Hcl Hcase Hbl. revert client h Hcl Hcase. induction iters as [|iters IH]; intros client h Hcl Hcase Hml Hmr Hit; [lia|].
  destruct (timed_step_ok nics op len block local remote client ds h) as (c1 & h1 & Hs1 & Hc1 & Hr1 & Hcp1); [done..|].
  cbn [timed_steps]. rewrite Hs1. cbn [mbind outcome_bind]. destruct iters as [|iters].
  { exists c1, h1. by split_and!. }
  destruct (IH c1 h1) as (c2 & h2 & Hs2 & Hc2 & Hr2 & Hcp2); try lia; try done.
  { destruct Hcase as [H1 H2 H3 H4 H5 H6 H7]. constructor; try done. unfold has_region in *. by rewrite Hr1. }
  { by eapply copied_mapped. }
  { by eapply copied_mapped. }
  exists c2, h2. split; [done|]. split; [done|]. split; [congruence|]. eapply range_copied_again; [|done|done].
  destruct Hcase as [_ _ _ _ _ _ Hap]. destruct op; simpl; lia.
Qed.

(** A case: the blocks are made, all iterations run, and the range is copied. *)
Lemma timed_ok nics op len block local remote client iters h :
  fabric_runs → bench_ready nics client → case_ok nics len block local remote client →
  mapped h local len → mapped h (rd_addr remote) len → (0 < iters)%nat →
  ∃ ds client' h', blocks local remote len block = Ret ds ∧ timed post fa op ds iters client h = Ret (Some (client', h')) ∧
    bench_ready nics client' ∧ registered (eng_state client') = registered (eng_state client) ∧
    range_copied (from_of op local (rd_addr remote)) (to_of op local (rd_addr remote)) len h h'.
Proof.
  intros Hfr Hcl Hcase Hml Hmr Hit. pose proof Hcase as [Hlen Hb Hl Hr Hk Hreg Hap].
  destruct (blocks_ok local remote len block) as (ds & Hbl & Hall & Hsum & _); try lia.
  destruct (timed_steps_ok nics op len block local remote client ds iters h) as (c' & h' & Hs & Hrest); [done..|].
  destruct (case_descs _ _ _ _ _ _ _ Hcase Hall) as (Hu & _ & _).
  exists ds, c', h'. split; [done|]. split; [|done]. unfold timed. rewrite sum_len_ok by (done || lia).
  cbn [mbind outcome_bind]. by rewrite Z.add_0_l, Hsum.
Qed.

(** ** The three cases *)

(** The driver does what it is asked. *)
Record driver_ok (cs : CudaSys) : Prop := mkDriverOk {
  dv_init : cuInit cs = CUDA_SUCCESS;
  dv_h2d dst src len stream : cuMemcpyHtoDAsync cs dst src len stream = CUDA_SUCCESS;
  dv_d2h dst src len stream : cuMemcpyDtoHAsync cs dst src len stream = CUDA_SUCCESS;
  dv_memset ptr v n stream : cuMemsetD32Async cs ptr v n stream = CUDA_SUCCESS;
  dv_sync stream : stream_synchronize cs stream = true;
  dv_register ptr len : cuMemHostRegister cs ptr len = CUDA_SUCCESS;
}.

(** The buffers are in place and the source has the reference data. *)
Record bufs_ok (len : usize) (bufs : GpuBufs) (h : heap) : Prop := mkBufsOk {
  bu_lens : gb_len (bf_src bufs) = len ∧ gb_len (bf_sink bufs) = len ∧ gb_len (bf_dst bufs) = len ∧ hb_len (bf_host bufs) = len;
  bu_src : load h (gb_ptr (bf_src bufs)) (Z.to_nat len) = Some (reference len);
  bu_sink : mapped h (gb_ptr (bf_sink bufs)) len;
  bu_dst : mapped h (gb_ptr (bf_dst bufs)) len;
  bu_host : mapped h (hb_ptr (bf_host bufs)) len;
  bu_src_sink : far len (gb_ptr (bf_src bufs)) (gb_ptr (bf_sink bufs));
  bu_src_dst : far len (gb_ptr (bf_src bufs)) (gb_ptr (bf_dst bufs));
  bu_src_host : far len (gb_ptr (bf_src bufs)) (hb_ptr (bf_host bufs));
  bu_sink_dst : far len (gb_ptr (bf_sink bufs)) (gb_ptr (bf_dst bufs));
  bu_sink_host : far len (gb_ptr (bf_sink bufs)) (hb_ptr (bf_host bufs));
  bu_dst_host : far len (gb_ptr (bf_dst bufs)) (hb_ptr (bf_host bufs));
}.

(** What the program leaves: source, destination and sink with the reference
    data, the host buffer cleared. *)
Record bench_done (len : usize) (bufs : GpuBufs) (h : heap) : Prop := mkBenchDone {
  bd_src : load h (gb_ptr (bf_src bufs)) (Z.to_nat len) = Some (reference len);
  bd_dst : load h (gb_ptr (bf_dst bufs)) (Z.to_nat len) = Some (reference len);
  bd_sink : load h (gb_ptr (bf_sink bufs)) (Z.to_nat len) = Some (reference len);
  bd_host : load h (hb_ptr (bf_host bufs)) (Z.to_nat len) = Some (replicate (Z.to_nat len) 0);
}.

Lemma read_back_ok cs g b scratch h bs :
  driver_ok cs → load h (gb_ptr b) (Z.to_nat (gb_len b)) = Some bs → gpubuf_read_back cs g b scratch h = Ret bs.
Proof.
  intros [] Hl. unfold gpubuf_read_back, d2h_async, sync, check. rewrite dv_d2h0, Z.eqb_refl. cbn [expect mbind outcome_bind].
  rewrite dv_sync0. cbn [expect mbind outcome_bind]. by rewrite Hl.
Qed.

Lemma verify_ok bs : verify bs bs = Ret tt.
Proof. unfold verify. by rewrite bool_decide_true. Qed.

(** What the three copies leave. *)
Lemma cases_memory len bufs h h1 h2 h3 :
  0 < len → bufs_ok len bufs h →
  range_copied (gb_ptr (bf_src bufs)) (gb_ptr (bf_dst bufs)) len h h1 →
  range_copied (gb_ptr (bf_src bufs)) (hb_ptr (bf_host bufs)) len h1 h2 →
  range_copied (hb_ptr (bf_host bufs)) (gb_ptr (bf_sink bufs)) len h2 h3 →
  load h1 (gb_ptr (bf_dst bufs)) (Z.to_nat len) = Some (reference len) ∧
  load h2 (hb_ptr (bf_host bufs)) (Z.to_nat len) = Some (reference len) ∧
  load h3 (gb_ptr (bf_sink bufs)) (Z.to_nat len) = Some (reference len) ∧
  ∃ h4, store h3 (hb_ptr (bf_host bufs)) (replicate (Z.to_nat len) 0) = Some h4 ∧ bench_done len bufs h4.
Proof.
  intros Hlen [_ Hsrc Hsink Hdst Hhost F1 F2 F3 F4 F5 F6] C1 C2 C3.
  assert (∀ p q, far len p q → far len q p) as Hsym by (unfold far; intros; lia).
  pose proof (copied_load _ _ _ _ _ _ (Z.lt_le_incl _ _ Hlen) C1 Hsrc) as D1.
  pose proof Hsrc as S1. rewrite <- (copied_load_far _ _ _ _ _ _ (Z.lt_le_incl _ _ Hlen) C1 F2) in S1.
  pose proof (copied_load _ _ _ _ _ _ (Z.lt_le_incl _ _ Hlen) C2 S1) as H2.
  pose proof S1 as S2. rewrite <- (copied_load_far _ _ _ _ _ _ (Z.lt_le_incl _ _ Hlen) C2 F3) in S2.
  pose proof D1 as D2. rewrite <- (copied_load_far _ _ _ _ _ _ (Z.lt_le_incl _ _ Hlen) C2 F6) in D2.
  pose proof (copied_load _ _ _ _ _ _ (Z.lt_le_incl _ _ Hlen) C3 H2) as K3.
  rewrite <- (copied_load_far _ _ _ _ _ _ (Z.lt_le_incl _ _ Hlen) C3 F1) in S2.
  rewrite <- (copied_load_far _ _ _ _ _ _ (Z.lt_le_incl _ _ Hlen) C3 (Hsym _ _ F4)) in D2.
  do 3 (split; [done|]). destruct (store_mapped h3 (hb_ptr (bf_host bufs)) (replicate (Z.to_nat len) 0)) as [h4 Hst].
  { rewrite length_replicate, Z2Nat.id by lia. do 3 (eapply copied_mapped; [done|]). done. }
  exists h4. split; [done|]. pose proof (load_store_eq _ _ _ _ Hst) as Hz. rewrite length_replicate in Hz.
  constructor; [| | |done]; (rewrite (load_store_ne _ _ _ _ _ _ Hst); [done|]); rewrite length_replicate, Z2Nat.id by lia; unfold far in *; lia.
Qed.

Lemma run_cases_ok nics cs len block iters scratch bufs src_desc sink_desc client h :
  fabric_runs → driver_ok cs → bufs_ok len bufs h → bench_ready nics client → (0 < iters)%nat →
  rd_addr src_desc = gb_ptr (bf_src bufs) → rd_addr sink_desc = gb_ptr (bf_sink bufs) →
  case_ok nics len block (gb_ptr (bf_dst bufs)) src_desc client →
  case_ok nics len block (hb_ptr (bf_host bufs)) src_desc client →
  case_ok nics len block (hb_ptr (bf_host bufs)) sink_desc client →
  ∃ h', run_cases post fa cs len block iters scratch bufs src_desc sink_desc client h = Ret (Some h') ∧ bench_done len bufs h'.
Proof.
  intros Hfr Hdv Hbufs Hcl Hit Es Ek HA HB HC. pose proof Hbufs as [(L1 & L2 & L3 & L4) Hsrc Hsink Hdst Hhost F1 F2 F3 F4 F5 F6].
  pose proof (ca_len _ _ _ _ _ _ HA) as Hlen. assert (mapped h (gb_ptr (bf_src bufs)) len) as Hms by (apply mapped_load_iff; by eexists).
  destruct (timed_ok nics Read len block _ src_desc client iters h Hfr Hcl HA) as (d1 & c1 & h1 & Hb1 & Ht1 & Hc1 & Hr1 & Hcp1);
    [done|by rewrite Es|done|].
  simpl in Hcp1. rewrite Es in Hcp1.
  assert (∀ local remote, case_ok nics len block local remote client → case_ok nics len block local remote c1) as Hcase1.
  { intros l r []. constructor; try done. unfold has_region in *. by rewrite Hr1. }
  destruct (timed_ok nics Read len block _ src_desc c1 iters h1 Hfr Hc1 (Hcase1 _ _ HB)) as (d2 & c2 & h2 & Hb2 & Ht2 & Hc2 & Hr2 & Hcp2);
    [by eapply copied_mapped|rewrite Es; by eapply copied_mapped|done|].
  simpl in Hcp2. rewrite Es in Hcp2.
  assert (case_ok nics len block (hb_ptr (bf_host bufs)) sink_desc c2) as HC2.
  { destruct (Hcase1 _ _ HC). constructor; try done. unfold has_region in *. by rewrite Hr2. }
  destruct (timed_ok nics Write len block _ sink_desc c2 iters h2 Hfr Hc2 HC2) as (d3 & c3 & h3 & Hb3 & Ht3 & _ & _ & Hcp3);
    [do 2 (eapply copied_mapped; [done|]); done|rewrite Ek; do 2 (eapply copied_mapped; [done|]); done|done|].
  simpl in Hcp3. rewrite Ek in Hcp3. unfold run_cases. rewrite Hb1. cbn [mbind outcome_bind]. rewrite Ht1. cbn [mbind outcome_bind].
  destruct (cases_memory len bufs h h1 h2 h3 Hlen Hbufs Hcp1 Hcp2 Hcp3) as (V1 & V2 & V3 & h4 & Hst & Hdone).
  exists h4. split; [|done]. rewrite (read_back_ok cs _ _ scratch h1 (reference len)) by (done || by rewrite L3). cbn [mbind outcome_bind].
  rewrite verify_ok.
  cbn [mbind outcome_bind]. rewrite Hb2. cbn [mbind outcome_bind]. rewrite Ht2. cbn [mbind outcome_bind]. unfold hostbuf_slice.
  rewrite L4, V2. cbn [deref mbind outcome_bind]. rewrite verify_ok. cbn [mbind outcome_bind]. rewrite Hb3. cbn [mbind outcome_bind].
  rewrite Ht3. cbn [mbind outcome_bind]. rewrite (read_back_ok cs _ _ scratch h3 (reference len)) by (done || by rewrite L2). cbn [mbind outcome_bind].
  rewrite verify_ok.
  cbn [mbind outcome_bind]. by rewrite Hst.
Qed.
End Run.
