(* ===== verification/GpuBenchMain.v ===== *)
(** * The GPU benchmark runs to its end

    The memory of the buffers, the engines, and [main]: on a machine whose
    driver, NICs and allocators work, every comparison succeeds. *)

From S2P Require Import Prelude HostMem Types RegMap Session RcBackend RcBatch Handshake HandshakeInv HandshakeTheorems Engine EngineRegister EngineTransfer RdmaData Text Numa Topology Cuda RdmaTopo SplitMix BenchBlocks CpuBench CpuBenchRun GpuBench GpuBenchRun.

(** ** New memory *)

Lemma map_range_mapped h p n b : mapped (map_range h p n b) p n.
Proof. intros x Hx. rewrite map_range_lookup, decide_True by exact Hx. by eexists. Qed.

Lemma map_range_keeps h p n b a m : mapped h a m → mapped (map_range h p n b) a m.
Proof. intros Hm x Hx. rewrite map_range_lookup. case_decide; [by eexists|by apply Hm]. Qed.

Lemma map_range_load h p len b a :
  0 <= len → far len a p → load (map_range h p len b) a (Z.to_nat len) = load h a (Z.to_nat len).
Proof.
  intros Hl Hf. apply load_ext. intros x Hx. rewrite map_range_lookup, decide_False; [done|].
  unfold in_range, far in *. lia.
Qed.

(** Unmapped memory is apart from mapped memory. *)
Lemma free_far h p q len : 0 < len → mapped h p len → (∀ x, in_range q len x → h !! x = None) → far len p q.
Proof.
  intros Hl Hm Hf. unfold far. destruct (decide (p + len <= q ∨ q + len <= p)) as [|Hn]; [done|]. exfalso.
  destruct (Hm (Z.max p q)) as [b Hb]; [lia|]. rewrite Hf in Hb by (unfold in_range; lia). done.
Qed.

(** [h'] maps at most [n] bytes at [p] in addition to [h]. *)
Definition within (h' h : heap) (p : u64) (n : usize) : Prop :=
  ∀ x, is_Some (h' !! x) → is_Some (h !! x) ∨ in_range p n x.

Lemma map_range_within h p n b : within (map_range h p n b) h p n.
Proof. intros x. rewrite map_range_lookup. case_decide; auto. Qed.

(** ** Buffers *)

(** A device allocation of [len] bytes at [p], exported as [fd]. *)
Record alloc_ok (cs : CudaSys) (g : CudaGpu) (len : usize) (p : u64) (fd : Z) : Prop := mkAllocOk {
  al_bind : ctx_bind cs (gpu_ctx g) = true;
  al_alloc : cuMemAlloc cs (gpu_ctx g) len = (CUDA_SUCCESS, p);
  al_export : cuMemGetHandleForAddressRange cs p len = (CUDA_SUCCESS, fd);
  al_fits : 0 <= p ∧ p + len <= U64_MAX;
}.

Lemma gpubuf_alloc_ok cs g len p fd h :
  alloc_ok cs g len p fd → gpubuf_alloc cs g len h = Ret (map_range h p len 0, mkGpuBuf p len fd).
Proof.
  intros [Hb Ha He _]. unfold gpubuf_alloc, device_alloc, dmabuf_fd, check. rewrite Hb, Ha. cbn [assert mbind outcome_bind].
  rewrite Z.eqb_refl. cbn [expect mbind outcome_bind result_bind]. rewrite He, Z.eqb_refl. done.
Qed.

Lemma gpubuf_fill_ok cs g b host_ptr host h :
  driver_ok cs → length host = Z.to_nat (gb_len b) → 0 <= gb_len b → mapped h (gb_ptr b) (gb_len b) →
  ∃ h', gpubuf_fill cs g b host_ptr host h = Ret h' ∧ store h (gb_ptr b) host = Some h'.
Proof.
  intros [] Hl Hn Hm. destruct (store_mapped h (gb_ptr b) host) as [h' Hst]; [by rewrite Hl, Z2Nat.id|].
  exists h'. split; [|done]. unfold gpubuf_fill, h2d_async, sync, check. rewrite dv_h2d, Z.eqb_refl, dv_sync.
  cbn [expect mbind outcome_bind]. by rewrite Hst.
Qed.

Lemma gpubuf_zero_ok cs g b h :
  driver_ok cs → 0 <= gb_len b → mapped h (gb_ptr b) (gb_len b) →
  ∃ h' zs, gpubuf_zero cs g b h = Ret h' ∧ store h (gb_ptr b) zs = Some h' ∧ Z.of_nat (length zs) <= gb_len b.
Proof.
  intros [] Hn Hm. assert (Z.of_nat (length (replicate (4 * Z.to_nat (gb_len b / 4)) 0)) <= gb_len b) as Hl.
  { rewrite length_replicate. pose proof (Z.mul_div_le (gb_len b) 4). assert (0 <= gb_len b / 4) by (apply Z.div_pos; lia). lia. }
  destruct (store_mapped h (gb_ptr b) (replicate (4 * Z.to_nat (gb_len b / 4)) 0)) as [h' Hst]; [eapply mapped_sub; [done|lia|lia]|].
  exists h', (replicate (4 * Z.to_nat (gb_len b / 4)) 0). split; [|done]. unfold gpubuf_zero, memset_d32_async, sync, check.
  rewrite dv_memset, Z.eqb_refl, dv_sync. cbn [expect mbind outcome_bind]. by rewrite Hst.
Qed.

(** A buffer allocated and cleared leaves the rest as it was. *)
Lemma alloc_zero_ok cs acs g len p fd h :
  driver_ok cs → alloc_ok acs g len p fd → 0 <= len →
  ∃ h', gpubuf_zero cs g (mkGpuBuf p len fd) (map_range h p len 0) = Ret h' ∧ mapped h' p len ∧
    (∀ a m, mapped h a m → mapped h' a m) ∧
    (∀ a, far len a p → load h' a (Z.to_nat len) = load h a (Z.to_nat len)) ∧ within h' h p len.
Proof.
  intros Hdv Hal Hl. destruct (gpubuf_zero_ok cs g (mkGpuBuf p len fd) (map_range h p len 0)) as (h' & zs & Hz & Hst & Hzs);
    [done|done|apply map_range_mapped|]. simpl in *.
  exists h'. split; [done|]. split; [|split; [|split]].
  - eapply store_mapped_iff; [exact Hst|]. apply map_range_mapped.
  - intros a m Hm. eapply store_mapped_iff; [exact Hst|]. by apply map_range_keeps.
  - intros a Hf. rewrite (load_store_ne _ _ _ _ _ _ Hst) by (unfold far in Hf; lia). by apply map_range_load.
  - intros x Hx. apply (store_dom _ _ _ _ _ Hst) in Hx. by apply map_range_within in Hx.
Qed.

Section Main.
Context {MR : Type} (rkey : MR → u32) `{BuildProfile}.
Context (post : TransferOp → u64 → list (RdmaOp MR) → option string) (fa : Fabric (MR := MR)) (gs : GpuSys (MR := MR)).

(** The GPUs open, can export memory, and their allocations are apart. *)
Record gpus_ok (src_index dst_index : u16) (len : usize) (p_src p_sink p_dst : u64) (h : heap) : Prop := mkGpusOk {
  go_driver : driver_ok (gs_cuda gs);
  go_open : ∃ devices src_gpu dst_gpu fd1 fd2 fd3, open_devices (gs_cuda gs) [src_index; dst_index] = Ok devices ∧
    gpus_get devices src_index = Some src_gpu ∧ gpus_get devices dst_index = Some dst_gpu ∧
    forallb (dmabuf_supported (gs_cuda gs)) devices = true ∧ alloc_ok (gs_alloc_src gs) src_gpu len p_src fd1 ∧
    alloc_ok (gs_alloc_sink gs) dst_gpu len p_sink fd2 ∧ alloc_ok (gs_alloc_dst gs) dst_gpu len p_dst fd3;
  go_apart : far len p_src p_sink ∧ far len p_src p_dst ∧ far len p_sink p_dst;
  go_mmap h' :
    (∀ x, is_Some (h' !! x) → is_Some (h !! x) ∨ in_range p_src len x ∨ in_range p_sink len x ∨ in_range p_dst len x) →
    ∃ q, gs_mmap gs h' len = Some q ∧ 0 <= q ∧ q + len <= U64_MAX ∧ ∀ x, in_range q len x → h' !! x = None;
}.

Lemma open_buffers_ok src_index dst_index len ref_ptr h p_src p_sink p_dst :
  gpus_ok src_index dst_index len p_src p_sink p_dst h → 0 < len →
  ∃ h' bufs, open_buffers gs src_index dst_index len ref_ptr h = Ret (h', bufs) ∧ bufs_ok len bufs h' ∧
    gb_ptr (bf_src bufs) = p_src ∧ gb_ptr (bf_sink bufs) = p_sink ∧ gb_ptr (bf_dst bufs) = p_dst ∧
    Forall (λ p, 0 <= p ∧ p + len <= U64_MAX) [gb_ptr (bf_src bufs); gb_ptr (bf_sink bufs); gb_ptr (bf_dst bufs); hb_ptr (bf_host bufs)].
Proof.
  intros [Hdv (devices & sg & dg & fd1 & fd2 & fd3 & Hop & Hsg & Hdg & Hex & A1 & A2 & A3) (F1 & F2 & F3) Hmm] Hlen.
  assert (0 <= len) as Hl0 by lia. unfold open_buffers, cuda_init, check. rewrite (dv_init _ Hdv), Z.eqb_refl.
  cbn [expect mbind outcome_bind]. unfold gpus_open. rewrite Hop. cbn [expect mbind outcome_bind result_bind].
  rewrite Hsg, Hdg. cbn [unwrap mbind outcome_bind]. rewrite Hex. cbn [assert mbind outcome_bind].
  rewrite (gpubuf_alloc_ok _ _ _ _ _ _ A1). cbn [mbind outcome_bind].
  destruct (gpubuf_fill_ok (gs_cuda gs) sg (mkGpuBuf p_src len fd1) ref_ptr (reference len) (map_range h p_src len 0)) as (h1 & -> & S1);
    [done|by apply reference_length|done|apply map_range_mapped|]. cbn [mbind outcome_bind]. simpl in S1.
  pose proof (load_store_eq _ _ _ _ S1) as L1. rewrite reference_length in L1 by done.
  rewrite (gpubuf_alloc_ok _ _ _ _ _ _ A2). cbn [mbind outcome_bind].
  destruct (alloc_zero_ok (gs_cuda gs) _ _ _ _ _ h1 Hdv A2 Hl0) as (h2 & -> & M2 & K2 & L2 & W2). cbn [mbind outcome_bind].
  rewrite (gpubuf_alloc_ok _ _ _ _ _ _ A3). cbn [mbind outcome_bind].
  destruct (alloc_zero_ok (gs_cuda gs) _ _ _ _ _ h2 Hdv A3 Hl0) as (h3 & -> & M3 & K3 & L3 & W3). cbn [mbind outcome_bind].
  destruct (Hmm h3) as (q & Hq & Hq0 & Hq1 & Hfree).
  { intros x Hx. apply W3 in Hx as [Hx|Hx]; [|auto]. apply W2 in Hx as [Hx|Hx]; [|auto].
    apply (store_dom _ _ _ _ _ S1), map_range_within in Hx. tauto. }
  unfold hostbuf_alloc, host_register. rewrite Hq.
  cbn [unwrap mbind outcome_bind]. rewrite (dv_register _ Hdv), Z.eqb_refl. cbn [assert mbind outcome_bind].
  rewrite <- (L2 _ F1), <- (L3 _ F2) in L1.
  assert (mapped h3 p_src len) as M1 by (apply mapped_load_iff; by eexists).
  pose proof (free_far _ _ _ _ Hlen M1 Hfree) as Q1. pose proof (free_far _ _ _ _ Hlen (K3 _ _ M2) Hfree) as Q2.
  pose proof (free_far _ _ _ _ Hlen M3 Hfree) as Q3.
  eexists _, _. split; [done|]. split; [|do 3 (split; [done|]); simpl; repeat constructor; try apply A1; try apply A2; try apply A3; lia].
  constructor; simpl; try done; [by rewrite map_range_load|..|apply map_range_mapped]; apply map_range_keeps; auto.
Qed.

(** ** Engines *)

(** [e'] is [e] with [len] bytes at [p] registered. *)
Record enrolled (e e' : TransferEngine (MR := MR)) (p : u64) (len : usize) : Prop := mkEnrolled {
  er_ok : engine_ok e' [];
  er_same : same_connections e e';
  er_region : has_region e' p len;
  er_regions a n : has_region e a n → has_region e' a n;
  er_free a : region_free e a len → far len a p → region_free e' a len;
}.

Definition enrolls (e : TransferEngine (MR := MR)) (o : outcome (TransferEngine (MR := MR) * RegionDescriptor)) (p : u64) (len : usize) : Prop :=
  ∃ e' keys, o = Ret (e', mkDescriptor p len keys) ∧ length keys = num_nics e ∧ enrolled e e' p len.

Lemma register_enrolls e reg p len numa :
  engine_ok e [] → region_free e p len → (∀ i, ∃ mr, reg i = Ok mr) → 0 < len → 0 <= p ∧ p + len <= U64_MAX →
  ∃ st keys, register_with rkey (num_nics e) reg (eng_state e) p len numa = Ret (st, Ok (mkDescriptor p len keys)) ∧
    length keys = num_nics e ∧ enrolled e (put_state e st) p len.
Proof.
  intros Hok Hf Hreg Hl [Hp Hpl]. destruct (register_ok rkey e [] reg p len numa) as (st & keys & Hrw & Hk & Hok' & Hs & Hr & Hrs & Hfs); [done..|].
  exists st, keys. do 2 (split; [done|]). constructor; try done. intros a Ha Hfar. by apply Hfs.
Qed.

Lemma register_gpu_ok e b numa :
  engine_ok e [] → region_free e (gb_ptr b) (gb_len b) → (∀ i o l a fd, ∃ mr, gs_reg_dmabuf gs i o l a fd = Ok mr) →
  0 < gb_len b → 0 <= gb_ptr b ∧ gb_ptr b + gb_len b <= U64_MAX →
  enrolls e (register_gpu rkey gs e b numa) (gb_ptr b) (gb_len b).
Proof.
  intros Hok Hf Hreg Hl Hp.
  destruct (register_enrolls e (λ i, gs_reg_dmabuf gs i 0 (gb_len b) (gb_ptr b) (gb_fd b)) (gb_ptr b) (gb_len b) numa)
    as (st & keys & Hrw & Hk & He); [done..|].
  exists (put_state e st), keys. unfold register_gpu, engine_register_dmabuf, register_dmabuf. by rewrite Hrw.
Qed.

Lemma register_host_ok e b :
  engine_ok e [] → region_free e (hb_ptr b) (hb_len b) → (∀ i a l, ∃ mr, gs_reg_mr gs i a l = Ok mr) →
  0 < hb_len b → 0 <= hb_ptr b ∧ hb_ptr b + hb_len b <= U64_MAX →
  enrolls e (register_host_buf rkey gs e b) (hb_ptr b) (hb_len b).
Proof.
  intros Hok Hf Hreg Hl Hp.
  destruct (register_enrolls e (λ i, gs_reg_mr gs i (hb_ptr b) (hb_len b)) (hb_ptr b) (hb_len b) (gs_page_numa gs (hb_ptr b)))
    as (st & keys & Hrw & Hk & He); [done..|].
  exists (put_state e st), keys. unfold register_host_buf, engine_register_host, register_host. by rewrite Hrw.
Qed.

(** Two regions of a fresh engine. *)
Lemma enroll_two e e1 e2 p q len :
  engine_ok e [] → enrolled e e1 p len → enrolled e1 e2 q len → same_connections e e2 ∧ has_region e2 p len ∧ has_region e2 q len ∧ engine_ok e2 [].
Proof. intros _ [_ H1 R1 _ _] [Hok H2 R2 K2 _]. split; [by etransitivity|]. split; [by apply K2|done]. Qed.

(** The NICs open, register memory, and create and connect queue pairs, and the
    workers of the client's sessions run. *)
Record nics_ok (names : list string) (q : nat) (b : RcBackend) (s_qps c_qps : list (list RcSession)) : Prop := mkNicsOk {
  no_new : rc_new (gs_open gs) names q = Ok b;
  no_dmabuf i o l a fd : ∃ mr, gs_reg_dmabuf gs i o l a fd = Ok mr;
  no_mr i a l : ∃ mr, gs_reg_mr gs i a l = Ok mr;
  no_links : Forall2 link_pair (rc_runtimes b) (rc_runtimes b);
  no_server : (∃ psn, create_all (gs_server_qp gs) 0 (rc_runtimes b) 1 q = (psn, Ok s_qps)) ∧ fresh_qpns [] s_qps;
  no_client : (∃ psn, create_all (gs_client_qp gs) 0 (rc_runtimes b) 1 q = (psn, Ok c_qps)) ∧ fresh_qpns [] c_qps;
  no_server_up : links_up (gs_server_modify gs) (endpoints <$> s_qps) (endpoints <$> c_qps);
  no_client_up : links_up (gs_client_modify gs) (endpoints <$> c_qps) (endpoints <$> s_qps);
  no_alive : Forall (Forall (λ s, fa_alive fa s = true)) c_qps;
}.

Lemma open_engines_ok names q b s_qps c_qps src_numa dst_numa len bufs h :
  nics_ok names q b s_qps c_qps → bufs_ok len bufs h → 0 < len →
  Forall (λ p, 0 <= p ∧ p + len <= U64_MAX) [gb_ptr (bf_src bufs); gb_ptr (bf_sink bufs); gb_ptr (bf_dst bufs); hb_ptr (bf_host bufs)] →
  ∃ client k1 k2, open_engines rkey gs names q src_numa dst_numa bufs =
      Ret (client, (mkDescriptor (gb_ptr (bf_src bufs)) len k1, mkDescriptor (gb_ptr (bf_sink bufs)) len k2)) ∧
    length k1 = length (rc_runtimes b) ∧ length k2 = length (rc_runtimes b) ∧
    bench_ready fa (length (rc_runtimes b)) client ∧
    has_region client (gb_ptr (bf_dst bufs)) len ∧ has_region client (hb_ptr (bf_host bufs)) len.
Proof.
  intros [Hnew Hdm Hmr Hlk Hsq Hcq Hsu Hcu Hal] [(L1 & L2 & L3 & L4) _ _ _ _ F1 _ _ _ _ F6] Hlen
    (P1 & (P2 & (P3 & (P4 & _)%Forall_cons)%Forall_cons)%Forall_cons)%Forall_cons.
  assert (∀ p q, far len p q → far len q p) as Hsym by (unfold far; intros; lia).
  destruct (engine_new_ok (MR := MR) _ _ _ _ Hnew) as (e & He & Eb & Epsn & Hok & Hnil & Hc & Hg).
  assert (∀ p, region_free e p len) as Hfree by (intros p k f Hf; rewrite Hnil in Hf; by apply elem_of_nil in Hf).
  destruct (register_gpu_ok e (bf_src bufs) src_numa) as (s1 & k1 & Hs1 & Hk1 & E1); try done; try (by rewrite L1).
  rewrite L1 in *.
  destruct (register_gpu_ok s1 (bf_sink bufs) dst_numa) as (s2 & k2 & Hs2 & Hk2 & E2); try done; try (by rewrite L2).
  { apply E1. } { rewrite L2. apply E1; auto. }
  rewrite L2 in *.
  destruct (register_gpu_ok e (bf_dst bufs) dst_numa) as (c1 & k3 & Hc1 & Hk3 & E3); try done; try (by rewrite L3).
  rewrite L3 in *.
  destruct (register_host_ok c1 (bf_host bufs)) as (c2 & k4 & Hc2 & Hk4 & E4); try done; try (by rewrite L4).
  { apply E3. } { rewrite L4. apply E3; auto. }
  rewrite L4 in *.
  destruct (enroll_two _ _ _ _ _ _ Hok E1 E2) as ([Es Ps Cs Gs] & _ & _ & Oks).
  destruct (enroll_two _ _ _ _ _ _ Hok E3 E4) as ([Ec Pc Cc Gc] & R1 & R2 & Okc).
  destruct (rc_new_shape _ _ _ _ Hnew) as [Eq _]. rewrite Eb in Es, Ec.
  destruct (connect_as_ok "server" "client" s2 c2 [] [] (gs_server_qp gs) (gs_client_qp gs)
    (gs_server_modify gs) (gs_client_modify gs) s_qps c_qps) as (s' & c' & Hcon & _ & (Hco & Hok' & Eb')); try done.
  all: rewrite ?Es, ?Ec; try done.
  { by split; rewrite ?Cs, ?Gs, ?Hc, ?Hg. }
  { by split; rewrite ?Cc, ?Gc, ?Hc, ?Hg. }
  { unfold builds. by rewrite Es, Ps, Epsn, Eq. }
  { unfold builds. by rewrite Ec, Pc, Epsn, Eq. }
  exists c', k1, k2. unfold open_engines. rewrite He. cbn [expect mbind outcome_bind]. rewrite Hs1. cbn [mbind outcome_bind].
  rewrite Hs2. cbn [mbind outcome_bind]. rewrite Hc1. cbn [mbind outcome_bind]. rewrite Hc2. cbn [mbind outcome_bind].
  unfold connect_engines. rewrite Hcon. cbn [mbind outcome_bind]. split; [done|].
  destruct Hco as (_ & _ & Hconn & Hreg & _). pose proof (sc_backend _ _ (er_same _ _ _ _ E1)) as Es1.
  unfold num_nics in *. rewrite Es1, Eb in Hk2. rewrite Eb in Hk1.
  do 2 (split; [done|]). unfold has_region in *. rewrite Hreg. split; [|done]. constructor; [done|unfold num_nics; congruence|].
  exists (conn_of c_qps). rewrite Hconn, lookup_insert_eq. split; [done|]. simpl. by apply Forall_fmap.
Qed.

(** ** [main] *)

(** C25: The GPU benchmark ends with all its data verified: on a machine whose GPUs
    open and export memory, whose allocators return memory not in use, whose
    NICs connect and complete what is posted, and whatever order the operations
    of a batch take effect in, [main] with at least one iteration and blocks
    below 4 GiB returns: no assertion and none of its three comparisons with
    the reference fails, and the buffers on both GPUs hold the reference. *)
Theorem gpu_bench_verifies src_index dst_index mib block_mib iters cli_nics groups q ref_ptr scratch h p_src p_sink p_dst b s_qps c_qps :
  fabric_runs post fa → gpus_ok src_index dst_index (mib * MIB) p_src p_sink p_dst h →
  nics_ok (bench_nics cli_nics groups) q b s_qps c_qps →
  0 < mib ∧ mib * MIB <= U64_MAX → 0 < block_mib < 4096 → mib mod 2 = 0 → block_mib mod 2 = 0 → (0 < iters)%nat →
  ∃ h', gpu_bench_main rkey post gs fa src_index dst_index mib block_mib iters cli_nics groups q ref_ptr scratch h = Ret (Some h') ∧
    Forall (λ p, load h' p (Z.to_nat (mib * MIB)) = Some (reference (mib * MIB))) [p_src; p_sink; p_dst].
Proof.
  intros Hfr Hgo Hno [Hm Hmax] Hb Hm2 Hb2 Hit. assert (0 < MIB ∧ MIB = 2 ^ 20) as [HM EM] by done. assert (0 < mib * MIB) as Hlen by lia.
  destruct (open_buffers_ok src_index dst_index (mib * MIB) ref_ptr h _ _ _ Hgo) as (h1 & bufs & Hop & Hbufs & E1 & E2 & E3 & Hpos); [done|].
  destruct (open_engines_ok (bench_nics cli_nics groups) q b s_qps c_qps (gpu_numa_node (bf_topo bufs) src_index)
    (gpu_numa_node (bf_topo bufs) dst_index) (mib * MIB) bufs h1) as (client & k1 & k2 & Hen & Hk1 & Hk2 & Hcl & R1 & R2); [done..|].
  pose proof Hpos as (P1 & (P2 & (P3 & (P4 & _)%Forall_cons)%Forall_cons)%Forall_cons)%Forall_cons.
  pose proof Hbufs as [_ _ _ _ _ _ F2 F3 _ F5 _]. unfold far in F2, F3, F5.
  destruct (run_cases_ok rkey post fa (length (rc_runtimes b)) (gs_cuda gs) (mib * MIB) (block_mib * MIB) iters scratch bufs
    (mkDescriptor (gb_ptr (bf_src bufs)) (mib * MIB) k1) (mkDescriptor (gb_ptr (bf_sink bufs)) (mib * MIB) k2) client h1) as (h2 & Hrun & Hdone);
    try done; try apply Hgo.
  1-3: constructor; simpl; try done; unfold U32_MAX; lia.
  exists h2. split; [|destruct Hdone; rewrite <- E1, <- E2, <- E3; by repeat constructor]. unfold gpu_bench_main, u64_mul, u64_wrap.
  rewrite !(decide_True (P := is_u64 _)) by (unfold is_u64, U64_MAX in *; lia).
  cbn [mbind outcome_bind]. rewrite !(Z.mul_comm _ MIB), !Z.mul_mod_distr_l, Hm2, Hb2, Z.mul_0_r by lia.
  cbn [Z.eqb andb assert mbind outcome_bind]. rewrite !(Z.mul_comm MIB). rewrite bool_decide_false.
  - cbn [negb assert mbind outcome_bind]. rewrite Hop. cbn [mbind outcome_bind]. rewrite Hen. cbn [mbind outcome_bind]. exact Hrun.
  - pose proof (no_new _ _ _ _ _ Hno) as Hn. intros Hnil. by rewrite Hnil in Hn.
Qed.
End Main.

(** ** Two GPUs, two NICs, 4 MiB in blocks of 2 MiB, taking effect last to first *)

#[local] Instance gm_profile : BuildProfile := true.

Definition gm_cuda (p : u64) : CudaSys :=
  mkCudaSys 0 (0, 4) (λ i, (0, i)) (λ _, (0, str "0000:19:00.0")) (λ _ _, (0, 1)) (λ _ _, 0) (λ _ _ _ _, 0) (λ _ _ _ _, 0)
    (λ _ _ _ _ _ _, 0) (λ _ _, 0) (λ _ _, (0, p)) (λ _ _ _ _, 0) (λ _ _, (0, 7)) (λ i, Some (i + 100)) (λ c, Some (c + 200)) (λ _, true) (λ _, true).
Definition gm_sys : GpuSys (MR := u32) :=
  mkGpuSys (gm_cuda 0) (gm_cuda (2 ^ 32)) (gm_cuda (2 ^ 33)) (gm_cuda (2 ^ 34)) (λ _ _, Some (2 ^ 40)) None 4 (λ _, None) hs_open (λ _, 0)
    (λ i _ _, Ok (11 + Z.of_nat i)) (λ i _ _ _ _, Ok (21 + Z.of_nat i)) (en_build 100) (en_build 200) en_modify en_modify.
Definition gm_fabric : Fabric (MR := u32) := mkFabric (λ _, true) (prompt_hw cb_post) reverse.

Lemma gpu_bench_verifies_witness :
  ∃ h', gpu_bench_main hs_key cb_post gm_sys gm_fabric 2 3 4 2 5 hs_names [] 2 0 0 ∅ = Ret (Some h') ∧
    Forall (λ p, load h' p (Z.to_nat (4 * MIB)) = Some (reference (4 * MIB))) [2 ^ 32; 2 ^ 33; 2 ^ 34].
Proof.
  apply (gpu_bench_verifies hs_key cb_post gm_fabric gm_sys 2 3 4 2 5 hs_names [] 2 0 0 ∅ (2 ^ 32) (2 ^ 33) (2 ^ 34)
    (mkBackend hs_runtimes 2) (cb_sessions 100 hs_runtimes) (cb_sessions 200 hs_runtimes)).
  - constructor; [constructor; [done|]|]; [intros c; by apply prompt_hw_completes|]. intros ops. apply reverse_Permutation.
  - constructor.
    + by constructor.
    + do 6 eexists. split; [vm_compute; reflexivity|]. do 3 (split; [vm_compute; reflexivity|]).
      split_and!; constructor; try reflexivity; unfold U64_MAX, MIB; simpl; lia.
    + unfold far, MIB. lia.
    + intros h' Hdom. exists (2 ^ 40). split; [done|]. split; [lia|]. split; [unfold U64_MAX, MIB; lia|].
      intros x Hx. destruct (h' !! x) eqn:Hh; [|done]. exfalso. unfold in_range, MIB in *.
      destruct (Hdom x) as [[? ?]|?]; [by eexists|by rewrite lookup_empty in *|lia].
  - destruct (cb_fabric hs_names hs_runtimes) as [H1 H2 H3 H4 H5 H6 H7]; [by do 2 right; left|].
    constructor; try done; [by eexists|]. repeat constructor.
  - unfold U64_MAX, MIB. lia.
  - lia.
  - reflexivity.
  - reflexivity.
  - lia.
Defined.
