(* ===== verification/WeightsFanout.v ===== *)
(** * The weights example: [examples/weights_fanout.rs]

    Its arguments and sizes, the buffers it fills and samples, and the put and
    the publishing of a shard through the [Store] handle.  The threads that
    fetch concurrently and the reports are in [FanOut], [main] in [FanOutMain]. *)

From S2P Require Import Prelude HostMem Types Region Memory MemoryCopy Store MemoryAccess StoreTheorems Text Cuda BenchBlocks CpuBench GpuBenchRun GpuBenchMain MemoryPutOps MemoryProps.

Definition GIB : usize := 2 ^ 30.

(** ** Arguments *)

Record Args : Type := mkArgs {
  ar_gib : usize;
  ar_slots : usize;
  ar_pool_gib : option usize;
}.

Definition default_args : Args := mkArgs 1 4 None.

(** One option; a value that does not parse and an unknown name panic. *)
Definition parse_arg (k v : bytes) (a : Args) : outcome Args :=
  if decide (k = str "--gib") then n ← unwrap (parse_usize v); Ret (mkArgs n (ar_slots a) (ar_pool_gib a))
  else if decide (k = str "--slots") then n ← unwrap (parse_usize v); Ret (mkArgs (ar_gib a) n (ar_pool_gib a))
  else if decide (k = str "--pool-gib") then n ← unwrap (parse_usize v); Ret (mkArgs (ar_gib a) (ar_slots a) (Some n))
  else Panicked.

(** [while let Some(k) = it.next()]: a missing value is the empty string. *)
Fixpoint parse_loop (args : list bytes) (a : Args) : outcome Args :=
  match args with
  | [] => Ret a
  | [k] => parse_arg k [] a
  | k :: v :: args => a ← parse_arg k v a; parse_loop args a
  end.

Definition parse_args (args : list bytes) : outcome Args := parse_loop args default_args.

Section Sizes.
Context `{BuildProfile}.

(** Bytes per slot, of the shard, and of each pool. *)
Definition shard_sizes (a : Args) : outcome (usize * usize * usize) :=
  slot_bytes ← u64_mul (ar_gib a) GIB;
  total ← u64_mul slot_bytes (ar_slots a);
  pool ← match ar_pool_gib a with None => u64_mul 3 total | Some g => u64_mul g GIB end;
  Ret (slot_bytes, total, pool).

(** [0xA5A5_0000 | i as u32]. *)
Definition pattern (i : Z) : u32 := Z.lor 0xA5A50000 (i mod 2 ^ 32).
Definition patterns (slots : usize) : list u32 := pattern <$> seqZ 0 slots.

(** ** Buffers *)

Record GpuBuf : Type := mkGpuBuf {
  gb_gpu : u16;
  gb_ptr : u64;
  gb_len : usize;
  gb_region : MemoryRegion;
}.

(** [u32] in memory, lowest byte first, and back. *)
Definition to_bytes (w : u32) : bytes := [w mod 256; w / 2 ^ 8 mod 256; w / 2 ^ 16 mod 256; w / 2 ^ 24 mod 256].
Definition from_ne_bytes (a b c d : u8) : u32 := a + 2 ^ 8 * b + 2 ^ 16 * c + 2 ^ 24 * d.

(** [n] words of [w]. *)
Definition words_of (n : nat) (w : u32) : bytes := mjoin (replicate n (to_bytes w)).

Definition fill (cs : CudaSys) (gpus : list CudaGpu) (b : GpuBuf) (pat : u32) (h : heap) : outcome heap :=
  g ← unwrap (gpus_get gpus (gb_gpu b));
  _ ← expect (memset_d32_async cs (gb_ptr b) pat (gb_len b) (gpu_stream g));
  _ ← expect (sync cs (gpu_stream g));
  deref (store h (gb_ptr b) (words_of (Z.to_nat (gb_len b / 4)) pat)).

(** [host.chunks_exact(4).any(..)], negated. *)
Fixpoint all_words (bs : bytes) (pat : u32) : bool :=
  match bs with
  | a :: b :: c :: d :: bs => (from_ne_bytes a b c d =? pat) && all_words bs pat
  | _ => true
  end.

(** The loop over the sampled offsets, left at the first mismatch. *)
Fixpoint check_samples (cs : CudaSys) (g : CudaGpu) (b : GpuBuf) (host : u64) (sample : usize) (pat : u32) (h : heap)
    (offs : list usize) : outcome bool :=
  match offs with
  | [] => Ret true
  | off :: offs =>
      a ← u64_add (gb_ptr b) off;
      _ ← expect (d2h_async cs host a sample (gpu_stream g));
      _ ← expect (sync cs (gpu_stream g));
      got ← deref (load h a (Z.to_nat sample));
      if all_words got pat then check_samples cs g b host sample pat h offs else Ret false
  end.

Definition verify (cs : CudaSys) (gpus : list CudaGpu) (b : GpuBuf) (host : u64) (pat : u32) (h : heap) : outcome bool :=
  g ← unwrap (gpus_get gpus (gb_gpu b));
  let sample := Z.min (4 * 2 ^ 20) (gb_len b) in
  last ← u64_sub (gb_len b) sample;
  check_samples cs g b host sample pat h [0; gb_len b / 2 / 4 * 4; last].
End Sizes.

(** ** The shard in the store *)

Section Shard.
Context {W : Type} `{BuildProfile} (s : Store W).

Definition gpu_iov (b : GpuBuf) : list Iov := [iov_all (gb_region b)].

(** [GpuBuf::new]; [grow] is the allocation's effect on memory. *)
Definition gpubuf_new (cs : CudaSys) (grow : u64 → usize → W → W) (gpus : list CudaGpu) (gpu : u16) (len : usize) (w : W)
    : outcome (W * GpuBuf) :=
  g ← unwrap (gpus_get gpus gpu);
  ptr ← expect (device_alloc cs g len);
  '(w, r) ← store_register s ptr len (Gpu gpu) (grow ptr len w);
  region ← expect r;
  Ret (w, mkGpuBuf gpu ptr len region).

Definition shard_slots (slot_bytes : usize) (place : Placement) (bufs : list GpuBuf) : list PutSlot :=
  (λ b, mkPutSlot (mkSlotSpec slot_bytes place) (gpu_iov b)) <$> bufs.

(** [put_with(..).retention(Explicit)] awaited, both [expect]s passed. *)
Definition put_shard (key : bytes) (slot_bytes : usize) (place : Placement) (bufs : list GpuBuf) (w : W) : outcome W :=
  '(w, r) ← fp_await (fp_retention (put_with s key (shard_slots slot_bytes place bufs)) Explicit) w;
  rp ← expect r;
  _ ← expect (into_result rp);
  Ret w.

(** GPU 0 lends the copy it holds. *)
Fixpoint publish_shard (key : bytes) (i : Z) (bufs : list GpuBuf) (w : W) : outcome W :=
  match bufs with
  | [] => Ret w
  | b :: bufs =>
      '(w, r) ← store_publish s key (i mod 2 ^ 32) (gpu_iov b) w;
      _ ← expect r;
      publish_shard key (i + 1) bufs w
  end.

Definition drop_shard (key : bytes) (w : W) : outcome W :=
  '(w, r) ← store_remove s [key] w;
  _ ← expect r;
  Ret w.
End Shard.

(** ** Filling and sampling *)

Lemma to_bytes_from w : 0 <= w < 2 ^ 32 →
  from_ne_bytes (w mod 256) (w / 2 ^ 8 mod 256) (w / 2 ^ 16 mod 256) (w / 2 ^ 24 mod 256) = w.
Proof.
  intros Hw. unfold from_ne_bytes. pose proof (Z.div_mod w (2 ^ 8)). pose proof (Z.div_mod (w / 2 ^ 8) 256).
  pose proof (Z.div_mod (w / 2 ^ 16) 256). change (w mod 256) with (w mod 2 ^ 8). assert (w / 2 ^ 8 / 256 = w / 2 ^ 16) by (by rewrite Zdiv_Zdiv).
  assert (w / 2 ^ 16 / 256 = w / 2 ^ 24) by (by rewrite Zdiv_Zdiv).
  assert (0 <= w / 2 ^ 24 < 256) by (split; [apply Z.div_pos; lia|apply Z.div_lt_upper_bound; lia]).
  rewrite (Z.mod_small (w / 2 ^ 24)) by done. lia.
Qed.

Lemma words_of_length n w : length (words_of n w) = (4 * n)%nat.
Proof. unfold words_of. induction n as [|n IH]; [done|]. csimpl. rewrite IH. lia. Qed.

Lemma words_of_add n m w : words_of (n + m) w = words_of n w ++ words_of m w.
Proof. unfold words_of. by rewrite replicate_add, join_app. Qed.

(** A part of the words. *)
Lemma words_of_part k o m w : (o + m <= k)%nat → take (4 * m) (drop (4 * o) (words_of k w)) = words_of m w.
Proof.
  intros Hk. replace k with (o + (m + (k - o - m)))%nat by lia. rewrite !words_of_add.
  rewrite drop_app_length' by (by rewrite words_of_length). by rewrite take_app_length' by (by rewrite words_of_length).
Qed.

Lemma all_words_of n w pat : 0 <= w < 2 ^ 32 → (0 < n)%nat → all_words (words_of n w) pat = bool_decide (w = pat).
Proof.
  intros Hw Hn. assert (∀ n, all_words (words_of (S n) w) pat = (w =? pat) && all_words (words_of n w) pat) as Hs.
  { intros m. unfold words_of. cbn [replicate mjoin list_join to_bytes app all_words]. by rewrite to_bytes_from. }
  destruct n as [|n]; [lia|]. clear Hn. induction n as [|n IH].
  - rewrite Hs. change (all_words (words_of 0 w) pat) with true. rewrite andb_true_r. destruct (Z.eqb_spec w pat); by case_bool_decide.
  - rewrite Hs, IH. destruct (Z.eqb_spec w pat); by case_bool_decide.
Qed.

Lemma load_sub h a n bs off m :
  load h a n = Some bs → (off + m <= n)%nat → load h (a + Z.of_nat off) m = Some (take m (drop off bs)).
Proof.
  intros Hl Hm. assert (mapped h a (Z.of_nat n)) as Hmap by (apply mapped_load_iff; rewrite Nat2Z.id; by eexists).
  destruct (load_mapped h (a + Z.of_nat off) m) as [cs Hcs]; [eapply mapped_sub; [done|lia|lia]|]. rewrite Hcs. f_equal.
  pose proof (load_length _ _ _ _ Hcs). pose proof (load_length _ _ _ _ Hl). apply list_eq. intros i.
  destruct (decide (i < m)%nat) as [Hi|Hi].
  - rewrite (load_lookup _ _ _ _ _ Hcs), lookup_take_lt, lookup_drop, (load_lookup _ _ _ _ _ Hl) by lia. f_equal. lia.
  - rewrite !lookup_ge_None_2; [done| |lia]. rewrite length_take, length_drop. lia.
Qed.

(** A sample of a filled buffer. *)
Lemma sample_filled h p len w off m :
  load h p (4 * len) = Some (words_of len w) → (off + m <= len)%nat →
  load h (p + 4 * Z.of_nat off) (4 * m) = Some (words_of m w).
Proof.
  intros Hl Hm. replace (4 * Z.of_nat off) with (Z.of_nat (4 * off)) by lia. rewrite (load_sub _ _ _ _ _ _ Hl) by lia.
  by rewrite words_of_part.
Qed.

Section Filled.
Context `{BuildProfile}.

Lemma check_samples_filled cs g b host pat h w n m offs :
  driver_ok cs → 0 <= w < 2 ^ 32 → 0 <= gb_ptr b → gb_ptr b + 4 * Z.of_nat n <= U64_MAX → (0 < m)%nat → offs ≠ [] →
  load h (gb_ptr b) (4 * n) = Some (words_of n w) → Forall (λ off, ∃ k, off = 4 * Z.of_nat k ∧ (k + m <= n)%nat) offs →
  check_samples cs g b host (4 * Z.of_nat m) pat h offs = Ret (bool_decide (w = pat)).
Proof.
  intros [] Hw Hp Hmax Hm Hne Hl Hoffs. induction Hoffs as [|off offs (k & -> & Hk) _ IH]; [done|]. cbn [check_samples].
  rewrite u64_add_ok by (unfold is_u64; lia). cbn [mbind outcome_bind]. unfold d2h_async, sync, check.
  rewrite dv_d2h, Z.eqb_refl. cbn [expect mbind outcome_bind]. rewrite dv_sync. cbn [expect mbind outcome_bind].
  replace (Z.to_nat (4 * Z.of_nat m)) with (4 * m)%nat by lia. rewrite (sample_filled _ _ _ _ k m Hl Hk).
  cbn [deref mbind outcome_bind]. rewrite all_words_of by done. case_bool_decide as Hwp; [|done].
  destruct offs as [|off' offs]; [done|]. by apply IH.
Qed.

(** Sampling a buffer of at least 8 MiB of one word. *)
Lemma verify_filled cs gpus b g host p q h n :
  driver_ok cs → gpus_get gpus (gb_gpu b) = Some g → 8 * 2 ^ 20 <= gb_len b → gb_len b = 4 * Z.of_nat n →
  0 <= gb_ptr b → gb_ptr b + gb_len b <= U64_MAX → 0 <= p < 2 ^ 32 → load h (gb_ptr b) (4 * n) = Some (words_of n p) →
  verify cs gpus b host q h = Ret (bool_decide (p = q)).
Proof.
  intros Hdv Hg Hlen En Hp Hmax Hw Hl. unfold verify. rewrite Hg.
  cbn [unwrap mbind outcome_bind]. rewrite Z.min_l by lia. rewrite u64_sub_ok by (unfold is_u64; lia). cbn [mbind outcome_bind].
  change (4 * 2 ^ 20) with (4 * Z.of_nat (Z.to_nat (2 ^ 20))).
  apply (check_samples_filled cs g b host q h p n); [done|done|done|lia|lia|done|done|].
  constructor; [exists 0%nat; lia|]. constructor; [exists (Z.to_nat (gb_len b / 2 / 4)); split|constructor; [|constructor]].
  - rewrite Z2Nat.id; [lia|]. apply Z.div_pos; [|lia]. apply Z.div_pos; lia.
  - pose proof (Z.mul_div_le (gb_len b) 2). pose proof (Z.mul_div_le (gb_len b / 2) 4). lia.
  - exists (n - Z.to_nat (2 ^ 20))%nat. lia.
Qed.

(** Sampling a filled buffer gives the right verdict: for every buffer of whole
    words of at least 8 MiB, filling it with one pattern and sampling its start,
    middle and end against another returns whether the two are equal, without a
    read outside the buffer. *)
Theorem verify_fill cs gpus b g host p q h :
  driver_ok cs → gpus_get gpus (gb_gpu b) = Some g → 8 * 2 ^ 20 <= gb_len b → gb_len b mod 4 = 0 →
  0 <= gb_ptr b → gb_ptr b + gb_len b <= U64_MAX → mapped h (gb_ptr b) (gb_len b) → 0 <= p < 2 ^ 32 →
  ∃ h', fill cs gpus b p h = Ret h' ∧ verify cs gpus b host q h' = Ret (bool_decide (p = q)).
Proof.
  intros Hdv Hg Hlen Hmod Hp Hmax Hm Hw. pose proof (Z.div_mod (gb_len b) 4 ltac:(lia)) as Hdm. set (n := Z.to_nat (gb_len b / 4)).
  assert (gb_len b = 4 * Z.of_nat n) as En by lia.
  destruct (store_mapped h (gb_ptr b) (words_of n p)) as [h' Hst]; [rewrite words_of_length; eapply mapped_sub; [done|lia|lia]|].
  exists h'. split.
  - unfold fill, memset_d32_async, sync, check. rewrite Hg. cbn [unwrap mbind outcome_bind]. destruct Hdv.
    rewrite dv_memset, Z.eqb_refl, dv_sync. cbn [expect mbind outcome_bind]. fold n. by rewrite Hst.
  - pose proof (load_store_eq _ _ _ _ Hst) as Hl. rewrite words_of_length in Hl.
    by eapply (verify_filled cs gpus b g host p q h' n).
Qed.
End Filled.

(** Slots of a shard have different patterns, so a slot fetched into the wrong
    buffer is noticed. *)
Lemma pattern_inj i j : 0 <= i < 2 ^ 16 → 0 <= j < 2 ^ 16 → pattern i = pattern j → i = j.
Proof.
  intros Hi Hj He. unfold pattern in He. rewrite !Z.mod_small in He by lia.
  assert (∀ k, 0 <= k < 2 ^ 16 → Z.land (Z.lor 0xA5A50000 k) (Z.ones 16) = k) as Hk.
  { intros k Hk. rewrite Z.land_lor_distr_l. change (Z.land 0xA5A50000 (Z.ones 16)) with 0.
    rewrite Z.lor_0_l, Z.land_ones by lia. by apply Z.mod_small. }
  rewrite <- (Hk i Hi), <- (Hk j Hj). by rewrite He.
Qed.

(** ** A shard put is a shard served *)

Lemma into_result_Ok rp i : into_result rp = Ok tt → (i < length rp)%nat → rp !! i = Some (Ok tt).
Proof.
  revert i. induction rp as [|[[]|e] rp IH]; intros i Hr Hi; simpl in *; [lia| |done].
  destruct i as [|i]; [done|]. apply IH; [done|lia].
Qed.

Section Served.
Context `{BuildProfile} {W : Type} (sv : Servicer W) `{!Lawful sv}.
Let s : Store W := from_servicer sv.

(** The request [put_shard] makes. *)
Definition shard_op (slot_bytes : usize) (place : Placement) (bufs : list GpuBuf) : OpPut :=
  mkOpPut Explicit (shard_slots slot_bytes place bufs).

Lemma put_shard_inv key slot_bytes place bufs w w' :
  law_inv w → law_safe_put w key (shard_op slot_bytes place bufs) → put_shard s key slot_bytes place bufs w = Ret w' →
  ∃ rs, put_options s key (shard_op slot_bytes place bufs) w = Ret (w', Ok rs) ∧
    ∀ j, (j < length bufs)%nat → rs !! j = Some (Ok tt).
Proof.
  intros Hinv Hsafe Hput. unfold put_shard in Hput. inv_bind. destruct a as [w1 r]. unfold fp_await, fp_retention, put_with in *.
  cbn [fp_store fp_key fp_op op_slots OpPut_new] in *. destruct r as [rs|e]; [|done]. cbn [expect mbind outcome_bind] in Hput.
  destruct (into_result rs) as [[]|e] eqn:Hir; [|done]. simpl in Hput. injection Hput as <-. exists rs. split; [done|].
  intros j Hj. apply into_result_Ok; [done|].
  destruct (law_put w key (shard_op slot_bytes place bufs) Hinv Hsafe) as (w2 & res & Hd & _ & _ & Hlen).
  assert (length rs = length (shard_slots slot_bytes place bufs)) as ->; [|by unfold shard_slots; rewrite length_fmap].
  apply Hlen. unfold put_options in *. destruct (tag "put" _); [|done]. simpl in *. fold (shard_op slot_bytes place bufs) in *.
  rewrite Hd in *. unfold awaited, tag, map_err in *. cbn [mbind outcome_bind] in *. destruct res; congruence.
Qed.

(** A shard that was put is served in full: over any lawful backend, when the put
    of a shard of GPU buffers returns past both [expect]s, a get of any slot into
    any valid destination of the slot's length delivers the bytes the buffer of
    that slot held. *)
Theorem shard_served key slot_bytes place bufs w w' i b dst d :
  law_inv w → law_safe_put w key (shard_op slot_bytes place bufs) → put_shard s key slot_bytes place bufs w = Ret w' →
  bufs !! i = Some b → 0 <= slot_bytes <= U64_MAX → law_safe_get w' (OpGet_new (Z.of_nat i) dst) →
  Forall (iov_valid (law_heap w)) dst → non_overlapping dst → OpGet_validate (OpGet_new (Z.of_nat i) dst) = Ok (d, slot_bytes) →
  limit_ok (max_iov (ai_capability (info_dyn sv))) (Z.of_nat (length dst)) →
  ∃ w2 rp, store_get s key (Z.of_nat i) dst w' = Ret (w2, Ok rp) ∧
    contents (law_heap w2) dst = take (Z.to_nat slot_bytes) (contents (law_heap w) (gpu_iov b)).
Proof.
  intros Hinv Hsafe Hput Hi Hsb Hsg Hdst Hno Hval Hlim.
  destruct (put_shard_inv _ _ _ _ _ _ Hinv Hsafe Hput) as (rs & Hpo & Hrs).
  destruct (put_get_lawful sv w key (shard_op slot_bytes place bufs) w' rs i (mkPutSlot (mkSlotSpec slot_bytes place) (gpu_iov b))
    (OpGet_new (Z.of_nat i) dst) d slot_bytes) as (w2 & rp & Hg & Hc); try done.
  - apply Hrs, (lookup_lt_Some _ _ _ Hi).
  - simpl. unfold shard_slots. by rewrite list_lookup_fmap, Hi.
  - simpl. lia.
  - exists w2, rp. split; [done|]. exact Hc.
Qed.
End Served.

(** ** Two slots of four bytes on the reference backend, a replica per socket *)

#[local] Existing Instance fx_profile.

Definition wf_buf (id : u64) (off : Z) : GpuBuf := mkGpuBuf 0 (1000 + off) 4 (with_id id (1000 + off) 4 (Gpu 0)).
Definition wf_bufs : list GpuBuf := [wf_buf 3 0; wf_buf 4 4].
Definition wf_place : Placement := Each [Cpu 0; Cpu 1].

Lemma shard_served_witness :
  ∃ w' w2 rp, put_shard fx_store [7] 4 wf_place wf_bufs fx_world = Ret w' ∧
    store_get fx_store [7] 1 [iov fx_region 8 4] w' = Ret (w2, Ok rp) ∧ contents (w_heap w2) [iov fx_region 8 4] = [4; 5; 6; 7].
Proof.
  assert (∃ w', put_shard fx_store [7] 4 wf_place wf_bufs fx_world = Ret w') as [w' Hput].
  { eexists. vm_compute. reflexivity. }
  destruct (shard_served (memory_servicer fx_inner) [7] 4 wf_place wf_bufs fx_world w' 1 (wf_buf 4 4) [iov fx_region 8 4] (Cpu 0))
    as (w2 & rp & Hg & Hc); [apply wf_build| |exact Hput|done|done|done| |repeat constructor|by vm_compute|done|].
  - apply put_pre_build; [apply (bool_decide_unpack _); by vm_compute|done|by vm_compute].
  - apply (bool_decide_unpack _). by vm_compute.
  - exists w', w2, rp. split; [exact Hput|]. split; [exact Hg|]. etransitivity; [exact Hc|]. by vm_compute.
Defined.

(** An 8 MiB buffer filled with one slot's pattern and sampled for another's. *)
Lemma verify_fill_witness :
  ∃ h', fill (gm_cuda 0) [mkCudaGpu 0 100 200 []] (mkGpuBuf 0 4096 (8 * 2 ^ 20) fx_region) (pattern 0) (map_range ∅ 4096 (8 * 2 ^ 20) 0) = Ret h' ∧
    verify (gm_cuda 0) [mkCudaGpu 0 100 200 []] (mkGpuBuf 0 4096 (8 * 2 ^ 20) fx_region) 0 (pattern 1) h' = Ret false.
Proof.
  apply (verify_fill (gm_cuda 0) [mkCudaGpu 0 100 200 []] (mkGpuBuf 0 4096 (8 * 2 ^ 20) fx_region) (mkCudaGpu 0 100 200 []) 0 (pattern 0) (pattern 1)).
  - by constructor.
  - done.
  - simpl. lia.
  - reflexivity.
  - simpl. lia.
  - simpl. unfold U64_MAX. lia.
  - apply map_range_mapped.
  - by vm_compute.
Defined.

Example parse_args_example :
  parse_args [str "--slots"; str "8"; str "--pool-gib"; str "20"; str "--slots"; str "2"] = Ret (mkArgs 1 2 (Some 20)) ∧
  parse_args [str "--gib"] = Panicked ∧ parse_args [str "--help"] = Panicked ∧
  shard_sizes (mkArgs 1 2 None) = Ret (GIB, 2 * GIB, 6 * GIB).
Proof. vm_compute. done. Qed.
