(* ===== verification/FanOut.v ===== *)
(** * The fan-out of the weights example: [fan_out], [report]

    One thread per GPU allocates its buffers, fetches every slot and samples
    what arrived.  The threads interleave at the calls they make to the driver
    and the store: a run is a schedule, a list of the threads that make the next
    call.  [ShardHost] states what the threads rely on; with it every schedule
    that runs each thread often enough ends with all GPUs served. *)

From S2P Require Import Prelude HostMem Types Region Memory MemoryCopy Store Text Display Topology Cuda BenchBlocks CpuBench GpuBenchRun Floats WeightsFanout.

(** ** Results and reports *)

Definition gbs (bytes : usize) (d : Duration) : f64 :=
  f64_div (f64_div (f64_of bytes) (as_secs_f64 d)) (f64_decimal false 1 9).

Record GetResult : Type := mkGetResult {
  gr_gpu : u16;
  gr_elapsed : Duration;
  gr_from : list (Device * Tier);
  gr_ok : bool;
}.

Definition tier_debug (t : Tier) : bytes :=
  match t with Dram => str "Dram" | Ssd => str "Ssd" | External => str "External" end.

(** [{:<n}] and [{:>n}]. *)
Definition pad_left (n : nat) (s : bytes) : bytes := s ++ replicate (n - length s) 32.
Definition pad_right (n : nat) (s : bytes) : bytes := replicate (n - length s) 32 ++ s.

(** [Vec::dedup]: of equal neighbours the first stays. *)
Fixpoint dedup_after (x : bytes) (l : list bytes) : list bytes :=
  match l with
  | [] => []
  | y :: l => if decide (y = x) then dedup_after x l else y :: dedup_after y l
  end.

Definition dedup (l : list bytes) : list bytes := match l with [] => [] | x :: l => x :: dedup_after x l end.

(** [Ord for Duration], and [iter().max()]. *)
Definition duration_leb (a b : Duration) : bool :=
  (dur_secs a <? dur_secs b) || ((dur_secs a =? dur_secs b) && (dur_nanos a <=? dur_nanos b)).

Definition max_duration (l : list Duration) : option Duration :=
  match l with [] => None | d :: l => Some (foldl (λ a b, if duration_leb a b then b else a) d l) end.

Definition millis (d : Duration) : f64 := f64_mul (as_secs_f64 d) (f64_decimal false 1 3).

Section Report.
Context `{BuildProfile}.

Definition report_line (topo : Topology) (total_bytes : usize) (r : GetResult) : bytes :=
  let numa := match numa_of_gpu topo (gr_gpu r) with Some n => display n | None => str "?" end in
  let from := dedup ((λ '(d, t), device_display d ++ str "/" ++ tier_debug t) <$> gr_from r) in
  str "  " ++ pad_left 6 (display (gr_gpu r)) ++ str " " ++ pad_left 6 numa ++ str " "
    ++ pad_right 10 (format_fixed 1 (gbs total_bytes (gr_elapsed r))) ++ str " "
    ++ pad_right 9 (format_fixed 1 (millis (gr_elapsed r))) ++ str "  " ++ join_with (str ",") from
    ++ (if gr_ok r then [] else str "  ✗ DATA MISMATCH").

Definition report (title : bytes) (rs : list GetResult) (total_bytes : usize) (topo : Topology) : outcome (list bytes) :=
  slowest ← unwrap (max_duration (gr_elapsed <$> rs));
  sum ← u64_mul total_bytes (Z.of_nat (length rs));
  Ret ([ []; title;
         str "  " ++ pad_left 6 (str "gpu") ++ str " " ++ pad_left 6 (str "numa") ++ str " " ++ pad_right 10 (str "GB/s") ++ str " "
           ++ pad_right 9 (str "ms") ++ str "  served from" ]
       ++ (report_line topo total_bytes <$> rs)
       ++ [ str "  aggregate: " ++ format_fixed 1 (gbs sum slowest) ++ str " GB/s (" ++ display (Z.of_nat (length rs)) ++ str " GPUs × "
              ++ format_fixed 1 (f64_div (f64_of total_bytes) (f64_of GIB)) ++ str " GiB in " ++ format_fixed 1 (millis slowest)
              ++ str " ms)" ]).
End Report.

(** ** [fan_out] *)

(** The key [results] are sorted by. *)
Definition result_le (a b : GetResult) : Prop := gr_gpu a <= gr_gpu b.

#[global] Instance result_le_dec a b : Decision (result_le a b).
Proof. unfold result_le. apply _. Defined.

(** A thread: its buffers so far, where each slot came from, the requests still
    outstanding in the order in which they complete, and its result. *)
Record Thread : Type := mkThread {
  th_gpu : u16;
  th_pinned : option bool;
  th_bufs : list GpuBuf;
  th_from : list (option (Device * Tier));
  th_left : list nat;
  th_result : option GetResult;
}.

Section FanOut.
Context {W : Type} `{BuildProfile} (s : Store W).
(** The driver in a state of the world, memory after an allocation and before a
    read, and the drop of a region. *)
Context (cs : W → CudaSys) (grow : u64 → usize → W → W) (mem : W → heap) (drop_region : u64 → W → outcome W).
Context (gpus : list CudaGpu) (topo : Topology) (setaffinity : list usize → bool) (host : u64).
(** The arguments of one fan-out, the completion order and the time of each thread. *)
Context (key : bytes) (slots : nat) (slot_bytes : usize) (pats : list u32) (order : u16 → list nat) (elapsed : u16 → Duration).

Definition spawn (gpu : u16) : Thread :=
  mkThread gpu (pin_to_numa setaffinity topo <$> numa_of_gpu topo gpu) [] (replicate slots None) (order gpu) None.

(** [bufs.iter().zip(patterns).all(..)]. *)
Fixpoint verify_all (sys : CudaSys) (bufs : list GpuBuf) (pats : list u32) (h : heap) : outcome bool :=
  match bufs, pats with
  | b :: bufs, p :: pats => ok ← verify sys gpus b host p h; if (ok : bool) then verify_all sys bufs pats h else Ret false
  | _, _ => Ret true
  end.

(** The next call of a thread: a buffer, a request that completes, or the check.  A
    request is one step here, although [Local::get] copies outside its lock; that
    a get of pinned bytes delivers what it looked up, whatever runs in between, is
    shown in [LocalTheorems]. *)
Definition thread_step (t : Thread) (w : W) : outcome (W * Thread) :=
  match th_result t with
  | Some _ => Ret (w, t)
  | None =>
      if (length (th_bufs t) <? slots)%nat then
        '(w, b) ← gpubuf_new s (cs w) grow gpus (th_gpu t) slot_bytes w;
        Ret (w, mkThread (th_gpu t) (th_pinned t) (th_bufs t ++ [b]) (th_from t) (th_left t) None)
      else
        match th_left t with
        | i :: rest =>
            b ← unwrap (th_bufs t !! i);
            '(w, r) ← get_options s key (OpGet_new (Z.of_nat i mod 2 ^ 32) (gpu_iov b)) w;
            rp ← expect r;
            _ ← unwrap (th_from t !! i);
            Ret (w, mkThread (th_gpu t) (th_pinned t) (th_bufs t)
                      (<[i := Some (loc_device (rp_from rp), loc_tier (rp_from rp))]> (th_from t)) rest None)
        | [] =>
            ok ← verify_all (cs w) (th_bufs t) pats (mem w);
            from ← unwrap (mapM id (th_from t));
            Ret (w, mkThread (th_gpu t) (th_pinned t) (th_bufs t) (th_from t) []
                      (Some (mkGetResult (th_gpu t) (elapsed (th_gpu t)) from ok)))
        end
  end.

Fixpoint run_threads (sched : list nat) (ts : list Thread) (w : W) : outcome (W * list Thread) :=
  match sched with
  | [] => Ret (w, ts)
  | i :: sched =>
      match ts !! i with
      | None => run_threads sched ts w
      | Some t => '(w, t) ← thread_step t w; run_threads sched (<[i := t]> ts) w
      end
  end.

(** Buffers that are not kept lose their regions when their thread is joined. *)
Definition drop_bufs (bufs : list GpuBuf) (w : W) : outcome W := mfoldl (λ w b, drop_region (region_id (gb_region b)) w) w bufs.

(** [None] while a thread is still running. *)
Definition fan_out (sched : list nat) (gpu_ids : list u16) (keep : bool) (w : W)
    : outcome (option (W * (list GetResult * list (list GpuBuf)))) :=
  '(w, ts) ← run_threads sched (spawn <$> gpu_ids) w;
  match mapM th_result ts with
  | None => Ret None
  | Some results =>
      w ← (if keep then Ret w else mfoldl (λ w t, drop_bufs (th_bufs t) w) w ts);
      Ret (Some (w, (merge_sort result_le results, if keep then th_bufs <$> ts else [])))
  end.
End FanOut.

(** ** What the threads rely on *)

Definition buf_range (b : GpuBuf) (x : Z) : Prop := gb_ptr b <= x < gb_ptr b + gb_len b.
Definition same_outside (b : GpuBuf) (h h' : heap) : Prop := ∀ x, ¬ buf_range b x → h' !! x = h !! x.

(** A store that holds the slots of a shard while [n] more buffers can be
    allocated: buffers come with memory nobody uses, a get of slot [i] into a
    usable buffer delivers [content i] and writes nothing else, and a region can
    be dropped. *)
Class ShardHost {W : Type} `{BuildProfile} (s : Store W) (cs : W → CudaSys) (grow : u64 → usize → W → W) (mem : W → heap)
    (drop_region : u64 → W → outcome W) (gpus : list CudaGpu) (gpu_ids : list u16) (key : bytes) (slots : nat) (slot_bytes : usize)
    (content : nat → bytes) : Type := {
  sh_inv : nat → W → Prop;
  sh_usable : W → GpuBuf → Prop;
  sh_driver n w : sh_inv n w → driver_ok (cs w);
  sh_buffer w b : sh_usable w b → gb_gpu b ∈ gpu_ids ∧ gb_len b = slot_bytes ∧ 0 <= gb_ptr b ∧ gb_ptr b + gb_len b <= U64_MAX ∧
    mapped (mem w) (gb_ptr b) (gb_len b);
  sh_new n w gpu : sh_inv (S n) w → gpu ∈ gpu_ids →
    ∃ w' b, gpubuf_new s (cs w) grow gpus gpu slot_bytes w = Ret (w', b) ∧ sh_inv n w' ∧ sh_usable w' b ∧
      (∀ x, buf_range b x → mem w !! x = None) ∧ same_outside b (mem w) (mem w') ∧ ∀ c, sh_usable w c → sh_usable w' c;
  sh_get n w i b : sh_inv n w → (i < slots)%nat → sh_usable w b →
    ∃ w' rp, get_options s key (OpGet_new (Z.of_nat i mod 2 ^ 32) (gpu_iov b)) w = Ret (w', Ok rp) ∧ sh_inv n w' ∧
      load (mem w') (gb_ptr b) (Z.to_nat slot_bytes) = Some (content i) ∧ same_outside b (mem w) (mem w') ∧
      ∀ c, sh_usable w c → sh_usable w' c;
  sh_drop n w id : sh_inv n w → ∃ w', drop_region id w = Ret w' ∧ sh_inv n w' ∧ mem w' = mem w;
}.

Section Threads.
Context {W : Type} `{BuildProfile} (s : Store W) (cs : W → CudaSys) (grow : u64 → usize → W → W) (mem : W → heap).
Context (drop_region : u64 → W → outcome W) (gpus : list CudaGpu) (topo : Topology) (setaffinity : list usize → bool) (host : u64).
Context (gpu_ids : list u16) (key : bytes) (slots : nat) (slot_bytes : usize) (pats : list u32) (content : nat → bytes).
Context (order : u16 → list nat) (elapsed : u16 → Duration) (spare : nat).
Context `{!ShardHost s cs grow mem drop_region gpus gpu_ids key slots slot_bytes content}.

Abbreviation step := (thread_step s cs grow mem gpus host key slots slot_bytes pats elapsed).

(** Slots of whole words, sampled in full, each with its pattern. *)
Record shard_ok : Prop := mkShardOk {
  so_len : 8 * 2 ^ 20 <= slot_bytes;
  so_words : slot_bytes mod 4 = 0;
  so_content i p : pats !! i = Some p → content i = words_of (Z.to_nat (slot_bytes / 4)) p;
  so_pats : length pats = slots ∧ Forall (λ p, 0 <= p < 2 ^ 32) pats;
  so_order g : g ∈ gpu_ids → order g ≡ₚ seq 0 slots;
  so_gpus g : g ∈ gpu_ids → is_Some (gpus_get gpus g);
}.

(** A thread on its way: every slot is outstanding or in its buffer. *)
Record thread_ok (h : heap) (t : Thread) : Prop := mkThreadOk {
  tk_gpu : th_gpu t ∈ gpu_ids;
  tk_len : (length (th_bufs t) <= slots)%nat;
  tk_from : length (th_from t) = slots;
  tk_left : Forall (λ i, (i < slots)%nat) (th_left t);
  tk_slots j : (j < slots)%nat → j ∈ th_left t ∨ ∃ x b, th_from t !! j = Some (Some x) ∧ th_bufs t !! j = Some b ∧
    load h (gb_ptr b) (Z.to_nat slot_bytes) = Some (content j);
  tk_result r : th_result t = Some r → length (th_bufs t) = slots ∧ th_left t = [] ∧ gr_gpu r = th_gpu t ∧ gr_ok r = true ∧
    gr_elapsed r = elapsed (th_gpu t) ∧ length (gr_from r) = slots;
}.

Definition missing (t : Thread) : nat := slots - length (th_bufs t).
Definition todo (t : Thread) : nat := missing t + length (th_left t) + match th_result t with None => 1 | Some _ => 0 end.

(** All threads: their buffers are apart, and there is room for the missing ones. *)
Record threads_ok (w : W) (ts : list Thread) : Prop := mkThreadsOk {
  ts_inv : sh_inv (sum_list (missing <$> ts) + spare) w;
  ts_each : Forall (thread_ok (mem w)) ts;
  ts_usable i t b : ts !! i = Some t → b ∈ th_bufs t → sh_usable w b;
  ts_apart i j k l t u b c x : ts !! i = Some t → th_bufs t !! j = Some b → ts !! k = Some u → th_bufs u !! l = Some c →
    (i, j) ≠ (k, l) → buf_range b x → ¬ buf_range c x;
}.

Lemma thread_ok_frame h h' t :
  thread_ok h t → (∀ b x, b ∈ th_bufs t → gb_ptr b <= x < gb_ptr b + slot_bytes → h' !! x = h !! x) → thread_ok h' t.
Proof.
  intros [H1 H2 H3 H4 H5 H6] Hf. constructor; try done. intros j Hj. destruct (H5 j Hj) as [?|(x & b & Hx & Hb & Hl)]; [by left|right].
  exists x, b. split_and!; try done. rewrite <- Hl. apply load_ext. intros i Hi. apply (Hf b); [by eapply list_elem_of_lookup_2|lia].
Qed.

Lemma sum_missing ts i t t' : ts !! i = Some t →
  (sum_list (missing <$> <[i := t']> ts) + missing t = sum_list (missing <$> ts) + missing t')%nat.
Proof.
  intros Hi. rewrite list_fmap_insert. assert ((missing <$> ts) !! i = Some (missing t)) as Hm by (by rewrite list_lookup_fmap, Hi).
  revert i Hi Hm. generalize (missing <$> ts) as l. intros l i _. revert i. induction l as [|y l IH]; intros [|i] Hm; simplify_eq/=; [lia|].
  specialize (IH i Hm). lia.
Qed.

(** A call that writes one buffer leaves what the other threads have. *)
Lemma others_frame w w' ts i t' b :
  threads_ok w ts → same_outside b (mem w) (mem w') → (∀ k u c x, k ≠ i → ts !! k = Some u → c ∈ th_bufs u → buf_range b x → ¬ buf_range c x) →
  thread_ok (mem w') t' → Forall (thread_ok (mem w')) (<[i := t']> ts).
Proof.
  intros [_ He Hu _] Hsame Hap Ht'. apply Forall_lookup. intros k u Hk. rewrite Forall_lookup in He.
  destruct (decide (k = i)) as [->|Hne].
  - destruct (decide (i < length ts)%nat); [rewrite list_lookup_insert_eq in Hk by done; by simplify_eq|].
    rewrite list_insert_ge in Hk by lia. apply lookup_lt_Some in Hk. lia.
  - rewrite list_lookup_insert_ne in Hk by done. eapply thread_ok_frame; [by eapply He|]. intros c x Hc Hx. apply Hsame. intros Hb.
    apply (Hap k u c x); try done. destruct (sh_buffer w c (Hu _ _ _ Hk Hc)) as (_ & Hl & _). unfold buf_range. by rewrite Hl.
Qed.

(** The buffers are those of before, and the memory they have too. *)
Lemma same_bufs w w' ts i t t' :
  threads_ok w ts → ts !! i = Some t → th_bufs t' = th_bufs t → (∀ c, sh_usable w c → sh_usable w' c) →
  sh_inv (sum_list (missing <$> ts) + spare) w' → Forall (thread_ok (mem w')) (<[i := t']> ts) → threads_ok w' (<[i := t']> ts).
Proof.
  intros [_ _ Hu Hap] Hi Eb Husab Hinv Hall. assert (missing t' = missing t) as Em by (unfold missing; by rewrite Eb).
  assert (∀ k u, <[i := t']> ts !! k = Some u → ∃ u0, ts !! k = Some u0 ∧ th_bufs u = th_bufs u0) as Hold.
  { intros k u Hk. apply list_lookup_insert_Some in Hk as [(-> & <- & _)|[_ Hk]]; [by exists t|by exists u]. }
  constructor; [|done|..].
  - pose proof (sum_missing ts i t t' Hi). assert (sum_list (missing <$> <[i:=t']> ts) = sum_list (missing <$> ts)) as -> by lia. done.
  - intros k u b (u0 & Hk & ->)%Hold Hb. apply Husab. by eapply Hu.
  - intros k j k2 l u v b c x (u0 & Hk & ->)%Hold Hb (v0 & Hk2 & ->)%Hold. by eapply Hap.
Qed.

(** A thread that lacks a buffer has room for it. *)
Lemma room_left ts i t : ts !! i = Some t → (length (th_bufs t) < slots)%nat → ∃ m, sum_list (missing <$> ts) = S m.
Proof.
  intros Hi Hlt. assert (missing t ∈ (missing <$> ts)) as Hin by (apply list_elem_of_fmap_2; by eapply list_elem_of_lookup_2).
  assert (missing t <= sum_list (missing <$> ts))%nat as Hle.
  { revert Hin. generalize (missing <$> ts). clear. induction l as [|y l IH]; [by intros ?%elem_of_nil|].
    intros [->|Hin]%elem_of_cons; simpl; [lia|]. specialize (IH Hin). lia. }
  unfold missing in Hle at 1. destruct (sum_list (missing <$> ts)) as [|m]; [lia|eauto].
Qed.

(** The thread allocates its next buffer. *)
Lemma step_new w ts i t :
  threads_ok w ts → ts !! i = Some t → th_result t = None → (length (th_bufs t) < slots)%nat →
  ∃ w' t', step t w = Ret (w', t') ∧ threads_ok w' (<[i := t']> ts) ∧ S (todo t') = todo t ∧ th_gpu t' = th_gpu t.
Proof.
  intros Hok Hi Hr Hlt. pose proof Hok as [Hinv He Hu Hap]. rewrite Forall_lookup in He. pose proof (He _ _ Hi) as Ht.
  destruct (room_left ts i t Hi Hlt) as [m Hm].
  rewrite Hm in Hinv. destruct (sh_new (m + spare) w (th_gpu t) Hinv (tk_gpu _ _ Ht)) as (w' & b & Hnew & Hinv' & Hb & Hfresh & Hsame & Husab).
  set (t' := mkThread (th_gpu t) (th_pinned t) (th_bufs t ++ [b]) (th_from t) (th_left t) None).
  assert (∀ k u c x, ts !! k = Some u → c ∈ th_bufs u → buf_range b x → ¬ buf_range c x) as Hapart.
  { intros k u c x Hk Hc Hx Hx'. destruct (sh_buffer w c (Hu _ _ _ Hk Hc)) as (_ & _ & _ & _ & Hmap). destruct (Hmap x Hx') as [y Hy].
    by rewrite (Hfresh x Hx) in Hy. }
  exists w', t'. assert (length (th_bufs t') = S (length (th_bufs t))) as El by (simpl; rewrite length_app; simpl; lia).
  split; [unfold thread_step; rewrite Hr; destruct (Nat.ltb_spec (length (th_bufs t)) slots); [|lia]; by rewrite Hnew|].
  split; [|split; [unfold todo, missing; rewrite El, Hr; simpl; lia|done]].
  constructor.
  - pose proof (sum_missing ts i t t' Hi) as Hs. replace (sum_list (missing <$> <[i:=t']> ts)) with m; [done|].
    unfold missing in Hs at 2 4. rewrite El in Hs. lia.
  - eapply others_frame; [done|exact Hsame|intros; by eapply Hapart|]. destruct Ht as [H1 H2 H3 H4 H5 H6]. constructor; try done; [lia|].
    intros j Hj. destruct (H5 j Hj) as [?|(x & c & Hx & Hc & Hl)]; [by left|right]. exists x, c. split; [done|].
    split; [by apply lookup_app_l_Some|]. rewrite <- Hl. apply load_ext. intros y Hy. apply Hsame. intros Hby.
    apply (Hapart i t c y Hi); [by eapply list_elem_of_lookup_2|done|].
    destruct (sh_buffer w c) as (_ & Hcl & _); [eapply Hu; [done|by eapply list_elem_of_lookup_2]|]. unfold buf_range. rewrite Hcl. lia.
  - intros k u c Hk Hc. apply list_lookup_insert_Some in Hk as [(-> & <- & _)|[_ Hk]]; [|by eapply Husab, Hu].
    simpl in Hc. apply elem_of_app in Hc as [Hc|Hc%list_elem_of_singleton]; [by eapply Husab, Hu|by subst].
  - assert (∀ k u j c, <[i:=t']> ts !! k = Some u → th_bufs u !! j = Some c →
      (k = i ∧ j = length (th_bufs t) ∧ c = b) ∨ ∃ u0, ts !! k = Some u0 ∧ th_bufs u0 !! j = Some c) as Hcase.
    { intros k u j c Hk Hc. apply list_lookup_insert_Some in Hk as [(-> & <- & _)|[_ Hk]]; [|right; eauto]. simpl in Hc.
      apply lookup_app_Some in Hc as [Hc|[Hj Hc]]; [right; eauto|left]. apply list_lookup_singleton_Some in Hc as [Hc ->]. split_and!; try done. lia. }
    intros k j k2 l u v c d x Hk Hc Hk2 Hd Hne Hx Hx'.
    destruct (Hcase _ _ _ _ Hk Hc) as [(-> & -> & ->)|(u0 & Hu0 & Hc0)], (Hcase _ _ _ _ Hk2 Hd) as [(-> & -> & ->)|(v0 & Hv0 & Hd0)].
    + done.
    + eapply (Hapart _ _ d x Hv0); [by eapply list_elem_of_lookup_2|done|done].
    + eapply (Hapart _ _ c x Hu0); [by eapply list_elem_of_lookup_2|done|done].
    + by eapply (Hap k j k2 l u0 v0 c d x).
Qed.

(** A request of the thread completes. *)
Lemma step_get w ts i t j rest :
  threads_ok w ts → ts !! i = Some t → th_result t = None → (slots <= length (th_bufs t))%nat → th_left t = j :: rest →
  ∃ w' t', step t w = Ret (w', t') ∧ threads_ok w' (<[i := t']> ts) ∧ S (todo t') = todo t ∧ th_gpu t' = th_gpu t.
Proof.
  intros Hok Hi Hr Hge Hleft. pose proof Hok as [Hinv He Hu Hap]. rewrite Forall_lookup in He. pose proof (He _ _ Hi) as Ht.
  assert (j < slots)%nat as Hj by (pose proof (tk_left _ _ Ht) as Hl; rewrite Hleft in Hl; by apply Forall_cons in Hl as [? _]).
  destruct (lookup_lt_is_Some_2 (th_bufs t) j) as [b Hb]; [lia|]. destruct (lookup_lt_is_Some_2 (th_from t) j) as [f Hf]; [rewrite (tk_from _ _ Ht); lia|].
  assert (sh_usable w b) as Hub by (eapply Hu; [done|by eapply list_elem_of_lookup_2]).
  destruct (sh_get _ w j b Hinv Hj Hub) as (w' & rp & Hget & Hinv' & Hload & Hsame & Husab).
  set (x := (loc_device (rp_from rp), loc_tier (rp_from rp))).
  set (t' := mkThread (th_gpu t) (th_pinned t) (th_bufs t) (<[j := Some x]> (th_from t)) rest None). exists w', t'. split.
  { unfold thread_step. rewrite Hr, Hleft, Hb. destruct (Nat.ltb_spec (length (th_bufs t)) slots); [lia|]. cbn [unwrap mbind outcome_bind].
    rewrite Hget. cbn [mbind outcome_bind expect]. rewrite Hf. done. }
  split; [|split; [unfold todo, missing; rewrite Hleft, Hr; simpl; lia|done]].
  eapply same_bufs; [done|done|done|exact Husab|done|]. eapply others_frame; [done|exact Hsame| |].
  - intros k u c y Hne Hk (l & Hc)%list_elem_of_lookup_1 Hy. apply (Hap i j k l t u b c y); try done. congruence.
  - destruct Ht as [H1 H2 H3 H4 H5 H6]. rewrite Hleft in H4, H5. apply Forall_cons in H4 as [_ H4].
    constructor; try done; [simpl; by rewrite length_insert|]. intros k Hk. destruct (decide (k = j)) as [->|Hne].
    + right. exists x, b. split; [simpl; by rewrite list_lookup_insert_eq by lia|done].
    + destruct (H5 k Hk) as [[->|?]%elem_of_cons|(y & c & Hy & Hc & Hl)]; [done|by left|right]. exists y, c.
      split; [simpl; by rewrite list_lookup_insert_ne|]. split; [done|]. rewrite <- Hl. apply load_ext. intros z Hz. apply Hsame. intros Hbz.
      apply (Hap i j i k t t b c z); try done; [congruence|].
      destruct (sh_buffer w c) as (_ & Hcl & _); [eapply Hu; [done|by eapply list_elem_of_lookup_2]|]. unfold buf_range. rewrite Hcl. lia.
Qed.

Lemma verify_all_ok sys bufs ps h :
  driver_ok sys → Forall2 (λ b p, verify sys gpus b host p h = Ret true) bufs ps → verify_all gpus host sys bufs ps h = Ret true.
Proof. intros Hd. induction 1 as [|b p bufs ps Hv _ IH]; [done|]. simpl. by rewrite Hv. Qed.

(** The thread has all its slots and checks them. *)
Lemma step_check w ts i t :
  shard_ok → threads_ok w ts → ts !! i = Some t → th_result t = None → (slots <= length (th_bufs t))%nat → th_left t = [] →
  ∃ w' t', step t w = Ret (w', t') ∧ threads_ok w' (<[i := t']> ts) ∧ S (todo t') = todo t ∧ th_gpu t' = th_gpu t.
Proof.
  intros [Hlen Hmod Hcont [Hpl Hpats] _ Hgpus] Hok Hi Hr Hge Hleft. pose proof Hok as [Hinv He Hu Hap].
  pose proof (proj1 (Forall_lookup _ _) He _ _ Hi) as Ht.
  assert (length (th_bufs t) = slots) as El by (pose proof (tk_len _ _ Ht); lia).
  assert (∀ j, (j < slots)%nat → ∃ x b, th_from t !! j = Some (Some x) ∧ th_bufs t !! j = Some b ∧
    load (mem w) (gb_ptr b) (Z.to_nat slot_bytes) = Some (content j)) as Hall.
  { intros j Hj. destruct (tk_slots _ _ Ht j Hj) as [Hin|?]; [rewrite Hleft in Hin; by apply elem_of_nil in Hin|done]. }
  assert (verify_all gpus host (cs w) (th_bufs t) pats (mem w) = Ret true) as Hver.
  { apply verify_all_ok; [by eapply sh_driver|]. apply Forall2_same_length_lookup_2; [lia|]. intros j b p Hb Hp.
    destruct (Hall j) as (x & b' & _ & Hb' & Hl); [apply lookup_lt_Some in Hb; lia|]. rewrite Hb in Hb'. injection Hb' as <-.
    destruct (sh_buffer w b) as (Hg & Hbl & Hp0 & Hmax & _); [eapply Hu; [done|by eapply list_elem_of_lookup_2]|].
    destruct (Hgpus _ Hg) as [g Hgg]. pose proof (Z.div_mod slot_bytes 4 ltac:(lia)) as Hdm.
    rewrite (verify_filled (cs w) gpus b g host p p (mem w) (Z.to_nat (slot_bytes / 4))); try done; [by rewrite bool_decide_true|by eapply sh_driver|lia|lia| |].
    - rewrite Forall_lookup in Hpats. by eapply Hpats.
    - rewrite <- (Hcont j p Hp). rewrite <- Hl. f_equal. lia. }
  assert (∃ from, mapM id (th_from t) = Some from) as [from Hfrom].
  { apply mapM_is_Some_2. apply Forall_lookup. intros j f Hf. destruct (Hall j) as (x & b & Hx & _); [apply lookup_lt_Some in Hf; rewrite (tk_from _ _ Ht) in Hf; done|].
    simplify_eq. by eexists. }
  set (r := mkGetResult (th_gpu t) (elapsed (th_gpu t)) from true).
  exists w, (mkThread (th_gpu t) (th_pinned t) (th_bufs t) (th_from t) [] (Some r)). split.
  { unfold thread_step. rewrite Hr, Hleft. destruct (Nat.ltb_spec (length (th_bufs t)) slots); [lia|]. rewrite Hver. cbn [mbind outcome_bind].
    rewrite Hfrom. done. }
  split; [|split; [unfold todo, missing; rewrite Hleft, Hr; simpl; lia|done]].
  eapply same_bufs; [done|done|done|done|done|]. apply Forall_insert; [done|].
  destruct Ht as [H1 H2 H3 H4 H5 H6]. rewrite Hleft in H5. constructor; try done. intros r' [= <-]. simpl. split_and!; try done.
  apply length_mapM in Hfrom. congruence.
Qed.

Lemma step_ok w ts i t :
  shard_ok → threads_ok w ts → ts !! i = Some t →
  ∃ w' t', step t w = Ret (w', t') ∧ threads_ok w' (<[i := t']> ts) ∧ todo t' = (todo t - 1)%nat ∧ th_gpu t' = th_gpu t.
Proof.
  intros Hs Hok Hi. destruct (th_result t) as [r|] eqn:Hr.
  { exists w, t. unfold thread_step. rewrite Hr, list_insert_id by done. split_and!; try done.
    pose proof (proj1 (Forall_lookup _ _) (ts_each _ _ Hok) _ _ Hi) as Ht. destruct (tk_result _ _ Ht r Hr) as (El & Hl & _).
    unfold todo, missing. rewrite Hr, Hl, El. simpl. lia. }
  assert (∃ w' t', step t w = Ret (w', t') ∧ threads_ok w' (<[i := t']> ts) ∧ S (todo t') = todo t ∧ th_gpu t' = th_gpu t)
    as (w' & t' & ? & ? & ? & ?); [|exists w', t'; split_and!; try done; lia].
  destruct (decide (length (th_bufs t) < slots)%nat); [by apply step_new|].
  destruct (th_left t) as [|j rest] eqn:Hl; [by apply step_check; [..|lia|]|by eapply step_get; [..|lia|]].
Qed.

(** How often a schedule runs thread [i]. *)
Definition turns (i : nat) (sched : list nat) : nat := length (filter (λ k, k = i) sched).

Lemma run_threads_ok sched ts w :
  shard_ok → threads_ok w ts →
  ∃ w' ts', run_threads s cs grow mem gpus host key slots slot_bytes pats elapsed sched ts w = Ret (w', ts') ∧ threads_ok w' ts' ∧
    th_gpu <$> ts' = th_gpu <$> ts ∧ ∀ i t', ts' !! i = Some t' → ∃ t, ts !! i = Some t ∧ todo t' = (todo t - turns i sched)%nat.
Proof.
  intros Hs. revert ts w. induction sched as [|i sched IH]; intros ts w Hok.
  { exists w, ts. split_and!; try done. intros i t' Hi. exists t'. split; [done|]. unfold turns. simpl. lia. }
  cbn [run_threads]. destruct (ts !! i) as [t|] eqn:Hi.
  - destruct (step_ok w ts i t Hs Hok Hi) as (w1 & t1 & Hstep & Hok1 & Htodo & Hg). rewrite Hstep. cbn [mbind outcome_bind].
    destruct (IH _ _ Hok1) as (w' & ts' & Hrun & Hok' & Eg & Ht). exists w', ts'. split_and!; try done.
    + rewrite Eg, list_fmap_insert, Hg. apply list_insert_id. by rewrite list_lookup_fmap, Hi.
    + intros k t' Hk. destruct (Ht k t' Hk) as (t0 & Hk0 & ->). unfold turns. rewrite filter_cons.
      apply list_lookup_insert_Some in Hk0 as [(-> & <- & _)|[Hne Hk0]].
      * exists t. rewrite decide_True by done. simpl. split; [done|lia].
      * exists t0. rewrite decide_False by done. done.
  - destruct (IH _ _ Hok) as (w' & ts' & Hrun & Hok' & Eg & Ht). exists w', ts'. split_and!; try done.
    intros k t' Hk. destruct (Ht k t' Hk) as (t0 & Hk0 & ->). exists t0. split; [done|]. unfold turns. rewrite filter_cons, decide_False; [done|]. congruence.
Qed.

Lemma spawned_gpus (l : list u16) : th_gpu <$> (spawn topo setaffinity slots order <$> l) = l.
Proof. induction l as [|g l IH]; [done|]. csimpl. by rewrite IH. Qed.

Lemma spawned_ok w :
  shard_ok → sh_inv (slots * length gpu_ids + spare) w → threads_ok w (spawn topo setaffinity slots order <$> gpu_ids).
Proof.
  intros Hs Hinv. assert (∀ i t, (spawn topo setaffinity slots order <$> gpu_ids) !! i = Some t → th_bufs t = []) as Hno.
  { intros i t Ht. rewrite list_lookup_fmap in Ht. apply fmap_Some in Ht as (g & _ & ->). done. }
  constructor.
  - replace (sum_list _) with (slots * length gpu_ids)%nat; [done|]. clear. induction gpu_ids as [|g l IH]; csimpl; [lia|].
    rewrite <- IH. unfold missing. simpl. lia.
  - apply Forall_fmap, Forall_forall. intros g Hg. pose proof (so_order Hs g Hg) as Ho. constructor; simpl; try done; [lia|by rewrite length_replicate|..].
    + rewrite Ho. apply Forall_forall. intros i Hi%elem_of_seq. lia.
    + intros j Hj. left. rewrite Ho. apply elem_of_seq. lia.
  - intros i t b Hi Hb. rewrite (Hno i t Hi) in Hb. by apply elem_of_nil in Hb.
  - intros i j k l t u b c x Hi Hb. by rewrite (Hno i t Hi) in Hb.
Qed.

Lemma drops_ok n ts w : sh_inv n w →
  ∃ w', mfoldl (λ w t, drop_bufs drop_region (th_bufs t) w) w ts = Ret w' ∧ sh_inv n w'.
Proof.
  revert w. induction ts as [|t ts IH]; intros w Hw; [by exists w|]. simpl.
  assert (∃ w1, drop_bufs drop_region (th_bufs t) w = Ret w1 ∧ sh_inv n w1) as (w1 & -> & Hw1).
  { unfold drop_bufs. clear IH. revert w Hw. induction (th_bufs t) as [|b l IH]; intros w Hw; [by exists w|]. simpl.
    destruct (sh_drop n w (region_id (gb_region b)) Hw) as (w1 & -> & Hw1 & _). by apply IH. }
  by apply IH.
Qed.

(** One buffer per slot, with the slot's bytes. *)
Definition buffers_hold (h : heap) (bufs : list GpuBuf) : Prop :=
  length bufs = slots ∧ ∀ j b, bufs !! j = Some b → load h (gb_ptr b) (Z.to_nat slot_bytes) = Some (content j).

(** What the threads leave when all have been run to their end. *)
Lemma finished_results w ts :
  threads_ok w ts → Forall (λ t, todo t = 0%nat) ts →
  ∃ rs, mapM th_result ts = Some rs ∧ gr_gpu <$> rs = th_gpu <$> ts ∧ Forall (λ r, gr_ok r = true) rs ∧
    Forall (λ t, buffers_hold (mem w) (th_bufs t)) ts.
Proof.
  intros [_ He _ _] Hdone. induction He as [|t ts Ht _ IH]; [by exists []|]. apply Forall_cons in Hdone as [Hd Hdone].
  destruct (IH Hdone) as (rs & Hrs & Eg & Hok & Hb). unfold todo in Hd. destruct (th_result t) as [r|] eqn:Hr; [|lia].
  destruct (tk_result _ _ Ht r Hr) as (El & Hl & Hg & Hrok & _). exists (r :: rs). split; [simpl; by rewrite Hr, Hrs|].
  split; [csimpl; by rewrite Hg, Eg|]. split; [by constructor|]. constructor; [|done]. split; [done|]. intros j b Hj.
  destruct (tk_slots _ _ Ht j) as [Hin|(x & c & _ & Hc & Hload)]; [apply lookup_lt_Some in Hj; lia|rewrite Hl in Hin; by apply elem_of_nil in Hin|].
  by simplify_eq.
Qed.
Lemma none_missing ts : Forall (λ t, todo t = 0%nat) ts → sum_list (missing <$> ts) = 0%nat.
Proof. induction 1 as [|t ts Ht _ IH]; [done|]. csimpl. rewrite IH. unfold todo in Ht. lia. Qed.

Lemma fan_out_ok sched keep w :
  shard_ok → sh_inv (slots * length gpu_ids + spare) w → (∀ i, (i < length gpu_ids)%nat → (2 * slots + 1 <= turns i sched)%nat) →
  ∃ w' rs kept, fan_out s cs grow mem drop_region gpus topo setaffinity host key slots slot_bytes pats order elapsed sched gpu_ids keep w
      = Ret (Some (w', (rs, kept))) ∧
    Sorted result_le rs ∧ gr_gpu <$> rs ≡ₚ gpu_ids ∧ Forall (λ r, gr_ok r = true) rs ∧ sh_inv spare w' ∧
    Forall (buffers_hold (mem w')) kept ∧ (∀ bufs b, bufs ∈ kept → b ∈ bufs → sh_usable w' b) ∧ (keep = true → length kept = length gpu_ids).
Proof.
  intros Hs Hinv Hturns. pose proof (spawned_ok w Hs Hinv) as Hsp. destruct (run_threads_ok sched _ w Hs Hsp) as (w1 & ts & Hrun & Hok & Eg & Ht).
  rewrite spawned_gpus in Eg.
  assert (Forall (λ t, todo t = 0%nat) ts) as Hdone.
  { apply Forall_lookup. intros i t Hi. destruct (Ht i t Hi) as (t0 & Hi0 & ->). rewrite list_lookup_fmap in Hi0.
    apply fmap_Some in Hi0 as (g & Hg & ->). pose proof (Hturns i (lookup_lt_Some _ _ _ Hg)) as Hn. unfold todo, missing, spawn. simpl.
    rewrite (so_order Hs g) by (by eapply list_elem_of_lookup_2). rewrite length_seq. lia. }
  destruct (finished_results w1 ts Hok Hdone) as (rs & Hrs & Er & Hall & Hb).
  unfold fan_out. rewrite Hrun. cbn [mbind outcome_bind]. rewrite Hrs.
  assert (gr_gpu <$> merge_sort result_le rs ≡ₚ gpu_ids) as Hperm by (by rewrite merge_sort_Permutation, Er, Eg).
  assert (Forall (λ r, gr_ok r = true) (merge_sort result_le rs)) as Hoks by (by rewrite merge_sort_Permutation).
  assert (Sorted result_le (merge_sort result_le rs)) as Hsort by (apply Sorted_merge_sort; intros x y; unfold result_le; lia).
  destruct keep; cbn [mbind outcome_bind].
  - exists w1, (merge_sort result_le rs), (th_bufs <$> ts). 
    pose proof (ts_inv _ _ Hok) as Hinv1. rewrite none_missing in Hinv1 by done. split_and!; try done; [by apply Forall_fmap|..].
    + intros bufs b Hbs Hin. apply list_elem_of_fmap in Hbs as (t & -> & (i & Hti)%list_elem_of_lookup_1). by eapply (ts_usable _ _ Hok).
    + intros _. by rewrite length_fmap, <- Eg, length_fmap.
  - destruct (drops_ok _ ts w1 (ts_inv _ _ Hok)) as (w2 & -> & Hinv2).
    cbn [mbind outcome_bind]. exists w2, (merge_sort result_le rs), []. rewrite none_missing in Hinv2 by done.
    split_and!; try done. by intros bufs b ?%elem_of_nil.
Qed.
End Threads.

(** C17: Every GPU is served, however the threads interleave, each call of the
    store and each step of a thread between calls being one step. Over any store
    that holds the shard's slots, for every schedule of the threads that gives
    each of them its [2 * slots + 1] steps, the fan-out returns: no thread panics,
    there is one result per GPU, sorted by GPU, each saying that all sampled bytes
    were right, the buffers that are kept hold the slots' bytes in full, and the
    store still holds the shard. *)
Theorem fan_out_serves {W : Type} `{BuildProfile} (s : Store W) cs grow mem drop_region gpus topo setaffinity host gpu_ids key slots
    slot_bytes pats content order elapsed `{!ShardHost s cs grow mem drop_region gpus gpu_ids key slots slot_bytes content} sched keep n w :
  shard_ok gpus gpu_ids slots slot_bytes pats content order → sh_inv (slots * length gpu_ids + n) w →
  (∀ i, (i < length gpu_ids)%nat → (2 * slots + 1 <= turns i sched)%nat) →
  ∃ w' rs kept, fan_out s cs grow mem drop_region gpus topo setaffinity host key slots slot_bytes pats order elapsed sched gpu_ids keep w
      = Ret (Some (w', (rs, kept))) ∧
    Sorted result_le rs ∧ gr_gpu <$> rs ≡ₚ gpu_ids ∧ Forall (λ r, gr_ok r = true) rs ∧ sh_inv n w' ∧
    Forall (buffers_hold slots slot_bytes content (mem w')) kept ∧ (∀ bufs b, bufs ∈ kept → b ∈ bufs → sh_usable w' b) ∧ (keep = true → length kept = length gpu_ids).
Proof. by apply fan_out_ok. Qed.
