(* ===== verification/LocalCopy.v ===== *)
(** * Segment copies of the CUDA backend: [zip_copy] in [local.rs]

    Two segment lists walked in lockstep.  A segment is (address, length); the
    copy engine is the function argument of the code, here threading a state
    [St] and able to fail.  [host_copy] is the engine between host memories. *)

From S2P Require Import Prelude HostMem Types Region Memory MemoryCopy.

Abbreviation Seg := (u64 * u64)%type.

(** [iov_segs]. *)
Definition iov_segs (iovs : list Iov) : list Seg := (λ v, (iov_as_ptr v, iov_len v)) <$> iovs.

Section Zip.
Context `{BuildProfile} {St : Type} (f : St → u64 → u64 → u64 → outcome (St * Result unit)).

(** The first [while]: segments wholly before the offset. *)
Fixpoint skip_segs (src : list Seg) (off : u64) : outcome (list Seg * u64) :=
  match src with
  | [] => Ret ([], off)
  | s :: src' =>
      if s.2 <=? off then off ← u64_sub off s.2; skip_segs src' off
      else Ret (src, off)
  end.

(** The second [while]; [src] and [dst] start at the current segments.  Every
    iteration finishes a segment or the copy, so one more than the number of
    segments is enough fuel ([zip_loop_spec]). *)
Fixpoint zip_loop (fuel : nat) (src : list Seg) (s_off : u64) (dst : list Seg) (d_off : u64) (remaining : u64) (st : St)
    : outcome (St * Result unit) :=
  match fuel with
  | O => Panicked
  | S fuel =>
      if remaining =? 0 then Ret (st, Ok tt) else
      match src, dst with
      | s :: src', d :: dst' =>
          s_left ← u64_sub s.2 s_off;
          d_left ← u64_sub d.2 d_off;
          let n := Z.min (Z.min s_left d_left) remaining in
          sa ← u64_add s.1 s_off;
          da ← u64_add d.1 d_off;
          '(st, r) ← f st sa da n;
          match r with
          | Err e => Ret (st, Err e)
          | Ok _ =>
              s_off ← u64_add s_off n;
              d_off ← u64_add d_off n;
              remaining ← u64_sub remaining n;
              let '(src, s_off) := if s_off =? s.2 then (src', 0) else (src, s_off) in
              let '(dst, d_off) := if d_off =? d.2 then (dst', 0) else (dst, d_off) in
              zip_loop fuel src s_off dst d_off remaining st
          end
      | _, _ => Ret (st, Err (Error_new InvalidInput "copy ran past a segment list"))
      end
  end.

Definition zip_copy (src : list Seg) (src_offset : u64) (dst : list Seg) (total : u64) (st : St)
    : outcome (St * Result unit) :=
  '(src, s_off) ← skip_segs src src_offset;
  zip_loop (length src + length dst + 1) src s_off dst 0 total st.
End Zip.

(** [ptr::copy_nonoverlapping]: undefined when the ranges overlap. *)
Definition host_copy (h : heap) (s d n : u64) : outcome (heap * Result unit) :=
  if decide (0 < n ∧ s < d + n ∧ d < s + n) then Undefined else
  bs ← deref (load h s (Z.to_nat n));
  h ← deref (store h d bs);
  Ret (h, Ok tt).

(** ** Addresses *)

(** The addresses of a segment list, in order. *)
Definition addrs (segs : list Seg) : list Z := segs ≫= λ s, seqZ s.1 s.2.

Definition seg_ok (h : heap) (s : Seg) : Prop :=
  0 <= s.1 <= U64_MAX ∧ 0 <= s.2 <= U64_MAX ∧ s.1 + s.2 <= 2 ^ 64 ∧ mapped h s.1 s.2.

Lemma length_addrs h segs : Forall (seg_ok h) segs → Z.of_nat (length (addrs segs)) = zsum (segs.*2).
Proof.
  induction 1 as [|s segs (_ & [? _] & _) _ IH]; [done|]. unfold addrs in *. csimpl.
  rewrite length_app, length_seqZ, zsum_cons. lia.
Qed.

(** What is left of a list [off] bytes into its first segment. *)
Definition rest_addrs (segs : list Seg) (off : Z) : list Z := drop (Z.to_nat off) (addrs segs).

Lemma rest_addrs_nil off : rest_addrs [] off = [].
Proof. unfold rest_addrs, addrs. apply drop_nil. Qed.

Lemma seqZ_split a n k : 0 <= k <= n → seqZ a n = seqZ a k ++ seqZ (a + k) (n - k).
Proof. intros. rewrite <- seqZ_app by lia. f_equal. lia. Qed.

(** Cutting [n] bytes off the front, and moving on when the segment is done. *)
Lemma rest_addrs_step s segs off n :
  0 <= off → 0 <= n → off + n <= s.2 →
  rest_addrs (s :: segs) off = seqZ (s.1 + off) n ++
    (let '(l, o) := if off + n =? s.2 then (segs, 0) else (s :: segs, off + n) in rest_addrs l o).
Proof.
  intros Ho Hn Hle. unfold rest_addrs, addrs. csimpl.
  assert (∀ k, 0 <= k <= s.2 → drop (Z.to_nat k) (seqZ s.1 s.2 ++ (segs ≫= λ s, seqZ s.1 s.2)) =
    seqZ (s.1 + k) (s.2 - k) ++ (segs ≫= λ s, seqZ s.1 s.2)) as Hdrop.
  { intros k Hk. rewrite (seqZ_split s.1 s.2 k) by lia. rewrite <- (assoc_L (++)).
    by rewrite drop_app_length' by (rewrite length_seqZ; lia). }
  rewrite Hdrop by lia. rewrite (seqZ_split (s.1 + off) (s.2 - off) n) by lia. rewrite <- (assoc_L (++)). f_equal.
  destruct (Z.eqb_spec (off + n) s.2) as [Heq|Hne].
  - replace (s.2 - off - n) with 0 by lia. done.
  - csimpl. rewrite Hdrop by lia. f_equal. f_equal; lia.
Qed.

(** ** Copying a chunk *)

(** [h'] is [h] with the bytes at the addresses [src] copied to [dst]. *)
Definition copied (h h' : heap) (src dst : list Z) : Prop :=
  (∀ i a b, src !! i = Some a → dst !! i = Some b → h' !! b = h !! a) ∧ (∀ x, x ∉ dst → h' !! x = h !! x).

Lemma copied_dom h h' src dst :
  copied h h' src dst → length src = length dst → Forall (λ a, is_Some (h !! a)) src → Forall (λ a, is_Some (h !! a)) dst →
  ∀ x, is_Some (h' !! x) ↔ is_Some (h !! x).
Proof.
  intros [Hc Hn] Hl Hs Hd x. destruct (decide (x ∈ dst)) as [Hx|Hx]; [|by rewrite Hn].
  apply list_elem_of_lookup in Hx as [i Hi]. destruct (lookup_lt_is_Some_2 src i) as [a Ha].
  { rewrite Hl. by eapply lookup_lt_Some. }
  rewrite (Hc _ _ _ Ha Hi). rewrite Forall_lookup in Hs, Hd. split; intros _; [by eapply Hd|by eapply Hs].
Qed.

Lemma host_copy_spec h s d n :
  0 <= n → mapped h s n → mapped h d n → (∀ x, x ∈ seqZ s n → x ∈ seqZ d n → False) →
  ∃ h', host_copy h s d n = Ret (h', Ok tt) ∧ copied h h' (seqZ s n) (seqZ d n).
Proof.
  intros Hn Hs Hd Hdis. unfold host_copy. rewrite decide_False.
  2:{ intros (Hp & H1 & H2). apply (Hdis (Z.max s d)); apply elem_of_seqZ; lia. }
  destruct (bytes_at_load h s n Hn Hs) as [-> Hlen]. cbn [deref mbind outcome_bind].
  destruct (store_mapped h d (bytes_at h s n)) as [h' Hst]; [by rewrite Hlen|]. rewrite Hst. cbn [deref mbind outcome_bind].
  exists h'. split; [done|]. split.
  - intros i a b [Ha Hi]%lookup_seqZ [Hb _]%lookup_seqZ. subst.
    destruct (bytes_at_load h s n Hn Hs) as [Hl _].
    rewrite <- (load_lookup _ _ _ _ i Hl) by lia. destruct (bytes_at h s n !! i) as [v|] eqn:Hv.
    + by apply (store_lookup _ _ _ _ _ _ Hst).
    + apply lookup_ge_None in Hv. lia.
  - intros x Hx. apply (store_lookup_ne _ _ _ _ _ Hst). rewrite elem_of_seqZ in Hx. lia.
Qed.

Lemma copied_app h h1 h2 s1 d1 s2 d2 :
  copied h h1 s1 d1 → copied h1 h2 s2 d2 → length s1 = length d1 →
  (∀ x, x ∈ d1 → x ∉ s2) → (∀ x, x ∈ d1 → x ∉ d2) → copied h h2 (s1 ++ s2) (d1 ++ d2).
Proof.
  intros [Hc1 Hn1] [Hc2 Hn2] Hl Hds Hdd. split.
  - intros i a b Ha Hb. destruct (decide (i < length s1)%nat) as [Hi|Hi].
    + rewrite lookup_app_l in Ha by lia. rewrite lookup_app_l in Hb by lia.
      rewrite Hn2; [by eapply Hc1|]. apply Hdd. by eapply list_elem_of_lookup_2.
    + rewrite lookup_app_r in Ha by lia. rewrite lookup_app_r in Hb by lia. rewrite <- Hl in Hb.
      rewrite (Hc2 _ _ _ Ha Hb). apply Hn1. intros Hin. eapply Hds; [exact Hin|]. by eapply list_elem_of_lookup_2.
  - intros x Hx. apply not_elem_of_app in Hx as [? ?]. rewrite Hn2, Hn1 by done. done.
Qed.

(** ** The lockstep walk *)

Definition pos_ok (segs : list Seg) (off : Z) : Prop :=
  0 <= off ∧ match segs with s :: _ => off = 0 ∨ off < s.2 | [] => True end.

Lemma seg_ok_dom h h' s : (∀ x, is_Some (h' !! x) ↔ is_Some (h !! x)) → seg_ok h s → seg_ok h' s.
Proof. intros Hd (? & ? & ? & Hm). split_and!; try done; try lia. intros i Hi. apply Hd. by apply Hm. Qed.

(** One chunk: the head of both lists, and the positions after it. *)
Lemma advance_ok h s segs off n :
  Forall (seg_ok h) (s :: segs) → pos_ok (s :: segs) off → 0 <= n → n <= s.2 - off →
  let '(l, o) := if off + n =? s.2 then (segs, 0) else (s :: segs, off + n) in
  Forall (seg_ok h) l ∧ pos_ok l o ∧ rest_addrs (s :: segs) off = seqZ (s.1 + off) n ++ rest_addrs l o ∧
  (length l <= length (s :: segs))%nat ∧ (off + n = s.2 → (length l < length (s :: segs))%nat).
Proof.
  intros Hok [Ho Hpos] Hn Hle. pose proof (rest_addrs_step s segs off n Ho Hn ltac:(lia)) as Hr.
  apply Forall_cons in Hok as [Hs Hok]. destruct (Z.eqb_spec (off + n) s.2) as [Heq|Hne].
  - split_and!; try done; [split; [lia|destruct segs; auto]|simpl; lia|simpl; lia].
  - split_and!; try done; [by constructor|split; [lia|right; lia]].
Qed.

Lemma take_chunk {A} (l1 l2 : list A) k : (length l1 <= k)%nat → take k (l1 ++ l2) = l1 ++ take (k - length l1) l2.
Proof. intros. by rewrite take_app_ge. Qed.

(** Copying [n] bytes between two segments keeps the mapped addresses. *)
Lemma copy_chunk h (s d : Seg) s_off d_off n :
  seg_ok h s → seg_ok h d → 0 <= s_off → 0 <= d_off → 0 <= n → n <= s.2 - s_off → n <= d.2 - d_off →
  (∀ x, x ∈ seqZ (s.1 + s_off) n → x ∈ seqZ (d.1 + d_off) n → False) →
  ∃ h1, host_copy h (s.1 + s_off) (d.1 + d_off) n = Ret (h1, Ok tt) ∧
    copied h h1 (seqZ (s.1 + s_off) n) (seqZ (d.1 + d_off) n) ∧ ∀ x, is_Some (h1 !! x) ↔ is_Some (h !! x).
Proof.
  intros (_ & _ & _ & Hsm) (_ & _ & _ & Hdm) ????? Hdis.
  destruct (host_copy_spec h (s.1 + s_off) (d.1 + d_off) n) as (h1 & Hh & Hc);
    [lia|eapply mapped_sub; [exact Hsm|lia|lia]|eapply mapped_sub; [exact Hdm|lia|lia]|done|].
  exists h1. split; [done|]. split; [done|].
  eapply (copied_dom _ _ _ _ Hc); [by rewrite !length_seqZ| |]; apply Forall_forall; intros x Hx%elem_of_seqZ;
    [apply Hsm|apply Hdm]; lia.
Qed.

Lemma zip_loop_spec `{BuildProfile} fuel src s_off dst d_off remaining h :
  Forall (seg_ok h) src → Forall (seg_ok h) dst → pos_ok src s_off → pos_ok dst d_off →
  0 <= remaining <= U64_MAX →
  remaining <= Z.of_nat (length (rest_addrs src s_off)) → remaining <= Z.of_nat (length (rest_addrs dst d_off)) →
  NoDup (take (Z.to_nat remaining) (rest_addrs dst d_off)) →
  (∀ x, x ∈ take (Z.to_nat remaining) (rest_addrs src s_off) → x ∉ take (Z.to_nat remaining) (rest_addrs dst d_off)) →
  (remaining = 0 ∧ (1 <= fuel)%nat) ∨ (length src + length dst + 1 <= fuel)%nat →
  ∃ h', zip_loop host_copy fuel src s_off dst d_off remaining h = Ret (h', Ok tt) ∧
    copied h h' (take (Z.to_nat remaining) (rest_addrs src s_off)) (take (Z.to_nat remaining) (rest_addrs dst d_off)).
Proof.
  revert src s_off dst d_off remaining h. induction fuel as [|fuel IH];
    intros src s_off dst d_off remaining h Hs Hd Hps Hpd Hr Hls Hld Hnd Hdis Hfuel; [lia|].
  cbn [zip_loop]. destruct (Z.eqb_spec remaining 0) as [->|Hnz].
  { exists h. split; [done|]. split; [|done]. intros i a b Ha. by rewrite take_0, lookup_nil in Ha. }
  destruct src as [|s src]; [rewrite rest_addrs_nil in Hls; simpl in Hls; lia|].
  destruct dst as [|d dst]; [rewrite rest_addrs_nil in Hld; simpl in Hld; lia|].
  pose proof (Forall_inv Hs) as (Hsa & Hsl & Hse & Hsm). pose proof (Forall_inv Hd) as (Hda & Hdl & Hde & Hdm).
  pose proof Hps as [Hs0 Hs1]. pose proof Hpd as [Hd0 Hd1]. cbn in Hs1, Hd1.
  rewrite (u64_sub_ok s.2) by (split; lia). rewrite (u64_sub_ok d.2) by (split; lia). cbn [mbind outcome_bind].
  set (n := Z.min (Z.min (s.2 - s_off) (d.2 - d_off)) remaining).
  assert (0 <= n ∧ n <= s.2 - s_off ∧ n <= d.2 - d_off ∧ n <= remaining ∧
          (n = s.2 - s_off ∨ n = d.2 - d_off ∨ n = remaining)) as (Hn0 & Hn1 & Hn2 & Hn3 & Hn4) by (unfold n; lia).
  clearbody n.
  rewrite (u64_add_ok s.1) by (split; unfold U64_MAX in *; lia). rewrite (u64_add_ok d.1) by (split; unfold U64_MAX in *; lia).
  cbn [mbind outcome_bind].
  pose proof (advance_ok h s src s_off n Hs Hps ltac:(lia) ltac:(lia)) as Has.
  pose proof (advance_ok h d dst d_off n Hd Hpd ltac:(lia) ltac:(lia)) as Had.
  destruct (if s_off + n =? s.2 then (src, 0) else (s :: src, s_off + n)) as [src' s_off'] eqn:Es.
  destruct (if d_off + n =? d.2 then (dst, 0) else (d :: dst, d_off + n)) as [dst' d_off'] eqn:Ed.
  destruct Has as (Hs' & Hps' & HS & Hss1 & Hss2). destruct Had as (Hd' & Hpd' & HD & Hdd1 & Hdd2).
  assert (∀ a, Z.of_nat (length (seqZ a n)) = n) as Hlen by (intros; rewrite length_seqZ; lia).
  rewrite HS, HD in *. rewrite length_app in Hls, Hld.
  assert (∀ a, (length (seqZ a n) <= Z.to_nat remaining)%nat) as Hle by (intros a; specialize (Hlen a); lia).
  assert (∀ a, (Z.to_nat remaining - length (seqZ a n))%nat = Z.to_nat (remaining - n)) as Hsub
    by (intros a; specialize (Hlen a); lia).
  rewrite !take_chunk in * by done. rewrite !Hsub in *.
  apply NoDup_app in Hnd as (_ & Hnd1 & Hnd2).
  destruct (copy_chunk h s d s_off d_off n (Forall_inv Hs) (Forall_inv Hd)) as (h1 & -> & Hc1 & Hdom); [lia..| |].
  { intros x Hx Hx'. apply (Hdis x); apply elem_of_app; by left. }
  cbn [mbind outcome_bind]. rewrite (u64_add_ok s_off) by (split; lia). rewrite (u64_add_ok d_off) by (split; lia).
  rewrite (u64_sub_ok remaining) by (split; lia). cbn [mbind outcome_bind]. rewrite Es, Ed.
  destruct (IH src' s_off' dst' d_off' (remaining - n) h1) as (h2 & -> & Hc2); try done; try lia.
  - eapply Forall_impl; [exact Hs'|]. intros x. by apply seg_ok_dom.
  - eapply Forall_impl; [exact Hd'|]. intros x. by apply seg_ok_dom.
  - specialize (Hlen (s.1 + s_off)). lia.
  - specialize (Hlen (d.1 + d_off)). lia.
  - intros x Hx Hx'. apply (Hdis x); apply elem_of_app; by right.
  - destruct Hfuel as [[? _]|Hfuel]; [done|]. simpl in *. destruct (decide (s_off + n = s.2)) as [He|He]; [specialize (Hss2 He); lia|].
    destruct (decide (d_off + n = d.2)) as [He'|He']; [specialize (Hdd2 He'); lia|]. left. lia.
  - exists h2. split; [done|]. eapply copied_app; [exact Hc1|exact Hc2|by rewrite !length_seqZ| |].
    + intros x Hx Hx'. apply (Hdis x); apply elem_of_app; [by right|by left].
    + intros x Hx. by apply Hnd1.
Qed.

Lemma skip_segs_spec `{BuildProfile} h src off :
  Forall (seg_ok h) src → 0 <= off <= U64_MAX →
  ∃ src' off', skip_segs src off = Ret (src', off') ∧ Forall (seg_ok h) src' ∧ pos_ok src' off' ∧
    rest_addrs src off = rest_addrs src' off'.
Proof.
  intros Hs. revert off. induction Hs as [|s src Hs Hok IH]; intros off Ho; cbn [skip_segs].
  { exists [], off. split_and!; try done. split; [lia|done]. }
  pose proof Hs as (_ & ? & _). destruct (Z.leb_spec s.2 off).
  - rewrite u64_sub_ok by (split; lia). cbn [mbind outcome_bind].
    destruct (IH (off - s.2)) as (src' & off' & -> & Hk1 & Hk2 & Hk3); [lia|]. exists src', off'. split_and!; try done.
    rewrite <- Hk3. unfold rest_addrs, addrs. csimpl. rewrite drop_app_ge by (rewrite length_seqZ; lia). f_equal.
    rewrite length_seqZ. lia.
  - exists (s :: src), off. split_and!; try done; [by constructor|]. split; [lia|right; lia].
Qed.

(** The bytes of a segment list are the bytes at its addresses. *)
Lemma segs_contents_addrs h segs :
  Forall (seg_ok h) segs → Some <$> segs_contents h segs = (λ a, h !! a) <$> addrs segs.
Proof.
  unfold segs_contents, addrs. induction 1 as [|s segs (_ & [Hn _] & _ & Hm) _ IH]; [done|]. csimpl.
  rewrite !fmap_app, IH. f_equal. destruct (bytes_at_load h s.1 s.2 Hn Hm) as [Hl Hlen].
  apply list_eq. intros i. rewrite !list_lookup_fmap. destruct (decide (i < Z.to_nat s.2)%nat) as [Hi|Hi].
  - rewrite (load_lookup _ _ _ _ i Hl) by done. rewrite lookup_seqZ_lt by lia. simpl.
    destruct (Hm (s.1 + Z.of_nat i)) as [v Hv]; [lia|]. by rewrite Hv.
  - rewrite lookup_ge_None_2 by lia. by rewrite lookup_seqZ_ge by lia.
Qed.

Lemma copied_bytes h h' src dst :
  copied h h' src dst → length src = length dst → (λ a, h' !! a) <$> dst = (λ a, h !! a) <$> src.
Proof.
  intros [Hc _] Hl. apply list_eq. intros i. rewrite !list_lookup_fmap.
  destruct (src !! i) as [a|] eqn:Ha; destruct (dst !! i) as [b|] eqn:Hb; simpl.
  - f_equal. by eapply Hc.
  - apply lookup_ge_None in Hb. apply lookup_lt_Some in Ha. lia.
  - apply lookup_ge_None in Ha. apply lookup_lt_Some in Hb. lia.
  - done.
Qed.

(** [zip_copy] terminates and copies: with a source range inside the source
    segments and a destination that has room, overlaps neither itself nor the
    source, the destination's bytes become exactly the requested range of the
    source's bytes, however the two lists are cut into segments (empty ones
    included), and no other address changes. *)
Lemma zip_copy_correct `{BuildProfile} h src off dst total :
  Forall (seg_ok h) src → Forall (seg_ok h) dst → 0 <= off <= U64_MAX → 0 <= total <= U64_MAX →
  off + total <= zsum (src.*2) → total = zsum (dst.*2) →
  NoDup (addrs dst) → (∀ x, x ∈ addrs src → x ∉ addrs dst) →
  ∃ h', zip_copy host_copy src off dst total h = Ret (h', Ok tt) ∧
    segs_contents h' dst = take (Z.to_nat total) (drop (Z.to_nat off) (segs_contents h src)) ∧
    ∀ x, x ∉ addrs dst → h' !! x = h !! x.
Proof.
  intros Hs Hd Ho Ht Hle Heq Hnd Hdis. unfold zip_copy.
  destruct (skip_segs_spec h src off Hs Ho) as (src' & off' & -> & Hs' & Hp' & Hr). cbn [mbind outcome_bind].
  pose proof (length_addrs h src Hs) as Hls. pose proof (length_addrs h dst Hd) as Hld.
  assert (rest_addrs dst 0 = addrs dst) as Hd0 by done.
  assert (take (Z.to_nat total) (addrs dst) = addrs dst) as Htd by (apply take_ge; lia).
  assert (length (rest_addrs src off) = (length (addrs src) - Z.to_nat off)%nat) as Hlr by (unfold rest_addrs; apply length_drop).
  destruct (zip_loop_spec (length src' + length dst + 1) src' off' dst 0 total h) as (h' & Hz & Hc); try done.
  - split; [lia|]. destruct dst; auto.
  - rewrite <- Hr, Hlr. lia.
  - rewrite Hd0. lia.
  - by rewrite Hd0, Htd.
  - rewrite <- Hr, Hd0, Htd. intros x Hx. apply Hdis. unfold rest_addrs in Hx.
    apply elem_of_take in Hx as (i & Hx & _). rewrite lookup_drop in Hx. by eapply list_elem_of_lookup_2.
  - by right.
  - rewrite <- Hr, Hd0, Htd in Hc. exists h'. split; [done|]. split; [|apply Hc].
    assert (length (take (Z.to_nat total) (rest_addrs src off)) = length (addrs dst)) as Hl by (rewrite length_take; lia).
    apply (inj (fmap Some)). rewrite fmap_take, fmap_drop, (segs_contents_addrs h src Hs), <- fmap_drop, <- fmap_take.
    change (drop (Z.to_nat off) (addrs src)) with (rest_addrs src off).
    rewrite <- (copied_bytes _ _ _ _ Hc Hl). apply segs_contents_addrs. eapply Forall_impl; [exact Hd|].
    intros s. apply seg_ok_dom. eapply (copied_dom _ _ _ _ Hc); [done| |]; apply Forall_forall; intros x Hx.
    + assert (x ∈ addrs src) as (s0 & Hx0%elem_of_seqZ & Hin)%list_elem_of_bind.
      { unfold rest_addrs in Hx. apply elem_of_take in Hx as (i & Hx & _). rewrite lookup_drop in Hx. by eapply list_elem_of_lookup_2. }
      rewrite Forall_forall in Hs. destruct (Hs _ Hin) as (_ & _ & _ & Hm). apply Hm. lia.
    + apply list_elem_of_bind in Hx as (s0 & Hx0%elem_of_seqZ & Hin). rewrite Forall_forall in Hd.
      destruct (Hd _ Hin) as (_ & _ & _ & Hm). apply Hm. lia.
Qed.

(** ** An example *)

#[local] Instance zc_profile : BuildProfile := true.

(** Bytes 10..17, copied from three segments (one empty) to two. *)
Definition zc_heap : heap := list_to_map (zip (seqZ 0 16) (seqZ 10 16)).
Definition zc_src : list Seg := [(0, 3); (9, 0); (3, 5)].
Definition zc_dst : list Seg := [(10, 1); (12, 3)].

Lemma zc_ok s : s ∈ zc_src ++ zc_dst → seg_ok zc_heap s.
Proof.
  intros Hin. assert (bool_decide (Forall (λ s, 0 <= s.1 <= U64_MAX ∧ 0 <= s.2 <= U64_MAX ∧ s.1 + s.2 <= 2 ^ 64 ∧ mapped zc_heap s.1 s.2)
    (zc_src ++ zc_dst)) = true) as Hb by (vm_compute; reflexivity).
  apply bool_decide_eq_true in Hb. rewrite Forall_forall in Hb. by apply Hb.
Qed.

Example zip_copy_example :
  ∃ h', zip_copy host_copy zc_src 2 zc_dst 4 zc_heap = Ret (h', Ok tt) ∧ segs_contents h' zc_dst = [12; 13; 14; 15].
Proof.
  destruct (zip_copy_correct zc_heap zc_src 2 zc_dst 4) as (h' & Hz & Hc & _).
  - apply Forall_forall. intros s Hs. apply zc_ok, elem_of_app. by left.
  - apply Forall_forall. intros s Hs. apply zc_ok, elem_of_app. by right.
  - unfold U64_MAX. lia.
  - unfold U64_MAX. lia.
  - vm_compute. discriminate.
  - reflexivity.
  - apply (bool_decide_unpack _). vm_compute. exact I.
  - intros x Hx Hx'. assert (bool_decide (Forall (λ x, x ∉ addrs zc_dst) (addrs zc_src)) = true) as Hb by (vm_compute; reflexivity).
    apply bool_decide_eq_true in Hb. rewrite Forall_forall in Hb. exact (Hb x Hx Hx').
  - exists h'. split; [exact Hz|]. rewrite Hc. vm_compute. reflexivity.
Qed.
