(* ===== verification/Local.v ===== *)
(** * The CUDA backend: [pegastore-cuda/src/local.rs]

    Pinned DRAM pools hold the replicas; GPUs are copy endpoints.  The metadata
    lock is released between the phases of [put] and [get], so each critical
    section is a definition of its own and the methods are their composition;
    [LocalSteps] interleaves the sections of concurrent callers.

    Replica bytes are behind an [Arc]: the store of reference counts is part of
    the state, and dropping the last reference returns the buffer to its pool.
    The CUDA driver is a parameter: what it answers to an asynchronous copy and
    to a stream synchronisation.  A copy it accepted but that was not
    synchronised is still pending on the stream. *)

From S2P Require Import Prelude HostMem Types Region Memory MemoryCopy Pinned Text Numa Topology Cuda LocalCopy.

(** ** State *)

(** [ReplicaData]; a [PinnedBuf] knows its pool. *)
Inductive LocalData : Type :=
| PinnedData (numa : u16) (b : PinnedBuf)
| ExternalData (segs : list Seg) (region_id : u64).

(** An [Arc] is the number of its allocation. *)
Abbreviation arc := nat (only parsing).

Record LocalReplica : Type := mkLocalReplica {
  lr_device : Device;
  lr_tier : Tier;
  lr_misplaced : bool;
  lr_data : arc;
}.

Record LocalSlot : Type := mkLocalSlot {
  sl_replicas : list LocalReplica;
  sl_writing : bool;
}.

Record LocalObject : Type := mkLocalObject {
  lo_spec : ObjectSpec;
  lo_slots : list LocalSlot;
}.

(** [PinnedPool]: its mapping and free list. *)
Record LocalPool : Type := mkLocalPool {
  lp_numa : u16;
  lp_registered : bool;
  lp_base : u64;
  lp_len : usize;
  lp_free : list frag;
}.

(** [State], the pools, and the [Arc]s with their strong counts. *)
Record LocalState : Type := mkLocalState {
  ls_objects : gmap bytes LocalObject;
  ls_fifo : gmap Device (list (bytes * u32));
  ls_pools : gmap u16 LocalPool;
  ls_arcs : gmap arc (LocalData * nat);
  ls_next : arc;
}.

(** The immutable part of [Inner]. *)
Record LocalInner : Type := mkLocalInner {
  li_info : AccessInfo;
  li_topo : Topology;
  li_gpus : list CudaGpu;
}.

Definition set_objects (o : gmap bytes LocalObject) (st : LocalState) : LocalState :=
  mkLocalState o (ls_fifo st) (ls_pools st) (ls_arcs st) (ls_next st).
Definition set_fifo (f : gmap Device (list (bytes * u32))) (st : LocalState) : LocalState :=
  mkLocalState (ls_objects st) f (ls_pools st) (ls_arcs st) (ls_next st).
Definition set_pools (p : gmap u16 LocalPool) (st : LocalState) : LocalState :=
  mkLocalState (ls_objects st) (ls_fifo st) p (ls_arcs st) (ls_next st).
Definition set_arcs (a : gmap arc (LocalData * nat)) (st : LocalState) : LocalState :=
  mkLocalState (ls_objects st) (ls_fifo st) (ls_pools st) a (ls_next st).

Definition set_free (p : LocalPool) (free : list frag) : LocalPool := mkLocalPool (lp_numa p) (lp_registered p) (lp_base p) (lp_len p) free.

(** ** Buffers *)

(** [PinnedBuf::as_ptr]. *)
Definition buf_addr (p : LocalPool) (b : PinnedBuf) : u64 := wrapping_add (lp_base p) (buf_off b).

(** [ReplicaData::segs]. *)
Definition data_segs (pools : gmap u16 LocalPool) (d : LocalData) : outcome (list Seg) :=
  match d with
  | PinnedData numa b => p ← deref (pools !! numa); Ret [(buf_addr p b, buf_len b)]
  | ExternalData segs _ => Ret segs
  end.

Section Sections.
Context `{BuildProfile}.

(** [PinnedPool::alloc] on the pool of a node. *)
Definition pool_alloc (numa : u16) (len : usize) (st : LocalState) : outcome (LocalState * option PinnedBuf) :=
  p ← deref (ls_pools st !! numa);
  r ← alloc (lp_free p) len;
  match r with
  | None => Ret (st, None)
  | Some (free, b) => Ret (set_pools (<[numa := set_free p free]> (ls_pools st)) st, Some b)
  end.

(** [Drop for PinnedBuf]. *)
Definition pool_release (numa : u16) (b : PinnedBuf) (st : LocalState) : outcome LocalState :=
  p ← deref (ls_pools st !! numa);
  free ← drop_buf (lp_free p) b;
  Ret (set_pools (<[numa := set_free p free]> (ls_pools st)) st).

(** [Arc::new], [Arc::clone], [Drop for Arc]. *)
Definition arc_new (d : LocalData) (st : LocalState) : arc * LocalState :=
  (ls_next st, mkLocalState (ls_objects st) (ls_fifo st) (ls_pools st)
                 (<[ls_next st := (d, 1%nat)]> (ls_arcs st)) (S (ls_next st))).

Definition arc_clone (a : arc) (st : LocalState) : outcome LocalState :=
  '(d, n) ← deref (ls_arcs st !! a);
  Ret (set_arcs (<[a := (d, S n)]> (ls_arcs st)) st).

Definition arc_drop (a : arc) (st : LocalState) : outcome LocalState :=
  '(d, n) ← deref (ls_arcs st !! a);
  match n with
  | S (S n) => Ret (set_arcs (<[a := (d, S n)]> (ls_arcs st)) st)
  | _ =>
      let st := set_arcs (delete a (ls_arcs st)) st in
      match d with
      | PinnedData numa b => pool_release numa b st
      | ExternalData _ _ => Ret st
      end
  end.

Definition drop_replicas (rs : list LocalReplica) (st : LocalState) : outcome LocalState :=
  mfoldl (λ st r, arc_drop (lr_data r) st) st rs.

(** Dropping a whole object. *)
Definition object_replicas (obj : LocalObject) : list LocalReplica := mjoin (sl_replicas <$> lo_slots obj).

Definition local_remove_key (st : LocalState) (k : bytes) : outcome LocalState :=
  match ls_objects st !! k with
  | Some obj => drop_replicas (object_replicas obj) (set_objects (delete k (ls_objects st)) st)
  | None => Ret st
  end.

(** ** [impl Inner] *)

(** [matches!(&*r.data, ReplicaData::Pinned(_))]. *)
Definition is_pinned (arcs : gmap arc (LocalData * nat)) (r : LocalReplica) : bool :=
  match arcs !! lr_data r with Some (PinnedData _ _, _) => true | _ => false end.

Definition from_region (arcs : gmap arc (LocalData * nat)) (id : u64) (r : LocalReplica) : bool :=
  match arcs !! lr_data r with Some (ExternalData _ id', _) => id' =? id | _ => false end.

Definition retain (p : LocalReplica → bool) (s : LocalSlot) : LocalSlot :=
  mkLocalSlot (List.filter p (sl_replicas s)) (sl_writing s).

Definition local_retire_region (st : LocalState) (id : u64) : outcome LocalState :=
  let gone := from_region (ls_arcs st) id in
  let keep := λ r, negb (gone r) in
  let objects := (λ obj, mkLocalObject (lo_spec obj) (retain keep <$> lo_slots obj)) <$> ls_objects st in
  let dropped := mjoin ((λ kv, List.filter gone (object_replicas kv.2)) <$> map_to_list (ls_objects st)) in
  drop_replicas dropped (set_objects objects st).

(** [obj.slots.iter().all(|s| s.replicas.is_empty() && !s.writing)]. *)
Definition reclaimable (obj : LocalObject) : bool :=
  forallb (λ s, match sl_replicas s with [] => negb (sl_writing s) | _ => false end) (lo_slots obj).

(** The [while] of [alloc_or_evict]: pop until something was evicted.  Result:
    state, rest of the queue, deferred entries, [evicted_any]. *)
Fixpoint evict_loop (device : Device) (protect : bytes) (fifo deferred : list (bytes * u32)) (st : LocalState)
    : outcome (LocalState * list (bytes * u32) * list (bytes * u32) * bool) :=
  match fifo with
  | [] => Ret (st, [], deferred, false)
  | (key, idx) :: fifo =>
      if decide (key = protect) then evict_loop device protect fifo (deferred ++ [(key, idx)]) st else
      match ls_objects st !! key with
      | None => evict_loop device protect fifo deferred st
      | Some obj =>
          if decide (spec_retention (lo_spec obj) ≠ Cache) then evict_loop device protect fifo deferred st else
          slot ← unwrap (lo_slots obj !! Z.to_nat idx);
          let gone := λ r, bool_decide (lr_device r = device) && is_pinned (ls_arcs st) r in
          let dropped := List.filter gone (sl_replicas slot) in
          let obj := mkLocalObject (lo_spec obj) (<[Z.to_nat idx := retain (λ r, negb (gone r)) slot]> (lo_slots obj)) in
          let objects := if reclaimable obj then delete key (ls_objects st) else <[key := obj]> (ls_objects st) in
          st ← drop_replicas dropped (set_objects objects st);
          match dropped with
          | [] => evict_loop device protect fifo deferred st
          | _ => Ret (st, fifo, deferred, true)
          end
      end
  end.

(** One locked section of [alloc_or_evict]. *)
Definition evict_section (device : Device) (protect : bytes) (st : LocalState) : outcome (LocalState * bool) :=
  q ← unwrap (ls_fifo st !! device);
  '(st, rest, deferred, evicted_any) ← evict_loop device protect q [] st;
  Ret (set_fifo (<[device := deferred ++ rest]> (ls_fifo st)) st, evicted_any).

Definition no_space (numa : u16) (len : usize) : Error :=
  with_context (with_context (Error_new NoSpace "pool cannot fit slot") "device" (CDevice (Cpu numa))) "len" (CInt len).

Definition no_pool (d : Device) : Error :=
  with_context (Error_new InvalidInput "no pool on device") "device" (CDevice d).

(** The [loop] of [alloc_or_evict].  Each turn that does not return evicts a
    queued replica, so one more turn than there are queue entries is enough
    ([alloc_loop_returns]). *)
Fixpoint alloc_loop (fuel : nat) (numa : u16) (len : usize) (protect : bytes) (st : LocalState)
    : outcome (LocalState * Result PinnedBuf) :=
  match fuel with
  | O => Panicked
  | S fuel =>
      '(st, evicted_any) ← evict_section (Cpu numa) protect st;
      '(st, b) ← pool_alloc numa len st;
      match b with
      | Some b => Ret (st, Ok b)
      | None => if evicted_any : bool then alloc_loop fuel numa len protect st else Ret (st, Err (no_space numa len))
      end
  end.

Definition fifo_len (device : Device) (st : LocalState) : nat := length (default [] (ls_fifo st !! device)).

Definition alloc_or_evict (numa : u16) (len : usize) (protect : bytes) (st : LocalState)
    : outcome (LocalState * Result PinnedBuf) :=
  match ls_pools st !! numa with
  | None => Ret (st, Err (no_pool (Cpu numa)))
  | Some pool =>
      '(st, b) ← pool_alloc numa len st;
      match b with
      | Some b => Ret (st, Ok b)
      | None =>
          if lp_len pool <? len then Ret (st, Err (no_space numa len))
          else alloc_loop (S (fifo_len (Cpu numa) st)) numa len protect st
      end
  end.
End Sections.

(** ** Copies *)

(** A copy accepted by a stream: source, destination, length. *)
Abbreviation chunk := (u64 * u64 * u64)%type.

(** The stream operations of one call of [Inner::copy]: enqueue a copy of some
    bytes from a source to a destination, and wait for all of them. *)
Record Engine : Type := mkEngine {
  en_enqueue : u64 → u64 → u64 → Result unit;
  en_sync : Result unit;
}.

Definition enqueue (en : Engine) (q : list chunk) (s d n : u64) : outcome (list chunk * Result unit) :=
  match en_enqueue en s d n with
  | Ok _ => Ret (q ++ [(s, d, n)], Ok tt)
  | Err e => Ret (q, Err e)
  end.

(** The stream runs its copies in order. *)
Definition run_chunk (h : heap) (c : chunk) : outcome heap :=
  '(h, _) ← host_copy h c.1.1 c.1.2 c.2; Ret h.

Definition gpu_not_served (index : u16) : Error :=
  with_context (Error_new InvalidInput "gpu not served") "gpu" (CInt index).

(** [Inner::gpu]. *)
Definition gpu (inner : LocalInner) (index : u16) : Result CudaGpu :=
  ok_or (gpus_get (li_gpus inner) index) (gpu_not_served index).

(** The closures of [Inner::copy] when a GPU is involved. *)
Definition engine (inner : LocalInner) (sys : CudaSys) (src_dev dst_dev : Device) : Result Engine :=
  match src_dev, dst_dev with
  | Cpu _, Cpu _ => Ok (mkEngine (λ _ _ _, Ok tt) (Ok tt))
  | Cpu _, Gpu index =>
      g ← gpu inner index;
      Ok (mkEngine (λ s d n, h2d_async sys d s n (gpu_stream g)) (sync sys (gpu_stream g)))
  | Gpu index, Cpu _ =>
      g ← gpu inner index;
      Ok (mkEngine (λ s d n, d2h_async sys d s n (gpu_stream g)) (sync sys (gpu_stream g)))
  | Gpu si, Gpu di =>
      sg ← gpu inner si;
      dg ← gpu inner di;
      Ok (mkEngine (λ s d n, peer_async sys d (gpu_ctx dg) s (gpu_ctx sg) n (gpu_stream dg)) (sync sys (gpu_stream dg)))
  end.

(** A buffer placed on a node. *)
Abbreviation placed_buf := (u16 * bool * PinnedBuf)%type.

Section Copy.
Context `{BuildProfile}.

(** [Inner::copy]: the heap after it, and what is left pending on the stream
    when it fails. *)
Definition copy (inner : LocalInner) (dr : CudaSys) (src_dev : Device) (src : list Seg) (src_offset : u64)
    (dst_dev : Device) (dst : list Seg) (total : u64) (h : heap) : outcome (heap * list chunk * Result unit) :=
  match src_dev, dst_dev with
  | Cpu _, Cpu _ =>
      '(h, r) ← zip_copy host_copy src src_offset dst total h;
      Ret (h, [], r)
  | _, _ =>
      match engine inner dr src_dev dst_dev with
      | Err e => Ret (h, [], Err e)
      | Ok en =>
          '(q, r) ← zip_copy (enqueue en) src src_offset dst total [];
          match r with
          | Err e => Ret (h, q, Err e)
          | Ok _ =>
              match en_sync en with
              | Err e => Ret (h, q, Err e)
              | Ok _ => h ← mfoldl run_chunk h q; Ret (h, [], Ok tt)
              end
          end
      end
  end.

(** ** [put] *)

(** Phase 1: reserve the key and claim the writable slots. *)
Definition claim_slot (s : LocalSlot) : LocalSlot * bool :=
  match sl_replicas s with
  | [] => if sl_writing s then (s, false) else (mkLocalSlot [] true, true)
  | _ => (s, false)
  end.

Definition claim (key : bytes) (spec : ObjectSpec) (st : LocalState) : Result (LocalState * list bool) :=
  let go (obj : LocalObject) :=
    let slots := claim_slot <$> lo_slots obj in
    (set_objects (<[key := mkLocalObject (lo_spec obj) (slots.*1)]> (ls_objects st)) st, slots.*2) in
  match ls_objects st !! key with
  | Some obj =>
      if decide (lo_spec obj ≠ spec)
      then Err (with_context (Error_new SpecMismatch "existing object has a different spec") "key" (CKey key))
      else Ok (go obj)
  | None => Ok (go (mkLocalObject spec (replicate (length (spec_slots spec)) (mkLocalSlot [] false))))
  end.

(** The claim of a slot is given up after an error. *)
Definition unclaim (key : bytes) (i : nat) (st : LocalState) : outcome LocalState :=
  match ls_objects st !! key with
  | None => Ret st
  | Some obj =>
      slot ← unwrap (lo_slots obj !! i);
      Ret (set_objects (<[key := mkLocalObject (lo_spec obj)
                                   (<[i := mkLocalSlot (sl_replicas slot) false]> (lo_slots obj))]> (ls_objects st)) st)
  end.

(** The closure [numa_of]. *)
Definition numa_of (pools : gmap u16 LocalPool) (d : Device) : Result u16 :=
  match d with
  | Cpu numa => if bool_decide (is_Some (pools !! numa)) then Ok numa else Err (no_pool d)
  | Gpu _ => Err (with_context (Error_new InvalidInput "GPU memory is not a store tier; use publish") "device" (CDevice d))
  end.

Fixpoint numas_of (pools : gmap u16 LocalPool) (ds : list Device) : Result (list (u16 * bool)) :=
  match ds with
  | [] => Ok []
  | d :: ds => n ← numa_of pools d; rest ← numas_of pools ds; Ok ((n, false) :: rest)
  end.

Definition pool_order (pools : gmap u16 LocalPool) : list u16 := merge_sort Z.le ((map_to_list pools).*1).

(** The placement as (node, misplaced) targets. *)
Definition placement_targets (pools : gmap u16 LocalPool) (p : Placement) : Result (list (u16 * bool)) :=
  match p with
  | Strict d => n ← numa_of pools d; Ok [(n, false)]
  | Each ds => numas_of pools ds
  | Prefer d =>
      n ← numa_of pools d;
      Ok ((n, false) :: ((λ x, (x, true)) <$> List.filter (λ x, negb (x =? n)) (pool_order pools)))
  | Anywhere => Ok ((λ n, (n, false)) <$> pool_order pools)
  end.

(** The allocation loop over the targets. *)
Fixpoint place_slot (each : bool) (len : usize) (key : bytes) (ts : list (u16 * bool)) (placed : list placed_buf)
    (last_err : option Error) (st : LocalState) : outcome (LocalState * list placed_buf * option Error) :=
  match ts with
  | [] => Ret (st, placed, last_err)
  | (numa, misplaced) :: ts =>
      '(st, r) ← alloc_or_evict numa len key st;
      match r with
      | Ok b =>
          let placed := placed ++ [(numa, misplaced, b)] in
          if each then place_slot each len key ts placed last_err st else Ret (st, placed, last_err)
      | Err e => if each then Ret (st, placed, Some e) else place_slot each len key ts placed (Some e) st
      end
  end.

(** Dropping the buffers of a put that failed. *)
Definition drop_placed (placed : list placed_buf) (st : LocalState) : outcome LocalState :=
  mfoldl (λ st x, pool_release x.1.1 x.2 st) st placed.

(** Copying the source into every placed buffer; stops at the first error. *)
Fixpoint copy_placed (inner : LocalInner) (dr : CudaSys) (src_dev : Device) (src : list Seg) (len : u64)
    (pools : gmap u16 LocalPool) (placed : list placed_buf) (h : heap) : outcome (heap * list chunk * Result unit) :=
  match placed with
  | [] => Ret (h, [], Ok tt)
  | (numa, _, b) :: placed =>
      p ← deref (pools !! numa);
      '(h, q, r) ← copy inner dr src_dev src 0 (Cpu numa) [(buf_addr p b, len)] len h;
      match r with
      | Err e => Ret (h, q, Err e)
      | Ok _ => copy_placed inner dr src_dev src len pools placed h
      end
  end.

(** Phase 3: the replicas become visible. *)
Fixpoint push_replicas (placed : list placed_buf) (st : LocalState) : list LocalReplica * LocalState :=
  match placed with
  | [] => ([], st)
  | (numa, misplaced, b) :: placed =>
      let '(a, st) := arc_new (PinnedData numa b) st in
      let '(rs, st) := push_replicas placed st in
      (mkLocalReplica (Cpu numa) Dram misplaced a :: rs, st)
  end.

Definition push_fifo (e : bytes * u32) (f : gmap Device (list (bytes * u32))) (x : placed_buf)
    : outcome (gmap Device (list (bytes * u32))) :=
  q ← unwrap (f !! Cpu x.1.1); Ret (<[Cpu x.1.1 := q ++ [e]]> f).

Definition publish_placed (key : bytes) (i : nat) (placed : list placed_buf) (st : LocalState)
    : outcome (LocalState * Result unit) :=
  match ls_objects st !! key with
  | None =>
      st ← drop_placed placed st;
      Ret (st, Err (Error_new NotFound "object removed during put"))
  | Some obj =>
      slot ← unwrap (lo_slots obj !! i);
      let '(rs, st) := push_replicas placed st in
      let slots := <[i := mkLocalSlot (sl_replicas slot ++ rs) false]> (lo_slots obj) in
      let st := set_objects (<[key := mkLocalObject (lo_spec obj) slots]> (ls_objects st)) st in
      f ← mfoldl (push_fifo (key, Z.of_nat i mod 2 ^ 32)) (ls_fifo st) placed;
      Ret (set_fifo f st, Ok tt)
  end.

(** The memory and what is pending on the streams. *)
Record LocalWorld : Type := mkLocalWorld {
  w_heap : heap;
  w_pending : list chunk;
}.

Definition src_device (ps : PutSlot) : outcome Device :=
  v ← unwrap (ps_src ps !! 0%nat); Ret (iov_device v).

(** [Local::put_slot], run without interruption. *)
Definition local_put_slot (inner : LocalInner) (dr : CudaSys) (key : bytes) (i : nat) (ps : PutSlot)
    (w : LocalWorld) (st : LocalState) : outcome (LocalWorld * LocalState * Result unit) :=
  let len := spec_len (ps_spec ps) in
  src_dev ← src_device ps;
  match placement_targets (ls_pools st) (spec_placement (ps_spec ps)) with
  | Err e => Ret (w, st, Err e)
  | Ok ts =>
      let each := is_each (spec_placement (ps_spec ps)) in
      '(st, placed, last_err) ← place_slot each len key ts [] None st;
      if bool_decide (placed = []) || (each && bool_decide (is_Some last_err)) then
        st ← drop_placed placed st;
        Ret (w, st, Err (default (Error_new NoSpace "no device available") last_err))
      else
        '(h, q, r) ← copy_placed inner dr src_dev (iov_segs (ps_src ps)) len (ls_pools st) placed (w_heap w);
        let w := mkLocalWorld h (w_pending w ++ q) in
        match r with
        | Err e => st ← drop_placed placed st; Ret (w, st, Err e)
        | Ok _ => '(st, r) ← publish_placed key i placed st; Ret (w, st, r)
        end
  end.

(** Phase 2: slot by slot. *)
Fixpoint local_put_slots (inner : LocalInner) (dr : CudaSys) (key : bytes) (writable : list bool) (i : nat)
    (slots : list PutSlot) (results : RpPut) (w : LocalWorld) (st : LocalState) : outcome (LocalWorld * LocalState * RpPut) :=
  match slots with
  | [] => Ret (w, st, results)
  | ps :: slots =>
      b ← unwrap (writable !! i);
      if negb b then
        local_put_slots inner dr key writable (S i) slots
          (results ++ [Err (with_context (Error_new AlreadyExists "slot already written") "slot" (CInt (Z.of_nat i)))]) w st
      else
        '(w, st, r) ← local_put_slot inner dr key i ps w st;
        st ← (if is_ok r then Ret st else unclaim key i st);
        local_put_slots inner dr key writable (S i) slots
          (results ++ [map_err (λ e, with_context e "slot" (CInt (Z.of_nat i))) r]) w st
  end.

Definition local_put (inner : LocalInner) (dr : CudaSys) (key : bytes) (op : OpPut) (w : LocalWorld) (st : LocalState)
    : outcome (LocalWorld * LocalState * Result RpPut) :=
  match OpPut_validate op with
  | Err e => Ret (w, st, Err e)
  | Ok _ =>
      match claim key (OpPut_spec op) st with
      | Err e => Ret (w, st, Err e)
      | Ok (st, writable) =>
          '(w, st, rs) ← local_put_slots inner dr key writable 0 (op_slots op) [] w st;
          Ret (w, st, Ok rs)
      end
  end.

(** ** The other operations *)

(** [RegionGuard]: what a region remembers for its drop. *)
Record RegionGuard : Type := mkRegionGuard {
  rg_id : u64;
  rg_host_registered : option usize;
}.

(** [register]: a GPU must be served; host memory is pinned if the driver agrees. *)
Definition local_register (inner : LocalInner) (dr : CudaSys) (counter : u64) (ptr : usize) (len : u64) (d : Device)
    : Result (MemoryRegion * RegionGuard) * u64 :=
  let '(id, counter) := next_id counter in
  match d with
  | Gpu index =>
      match gpu inner index with
      | Err e => (Err e, counter)
      | Ok _ => (Ok (with_id id ptr len d, mkRegionGuard id None), counter)
      end
  | Cpu _ =>
      let host_registered := if host_register dr ptr len then Some ptr else None in
      (Ok (with_id id ptr len d, mkRegionGuard id host_registered), counter)
  end.

(** [Drop for RegionGuard] while the backend is alive: the state after it, and the
    address handed to [host_unregister]. *)
Definition drop_guard (g : RegionGuard) (st : LocalState) : outcome (LocalState * option usize) :=
  st ← local_retire_region st (rg_id g);
  Ret (st, rg_host_registered g).

Definition local_publish (key : bytes) (op : OpPublish) (st : LocalState) : outcome (LocalState * Result unit) :=
  match OpPublish_validate op with
  | Err e => Ret (st, Err e)
  | Ok (device, total) =>
      match ls_objects st !! key with
      | None => Ret (st, Err (no_such_key key))
      | Some obj =>
          let idx := Z.to_nat (pub_slot op) in
          match spec_slots (lo_spec obj) !! idx with
          | None => Ret (st, Err (slot_out_of_range (pub_slot op)))
          | Some spec =>
              if decide (spec_len spec ≠ total) then
                Ret (st, Err (with_context (with_context
                  (Error_new InvalidInput "published length differs from slot length") "len" (CInt total))
                  "expected" (CInt (spec_len spec))))
              else
                slot ← unwrap (lo_slots obj !! idx);
                first ← unwrap (pub_src op !! 0%nat);
                let '(a, st) := arc_new (ExternalData (iov_segs (pub_src op)) (region_id (iov_region first))) st in
                let r := mkLocalReplica device External false a in
                let slots := <[idx := mkLocalSlot (sl_replicas slot ++ [r]) (sl_writing slot)]> (lo_slots obj) in
                Ret (set_objects (<[key := mkLocalObject (lo_spec obj) slots]> (ls_objects st)) st, Ok tt)
          end
      end
  end.

Definition local_location (inner : LocalInner) (d : Device) (t : Tier) : Location :=
  mkLocation (ai_node (li_info inner)) d t.

Definition local_object_info (inner : LocalInner) (obj : LocalObject) : ObjectInfo :=
  mkObjectInfo (spec_retention (lo_spec obj))
    (zip_with (λ s spec, mkSlotInfo (spec_len spec)
       ((λ r, mkReplica (local_location inner (lr_device r) (lr_tier r)) (lr_misplaced r)) <$> sl_replicas s))
       (lo_slots obj) (spec_slots (lo_spec obj))).

Definition local_stat (inner : LocalInner) (st : LocalState) (keys : list bytes) : list (option ObjectInfo) :=
  (λ k, local_object_info inner <$> ls_objects st !! k) <$> keys.

Definition local_source_key (inner : LocalInner) (dst : Device) (r : LocalReplica) : u32 * u8 :=
  (Topology.distance (li_topo inner) dst (lr_device r), tier_rank (lr_tier r)).

Definition local_nearest (inner : LocalInner) (dst : Device) (rs : list LocalReplica) : option LocalReplica :=
  min_by (λ r best, key_ltb (local_source_key inner dst r) (local_source_key inner dst best)) rs.

(** The locked section of [get]: the replica, cloned, and the slot length. *)
Definition lookup_replica (inner : LocalInner) (key : bytes) (op : OpGet) (dst_device : Device) (st : LocalState)
    : outcome (LocalState * Result (LocalReplica * u64)) :=
  match ls_objects st !! key with
  | None => Ret (st, Err (no_such_key key))
  | Some obj =>
      let idx := Z.to_nat (get_slot op) in
      match spec_slots (lo_spec obj) !! idx with
      | None => Ret (st, Err (slot_out_of_range (get_slot op)))
      | Some spec =>
          slot ← unwrap (lo_slots obj !! idx);
          match local_nearest inner dst_device (sl_replicas slot) with
          | None =>
              Ret (st, Err (with_context (with_context (Error_new Evicted "slot has no replica") "key" (CKey key))
                              "slot" (CInt (get_slot op))))
          | Some r => st ← arc_clone (lr_data r) st; Ret (st, Ok (r, spec_len spec))
          end
      end
  end.

(** The copy of [get], with the lock released. *)
Definition get_copy (inner : LocalInner) (dr : CudaSys) (r : LocalReplica) (op : OpGet) (dst_device : Device) (dst_len : u64)
    (w : LocalWorld) (st : LocalState) : outcome (LocalWorld * Result RpGet) :=
  '(d, _) ← deref (ls_arcs st !! lr_data r);
  segs ← data_segs (ls_pools st) d;
  '(h, q, res) ← copy inner dr (lr_device r) segs (get_src_offset op) dst_device (iov_segs (get_dst op)) dst_len (w_heap w);
  let w := mkLocalWorld h (w_pending w ++ q) in
  match res with
  | Err e => Ret (w, Err e)
  | Ok _ => Ret (w, Ok (mkRpGet (local_location inner (lr_device r) (lr_tier r))))
  end.

Definition local_range_exceeds (op : OpGet) (dst_len slot_len : u64) : Error :=
  with_context (with_context (with_context (Error_new InvalidInput "read range exceeds slot")
    "src_offset" (CInt (get_src_offset op))) "len" (CInt dst_len)) "slot_len" (CInt slot_len).

Definition range_ok (op : OpGet) (dst_len slot_len : u64) : bool :=
  match checked_add (get_src_offset op) dst_len with Some e => e <=? slot_len | None => false end.

Definition local_get (inner : LocalInner) (dr : CudaSys) (key : bytes) (op : OpGet) (w : LocalWorld) (st : LocalState)
    : outcome (LocalWorld * LocalState * Result RpGet) :=
  match OpGet_validate op with
  | Err e => Ret (w, st, Err e)
  | Ok (dst_device, dst_len) =>
      '(st, r) ← lookup_replica inner key op dst_device st;
      match r with
      | Err e => Ret (w, st, Err e)
      | Ok (replica, slot_len) =>
          if negb (range_ok op dst_len slot_len) then
            st ← arc_drop (lr_data replica) st;
            Ret (w, st, Err (local_range_exceeds op dst_len slot_len))
          else
            '(w, res) ← get_copy inner dr replica op dst_device dst_len w st;
            st ← arc_drop (lr_data replica) st;
            Ret (w, st, res)
      end
  end.

Definition local_remove (st : LocalState) (keys : list bytes) : outcome LocalState := mfoldl local_remove_key st keys.

(** The keys in order, and the range scan of [remove_prefix]. *)
Definition local_prefix_keys (st : LocalState) (prefix : bytes) : list bytes :=
  take_while (starts_with prefix)
    (List.filter (bytes_leb prefix) (merge_sort (λ a b, Is_true (bytes_leb a b)) ((map_to_list (ls_objects st)).*1))).

Definition local_remove_prefix (st : LocalState) (prefix : bytes) : outcome (LocalState * u64) :=
  let keys := local_prefix_keys st prefix in
  st ← mfoldl local_remove_key st keys;
  Ret (st, Z.of_nat (length keys)).
End Copy.
