(* ===== verification/LocalInv.v ===== *)
(** * The CUDA backend: ownership of pinned buffers

    A pinned buffer is owned by a put that has not published it yet, or by the
    [Arc] of a published replica.  [local_ok held refs st] relates the state to
    the buffers [held] by puts under way and the references [refs] held by gets
    under way: every pool's free list complements exactly the owned buffers, and
    every strong count is the number of references.  Every critical section
    keeps it. *)

From S2P Require Import Prelude HostMem Types Region Memory MemoryCopy Pinned Text Numa Topology Cuda LocalCopy Local.

(** ** Counting *)

Definition occ (a : nat) (l : list nat) : nat := length (filter (λ x, x = a) l).

#[global] Instance occ_perm a : Proper ((≡ₚ) ==> eq) (occ a).
Proof. intros l l' Hl. unfold occ. by rewrite Hl. Qed.

Lemma occ_app a l l' : occ a (l ++ l') = (occ a l + occ a l')%nat.
Proof. unfold occ. by rewrite filter_app, length_app. Qed.

Lemma occ_cons a b l : occ a (b :: l) = ((if decide (b = a) then 1 else 0) + occ a l)%nat.
Proof. unfold occ. rewrite filter_cons. by case_decide. Qed.

Lemma occ_pos a l : (0 < occ a l)%nat ↔ a ∈ l.
Proof.
  induction l as [|b l IH]; [split; [cbv; lia|by intros ?%elem_of_nil]|]. rewrite occ_cons, elem_of_cons, <- IH.
  case_decide; [subst; split; [auto|lia]|]. split; [right; lia|]. intros [?|?]; [congruence|lia].
Qed.

(** ** Pools and permutations *)

Lemma FOP_perm {A} (R : A → A → Prop) l l' : (∀ x y, R x y → R y x) → l ≡ₚ l' → ForallOrdPairs R l → ForallOrdPairs R l'.
Proof.
  intros Hsym Hp. induction Hp as [|x l l' Hp IH|x y l|l1 l2 l3 _ IH1 _ IH2]; intros Hf; [done|..|auto].
  - inversion Hf; subst. constructor; [by rewrite <- Hp|auto].
  - inversion Hf as [|? ? Hx Hf1]; subst. inversion Hf1; subst. apply Forall_cons in Hx as [? ?].
    constructor; [constructor; auto|]. by constructor.
Qed.

Lemma pool_ok_perm total free out out' : out ≡ₚ out' → pool_ok total free out → pool_ok total free out'.
Proof.
  intros Hp [Ht Hg He Ho Hd Ha Hs Hal]. constructor; [done|done|done|by rewrite <- Hp|..].
  - eapply FOP_perm; [|by apply fmap_Permutation|exact Hd]. unfold frags_disjoint. tauto.
  - intros f b Hf Hb. apply Ha; [done|]. by rewrite Hp.
  - rewrite <- Hs. f_equal. clear -Hp. induction Hp; csimpl; rewrite ?zsum_cons in *; lia.
  - by rewrite <- Hp.
Qed.

(** ** Owned buffers and references *)

Abbreviation node_buf := (u16 * PinnedBuf)%type.

Definition data_buf (d : LocalData) : list node_buf :=
  match d with PinnedData numa b => [(numa, b)] | ExternalData _ _ => [] end.

(** The buffers owned by live [Arc]s. *)
Definition arc_bufs (arcs : gmap nat (LocalData * nat)) : list node_buf := map_to_list arcs ≫= λ x, data_buf x.2.1.

Definition on_node (numa : u16) (l : list node_buf) : list PinnedBuf := (filter (λ x, x.1 = numa) l).*2.

#[global] Instance on_node_perm numa : Proper ((≡ₚ) ==> (≡ₚ)) (on_node numa).
Proof. intros l l' Hl. unfold on_node. by rewrite Hl. Qed.

Lemma on_node_app numa l l' : on_node numa (l ++ l') = on_node numa l ++ on_node numa l'.
Proof. unfold on_node. by rewrite filter_app, fmap_app. Qed.

Lemma on_node_cons_eq numa b l : on_node numa ((numa, b) :: l) = b :: on_node numa l.
Proof. unfold on_node. by rewrite filter_cons_True. Qed.

Lemma on_node_cons_ne numa x l : x.1 ≠ numa → on_node numa (x :: l) = on_node numa l.
Proof. intros. unfold on_node. by rewrite filter_cons_False. Qed.

Lemma elem_of_on_node numa b l : b ∈ on_node numa l ↔ (numa, b) ∈ l.
Proof.
  unfold on_node. rewrite list_elem_of_fmap. setoid_rewrite list_elem_of_filter. split.
  - intros ([n b'] & -> & <- & ?). done.
  - intros ?. by exists (numa, b).
Qed.

(** The references held by the metadata. *)
Definition object_arcs (objs : gmap bytes LocalObject) : list nat :=
  map_to_list objs ≫= λ kv, lr_data <$> object_replicas kv.2.

(** A buffer belongs to a pool and covers its bytes. *)
Definition buf_known (pools : gmap u16 LocalPool) (x : node_buf) : Prop :=
  is_Some (pools !! x.1) ∧ 0 < buf_len x.2 <= buf_reserved x.2.

Record local_ok (held : list node_buf) (refs : list nat) (st : LocalState) : Prop := mkLocalOk {
  lk_pools numa p : ls_pools st !! numa = Some p →
    pool_ok (lp_len p) (lp_free p) (on_node numa (held ++ arc_bufs (ls_arcs st)));
  lk_known x : x ∈ held ++ arc_bufs (ls_arcs st) → buf_known (ls_pools st) x;
  lk_count a d n : ls_arcs st !! a = Some (d, n) → n = occ a (object_arcs (ls_objects st) ++ refs) ∧ (0 < n)%nat;
  lk_live a : a ∈ object_arcs (ls_objects st) ++ refs → is_Some (ls_arcs st !! a);
  lk_fresh a : is_Some (ls_arcs st !! a) → (a < ls_next st)%nat;
}.

Lemma arc_bufs_insert arcs a d n : arcs !! a = None → arc_bufs (<[a := (d, n)]> arcs) ≡ₚ data_buf d ++ arc_bufs arcs.
Proof. intros. unfold arc_bufs. by rewrite map_to_list_insert. Qed.

Lemma arc_bufs_delete arcs a d n : arcs !! a = Some (d, n) → arc_bufs arcs ≡ₚ data_buf d ++ arc_bufs (delete a arcs).
Proof. intros Ha. rewrite <- (insert_delete_id arcs a (d, n) Ha) at 1. apply arc_bufs_insert, lookup_delete_eq. Qed.

Lemma arc_bufs_update arcs a d n m : arcs !! a = Some (d, n) → arc_bufs (<[a := (d, m)]> arcs) ≡ₚ arc_bufs arcs.
Proof.
  intros Ha. rewrite (arc_bufs_delete arcs a d n Ha), <- insert_delete_eq. apply arc_bufs_insert, lookup_delete_eq.
Qed.

Lemma object_arcs_insert objs k o : objs !! k = None →
  object_arcs (<[k := o]> objs) ≡ₚ (lr_data <$> object_replicas o) ++ object_arcs objs.
Proof. intros. unfold object_arcs. by rewrite map_to_list_insert. Qed.

Lemma object_arcs_delete objs k o : objs !! k = Some o →
  object_arcs objs ≡ₚ (lr_data <$> object_replicas o) ++ object_arcs (delete k objs).
Proof. intros Hk. rewrite <- (insert_delete_id objs k o Hk) at 1. apply object_arcs_insert, lookup_delete_eq. Qed.

Lemma object_arcs_update objs k o : object_arcs (<[k := o]> objs) ≡ₚ (lr_data <$> object_replicas o) ++ object_arcs (delete k objs).
Proof. rewrite <- insert_delete_eq. apply object_arcs_insert, lookup_delete_eq. Qed.

(** Only the references count: metadata and readers may pass them to each other. *)
Lemma local_ok_refs held held' refs refs' st st' :
  local_ok held refs st → held ≡ₚ held' → ls_pools st' = ls_pools st → ls_arcs st' = ls_arcs st → ls_next st' = ls_next st →
  object_arcs (ls_objects st) ++ refs ≡ₚ object_arcs (ls_objects st') ++ refs' → local_ok held' refs' st'.
Proof.
  intros [Hp Hk Hc Hl Hf] Hh Ep Ea En Hr. constructor; rewrite ?Ep, ?Ea, ?En.
  - intros numa p Hn. eapply pool_ok_perm; [|by apply Hp]. by rewrite Hh.
  - intros x. rewrite <- Hh. apply Hk.
  - intros a d n Ha. rewrite <- Hr. by eapply Hc.
  - intros a. rewrite <- Hr. apply Hl.
  - apply Hf.
Qed.

(** ** How the store of [Arc]s evolves *)

(** Where a pool is. *)
Definition pool_place (p : LocalPool) : u64 * usize := (lp_base p, lp_len p).

(** Pools stay where they are; an [Arc] alive before and after is the same one:
    numbers are not used twice and data does not change. *)
Record evolves (st st' : LocalState) : Prop := mkEvolves {
  ev_next : (ls_next st <= ls_next st')%nat;
  ev_arcs a d n : ls_arcs st' !! a = Some (d, n) → (ls_next st <= a)%nat ∨ ∃ m, ls_arcs st !! a = Some (d, m);
  ev_pools numa : pool_place <$> ls_pools st' !! numa = pool_place <$> ls_pools st !! numa;
}.

#[global] Instance evolves_refl : Reflexive evolves.
Proof. intros st. constructor; [done| |done]. eauto. Qed.

#[global] Instance evolves_trans : Transitive evolves.
Proof.
  intros st1 st2 st3 [N1 A1 P1] [N2 A2 P2]. constructor; [lia| |by intros; rewrite P2].
  intros a d n Ha. destruct (A2 _ _ _ Ha) as [?|[m Hm]]; [left; lia|]. by eapply A1.
Qed.

(** Sections that leave the [Arc]s and the places of pools alone. *)
Lemma evolves_same st st' :
  ls_next st' = ls_next st → ls_arcs st' = ls_arcs st → ls_pools st' = ls_pools st → evolves st st'.
Proof. intros En Ea Ep. constructor; rewrite ?En, ?Ea, ?Ep; eauto. Qed.

(** The metadata is untouched. *)
Definition same_meta (st st' : LocalState) : Prop := ls_objects st' = ls_objects st ∧ ls_fifo st' = ls_fifo st.

Lemma pool_place_insert (pools : gmap u16 LocalPool) numa p free n :
  pools !! numa = Some p →
  pool_place <$> <[numa := set_free p free]> pools !! n = pool_place <$> pools !! n.
Proof. intros Hp. destruct (decide (n = numa)) as [->|]; by simplify_map_eq. Qed.

(** ** The primitives *)

Section Primitives.
Context `{BuildProfile}.

(** Replacing the free list of a pool and the buffers it complements. *)
Lemma local_ok_pool held held' refs st numa p free :
  local_ok held refs st → ls_pools st !! numa = Some p →
  pool_ok (lp_len p) free (on_node numa (held' ++ arc_bufs (ls_arcs st))) →
  (∀ n, n ≠ numa → on_node n held' ≡ₚ on_node n held) → (∀ x, x ∈ held' → x ∈ held ∨ x.1 = numa ∧ 0 < buf_len x.2 <= buf_reserved x.2) →
  local_ok held' refs (set_pools (<[numa := set_free p free]> (ls_pools st)) st).
Proof.
  intros [Hp Hk Hc Hl Hf] Hn Hok Hother Hin. constructor; simpl; [|..|done|done|done].
  - intros n q [[-> <-]|[Hne Hq]]%lookup_insert_Some; [done|].
    eapply pool_ok_perm; [|by apply Hp]. by rewrite !on_node_app, Hother.
  - assert (∀ x, x ∈ held ++ arc_bufs (ls_arcs st) → buf_known (<[numa := set_free p free]> (ls_pools st)) x) as Hold.
    { intros x [? ?]%Hk. split; [|done]. rewrite lookup_insert_is_Some'. by right. }
    intros x [Hx|Hx]%elem_of_app; [destruct (Hin _ Hx) as [?|[<- ?]]|]; [apply Hold, elem_of_app; by left| |apply Hold, elem_of_app; by right].
    split; [|done]. rewrite lookup_insert_is_Some'. by left.
Qed.

Lemma pool_alloc_ok held refs st numa len p :
  local_ok held refs st → ls_pools st !! numa = Some p → 0 < len → len + ALIGN <= U64_MAX →
  ∃ st' r, pool_alloc numa len st = Ret (st', r) ∧ same_meta st st' ∧ evolves st st' ∧
    match r with
    | Some b => local_ok ((numa, b) :: held) refs st' ∧ buf_len b = len
    | None => st' = st
    end.
Proof.
  intros Hok Hp Hl Hle. unfold pool_alloc. rewrite Hp. cbn [deref mbind outcome_bind].
  pose proof (lk_pools _ _ _ Hok _ _ Hp) as Hpo.
  destruct (alloc_spec _ len _ _ Hpo ltac:(lia) Hle) as (need & Hn & Hdiv & Ha).
  destruct (alloc (lp_free p) len) as [[[free b]|]| |]; try done; cbn [mbind outcome_bind].
  2:{ exists st, None. split_and!; done. }
  destruct Ha as (l1 & f & l2 & Hfree & _ & Hfit & -> & ->).
  eexists _, _. split; [done|]. split; [done|]. split.
  { constructor; simpl; [done|eauto|]. intros. by apply pool_place_insert. }
  split; [|done]. eapply local_ok_pool; [done|done|..].
  - simpl. rewrite on_node_cons_eq. apply pool_ok_alloc; [by rewrite <- Hfree|lia|done].
  - intros n Hne. rewrite on_node_cons_ne; [done|]. simpl. congruence.
  - intros x [->|?]%elem_of_cons; [right; split; [done|]; simpl; lia|by left].
Qed.

Lemma pool_release_ok held held' refs st numa b :
  local_ok held refs st → held ≡ₚ (numa, b) :: held' →
  ∃ st', pool_release numa b st = Ret st' ∧ same_meta st st' ∧ ls_arcs st' = ls_arcs st ∧ evolves st st' ∧ local_ok held' refs st'.
Proof.
  intros Hok Hh. destruct (lk_known _ _ _ Hok (numa, b)) as [[p Hp] _].
  { apply elem_of_app. left. rewrite Hh. left. }
  unfold pool_release. simpl in Hp. rewrite Hp. cbn [deref mbind outcome_bind].
  pose proof (lk_pools _ _ _ Hok _ _ Hp) as Hpo.
  destruct (drop_spec (lp_len p) (lp_free p) [] b (on_node numa (held' ++ arc_bufs (ls_arcs st)))) as (free & -> & Hfree).
  { eapply pool_ok_perm; [|exact Hpo]. by rewrite Hh, <- app_comm_cons, on_node_cons_eq. }
  cbn [mbind outcome_bind]. eexists. split; [done|]. split; [done|]. split; [done|]. split.
  { constructor; simpl; [done|eauto|]. intros. by apply pool_place_insert. }
  eapply local_ok_pool; [done|done|done|..].
  - intros n Hne. rewrite Hh, on_node_cons_ne; [done|]. simpl. congruence.
  - intros x Hx. left. rewrite Hh. by right.
Qed.

Lemma arc_new_ok held held' refs st d :
  local_ok held refs st → held ≡ₚ data_buf d ++ held' →
  let '(a, st') := arc_new d st in
  same_meta st st' ∧ evolves st st' ∧ local_ok held' (a :: refs) st' ∧ ls_arcs st' !! a = Some (d, 1%nat).
Proof.
  intros [Hp Hk Hc Hl Hf] Hh. unfold arc_new.
  assert (ls_arcs st !! ls_next st = None) as Hnone.
  { apply eq_None_not_Some. intros Hs%Hf. lia. }
  assert (held ++ arc_bufs (ls_arcs st) ≡ₚ held' ++ arc_bufs (<[ls_next st := (d, 1%nat)]> (ls_arcs st))) as Hb.
  { rewrite Hh, arc_bufs_insert by done. rewrite (assoc_L (++)), (Permutation_app_comm (data_buf d)). done. }
  assert (ls_next st ∉ object_arcs (ls_objects st) ++ refs) as Hnew.
  { intros Hin%Hl. rewrite Hnone in Hin. by destruct Hin. }
  split; [done|]. split; [|split; [|by simplify_map_eq]].
  { constructor; simpl; [lia| |done]. intros a d' n [[<- _]|[_ Ha]]%lookup_insert_Some; [by left|eauto]. }
  constructor; simpl.
  - intros numa p Hn. eapply pool_ok_perm; [|by apply Hp]. by rewrite Hb.
  - intros x. rewrite <- Hb. apply Hk.
  - intros a d' n. rewrite <- Permutation_middle, occ_cons. intros [[<- [= <- <-]]|[Hne Ha]]%lookup_insert_Some.
    + rewrite decide_True by done. split; [|lia]. assert (¬ (0 < occ (ls_next st) (object_arcs (ls_objects st) ++ refs))%nat); [|lia].
      by rewrite occ_pos.
    + rewrite decide_False by done. by eapply Hc.
  - intros a. rewrite <- Permutation_middle, elem_of_cons, lookup_insert_is_Some'. intros [->|?]; [by left|right; by apply Hl].
  - intros a. rewrite lookup_insert_is_Some'. intros [->|?%Hf]; lia.
Qed.

(** Changing one count along with the number of references. *)
Lemma local_ok_count held refs refs' st a d n m :
  local_ok held refs st → ls_arcs st !! a = Some (d, n) → (0 < m)%nat →
  m = occ a (object_arcs (ls_objects st) ++ refs') → (∀ b, b ≠ a → occ b refs' = occ b refs) →
  local_ok held refs' (set_arcs (<[a := (d, m)]> (ls_arcs st)) st) ∧
  evolves st (set_arcs (<[a := (d, m)]> (ls_arcs st)) st).
Proof.
  intros [Hp Hk Hc Hl Hf] Ha Hm Hocc Hother.
  pose proof (arc_bufs_update (ls_arcs st) a d n m Ha) as Hb. split; constructor; simpl.
  - intros numa p Hn. eapply pool_ok_perm; [|by apply Hp]. by rewrite Hb.
  - intros x. rewrite Hb. apply Hk.
  - intros b d' k [[<- [= <- <-]]|[Hne Hb']]%lookup_insert_Some; [done|].
    rewrite occ_app, Hother, <- occ_app by done. by eapply Hc.
  - intros b Hin. rewrite lookup_insert_is_Some'. destruct (decide (a = b)) as [|Hne]; [by left|right].
    apply Hl. rewrite <- occ_pos, occ_app, <- (Hother b), <- occ_app, occ_pos by done. done.
  - intros b. rewrite lookup_insert_is_Some'. intros [<-|?]; apply Hf; eauto.
  - done.
  - intros b d' k [[<- [= <- <-]]|[Hne Hb']]%lookup_insert_Some; eauto.
  - done.
Qed.

Lemma arc_clone_ok held refs st a :
  local_ok held refs st → a ∈ object_arcs (ls_objects st) ++ refs →
  ∃ st', arc_clone a st = Ret st' ∧ same_meta st st' ∧ evolves st st' ∧ local_ok held (a :: refs) st' ∧
    fst <$> ls_arcs st' = fst <$> ls_arcs st.
Proof.
  intros Hok Hin. destruct (lk_live _ _ _ Hok a Hin) as [[d n] Ha]. unfold arc_clone. rewrite Ha.
  cbn [deref mbind outcome_bind]. destruct (lk_count _ _ _ Hok _ _ _ Ha) as [Hn _].
  destruct (local_ok_count held refs (a :: refs) st a d n (S n) Hok Ha) as [Hok' Hev]; [lia|..].
  - rewrite <- Permutation_middle, occ_cons, decide_True by done. lia.
  - intros b Hb. by rewrite occ_cons, decide_False by done.
  - eexists. split; [done|]. split; [done|]. split; [done|]. split; [done|]. simpl. rewrite fmap_insert. apply insert_id.
    by rewrite lookup_fmap, Ha.
Qed.

(** Dropping a reference: the count goes down, and the last one returns the buffer. *)
Lemma arc_drop_ok held refs refs' st a :
  local_ok held refs st → refs ≡ₚ a :: refs' →
  ∃ st', arc_drop a st = Ret st' ∧ same_meta st st' ∧ evolves st st' ∧ local_ok held refs' st'.
Proof.
  intros Hok Hr. destruct (lk_live _ _ _ Hok a) as [[d n] Ha]. { rewrite Hr. apply elem_of_app. right. left. }
  unfold arc_drop. rewrite Ha. cbn [deref mbind outcome_bind]. destruct (lk_count _ _ _ Hok _ _ _ Ha) as [Hn Hpos].
  rewrite Hr, <- Permutation_middle, occ_cons, decide_True in Hn by done.
  destruct n as [|[|n]]; [lia| |].
  - assert (local_ok (data_buf d ++ held) refs' (set_arcs (delete a (ls_arcs st)) st)) as Hok'.
    { destruct Hok as [Hp Hk Hc Hl Hf].
      assert (held ++ arc_bufs (ls_arcs st) ≡ₚ (data_buf d ++ held) ++ arc_bufs (delete a (ls_arcs st))) as Hb.
      { rewrite (arc_bufs_delete _ _ _ _ Ha), (assoc_L (++)), (Permutation_app_comm (data_buf d)). done. }
      assert (a ∉ object_arcs (ls_objects st) ++ refs') as Hgone by (rewrite <- occ_pos; lia).
      constructor; simpl.
      - intros numa p Hp'. eapply pool_ok_perm; [|by apply Hp]. by rewrite Hb.
      - intros x. rewrite <- Hb. apply Hk.
      - intros b d' k [Hne Hb']%lookup_delete_Some. pose proof (Hc _ _ _ Hb') as [-> ?].
        rewrite Hr, <- Permutation_middle, occ_cons, decide_False in * by done. done.
      - intros b Hin. rewrite lookup_delete_is_Some. split; [congruence|]. apply Hl. rewrite Hr, <- Permutation_middle. by right.
      - intros b [_ ?]%lookup_delete_is_Some. by apply Hf. }
    assert (evolves st (set_arcs (delete a (ls_arcs st)) st)) as Hev.
    { constructor; simpl; [done| |done]. intros b d' k [_ Hb]%lookup_delete_Some. eauto. }
    destruct d as [numa b|segs id].
    + destruct (pool_release_ok _ held refs' _ numa b Hok') as (st' & -> & [Ho Hf] & _ & Hev' & Hok''); [done|].
      exists st'. split; [done|]. split; [done|]. split; [by etrans|done].
    + by eexists.
  - destruct (local_ok_count held refs refs' st a d (S (S n)) (S n) Hok Ha) as [Hok' Hev]; [lia|lia|..].
    + intros b Hb. by rewrite Hr, occ_cons, decide_False by done.
    + by eexists.
Qed.

Lemma drop_replicas_ok held refs refs' st rs :
  local_ok held refs st → refs ≡ₚ (lr_data <$> rs) ++ refs' →
  ∃ st', drop_replicas rs st = Ret st' ∧ same_meta st st' ∧ evolves st st' ∧ local_ok held refs' st'.
Proof.
  unfold drop_replicas. revert refs st. induction rs as [|r rs IH]; intros refs st Hok Hr; csimpl; csimpl in Hr.
  - exists st. split; [done|]. split; [done|]. split; [done|]. by eapply local_ok_refs; [done|done|..|rewrite Hr].
  - destruct (arc_drop_ok held refs _ st (lr_data r) Hok Hr) as (st1 & -> & [Ho Hf] & Hev & Hok1).
    cbn [mbind outcome_bind]. destruct (IH _ _ Hok1 (reflexivity _)) as (st2 & -> & [Ho' Hf'] & Hev' & Hok2).
    exists st2. split; [done|]. split; [split; congruence|]. split; [by etrans|done].
Qed.

Lemma drop_placed_ok held held' refs st (placed : list placed_buf) :
  local_ok held refs st → held ≡ₚ ((λ x, (x.1.1, x.2)) <$> placed) ++ held' →
  ∃ st', drop_placed placed st = Ret st' ∧ same_meta st st' ∧ evolves st st' ∧ local_ok held' refs st'.
Proof.
  unfold drop_placed. revert held st. induction placed as [|x placed IH]; intros held st Hok Hr; csimpl; csimpl in Hr.
  - exists st. split; [done|]. split; [done|]. split; [done|]. by eapply local_ok_refs; [done|done|..].
  - destruct (pool_release_ok held _ refs st x.1.1 x.2 Hok Hr)
      as (st1 & -> & [Ho Hf] & _ & Hev & Hok1).
    cbn [mbind outcome_bind]. destruct (IH _ _ Hok1 (reflexivity _)) as (st2 & -> & [Ho' Hf'] & Hev' & Hok2).
    exists st2. split; [done|]. split; [split; congruence|]. split; [by etrans|done].
Qed.
End Primitives.
