(* ===== verification/LocalEvict.v ===== *)
(** * The CUDA backend: removal and eviction

    Sections that take references out of the metadata.  [spares] says what an
    eviction leaves alone; [alloc_or_evict] returns, and fails only when nothing
    evictable is left and no fragment is large enough. *)

From S2P Require Import Prelude HostMem Types Region Memory MemoryCopy Pinned Text Numa Topology Cuda LocalCopy Local LocalInv.

(** ** Replicas of an object *)

Lemma filter_perm {A} (p : A → bool) (l : list A) : l ≡ₚ List.filter p l ++ List.filter (λ x, negb (p x)) l.
Proof.
  induction l as [|x l IH]; [done|]. simpl. destruct (p x); simpl.
  - by f_equiv.
  - rewrite <- Permutation_middle. by f_equiv.
Qed.

(** Replacing a slot by one with the replicas [d] fewer. *)
Lemma object_replicas_insert spec slots i s s' d :
  slots !! i = Some s → sl_replicas s ≡ₚ d ++ sl_replicas s' →
  object_replicas (mkLocalObject spec slots) ≡ₚ d ++ object_replicas (mkLocalObject spec (<[i := s']> slots)).
Proof.
  intros Hi Hs. unfold object_replicas. simpl. rewrite (insert_take_drop slots i s') by (by eapply lookup_lt_Some).
  rewrite <- (take_drop_middle slots i s Hi) at 1. rewrite !fmap_app, !fmap_cons, !join_app. simpl. rewrite Hs.
  rewrite !(assoc_L (++)). by rewrite (Permutation_app_comm d).
Qed.

Lemma reclaimable_nil obj : reclaimable obj = true → object_replicas obj = [].
Proof.
  unfold reclaimable, object_replicas. intros Hr. induction (lo_slots obj) as [|s slots IH]; [done|].
  simpl in *. apply andb_prop in Hr as [Hs Hr]. destruct (sl_replicas s); [|done]. simpl. by apply IH.
Qed.

Section Evict.
Context `{BuildProfile}.

(** ** Removal *)

Lemma local_remove_key_ok held refs st k :
  local_ok held refs st →
  ∃ st', local_remove_key st k = Ret st' ∧ ls_objects st' = delete k (ls_objects st) ∧ ls_fifo st' = ls_fifo st ∧
    evolves st st' ∧ local_ok held refs st'.
Proof.
  intros Hok. unfold local_remove_key. destruct (ls_objects st !! k) as [obj|] eqn:Hk.
  2:{ exists st. by rewrite delete_id. }
  assert (local_ok held ((lr_data <$> object_replicas obj) ++ refs) (set_objects (delete k (ls_objects st)) st)) as Hok'.
  { eapply local_ok_refs; [done|done..|]. simpl. rewrite (object_arcs_delete _ _ _ Hk).
    rewrite (assoc_L (++)). by rewrite (Permutation_app_comm (_ <$> _)). }
  destruct (drop_replicas_ok _ _ _ _ _ Hok' (reflexivity _)) as (st' & -> & [Ho Hf] & Hev & Hok'').
  exists st'. split; [done|]. split; [done|]. split; [done|]. split; [|done].
  etrans; [|done]. by apply evolves_same.
Qed.

Lemma local_remove_ok held refs st keys :
  local_ok held refs st →
  ∃ st', local_remove st keys = Ret st' ∧ ls_objects st' = foldl (λ m k, delete k m) (ls_objects st) keys ∧
    ls_fifo st' = ls_fifo st ∧ evolves st st' ∧ local_ok held refs st'.
Proof.
  unfold local_remove. revert st. induction keys as [|k keys IH]; intros st Hok; simpl; [by exists st|].
  destruct (local_remove_key_ok held refs st k Hok) as (st1 & -> & Ho & Hf & Hev & Hok1). cbn [mbind outcome_bind].
  destruct (IH st1 Hok1) as (st2 & -> & Ho' & Hf' & Hev' & Hok2). exists st2. rewrite <- Ho, <- Hf.
  split; [done|]. split; [done|]. split; [done|]. split; [by etrans|done].
Qed.

(** ** Regions *)

Lemma retain_perm p slots :
  mjoin (sl_replicas <$> slots) ≡ₚ
  List.filter p (mjoin (sl_replicas <$> slots)) ++ mjoin (sl_replicas <$> (retain (λ r, negb (p r)) <$> slots)).
Proof.
  induction slots as [|s slots IH]; [done|]. csimpl. rewrite List.filter_app. rewrite IH at 1.
  rewrite (filter_perm p (sl_replicas s)) at 1. solve_Permutation.
Qed.

Lemma local_retire_region_ok held refs st id :
  local_ok held refs st →
  ∃ st', local_retire_region st id = Ret st' ∧
    ls_objects st' = (λ obj, mkLocalObject (lo_spec obj)
      (retain (λ r, negb (from_region (ls_arcs st) id r)) <$> lo_slots obj)) <$> ls_objects st ∧
    ls_fifo st' = ls_fifo st ∧ evolves st st' ∧ local_ok held refs st'.
Proof.
  intros Hok. unfold local_retire_region. set (gone := from_region (ls_arcs st) id). clearbody gone.
  set (objects := _ <$> ls_objects st). set (dropped := mjoin _).
  assert (local_ok held ((lr_data <$> dropped) ++ refs) (set_objects objects st)) as Hok'.
  { eapply local_ok_refs; [done|done..|]. simpl. rewrite (assoc_L (++)). f_equiv. unfold object_arcs, objects, dropped.
    rewrite map_to_list_fmap. induction (map_to_list (ls_objects st)) as [|[k o] l IH]; [done|]. csimpl.
    rewrite IH. unfold object_replicas at 1. rewrite (retain_perm gone (lo_slots o)), !fmap_app.
    unfold object_replicas. simpl. solve_Permutation. }
  destruct (drop_replicas_ok _ _ _ _ _ Hok' (reflexivity _)) as (st' & -> & [Ho Hf] & Hev & Hok'').
  exists st'. split; [done|]. split; [done|]. split; [done|]. split; [|done].
  etrans; [|done]. by apply evolves_same.
Qed.
(** ** What an eviction on a device leaves alone *)

Definition victim (device : Device) (arcs : gmap nat (LocalData * nat)) (r : LocalReplica) : Prop :=
  lr_device r = device ∧ is_pinned arcs r = true.

(** A slot, and an object, without some replicas it may lose. *)
Definition slot_without (lose : LocalReplica → Prop) (s s' : LocalSlot) : Prop :=
  sl_writing s' = sl_writing s ∧ ∃ keep, sl_replicas s' = List.filter keep (sl_replicas s) ∧
  ∀ r, r ∈ sl_replicas s → keep r = false → lose r.

Definition obj_without (lose : LocalReplica → Prop) (o : LocalObject) (o' : option LocalObject) : Prop :=
  match o' with
  | Some o' => lo_spec o' = lo_spec o ∧ Forall2 (slot_without lose) (lo_slots o) (lo_slots o')
  | None => Forall (λ s, sl_writing s = false ∧ Forall lose (sl_replicas s)) (lo_slots o)
  end.

(** Explicit objects and the protected key are untouched, others lose only
    pinned replicas of the device and disappear only when nothing is left. *)
Definition spares (device : Device) (protect : bytes) (st st' : LocalState) : Prop :=
  ∀ k, match ls_objects st !! k with
       | None => ls_objects st' !! k = None
       | Some o =>
           if decide (k = protect ∨ spec_retention (lo_spec o) ≠ Cache) then ls_objects st' !! k = Some o
           else obj_without (victim device (ls_arcs st)) o (ls_objects st' !! k)
       end.

(** The same of the other objects, with evictions on any device: what a put of
    [key] leaves of them. *)
Definition shrinks (key : bytes) (st st' : LocalState) : Prop :=
  ∀ k, k ≠ key →
    match ls_objects st !! k with
    | None => ls_objects st' !! k = None
    | Some o =>
        if decide (spec_retention (lo_spec o) ≠ Cache) then ls_objects st' !! k = Some o
        else obj_without (λ r, is_pinned (ls_arcs st) r = true) o (ls_objects st' !! k)
    end.

Lemma slot_without_refl lose s : slot_without lose s s.
Proof. split; [done|]. exists (λ _, true). split; [|done]. by induction (sl_replicas s) as [|r l IH]; simpl; f_equal. Qed.

Lemma obj_without_refl lose o : obj_without lose o (Some o).
Proof.
  split; [done|]. apply Forall2_same_length_lookup_2; [done|]. intros i s s' ? ?. simplify_eq. apply slot_without_refl.
Qed.

Lemma filter_filter {A} (p q : A → bool) l : List.filter q (List.filter p l) = List.filter (λ x, p x && q x) l.
Proof. induction l as [|x l IH]; [done|]. simpl. destruct (p x); simpl; [|done]. by destruct (q x); rewrite IH. Qed.

Lemma elem_of_keep {A} (p : A → bool) x l : x ∈ List.filter p l ↔ x ∈ l ∧ p x = true.
Proof. by rewrite !list_elem_of_In, List.filter_In. Qed.

Lemma elem_of_object_replicas o i s r : lo_slots o !! i = Some s → r ∈ sl_replicas s → r ∈ object_replicas o.
Proof.
  intros Hi Hr. unfold object_replicas. apply list_elem_of_join. exists (sl_replicas s). split; [done|].
  apply list_elem_of_fmap_2. by eapply list_elem_of_lookup_2.
Qed.

Lemma slot_without_trans lose lose' s s2 s3 :
  (∀ r, r ∈ sl_replicas s → lose' r → lose r) → slot_without lose s s2 → slot_without lose' s2 s3 → slot_without lose s s3.
Proof.
  intros Hl (Hw & p & Hsub & Hr) (Hw' & p' & Hsub' & Hr'). split; [congruence|]. exists (λ r, p r && p' r).
  split; [by rewrite Hsub', Hsub, filter_filter|]. intros r Hin Hno. destruct (p r) eqn:Hp; [|by apply Hr].
  apply Hl; [done|]. apply Hr'; [|done]. by rewrite Hsub, elem_of_keep.
Qed.

Lemma slot_without_all lose lose' s s2 :
  (∀ r, r ∈ sl_replicas s → lose' r → lose r) → slot_without lose s s2 → Forall lose' (sl_replicas s2) → Forall lose (sl_replicas s).
Proof.
  intros Hl (Hw & p & Hsub & Hr) Hall. rewrite Forall_forall in Hall |- *. intros r Hin. destruct (p r) eqn:Hp; [|by apply Hr].
  apply Hl; [done|]. apply Hall. by rewrite Hsub, elem_of_keep.
Qed.

Lemma obj_without_trans lose lose' o o2 o3 :
  (∀ r, r ∈ object_replicas o → lose' r → lose r) → obj_without lose o (Some o2) → obj_without lose' o2 o3 → obj_without lose o o3.
Proof.
  intros Hl [Hs H12] H23.
  assert (∀ i s r, lo_slots o !! i = Some s → r ∈ sl_replicas s → lose' r → lose r) as Hv by eauto using elem_of_object_replicas.
  rewrite Forall2_lookup in H12. destruct o3 as [o3|]; simpl in *.
  - destruct H23 as [Hs' H23]. split; [congruence|]. rewrite Forall2_lookup in H23 |- *. intros i. specialize (H12 i). specialize (H23 i).
    inversion H12 as [s s2 Hsl E1 E2|E1 E2]; rewrite <- E2 in H23; inversion H23; constructor.
    eapply slot_without_trans; [|exact Hsl|by subst]. intros r Hr. eapply Hv; [by symmetry|done].
  - rewrite Forall_lookup in H23 |- *. intros i s Hi. specialize (H12 i). rewrite Hi in H12.
    inversion H12 as [? s2 Hsl E1 E2|]; subst. destruct (H23 i s2) as [Hw' Hall]; [done|].
    split; [destruct Hsl; congruence|]. eapply slot_without_all; [|exact Hsl|exact Hall]. intros r Hr. by eapply Hv.
Qed.

Lemma spares_refl device protect st : spares device protect st st.
Proof. intros k. destruct (ls_objects st !! k) as [o|]; [|done]. case_decide; [done|]. apply obj_without_refl. Qed.

(** Pinned or not does not change for replicas alive on both sides. *)
Lemma pinned_evolves held refs st st' k o r :
  local_ok held refs st → evolves st st' → ls_objects st !! k = Some o → r ∈ object_replicas o →
  is_pinned (ls_arcs st') r = true → is_pinned (ls_arcs st) r = true.
Proof.
  intros Hok Hev Hk Hr Hp. unfold is_pinned in *. destruct (ls_arcs st' !! lr_data r) as [[d n]|] eqn:Ha; [|done].
  destruct (ev_arcs _ _ Hev _ _ _ Ha) as [Hle|[m ->]]; [|done].
  destruct (lk_live _ _ _ Hok (lr_data r)) as [x Hx].
  { rewrite (object_arcs_delete _ _ _ Hk), !elem_of_app. left. left. by apply list_elem_of_fmap_2. }
  pose proof (lk_fresh _ _ _ Hok (lr_data r) ltac:(eauto)). lia.
Qed.

Lemma spares_trans held refs st1 st2 st3 device protect :
  local_ok held refs st1 → evolves st1 st2 →
  spares device protect st1 st2 → spares device protect st2 st3 → spares device protect st1 st3.
Proof.
  intros Hok Hev H12 H23 k. specialize (H12 k). specialize (H23 k).
  destruct (ls_objects st1 !! k) as [o|] eqn:Hk; [|by rewrite H12 in H23].
  case_decide as Hd; [rewrite H12 in H23; by case_decide|]. destruct (ls_objects st2 !! k) as [o2|]; [|by rewrite H23].
  rewrite decide_False in H23 by (by destruct H12 as [-> _]).
  eapply obj_without_trans; [|done|done]. intros r Hr [Hdev Hp]. split; [done|by eapply pinned_evolves].
Qed.

Lemma shrinks_same key st st' : (∀ k, k ≠ key → ls_objects st' !! k = ls_objects st !! k) → shrinks key st st'.
Proof.
  intros Ho k Hk. rewrite Ho by done. destruct (ls_objects st !! k) as [o|]; [|done]. case_decide; [done|]. apply obj_without_refl.
Qed.

Lemma spares_shrinks device protect st st' : spares device protect st st' → shrinks protect st st'.
Proof.
  intros Hs k Hk. specialize (Hs k). destruct (ls_objects st !! k) as [o|]; [|done].
  destruct (decide (spec_retention (lo_spec o) ≠ Cache)) as [Hr|Hr]; [by rewrite decide_True in Hs by (by right)|].
  rewrite decide_False in Hs by (by intros [?|?]). destruct (ls_objects st' !! k) as [o'|]; simpl in *.
  - destruct Hs as [Hsp Hsl]. split; [done|]. eapply Forall2_impl; [exact Hsl|]. intros s s' (Hw & p & Hf & Hp). split; [done|].
    exists p. split; [done|]. intros r Hin Hpr. by apply (Hp r Hin).
  - eapply Forall_impl; [exact Hs|]. intros s [Hw Hv]. split; [done|]. eapply Forall_impl; [exact Hv|]. by intros r [_ ?].
Qed.

Lemma shrinks_trans held refs st1 st2 st3 key :
  local_ok held refs st1 → evolves st1 st2 → shrinks key st1 st2 → shrinks key st2 st3 → shrinks key st1 st3.
Proof.
  intros Hok Hev H12 H23 k Hne. specialize (H12 k Hne). specialize (H23 k Hne).
  destruct (ls_objects st1 !! k) as [o|] eqn:Hk; [|by rewrite H12 in H23].
  case_decide as Hd; [rewrite H12 in H23; by case_decide|]. destruct (ls_objects st2 !! k) as [o2|]; [|by rewrite H23].
  rewrite decide_False in H23 by (destruct H12 as [-> _]; by intros Hn).
  eapply obj_without_trans; [|done|done]. intros r Hr Hp. by eapply pinned_evolves.
Qed.

(** ** The eviction loop *)

(** Queue entries of existing objects name one of their slots. *)
Definition entries_valid (objs : gmap bytes LocalObject) (q : list (bytes * u32)) : Prop :=
  ∀ k i o, (k, i) ∈ q → objs !! k = Some o → (Z.to_nat i < length (lo_slots o))%nat.

Lemma spares_valid device protect st st' q :
  spares device protect st st' → entries_valid (ls_objects st) q → entries_valid (ls_objects st') q.
Proof.
  intros Hs Hv k i o' Hin Hk. specialize (Hs k). destruct (ls_objects st !! k) as [o|] eqn:Ho; [|congruence].
  specialize (Hv k i o Hin Ho). case_decide; [congruence|]. rewrite Hk in Hs. destruct Hs as [_ Hs%Forall2_length]. lia.
Qed.

(** One entry handled: the replicas of its slot on the device go. *)
Lemma evict_entry_ok held refs st device protect key idx obj slot :
  let gone := λ r, bool_decide (lr_device r = device) && is_pinned (ls_arcs st) r in
  let dropped := List.filter gone (sl_replicas slot) in
  let obj' := mkLocalObject (lo_spec obj) (<[idx := retain (λ r, negb (gone r)) slot]> (lo_slots obj)) in
  let objects := if reclaimable obj' then delete key (ls_objects st) else <[key := obj']> (ls_objects st) in
  local_ok held refs st → ls_objects st !! key = Some obj → lo_slots obj !! idx = Some slot →
  key ≠ protect → spec_retention (lo_spec obj) = Cache →
  ∃ st', drop_replicas dropped (set_objects objects st) = Ret st' ∧ ls_fifo st' = ls_fifo st ∧
    evolves st st' ∧ local_ok held refs st' ∧ spares device protect st st'.
Proof.
  intros gone dropped obj' objects Hok Hk Hi Hne Hret.
  assert (∀ r, gone r = true ↔ victim device (ls_arcs st) r) as Hgone.
  { intros r. unfold gone, victim. by rewrite andb_true_iff, bool_decide_eq_true. }
  assert (object_replicas obj ≡ₚ dropped ++ object_replicas obj') as Hperm.
  { unfold obj', dropped. destruct obj as [spec slots]. apply object_replicas_insert with slot; [done|]. apply filter_perm. }
  assert (object_arcs (ls_objects st) ≡ₚ object_arcs objects ++ (lr_data <$> dropped)) as Harcs.
  { rewrite (object_arcs_delete _ _ _ Hk), Hperm, fmap_app. unfold objects. destruct (reclaimable obj') eqn:Hrec.
    - rewrite (reclaimable_nil _ Hrec), fmap_nil, app_nil_r. apply Permutation_app_comm.
    - rewrite object_arcs_update. solve_Permutation. }
  assert (local_ok held ((lr_data <$> dropped) ++ refs) (set_objects objects st)) as Hok'.
  { eapply local_ok_refs; [done|done..|]. simpl. by rewrite Harcs, (assoc_L (++)). }
  destruct (drop_replicas_ok _ _ _ _ _ Hok' (reflexivity _)) as (st' & -> & [Ho Hf] & Hev & Hok'').
  exists st'. split; [done|]. split; [done|]. split; [etrans; [|done]; by apply evolves_same|]. split; [done|].
  assert (Forall2 (slot_without (victim device (ls_arcs st))) (lo_slots obj) (lo_slots obj')) as Hsl.
  { apply Forall2_lookup. intros j. simpl. destruct (decide (j = idx)) as [->|Hj].
    - rewrite Hi, list_lookup_insert_eq by (by eapply lookup_lt_Some). constructor. split; [done|].
      exists (λ r, negb (gone r)). split; [done|]. intros r _ Hr%negb_false_iff. by apply Hgone.
    - rewrite list_lookup_insert_ne by done. destruct (lo_slots obj !! j); constructor. apply slot_without_refl. }
  intros k. simpl in Ho. rewrite Ho. destruct (decide (k = key)) as [->|Hkk].
  - rewrite Hk, decide_False by (intros [?|?]; done). unfold objects. destruct (reclaimable obj') eqn:Hrec; simplify_map_eq; [|done].
    apply Forall_lookup. intros j s Hj. rewrite Forall2_lookup in Hsl. specialize (Hsl j). rewrite Hj in Hsl.
    inversion Hsl as [? s' (Hw & p & Hr & Hp) E1 E2|]; subst. unfold reclaimable in Hrec. rewrite forallb_forall in Hrec.
    specialize (Hrec s'). rewrite <- list_elem_of_In in Hrec. specialize (Hrec (list_elem_of_lookup_2 _ _ _ (symmetry E2))).
    destruct (sl_replicas s'); [|done]. split; [rewrite <- Hw; by destruct (sl_writing s')|].
    apply Forall_forall. intros r Hin. apply Hp; [done|]. apply not_true_iff_false. intros Hpr.
    assert (r ∈ List.filter p (sl_replicas s)) as Hkept by (by apply elem_of_keep). rewrite <- Hr in Hkept. by apply elem_of_nil in Hkept.
  - assert (objects !! k = ls_objects st !! k) as ->.
    { unfold objects. destruct (reclaimable obj'); by simplify_map_eq. }
    apply spares_refl.
Qed.

(** The loop panics only on an entry past the end of its object.  When it
    returns, ownership is kept; without an eviction the queue is drained down to
    the protected entries, otherwise it got shorter. *)
Definition evict_post (held : list node_buf) (refs : list nat) (device : Device) (protect : bytes) (q deferred : list (bytes * u32))
    (st : LocalState) (r : outcome (LocalState * list (bytes * u32) * list (bytes * u32) * bool)) : Prop :=
  match r with
  | Ret (st', rest, deferred', ev) =>
      ls_fifo st' = ls_fifo st ∧ evolves st st' ∧ local_ok held refs st' ∧ spares device protect st st' ∧
      deferred' ++ rest `sublist_of` deferred ++ q ∧
      if ev then (length (deferred' ++ rest) < length (deferred ++ q))%nat
      else rest = [] ∧ Forall (λ e, e.1 = protect) (drop (length deferred) deferred') ∧ take (length deferred) deferred' = deferred
  | Panicked => ¬ entries_valid (ls_objects st) q
  | Undefined => False
  end.

(** An entry is dropped, the state becomes [st'], and the loop goes on. *)
Lemma evict_post_skip held refs device protect e q deferred st st' r :
  local_ok held refs st → ls_fifo st' = ls_fifo st → evolves st st' → spares device protect st st' →
  evict_post held refs device protect q deferred st' r → evict_post held refs device protect (e :: q) deferred st r.
Proof.
  intros Hok Ef Hev Hsp IH. destruct r as [[[[st'' rest] def'] ev]| |]; [|intros Hv; apply IH|done].
  - destruct IH as (Ef' & Hev' & Hok'' & Hsp' & Hsub & Hres). split; [congruence|]. split; [by etrans|]. split; [done|].
    split; [by eapply spares_trans|]. split.
    + etrans; [done|]. apply sublist_app; [done|]. by constructor.
    + destruct ev; [|done]. rewrite !length_app in *. simpl. lia.
  - eapply spares_valid; [done|]. intros k i o Hin. apply Hv. by right.
Qed.

(** A protected entry is put aside. *)
Lemma evict_post_defer held refs device protect idx q deferred st r :
  evict_post held refs device protect q (deferred ++ [(protect, idx)]) st r →
  evict_post held refs device protect ((protect, idx) :: q) deferred st r.
Proof.
  intros IH. destruct r as [[[[st'' rest] def'] ev]| |]; [|intros Hv; apply IH; intros k i o Hin; apply Hv; by right|done].
  destruct IH as (Ef' & Hev' & Hok'' & Hsp' & Hsub & Hres). rewrite <- (assoc_L (++)) in Hsub, Hres. simpl in *.
  do 5 (split; [done|]). destruct ev; [done|]. destruct Hres as (-> & Hall & Htake). rewrite length_app in *. simpl in *.
  split; [done|]. rewrite Nat.add_1_r in *. pose proof (f_equal (take (length deferred)) Htake) as Ht.
  rewrite take_take, Nat.min_l in Ht by lia. rewrite take_app_length in Ht. split; [|done].
  destruct (def' !! length deferred) as [e|] eqn:He; [|apply lookup_ge_None in He; rewrite drop_ge by lia; constructor].
  rewrite (drop_S _ _ _ He). constructor; [|done].
  assert (take (S (length deferred)) def' !! length deferred = Some e) as He' by (by rewrite lookup_take_lt by lia).
  rewrite Htake, list_lookup_middle in He' by done. by simplify_eq.
Qed.

Lemma evict_loop_ok held refs device protect q deferred st :
  local_ok held refs st → evict_post held refs device protect q deferred st (evict_loop device protect q deferred st).
Proof.
  revert deferred st. induction q as [|[key idx] q IH]; intros deferred st Hok; cbn [evict_loop].
  { do 3 (split; [done|]). split; [apply spares_refl|]. split; [done|]. by rewrite drop_all, firstn_all. }
  case_decide as Hp; [subst; by apply evict_post_defer, IH|].
  assert (evict_post held refs device protect ((key, idx) :: q) deferred st (evict_loop device protect q deferred st)) as Hskip.
  { eapply evict_post_skip; [done|done|done|apply spares_refl|by apply IH]. }
  destruct (ls_objects st !! key) as [obj|] eqn:Hk; [|done]. case_decide as Hret; [done|].
  destruct (lo_slots obj !! Z.to_nat idx) as [slot|] eqn:Hi; cbn [unwrap mbind outcome_bind].
  2:{ intros Hv. specialize (Hv key idx obj ltac:(left) Hk). apply lookup_ge_None in Hi. lia. }
  assert (spec_retention (lo_spec obj) = Cache) as Hc by (by destruct (spec_retention (lo_spec obj))).
  destruct (evict_entry_ok held refs st device protect key _ obj slot Hok Hk Hi Hp Hc) as (st' & -> & Ef & Hev & Hok' & Hsp).
  cbn [mbind outcome_bind]. destruct (List.filter _ (sl_replicas slot)); [by eapply evict_post_skip; [..|apply IH]|].
  do 4 (split; [done|]). split; [apply sublist_app; [done|by constructor]|]. rewrite !length_app. simpl. lia.
Qed.

(** The queue of a device after a section. *)
Lemma evict_section_ok held refs device protect st :
  local_ok held refs st →
  match evict_section device protect st with
  | Ret (st', ev) =>
      evolves st st' ∧ local_ok held refs st' ∧ spares device protect st st' ∧
      (∀ d, d ≠ device → ls_fifo st' !! d = ls_fifo st !! d) ∧
      ∃ q q', ls_fifo st !! device = Some q ∧ ls_fifo st' !! device = Some q' ∧ q' `sublist_of` q ∧
        if ev then (length q' < length q)%nat else Forall (λ e, e.1 = protect) q'
  | Panicked => ∀ q, ls_fifo st !! device = Some q → ¬ entries_valid (ls_objects st) q
  | Undefined => False
  end.
Proof.
  intros Hok. unfold evict_section. destruct (ls_fifo st !! device) as [q|] eqn:Hq; cbn [unwrap mbind outcome_bind]; [|done].
  pose proof (evict_loop_ok held refs device protect q [] st Hok) as Hl.
  destruct (evict_loop device protect q [] st) as [[[[st' rest] def'] ev]| |]; cbn [mbind outcome_bind]; [|by intros ? [= ->]|done].
  destruct Hl as (Ef & Hev & Hok' & Hsp & Hsub & Hres). simpl in *. split.
  { etrans; [done|]. by apply evolves_same. }
  split; [by eapply local_ok_refs|]. split; [done|]. split.
  { intros d Hd. rewrite lookup_insert_ne by done. by rewrite Ef. }
  exists q, (def' ++ rest). rewrite lookup_insert_eq. do 3 (split; [done|]). destruct ev; [done|].
  destruct Hres as (-> & Hall & _). rewrite drop_0 in Hall. by rewrite app_nil_r.
Qed.

(** ** Allocation *)

(** What an allocation for [protect] on a node may have done, and its answer. *)
Definition alloc_post (held : list node_buf) (refs : list nat) (numa : u16) (len : usize) (protect : bytes) (st st' : LocalState)
    (r : Result PinnedBuf) : Prop :=
  evolves st st' ∧ spares (Cpu numa) protect st st' ∧ (∀ d, d ≠ Cpu numa → ls_fifo st' !! d = ls_fifo st !! d) ∧
  (∀ q, ls_fifo st !! Cpu numa = Some q → ∃ q', ls_fifo st' !! Cpu numa = Some q' ∧ q' `sublist_of` q) ∧
  match r with
  | Ok b => local_ok ((numa, b) :: held) refs st' ∧ buf_len b = len
  | Err e => e = no_space numa len ∧ local_ok held refs st' ∧ pool_alloc numa len st' = Ret (st', None)
  end.

Lemma alloc_loop_ok held refs fuel numa len protect st p q :
  local_ok held refs st → ls_pools st !! numa = Some p → 0 < len → len + ALIGN <= U64_MAX →
  ls_fifo st !! Cpu numa = Some q →
  match alloc_loop fuel numa len protect st with
  | Ret (st', r) =>
      alloc_post held refs numa len protect st st' r ∧
      (is_ok r = false → ∀ q', ls_fifo st' !! Cpu numa = Some q' → Forall (λ e, e.1 = protect) q')
  | Panicked => (fuel <= length q)%nat ∨ ¬ entries_valid (ls_objects st) q
  | Undefined => False
  end.
Proof.
  intros Hok Hp Hl Hle. revert st p q Hok Hp. induction fuel as [|fuel IH]; intros st p q Hok Hp Hq; [left; lia|].
  cbn [alloc_loop]. pose proof (evict_section_ok held refs (Cpu numa) protect st Hok) as Hs.
  destruct (evict_section (Cpu numa) protect st) as [[st1 ev]| |]; cbn [mbind outcome_bind]; [|right; by apply Hs|done].
  destruct Hs as (Hev & Hok1 & Hsp & Hoth & q0 & q1 & Hq0 & Hq1 & Hsub & Hres). simplify_eq.
  destruct (ls_pools st1 !! numa) as [p1|] eqn:Hp1.
  2:{ pose proof (ev_pools _ _ Hev numa) as Hpl. by rewrite Hp, Hp1 in Hpl. }
  destruct (pool_alloc_ok held refs st1 numa len p1 Hok1 Hp1 Hl Hle) as (st2 & r & Ha & [Ho Hf] & Hev2 & Hr).
  rewrite Ha. cbn [mbind outcome_bind].
  assert (spares (Cpu numa) protect st st2) as Hsp2 by (intros k; rewrite Ho; apply Hsp).
  destruct r as [b|].
  { split; [|done]. split; [by etrans|]. split; [done|]. rewrite Hf. split; [done|]. split; [|done].
    intros q0 Hq0. simplify_eq. eauto. }
  subst st2. destruct ev.
  - specialize (IH st1 p1 q1 Hok1 Hp1 Hq1). destruct (alloc_loop fuel numa len protect st1) as [[st3 r]| |]; [|..|done].
    + destruct IH as ((Hev3 & Hsp3 & Hoth3 & Hq3 & Hr) & Herr). split; [|done]. split; [by etrans|].
      split; [by eapply spares_trans|]. split; [intros d Hd; by rewrite Hoth3, Hoth|]. split; [|done].
      intros q0 Hq0'. simplify_eq. destruct (Hq3 q1 Hq1) as (q3 & ? & ?). exists q3. split; [done|by etrans].
    + destruct IH as [?|Hv]; [left; lia|right]. intros Hval. apply Hv. eapply spares_valid; [done|].
      intros k i o Hin. apply Hval. by eapply elem_of_sublist.
  - split; [|intros _ q' Hq'; by simplify_eq]. split; [done|]. split; [done|]. split; [done|]. split; [|done].
    intros q0 Hq0'. simplify_eq. eauto.
Qed.

Lemma alloc_or_evict_ok held refs numa len protect st p q :
  local_ok held refs st → ls_pools st !! numa = Some p → 0 < len → len + ALIGN <= U64_MAX →
  ls_fifo st !! Cpu numa = Some q →
  match alloc_or_evict numa len protect st with
  | Ret (st', r) =>
      alloc_post held refs numa len protect st st' r ∧
      (is_ok r = false → lp_len p < len ∨ ∀ q', ls_fifo st' !! Cpu numa = Some q' → Forall (λ e, e.1 = protect) q')
  | Panicked => ¬ entries_valid (ls_objects st) q
  | Undefined => False
  end.
Proof.
  intros Hok Hp Hl Hle Hq. unfold alloc_or_evict. rewrite Hp.
  destruct (pool_alloc_ok held refs st numa len p Hok Hp Hl Hle) as (st1 & r & Ha & [Ho Hf] & Hev & Hr).
  rewrite Ha. cbn [mbind outcome_bind].
  assert (spares (Cpu numa) protect st st1) as Hsp by (intros k; rewrite Ho; apply spares_refl).
  destruct r as [b|].
  { split; [|done]. split; [done|]. split; [done|]. rewrite Hf. split; [done|]. split; [eauto|done]. }
  subst st1. destruct (Z.ltb_spec (lp_len p) len) as [Hlt|Hge].
  { split; [|by left]. split; [done|]. split; [done|]. split; [done|]. split; [eauto|done]. }
  pose proof (alloc_loop_ok held refs (S (fifo_len (Cpu numa) st)) numa len protect st p q Hok Hp Hl Hle Hq) as Hloop.
  assert (fifo_len (Cpu numa) st = length q) as Hlen by (unfold fifo_len; by rewrite Hq).
  destruct (alloc_loop _ numa len protect st) as [[st2 r]| |]; [|destruct Hloop as [?|?]; [lia|done]|done].
  destruct Hloop as [Hpost Herr]. split; [done|]. intros Hr'. right. by apply Herr.
Qed.

(** C14: [alloc_or_evict] terminates and answers: for a request of at least one
    byte, with a queue whose entries name slots of their objects (no stale entry),
    on a node with a pool it returns a buffer of the asked length apart from every
    owned one, or [NoSpace], and then no free fragment is large enough although
    nothing evictable is left in the queue (or the request exceeds the pool). On
    the way it spares Explicit objects, the protected key, slots being written,
    other devices and external replicas. *)
Theorem alloc_or_evict_returns held refs numa len protect st p q :
  local_ok held refs st → ls_pools st !! numa = Some p → 0 < len → len + ALIGN <= U64_MAX →
  ls_fifo st !! Cpu numa = Some q → entries_valid (ls_objects st) q →
  ∃ st' r, alloc_or_evict numa len protect st = Ret (st', r) ∧ alloc_post held refs numa len protect st st' r ∧
    (is_ok r = false → lp_len p < len ∨ ∀ q', ls_fifo st' !! Cpu numa = Some q' → Forall (λ e, e.1 = protect) q').
Proof.
  intros Hok Hp Hl Hle Hq Hv. pose proof (alloc_or_evict_ok held refs numa len protect st p q Hok Hp Hl Hle Hq) as Ha.
  destruct (alloc_or_evict numa len protect st) as [[st' r]| |]; [|done|done]. by exists st', r.
Qed.
End Evict.
