(* ===== verification/LocalSections.v ===== *)
(** * The CUDA backend: claiming, publishing and looking up

    The sections of [put], [publish] and [get] that add references to the
    metadata or hand them to a reader. *)

From S2P Require Import Prelude HostMem Types Region Memory MemoryCopy Pinned Text Numa Topology Cuda LocalCopy Local LocalInv LocalEvict.

(** The node and buffer of a placed buffer. *)
Definition placed_node (x : placed_buf) : node_buf := (x.1.1, x.2).

(** An object with the same replicas in its slots. *)
Lemma set_objects_ok held refs st k o o' :
  local_ok held refs st → from_option object_replicas [] (ls_objects st !! k) = object_replicas o' → o = o' →
  local_ok held refs (set_objects (<[k := o]> (ls_objects st)) st) ∧ evolves st (set_objects (<[k := o]> (ls_objects st)) st).
Proof.
  intros Hok Hr ->. split; [|by apply evolves_same]. eapply local_ok_refs; [done|done..|]. f_equiv. simpl.
  rewrite object_arcs_update, <- Hr. destruct (ls_objects st !! k) as [o|] eqn:Hk; simpl.
  - by apply object_arcs_delete.
  - by rewrite delete_id.
Qed.

Section Sections.
Context `{BuildProfile}.

Lemma claim_slot_replicas s : sl_replicas (claim_slot s).1 = sl_replicas s.
Proof. unfold claim_slot. destruct (sl_replicas s) eqn:Hs; [destruct (sl_writing s)|]; simpl; congruence. Qed.

(** The object a claim finds or creates. *)
Definition claim_obj (key : bytes) (spec : ObjectSpec) (st : LocalState) : LocalObject :=
  default (mkLocalObject spec (replicate (length (spec_slots spec)) (mkLocalSlot [] false))) (ls_objects st !! key).

Lemma claim_inv key spec st st' w :
  claim key spec st = Ok (st', w) →
  lo_spec (claim_obj key spec st) = spec ∧
  st' = set_objects (<[key := mkLocalObject spec ((claim_slot <$> lo_slots (claim_obj key spec st)).*1)]> (ls_objects st)) st ∧
  w = (claim_slot <$> lo_slots (claim_obj key spec st)).*2.
Proof.
  unfold claim, claim_obj. destruct (ls_objects st !! key) as [o|]; simpl; [|by intros [= <- <-]].
  case_decide as Hs; [done|]. intros [= <- <-]. by rewrite Hs.
Qed.

Lemma claim_ok held refs key spec st st' w :
  local_ok held refs st → claim key spec st = Ok (st', w) → local_ok held refs st' ∧ evolves st st'.
Proof.
  intros Hok (Hs & -> & _)%claim_inv. eapply set_objects_ok; [done| |done]. unfold object_replicas at 2. simpl.
  assert (∀ slots, sl_replicas <$> (claim_slot <$> slots).*1 = sl_replicas <$> slots) as ->.
  { intros slots. rewrite <- !list_fmap_compose. apply list_fmap_ext. intros i s _. apply claim_slot_replicas. }
  unfold claim_obj. destruct (ls_objects st !! key) as [o|]; simpl; [done|].
  induction (length (spec_slots spec)); simpl; [done|]. done.
Qed.

Lemma object_replicas_alter spec slots i s s' :
  slots !! i = Some s → object_replicas (mkLocalObject spec (<[i := s']> slots)) =
    mjoin (sl_replicas <$> take i slots) ++ sl_replicas s' ++ mjoin (sl_replicas <$> drop (S i) slots).
Proof.
  intros Hi. unfold object_replicas. simpl. rewrite (insert_take_drop slots i s') by (by eapply lookup_lt_Some).
  by rewrite fmap_app, fmap_cons, join_app.
Qed.

Lemma object_replicas_split o i s :
  lo_slots o !! i = Some s → object_replicas o =
    mjoin (sl_replicas <$> take i (lo_slots o)) ++ sl_replicas s ++ mjoin (sl_replicas <$> drop (S i) (lo_slots o)).
Proof.
  intros Hi. rewrite <- (object_replicas_alter (lo_spec o) _ _ _ _ Hi), list_insert_id by done. by destruct o.
Qed.

Lemma unclaim_ok held refs key i st st' :
  local_ok held refs st → unclaim key i st = Ret st' → local_ok held refs st' ∧ evolves st st'.
Proof.
  intros Hok. unfold unclaim. destruct (ls_objects st !! key) as [o|] eqn:Hk; [|by intros [= <-]].
  intros Hu. inv_bind. rename a into s, Hm into Hs. apply unwrap_Ret in Hs. eapply set_objects_ok; [done| |done].
  rewrite Hk. simpl. by rewrite (object_replicas_alter _ _ _ _ _ Hs), (object_replicas_split _ _ _ Hs).
Qed.

(** Replicas appended to a slot take over references. *)
Lemma add_replicas_ok held refs st key o i s w rs :
  local_ok held ((lr_data <$> rs) ++ refs) st → ls_objects st !! key = Some o → lo_slots o !! i = Some s →
  local_ok held refs (set_objects (<[key := mkLocalObject (lo_spec o)
     (<[i := mkLocalSlot (sl_replicas s ++ rs) w]> (lo_slots o))]> (ls_objects st)) st).
Proof.
  intros Hok Hk Hs. eapply local_ok_refs; [done|done..|]. simpl. rewrite (assoc_L (++)). f_equiv.
  rewrite object_arcs_update, (object_arcs_delete _ _ _ Hk), (object_replicas_alter _ _ _ _ _ Hs), (object_replicas_split _ _ _ Hs).
  simpl. rewrite !fmap_app. solve_Permutation.
Qed.

(** The replica made of a placed buffer. *)
Definition replica_of (arcs : gmap nat (LocalData * nat)) (x : placed_buf) (r : LocalReplica) : Prop :=
  lr_device r = Cpu x.1.1 ∧ lr_tier r = Dram ∧ lr_misplaced r = x.1.2 ∧ fst <$> arcs !! lr_data r = Some (PinnedData x.1.1 x.2).

Lemma push_replicas_ok held refs placed st :
  local_ok ((placed_node <$> placed) ++ held) refs st →
  let '(rs, st') := push_replicas placed st in
  same_meta st st' ∧ evolves st st' ∧ local_ok held ((lr_data <$> rs) ++ refs) st' ∧
  Forall2 (replica_of (ls_arcs st')) placed rs.
Proof.
  revert refs st. induction placed as [|[[numa mis] b] placed IH]; intros refs st Hok; cbn [push_replicas].
  { split; [done|]. split; [done|]. by split. }
  pose proof (arc_new_ok _ _ refs st (PinnedData numa b) Hok (Permutation_refl _)) as Hn.
  destruct (arc_new (PinnedData numa b) st) as [a st1] eqn:Ea. destruct Hn as ([Ho Hf] & Hev & Hok1 & Hlook).
  specialize (IH (a :: refs) st1 Hok1). destruct (push_replicas placed st1) as [rs st2].
  destruct IH as ([Ho' Hf'] & Hev' & Hok2 & Hrs). split; [split; congruence|]. split; [by etrans|].
  assert (local_ok held ((lr_data <$> mkLocalReplica (Cpu numa) Dram mis a :: rs) ++ refs) st2) as Hok3.
  { eapply local_ok_refs; [exact Hok2|done..|]. csimpl. solve_Permutation. }
  split; [done|]. constructor; [|done]. split; [done|]. split; [done|]. split; [done|]. simpl.
  destruct (lk_live _ _ _ Hok3 a) as [[d n] Ha]; [apply elem_of_app; right; csimpl; left|]. rewrite Ha. simpl. f_equal.
  destruct (ev_arcs _ _ Hev' _ _ _ Ha) as [Hle|[m Hm]]; [|by simplify_eq].
  pose proof (lk_fresh _ _ _ Hok1 a ltac:(eauto)). lia.
Qed.

Lemma publish_placed_ok held held' refs key i placed st st' r :
  local_ok held refs st → held ≡ₚ (placed_node <$> placed) ++ held' → publish_placed key i placed st = Ret (st', r) →
  local_ok held' refs st' ∧ evolves st st'.
Proof.
  intros Hok Hh. unfold publish_placed. destruct (ls_objects st !! key) as [o|] eqn:Hk; intros Hp.
  - inv_bind. rename a into s, Hm into Hs. apply unwrap_Ret in Hs.
    assert (local_ok ((placed_node <$> placed) ++ held') refs st) as Hok' by (by eapply local_ok_refs).
    pose proof (push_replicas_ok held' refs placed st Hok') as Hn. destruct (push_replicas placed st) as [rs st1].
    destruct Hn as ([Ho Hf] & Hev & Hok1 & _). inv_bind. rewrite <- Ho in Hk.
    pose proof (add_replicas_ok held' refs st1 key o i s false rs Hok1 Hk Hs) as Hok2. split.
    + by eapply local_ok_refs; [exact Hok2|..].
    + etrans; [done|]. by apply evolves_same.
  - destruct (drop_placed_ok held held' refs st placed Hok Hh) as (st1 & Hd & _ & Hev & Hok'). rewrite Hd in Hp. by inv_bind.
Qed.

Lemma local_publish_ok held refs key op st st' r :
  local_ok held refs st → local_publish key op st = Ret (st', r) → local_ok held refs st' ∧ evolves st st'.
Proof.
  intros Hok. unfold local_publish. destruct (OpPublish_validate op) as [[device total]|e]; [|by intros [= <- <-]].
  destruct (ls_objects st !! key) as [o|] eqn:Hk; [|by intros [= <- <-]].
  destruct (spec_slots (lo_spec o) !! _) as [spec|]; [|by intros [= <- <-]]. case_decide; [by intros [= <- <-]|].
  intros Hp. inv_bind. rename a into s, Hm into Hs. apply unwrap_Ret in Hs.
  set (d := ExternalData _ _). pose proof (arc_new_ok held held refs st d Hok (Permutation_refl _)) as Hn.
  unfold arc_new in *. destruct Hn as (_ & Hev & Hok1 & _). split.
  - exact (add_replicas_ok held refs _ key o _ s (sl_writing s) [mkLocalReplica device External false (ls_next st)] Hok1 Hk Hs).
  - etrans; [done|]. by apply evolves_same.
Qed.

Lemma min_by_elem {A} (ltb : A → A → bool) l m : min_by ltb l = Some m → m ∈ l.
Proof.
  destruct l as [|x l]; simpl; [done|]. intros [= <-]. revert x. induction l as [|y l IH]; intros x; simpl; [left|].
  destruct (ltb y x); [right; apply IH|]. pose proof (IH x) as [->|?]%elem_of_cons; [left|right; by right].
Qed.

Lemma lookup_replica_ok held refs inner key op dst st st' r :
  local_ok held refs st → lookup_replica inner key op dst st = Ret (st', r) →
  evolves st st' ∧ same_meta st st' ∧ ls_pools st' = ls_pools st ∧ fst <$> ls_arcs st' = fst <$> ls_arcs st ∧
  match r with
  | Ok (rep, _) => local_ok held (lr_data rep :: refs) st' ∧
      ∃ o s, ls_objects st !! key = Some o ∧ lo_slots o !! Z.to_nat (get_slot op) = Some s ∧ rep ∈ sl_replicas s
  | Err _ => st' = st
  end.
Proof.
  intros Hok. unfold lookup_replica. destruct (ls_objects st !! key) as [o|] eqn:Hk; [|by intros [= <- <-]].
  destruct (spec_slots (lo_spec o) !! _) as [spec|]; [|by intros [= <- <-]].
  intros Hl. inv_bind. rename a into s, Hm into Hs. apply unwrap_Ret in Hs.
  destruct (local_nearest inner dst (sl_replicas s)) as [rep|] eqn:Hn; [|by simplify_eq]. apply min_by_elem in Hn.
  destruct (arc_clone_ok held refs st (lr_data rep) Hok) as (st1 & Hc & Hm & Hev & Hok1 & Hd).
  { rewrite (object_arcs_delete _ _ _ Hk), !elem_of_app. left. left. apply list_elem_of_fmap_2. by eapply elem_of_object_replicas. }
  assert (ls_pools st1 = ls_pools st) as Hp.
  { unfold arc_clone in Hc. destruct (ls_arcs st !! lr_data rep) as [[d n]|]; [|done]. by injection Hc as <-. }
  rewrite Hc in Hl. inv_bind. split; [done|]. split; [done|]. split; [done|]. split; [done|]. split; [done|]. eauto.
Qed.
End Sections.
