(* ===== verification/LocalTransfer.v ===== *)
(** * The CUDA backend: copies between devices

    [Inner::copy] writes only inside its destination, whatever it answers, and
    when the driver accepts the work it has the effect of [zip_copy] between
    host memories on every pair of devices. *)

From S2P Require Import Prelude HostMem Types Region Memory MemoryCopy Pinned Text Numa Topology Cuda LocalCopy Local.

(** A destination segment inside the address space. *)
Definition seg_bound (s : Seg) : Prop := 0 <= s.1 ∧ 0 <= s.2 <= U64_MAX ∧ s.1 + s.2 <= 2 ^ 64.

(** A chunk that writes inside the addresses [l]. *)
Definition writes_in (l : list Z) (d n : Z) : Prop := ∀ x, d <= x < d + n → x ∈ l.

Section Transfer.
Context `{BuildProfile}.

Lemma u64_wrap_range v w : u64_wrap v = Ret w → 0 <= w <= U64_MAX.
Proof.
  unfold u64_wrap. case_decide as Hv; [by intros [= <-]|]. destruct debug_build; [done|]. intros [= <-].
  pose proof (Z.mod_pos_bound v (2 ^ 64) ltac:(lia)). unfold U64_MAX. lia.
Qed.

(** ** What the walk hands to the copy engine *)

Lemma elem_of_addrs x (l : list Seg) s : s ∈ l → s.1 <= x < s.1 + s.2 → x ∈ addrs l.
Proof. intros Hs Hx. unfold addrs. apply list_elem_of_bind. exists s. split; [apply elem_of_seqZ; lia|done]. Qed.

Lemma addrs_one s x : x ∈ addrs [s] ↔ s.1 <= x < s.1 + s.2.
Proof. unfold addrs. csimpl. by rewrite app_nil_r, elem_of_seqZ. Qed.

(** An invariant of the engine's state under chunks inside the destination is
    an invariant of the walk. *)
Lemma zip_loop_inv {St} (f : St → u64 → u64 → u64 → outcome (St * Result unit)) (I : St → Prop) all fuel src s_off dst d_off remaining st st' r :
  (∀ st s d n st' r, I st → writes_in (addrs all) d n → f st s d n = Ret (st', r) → I st') →
  Forall seg_bound dst → dst ⊆ all → 0 <= d_off → (∀ d, head dst = Some d → d_off <= d.2) → 0 <= remaining →
  I st → zip_loop f fuel src s_off dst d_off remaining st = Ret (st', r) → I st'.
Proof.
  intros Hf. revert src s_off dst d_off remaining st. induction fuel as [|fuel IH];
    intros src s_off dst d_off remaining st Hb Hsub Hd0 Hd1 Hrem HI Hz; [done|].
  cbn [zip_loop] in Hz. destruct (Z.eqb_spec remaining 0) as [->|Hnz]; [by simplify_eq|].
  destruct src as [|s src]; [by simplify_eq|]. destruct dst as [|d dst]; [by simplify_eq|].
  apply bind_Ret_inv in Hz as (s_left & Hsl%u64_wrap_range & Hz). apply bind_Ret_inv in Hz as (d_left & Hdl & Hz).
  pose proof (Forall_inv Hb) as (B1 & B2 & B3). specialize (Hd1 d eq_refl).
  rewrite u64_sub_ok in Hdl by (split; lia). injection Hdl as <-.
  cbv zeta in Hz. set (n := Z.min (Z.min s_left (d.2 - d_off)) remaining) in Hz.
  assert (0 <= n ∧ n <= d.2 - d_off ∧ n <= remaining) as (Hn0 & Hn1 & Hn2) by (unfold n; lia). clearbody n.
  apply bind_Ret_inv in Hz as (sa & _ & Hz). apply bind_Ret_inv in Hz as (da & Hda & Hz).
  apply bind_Ret_inv in Hz as ([st1 r1] & Hf1 & Hz). cbv beta iota in Hz.
  assert (I st1) as HI1.
  { eapply Hf; [exact HI| |exact Hf1]. intros x Hx. rewrite u64_add_ok in Hda by (split; unfold U64_MAX; lia). injection Hda as <-.
    apply (elem_of_addrs x all d); [apply Hsub; left|lia]. }
  destruct r1 as [[]|e]; [|by simplify_eq].
  apply bind_Ret_inv in Hz as (s_off' & _ & Hz). rewrite u64_add_ok in Hz by (split; lia). cbn [mbind outcome_bind] in Hz.
  apply bind_Ret_inv in Hz as (rem' & Hrem' & Hz).
  assert (0 <= rem') by (apply u64_wrap_range in Hrem'; lia).
  destruct (if s_off' =? s.2 then _ else _) as [src' s_off'']. destruct (Z.eqb_spec (d_off + n) d.2) as [He|He].
  - eapply IH; [| | | | | |exact Hz]; [by apply Forall_cons in Hb as []|intros x Hx; apply Hsub; by right|done| |done|done].
    intros d' Hd'. apply Forall_cons in Hb as [_ Hb]. destruct dst as [|d0 dst]; simplify_eq/=.
    pose proof (Forall_inv Hb) as (_ & ? & _). lia.
  - eapply IH; [| | | | | |exact Hz]; [done|done|lia| |done|done]. intros d' [= <-]. lia.
Qed.

Lemma zip_copy_inv {St} (f : St → u64 → u64 → u64 → outcome (St * Result unit)) (I : St → Prop) src src_offset dst total st st' r :
  (∀ st s d n st' r, I st → writes_in (addrs dst) d n → f st s d n = Ret (st', r) → I st') →
  Forall seg_bound dst → 0 <= total → I st → zip_copy f src src_offset dst total st = Ret (st', r) → I st'.
Proof.
  intros Hf Hb Ht HI Hz. unfold zip_copy in Hz. apply bind_Ret_inv in Hz as ([src' s_off] & _ & Hz).
  eapply (zip_loop_inv f I dst _ _ _ _ 0 total); [exact Hf|exact Hb|done|done| |done|exact HI|exact Hz].
  intros d Hd. destruct dst as [|d0 dst]; simplify_eq/=. pose proof (Forall_inv Hb) as (_ & ? & _). lia.
Qed.

(** ** Frame *)

(** [h'] differs from [h] only in the values at the addresses [l]. *)
Definition only_in (l : list Z) (h h' : heap) : Prop :=
  (∀ x, x ∉ l → h' !! x = h !! x) ∧ ∀ x, is_Some (h' !! x) ↔ is_Some (h !! x).

Lemma only_in_refl l h : only_in l h h.
Proof. by split. Qed.

Lemma only_in_trans l h1 h2 h3 : only_in l h1 h2 → only_in l h2 h3 → only_in l h1 h3.
Proof. intros [A1 B1] [A2 B2]. split; [intros x Hx; by rewrite A2, A1|intros x; by rewrite B2]. Qed.

Lemma host_copy_only_in l h s d n h' r : writes_in l d n → host_copy h s d n = Ret (h', r) → only_in l h h'.
Proof.
  intros Hw. unfold host_copy. case_decide; [done|].
  destruct (load h s (Z.to_nat n)) as [bs|] eqn:Hl; [|done]. apply load_length in Hl. cbn [deref mbind outcome_bind].
  destruct (store h d bs) as [h2|] eqn:Hst; [|done]. intros [= <- _]. split.
  - intros x Hx. apply (store_lookup_ne _ _ _ _ _ Hst). intros Hin. apply Hx, Hw. lia.
  - intros x. by apply (store_dom _ _ _ _ _ Hst).
Qed.

Lemma run_chunks_only_in l q h h' :
  Forall (λ c : chunk, writes_in l c.1.2 c.2) q → mfoldl run_chunk h q = Ret h' → only_in l h h'.
Proof.
  intros Hq. revert h. induction Hq as [|c q Hc Hq IH]; intros h Hr; simpl in Hr; [simplify_eq; apply only_in_refl|].
  apply bind_Ret_inv in Hr as (h1 & Hc1 & Hr). unfold run_chunk in Hc1. apply bind_Ret_inv in Hc1 as ([h2 r] & Hh & Hc1).
  simplify_eq. eapply only_in_trans; [by eapply host_copy_only_in|by apply IH].
Qed.

(** Whatever [copy] answers, only its destination may change, and what it leaves
    pending writes nowhere else. *)
Lemma copy_only_in inner dr src_dev src off dst_dev dst total h h' q r :
  Forall seg_bound dst → 0 <= total → copy inner dr src_dev src off dst_dev dst total h = Ret (h', q, r) →
  only_in (addrs dst) h h' ∧ Forall (λ c : chunk, writes_in (addrs dst) c.1.2 c.2) q.
Proof.
  intros Hb Ht Hc.
  assert (∀ en r0 q0, zip_copy (enqueue en) src off dst total [] = Ret (q0, r0) → Forall (λ c : chunk, writes_in (addrs dst) c.1.2 c.2) q0) as Hq.
  { intros en r0 q0 Hz. eapply (zip_copy_inv (enqueue en)); [|done|done| |exact Hz]; [|constructor].
    intros q1 s d n q2 r1 Hq1 Hw He. unfold enqueue in He. destruct (en_enqueue en s d n); simplify_eq; [|done].
    apply Forall_app. split; [done|]. by constructor. }
  assert (∀ g : Result Engine, match g with
    | Err e => Ret (h, [], Err e)
    | Ok en =>
        '(q, r) ← zip_copy (enqueue en) src off dst total [];
        match r with
        | Err e => Ret (h, q, Err e)
        | Ok _ => match en_sync en with Err e => Ret (h, q, Err e) | Ok _ => h ← mfoldl run_chunk h q; Ret (h, [], Ok tt) end
        end
    end = Ret (h', q, r) → only_in (addrs dst) h h' ∧ Forall (λ c : chunk, writes_in (addrs dst) c.1.2 c.2) q) as Hgpu.
  { intros [en|e] Hg; [|simplify_eq; split; [apply only_in_refl|constructor]].
    apply bind_Ret_inv in Hg as ([q0 r0] & Hz & Hg). specialize (Hq _ _ _ Hz).
    destruct r0 as [[]|e]; [|simplify_eq; split; [apply only_in_refl|done]].
    destruct (en_sync en); [|simplify_eq; split; [apply only_in_refl|done]].
    apply bind_Ret_inv in Hg as (h1 & Hrun & Hg). simplify_eq. split; [by eapply run_chunks_only_in|constructor]. }
  destruct src_dev as [n|i], dst_dev as [m|j]; try (by eapply Hgpu).
  cbn [copy] in Hc. apply bind_Ret_inv in Hc as ([h1 r1] & Hz & Hc). simplify_eq. split; [|constructor].
  eapply (zip_copy_inv host_copy (only_in (addrs dst) h)); [|done|done|apply only_in_refl|exact Hz].
  intros h1 s d k h2 r2 H1 Hw Hh. eapply only_in_trans; [exact H1|by eapply host_copy_only_in].
Qed.

(** ** Streams *)

(** An engine that accepts every copy and synchronises. *)
Definition accepts (en : Engine) : Prop := (∀ s d n, en_enqueue en s d n = Ok tt) ∧ en_sync en = Ok tt.

Lemma mfoldl_app {A B} (f : B → A → outcome B) b l1 l2 : mfoldl f b (l1 ++ l2) = (b ← mfoldl f b l1; mfoldl f b l2).
Proof. revert b. induction l1 as [|x l1 IH]; intros b; simpl; [done|]. destruct (f b x); simpl; [apply IH|done|done]. Qed.

(** Enqueueing and then running the queue is copying at once. *)
Lemma zip_loop_enqueue en fuel src s_off dst d_off remaining h h' q :
  accepts en → zip_loop host_copy fuel src s_off dst d_off remaining h = Ret (h', Ok tt) →
  ∃ cs, zip_loop (enqueue en) fuel src s_off dst d_off remaining q = Ret (q ++ cs, Ok tt) ∧ mfoldl run_chunk h cs = Ret h'.
Proof.
  intros [Hacc _].
  assert (∀ q s d n, enqueue en q s d n = Ret (q ++ [(s, d, n)], Ok tt)) as Henq by (intros; unfold enqueue; by rewrite Hacc).
  revert src s_off dst d_off remaining h q. induction fuel as [|fuel IH]; intros src s_off dst d_off remaining h q Hz; [done|].
  cbn [zip_loop] in *. destruct (remaining =? 0); [injection Hz as <-; exists []; by rewrite app_nil_r|].
  destruct src as [|s src]; [done|]. destruct dst as [|d dst]; [done|].
  apply bind_Ret_inv in Hz as (s_left & -> & Hz). apply bind_Ret_inv in Hz as (d_left & -> & Hz).
  apply bind_Ret_inv in Hz as (sa & Hsa & Hz). apply bind_Ret_inv in Hz as (da & Hda & Hz).
  apply bind_Ret_inv in Hz as ([h1 r1] & Hc & Hz). cbn [mbind outcome_bind]. rewrite Hsa. cbn [mbind outcome_bind]. rewrite Hda.
  cbn [mbind outcome_bind]. rewrite Henq. cbn [mbind outcome_bind]. destruct r1 as [[]|e]; [|done].
  apply bind_Ret_inv in Hz as (s_off' & -> & Hz). apply bind_Ret_inv in Hz as (d_off' & -> & Hz).
  apply bind_Ret_inv in Hz as (rem' & -> & Hz). cbn [mbind outcome_bind].
  destruct (if s_off' =? s.2 then _ else _) as [src' s_off'']. destruct (if d_off' =? d.2 then _ else _) as [dst' d_off''].
  set (c := (sa, da, Z.min (Z.min s_left d_left) remaining)) in *.
  destruct (IH _ _ _ _ _ _ (q ++ [c]) Hz) as (cs & Hcs & Hrun). exists (c :: cs). rewrite <- (assoc_L (++)) in Hcs. split; [done|].
  cbn [mfoldl]. assert (run_chunk h c = Ret h1) as -> by (unfold run_chunk, c; cbn [fst snd]; by rewrite Hc). done.
Qed.

(** The GPUs a copy needs are served, and the driver accepts it. *)
Definition engine_ok (inner : LocalInner) (dr : CudaSys) (src_dev dst_dev : Device) : Prop :=
  ∃ en, engine inner dr src_dev dst_dev = Ok en ∧ accepts en.

Lemma copy_zip inner dr src_dev src off dst_dev dst total h h' :
  engine_ok inner dr src_dev dst_dev → zip_copy host_copy src off dst total h = Ret (h', Ok tt) →
  copy inner dr src_dev src off dst_dev dst total h = Ret (h', [], Ok tt).
Proof.
  intros (en & Hg & Hacc) Hz.
  assert (∃ cs, zip_copy (enqueue en) src off dst total [] = Ret (cs, Ok tt) ∧ mfoldl run_chunk h cs = Ret h') as (cs & Hcs & Hrun).
  { unfold zip_copy in *. apply bind_Ret_inv in Hz as ([src' s_off] & -> & Hz). cbn [mbind outcome_bind].
    by apply (zip_loop_enqueue en) with (q := []) in Hz as (cs & ? & ?); [exists cs|]. }
  unfold copy. destruct src_dev as [n|i], dst_dev as [m|j]; [by rewrite Hz|..];
    rewrite Hg, Hcs; cbn [mbind outcome_bind]; destruct Hacc as [_ ->]; by rewrite Hrun.
Qed.

(** Destination and source of a copy that may be made. *)
Record copy_pre (h : heap) (src : list Seg) (off : u64) (dst : list Seg) (total : u64) : Prop := mkCopyPre {
  cp_src : Forall (seg_ok h) src;
  cp_dst : Forall (seg_ok h) dst;
  cp_off : 0 <= off <= U64_MAX;
  cp_total : 0 <= total <= U64_MAX;
  cp_range : off + total <= zsum (src.*2);
  cp_room : total = zsum (dst.*2);
  cp_nodup : NoDup (addrs dst);
  cp_apart x : x ∈ addrs src → x ∉ addrs dst;
}.

Lemma copy_ok inner dr src_dev src off dst_dev dst total h :
  engine_ok inner dr src_dev dst_dev → copy_pre h src off dst total →
  ∃ h', copy inner dr src_dev src off dst_dev dst total h = Ret (h', [], Ok tt) ∧
    segs_contents h' dst = take (Z.to_nat total) (drop (Z.to_nat off) (segs_contents h src)) ∧ only_in (addrs dst) h h'.
Proof.
  intros Heng [Hs Hd Ho Ht Hr Hroom Hnd Hap].
  destruct (zip_copy_correct h src off dst total Hs Hd Ho Ht Hr Hroom Hnd Hap) as (h' & Hz & Hc & Hframe).
  pose proof (copy_zip _ _ _ _ _ _ _ _ _ _ Heng Hz) as Hcopy. exists h'. split; [done|]. split; [done|].
  eapply copy_only_in; [|apply Ht|exact Hcopy]. eapply Forall_impl; [exact Hd|].
  intros s (H1 & H2 & H3 & _). split; [lia|]. split; [lia|done].
Qed.

(** C15: A copy between any two devices delivers: when the GPUs are served and the
    driver accepts the work, [copy] returns with nothing pending, the destination
    holds exactly the requested range of the source, however both are cut into
    segments, and no other address changes; the stream's queue has the effect of
    the direct copy. *)
Theorem copy_correct inner dr src_dev src off dst_dev dst total h :
  engine_ok inner dr src_dev dst_dev → copy_pre h src off dst total →
  ∃ h', copy inner dr src_dev src off dst_dev dst total h = Ret (h', [], Ok tt) ∧
    segs_contents h' dst = take (Z.to_nat total) (drop (Z.to_nat off) (segs_contents h src)) ∧ only_in (addrs dst) h h'.
Proof. apply copy_ok. Qed.

(** Whatever the driver answers, a copy writes nowhere but into its destination, and
    the chunks it leaves pending do not either. *)
Theorem copy_confined inner dr src_dev src off dst_dev dst total h h' q r :
  Forall seg_bound dst → 0 <= total → copy inner dr src_dev src off dst_dev dst total h = Ret (h', q, r) →
  only_in (addrs dst) h h' ∧ Forall (λ c : chunk, writes_in (addrs dst) c.1.2 c.2) q.
Proof. apply copy_only_in. Qed.
End Transfer.
