(* ===== verification/LocalSteps.v ===== *)
(** * The CUDA backend: concurrent callers

    The critical sections of concurrent puts, gets, publishes, removals and
    region drops in any order.  A put holds the buffers it allocated until it
    publishes or drops them; a get holds a reference to a replica's bytes while
    it copies.  A section that panics poisons the lock and ends the execution;
    copies are those after which nothing is left pending on a stream. *)

From S2P Require Import Prelude HostMem Types Region Memory MemoryCopy Pinned Text Numa Topology Cuda LocalCopy Local LocalInv LocalEvict LocalSections LocalTransfer.

Record Cfg : Type := mkCfg {
  cf_st : LocalState;
  cf_heap : heap;
  cf_held : list node_buf;
  cf_refs : list nat;
}.

(** Addresses of the pools. *)
Definition in_pool (pools : gmap u16 LocalPool) (x : Z) : Prop :=
  ∃ numa p, pools !! numa = Some p ∧ lp_base p <= x < lp_base p + lp_len p.

(** The pools are mapped and apart. *)
Record layout_ok (pools : gmap u16 LocalPool) (h : heap) : Prop := mkLayoutOk {
  ly_range numa p : pools !! numa = Some p → 0 <= lp_base p ∧ lp_base p + lp_len p <= U64_MAX;
  ly_mapped numa p : pools !! numa = Some p → mapped h (lp_base p) (lp_len p);
  ly_apart n m p q : n ≠ m → pools !! n = Some p → pools !! m = Some q →
    lp_base p + lp_len p <= lp_base q ∨ lp_base q + lp_len q <= lp_base p;
}.

Definition cfg_ok (c : Cfg) : Prop := local_ok (cf_held c) (cf_refs c) (cf_st c) ∧ layout_ok (ls_pools (cf_st c)) (cf_heap c).

(** The heap may change outside the pools. *)
Definition keeps_pools (pools : gmap u16 LocalPool) (h h' : heap) : Prop := ∀ x, in_pool pools x → h' !! x = h !! x.

Section Steps.
Context `{BuildProfile} (inner : LocalInner).

(** One critical section of some caller, or one copy outside the lock.  The
    sections are those that return, copies leave nothing pending, and an
    allocation asks for at least one byte (see [Pinned.pool_step]). *)
Inductive local_step : Cfg → Cfg → Prop :=
| lstep_claim st h held refs key spec st' w
    (E1 : claim key spec st = Ok (st', w)) :
    local_step (mkCfg st h held refs) (mkCfg st' h held refs)
| lstep_alloc st h held refs numa len st' b
    (E1 : is_Some (ls_pools st !! numa))
    (E2 : 0 < len)
    (E3 : len + ALIGN <= U64_MAX)
    (E4 : pool_alloc numa len st = Ret (st', Some b)) :
    local_step (mkCfg st h held refs) (mkCfg st' h ((numa, b) :: held) refs)
| lstep_evict st h held refs device protect st' ev
    (E1 : evict_section device protect st = Ret (st', ev)) :
    local_step (mkCfg st h held refs) (mkCfg st' h held refs)
| lstep_copy_in st h held held' refs numa b p dr src_dev src h' r
    (E1 : held ≡ₚ (numa, b) :: held')
    (E2 : ls_pools st !! numa = Some p)
    (E3 : copy inner dr src_dev src 0 (Cpu numa) [(buf_addr p b, buf_len b)] (buf_len b) h = Ret (h', [], r)) :
    local_step (mkCfg st h held refs) (mkCfg st h' held refs)
| lstep_release st h held held' refs numa b st'
    (E1 : held ≡ₚ (numa, b) :: held')
    (E2 : pool_release numa b st = Ret st') :
    local_step (mkCfg st h held refs) (mkCfg st' h held' refs)
| lstep_publish_placed st h held held' refs key i placed st' r
    (E1 : held ≡ₚ (placed_node <$> placed) ++ held')
    (E2 : publish_placed key i placed st = Ret (st', r)) :
    local_step (mkCfg st h held refs) (mkCfg st' h held' refs)
| lstep_unclaim st h held refs key i st'
    (E1 : unclaim key i st = Ret st') :
    local_step (mkCfg st h held refs) (mkCfg st' h held refs)
| lstep_publish st h held refs key op st' r
    (E1 : local_publish key op st = Ret (st', r)) :
    local_step (mkCfg st h held refs) (mkCfg st' h held refs)
| lstep_lookup st h held refs key op dst st' r len
    (E1 : lookup_replica inner key op dst st = Ret (st', Ok (r, len))) :
    local_step (mkCfg st h held refs) (mkCfg st' h held (lr_data r :: refs))
| lstep_copy_out st h held refs dr r op dst_device dst_len h' res
    (E1 : lr_data r ∈ refs)
    (E2 : 0 <= dst_len)
    (E3 : Forall seg_bound (iov_segs (get_dst op)))
    (E4 : (∀ x, x ∈ addrs (iov_segs (get_dst op)) → ¬ in_pool (ls_pools st) x))
    (E5 : get_copy inner dr r op dst_device dst_len (mkLocalWorld h []) st = Ret (mkLocalWorld h' [], res)) :
    local_step (mkCfg st h held refs) (mkCfg st h' held refs)
| lstep_drop st h held refs refs' a st'
    (E1 : refs ≡ₚ a :: refs')
    (E2 : arc_drop a st = Ret st') :
    local_step (mkCfg st h held refs) (mkCfg st' h held refs')
| lstep_remove st h held refs keys st'
    (E1 : local_remove st keys = Ret st') :
    local_step (mkCfg st h held refs) (mkCfg st' h held refs)
| lstep_remove_prefix st h held refs pfx st' n
    (E1 : local_remove_prefix st pfx = Ret (st', n)) :
    local_step (mkCfg st h held refs) (mkCfg st' h held refs)
| lstep_retire st h held refs id st'
    (E1 : local_retire_region st id = Ret st') :
    local_step (mkCfg st h held refs) (mkCfg st' h held refs)
| lstep_caller st h held refs h'
    (E1 : keeps_pools (ls_pools st) h h') :
    local_step (mkCfg st h held refs) (mkCfg st h' held refs).

(** ** Where buffers are *)

Definition buf_range (p : LocalPool) (b : PinnedBuf) (x : Z) : Prop := buf_addr p b <= x < buf_addr p b + buf_len b.

Lemma buf_placed held refs st h numa b p :
  local_ok held refs st → layout_ok (ls_pools st) h → (numa, b) ∈ held ++ arc_bufs (ls_arcs st) → ls_pools st !! numa = Some p →
  buf_addr p b = lp_base p + buf_off b ∧ 0 <= buf_off b ∧ 0 < buf_len b <= buf_reserved b ∧ buf_off b + buf_reserved b <= lp_len p ∧
  0 <= lp_base p ∧ lp_base p + lp_len p <= U64_MAX.
Proof.
  intros Hok Hly Hin Hp. destruct (lk_known _ _ _ Hok _ Hin) as [_ Hlen]. simpl in Hlen.
  pose proof (po_out _ _ _ (lk_pools _ _ _ Hok _ _ Hp)) as Hout. rewrite Forall_forall in Hout.
  destruct (Hout b) as (H1 & H2 & H3); [by apply elem_of_on_node|]. unfold end_le, buf_frag in H3. simpl in H3.
  destruct (ly_range _ _ Hly _ _ Hp) as [H4 H5]. unfold U64_MAX in *.
  unfold buf_addr, wrapping_add. rewrite Z.mod_small by lia. lia.
Qed.

Lemma owned_in_pool held refs st h numa b p x :
  local_ok held refs st → layout_ok (ls_pools st) h → (numa, b) ∈ held ++ arc_bufs (ls_arcs st) → ls_pools st !! numa = Some p →
  buf_range p b x → in_pool (ls_pools st) x.
Proof.
  intros Hok Hly Hin Hp Hx. destruct (buf_placed _ _ _ _ _ _ _ Hok Hly Hin Hp) as (Ha & ? & ? & ? & ? & ?).
  exists numa, p. split; [done|]. unfold buf_range in Hx. lia.
Qed.

(** Two owned buffers do not share an address. *)
Lemma owned_apart held held' refs st h n b m c p q x :
  local_ok held refs st → layout_ok (ls_pools st) h → held ≡ₚ (n, b) :: held' → (m, c) ∈ held' ++ arc_bufs (ls_arcs st) →
  ls_pools st !! n = Some p → ls_pools st !! m = Some q → buf_range p b x → buf_range q c x → False.
Proof.
  intros Hok Hly Hh Hin Hp Hq Hx Hy.
  assert ((n, b) ∈ held ++ arc_bufs (ls_arcs st)) as Hin1 by (rewrite Hh; apply elem_of_app; left; left).
  assert ((m, c) ∈ held ++ arc_bufs (ls_arcs st)) as Hin2 by (rewrite Hh, <- app_comm_cons; by right).
  destruct (buf_placed _ _ _ _ _ _ _ Hok Hly Hin1 Hp) as (Ha & ? & ? & ? & ? & ?).
  destruct (buf_placed _ _ _ _ _ _ _ Hok Hly Hin2 Hq) as (Hb & ? & ? & ? & ? & ?). unfold buf_range in *.
  destruct (decide (n = m)) as [->|Hne].
  - simplify_eq. pose proof (lk_pools _ _ _ Hok _ _ Hp) as Hpo.
    assert (pool_ok (lp_len p) (lp_free p) (b :: on_node m (held' ++ arc_bufs (ls_arcs st)))) as Hpo'.
    { eapply pool_ok_perm; [|exact Hpo]. by rewrite Hh, <- app_comm_cons, on_node_cons_eq. }
    pose proof (bufs_apart _ [] b _ (po_out _ _ _ Hpo') (po_disjoint _ _ _ Hpo') c) as [_ Hd].
    { simpl. by apply elem_of_on_node. }
    unfold frags_disjoint, buf_frag in Hd. simpl in Hd. lia.
  - destruct (ly_apart _ _ Hly n m p q Hne Hp Hq); lia.
Qed.

Lemma elem_of_arc_bufs arcs a numa b n : arcs !! a = Some (PinnedData numa b, n) → (numa, b) ∈ arc_bufs arcs.
Proof. intros Ha. rewrite (arc_bufs_delete _ _ _ _ Ha). apply elem_of_app. left. left. Qed.

(** The bytes of published buffers do not change. *)
Definition keeps_published (st : LocalState) (h h' : heap) : Prop :=
  ∀ a numa b n p x, ls_arcs st !! a = Some (PinnedData numa b, n) → ls_pools st !! numa = Some p → buf_range p b x → h' !! x = h !! x.

Lemma keeps_pools_published held refs st h h' :
  local_ok held refs st → layout_ok (ls_pools st) h → keeps_pools (ls_pools st) h h' →
  keeps_published st h h' ∧ layout_ok (ls_pools st) h'.
Proof.
  intros Hok Hly Hk. split.
  - intros a numa b n p x Ha Hp Hx. apply Hk. eapply owned_in_pool; [done|done| |done|done].
    apply elem_of_app. right. by eapply elem_of_arc_bufs.
  - destruct Hly as [H1 H2 H3]. constructor; [done| |done]. intros numa p Hp x Hx. rewrite Hk; [by eapply H2|]. by exists numa, p.
Qed.

Lemma layout_ok_dom pools h h' : (∀ x, is_Some (h' !! x) ↔ is_Some (h !! x)) → layout_ok pools h → layout_ok pools h'.
Proof. intros Hd [H1 H2 H3]. constructor; [done| |done]. intros numa p Hp x Hx. apply Hd. by eapply H2. Qed.

Lemma layout_ok_evolves st st' h : evolves st st' → layout_ok (ls_pools st) h → layout_ok (ls_pools st') h.
Proof.
  intros Hev [H1 H2 H3].
  assert (∀ numa p', ls_pools st' !! numa = Some p' → ∃ p, ls_pools st !! numa = Some p ∧ lp_base p' = lp_base p ∧ lp_len p' = lp_len p) as Hp.
  { intros numa p' Hp'. pose proof (ev_pools _ _ Hev numa) as Heq. rewrite Hp' in Heq. symmetry in Heq.
    apply fmap_Some in Heq as (p & Hp & Heq). unfold pool_place in Heq. simplify_eq. by exists p. }
  constructor.
  - intros numa p' (p & Hq & -> & ->)%Hp. by eapply H1.
  - intros numa p' (p & Hq & -> & ->)%Hp. by eapply H2.
  - intros n m p' q' Hne (p & Hq & -> & ->)%Hp (q & Hq' & -> & ->)%Hp. by eapply H3.
Qed.

(** ** Every section keeps ownership *)

Lemma local_remove_prefix_ok held refs st prefix :
  local_ok held refs st →
  ∃ st', local_remove_prefix st prefix = Ret (st', Z.of_nat (length (local_prefix_keys st prefix))) ∧
    ls_objects st' = foldl (λ m k, delete k m) (ls_objects st) (local_prefix_keys st prefix) ∧
    evolves st st' ∧ local_ok held refs st'.
Proof.
  intros Hok. destruct (local_remove_ok held refs st (local_prefix_keys st prefix) Hok) as (st' & Hr & Ho & _ & Hev & Hok').
  unfold local_remove in Hr. unfold local_remove_prefix. rewrite Hr. by exists st'.
Qed.

(** A step that leaves the memory alone. *)
Lemma quiet_step (st st' : LocalState) (h : heap) (held' : list node_buf) (refs' : list nat) :
  local_ok held' refs' st' ∧ evolves st st' → layout_ok (ls_pools st) h →
  cfg_ok (mkCfg st' h held' refs') ∧ evolves st st' ∧ keeps_published st h h.
Proof. intros [Hok Hev] Hly. split; [|done]. split; [done|]. by eapply layout_ok_evolves. Qed.

(** A copy into a buffer still held by its put. *)
Lemma copy_in_keeps st h held held' refs numa b p dr src_dev src h' q r :
  local_ok held refs st → layout_ok (ls_pools st) h → held ≡ₚ (numa, b) :: held' → ls_pools st !! numa = Some p →
  copy inner dr src_dev src 0 (Cpu numa) [(buf_addr p b, buf_len b)] (buf_len b) h = Ret (h', q, r) →
  layout_ok (ls_pools st) h' ∧ keeps_published st h h' ∧ ∀ x, ¬ buf_range p b x → h' !! x = h !! x.
Proof.
  intros Hok Hly Hh Hp Hc.
  assert ((numa, b) ∈ held ++ arc_bufs (ls_arcs st)) as Hin by (rewrite Hh; apply elem_of_app; left; left).
  destruct (buf_placed _ _ _ _ _ _ _ Hok Hly Hin Hp) as (Ha & ? & ? & ? & ? & ?).
  apply copy_only_in in Hc as [[Hout Hdom] _]; [|constructor; [|constructor]; split; simpl; unfold U64_MAX in *; lia|lia].
  assert (∀ x, ¬ buf_range p b x → h' !! x = h !! x) as Hframe.
  { intros x Hx. apply Hout. by rewrite addrs_one. }
  split; [by eapply layout_ok_dom|]. split; [|done]. intros a m c n q' x Ha' Hq Hx. apply Hframe. intros Hx'.
  eapply (owned_apart held held' refs st h numa b m c p q' x); try done. apply elem_of_app. right. by eapply elem_of_arc_bufs.
Qed.

Lemma get_copy_keeps st h dr r op dst_device dst_len h' q res :
  0 <= dst_len → Forall seg_bound (iov_segs (get_dst op)) →
  (∀ x, x ∈ addrs (iov_segs (get_dst op)) → ¬ in_pool (ls_pools st) x) →
  get_copy inner dr r op dst_device dst_len (mkLocalWorld h []) st = Ret (mkLocalWorld h' q, res) → keeps_pools (ls_pools st) h h'.
Proof.
  intros Hn Hb Hout Hc x Hx. unfold get_copy in Hc. apply bind_Ret_inv in Hc as ([d n] & _ & Hc).
  apply bind_Ret_inv in Hc as (segs & _ & Hc). apply bind_Ret_inv in Hc as ([[h1 q1] r1] & Hcp & Hc).
  apply copy_only_in in Hcp as [[Hframe _] _]; [|done|done].
  assert (h' = h1) as -> by (destruct r1; by simplify_eq). apply Hframe. intros Hin. by eapply Hout.
Qed.

(** Two answers of one call are equal. *)
Ltac ret_eq := match goal with A : ?t = Ret _, B : ?t = Ret _ |- _ => rewrite A in B; simplify_eq end.

Lemma local_step_ok c c' :
  local_step c c' → cfg_ok c →
  cfg_ok c' ∧ evolves (cf_st c) (cf_st c') ∧ keeps_published (cf_st c) (cf_heap c) (cf_heap c').
Proof.
  intros Hs [Hok Hly]. destruct Hs; simpl in *.
  - apply quiet_step; [by eapply claim_ok|done].
  - destruct E1 as [p Hp]. destruct (pool_alloc_ok held refs st numa len p Hok Hp E2 E3) as (st1 & r & Ha & _ & Hev & Hr).
    rewrite E4 in Ha. simplify_eq. apply quiet_step; [by destruct Hr|done].
  - pose proof (evict_section_ok held refs device protect st Hok) as He. rewrite E1 in He. apply quiet_step; [|done].
    destruct He as (Hev & Hok' & _). by split.
  - destruct (copy_in_keeps st h held held' refs numa b p dr src_dev src h' [] r) as (Hly' & Hk & _); done.
  - destruct (pool_release_ok held held' refs st numa b Hok E1) as (st1 & Hr & _ & _ & Hev & Hok'). ret_eq.
    by apply quiet_step.
  - apply quiet_step; [by eapply publish_placed_ok|done].
  - apply quiet_step; [by eapply unclaim_ok|done].
  - apply quiet_step; [by eapply local_publish_ok|done].
  - apply (lookup_replica_ok held refs) in E1 as (Hev & _ & _ & _ & Hok' & _); [|done]. by apply quiet_step.
  - pose proof (get_copy_keeps st h dr r op dst_device dst_len h' [] res E2 E3 E4 E5) as Hk.
    destruct (keeps_pools_published held refs st h h' Hok Hly Hk) as [? ?]. by split; [split|].
  - destruct (arc_drop_ok held refs refs' st a Hok E1) as (st1 & Hr & _ & Hev & Hok'). ret_eq. by apply quiet_step.
  - destruct (local_remove_ok held refs st keys Hok) as (st1 & Hr & _ & _ & Hev & Hok'). ret_eq. by apply quiet_step.
  - destruct (local_remove_prefix_ok held refs st pfx Hok) as (st1 & Hr & _ & Hev & Hok'). ret_eq. by apply quiet_step.
  - destruct (local_retire_region_ok held refs st id Hok) as (st1 & Hr & _ & _ & Hev & Hok'). ret_eq. by apply quiet_step.
  - destruct (keeps_pools_published held refs st h h' Hok Hly E1) as [? ?]. by split; [split|].
Qed.
End Steps.
