(* ===== verification/LocalTheorems.v ===== *)
(** * The CUDA backend: theorems

    Over every interleaving of critical sections: buffers are exclusive,
    reference counts exact and nothing leaks; published bytes do not change
    while anybody can read them, and a reader gets them. *)

From S2P Require Import Prelude HostMem Types Region Memory MemoryCopy Pinned Text Numa Topology Cuda LocalCopy Local LocalInv LocalEvict LocalSections LocalTransfer LocalSteps.

(** The state of a backend just built: empty pools of whole units. *)
Record local_fresh (st : LocalState) : Prop := mkLocalFresh {
  fr_objects : ls_objects st = ∅;
  fr_arcs : ls_arcs st = ∅;
  fr_pools numa p : ls_pools st !! numa = Some p → lp_free p = [(0, lp_len p)] ∧ 0 < lp_len p <= U64_MAX ∧ (ALIGN | lp_len p);
}.

Section Theorems.
Context `{BuildProfile} (inner : LocalInner).

Lemma fresh_ok st : local_fresh st → local_ok [] [] st.
Proof.
  intros [Ho Ha Hp]. assert (arc_bufs ∅ = []) as Eb by done. assert (object_arcs ∅ = []) as Eo by done.
  constructor; rewrite ?Ho, ?Ha, ?Eb, ?Eo; simpl.
  - intros numa p Hn. destruct (Hp _ _ Hn) as (-> & ? & ?). by apply pool_ok_init.
  - by intros x ?%elem_of_nil.
  - intros a d n. by rewrite lookup_empty.
  - by intros a ?%elem_of_nil.
  - intros a. rewrite lookup_empty. by intros [? ?].
Qed.

Lemma local_steps_ok c c' :
  rtc (local_step inner) c c' → cfg_ok c → cfg_ok c' ∧ evolves (cf_st c) (cf_st c').
Proof.
  induction 1 as [c|c1 c2 c3 Hs _ IH]; intros Hok; [by split|].
  destruct (local_step_ok inner c1 c2 Hs Hok) as (Hok2 & Hev & _). destruct (IH Hok2) as [Hok3 Hev']. split; [done|by etrans].
Qed.

Lemma pool_place_Some st st' numa p : evolves st st' → ls_pools st !! numa = Some p →
  ∃ p', ls_pools st' !! numa = Some p' ∧ pool_place p' = pool_place p.
Proof.
  intros Hev Hp. pose proof (ev_pools _ _ Hev numa) as He. rewrite Hp in He. apply fmap_Some in He as (p' & ? & ?). eauto.
Qed.

Lemma buf_range_place p p' b x : pool_place p' = pool_place p → buf_range p' b x ↔ buf_range p b x.
Proof. unfold pool_place, buf_range, buf_addr. intros [= -> _]. done. Qed.

(** An [Arc] alive at both ends is the same one, and its bytes are the same. *)
Lemma arc_stable c c' a d n d' n' :
  rtc (local_step inner) c c' → cfg_ok c → ls_arcs (cf_st c) !! a = Some (d, n) → ls_arcs (cf_st c') !! a = Some (d', n') →
  d' = d ∧ ∀ numa b p x, d = PinnedData numa b → ls_pools (cf_st c) !! numa = Some p → buf_range p b x →
    cf_heap c' !! x = cf_heap c !! x.
Proof.
  intros Hr. revert n. induction Hr as [c|c1 c2 c3 Hs Hr IH]; intros n Hok Ha Ha'; [by simplify_eq|].
  destruct (local_step_ok inner c1 c2 Hs Hok) as (Hok2 & Hev & Hk). destruct (local_steps_ok c2 c3 Hr Hok2) as [_ Hev'].
  pose proof (lk_fresh _ _ _ (proj1 Hok) a ltac:(eauto)) as Hlt. pose proof (ev_next _ _ Hev) as Hnext.
  destruct (ev_arcs _ _ Hev' _ _ _ Ha') as [?|[m Hm]]; [lia|].
  destruct (ev_arcs _ _ Hev _ _ _ Hm) as [?|[m' Hm']]; [lia|]. simplify_eq.
  destruct (IH m Hok2 Hm Ha') as [_ Hbytes]. split; [done|]. intros numa b p x -> Hp Hx.
  destruct (pool_place_Some _ _ _ _ Hev Hp) as (p' & Hp' & Hpl).
  rewrite (Hbytes numa b p' x eq_refl Hp') by (by rewrite buf_range_place). by eapply Hk.
Qed.

Lemma reachable_cfg_ok st h c' :
  local_fresh st → layout_ok (ls_pools st) h → rtc (local_step inner) (mkCfg st h [] []) c' → cfg_ok c'.
Proof. intros Hf Hly Hr. eapply local_steps_ok; [exact Hr|]. split; [by apply fresh_ok|done]. Qed.

(** C11: Whatever the interleaving of concurrent callers, in every configuration
    reached from an empty backend by allocations of at least one byte and copies
    that leave nothing pending, each pool's free list complements exactly the
    buffers held by puts and by live [Arc]s, which are pairwise disjoint, aligned
    and inside the pool, and each strong count is the number of references in the
    metadata and in the hands of readers. *)
Theorem local_ownership st h c' :
  local_fresh st → layout_ok (ls_pools st) h → rtc (local_step inner) (mkCfg st h [] []) c' →
  local_ok (cf_held c') (cf_refs c') (cf_st c').
Proof. intros Hf Hly Hr. apply (reachable_cfg_ok st h c' Hf Hly Hr). Qed.

(** C16: Nothing leaks when every allocation asked for at least one byte: once
    every object is gone and no caller is inside an operation, each pool is a
    single free fragment again and no [Arc] is alive. (A zero-length buffer can
    leave an empty fragment behind, [Pinned.zero_length_alloc_fragments]; the
    steps of [local_step] allocate at least one byte.) *)
Theorem local_no_leak st h c' numa p :
  local_fresh st → layout_ok (ls_pools st) h → rtc (local_step inner) (mkCfg st h [] []) c' →
  ls_objects (cf_st c') = ∅ → cf_held c' = [] → cf_refs c' = [] → ls_pools (cf_st c') !! numa = Some p →
  lp_free p = [(0, lp_len p)] ∧ ls_arcs (cf_st c') = ∅.
Proof.
  intros Hf Hly Hr Ho Hh Hrefs Hp. pose proof (reachable_cfg_ok st h c' Hf Hly Hr) as [Hok _]. rewrite Hh, Hrefs in Hok.
  assert (ls_arcs (cf_st c') = ∅) as Ha.
  { apply map_empty. intros a. apply eq_None_not_Some. intros [[d n] Ha]. destruct (lk_count _ _ _ Hok _ _ _ Ha) as [Hn Hpos].
    rewrite Ho in Hn. change (object_arcs ∅) with (@nil nat) in Hn. cbv in Hn. lia. }
  split; [|done]. apply pool_ok_empty.
  - pose proof (lk_pools _ _ _ Hok _ _ Hp) as Hpo. by rewrite Ha in Hpo.
  - destruct (local_steps_ok _ _ Hr) as [_ Hev]; [split; [by apply fresh_ok|done]|]. simpl in Hev.
    pose proof (ev_pools _ _ Hev numa) as He. rewrite Hp in He. symmetry in He. apply fmap_Some in He as (p0 & Hp0 & He).
    destruct (fr_pools _ Hf _ _ Hp0) as (_ & ? & _). unfold pool_place in He. simplify_eq. lia.
Qed.

(** Published bytes are immutable while anybody can reach them: under any
    interleaving (evictions, removals and new puts included), if a replica's
    [Arc] is alive before and after, it still names the same buffer and none of
    the buffer's bytes changed. *)
Theorem local_bytes_stable c c' a numa b n d' n' p x :
  cfg_ok c → rtc (local_step inner) c c' → ls_arcs (cf_st c) !! a = Some (PinnedData numa b, n) →
  ls_arcs (cf_st c') !! a = Some (d', n') → ls_pools (cf_st c) !! numa = Some p → buf_range p b x →
  d' = PinnedData numa b ∧ cf_heap c' !! x = cf_heap c !! x.
Proof.
  intros Hok Hr Ha Ha' Hp Hx. destruct (arc_stable c c' a _ n d' n' Hr Hok Ha Ha') as [-> Hb]. split; [done|]. by eapply Hb.
Qed.

(** ** Reading *)

(** The destination of a get: caller memory, large enough for the request. *)
Record get_dst_ok (pools : gmap u16 LocalPool) (h : heap) (op : OpGet) (dst_len : u64) : Prop := mkGetDstOk {
  gd_segs : Forall (seg_ok h) (iov_segs (get_dst op));
  gd_len : dst_len = zsum ((iov_segs (get_dst op)).*2);
  gd_u64 : 0 <= dst_len <= U64_MAX;
  gd_off : 0 <= get_src_offset op <= U64_MAX;
  gd_nodup : NoDup (addrs (iov_segs (get_dst op)));
  gd_apart x : x ∈ addrs (iov_segs (get_dst op)) → ¬ in_pool pools x;
}.

Lemma get_copy_ok held refs dr r op dst_device dst_len st h numa b n p q :
  local_ok held refs st → layout_ok (ls_pools st) h → ls_arcs st !! lr_data r = Some (PinnedData numa b, n) →
  ls_pools st !! numa = Some p → get_dst_ok (ls_pools st) h op dst_len → get_src_offset op + dst_len <= buf_len b →
  engine_ok inner dr (lr_device r) dst_device →
  ∃ h', get_copy inner dr r op dst_device dst_len (mkLocalWorld h q) st =
      Ret (mkLocalWorld h' q, Ok (mkRpGet (local_location inner (lr_device r) (lr_tier r)))) ∧
    segs_contents h' (iov_segs (get_dst op)) =
      take (Z.to_nat dst_len) (drop (Z.to_nat (get_src_offset op)) (bytes_at h (buf_addr p b) (buf_len b))) ∧
    only_in (addrs (iov_segs (get_dst op))) h h'.
Proof.
  intros Hok Hly Ha Hp [Hs Hl Hu Ho Hnd Hap] Hrange Heng.
  assert ((numa, b) ∈ held ++ arc_bufs (ls_arcs st)) as Hin by (apply elem_of_app; right; by eapply elem_of_arc_bufs).
  destruct (buf_placed _ _ _ _ _ _ _ Hok Hly Hin Hp) as (Hb & ? & ? & ? & ? & ?).
  destruct (copy_ok inner dr (lr_device r) [(buf_addr p b, buf_len b)] (get_src_offset op) dst_device (iov_segs (get_dst op)) dst_len h)
    as (h' & Hc & Hcont & Honly); [done|constructor; try done|].
  - constructor; [|constructor]. split; simpl; [unfold U64_MAX in *; lia|]. split; [unfold U64_MAX in *; lia|].
    split; [unfold U64_MAX in *; lia|]. eapply mapped_sub; [by eapply ly_mapped|lia|lia].
  - csimpl. rewrite zsum_cons, zsum_nil. lia.
  - intros x Hx Hx'. apply (Hap x Hx'). eapply owned_in_pool; [done|done|exact Hin|done|].
    by apply addrs_one in Hx.
  - exists h'. unfold get_copy. rewrite Ha. cbn [deref mbind outcome_bind]. unfold data_segs. rewrite Hp. cbn [deref mbind outcome_bind].
    cbn [w_heap w_pending]. rewrite Hc. cbn [mbind outcome_bind]. rewrite app_nil_r. split; [done|]. split; [|done].
    rewrite Hcont. unfold segs_contents. csimpl. by rewrite app_nil_r.
Qed.

(** C13: A get of a replica in the store's own pinned memory delivers the bytes
    that replica had when it was looked up, whatever happens between the lookup
    and the copy: eviction, removal of the object, other puts into the same pools.
    (A replica lent by [publish] is the caller's memory, which the caller may
    write; it is not covered.) *)
Theorem local_get_stable dr r op dst_device dst_len c c' numa b n p :
  cfg_ok c → lr_data r ∈ cf_refs c → ls_arcs (cf_st c) !! lr_data r = Some (PinnedData numa b, n) →
  ls_pools (cf_st c) !! numa = Some p → rtc (local_step inner) c c' → lr_data r ∈ cf_refs c' →
  get_dst_ok (ls_pools (cf_st c')) (cf_heap c') op dst_len → get_src_offset op + dst_len <= buf_len b →
  engine_ok inner dr (lr_device r) dst_device →
  ∃ h', get_copy inner dr r op dst_device dst_len (mkLocalWorld (cf_heap c') []) (cf_st c') =
      Ret (mkLocalWorld h' [], Ok (mkRpGet (local_location inner (lr_device r) (lr_tier r)))) ∧
    segs_contents h' (iov_segs (get_dst op)) =
      take (Z.to_nat dst_len) (drop (Z.to_nat (get_src_offset op)) (bytes_at (cf_heap c) (buf_addr p b) (buf_len b))).
Proof.
  intros Hok _ Ha Hp Hr Hin Hdst Hrange Heng. destruct (local_steps_ok c c' Hr Hok) as [[Hok' Hly'] Hev].
  destruct (lk_live _ _ _ Hok' (lr_data r)) as [[d' n'] Ha']; [apply elem_of_app; by right|].
  destruct (arc_stable c c' _ _ n d' n' Hr Hok Ha Ha') as [-> Hb].
  destruct (pool_place_Some _ _ _ _ Hev Hp) as (p' & Hp' & Hpl).
  destruct (get_copy_ok (cf_held c') (cf_refs c') dr r op dst_device dst_len (cf_st c') (cf_heap c') numa b n' p' [])
    as (h' & Hc & Hcont & _); try done.
  exists h'. split; [exact Hc|]. rewrite Hcont. assert (buf_addr p' b = buf_addr p b) as ->.
  { unfold pool_place in Hpl. unfold buf_addr. congruence. }
  do 2 f_equal. apply bytes_at_ext. intros x Hx. by eapply Hb.
Qed.
End Theorems.
