(* ===== verification/LocalRun.v ===== *)
(** * The CUDA backend: operations as executions

    An operation that runs alone is a sequence of its critical sections: what is
    proved of every interleaving holds of it.  The copies are those of a driver
    that leaves nothing pending. *)

From S2P Require Import Prelude HostMem Types Region Memory MemoryCopy Pinned Text Numa Topology Cuda LocalCopy Local LocalInv LocalEvict LocalSections LocalTransfer LocalSteps LocalTheorems.

(** Lengths a pool can serve. *)
Definition len_ok (len : Z) : Prop := 0 < len ∧ len + ALIGN <= U64_MAX.

Section Run.
Context `{BuildProfile} (inner : LocalInner).
Implicit Types (st : LocalState) (h : heap) (held : list node_buf) (refs : list nat).

#[local] Abbreviation steps := (rtc (local_step inner)).

Lemma pool_alloc_step numa len st st' r h held refs :
  len_ok len → pool_alloc numa len st = Ret (st', r) →
  match r with
  | Some b => steps (mkCfg st h held refs) (mkCfg st' h ((numa, b) :: held) refs) ∧ buf_len b = len
  | None => st' = st
  end.
Proof.
  intros [H1 H2] Ha. pose proof Ha as Ha'. unfold pool_alloc in Ha.
  destruct (ls_pools st !! numa) as [p|] eqn:Hp; [|done]. cbn [deref mbind outcome_bind] in Ha.
  apply bind_Ret_inv in Ha as (x & Hx & Ha). destruct x as [[free b]|]; [|by simplify_eq].
  destruct r as [b'|]; [|done]. split; [apply rtc_once; econstructor; eauto|]. simplify_eq.
  unfold alloc in Hx. apply bind_Ret_inv in Hx as (need & _ & Hx). destruct (position _ _); [|done].
  apply bind_Ret_inv in Hx as ([off l] & _ & Hx). apply bind_Ret_inv in Hx as (f & _ & Hx). by simplify_eq.
Qed.

Lemma alloc_loop_steps fuel numa len protect st st' r h held refs :
  len_ok len → alloc_loop fuel numa len protect st = Ret (st', r) →
  match r with
  | Ok b => steps (mkCfg st h held refs) (mkCfg st' h ((numa, b) :: held) refs) ∧ buf_len b = len
  | Err _ => steps (mkCfg st h held refs) (mkCfg st' h held refs)
  end.
Proof.
  intros Hlen. revert st. induction fuel as [|fuel IH]; intros st Ha; [done|]. cbn [alloc_loop] in Ha.
  apply bind_Ret_inv in Ha as ([st1 ev] & He & Ha). apply bind_Ret_inv in Ha as ([st2 b] & Hb & Ha).
  assert (steps (mkCfg st h held refs) (mkCfg st1 h held refs)) as Hs by (apply rtc_once; by econstructor).
  pose proof (pool_alloc_step numa len st1 st2 b h held refs Hlen Hb) as Hp. destruct b as [b|].
  - simplify_eq. destruct Hp. split; [by etrans|done].
  - subst st2. destruct ev; [|by simplify_eq]. specialize (IH st1 Ha). destruct r; [destruct IH; split; [by etrans|done]|by etrans].
Qed.

Lemma alloc_or_evict_steps numa len protect st st' r h held refs :
  len_ok len → alloc_or_evict numa len protect st = Ret (st', r) →
  match r with
  | Ok b => steps (mkCfg st h held refs) (mkCfg st' h ((numa, b) :: held) refs) ∧ buf_len b = len
  | Err _ => steps (mkCfg st h held refs) (mkCfg st' h held refs)
  end.
Proof.
  intros Hlen Ha. unfold alloc_or_evict in Ha. destruct (ls_pools st !! numa) as [p|]; [|by simplify_eq].
  apply bind_Ret_inv in Ha as ([st1 b] & Hb & Ha). pose proof (pool_alloc_step numa len st st1 b h held refs Hlen Hb) as Hp.
  destruct b as [b|]; [by simplify_eq|]. subst st1. destruct (_ <? _); [by simplify_eq|]. by eapply alloc_loop_steps.
Qed.

Lemma place_slot_steps each len key ts placed err st st' placed' err' h held refs :
  len_ok len → place_slot each len key ts placed err st = Ret (st', placed', err') →
  ∃ new, placed' = placed ++ new ∧ Forall (λ x, buf_len x.2 = len) new ∧
    steps (mkCfg st h held refs) (mkCfg st' h (reverse (placed_node <$> new) ++ held) refs).
Proof.
  intros Hlen. revert placed err st held. induction ts as [|[numa mis] ts IH]; intros placed err st held Hpl; cbn [place_slot] in Hpl.
  { simplify_eq. exists []. split; [by rewrite app_nil_r|]. by split. }
  apply bind_Ret_inv in Hpl as ([st1 r] & Ha & Hpl). pose proof (alloc_or_evict_steps numa len key st st1 r h held refs Hlen Ha) as Hs.
  destruct r as [b|e].
  - destruct Hs as [Hs Hb]. destruct each.
    + destruct (IH _ _ _ ((numa, b) :: held) Hpl) as (new & -> & Hall & Hs'). exists ((numa, mis, b) :: new).
      split; [by rewrite <- (assoc_L (++))|]. split; [by constructor|]. etrans; [exact Hs|].
      csimpl. by rewrite reverse_cons, <- (assoc_L (++)).
    + simplify_eq. exists [(numa, mis, b)]. split; [done|]. split; [by constructor|]. exact Hs.
  - destruct each; [simplify_eq; exists []; split; [by rewrite app_nil_r|]; by split|].
    destruct (IH _ _ _ held Hpl) as (new & -> & Hall & Hs'). exists new. split; [done|]. split; [done|]. by etrans.
Qed.

Lemma copy_Ok_nil dr sd src off dd dst total h h' q u : copy inner dr sd src off dd dst total h = Ret (h', q, Ok u) → q = [].
Proof.
  unfold copy. destruct sd, dd; intros Hc; [apply bind_Ret_inv in Hc as ([? ?] & _ & ?); by simplify_eq|..];
    (destruct (engine _ _ _ _) as [en|]; [|done]; apply bind_Ret_inv in Hc as ([q0 r0] & _ & Hc); destruct r0; [|done];
     destruct (en_sync en); [|done]; apply bind_Ret_inv in Hc as (h1 & _ & ?); by simplify_eq).
Qed.

(** Permuting what a put holds is not a step; a section may take it in any order. *)
Lemma copy_placed_steps dr src_dev src len placed st h h' r held refs :
  Forall (λ x, buf_len x.2 = len) placed → (∀ x, x ∈ placed → placed_node x ∈ held) →
  copy_placed inner dr src_dev src len (ls_pools st) placed h = Ret (h', [], r) →
  steps (mkCfg st h held refs) (mkCfg st h' held refs).
Proof.
  revert h. induction placed as [|[[numa mis] b] placed IH]; intros h Hall Hin Hc; cbn [copy_placed] in Hc; [by simplify_eq|].
  apply Forall_cons in Hall as [Hb Hall]. simpl in Hb. subst len.
  destruct (ls_pools st !! numa) as [p|] eqn:Hp; [|done]. cbn [deref mbind outcome_bind] in Hc.
  apply bind_Ret_inv in Hc as ([[h1 q1] r1] & Hc1 & Hc).
  assert (q1 = []) as ->. { destruct r1 as [u|e]; [by eapply copy_Ok_nil|by simplify_eq]. }
  destruct (elem_of_Permutation held (numa, b)) as [Hpm _].
  destruct (Hpm (Hin _ ltac:(left))) as [held' Hheld].
  assert (steps (mkCfg st h held refs) (mkCfg st h1 held refs)) as Hs by (apply rtc_once; by econstructor).
  destruct r1 as [u|e]; [|by simplify_eq]. etrans; [exact Hs|]. apply IH; [done| |done]. intros x Hx. apply Hin. by right.
Qed.

Lemma drop_placed_steps placed st st' h held refs :
  drop_placed placed st = Ret st' →
  steps (mkCfg st h (reverse (placed_node <$> placed) ++ held) refs) (mkCfg st' h held refs).
Proof.
  unfold drop_placed. revert st. induction placed as [|x placed IH]; intros st Hd; simpl in Hd; csimpl; [by simplify_eq|].
  apply bind_Ret_inv in Hd as (st1 & Hr & Hd). eapply rtc_l; [|exact (IH st1 Hd)]. econstructor; [|exact Hr].
  rewrite reverse_cons, <- (assoc_L (++)). apply Permutation_sym, Permutation_middle.
Qed.

Lemma local_put_slot_steps dr key i ps w w' st st' r held refs :
  len_ok (spec_len (ps_spec ps)) → local_put_slot inner dr key i ps w st = Ret (w', st', r) →
  ∃ q, w_pending w' = w_pending w ++ q ∧
    (q = [] → steps (mkCfg st (w_heap w) held refs) (mkCfg st' (w_heap w') held refs)).
Proof.
  intros Hlen Hp. unfold local_put_slot in Hp. apply bind_Ret_inv in Hp as (src_dev & _ & Hp).
  destruct (placement_targets _ _) as [ts|e]; [|simplify_eq; exists []; by rewrite app_nil_r].
  apply bind_Ret_inv in Hp as ([[st1 placed] err] & Hpl & Hp).
  destruct (place_slot_steps _ _ _ _ _ _ _ _ _ _ (w_heap w) held refs Hlen Hpl) as (new & -> & Hall & Hs). simpl in Hp.
  assert (∀ st2, drop_placed new st1 = Ret st2 → ∀ h, steps (mkCfg st1 h (reverse (placed_node <$> new) ++ held) refs) (mkCfg st2 h held refs)) as Hdrop.
  { intros st2 Hd h. by apply drop_placed_steps. }
  destruct (bool_decide (new = []) || _).
  { apply bind_Ret_inv in Hp as (st2 & Hd & Hp). simplify_eq. exists []. split; [by rewrite app_nil_r|]. intros _.
    etrans; [exact Hs|by apply Hdrop]. }
  apply bind_Ret_inv in Hp as ([[h1 q] rc] & Hc & Hp). exists q.
  assert (q = [] → steps (mkCfg st (w_heap w) held refs) (mkCfg st1 h1 (reverse (placed_node <$> new) ++ held) refs)) as Hcopy.
  { intros ->. etrans; [exact Hs|]. eapply copy_placed_steps; [exact Hall| |exact Hc]. intros x Hx.
    apply elem_of_app. left. apply elem_of_reverse. by apply list_elem_of_fmap_2. }
  destruct rc as [u|e]; cbn [w_heap w_pending] in Hp.
  - apply bind_Ret_inv in Hp as ([st2 rp] & Hpub & Hp). simplify_eq. split; [done|]. intros Hq. etrans; [exact (Hcopy Hq)|].
    apply rtc_once. econstructor; [|exact Hpub]. by rewrite reverse_Permutation.
  - apply bind_Ret_inv in Hp as (st2 & Hd & Hp). simplify_eq. split; [done|]. intros Hq. etrans; [exact (Hcopy Hq)|]. by apply Hdrop.
Qed.

Lemma local_put_slots_steps dr key writable i slots results w w' st st' rs held refs :
  Forall (λ ps, len_ok (spec_len (ps_spec ps))) slots → local_put_slots inner dr key writable i slots results w st = Ret (w', st', rs) →
  ∃ q, w_pending w' = w_pending w ++ q ∧ (q = [] → steps (mkCfg st (w_heap w) held refs) (mkCfg st' (w_heap w') held refs)).
Proof.
  intros Hall. revert i results w st. induction Hall as [|ps slots Hlen Hall IH]; intros i results w st Hp; cbn [local_put_slots] in Hp.
  { simplify_eq. exists []. by rewrite app_nil_r. }
  apply bind_Ret_inv in Hp as (b & _ & Hp). destruct b; cbn [negb] in Hp; [|by eapply IH].
  apply bind_Ret_inv in Hp as ([[w1 st1] r] & Hslot & Hp). apply bind_Ret_inv in Hp as (st2 & Hun & Hp).
  destruct (local_put_slot_steps _ _ _ _ _ _ _ _ _ held refs Hlen Hslot) as (q1 & Hq1 & Hs1).
  destruct (IH _ _ _ _ Hp) as (q2 & Hq2 & Hs2). exists (q1 ++ q2). split; [by rewrite Hq2, Hq1, (assoc_L (++))|].
  intros [-> ->]%app_nil. etrans; [by apply Hs1|]. etrans; [|by apply Hs2].
  destruct (is_ok r); [by simplify_eq|]. apply rtc_once. by econstructor.
Qed.

Lemma local_put_steps dr key op w w' st st' r held refs :
  Forall (λ ps, len_ok (spec_len (ps_spec ps))) (op_slots op) → local_put inner dr key op w st = Ret (w', st', r) →
  ∃ q, w_pending w' = w_pending w ++ q ∧ (q = [] → steps (mkCfg st (w_heap w) held refs) (mkCfg st' (w_heap w') held refs)).
Proof.
  intros Hall Hp. unfold local_put in Hp. destruct (OpPut_validate op); [|simplify_eq; exists []; by rewrite app_nil_r].
  destruct (claim key (OpPut_spec op) st) as [[st1 writable]|e] eqn:Hc; [|simplify_eq; exists []; by rewrite app_nil_r].
  apply bind_Ret_inv in Hp as ([[w1 st2] rs] & Hs & Hp). simplify_eq.
  destruct (local_put_slots_steps _ _ _ _ _ _ _ _ _ _ _ held refs Hall Hs) as (q & Hq & Hst). exists q. split; [done|].
  intros Hq0. eapply rtc_l; [|by apply Hst]. by econstructor.
Qed.

(** A get into caller memory. *)
Lemma local_get_steps dr key op h h' st st' r held refs :
  (∀ x, x ∈ addrs (iov_segs (get_dst op)) → ¬ in_pool (ls_pools st) x) → Forall seg_bound (iov_segs (get_dst op)) →
  (∀ d n, OpGet_validate op = Ok (d, n) → 0 <= n) → local_ok held refs st →
  local_get inner dr key op (mkLocalWorld h []) st = Ret (mkLocalWorld h' [], st', r) →
  steps (mkCfg st h held refs) (mkCfg st' h' held refs).
Proof.
  intros Hout Hb Hn Hok Hg. unfold local_get in Hg. destruct (OpGet_validate op) as [[dd dl]|e]; [|by simplify_eq].
  specialize (Hn dd dl eq_refl). apply bind_Ret_inv in Hg as ([st1 rl] & Hl & Hg).
  pose proof (lookup_replica_ok held refs inner key op dd st st1 rl Hok Hl) as (_ & _ & Ep & _ & Hr).
  destruct rl as [[rep slot_len]|e]; [|by simplify_eq].
  assert (∀ h0 st2, arc_drop (lr_data rep) st1 = Ret st2 →
    steps (mkCfg st1 h0 held (lr_data rep :: refs)) (mkCfg st2 h0 held refs)) as Hdrop.
  { intros h0 st2 Hd. apply rtc_once. by econstructor. }
  assert (steps (mkCfg st h held refs) (mkCfg st1 h held (lr_data rep :: refs))) as Hlook.
  { apply rtc_once. by econstructor. }
  destruct (negb _); [apply bind_Ret_inv in Hg as (st2 & Hd & Hg); simplify_eq; etrans; [exact Hlook|by apply Hdrop]|].
  apply bind_Ret_inv in Hg as ([w1 res] & Hc & Hg). apply bind_Ret_inv in Hg as (st2 & Hd & Hg). simplify_eq.
  etrans; [exact Hlook|]. eapply rtc_l; [|by apply Hdrop].
  eapply lstep_copy_out; [left|exact Hn|exact Hb| |exact Hc]. by rewrite Ep.
Qed.
End Run.
