(* ===== verification/LocalPut.v ===== *)
(** * The CUDA backend: a put that runs alone

    With queues whose entries name slots of their objects and a driver that
    accepts the copies, each phase of [put] returns; a slot it accepts holds the
    source bytes in every new replica. *)

From S2P Require Import Prelude HostMem Types Region Memory MemoryCopy Pinned Text Numa Topology Cuda LocalCopy Local LocalInv LocalEvict LocalSections LocalTransfer LocalSteps LocalTheorems LocalRun.

(** ** Between operations *)

(** Every pool has a queue, and unless stale entries are allowed for, queue
    entries name slots of their objects.  A stale entry is left by a removed key
    that was put anew with fewer slots; eviction panics when it meets one. *)
Definition queues_at (stale : bool) (st : LocalState) : Prop :=
  (∀ numa, is_Some (ls_pools st !! numa) → is_Some (ls_fifo st !! Cpu numa)) ∧
  (stale = false → ∀ d q, ls_fifo st !! d = Some q → entries_valid (ls_objects st) q).

Definition queues_ok : LocalState → Prop := queues_at false.

Lemma queues_loose stale st : queues_at stale st → queues_at true st.
Proof. intros [Hr _]. by split. Qed.

(** A replica in a pinned buffer with the bytes [bs]. *)
Definition replica_holds (st : LocalState) (h : heap) (bs : bytes) (r : LocalReplica) : Prop :=
  ∃ numa b n p, ls_arcs st !! lr_data r = Some (PinnedData numa b, n) ∧ ls_pools st !! numa = Some p ∧ lr_device r = Cpu numa ∧ lr_tier r = Dram ∧
    buf_len b = Z.of_nat (length bs) ∧ bytes_at h (buf_addr p b) (buf_len b) = bs.

Definition slot_at (st : LocalState) (key : bytes) (i : nat) : option LocalSlot :=
  o ← ls_objects st !! key; lo_slots o !! i.

(** A slot with replicas, all of them the bytes [bs]. *)
Definition slot_holds (st : LocalState) (h : heap) (key : bytes) (i : nat) (bs : bytes) : Prop :=
  ∃ s, slot_at st key i = Some s ∧ sl_replicas s ≠ [] ∧ Forall (replica_holds st h bs) (sl_replicas s).

Section Put.
Context `{BuildProfile} (inner : LocalInner) (dr : CudaSys) {stale : bool}.

(** ** Targets *)

Lemma numas_of_known pools ds ts : numas_of pools ds = Ok ts → Forall (λ t, is_Some (pools !! t.1)) ts.
Proof.
  revert ts. induction ds as [|d ds IH]; intros ts Hn; cbn [numas_of] in Hn; [by simplify_eq|].
  apply bind_Ok_inv in Hn as (n & Hd & Hn). apply bind_Ok_inv in Hn as (rest & Hr & Hn). simplify_eq. constructor; [|by apply IH].
  unfold numa_of in Hd. destruct d; [|done]. case_bool_decide; by simplify_eq.
Qed.

Lemma pool_order_known pools n : n ∈ pool_order pools → is_Some (pools !! n).
Proof.
  unfold pool_order. rewrite merge_sort_Permutation, list_elem_of_fmap. intros ([k p] & -> & Hin%elem_of_map_to_list). by exists p.
Qed.

Lemma placement_targets_known pools pl ts : placement_targets pools pl = Ok ts → Forall (λ t, is_Some (pools !! t.1)) ts.
Proof.
  assert (∀ d n, numa_of pools d = Ok n → is_Some (pools !! n)) as Hnuma.
  { intros d n Hd. unfold numa_of in Hd. destruct d; [|done]. case_bool_decide; by simplify_eq. }
  intros Ht. destruct pl as [d|d|ds|]; cbn [placement_targets] in Ht.
  - apply bind_Ok_inv in Ht as (n & Hd & Ht). simplify_eq. repeat constructor. simpl. eauto.
  - apply bind_Ok_inv in Ht as (n & Hd & Ht). simplify_eq. constructor; [simpl; eauto|]. apply Forall_fmap, Forall_forall.
    intros x Hx. simpl. apply pool_order_known. rewrite list_elem_of_In, List.filter_In, <- list_elem_of_In in Hx. by destruct Hx.
  - by eapply numas_of_known.
  - simplify_eq. apply Forall_fmap, Forall_forall. intros x Hx. by apply pool_order_known.
Qed.

Lemma placement_targets_err pools pl e : placement_targets pools pl = Err e → err_kind e = InvalidInput.
Proof.
  assert (∀ d e, numa_of pools d = Err e → err_kind e = InvalidInput) as Hnuma.
  { intros d e' Hd. unfold numa_of in Hd. destruct d; [case_bool_decide|]; by simplify_eq. }
  intros Ht. destruct pl as [d|d|ds|]; cbn [placement_targets] in Ht; [..|done].
  1,2: destruct (numa_of pools d) as [n|e'] eqn:Hd; cbn [mbind result_bind] in Ht; [done|]; simplify_eq; by eapply Hnuma.
  induction ds as [|d ds IH]; cbn [numas_of] in Ht; [done|]. destruct (numa_of pools d) as [n|e'] eqn:Hd; [|cbn [mbind result_bind] in Ht; simplify_eq; by eapply Hnuma].
  cbn [mbind result_bind] in Ht. destruct (numas_of pools ds); [done|]. cbn [mbind result_bind] in Ht. simplify_eq. by apply IH.
Qed.

(** ** Allocation for every target *)

Lemma evolves_pools st st' numa : evolves st st' → is_Some (ls_pools st' !! numa) ↔ is_Some (ls_pools st !! numa).
Proof. intros Hev. pose proof (ev_pools _ _ Hev numa) as He. by rewrite <- !(fmap_is_Some pool_place), He. Qed.

Lemma queues_ok_alloc held refs numa len protect st st' r :
  queues_at stale st → is_Some (ls_pools st !! numa) → alloc_post held refs numa len protect st st' r → queues_at stale st'.
Proof.
  intros [Hr Hv] Hnuma (Hev & Hsp & Hoth & Hq & _). destruct (Hr numa Hnuma) as [q0 Hq0].
  destruct (Hq q0 Hq0) as (q1 & Hq1 & Hsub). split.
  - intros n Hn. destruct (decide (n = numa)) as [->|Hne]; [eauto|]. rewrite Hoth by congruence. apply Hr. by rewrite <- evolves_pools.
  - intros Hstale d q' Hq'. assert (∃ q, ls_fifo st !! d = Some q ∧ q' ⊆ q) as (q & Hqd & Hs).
    { destruct (decide (d = Cpu numa)) as [->|Hne]; [|rewrite Hoth in Hq' by done; eauto].
      simplify_eq. exists q0. split; [done|]. by apply sublist_subseteq. }
    eapply spares_valid; [exact Hsp|]. intros k i o Hin. apply (Hv Hstale d q Hqd). by apply Hs.
Qed.

Lemma place_slot_ok held refs each len key ts placed err st :
  local_ok held refs st → queues_at stale st → len_ok len → Forall (λ t, is_Some (ls_pools st !! t.1)) ts →
  (∃ st' new err', place_slot each len key ts placed err st = Ret (st', placed ++ new, err') ∧
    local_ok ((placed_node <$> new) ++ held) refs st' ∧ queues_at stale st' ∧ evolves st st' ∧
    ls_objects st' !! key = ls_objects st !! key ∧ Forall (λ x, buf_len x.2 = len) new ∧
    shrinks key st st' ∧ ∀ e, err' = Some e → err = Some e ∨ err_kind e = NoSpace) ∨
  stale = true ∧ place_slot each len key ts placed err st = Panicked.
Proof.
  intros Hok Hq Hlen Hts. revert held placed err st Hok Hq Hts. induction ts as [|[numa mis] ts IH]; intros held placed err st Hok Hq Hts; cbn [place_slot].
  { left. exists st, [], err. rewrite app_nil_r. split_and!; [done..|by apply shrinks_same|by left]. }
  apply Forall_cons in Hts as [Hnuma Hts]. simpl in Hnuma. destruct Hnuma as [p Hp].
  destruct (proj1 Hq numa) as [q Hfq]; [eauto|].
  pose proof (alloc_or_evict_ok held refs numa len key st p q Hok Hp (proj1 Hlen) (proj2 Hlen) Hfq) as Ha.
  destruct (alloc_or_evict numa len key st) as [[st1 r]| |]; [|right; split; [|done]; apply not_false_iff_true; intros Hstale; apply Ha; by eapply (proj2 Hq)|done].
  destruct Ha as [Hpost _]. pose proof (queues_ok_alloc _ _ _ _ _ _ _ _ Hq ltac:(eauto) Hpost) as Hq1.
  destruct Hpost as (Hev & Hsp & _ & _ & Hr). cbn [mbind outcome_bind].
  assert (ls_objects st1 !! key = ls_objects st !! key) as Hkey.
  { clear -Hsp. specialize (Hsp key). destruct (ls_objects st !! key); [|done]. rewrite decide_True in Hsp by (by left). done. }
  apply spares_shrinks in Hsp.
  assert (Forall (λ t, is_Some (ls_pools st1 !! t.1)) ts) as Hts1.
  { eapply Forall_impl; [exact Hts|]. intros t. by rewrite evolves_pools. }
  destruct r as [b|e].
  - destruct Hr as [Hok1 Hb]. destruct each.
    + destruct (IH ((numa, b) :: held) (placed ++ [(numa, mis, b)]) err st1 Hok1 Hq1 Hts1)
        as [(st2 & new & err' & -> & Hok2 & Hq2 & Hev2 & Hkey2 & Hall & Hsh & Herr)|?]; [left|by right].
      exists st2, ((numa, mis, b) :: new), err'. rewrite <- (assoc_L (++)). split; [done|]. split.
      { eapply local_ok_refs; [exact Hok2| |done..]. csimpl. apply Permutation_sym, Permutation_middle. }
      split; [done|]. split; [by etrans|]. split; [congruence|]. split; [by constructor|]. split; [|done].
      eapply shrinks_trans; [exact Hok|exact Hev|done|done].
    + left. exists st1, [(numa, mis, b)], err. do 5 (split; [done|]). split; [by constructor|]. split; [done|by left].
  - destruct Hr as (-> & Hok1 & _). destruct each.
    + left. eexists st1, [], _. rewrite app_nil_r. split_and!; try done. intros e [= <-]. by right.
    + destruct (IH held placed (Some (no_space numa len)) st1 Hok1 Hq1 Hts1)
        as [(st2 & new & err' & -> & Hok2 & Hq2 & Hev2 & Hkey2 & Hall & Hsh & Herr)|?]; [left|by right].
      exists st2, new, err'. split; [done|]. split; [done|]. split; [done|]. split; [by etrans|]. split; [congruence|]. split; [done|].
      split; [eapply shrinks_trans; [exact Hok|exact Hev|done|done]|]. intros e He. destruct (Herr e He) as [[= <-]|]; by right.
Qed.

(** ** Copies into the placed buffers *)

(** The source of a slot: caller memory of the declared length. *)
Record put_src_ok (pools : gmap u16 LocalPool) (h : heap) (src_dev : Device) (src : list Seg) (len : u64) : Prop := mkPutSrcOk {
  sr_segs : Forall (seg_ok h) src;
  sr_len : zsum (src.*2) = len;
  sr_apart x : x ∈ addrs src → ¬ in_pool pools x;
  sr_engine numa : is_Some (pools !! numa) → engine_ok inner dr src_dev (Cpu numa);
}.

(** Memory outside the pools is the same. *)
Definition outside_same (pools : gmap u16 LocalPool) (h h' : heap) : Prop := ∀ x, ¬ in_pool pools x → h' !! x = h !! x.

Lemma segs_outside pools h h' src :
  outside_same pools h h' → (∀ x, x ∈ addrs src → ¬ in_pool pools x) → Forall (seg_ok h) src →
  Forall (seg_ok h') src ∧ segs_contents h' src = segs_contents h src.
Proof.
  intros Hout Hap Hs. assert (Forall (seg_ok h') src) as Hs'.
  { rewrite Forall_forall in Hs |- *. intros s Hin. destruct (Hs s Hin) as (? & ? & ? & Hm). split; [done|]. split; [done|].
    split; [done|]. intros x Hx. rewrite Hout; [by apply Hm|]. apply Hap. by eapply elem_of_addrs. }
  split; [done|]. apply (inj (fmap Some)). rewrite !segs_contents_addrs by done. apply list_fmap_ext.
  intros i x Hx. apply Hout, Hap. by eapply list_elem_of_lookup_2.
Qed.

Lemma put_src_outside pools h h' sd src len : outside_same pools h h' → put_src_ok pools h sd src len → put_src_ok pools h' sd src len.
Proof. intros Hout [H1 H2 H3 H4]. constructor; try done. by eapply segs_outside. Qed.

Lemma segs_contents_len h src : Forall (seg_ok h) src → Z.of_nat (length (segs_contents h src)) = zsum (src.*2).
Proof.
  intros Hs. rewrite <- (length_addrs h src Hs). pose proof (segs_contents_addrs h src Hs) as Hsc.
  apply (f_equal length) in Hsc. rewrite !length_fmap in Hsc. lia.
Qed.

(** One buffer: the copy returns, the buffer gets the source, nothing else changes. *)
Lemma copy_into_ok held held' refs st h numa b p src_dev src :
  local_ok held refs st → layout_ok (ls_pools st) h → held ≡ₚ (numa, b) :: held' → ls_pools st !! numa = Some p →
  put_src_ok (ls_pools st) h src_dev src (buf_len b) →
  ∃ h', copy inner dr src_dev src 0 (Cpu numa) [(buf_addr p b, buf_len b)] (buf_len b) h = Ret (h', [], Ok tt) ∧
    bytes_at h' (buf_addr p b) (buf_len b) = segs_contents h src ∧ layout_ok (ls_pools st) h' ∧
    outside_same (ls_pools st) h h' ∧ ∀ x, ¬ buf_range p b x → h' !! x = h !! x.
Proof.
  intros Hok Hly Hh Hp [Hs Hl Hap Heng].
  assert ((numa, b) ∈ held ++ arc_bufs (ls_arcs st)) as Hin by (rewrite Hh; apply elem_of_app; left; left).
  destruct (buf_placed _ _ _ _ _ _ _ Hok Hly Hin Hp) as (Ha & ? & ? & ? & ? & ?).
  assert (∀ x, x ∈ addrs [(buf_addr p b, buf_len b)] ↔ buf_range p b x) as Haddr.
  { intros x. by rewrite addrs_one. }
  destruct (copy_ok inner dr src_dev src 0 (Cpu numa) [(buf_addr p b, buf_len b)] (buf_len b) h) as (h' & Hc & Hcont & _).
  { apply Heng. eauto. }
  { constructor; try done.
    - constructor; [|constructor]. split; simpl; [unfold U64_MAX in *; lia|]. split; [unfold U64_MAX in *; lia|].
      split; [unfold U64_MAX in *; lia|]. eapply mapped_sub; [by eapply ly_mapped|lia|lia].
    - unfold U64_MAX in *. lia.
    - lia.
    - csimpl. rewrite zsum_cons, zsum_nil. lia.
    - unfold addrs. csimpl. rewrite app_nil_r. apply NoDup_seqZ.
    - intros x Hx Hx'. apply (Hap x Hx). eapply owned_in_pool; [done|done|exact Hin|done|]. by apply Haddr. }
  destruct (copy_in_keeps inner st h held held' refs numa b p dr src_dev src h' [] (Ok tt) Hok Hly Hh Hp Hc) as (Hly' & _ & Hframe).
  exists h'. split; [done|]. split; [|split; [done|]; split; [|done]].
  - unfold segs_contents in Hcont at 1. csimpl in Hcont. rewrite app_nil_r in Hcont. rewrite Hcont, drop_0. apply take_ge.
    pose proof (segs_contents_len h src Hs). lia.
  - intros x Hx. apply Hframe. intros Hr. apply Hx. by eapply owned_in_pool.
Qed.

Lemma copy_placed_ok held held' refs st h src_dev src len placed :
  local_ok held refs st → layout_ok (ls_pools st) h → held ≡ₚ (placed_node <$> placed) ++ held' →
  Forall (λ x, buf_len x.2 = len) placed → put_src_ok (ls_pools st) h src_dev src len →
  ∃ h', copy_placed inner dr src_dev src len (ls_pools st) placed h = Ret (h', [], Ok tt) ∧
    layout_ok (ls_pools st) h' ∧ outside_same (ls_pools st) h h' ∧
    (∀ m c p x, (m, c) ∈ held' ++ arc_bufs (ls_arcs st) → ls_pools st !! m = Some p → buf_range p c x → h' !! x = h !! x) ∧
    Forall (λ x : placed_buf, ∃ p, ls_pools st !! x.1.1 = Some p ∧ bytes_at h' (buf_addr p x.2) len = segs_contents h src) placed.
Proof.
  intros Hok. revert held' h. induction placed as [|[[numa mis] b] placed IH]; intros held' h Hly Hh Hall Hsrc; cbn [copy_placed].
  { exists h. by split_and!. }
  apply Forall_cons in Hall as [Hb Hall]. simpl in Hb. csimpl in Hh.
  assert ((numa, b) ∈ held ++ arc_bufs (ls_arcs st)) as Hin by (rewrite Hh; apply elem_of_app; left; left).
  destruct (lk_known _ _ _ Hok _ Hin) as [[p Hp] _]. simpl in Hp. rewrite Hp. cbn [deref mbind outcome_bind].
  rewrite <- Hb in Hsrc.
  destruct (copy_into_ok held _ refs st h numa b p src_dev src Hok Hly Hh Hp Hsrc) as (h1 & Hc & Hbytes & Hly1 & Hout1 & Hframe1).
  rewrite Hb in *. rewrite Hc. cbn [mbind outcome_bind].
  destruct (IH ((numa, b) :: held') h1 Hly1) as (h2 & -> & Hly2 & Hout2 & Hkeep2 & Hbytes2).
  { rewrite Hh. apply Permutation_middle. }
  { done. }
  { by eapply put_src_outside. }
  destruct (segs_outside _ _ _ src Hout1) as [_ Hsame]; [apply Hsrc|apply Hsrc|].
  exists h2. split; [done|]. split; [done|]. split; [intros x Hx; by rewrite Hout2, Hout1|]. split.
  - intros m c p' x Hmc Hp' Hx. rewrite (Hkeep2 m c p' x); [|rewrite <- app_comm_cons; by right|done|done]. apply Hframe1. intros Hx'.
    eapply (owned_apart held _ refs st h numa b m c p p' x); [done|done|exact Hh| |done..].
    apply elem_of_app in Hmc as [?|?]; apply elem_of_app; [left; apply elem_of_app; by right|by right].
  - constructor; [|eapply Forall_impl; [exact Hbytes2|]; intros x (p' & ? & ?); exists p'; split; [done|congruence]].
    exists p. split; [done|]. simpl. rewrite <- Hbytes. apply bytes_at_ext. intros x Hx.
    eapply (Hkeep2 numa b p x); [left|done|]. unfold buf_range. by rewrite Hb.
Qed.

(** ** Publication *)

Lemma push_fifo_ok e placed (f : gmap Device (list (bytes * u32))) :
  (∀ x : placed_buf, x ∈ placed → is_Some (f !! Cpu x.1.1)) →
  ∃ f', mfoldl (push_fifo e) f placed = Ret f' ∧ (∀ d, is_Some (f !! d) → is_Some (f' !! d)) ∧
    ∀ d q', f' !! d = Some q' → ∃ q, f !! d = Some q ∧ ∀ y, y ∈ q' → y ∈ q ∨ y = e.
Proof.
  revert f. induction placed as [|x placed IH]; intros f Hin; cbn [mfoldl].
  { exists f. split; [done|]. split; [done|]. intros d q' Hq. exists q'. auto. }
  destruct (Hin x ltac:(left)) as [q Hq]. 
  assert (push_fifo e f x = Ret (<[Cpu x.1.1 := q ++ [e]]> f)) as -> by (unfold push_fifo; by rewrite Hq). cbn [mbind outcome_bind].
  destruct (IH (<[Cpu x.1.1 := q ++ [e]]> f)) as (f' & -> & Hs & Hf').
  { intros y Hy. rewrite lookup_insert_is_Some'. right. apply Hin. by right. }
  exists f'. split; [done|]. split; [intros d Hd; apply Hs; rewrite lookup_insert_is_Some'; by right|].
  intros d q' Hq'. destruct (Hf' d q' Hq') as (q1 & Hq1 & Hsub). apply lookup_insert_Some in Hq1 as [[<- <-]|[_ Hq1]]; [|eauto].
  exists q. split; [done|]. intros y Hy. destruct (Hsub y Hy) as [Hy'|]; [|by right].
  apply elem_of_app in Hy' as [?|?%list_elem_of_singleton]; auto.
Qed.

Lemma entries_valid_insert objs key o o' q :
  objs !! key = Some o → length (lo_slots o') = length (lo_slots o) → entries_valid objs q → entries_valid (<[key := o']> objs) q.
Proof. intros Hk Hl Hv k i o1 Hin [[<- <-]|[_ Ho]]%lookup_insert_Some; [rewrite Hl|]; by eapply Hv. Qed.

Lemma publish_placed_spec held refs key i placed st o s :
  local_ok ((placed_node <$> placed) ++ held) refs st → queues_at stale st → ls_objects st !! key = Some o → lo_slots o !! i = Some s →
  ∃ st' rs, publish_placed key i placed st = Ret (st', Ok tt) ∧ local_ok held refs st' ∧ queues_at stale st' ∧ evolves st st' ∧
    ls_objects st' !! key = Some (mkLocalObject (lo_spec o) (<[i := mkLocalSlot (sl_replicas s ++ rs) false]> (lo_slots o))) ∧
    Forall2 (replica_of (ls_arcs st')) placed rs ∧ ls_pools st' = ls_pools st ∧ shrinks key st st'.
Proof.
  intros Hok [Hr Hv] Hk Hs. unfold publish_placed. rewrite Hk, Hs. cbn [unwrap mbind outcome_bind].
  pose proof (push_replicas_ok held refs placed st Hok) as Hn.
  assert (ls_pools (push_replicas placed st).2 = ls_pools st) as Epools.
  { clear. revert st. induction placed as [|[[numa mis] b] placed IH]; intros st; cbn [push_replicas arc_new]; [done|].
    specialize (IH (mkLocalState (ls_objects st) (ls_fifo st) (ls_pools st) (<[ls_next st := (PinnedData numa b, 1%nat)]> (ls_arcs st)) (S (ls_next st)))).
    destruct (push_replicas placed _). done. }
  destruct (push_replicas placed st) as [rs st1]. destruct Hn as ([Ho Hf] & Hev & Hok1 & Hrs). simpl in Epools.
  destruct (push_fifo_ok (key, Z.of_nat i mod 2 ^ 32) placed (ls_fifo st1)) as (f & Hpush & Hsome & Hsub).
  { intros x Hx. rewrite Hf. apply Hr. apply (lk_known _ _ _ Hok (placed_node x)). rewrite !elem_of_app. left. left. by apply list_elem_of_fmap_2. }
  cbn [ls_fifo set_objects]. rewrite Hpush. cbn [mbind outcome_bind]. rewrite <- Ho in Hk.
  pose proof (add_replicas_ok held refs st1 key o i s false rs Hok1 Hk Hs) as Hok2.
  eexists _, rs. split; [done|]. split; [by eapply local_ok_refs; [exact Hok2|..]|]. split; [split; simpl|].
  - intros numa Hn. apply Hsome. rewrite Hf. apply Hr. by rewrite <- Epools.
  - intros Hstale d q' Hq'. specialize (Hv Hstale). destruct (Hsub d q' Hq') as (q & Hq & Hin). rewrite Hf in Hq. apply (entries_valid_insert _ _ o); [done|simpl; by rewrite length_insert|].
    intros k j o1 Hkj Ho1. rewrite Ho in Ho1. destruct (Hin _ Hkj) as [Hold|[= -> ->]]; [by eapply Hv|].
    rewrite Ho in Hk. simplify_eq. apply lookup_lt_Some in Hs.
    assert (Z.of_nat i mod 2 ^ 32 <= Z.of_nat i) by (apply Z.mod_le; lia). lia.
  - split; [etrans; [done|]; by apply evolves_same|]. split; [simpl; by rewrite lookup_insert_eq|]. split; [done|].
    split; [done|]. apply shrinks_same. intros k Hne. simpl. by rewrite lookup_insert_ne, Ho by done.
Qed.

(** ** A slot *)

Record put_slot_pre (st : LocalState) (h : heap) (ps : PutSlot) : Prop := mkPutSlotPre {
  pp_dev : option_map iov_device (ps_src ps !! 0%nat) ≠ None;
  pp_len : len_ok (spec_len (ps_spec ps));
  pp_src d : option_map iov_device (ps_src ps !! 0%nat) = Some d → put_src_ok (ls_pools st) h d (iov_segs (ps_src ps)) (spec_len (ps_spec ps));
}.

Lemma in_pool_evolves st st' x : evolves st st' → in_pool (ls_pools st') x ↔ in_pool (ls_pools st) x.
Proof.
  intros Hev. assert (∀ s s', (∀ n, pool_place <$> ls_pools s' !! n = pool_place <$> ls_pools s !! n) → in_pool (ls_pools s') x → in_pool (ls_pools s) x) as Hdir.
  { intros s s' He (numa & p & Hp & Hx). specialize (He numa). rewrite Hp in He. symmetry in He. apply fmap_Some in He as (p0 & Hp0 & He).
    unfold pool_place in He. exists numa, p0. split; [done|]. injection He as <- <-. done. }
  split; apply Hdir; intros n; [|symmetry]; apply (ev_pools _ _ Hev).
Qed.

Lemma queues_ok_meta st st' : same_meta st st' → evolves st st' → queues_at stale st → queues_at stale st'.
Proof. intros [Ho Hf] Hev [Hr Hv]. split; rewrite ?Ho, Hf; [|done]. intros numa Hn. apply Hr. by rewrite <- evolves_pools. Qed.

Lemma outside_evolves st st' h h' : evolves st st' → outside_same (ls_pools st') h h' → outside_same (ls_pools st) h h'.
Proof. intros Hev Ho x Hx. apply Ho. by rewrite in_pool_evolves. Qed.

Lemma put_src_evolves st st' h d src len : evolves st st' → put_src_ok (ls_pools st) h d src len → put_src_ok (ls_pools st') h d src len.
Proof.
  intros Hev [H1 H2 H3 H4]. constructor; [done|done| |].
  - intros x Hx. rewrite in_pool_evolves by done. by apply H3.
  - intros numa Hn. apply H4. by rewrite <- evolves_pools.
Qed.

(** Whether a slot finds room on the devices its placement names. *)
Definition slot_fits (key : bytes) (ps : PutSlot) (st : LocalState) : bool :=
  match placement_targets (ls_pools st) (spec_placement (ps_spec ps)) with
  | Ok ts =>
      let each := is_each (spec_placement (ps_spec ps)) in
      match place_slot each (spec_len (ps_spec ps)) key ts [] None st with
      | Ret (_, placed, last_err) => negb (bool_decide (placed = []) || (each && bool_decide (is_Some last_err)))
      | _ => false
      end
  | Err _ => false
  end.

(** The new replicas hold what was copied into their buffers. *)
Lemma push_replicas_hold st h bs (placed : list placed_buf) rs :
  Forall2 (replica_of (ls_arcs st)) placed rs → Forall (λ x, buf_len x.2 = Z.of_nat (length bs)) placed →
  Forall (λ x : placed_buf, ∃ p, ls_pools st !! x.1.1 = Some p ∧ bytes_at h (buf_addr p x.2) (Z.of_nat (length bs)) = bs) placed →
  Forall (replica_holds st h bs) rs.
Proof.
  induction 1 as [|[[numa mis] b] r placed rs (Hd & Ht & _ & Ha) _ IH]; intros Hl Hb; constructor;
    apply Forall_cons in Hl as [Hl ?]; apply Forall_cons in Hb as [(p & Hp & Hbs) ?]; [|by apply IH].
  simpl in *. apply fmap_Some in Ha as ([d n] & Ha & Heq). simpl in Heq. subst d.
  exists numa, b, n, p. rewrite Hl. by split_and!.
Qed.

Lemma local_put_slot_ok key i ps st h o s :
  local_ok [] [] st → layout_ok (ls_pools st) h → queues_at stale st → put_slot_pre st h ps →
  ls_objects st !! key = Some o → lo_slots o !! i = Some s →
  (∃ h' st' r, local_put_slot inner dr key i ps (mkLocalWorld h []) st = Ret (mkLocalWorld h' [], st', r) ∧
    local_ok [] [] st' ∧ layout_ok (ls_pools st') h' ∧ queues_at stale st' ∧ evolves st st' ∧ outside_same (ls_pools st) h h' ∧ is_ok r = slot_fits key ps st ∧
    match r with
    | Ok _ => ∃ rs, ls_objects st' !! key = Some (mkLocalObject (lo_spec o) (<[i := mkLocalSlot (sl_replicas s ++ rs) false]> (lo_slots o))) ∧
        rs ≠ [] ∧ Forall (replica_holds st' h' (segs_contents h (iov_segs (ps_src ps)))) rs
    | Err e => ls_objects st' !! key = Some o ∧ (err_kind e = NoSpace ∨ err_kind e = InvalidInput)
    end ∧ shrinks key st st') ∨
  stale = true ∧ local_put_slot inner dr key i ps (mkLocalWorld h []) st = Panicked ∧ slot_fits key ps st = false.
Proof.
  intros Hok Hly Hq [Hdev Hlen Hsrc] Hk Hs. unfold local_put_slot, src_device, slot_fits.
  destruct (ps_src ps !! 0%nat) as [v|]; [|done]. specialize (Hsrc (iov_device v) eq_refl). cbn [unwrap mbind outcome_bind].
  destruct (placement_targets (ls_pools st) (spec_placement (ps_spec ps))) as [ts|e] eqn:Ht.
  2:{ left. exists h, st, (Err e). apply placement_targets_err in Ht. split_and!; try done; [by right|by apply shrinks_same]. }
  apply placement_targets_known in Ht. set (each := is_each (spec_placement (ps_spec ps))) in *. clearbody each.
  destruct (place_slot_ok [] [] each (spec_len (ps_spec ps)) key ts [] None st Hok Hq Hlen Ht) as [(st1 & placed & err & -> & Hok1 & Hq1 & Hev1 & Hk1 & Hall & Hsh1 & Herr)|[? ->]]; [left|by right].
  cbn [mbind outcome_bind app]. cbv zeta. pose proof (layout_ok_evolves _ _ _ Hev1 Hly) as Hly1.
  destruct (bool_decide (placed = []) || _) eqn:Hempty.
  { destruct (drop_placed_ok _ [] [] st1 placed Hok1 (Permutation_refl _)) as (st2 & -> & Hmeta & Hev2 & Hok2).
    eexists h, st2, _. split; [done|]. split; [done|]. split; [by do 2 (eapply layout_ok_evolves; [done|])|].
    split; [by eapply queues_ok_meta|]. split; [by etrans|]. split; [done|]. split; [done|]. destruct Hmeta as [Ho2 _].
    split; [split; [congruence|]|eapply shrinks_trans; [exact Hok|exact Hev1|done|]; apply shrinks_same; intros k _; by rewrite Ho2].
    destruct err as [e|]; [|by left]. destruct (Herr e eq_refl) as [?|?]; [done|by left]. }
  apply orb_false_iff in Hempty as [Hne%bool_decide_eq_false _].
  destruct (copy_placed_ok _ [] [] st1 h (iov_device v) (iov_segs (ps_src ps)) (spec_len (ps_spec ps)) placed Hok1 Hly1 (Permutation_refl _) Hall)
    as (h' & Hc & Hly2 & Hout & _ & Hbytes); [by eapply put_src_evolves|].
  cbn [w_heap w_pending]. rewrite Hc. cbn [mbind outcome_bind app].
  rewrite <- Hk1 in Hk. destruct (publish_placed_spec [] [] key i placed st1 o s Hok1 Hq1 Hk Hs) as (st2 & rs & -> & Hok2 & Hq2 & Hev2 & Hk2 & Hrs & Ep & Hsh2).
  cbn [mbind outcome_bind]. exists h', st2, (Ok tt). split; [done|]. split; [done|]. split; [by rewrite Ep|]. split; [done|].
  split; [by etrans|]. split; [by eapply outside_evolves|]. split; [done|].
  split; [|eapply shrinks_trans; [exact Hok|exact Hev1|done|done]]. exists rs. split; [done|]. split.
  { intros ->. apply Forall2_length in Hrs. by destruct placed. }
  pose proof (segs_contents_len h _ (sr_segs _ _ _ _ _ Hsrc)) as Hbl. rewrite (sr_len _ _ _ _ _ Hsrc) in Hbl.
  apply push_replicas_hold with placed; [done|by rewrite Hbl|]. rewrite Hbl, Ep. done.
Qed.
End Put.
