(* ===== verification/LocalRoundtrip.v ===== *)
(** * The CUDA backend: reading back what was put

    A put that runs alone returns, and every slot it accepts can be read. *)

From S2P Require Import Prelude HostMem Types Region Memory MemoryCopy Pinned Text Numa Topology Cuda LocalCopy Local LocalInv LocalEvict LocalSections LocalTransfer LocalSteps LocalTheorems LocalRun LocalPut.

Section Roundtrip.
Context `{BuildProfile} (inner : LocalInner) (dr : CudaSys).

(** A replica that is still in the metadata keeps its bytes through any execution. *)
Lemma replica_holds_steps c c' bs r :
  rtc (local_step inner) c c' → cfg_ok c → lr_data r ∈ object_arcs (ls_objects (cf_st c')) →
  replica_holds (cf_st c) (cf_heap c) bs r → replica_holds (cf_st c') (cf_heap c') bs r.
Proof.
  intros Hr Hok Hlive (numa & b & n & p & Ha & Hp & Hd & Ht & Hl & Hb). destruct (local_steps_ok inner c c' Hr Hok) as [[Hok' _] Hev].
  destruct (lk_live _ _ _ Hok' (lr_data r)) as [[d' n'] Ha']; [apply elem_of_app; by left|].
  destruct (arc_stable inner c c' _ _ n d' n' Hr Hok Ha Ha') as [-> Hbytes].
  destruct (pool_place_Some _ _ _ _ Hev Hp) as (p' & Hp' & Hpl). exists numa, b, n', p'. do 5 (split; [done|]).
  assert (buf_addr p' b = buf_addr p b) as -> by (unfold pool_place in Hpl; unfold buf_addr; congruence).
  rewrite <- Hb. apply bytes_at_ext. intros x Hx. by eapply (Hbytes numa b p x).
Qed.

Lemma slot_arcs_live st key i s r : slot_at st key i = Some s → r ∈ sl_replicas s → lr_data r ∈ object_arcs (ls_objects st).
Proof.
  unfold slot_at. intros (o & Ho & Hs)%bind_Some Hr. rewrite (object_arcs_delete _ _ _ Ho). apply elem_of_app. left.
  apply list_elem_of_fmap_2. by eapply elem_of_object_replicas.
Qed.

(** A slot left alone keeps its bytes through any execution. *)
Lemma slot_holds_steps c c' key i bs :
  rtc (local_step inner) c c' → cfg_ok c → slot_at (cf_st c') key i = slot_at (cf_st c) key i →
  slot_holds (cf_st c) (cf_heap c) key i bs → slot_holds (cf_st c') (cf_heap c') key i bs.
Proof.
  intros Hr Hok Heq (s & Hs & Hne & Hall). exists s. rewrite Heq. split; [done|]. split; [done|].
  rewrite Forall_forall in Hall |- *. intros r Hin. eapply replica_holds_steps; [done|done| |by apply Hall].
  rewrite <- Heq in Hs. by eapply slot_arcs_live.
Qed.

Lemma unclaim_spec key i st o s :
  ls_objects st !! key = Some o → lo_slots o !! i = Some s →
  unclaim key i st = Ret (set_objects (<[key := mkLocalObject (lo_spec o) (<[i := mkLocalSlot (sl_replicas s) false]> (lo_slots o))]> (ls_objects st)) st).
Proof. intros Hk Hs. unfold unclaim. by rewrite Hk, Hs. Qed.

(** One turn of phase 2 on a claimed slot, the claim given up on an error. *)
Lemma put_turn_ok {stale} key i ps st h o s :
  local_ok [] [] st → layout_ok (ls_pools st) h → queues_at stale st → put_slot_pre inner dr st h ps →
  ls_objects st !! key = Some o → lo_slots o !! i = Some s → sl_replicas s = [] →
  (∃ h' st' r o', ('(w, st, r) ← local_put_slot inner dr key i ps (mkLocalWorld h []) st;
                  st ← (if is_ok r then Ret st else unclaim key i st); Ret (w, st, r)) = Ret (mkLocalWorld h' [], st', r) ∧
    local_ok [] [] st' ∧ layout_ok (ls_pools st') h' ∧ queues_at stale st' ∧ evolves st st' ∧ outside_same (ls_pools st) h h' ∧
    ls_objects st' !! key = Some o' ∧ lo_spec o' = lo_spec o ∧ length (lo_slots o') = length (lo_slots o) ∧
    (∀ j, j ≠ i → lo_slots o' !! j = lo_slots o !! j) ∧
    is_ok r = slot_fits key ps st ∧
    (is_ok r = true → slot_holds st' h' key i (segs_contents h (iov_segs (ps_src ps)))) ∧
    shrinks key st st' ∧ ∃ s', lo_slots o' !! i = Some s' ∧ sl_writing s' = false ∧
      ∀ e, r = Err e → sl_replicas s' = [] ∧ (err_kind e = NoSpace ∨ err_kind e = InvalidInput)) ∨
  stale = true ∧ local_put_slot inner dr key i ps (mkLocalWorld h []) st = Panicked ∧ slot_fits key ps st = false.
Proof.
  intros Hok Hly Hq Hpre Hk Hs Hempty.
  destruct (local_put_slot_ok inner dr key i ps st h o s Hok Hly Hq Hpre Hk Hs) as [(h' & st1 & r & -> & Hok1 & Hly1 & Hq1 & Hev1 & Hout & Hfits & Hr & Hsh)|?]; [left|by right].
  cbn [mbind outcome_bind]. apply lookup_lt_Some in Hs as Hlt. destruct r as [u|e]; cbn [is_ok].
  - destruct Hr as (rs & Hk1 & Hne & Hall). eexists h', st1, (Ok u), _. split; [done|]. do 5 (split; [done|]). split; [exact Hk1|]. split; [done|].
    simpl. split; [by rewrite length_insert|]. split; [intros j Hj; by rewrite list_lookup_insert_ne|]. split; [done|]. split.
    + intros _. eexists. unfold slot_at. rewrite Hk1. simpl. rewrite list_lookup_insert_eq by done. split; [done|].
      simpl. rewrite Hempty. by split.
    + split; [done|]. eexists. rewrite list_lookup_insert_eq by done. by split_and!.
  - destruct Hr as [Hr Hkind]. rewrite (unclaim_spec key i st1 o s Hr Hs). cbn [mbind outcome_bind]. eexists h', _, (Err e), _. split; [done|].
    destruct (unclaim_ok [] [] key i st1 _ Hok1 (unclaim_spec key i st1 o s Hr Hs)) as [Hok2 Hev2].
    split; [done|]. split; [done|]. split.
    { destruct Hq1 as [H1 H2]. split; simpl; [done|]. intros Hst d q Hd. eapply entries_valid_insert; [exact Hr|simpl; by rewrite length_insert|by eapply H2]. }
    split; [by etrans|]. split; [done|]. split; [simpl; by rewrite lookup_insert_eq|]. simpl. split; [done|]. split; [by rewrite length_insert|].
    split; [intros j Hj; by rewrite list_lookup_insert_ne|]. split; [done|]. split; [done|]. split.
    { eapply shrinks_trans; [exact Hok|exact Hev1|done|]. apply shrinks_same. intros k Hne. simpl. by rewrite lookup_insert_ne. }
    eexists. rewrite list_lookup_insert_eq by done. split; [done|]. split; [done|]. intros e' [= <-]. by split.
Qed.

Lemma put_slot_pre_step st st' h h' ps :
  evolves st st' → outside_same (ls_pools st) h h' → put_slot_pre inner dr st h ps →
  put_slot_pre inner dr st' h' ps ∧ segs_contents h' (iov_segs (ps_src ps)) = segs_contents h (iov_segs (ps_src ps)).
Proof.
  intros Hev Hout [Hd Hl Hs]. split.
  - constructor; [done|done|]. intros d Hdev. eapply put_src_evolves; [done|]. eapply put_src_outside; [done|]. by apply Hs.
  - destruct (option_map iov_device (ps_src ps !! 0%nat)) as [d|]; [|done]. specialize (Hs d eq_refl).
    eapply segs_outside; [done|apply Hs|apply Hs].
Qed.

(** A slot after phase 2 and its answer: one that was claimed is written or empty,
    another is as it was. *)
Definition slot_answered (claimed : bool) (s s' : LocalSlot) (r : Result unit) : Prop :=
  if claimed then sl_writing s' = false ∧ ∀ e, r = Err e → sl_replicas s' = [] ∧ (err_kind e = NoSpace ∨ err_kind e = InvalidInput)
  else s' = s ∧ ∃ e, r = Err e ∧ err_kind e = AlreadyExists.

(** What phase 2 leaves behind. *)
Definition local_put_done (stale : bool) (key : bytes) (writable : list bool) (i : nat) (slots : list PutSlot) (rs : RpPut) (st st' : LocalState) (h h' : heap) : Prop :=
  local_ok [] [] st' ∧ layout_ok (ls_pools st') h' ∧ queues_at stale st' ∧ evolves st st' ∧ outside_same (ls_pools st) h h' ∧
  length rs = length slots ∧ (∃ o o', ls_objects st !! key = Some o ∧ ls_objects st' !! key = Some o' ∧ lo_spec o' = lo_spec o ∧ length (lo_slots o') = length (lo_slots o)) ∧
  (∀ j, (j < i)%nat → slot_at st' key j = slot_at st key j) ∧
  (∀ k ps, slots !! k = Some ps → rs !! k = Some (Ok tt) → slot_holds st' h' key (i + k) (segs_contents h (iov_segs (ps_src ps)))) ∧
  shrinks key st st' ∧
  ∀ k r, rs !! k = Some r → ∃ b s s', writable !! (i + k)%nat = Some b ∧ slot_at st key (i + k) = Some s ∧
    slot_at st' key (i + k) = Some s' ∧ slot_answered b s s' r.

Lemma local_put_slots_ok {stale} key writable slots i results st h o :
  local_ok [] [] st → layout_ok (ls_pools st) h → queues_at stale st → Forall (put_slot_pre inner dr st h) slots →
  ls_objects st !! key = Some o → length (lo_slots o) = (i + length slots)%nat → length writable = (i + length slots)%nat →
  (∀ j s, (i <= j)%nat → writable !! j = Some true → lo_slots o !! j = Some s → sl_replicas s = []) →
  (∃ h' st' rs, local_put_slots inner dr key writable i slots results (mkLocalWorld h []) st = Ret (mkLocalWorld h' [], st', results ++ rs) ∧
    local_put_done stale key writable i slots rs st st' h h') ∨
  stale = true ∧ local_put_slots inner dr key writable i slots results (mkLocalWorld h []) st = Panicked.
Proof.
  revert i results st h o. induction slots as [|ps slots IH]; intros i results st h o Hok Hly Hq Hpre Hk Hlo Hlw Hemp; cbn [local_put_slots].
  { left. exists h, st, []. rewrite app_nil_r. split; [done|]. unfold local_put_done. split_and!; try done; [by exists o, o|by apply shrinks_same]. }
  apply Forall_cons in Hpre as [Hps Hpre]. simpl in Hlo, Hlw. destruct (lookup_lt_is_Some_2 writable i) as [b Hb]; [lia|].
  rewrite Hb. cbn [unwrap mbind outcome_bind]. destruct (lookup_lt_is_Some_2 (lo_slots o) i) as [s Hs]; [lia|]. destruct b; cbn [negb].
  - destruct (put_turn_ok key i ps st h o s Hok Hly Hq Hps Hk Hs) as [(h1 & st1 & r & o1 & Hturn & Hok1 & Hly1 & Hq1 & Hev1 & Hout1 & Hk1 & Hsp1 & Hl1 & Hoth1 & Hfit1 & Hhold & Hsh1 & s1 & Hs1 & Hw1 & Herr1)|(? & -> & _)];
      [by eapply (Hemp i)| |by right].
    apply bind_Ret_inv in Hturn as ([[w0 st0] r0] & Hslot & Hturn). apply bind_Ret_inv in Hturn as (st2 & Hun & Hturn).
    simplify_eq. rewrite Hslot. cbn [mbind outcome_bind]. rewrite Hun. cbn [mbind outcome_bind].
    assert (Forall (put_slot_pre inner dr st1 h1) slots) as Hpre1.
    { eapply Forall_impl; [exact Hpre|]. intros ps' Hps'. by apply (put_slot_pre_step st st1 h h1 ps'). }
    destruct (IH (S i) (results ++ [map_err (λ e, with_context e "slot" (CInt (Z.of_nat i))) r]) st1 h1 o1 Hok1 Hly1 Hq1 Hpre1 Hk1)
      as [(h2 & st2 & rs & Hrun & Hok2 & Hly2 & Hq2 & Hev2 & Hout2 & Hlen & (oa & ob & Hoa & Hob & Hsp & Hlob) & Hbefore & Hholds & Hsh2 & Hans)|?]; [lia|lia| |left|by right].
    { intros j s' Hj Hw Hs'. rewrite Hoth1 in Hs' by lia. eapply (Hemp j); [lia|done|done]. }
    exists h2, st2, (map_err (λ e, with_context e "slot" (CInt (Z.of_nat i))) r :: rs). split.
    { rewrite Hrun. by rewrite <- (assoc_L (++)). }
    split; [done|]. split; [done|]. split; [done|]. split; [by etrans|]. split; [intros x Hx; rewrite Hout2, Hout1; [done|done|by rewrite in_pool_evolves]|].
    split; [simpl; lia|]. split; [exists o, ob; split; [done|]; split; [done|]; split; congruence|]. split.
    { intros j Hj. rewrite Hbefore by lia. unfold slot_at. rewrite Hk1, Hk. simpl. apply Hoth1. lia. }
    split; [intros [|k] ps' Hps' Hr|split; [by eapply shrinks_trans; [exact Hok|exact Hev1|..]|intros [|k] r' Hr]].
    + simplify_eq/=. destruct r as [u|e]; [|done]. rewrite Nat.add_0_r.
      destruct (local_put_slots_steps inner dr key writable (S i) slots _ _ _ st1 st2 _ [] [] ltac:(eapply Forall_impl; [exact Hpre|]; by intros ? []) Hrun) as (q & Hqq & Hst).
      cbn [w_pending app] in Hqq. eapply (slot_holds_steps (mkCfg st1 h1 [] []) (mkCfg st2 h2 [] [])); [apply Hst; by destruct q|by split| |by apply Hhold].
      simpl. apply Hbefore. lia.
    + simpl in Hps', Hr. replace (i + S k)%nat with (S i + k)%nat by lia. rewrite Forall_lookup in Hpre.
      destruct (put_slot_pre_step st st1 h h1 ps' Hev1 Hout1 (Hpre _ _ Hps')) as [_ <-]. by apply Hholds.
    + simplify_eq/=. rewrite Nat.add_0_r. exists true, s, s1. split; [done|]. unfold slot_at at 1. rewrite Hk. split; [done|].
      rewrite Hbefore by lia. unfold slot_at. rewrite Hk1. split; [done|]. split; [done|]. intros e He.
      destruct r as [|e']; [done|]. simplify_eq/=. by apply Herr1.
    + simpl in Hr. destruct (Hans k r' Hr) as (b & sa & sb & Hb' & Hsa & Hsb & Hout'). rewrite <- Nat.add_succ_comm in *.
      exists b, sa, sb. split; [done|]. split; [|done]. unfold slot_at in Hsa |- *. rewrite Hk1 in Hsa. rewrite Hk. simpl in *.
      by rewrite <- Hoth1 by lia.
  - destruct (IH (S i) (results ++ [Err (with_context (Error_new AlreadyExists "slot already written") "slot" (CInt (Z.of_nat i)))]) st h o Hok Hly Hq Hpre Hk)
      as [(h2 & st2 & rs & Hrun & Hok2 & Hly2 & Hq2 & Hev2 & Hout2 & Hlen & Hoo & Hbefore & Hholds & Hsh2 & Hans)|?]; [lia|lia| |left|by right].
    { intros j s' Hj Hw Hs'. eapply (Hemp j); [lia|done|done]. }
    exists h2, st2, (Err (with_context (Error_new AlreadyExists "slot already written") "slot" (CInt (Z.of_nat i))) :: rs). split.
    { rewrite Hrun. by rewrite <- (assoc_L (++)). }
    do 5 (split; [done|]). split; [simpl; lia|]. split; [done|]. split; [intros j Hj; apply Hbefore; lia|].
    split; [intros [|k] ps' Hps' Hr; [done|]; simpl in Hps', Hr; replace (i + S k)%nat with (S i + k)%nat by lia; by apply Hholds|].
    split; [done|]. intros [|k] r' Hr; simpl in Hr.
    + simplify_eq. rewrite Nat.add_0_r. exists false, s, s. split; [done|]. unfold slot_at at 1. rewrite Hk. split; [done|].
      rewrite Hbefore by lia. unfold slot_at. rewrite Hk. split; [done|]. split; [done|]. by eexists.
    + replace (i + S k)%nat with (S i + k)%nat by lia. by apply Hans.
Qed.

(** ** The whole put *)

(** A put may be made: the key is free or has the same spec and shape, and unless
    stale entries are allowed for, no queue entry names a slot its object does
    not have, or the new object will not have. *)
Record put_pre_at (stale : bool) (key : bytes) (op : OpPut) (st : LocalState) (h : heap) : Prop := mkLocalPutPre {
  pr_ok : local_ok [] [] st;
  pr_layout : layout_ok (ls_pools st) h;
  pr_queues : queues_at stale st;
  pr_valid : OpPut_validate op = Ok tt;
  pr_spec o : ls_objects st !! key = Some o → lo_spec o = OpPut_spec op ∧ length (lo_slots o) = length (op_slots op);
  pr_stale d q i : stale = false → ls_fifo st !! d = Some q → (key, i) ∈ q → (Z.to_nat i < length (op_slots op))%nat;
  pr_slots : Forall (put_slot_pre inner dr st h) (op_slots op);
}.

Definition local_put_pre : bytes → OpPut → LocalState → heap → Prop := put_pre_at false.

Lemma local_put_pre_loose stale key op st h : put_pre_at stale key op st h → put_pre_at true key op st h.
Proof. intros [H1 H2 H3 H4 H5 H6 H7]. constructor; try done. by eapply queues_loose. Qed.

Lemma claim_slot_true s : (claim_slot s).2 = true → sl_replicas (claim_slot s).1 = [].
Proof. unfold claim_slot. destruct (sl_replicas s) eqn:Hs; [destruct (sl_writing s)|]; done. Qed.

Lemma claim_returns {stale} key op st h :
  put_pre_at stale key op st h →
  ∃ st' w o, claim key (OpPut_spec op) st = Ok (st', w) ∧ local_ok [] [] st' ∧ evolves st st' ∧ queues_at stale st' ∧
    ls_pools st' = ls_pools st ∧ ls_objects st' !! key = Some o ∧ lo_spec o = OpPut_spec op ∧
    length (lo_slots o) = length (op_slots op) ∧ length w = length (op_slots op) ∧
    ∀ j s, w !! j = Some true → lo_slots o !! j = Some s → sl_replicas s = [].
Proof.
  intros [Hok Hly [Hr Hv] _ Hspec Hstale _].
  assert (∃ st' w, claim key (OpPut_spec op) st = Ok (st', w)) as (st' & w & Hc).
  { unfold claim. destruct (ls_objects st !! key) as [o|] eqn:Hk; [|eauto]. destruct (Hspec o eq_refl) as [-> _].
    rewrite decide_False by tauto. eauto. }
  destruct (claim_ok [] [] key _ st st' w Hok Hc) as [Hok' Hev]. apply claim_inv in Hc as Hinv. destruct Hinv as (Hs & -> & ->).
  assert (length (lo_slots (claim_obj key (OpPut_spec op) st)) = length (op_slots op)) as Hlen.
  { unfold claim_obj. destruct (ls_objects st !! key) as [o|]; simpl; [by apply Hspec|]. by rewrite length_replicate, length_fmap. }
  eexists _, _, _. split; [done|]. split; [done|]. split; [done|]. split; [|split; [done|]; split; [simpl; by rewrite lookup_insert_eq|]; split; [done|]; simpl].
  - split; [done|]. simpl. intros Hst d q Hd k i o Hin [[<- <-]|[_ Ho]]%lookup_insert_Some; [|by eapply Hv].
    simpl. rewrite !length_fmap, Hlen. by eapply Hstale.
  - rewrite !length_fmap, Hlen. split; [done|]. split; [done|]. intros j s. rewrite !list_lookup_fmap.
    destruct (lo_slots _ !! j) as [s0|]; simpl; [|done]. intros Ht Hs0. simplify_eq. by apply claim_slot_true.
Qed.

(** The put as a whole: what it answers per slot, and what it does to the others. *)
Lemma local_put_full {stale} key op st h :
  put_pre_at stale key op st h →
  (∃ h' st' rs, local_put inner dr key op (mkLocalWorld h []) st = Ret (mkLocalWorld h' [], st', Ok rs) ∧ length rs = length (op_slots op) ∧
    local_ok [] [] st' ∧ layout_ok (ls_pools st') h' ∧ queues_at stale st' ∧ evolves st st' ∧ outside_same (ls_pools st) h h' ∧
    (∃ o, ls_objects st' !! key = Some o ∧ lo_spec o = OpPut_spec op) ∧
    (∀ i ps, op_slots op !! i = Some ps → rs !! i = Some (Ok tt) → slot_holds st' h' key i (segs_contents h (iov_segs (ps_src ps)))) ∧
    shrinks key st st' ∧
    (∀ j r, rs !! j = Some r → ∃ s s', lo_slots (claim_obj key (OpPut_spec op) st) !! j = Some s ∧ slot_at st' key j = Some s' ∧
      slot_answered (claim_slot s).2 s s' r) ∧
    ∀ o, ls_objects st' !! key = Some o → length (lo_slots o) = length (op_slots op)) ∨
  stale = true ∧ local_put inner dr key op (mkLocalWorld h []) st = Panicked.
Proof.
  intros Hpre. destruct (claim_returns key op st h Hpre) as (st1 & w & o & Hc & Hok1 & Hev1 & Hq1 & Ep & Hk & Hsp & Hlo & Hlw & Hemp).
  destruct Hpre as [Hok0 Hly _ Hval _ _ Hslots]. unfold local_put. rewrite Hval, Hc.
  assert (Forall (put_slot_pre inner dr st1 h) (op_slots op)) as Hslots1.
  { eapply Forall_impl; [exact Hslots|]. intros ps Hps. by apply (put_slot_pre_step st st1 h h ps). }
  rewrite <- Ep in Hly.
  destruct (local_put_slots_ok key w (op_slots op) 0 [] st1 h o Hok1 Hly Hq1 Hslots1 Hk Hlo Hlw) as [(h' & st' & rs & -> & Hd)|[? ->]]; [intros j s _; apply Hemp|left|by right].
  destruct Hd as (Hok2 & Hly2 & Hq2 & Hev2 & Hout & Hlen & (oa & ob & Hoa & Hob & Hsp2 & Hlob) & _ & Hholds & Hsh & Hans).
  cbn [mbind outcome_bind app]. exists h', st', rs. split; [done|]. split; [done|]. split; [done|]. split; [done|]. split; [done|].
  split; [by etrans|]. split; [by rewrite <- Ep|]. split; [exists ob; split; [done|congruence]|]. split; [exact Hholds|].
  apply claim_inv in Hc as (_ & -> & ->).
  split; [|split; [|by intros ox Hox; rewrite Hob in Hox; injection Hox as <-; rewrite Hlob; congruence]].
  - eapply shrinks_trans; [exact Hok0|exact Hev1| |exact Hsh]. apply shrinks_same. intros k Hne. simpl. by rewrite lookup_insert_ne.
  - intros j r Hr. destruct (Hans j r Hr) as (b & s1 & s' & Hb & Hs1 & Hs' & Ha). rewrite Nat.add_0_l in *. unfold slot_at in Hs1.
    cbn [ls_objects set_objects] in Hs1. rewrite lookup_insert_eq in Hs1. cbn [mbind option_bind lo_slots] in Hs1.
    rewrite !list_lookup_fmap in Hs1. rewrite !list_lookup_fmap in Hb.
    destruct (lo_slots (claim_obj key (OpPut_spec op) st) !! j) as [s|]; simplify_eq/=. exists s, s'. split; [done|]. split; [done|].
    unfold claim_slot in *. destruct (sl_replicas s); [destruct (sl_writing s)|]; done.
Qed.

Lemma local_put_ok {stale} key op st h :
  put_pre_at stale key op st h →
  (∃ h' st' rs, local_put inner dr key op (mkLocalWorld h []) st = Ret (mkLocalWorld h' [], st', Ok rs) ∧ length rs = length (op_slots op) ∧
    local_ok [] [] st' ∧ layout_ok (ls_pools st') h' ∧ queues_at stale st' ∧ evolves st st' ∧ outside_same (ls_pools st) h h' ∧
    (∃ o, ls_objects st' !! key = Some o ∧ lo_spec o = OpPut_spec op) ∧
    ∀ i ps, op_slots op !! i = Some ps → rs !! i = Some (Ok tt) → slot_holds st' h' key i (segs_contents h (iov_segs (ps_src ps)))) ∨
  stale = true ∧ local_put inner dr key op (mkLocalWorld h []) st = Panicked.
Proof.
  intros Hpre. destruct (local_put_full key op st h Hpre) as [(h' & st' & rs & ? & ? & ? & ? & ? & ? & ? & ? & ? & _)|?]; [left|by right].
  exists h', st', rs. by split_and!.
Qed.

(** ** Reading a slot *)

Lemma local_get_holds dr' held refs key op dst_device dst_len st h o spec bs :
  local_ok held refs st → layout_ok (ls_pools st) h → ls_objects st !! key = Some o →
  spec_slots (lo_spec o) !! Z.to_nat (get_slot op) = Some spec → spec_len spec = Z.of_nat (length bs) →
  slot_holds st h key (Z.to_nat (get_slot op)) bs → OpGet_validate op = Ok (dst_device, dst_len) →
  get_dst_ok (ls_pools st) h op dst_len → get_src_offset op + dst_len <= Z.of_nat (length bs) → Z.of_nat (length bs) <= U64_MAX →
  (∀ numa, is_Some (ls_pools st !! numa) → engine_ok inner dr' (Cpu numa) dst_device) →
  ∃ h' st' from, local_get inner dr' key op (mkLocalWorld h []) st = Ret (mkLocalWorld h' [], st', Ok from) ∧
    segs_contents h' (iov_segs (get_dst op)) = take (Z.to_nat dst_len) (drop (Z.to_nat (get_src_offset op)) bs) ∧
    only_in (addrs (iov_segs (get_dst op))) h h' ∧ same_meta st st' ∧ local_ok held refs st' ∧ evolves st st'.
Proof.
  intros Hok Hly Hk Hspec Hlen (s & Hs & Hne & Hall) Hval Hdst Hrange Hmax Heng. unfold slot_at in Hs. rewrite Hk in Hs. simpl in Hs.
  assert (∃ r, local_nearest inner dst_device (sl_replicas s) = Some r ∧ r ∈ sl_replicas s) as (r & Hr & Hin).
  { destruct (local_nearest inner dst_device (sl_replicas s)) as [r|] eqn:Hr; [eauto using min_by_elem|].
    unfold local_nearest in Hr. by destruct (sl_replicas s). }
  rewrite Forall_forall in Hall. destruct (Hall r Hin) as (numa & b & n & p & Ha & Hp & Hd & Ht & Hl & Hb).
  destruct (arc_clone_ok held refs st (lr_data r) Hok) as (st1 & Hc & Hmeta & Hev & Hok1 & Hfst).
  { rewrite (object_arcs_delete _ _ _ Hk), !elem_of_app. left. left. apply list_elem_of_fmap_2. by eapply elem_of_object_replicas. }
  assert (lookup_replica inner key op dst_device st = Ret (st1, Ok (r, spec_len spec))) as Hlook.
  { unfold lookup_replica. rewrite Hk, Hspec, Hs. cbn [unwrap mbind outcome_bind]. rewrite Hr, Hc. done. }
  pose proof (lookup_replica_ok held refs inner key op dst_device st st1 _ Hok Hlook) as (_ & _ & Ep & _ & _).
  unfold local_get. rewrite Hval, Hlook. cbn [mbind outcome_bind].
  assert (range_ok op dst_len (spec_len spec) = true) as ->.
  { unfold range_ok. destruct (checked_add (get_src_offset op) dst_len) as [e|] eqn:Hadd.
    - apply checked_add_Some in Hadd as [-> _]. apply Z.leb_le. lia.
    - unfold checked_add in Hadd. case_decide; [done|]. lia. }
  cbn [negb]. assert (∃ n1, ls_arcs st1 !! lr_data r = Some (PinnedData numa b, n1)) as [n1 Ha1].
  { apply (f_equal (lookup (lr_data r))) in Hfst. rewrite !lookup_fmap, Ha in Hfst. simpl in Hfst.
    apply fmap_Some in Hfst as ([d m] & Hm & Heq). simpl in Heq. subst d. eauto. }
  rewrite <- Ep in Hp, Hly, Hdst.
  destruct (get_copy_ok inner held (lr_data r :: refs) dr' r op dst_device dst_len st1 h numa b n1 p []) as (h' & -> & Hcont & Honly); try done.
  { lia. }
  { rewrite Hd. apply Heng. rewrite <- Ep. eauto. }
  cbn [mbind outcome_bind]. destruct (arc_drop_ok held (lr_data r :: refs) refs st1 (lr_data r) Hok1 (Permutation_refl _)) as (st2 & -> & [Ho Hf] & Hev2 & Hok2).
  cbn [mbind outcome_bind]. eexists h', st2, _. split; [done|]. split; [by rewrite Hcont, Hb|]. split; [done|]. split; [|split; [done|by etrans]].
  destruct Hmeta. split; congruence.
Qed.

(** A put of one slot that is free and fits is accepted. *)
Lemma local_put_single {stale} key op ps st h st1 :
  put_pre_at stale key op st h → op_slots op = [ps] → claim key (OpPut_spec op) st = Ok (st1, [true]) → slot_fits key ps st1 = true →
  ∃ h' st', local_put inner dr key op (mkLocalWorld h []) st = Ret (mkLocalWorld h' [], st', Ok [Ok tt]).
Proof.
  intros Hpre Hop Hc Hfit. destruct (claim_returns key op st h Hpre) as (st1' & w & o & Hc' & Hok1 & Hev1 & Hq1 & Ep & Hk & Hsp & Hlo & Hlw & Hemp).
  rewrite Hc in Hc'. simplify_eq. destruct Hpre as [_ Hly _ Hval _ _ Hslots]. rewrite Hop in Hslots, Hlo. apply Forall_cons in Hslots as [Hps _].
  destruct (lookup_lt_is_Some_2 (lo_slots o) 0) as [s Hs]; [rewrite Hlo; simpl; lia|]. rewrite <- Ep in Hly.
  destruct (put_turn_ok key 0 ps st1' h o s Hok1 Hly Hq1) as [(h' & st' & r & o' & Hturn & _ & _ & _ & _ & _ & _ & _ & _ & _ & Hr & _)|(_ & _ & ?)]; [..|congruence]; try done.
  { by apply (put_slot_pre_step st st1' h h ps). }
  { by apply (Hemp 0%nat). }
  rewrite Hfit in Hr. destruct r as [[]|]; [|done]. apply bind_Ret_inv in Hturn as ([[w0 st0] r0] & Hslot & Hturn).
  apply bind_Ret_inv in Hturn as (st2 & Hun & Hturn). simplify_eq. cbn [is_ok] in Hun. simplify_eq.
  exists h', st'. unfold local_put. rewrite Hval, Hc, Hop. cbn [local_put_slots]. cbn [lookup list_lookup unwrap mbind outcome_bind negb].
  rewrite Hslot. done.
Qed.

(** A put that runs alone returns, with one answer per slot: no index or overflow
    panic, no access outside memory, and nothing left pending on a stream.  It
    changes no memory outside the pools, keeps ownership and queues in order, and
    every slot it accepted holds the source bytes in all its replicas. *)
Theorem local_put_correct key op st h :
  local_put_pre key op st h →
  ∃ h' st' rs, local_put inner dr key op (mkLocalWorld h []) st = Ret (mkLocalWorld h' [], st', Ok rs) ∧ length rs = length (op_slots op) ∧
    local_ok [] [] st' ∧ layout_ok (ls_pools st') h' ∧ queues_ok st' ∧ evolves st st' ∧ outside_same (ls_pools st) h h' ∧
    (∃ o, ls_objects st' !! key = Some o ∧ lo_spec o = OpPut_spec op) ∧
    ∀ i ps, op_slots op !! i = Some ps → rs !! i = Some (Ok tt) → slot_holds st' h' key i (segs_contents h (iov_segs (ps_src ps))).
Proof. intros Hpre. destruct (local_put_ok key op st h Hpre) as [Hput|[? _]]; [exact Hput|done]. Qed.

(** C12: Put then get: a slot that a put accepted can be read back.  After any activity
    of other callers that leaves the slot in place, and whatever became of the
    source memory, an in-range get through any device returns and delivers the
    requested range of the bytes put.  The slots have at least one byte, sources and
    destinations are mapped and outside the pools, and the driver accepts the
    copies. *)
Theorem local_put_get key op st h h' st' rs i ps dr' c o gop dst_device dst_len :
  put_pre_at true key op st h → local_put inner dr key op (mkLocalWorld h []) st = Ret (mkLocalWorld h' [], st', Ok rs) →
  op_slots op !! i = Some ps → rs !! i = Some (Ok tt) →
  rtc (local_step inner) (mkCfg st' h' [] []) c → slot_at (cf_st c) key i = slot_at st' key i →
  ls_objects (cf_st c) !! key = Some o → lo_spec o = OpPut_spec op →
  get_slot gop = Z.of_nat i → OpGet_validate gop = Ok (dst_device, dst_len) →
  get_dst_ok (ls_pools (cf_st c)) (cf_heap c) gop dst_len → get_src_offset gop + dst_len <= spec_len (ps_spec ps) →
  (∀ numa, is_Some (ls_pools (cf_st c) !! numa) → engine_ok inner dr' (Cpu numa) dst_device) →
  ∃ h'' st'' from, local_get inner dr' key gop (mkLocalWorld (cf_heap c) []) (cf_st c) = Ret (mkLocalWorld h'' [], st'', Ok from) ∧
    segs_contents h'' (iov_segs (get_dst gop)) =
      take (Z.to_nat dst_len) (drop (Z.to_nat (get_src_offset gop)) (segs_contents h (iov_segs (ps_src ps)))).
Proof.
  intros Hpre Hput Hi Hr Hsteps Hslot Hk Hsp Hgs Hval Hdst Hrange Heng.
  destruct (local_put_ok key op st h Hpre) as [(h1 & st1 & rs1 & Hput1 & _ & Hok & Hly & _ & _ & _ & _ & Hholds)|[_ ?]]; [|congruence].
  rewrite Hput in Hput1. simplify_eq. specialize (Hholds i ps Hi Hr).
  assert (cfg_ok (mkCfg st1 h1 [] [])) as Hcfg by (by split).
  destruct (local_steps_ok inner _ _ Hsteps Hcfg) as [[Hok2 Hly2] _].
  pose proof (slot_holds_steps _ _ key i _ Hsteps Hcfg Hslot Hholds) as Hh.
  pose proof (pr_slots _ _ _ _ _ Hpre) as Hps. rewrite Forall_lookup in Hps. destruct (Hps _ _ Hi) as [Hdev [Hl1 Hl2] Hsrc].
  destruct (option_map iov_device (ps_src ps !! 0%nat)) as [d|]; [|done]. specialize (Hsrc d eq_refl).
  pose proof (segs_contents_len h _ (sr_segs _ _ _ _ _ _ _ Hsrc)) as Hlen. rewrite (sr_len _ _ _ _ _ _ _ Hsrc) in Hlen.
  destruct (local_get_holds dr' (cf_held c) (cf_refs c) key gop dst_device dst_len (cf_st c) (cf_heap c) o (ps_spec ps)
    (segs_contents h (iov_segs (ps_src ps)))) as (h2 & st2 & from & Hg & Hc & _); try done.
  - rewrite Hsp, Hgs, Nat2Z.id. simpl. by rewrite list_lookup_fmap, Hi.
  - by rewrite Hgs, Nat2Z.id.
  - lia.
  - rewrite Hlen. unfold ALIGN in *. change (Z.shiftl 2 20) with 2097152 in *. lia.
  - by exists h2, st2, from.
Qed.
End Roundtrip.
