(* ===== verification/LocalBuild.v ===== *)
(** * The CUDA backend: construction

    [LocalBuilder] of [local.rs], and of [pinned.rs] the creation of a pool with
    the first touch of its pages.  [mmap] and the driver are parameters; the
    [i]-th call of [mmap] may answer differently from the others. *)

From S2P Require Import Prelude HostMem Types Region Memory MemoryCopy Pinned Text Numa Topology Cuda LocalCopy Local LocalInv LocalEvict LocalSections LocalTransfer LocalSteps LocalTheorems LocalRun LocalPut.

(** ** First touch *)

Definition PAGE : usize := 4096.

(** [map_or(8, |c| c.len().clamp(1, 32))]. *)
Definition touch_threads (t : Topology) (numa : u16) : nat :=
  match cpus_by_numa t !! numa with
  | Some c => Nat.min (Nat.max (length c) 1) 32
  | None => 8
  end.

Section Touch.
Context `{BuildProfile}.

Definition touch_chunk (len : usize) (threads : nat) : outcome usize :=
  u64_wrap (div_ceil (div_ceil len (Z.of_nat threads)) PAGE * PAGE).

(** The [while]: the offsets written.  A turn advances by a page, so one more
    than the number of pages is enough fuel ([touch_loop_spec]). *)
Fixpoint touch_loop (fuel : nat) (off stop : usize) : outcome (list usize) :=
  match fuel with
  | O => Panicked
  | S fuel =>
      if off <? stop then
        off' ← u64_add off PAGE;
        rest ← touch_loop fuel off' stop;
        Ret (off :: rest)
      else Ret []
  end.

Definition touch_thread (len chunk : usize) (t : nat) : outcome (list usize) :=
  start ← u64_wrap (Z.of_nat t * chunk);
  if len <=? start then Ret [] else
  stop ← u64_add start chunk;
  let stop := Z.min stop len in
  touch_loop (S (Z.to_nat (div_ceil (stop - start) PAGE))) start stop.

(** The offsets each thread writes. *)
Definition first_touch (topo : Topology) (numa : u16) (len : usize) : outcome (list (list usize)) :=
  let threads := touch_threads topo numa in
  chunk ← touch_chunk len threads;
  mapM (touch_thread len chunk) (seq 0 threads).

(** The writes themselves, one thread after the other. *)
Definition touch_pages (base : u64) (h : heap) (offs : list usize) : outcome heap :=
  mfoldl (λ h off, a ← u64_add base off; deref (store h a [0])) h offs.

(** ** Pools *)

(** [PinnedPool::new]. *)
Definition pinned_pool_new (sys : CudaSys) (mmap : usize → option u64) (topo : Topology) (numa : u16) (bytes : usize)
    : outcome (Result LocalPool) :=
  len ← align_up bytes;
  match mmap len with
  | None => Ret (Err (Error_new NoSpace "mmap bytes"))
  | Some base =>
      _ ← first_touch topo numa len;
      let registered := host_register sys base len in
      Ret (Ok (mkLocalPool numa registered base len [(0, len)]))
  end.

(** [Drop for PinnedPool]: the address unregistered, and the range unmapped. *)
Definition drop_pool (p : LocalPool) : option u64 * (u64 * usize) :=
  (if lp_registered p then Some (lp_base p) else None, (lp_base p, lp_len p)).

(** ** [LocalBuilder] *)

Record LocalBuilder : Type := mkLocalBuilder {
  lb_node : u64;
  lb_dram : list (u16 * usize);
  lb_gpus : option (list u16);
}.

Definition lb_new : LocalBuilder := mkLocalBuilder 0 [] None.
Definition lb_set_node (b : LocalBuilder) (node : u64) : LocalBuilder := mkLocalBuilder node (lb_dram b) (lb_gpus b).
Definition lb_add_dram (b : LocalBuilder) (numa : u16) (bytes : usize) : LocalBuilder :=
  mkLocalBuilder (lb_node b) (lb_dram b ++ [(numa, bytes)]) (lb_gpus b).
Definition lb_set_gpus (b : LocalBuilder) (gpus : list u16) : LocalBuilder := mkLocalBuilder (lb_node b) (lb_dram b) (Some gpus).

Definition unknown_numa (numa : u16) : Error :=
  with_context (Error_new InvalidInput "unknown NUMA node") "numa" (CInt numa).

(** The loop over the pools asked for; a node named twice keeps its last pool. *)
Fixpoint build_dram (sys : CudaSys) (mmap : nat → usize → option u64) (topo : Topology) (i : nat) (dram : list (u16 * usize))
    (pools : gmap u16 LocalPool) : outcome (Result (gmap u16 LocalPool)) :=
  match dram with
  | [] => Ret (Ok pools)
  | (numa, bytes) :: dram =>
      if negb (bool_decide (numa ∈ numa_nodes topo)) then Ret (Err (unknown_numa numa)) else
      r ← pinned_pool_new sys (mmap i) topo numa bytes;
      match r with
      | Err e => Ret (Err e)
      | Ok pool => build_dram sys mmap topo (S i) dram (<[numa := pool]> pools)
      end
  end.

Definition local_devices (pools : gmap u16 LocalPool) (gpus : list CudaGpu) : list Device :=
  (Cpu <$> pool_order pools) ++ ((λ g, Gpu (gpu_index g)) <$> gpus).

(** [LocalBuilder::build]; [detect_topo] is [Topology::detect] on the machine.  The
    zeros that [first_touch] writes into a new mapping are not applied to a heap:
    a pool's free memory has no contents anyone reads ([touch_pages] says which
    pages are written). *)
Definition local_build (sys : CudaSys) (mmap : nat → usize → option u64) (detect_topo : list (u16 * bytes) → Topology)
    (b : LocalBuilder) : outcome (Result (LocalInner * LocalState)) :=
  match (_ ← cuda_init sys;
         indices ← match lb_gpus b with Some g => Ok g | None => n ← device_count sys; Ok (seqZ 0 n) end;
         '(gpus, _) ← gpus_open sys indices;
         Ok gpus) with
  | Err e => Ret (Err e)
  | Ok gpus =>
      let topo := detect_topo ((λ g, (gpu_index g, gpu_pci_bus_id g)) <$> gpus) in
      r ← build_dram sys mmap topo 0 (lb_dram b) ∅;
      match r with
      | Err e => Ret (Err e)
      | Ok pools =>
          let devices := local_devices pools gpus in
          let info := mkAccessInfo "local" (lb_node b) devices Capability_all in
          let fifo := list_to_map ((λ d, (d, [])) <$> devices) in
          Ret (Ok (mkLocalInner info topo gpus, mkLocalState ∅ fifo pools ∅ 0))
      end
  end.

(** [Local::pool_stats]: node, capacity and free bytes per pool, by node. *)
Definition pool_stats (st : LocalState) : list (u16 * usize * usize) :=
  omap (λ n, (λ p, (lp_numa p, lp_len p, free_bytes (lp_free p))) <$> ls_pools st !! n) (pool_order (ls_pools st)).

(** ** First touch reaches every page once *)

Definition pages (len : usize) : Z := div_ceil len PAGE.

Lemma pages_spec len : 0 <= len → len <= pages len * 4096 < len + 4096.
Proof. intros. apply (div_ceil_spec len PAGE); unfold PAGE; lia. Qed.

Lemma pages_unique len n : 0 <= len → len <= n * 4096 < len + 4096 → pages len = n.
Proof. intros Hl Hn. pose proof (pages_spec len Hl). lia. Qed.

Lemma touch_loop_spec fuel off stop :
  0 <= off → off <= stop → stop + 4096 <= U64_MAX → (Z.to_nat (pages (stop - off)) < fuel)%nat →
  touch_loop fuel off stop = Ret ((λ k, off + k * 4096) <$> seqZ 0 (pages (stop - off))).
Proof.
  revert off. induction fuel as [|fuel IH]; intros off H0 Hle Hmax Hfuel; [lia|]. cbn [touch_loop].
  destruct (Z.ltb_spec off stop) as [Hlt|Hge].
  - change PAGE with 4096. rewrite u64_add_ok by (split; lia). cbn [mbind outcome_bind].
    destruct (Z.le_gt_cases (off + 4096) stop) as [Hs|Hs].
    + assert (pages (stop - off) = 1 + pages (stop - (off + 4096))) as Hp.
      { apply pages_unique; [lia|]. pose proof (pages_spec (stop - (off + 4096)) ltac:(lia)). lia. }
      pose proof (pages_spec (stop - (off + 4096)) ltac:(lia)). rewrite IH by lia. cbn [mbind outcome_bind].
      rewrite Hp, (seqZ_cons 0 (1 + _)) by lia. csimpl. f_equal. f_equal; [lia|].
      replace (Z.pred (1 + pages (stop - (off + 4096)))) with (pages (stop - (off + 4096))) by lia.
      rewrite <- (fmap_add_seqZ 1 0), <- list_fmap_compose. apply list_fmap_ext. intros i x _. simpl. lia.
    + assert (pages (stop - off) = 1) as Hp by (apply pages_unique; lia). rewrite Hp in *.
      destruct fuel as [|fuel]; [lia|]. cbn [touch_loop]. destruct (Z.ltb_spec (off + 4096) stop); [lia|]. cbn [mbind outcome_bind].
      csimpl. do 2 f_equal. lia.
  - assert (pages (stop - off) = 0) as -> by (apply pages_unique; lia). done.
Qed.

Lemma mapM_snoc {A B} (f : A → outcome B) l x : mapM f (l ++ [x]) = (ys ← mapM f l; y ← f x; Ret (ys ++ [y])).
Proof.
  induction l as [|a l IH]; simpl.
  - by destruct (f x).
  - destruct (f a); simpl; [|done|done]. rewrite IH. destruct (mapM f l); simpl; [|done|done]. by destruct (f x).
Qed.

(** Thread [t] touches its [c] pages, as far as the pool has them. *)
Lemma touch_thread_spec len c t :
  0 < len → 0 < c → (Z.of_nat t + 1) * (c * 4096) + 4096 <= U64_MAX → len + 4096 <= U64_MAX →
  touch_thread len (c * 4096) t =
    Ret ((λ k, k * 4096) <$> seqZ (Z.min (Z.of_nat t * c) (pages len))
      (Z.min ((Z.of_nat t + 1) * c) (pages len) - Z.min (Z.of_nat t * c) (pages len))).
Proof.
  intros Hl Hc Hmax Hlen. pose proof (pages_spec len ltac:(lia)) as Hp. unfold touch_thread.
  rewrite u64_wrap_id by (split; lia). cbn [mbind outcome_bind].
  destruct (Z.leb_spec len (Z.of_nat t * (c * 4096))) as [Hge|Hlt].
  { rewrite !Z.min_r by nia. by rewrite Z.sub_diag. }
  rewrite u64_add_ok by (split; lia). cbn [mbind outcome_bind]. cbv zeta.
  set (m := Z.of_nat t * c). assert (0 <= m) by (unfold m; lia).
  replace (Z.of_nat t * (c * 4096)) with (m * 4096) in * by (unfold m; lia).
  replace ((Z.of_nat t + 1) * c) with (m + c) by (unfold m; lia).
  replace ((Z.of_nat t + 1) * (c * 4096)) with ((m + c) * 4096) in * by (unfold m; lia). clearbody m.
  assert (pages (Z.min (m * 4096 + c * 4096) len - m * 4096) = Z.min (m + c) (pages len) - m) as Hpg.
  { apply pages_unique; [lia|]. destruct (Z.min_spec (m + c) (pages len)) as [[? ->]|[? ->]]; lia. }
  rewrite touch_loop_spec by (unfold pages in *; lia). rewrite Hpg, (Z.min_l m) by lia. f_equal.
  replace (seqZ m (Z.min (m + c) (pages len) - m)) with (Z.add m <$> seqZ 0 (Z.min (m + c) (pages len) - m)).
  - rewrite <- list_fmap_compose. apply list_fmap_ext. intros i x _. simpl. lia.
  - rewrite fmap_add_seqZ. f_equal. lia.
Qed.

Lemma touch_all len c T :
  0 < len → 0 < c → Z.of_nat T * (c * 4096) + 4096 <= U64_MAX → len + 4096 <= U64_MAX →
  ∃ l, mapM (touch_thread len (c * 4096)) (seq 0 T) = Ret l ∧
    mjoin l = (λ k, k * 4096) <$> seqZ 0 (Z.min (Z.of_nat T * c) (pages len)).
Proof.
  intros Hl Hc Hmax Hlen. pose proof (pages_spec len ltac:(lia)). induction T as [|T IH].
  { exists []. split; [done|]. by rewrite Z.min_l by lia. }
  destruct IH as (l & Hm & Hj); [nia|]. rewrite seq_S. simpl. rewrite mapM_snoc, Hm. cbn [mbind outcome_bind].
  rewrite touch_thread_spec by lia. cbn [mbind outcome_bind]. eexists. split; [done|].
  rewrite join_app, Hj. simpl. rewrite app_nil_r, <- fmap_app. f_equal.
  rewrite Nat2Z.inj_succ. unfold Z.succ. symmetry.
  rewrite (seqZ_split 0 (Z.min ((Z.of_nat T + 1) * c) (pages len)) (Z.min (Z.of_nat T * c) (pages len))) by nia. done.
Qed.

Lemma touch_threads_bound topo numa : (1 <= touch_threads topo numa <= 32)%nat.
Proof. unfold touch_threads. destruct (cpus_by_numa topo !! numa); lia. Qed.

Lemma first_touch_ok topo numa len :
  0 < len <= 2 ^ 56 →
  ∃ l, first_touch topo numa len = Ret l ∧ mjoin l = (λ k, k * 4096) <$> seqZ 0 (pages len).
Proof.
  intros Hl. unfold first_touch. pose proof (touch_threads_bound topo numa) as Ht. set (T := touch_threads topo numa) in *. clearbody T.
  pose proof (div_ceil_spec len (Z.of_nat T) ltac:(lia) ltac:(lia)) as Hd. set (d := div_ceil len (Z.of_nat T)) in *. 
  assert (0 < d) as Hd0 by nia. assert (d < len + 1) as Hd1 by nia.
  pose proof (pages_spec d ltac:(lia)) as Hp. unfold touch_chunk. fold d. clearbody d. change PAGE with 4096.
  change (div_ceil d 4096) with (pages d). assert (0 < pages d) by lia.
  rewrite u64_wrap_id by (split; unfold U64_MAX; lia). cbn [mbind outcome_bind].
  destruct (touch_all len (pages d) T) as (l & Hm & Hj); [lia|lia|unfold U64_MAX; nia|unfold U64_MAX; lia|].
  exists l. split; [done|]. rewrite Hj. do 2 f_equal. pose proof (pages_spec len ltac:(lia)). apply Z.min_r. nia.
Qed.

Lemma touch_pages_ok base len h offs :
  0 <= base → base + len <= U64_MAX → mapped h base len → Forall (λ o, 0 <= o < len) offs →
  ∃ h', touch_pages base h offs = Ret h' ∧ ∀ x, is_Some (h' !! x) ↔ is_Some (h !! x).
Proof.
  intros H0 H1 Hm Hall. unfold touch_pages. revert h Hm. induction Hall as [|o offs Ho _ IH]; intros h Hm; cbn [mfoldl]; [by exists h|].
  rewrite u64_add_ok by (split; lia). cbn [mbind outcome_bind].
  destruct (store_mapped h (base + o) [0]) as [h1 Hs]; [eapply mapped_sub; [exact Hm|lia|simpl; lia]|]. rewrite Hs. cbn [deref mbind outcome_bind].
  destruct (IH h1) as (h' & -> & Hdom); [by rewrite store_mapped_iff by exact Hs|]. exists h'. split; [done|].
  intros x. rewrite Hdom. by apply (store_dom _ _ _ _ _ Hs).
Qed.

(** First touch covers the pool: whatever the number of threads, every page of a
    pool is written exactly once, in order within each thread, and no write falls
    outside the mapping. *)
Theorem first_touch_covers topo numa base len h :
  0 < len <= 2 ^ 56 → 0 <= base → base + len <= U64_MAX → mapped h base len →
  ∃ l h', first_touch topo numa len = Ret l ∧ mjoin l = (λ k, k * PAGE) <$> seqZ 0 (div_ceil len PAGE) ∧
    touch_pages base h (mjoin l) = Ret h' ∧ ∀ x, is_Some (h' !! x) ↔ is_Some (h !! x).
Proof.
  intros Hl H0 H1 Hm. destruct (first_touch_ok topo numa len Hl) as (l & Hf & Hj).
  destruct (touch_pages_ok base len h (mjoin l) H0 H1 Hm) as (h' & Ht & Hdom).
  - rewrite Hj. apply Forall_fmap, Forall_forall. intros k Hk%elem_of_seqZ. simpl. pose proof (pages_spec len ltac:(lia)). lia.
  - exists l, h'. by split_and!.
Qed.

(** ** A backend just built *)

Lemma pinned_pool_new_ok sys mmap topo numa bytes :
  0 < bytes <= 2 ^ 55 →
  ∃ r, pinned_pool_new sys mmap topo numa bytes = Ret r ∧
    ∀ p, r = Ok p → lp_numa p = numa ∧ bytes <= lp_len p <= 2 ^ 56 ∧ lp_free p = [(0, lp_len p)] ∧ (ALIGN | lp_len p) ∧ mmap (lp_len p) = Some (lp_base p).
Proof.
  intros Hb. unfold pinned_pool_new. destruct (align_up_ok bytes) as (len & -> & Hl & Hdiv); [lia|unfold U64_MAX; change ALIGN with 2097152; lia|].
  cbn [mbind outcome_bind]. destruct (mmap len) as [base|] eqn:Hm; [|eexists; split; [done|]; done].
  destruct (first_touch_ok topo numa len) as (l & -> & _); [change ALIGN with 2097152 in Hl; lia|]. cbn [mbind outcome_bind].
  eexists. split; [done|]. intros p [= <-]. simpl. split; [done|]. split; [change ALIGN with 2097152 in Hl; lia|]. by split_and!.
Qed.

(** What a pool of the backend is. *)
Definition built_pool (topo : Topology) (numa : u16) (p : LocalPool) : Prop :=
  numa ∈ numa_nodes topo ∧ lp_numa p = numa ∧ 0 < lp_len p <= 2 ^ 56 ∧ lp_free p = [(0, lp_len p)] ∧ (ALIGN | lp_len p).

Lemma build_dram_ok sys mmap topo i dram pools :
  Forall (λ x, 0 < x.2 <= 2 ^ 55) dram → map_Forall (built_pool topo) pools →
  ∃ r, build_dram sys mmap topo i dram pools = Ret r ∧
    ∀ pools', r = Ok pools' → map_Forall (built_pool topo) pools' ∧ ∀ n, is_Some (pools' !! n) ↔ is_Some (pools !! n) ∨ n ∈ dram.*1.
Proof.
  intros Hd. revert i pools. induction Hd as [|[numa bytes] dram Hb _ IH]; intros i pools Hp; cbn [build_dram].
  { eexists. split; [done|]. intros pools' [= <-]. split; [done|]. intros n. rewrite elem_of_nil. tauto. }
  case_bool_decide as Hn; cbn [negb]; [|eexists; split; [done|]; done].
  destruct (pinned_pool_new_ok sys (mmap i) topo numa bytes Hb) as (r & -> & Hr). cbn [mbind outcome_bind].
  destruct r as [p|e]; [|eexists; split; [done|]; done]. destruct (Hr p eq_refl) as (Hnuma & Hlen & Hfree & Hdiv & _).
  destruct (IH (S i) (<[numa := p]> pools)) as (r & -> & Hr').
  { apply map_Forall_insert_2; [|done]. split; [done|]. split; [done|]. split; [simpl in Hb; lia|done]. }
  eexists. split; [done|]. intros pools' Hp'. destruct (Hr' pools' Hp') as [H1 H2]. split; [done|].
  intros n. rewrite H2, lookup_insert_is_Some'. csimpl. rewrite elem_of_cons.
  split; [intros [[->|?]|?]|intros [?|[->|?]]]; auto.
Qed.

Lemma fifo_of_devices (ds : list Device) d :
  (list_to_map ((λ d, (d, [])) <$> ds) : gmap Device (list (bytes * u32))) !! d = if decide (d ∈ ds) then Some [] else None.
Proof.
  induction ds as [|d0 ds IH]; csimpl; [by rewrite lookup_empty|]. destruct (decide (d = d0)) as [->|Hne].
  - rewrite lookup_insert_eq, decide_True by left. done.
  - rewrite lookup_insert_ne, IH by done. destruct (decide (d ∈ ds)) as [Hin|Hin].
    + rewrite decide_True by (by right). done.
    + rewrite decide_False; [done|]. rewrite elem_of_cons. tauto.
Qed.

Lemma elem_of_pool_order (pools : gmap u16 LocalPool) n : n ∈ pool_order pools ↔ is_Some (pools !! n).
Proof.
  split; [apply pool_order_known|]. intros [p Hp]. unfold pool_order. rewrite merge_sort_Permutation, list_elem_of_fmap.
  exists (n, p). split; [done|]. by apply elem_of_map_to_list.
Qed.

(** C19: Construction is well formed: building returns on every builder whose
    pools are of positive size and at most [2^55] bytes; a backend it makes serves
    exactly the GPUs asked for and one pool per named NUMA node, each node known
    to the topology; every pool is one free fragment of whole 2 MiB units, at
    least as large as asked; every device it lists has an empty queue; and it
    holds no object. *)
Theorem local_build_wf sys mmap detect_topo b :
  Forall (λ x, 0 < x.2 <= 2 ^ 55) (lb_dram b) →
  ∃ r, local_build sys mmap detect_topo b = Ret r ∧
    ∀ inner st, r = Ok (inner, st) →
      local_fresh st ∧ queues_ok st ∧ map_Forall (built_pool (li_topo inner)) (ls_pools st) ∧
      (∀ n, is_Some (ls_pools st !! n) ↔ n ∈ (lb_dram b).*1) ∧
      (∀ gpus, lb_gpus b = Some gpus → gpu_index <$> li_gpus inner = gpus) ∧
      ∀ d, d ∈ ai_devices (li_info inner) ↔ ls_fifo st !! d = Some [].
Proof.
  intros Hd. unfold local_build. destruct (_ ≫= _) as [gpus|e] eqn:Hg; [|eexists; split; [done|]; done].
  set (topo := detect_topo _). destruct (build_dram_ok sys mmap topo 0 (lb_dram b) ∅ Hd) as (r & -> & Hr); [apply map_Forall_empty|].
  cbn [mbind outcome_bind]. destruct r as [pools|e]; [|eexists; split; [done|]; done]. destruct (Hr pools eq_refl) as [Hall Hdom].
  eexists. split; [done|]. intros inner st [= <- <-]. simpl. split; [|split; [|split; [done|split; [|split]]]].
  - constructor; [done|done|]. simpl. intros numa p Hp. destruct (Hall numa p Hp) as (_ & _ & ? & ? & ?). split; [done|]. split; [unfold U64_MAX; lia|done].
  - split; simpl.
    + intros numa Hn. rewrite fifo_of_devices. rewrite decide_True; [by eexists|]. unfold local_devices. apply elem_of_app. left.
      apply list_elem_of_fmap_2. by apply elem_of_pool_order.
    + intros _ d q Hq. rewrite fifo_of_devices in Hq. case_decide; [|done]. simplify_eq. by intros k i o ?%elem_of_nil.
  - intros n. rewrite Hdom, lookup_empty. split; [by intros [[? ?]|?]|by right].
  - intros idx Hidx. rewrite Hidx in Hg. apply bind_Ok_inv in Hg as ([] & _ & Hg). cbn [mbind result_bind] in Hg.
    apply bind_Ok_inv in Hg as ([gs rf] & Ho & Hg). simplify_eq. unfold gpus_open in Ho. apply bind_Ok_inv in Ho as (ds & Hds & Ho). simplify_eq.
    by apply open_devices_spec in Hds as [<- _].
  - intros d. rewrite fifo_of_devices. case_decide; [done|]. split; [done|]. done.
Qed.
End Touch.
