(* ===== verification/LocalAccess.v ===== *)
(** * [impl Access for Local]

    The CUDA backend as a [Servicer], and the proof that it keeps what [Store]
    relies on.  The caller's memory is the heap without the pinned pools. *)

From S2P Require Import Prelude HostMem Types Region Memory MemoryCopy Store MemoryAccess Pinned Text Numa Topology Cuda LocalCopy Local LocalInv LocalEvict LocalSections LocalTransfer LocalSteps LocalTheorems LocalRun LocalPut LocalRoundtrip.

Record LocalSystem : Type := mkLocalSystem {
  sy_world : LocalWorld;
  sy_state : LocalState;
  sy_guards : list RegionGuard;
  sy_counter : u64;
}.

Section LocalServicer.
Context `{BuildProfile} (inner : LocalInner) (dr : CudaSys).

Definition sy_with (y : LocalSystem) (w : LocalWorld) (st : LocalState) : LocalSystem :=
  mkLocalSystem w st (sy_guards y) (sy_counter y).

(** A registered region carries its guard until it is dropped. *)
Definition loc_register (ptr : usize) (len : u64) (d : Device) (y : LocalSystem)
    : outcome (LocalSystem * Result MemoryRegion) :=
  match local_register inner dr (sy_counter y) ptr len d with
  | (Ok (r, g), c) => Ret (mkLocalSystem (sy_world y) (sy_state y) (g :: sy_guards y) c, Ok r)
  | (Err e, c) => Ret (mkLocalSystem (sy_world y) (sy_state y) (sy_guards y) c, Err e)
  end.

Definition loc_put (key : bytes) (op : OpPut) (y : LocalSystem) : outcome (LocalSystem * Result RpPut) :=
  '(w, st, r) ← local_put inner dr key op (sy_world y) (sy_state y); Ret (sy_with y w st, r).

Definition loc_publish (key : bytes) (op : OpPublish) (y : LocalSystem) : outcome (LocalSystem * Result unit) :=
  '(st, r) ← local_publish key op (sy_state y); Ret (sy_with y (sy_world y) st, r).

Definition loc_stat (keys : list bytes) (y : LocalSystem) : outcome (LocalSystem * Result (list (option ObjectInfo))) :=
  Ret (y, Ok (local_stat inner (sy_state y) keys)).

Definition loc_get (key : bytes) (op : OpGet) (y : LocalSystem) : outcome (LocalSystem * Result RpGet) :=
  '(w, st, r) ← local_get inner dr key op (sy_world y) (sy_state y); Ret (sy_with y w st, r).

Definition loc_remove (keys : list bytes) (y : LocalSystem) : outcome (LocalSystem * Result unit) :=
  st ← local_remove (sy_state y) keys; Ret (sy_with y (sy_world y) st, Ok tt).

Definition loc_remove_prefix (prefix : bytes) (y : LocalSystem) : outcome (LocalSystem * Result u64) :=
  '(st, n) ← local_remove_prefix (sy_state y) prefix; Ret (sy_with y (sy_world y) st, Ok n).

Definition local_servicer : Servicer LocalSystem :=
  mkServicer LocalSystem (li_info inner) loc_register loc_put loc_publish loc_stat loc_get loc_remove loc_remove_prefix.
End LocalServicer.

(** ** The caller's memory *)

Definition outside_pools (pools : gmap u16 LocalPool) (x : Z) : Prop :=
  map_Forall (λ _ p, ¬ (lp_base p <= x < lp_base p + lp_len p)) pools.

Definition caller_heap (pools : gmap u16 LocalPool) (h : heap) : heap := filter (λ '(x, _), outside_pools pools x) h.

Lemma outside_pools_spec pools x : outside_pools pools x ↔ ¬ in_pool pools x.
Proof.
  split.
  - intros Ho (numa & p & Hp & Hx). by apply (Ho _ _ Hp).
  - intros Hn numa p Hp Hx. apply Hn. by exists numa, p.
Qed.

Lemma caller_heap_Some pools h x b : caller_heap pools h !! x = Some b ↔ h !! x = Some b ∧ ¬ in_pool pools x.
Proof. unfold caller_heap. by rewrite map_lookup_filter_Some, outside_pools_spec. Qed.

Lemma caller_heap_outside pools h : outside_same pools h (caller_heap pools h).
Proof. intros x Hx. apply option_eq. intros b. rewrite caller_heap_Some. tauto. Qed.

Lemma caller_heap_same st st' h h' :
  evolves st st' → outside_same (ls_pools st) h h' → caller_heap (ls_pools st') h' = caller_heap (ls_pools st) h.
Proof.
  intros Hev Hout. apply map_eq. intros x. apply option_eq. intros b. rewrite !caller_heap_Some, (in_pool_evolves _ _ _ Hev).
  split; intros [Hb Hx]; [by rewrite Hout in Hb|by rewrite Hout].
Qed.

(** A validated segment of the caller's memory is mapped and outside the pools. *)
Lemma caller_seg pools h v :
  iov_live (caller_heap pools h) v →
  seg_ok h (iov_as_ptr v, iov_len v) ∧ ∀ x, iov_as_ptr v <= x < iov_as_ptr v + iov_len v → ¬ in_pool pools x.
Proof.
  intros Hl. destruct (iov_live_mapped _ _ Hl) as [Hn Hm]. destruct Hl as [[(Ha & Hl & Hle & _) Hty] Hb].
  pose proof Hty as [[? ?] [? ?]]. apply (in_bounds_spec v Hty) in Hb as [_ Hb]. split.
  - unfold seg_ok. simpl. split; [unfold iov_as_ptr, wrapping_add; pose proof (Z.mod_pos_bound (region_addr (iov_region v) + iov_offset v) (2 ^ 64)); unfold U64_MAX; lia|].
    split; [done|]. split.
    + unfold iov_as_ptr, wrapping_add. pose proof (Z.mod_le (region_addr (iov_region v) + iov_offset v) (2 ^ 64)). lia.
    + intros x Hx. destruct (Hm x Hx) as [b Hxb]. apply caller_heap_Some in Hxb as [Hxb _]. eauto.
  - intros x Hx. destruct (Hm x Hx) as [b Hxb]. by apply caller_heap_Some in Hxb as [_ ?].
Qed.

Lemma elem_of_addrs_inv x (l : list Seg) : x ∈ addrs l → ∃ s, s ∈ l ∧ s.1 <= x < s.1 + s.2.
Proof. intros (s & Hx & Hs)%list_elem_of_bind. apply elem_of_seqZ in Hx. eauto. Qed.

Lemma non_overlapping_NoDup vs : non_overlapping vs → NoDup (addrs (iov_segs vs)).
Proof.
  induction 1 as [|v vs Hv _ IH]; [constructor|]. unfold iov_segs, addrs in *. csimpl. apply NoDup_app. split; [apply NoDup_seqZ|].
  split; [|done]. intros x Hx Hin. apply elem_of_seqZ in Hx. apply elem_of_addrs_inv in Hin as (s & Hs & Hxs).
  apply list_elem_of_fmap in Hs as (w & -> & Hw). simpl in *. rewrite List.Forall_forall in Hv.
  destruct (Hv w) as [?|?]; [by apply list_elem_of_In|lia|lia].
Qed.

Lemma validated_nonneg h g d n : Forall (iov_valid h) (get_dst g) → OpGet_validate g = Ok (d, n) → 0 <= n.
Proof.
  intros Hv Hval. apply validate_iovs_Ok in Hval as (_ & _ & -> & _); [|eapply Forall_impl; [exact Hv|]; by intros v []].
  apply zsum_nonneg, Forall_fmap. eapply Forall_impl; [exact Hv|]. intros v [_ [_ [? _]]]. done.
Qed.

Lemma caller_dst pools h g d n :
  Forall (iov_valid (caller_heap pools h)) (get_dst g) → non_overlapping (get_dst g) → OpGet_validate g = Ok (d, n) →
  0 <= get_src_offset g <= U64_MAX → get_dst_ok pools h g n.
Proof.
  intros Hv Hno Hval Hoff. pose proof (validated_nonneg _ _ _ _ Hv Hval) as Hn. unfold OpGet_validate in Hval.
  apply validate_iovs_Ok in Hval as (_ & Hall & -> & Hmax & _); [|eapply Forall_impl; [exact Hv|]; by intros v []].
  assert (∀ v, v ∈ get_dst g → iov_live (caller_heap pools h) v) as Hlive.
  { rewrite Forall_forall in Hv, Hall. intros v Hin. split; [by apply Hv|]. by apply (Hall v Hin). }
  assert (Forall (seg_ok h) (iov_segs (get_dst g))) as Hsegs.
  { apply Forall_fmap, Forall_forall. intros v Hin. simpl. exact (proj1 (caller_seg pools h v (Hlive v Hin))). }
  constructor; try done.
  - unfold total_len, iov_segs. by rewrite <- list_fmap_compose.
  - by apply non_overlapping_NoDup.
  - intros x (s & Hs & Hx)%elem_of_addrs_inv. apply list_elem_of_fmap in Hs as (v & -> & Hin).
    by apply (caller_seg pools h v (Hlive v Hin)).
Qed.

Lemma caller_contents pools h vs :
  Forall (seg_ok h) (iov_segs vs) → (∀ x, x ∈ addrs (iov_segs vs) → ¬ in_pool pools x) →
  contents (caller_heap pools h) vs = segs_contents h (iov_segs vs).
Proof.
  intros Hs Hx. destruct (segs_outside pools h (caller_heap pools h) (iov_segs vs) (caller_heap_outside pools h) Hx Hs) as [_ <-].
  unfold contents, segs_contents, iov_segs. by rewrite <- list_fmap_compose.
Qed.

(** ** The laws *)

Section LocalLawful.
Context `{BuildProfile} (inner : LocalInner) (dr : CudaSys).

Definition loc_heap (y : LocalSystem) : heap := caller_heap (ls_pools (sy_state y)) (w_heap (sy_world y)).

Definition loc_inv (y : LocalSystem) : Prop :=
  w_pending (sy_world y) = [] ∧ local_ok [] [] (sy_state y) ∧ layout_ok (ls_pools (sy_state y)) (w_heap (sy_world y)) ∧
  queues_ok (sy_state y).

Definition loc_safe_put (y : LocalSystem) (key : bytes) (op : OpPut) : Prop :=
  local_put_pre inner dr key op (sy_state y) (w_heap (sy_world y)).

Definition loc_safe_get (y : LocalSystem) (g : OpGet) : Prop :=
  ∀ d n numa, OpGet_validate g = Ok (d, n) → is_Some (ls_pools (sy_state y) !! numa) → engine_ok inner dr (Cpu numa) d.

Lemma loc_put_law y key op :
  loc_inv y → loc_safe_put y key op →
  ∃ y' rs, loc_put inner dr key op y = Ret (y', Ok rs) ∧ length rs = length (op_slots op) ∧ loc_inv y' ∧ loc_heap y' = loc_heap y ∧
    evolves (sy_state y) (sy_state y') ∧
    (∃ o, ls_objects (sy_state y') !! key = Some o ∧ lo_spec o = OpPut_spec op) ∧
    ∀ i ps, op_slots op !! i = Some ps → rs !! i = Some (Ok tt) →
      slot_holds (sy_state y') (w_heap (sy_world y')) key i (contents (loc_heap y) (ps_src ps)).
Proof.
  destruct y as [[h q] st gs c]. intros (Hq & _) Hpre. simpl in Hq, Hpre. subst q. unfold loc_safe_put in Hpre. simpl in Hpre.
  destruct (local_put_ok inner dr key op st h Hpre) as [(h' & st' & rs & Hput & Hlen & Hok & Hly & Hqs & Hev & Hout & Ho & Hh)|[? _]]; [|done].
  exists (mkLocalSystem (mkLocalWorld h' []) st' gs c), rs. unfold loc_put. simpl. rewrite Hput. split; [done|]. split; [done|].
  split; [done|]. split; [by apply caller_heap_same|]. do 2 (split; [done|]). intros i ps Hi Hr.
  pose proof (pr_slots _ _ _ _ _ _ _ Hpre) as Hps. rewrite Forall_lookup in Hps. destruct (Hps _ _ Hi) as [Hdev _ Hsrc].
  destruct (option_map iov_device (ps_src ps !! 0%nat)) as [d|]; [|done]. destruct (Hsrc d eq_refl) as [Hsegs _ Hap _].
  unfold loc_heap. simpl. rewrite caller_contents by done. by apply Hh.
Qed.
End LocalLawful.

#[global] Program Instance local_lawful `{BuildProfile} (inner : LocalInner) (dr : CudaSys) :
    Lawful (local_servicer inner dr) := {
  law_heap := loc_heap;
  law_inv := loc_inv;
  law_safe_put := loc_safe_put inner dr;
  law_safe_get := loc_safe_get inner dr;
}.
Next Obligation.
  intros HB inner dr y key op Hinv Hsafe. simpl.
  destruct (loc_put_law inner dr y key op Hinv Hsafe) as (y' & rs & Hput & Hlen & Hinv' & Hheap & _).
  exists y', (Ok rs). do 3 (split; [done|]). by intros ? [= <-].
Qed.
Next Obligation.
  intros HB inner dr y key op y' rs j ps g d n Hinv Hsafe Hput Hr Hps Hsg Hg Hdst Hno Hval Hoff Hle Hmax. simpl in *.
  destruct (loc_put_law inner dr y key op Hinv Hsafe) as (y1 & rs1 & Hput1 & _ & Hinv' & Hheap & Hev & (o & Ho & Hsp) & Hholds).
  rewrite Hput in Hput1. simplify_eq. specialize (Hholds j ps Hps Hr). rewrite <- Hheap in Hdst.
  destruct y1 as [[h1 q1] st1 gs1 c1]. destruct Hinv' as (Hq & Hok & Hly & _). unfold loc_heap in Hdst, Hsg. simpl in *. subst q1.
  pose proof (validated_nonneg _ _ _ _ Hdst Hval) as Hn.
  pose proof (caller_dst _ _ g d n Hdst Hno Hval ltac:(lia)) as Hgd.
  pose proof (pr_slots _ _ _ _ _ _ _ Hsafe) as Hslots. rewrite Forall_lookup in Hslots. destruct (Hslots _ _ Hps) as [Hdev [Hl1 _] Hsrc].
  destruct (option_map iov_device (ps_src ps !! 0%nat)) as [d0|]; [|done]. destruct (Hsrc d0 eq_refl) as [Hsegs Hlen Hap _].
  assert (contents (loc_heap y) (ps_src ps) = segs_contents (w_heap (sy_world y)) (iov_segs (ps_src ps))) as Hc.
  { by apply caller_contents. }
  pose proof (segs_contents_len _ _ Hsegs) as Hbl. rewrite Hlen, <- Hc in Hbl.
  destruct (local_get_holds inner dr [] [] key g d n st1 h1 o (ps_spec ps) (contents (loc_heap y) (ps_src ps)))
    as (h2 & st2 & from & Hget & Hcont & [_ Hdom] & _ & _ & Hev2); try done.
  - rewrite Hsp, Hg, Nat2Z.id. simpl. by rewrite list_lookup_fmap, Hps.
  - by rewrite Hg, Nat2Z.id.
  - lia.
  - lia.
  - intros numa Hnu. by eapply Hsg.
  - unfold loc_get. simpl. rewrite Hget. simpl. eexists _, _. split; [done|]. rewrite <- Hcont. unfold loc_heap. simpl.
    apply caller_contents; [|intros x Hx; rewrite (in_pool_evolves _ _ _ Hev2); by apply (gd_apart _ _ _ _ Hgd)].
    eapply Forall_impl; [exact (gd_segs _ _ _ _ Hgd)|]. intros s (? & ? & ? & Hm). do 3 (split; [done|]).
    intros x Hx. by apply Hdom, Hm.
Qed.
