(* ===== verification/LocalSpec.v ===== *)
(** * [Local] implements the contract of a store

    The CUDA backend run call by call: [labs] forgets pools, queues, [Arc]s and
    the number of replicas, and reads a slot's bytes out of pinned memory; the
    memory of the contract is the caller's, without the pools.  Every call is a
    step of [Spec.spec_step]. *)

From S2P Require Import Prelude HostMem Types Region Memory MemoryCopy MemoryOps Spec Pinned Text Numa Topology Cuda LocalCopy Local LocalInv LocalEvict LocalSections LocalTransfer LocalSteps LocalTheorems LocalRun LocalPut LocalRoundtrip Store MemoryAccess LocalAccess.

(** ** Abstraction *)

Section Abstraction.
Context (st : LocalState) (h : heap).

Definition rep_bytes (r : LocalReplica) : option bytes :=
  match ls_arcs st !! lr_data r with
  | Some (PinnedData numa b, _) => (λ p, bytes_at h (buf_addr p b) (buf_len b)) <$> ls_pools st !! numa
  | _ => None
  end.

Definition rep_lent (r : LocalReplica) : option Lent :=
  match ls_arcs st !! lr_data r with
  | Some (ExternalData segs id, _) => Some (mkLent (lr_device r) segs id)
  | _ => None
  end.

Definition labs_slot (s : LocalSlot) : ASlot := mkASlot (head (omap rep_bytes (sl_replicas s))) (omap rep_lent (sl_replicas s)).
Definition labs_object (o : LocalObject) : AObject := mkAObject (lo_spec o) (labs_slot <$> lo_slots o).
Definition labs : AState := labs_object <$> ls_objects st.

(** ** Between calls *)

(** A replica: pinned DRAM of the slot's length on its node, or lent memory. *)
Definition replica_quiet (len : u64) (r : LocalReplica) : Prop :=
  match ls_arcs st !! lr_data r with
  | Some (PinnedData numa b, _) => lr_tier r = Dram ∧ lr_device r = Cpu numa ∧ buf_len b = len ∧ is_Some (ls_pools st !! numa)
  | Some (ExternalData segs _, _) => lr_tier r = External ∧ zsum (segs.*2) = len
  | None => False
  end.

(** Nobody writes, and the pinned replicas of a slot hold the same bytes. *)
Definition slot_quiet (spec : SlotSpec) (s : LocalSlot) : Prop :=
  sl_writing s = false ∧ Forall (replica_quiet (spec_len spec)) (sl_replicas s) ∧
  ∀ r r' b b', r ∈ sl_replicas s → r' ∈ sl_replicas s → rep_bytes r = Some b → rep_bytes r' = Some b' → b = b'.

Definition object_quiet (o : LocalObject) : Prop := Forall2 slot_quiet (spec_slots (lo_spec o)) (lo_slots o).

Record quiet : Prop := mkQuiet {
  qt_ok : local_ok [] [] st;
  qt_layout : layout_ok (ls_pools st) h;
  qt_queues : queues_at true st;
  qt_objects : map_Forall (λ _ o, object_quiet o) (ls_objects st);
}.

Lemma labs_lookup k : labs !! k = labs_object <$> ls_objects st !! k.
Proof. apply lookup_fmap. Qed.

Lemma labs_vacant spec s : slot_quiet spec s → vacant (labs_slot s) ↔ sl_replicas s = [].
Proof.
  intros (_ & Hall & _). unfold vacant, labs_slot. simpl. split; [|by intros ->]. destruct (sl_replicas s) as [|r rs]; [done|].
  apply Forall_cons in Hall as [Hr _]. unfold replica_quiet in Hr. csimpl. unfold rep_bytes at 1, rep_lent at 1.
  destruct (ls_arcs st !! lr_data r) as [[[numa b|segs id] n]|]; [|by intros [_ ?]|done].
  destruct Hr as (_ & _ & _ & [p ->]). by intros [? _].
Qed.

Lemma labs_bytes_elem s b : as_bytes (labs_slot s) = Some b → ∃ r, r ∈ sl_replicas s ∧ rep_bytes r = Some b.
Proof.
  unfold labs_slot. simpl. intros Hh. destruct (omap rep_bytes (sl_replicas s)) as [|x l] eqn:Ho; [done|]. injection Hh as ->.
  apply list_elem_of_omap. rewrite Ho. left.
Qed.

Lemma labs_bytes_pinned spec s r b :
  slot_quiet spec s → r ∈ sl_replicas s → rep_bytes r = Some b → as_bytes (labs_slot s) = Some b.
Proof.
  intros (_ & _ & Hc) Hr Hb. destruct (as_bytes (labs_slot s)) as [b'|] eqn:Hh.
  - apply labs_bytes_elem in Hh as (r' & Hr' & Hb'). f_equal. by apply (Hc r' r).
  - unfold labs_slot in Hh. simpl in Hh. assert (b ∈ omap rep_bytes (sl_replicas s)) as Hin by (apply list_elem_of_omap; eauto).
    destruct (omap rep_bytes (sl_replicas s)); [by apply elem_of_nil in Hin|done].
Qed.

(** A slot with nothing lent to it is a slot of pinned replicas. *)
Lemma labs_unlent spec s :
  slot_quiet spec s → as_lent (labs_slot s) = [] → ∀ r, r ∈ sl_replicas s → is_pinned (ls_arcs st) r = true.
Proof.
  intros (_ & Hall & _) Hl r Hr. rewrite Forall_forall in Hall. specialize (Hall r Hr). unfold replica_quiet in Hall. unfold is_pinned.
  destruct (ls_arcs st !! lr_data r) as [[[numa b|segs id] n]|] eqn:Ha; [done| |done]. exfalso. simpl in Hl.
  assert (mkLent (lr_device r) segs id ∈ omap rep_lent (sl_replicas s)) as Hin.
  { apply list_elem_of_omap. exists r. split; [done|]. unfold rep_lent. by rewrite Ha. }
  rewrite Hl in Hin. by apply elem_of_nil in Hin.
Qed.
End Abstraction.

(** ** Replicas that live on *)

(** The same data before and after. *)
Definition same_rep (st : LocalState) (h : heap) (st' : LocalState) (h' : heap) (r : LocalReplica) : Prop :=
  fst <$> ls_arcs st' !! lr_data r = fst <$> ls_arcs st !! lr_data r ∧ rep_bytes st' h' r = rep_bytes st h r.

Section Stable.
Context `{BuildProfile} (inner : LocalInner).
Context (st st' : LocalState) (h h' : heap).
Abbreviation steps := (rtc (local_step inner)).

Lemma same_rep_lent r : same_rep st h st' h' r → rep_lent st' r = rep_lent st r.
Proof.
  intros [Ha _]. unfold rep_lent. destruct (ls_arcs st' !! lr_data r) as [[d n]|], (ls_arcs st !! lr_data r) as [[d' n']|]; simplify_eq/=; done.
Qed.

Lemma same_rep_pinned r : same_rep st h st' h' r → is_pinned (ls_arcs st') r = is_pinned (ls_arcs st) r.
Proof.
  intros [Ha _]. unfold is_pinned. destruct (ls_arcs st' !! lr_data r) as [[d n]|], (ls_arcs st !! lr_data r) as [[d' n']|]; simplify_eq/=; done.
Qed.

Lemma same_rep_quiet len r :
  evolves st st' → same_rep st h st' h' r → replica_quiet st len r → replica_quiet st' len r.
Proof.
  intros Hev [Ha _]. unfold replica_quiet.
  destruct (ls_arcs st' !! lr_data r) as [[d n]|], (ls_arcs st !! lr_data r) as [[d' n']|]; simplify_eq/=; [|done].
  destruct d' as [numa b|segs id]; [|done]. intros (? & ? & ? & Hp). split_and!; try done. by apply (evolves_pools st st' numa Hev).
Qed.

(** A replica in the metadata before and after a run of sections. *)
Lemma rep_stable k o k' o' r :
  steps (mkCfg st h [] []) (mkCfg st' h' [] []) → local_ok [] [] st → layout_ok (ls_pools st) h →
  ls_objects st !! k = Some o → r ∈ object_replicas o → ls_objects st' !! k' = Some o' → r ∈ object_replicas o' →
  same_rep st h st' h' r.
Proof.
  intros Hs Hok Hly Hk Hr Hk' Hr'. assert (cfg_ok (mkCfg st h [] [])) as Hcfg by (by split).
  destruct (local_steps_ok inner _ _ Hs Hcfg) as [[Hok' _] Hev]. simpl in *.
  assert (∀ s j x, local_ok [] [] s → ls_objects s !! j = Some x → r ∈ object_replicas x → is_Some (ls_arcs s !! lr_data r)) as Halive.
  { intros s j x Hs0 Hj Hx. apply (lk_live _ _ _ Hs0). rewrite (object_arcs_delete _ _ _ Hj), !elem_of_app. left. left.
    by apply list_elem_of_fmap_2. }
  destruct (Halive st k o Hok Hk Hr) as [[d n] Ha], (Halive st' k' o' Hok' Hk' Hr') as [[d' n'] Ha'].
  destruct (arc_stable inner _ _ _ _ n _ n' Hs Hcfg Ha Ha') as [-> Hbytes]. simpl in *. split; [by rewrite Ha, Ha'|].
  unfold rep_bytes. rewrite Ha, Ha'. destruct d as [numa b|]; [|done].
  destruct (ls_pools st !! numa) as [p|] eqn:Hp.
  - destruct (pool_place_Some _ _ _ _ Hev Hp) as (p' & -> & Hpl). simpl. f_equal.
    assert (buf_addr p' b = buf_addr p b) as -> by (unfold pool_place in Hpl; unfold buf_addr; congruence).
    apply bytes_at_ext. intros x Hx. by eapply (Hbytes numa b p x).
  - pose proof (ev_pools _ _ Hev numa) as Hpl. rewrite Hp in Hpl. by destruct (ls_pools st' !! numa).
Qed.

Lemma reps_same l :
  Forall (same_rep st h st' h') l → omap (rep_bytes st' h') l = omap (rep_bytes st h) l ∧ omap (rep_lent st') l = omap (rep_lent st) l.
Proof.
  induction 1 as [|r l Hr _ [IH1 IH2]]; [done|]. csimpl. by rewrite (proj2 Hr), (same_rep_lent r Hr), IH1, IH2.
Qed.

Lemma slot_same spec s s' :
  evolves st st' → sl_replicas s' = sl_replicas s → sl_writing s' = sl_writing s → Forall (same_rep st h st' h') (sl_replicas s) →
  slot_quiet st h spec s → slot_quiet st' h' spec s' ∧ labs_slot st' h' s' = labs_slot st h s.
Proof.
  intros Hev Er Ew Hall (Hw & Hq & Hc). rewrite Forall_forall in Hall, Hq. split.
  - split; [congruence|]. rewrite Er. split; [apply Forall_forall; intros r Hr; eapply same_rep_quiet; [done|by apply Hall|by apply Hq]|].
    intros r r' b b' Hr Hr'. rewrite (proj2 (Hall r Hr)), (proj2 (Hall r' Hr')). by apply Hc.
  - unfold labs_slot. rewrite Er. apply Forall_forall, reps_same in Hall as [-> ->]. done.
Qed.

(** Eviction in the backend is eviction in the contract. *)
Lemma slot_shrunk_abs spec s s' :
  evolves st st' → slot_without (λ r, is_pinned (ls_arcs st) r = true) s s' → Forall (same_rep st h st' h') (sl_replicas s') →
  slot_quiet st h spec s → slot_quiet st' h' spec s' ∧ slot_evicted (labs_slot st h s) (labs_slot st' h' s').
Proof.
  intros Hev (Ew & keep & Er & Hlose) Hall (Hw & Hq & Hc). rewrite Forall_forall in Hall, Hq.
  assert (∀ r, r ∈ sl_replicas s' → r ∈ sl_replicas s) as Hsub by (intros r; rewrite Er, elem_of_keep; by intros [? _]).
  assert (slot_quiet st' h' spec s') as Hq'.
  { split; [congruence|]. split; [apply Forall_forall; intros r Hr; eapply same_rep_quiet; [done|by apply Hall|by apply Hq, Hsub]|].
    intros r r' b b' Hr Hr'. rewrite (proj2 (Hall r Hr)), (proj2 (Hall r' Hr')). apply Hc; by apply Hsub. }
  split; [done|]. assert (as_lent (labs_slot st' h' s') = as_lent (labs_slot st h s)) as Hl.
  { unfold labs_slot. simpl. apply Forall_forall, reps_same in Hall as [_ ->]. rewrite Er. clear Hq Hq' Hc Hsub Er.
    induction (sl_replicas s) as [|r l IH]; [done|]. cbn [List.filter]. csimpl. rewrite <- IH by (intros x Hx; apply Hlose; by right).
    destruct (keep r) eqn:Hkr; csimpl; [done|]. specialize (Hlose r ltac:(left) Hkr). unfold is_pinned in Hlose. unfold rep_lent.
    destruct (ls_arcs st !! lr_data r) as [[[]]|]; done. }
  destruct (as_bytes (labs_slot st' h' s')) as [b|] eqn:Hb.
  - left. apply labs_bytes_elem in Hb as Hr. destruct Hr as (r & Hr & Hrb). rewrite (proj2 (Hall r Hr)) in Hrb.
    pose proof (labs_bytes_pinned st h spec s r b ltac:(by split_and!; [..|apply Forall_forall|]) (Hsub r Hr) Hrb) as Hs.
    destruct (labs_slot st h s), (labs_slot st' h' s'). simpl in *. congruence.
  - right. destruct (labs_slot st' h' s'). simpl in *. congruence.
Qed.

(** An object all of whose replicas live on. *)
Lemma object_same o :
  evolves st st' → Forall (same_rep st h st' h') (object_replicas o) → object_quiet st h o →
  object_quiet st' h' o ∧ labs_object st' h' o = labs_object st h o.
Proof.
  intros Hev Hall Hqo. rewrite Forall_forall in Hall. assert (∀ i spec s, spec_slots (lo_spec o) !! i = Some spec → lo_slots o !! i = Some s →
    slot_quiet st' h' spec s ∧ labs_slot st' h' s = labs_slot st h s) as Hsl.
  { intros i spec s Hsp Hs. apply slot_same; [done|done|done| |by eapply (Forall2_lookup_lr _ _ _ _ _ _ Hqo)].
    apply Forall_forall. intros r Hr. apply Hall. by eapply elem_of_object_replicas. }
  apply Forall2_length in Hqo as Hlen. split.
  - apply Forall2_same_length_lookup_2; [done|]. intros i sp s Hsp Hs. by eapply Hsl.
  - unfold labs_object. f_equal. apply list_fmap_ext. intros i s Hs.
    destruct (lookup_lt_is_Some_2 (spec_slots (lo_spec o)) i) as [sp Hsp]; [rewrite Hlen; by eapply lookup_lt_Some|]. by eapply Hsl.
Qed.

(** Objects the put of another key leaves. *)
Lemma object_shrunk_abs key k :
  evolves st st' → (∀ o o' r, ls_objects st !! k = Some o → r ∈ object_replicas o → ls_objects st' !! k = Some o' →
    r ∈ object_replicas o' → same_rep st h st' h' r) →
  k ≠ key → shrinks key st st' → map_Forall (λ _ o, object_quiet st h o) (ls_objects st) →
  object_evicted (labs st h !! k) (labs st' h' !! k) ∧ ∀ o', ls_objects st' !! k = Some o' → object_quiet st' h' o'.
Proof.
  intros Hev Hst Hk Hsh Hq. specialize (Hsh k Hk). rewrite !labs_lookup.
  destruct (ls_objects st !! k) as [o|] eqn:Ho; [|by rewrite Hsh]. pose proof (Hq _ _ Ho) as Hqo. simpl in Hqo.
  assert (ls_objects st' !! k = Some o → object_quiet st' h' o ∧ labs_object st' h' o = labs_object st h o) as Hsame.
  { intros Ho'. apply object_same; [done| |done]. apply Forall_forall. intros r Hr. by eapply Hst. }
  destruct (decide (spec_retention (lo_spec o) ≠ Cache)) as [Hr|Hr].
  { rewrite Hsh. destruct (Hsame Hsh) as [Hq1 E]. cbn [fmap option_fmap option_map]. rewrite E. split; [|by intros ? [= <-]].
    split; [done|]. split; [|done]. apply Forall_Forall2_diag, Forall_forall. intros s _. by left. }
  destruct (ls_objects st' !! k) as [o'|] eqn:Ho'; simpl in *.
  - destruct Hsh as [Hsp Hsl]. assert (∀ i spec s s', spec_slots (lo_spec o) !! i = Some spec → lo_slots o !! i = Some s →
      lo_slots o' !! i = Some s' → slot_quiet st' h' spec s' ∧ slot_evicted (labs_slot st h s) (labs_slot st' h' s')) as Hall.
    { intros i spec s s' H1 H2 H3. pose proof (Forall2_lookup_lr _ _ _ _ _ _ Hsl H2 H3) as Hw. simpl in Hw.
      apply slot_shrunk_abs; [done|done| |by eapply (Forall2_lookup_lr _ _ _ _ _ _ Hqo)]. apply Forall_forall. intros r Hr'.
      apply (Hst o o'); [done| |done|by eapply elem_of_object_replicas].
      destruct Hw as (_ & keep & Hf & _). rewrite Hf, elem_of_keep in Hr'. destruct Hr'. by eapply elem_of_object_replicas. }
    pose proof (Forall2_length _ _ _ Hqo) as L1. pose proof (Forall2_length _ _ _ Hsl) as L2. split.
    + split; [done|]. split; [|intros He; exfalso; apply Hr; by rewrite He].
      apply Forall2_fmap, Forall2_same_length_lookup_2; [done|]. intros i s s' Hs Hs'.
      destruct (lookup_lt_is_Some_2 (spec_slots (lo_spec o)) i) as [sp Hspi]; [rewrite L1; by eapply lookup_lt_Some|]. by eapply Hall.
    + intros ? [= <-]. unfold object_quiet. rewrite Hsp. apply Forall2_same_length_lookup_2; [congruence|]. intros i sp s' Hspi Hs'.
      destruct (lookup_lt_is_Some_2 (lo_slots o) i) as [s Hs]; [rewrite L2; by eapply lookup_lt_Some|]. by eapply Hall.
  - split; [|done]. split; [by destruct (spec_retention (lo_spec o)); [|exfalso; apply Hr]|]. apply Forall_fmap.
    eapply Forall_impl; [exact Hsh|]. intros s [_ Hp]. simpl. induction Hp as [|r l Hr' _ IH]; [done|]. csimpl. rewrite IH.
    unfold rep_lent. unfold is_pinned in Hr'. by destruct (ls_arcs st !! lr_data r) as [[[]]|].
Qed.
End Stable.

(** ** Put *)

Lemma labs_held st h bs s spec :
  spec_len spec = Z.of_nat (length bs) → sl_writing s = false → sl_replicas s ≠ [] → Forall (replica_holds st h bs) (sl_replicas s) →
  slot_quiet st h spec s ∧ labs_slot st h s = mkASlot (Some bs) [].
Proof.
  intros Hl Hw Hne Hall.
  assert (∀ r, replica_holds st h bs r → rep_bytes st h r = Some bs ∧ rep_lent st r = None ∧ replica_quiet st (spec_len spec) r) as Hone.
  { intros r (numa & b & n & p & Ha & Hp & Hd & Ht & Hb & Hbs). unfold rep_bytes, rep_lent, replica_quiet. rewrite Ha, Hp. simpl.
    rewrite Hbs. split_and!; try done; congruence. }
  assert (omap (rep_lent st) (sl_replicas s) = []) as Hlent.
  { clear Hne. induction Hall as [|r l Hr _ IH]; [done|]. csimpl. by rewrite (proj1 (proj2 (Hone r Hr))). }
  rewrite Forall_forall in Hall. split.
  - split; [done|]. split; [apply Forall_forall; intros r Hr; by apply Hone, Hall|]. intros r r' b b' Hr Hr'.
    rewrite (proj1 (Hone r (Hall r Hr))), (proj1 (Hone r' (Hall r' Hr'))). congruence.
  - unfold labs_slot. rewrite Hlent. f_equal. destruct (sl_replicas s) as [|r l]; [done|]. csimpl.
    by rewrite (proj1 (Hone r (Hall r ltac:(left)))).
Qed.

Lemma claim_slot_quiet st h spec s : slot_quiet st h spec s → (claim_slot s).2 = bool_decide (sl_replicas s = []).
Proof. intros [Hw _]. unfold claim_slot. rewrite Hw. by destruct (sl_replicas s). Qed.

Section Calls.
Context `{BuildProfile} (inner : LocalInner) (dr : CudaSys).

(** The memory of the contract. *)
Definition ch (st : LocalState) (h : heap) : heap := caller_heap (ls_pools st) h.

Lemma claim_obj_abs key op st h :
  default (new_object (OpPut_spec op)) (labs st h !! key) = labs_object st h (claim_obj key (OpPut_spec op) st).
Proof.
  rewrite labs_lookup. unfold claim_obj. destruct (ls_objects st !! key); [done|]. unfold new_object, labs_object. simpl. f_equal.
  by rewrite fmap_replicate.
Qed.

Lemma claim_obj_quiet key op st h :
  quiet st h → (∀ o, ls_objects st !! key = Some o → lo_spec o = OpPut_spec op) →
  object_quiet st h (claim_obj key (OpPut_spec op) st) ∧ lo_spec (claim_obj key (OpPut_spec op) st) = OpPut_spec op.
Proof.
  intros Hq Hsp. unfold claim_obj. destruct (ls_objects st !! key) as [o|] eqn:Ho; cbn [default from_option id].
  - split; [by apply (qt_objects _ _ Hq _ _ Ho)|by apply Hsp].
  - split; [|done]. unfold object_quiet. cbn [lo_spec lo_slots]. clear. induction (spec_slots (OpPut_spec op)) as [|sp l IH]; [constructor|].
    constructor; [|done]. split; [done|]. split; [constructor|]. intros r r' b b' Hr. by apply elem_of_nil in Hr.
Qed.

(** The guard of a put: the sources are mapped caller memory, apart from the
    pools, of the declared length of at least one byte, and the driver accepts
    the copies out of it. *)
Definition put_guard (op : OpPut) (st : LocalState) (h : heap) : Prop := Forall (put_slot_pre inner dr st h) (op_slots op).

(** No queue entry names a slot its object does not have, or that the object the
    put is about to create will not have. *)
Definition no_stale_entry (key : bytes) (op : OpPut) (st : LocalState) : Prop :=
  ∀ d q, ls_fifo st !! d = Some q → entries_valid (ls_objects st) q ∧
    ∀ i, ls_objects st !! key = None → (key, i) ∈ q → (Z.to_nat i < length (op_slots op))%nat.

Lemma quiet_put_pre (stale : bool) key op st h :
  quiet st h → put_guard op st h → OpPut_validate op = Ok tt → (∀ o, ls_objects st !! key = Some o → lo_spec o = OpPut_spec op) →
  (stale = false → no_stale_entry key op st) → put_pre_at inner dr stale key op st h.
Proof.
  intros [Hok Hly Hqs Hobj] Hpre Hval Hsp Hst.
  assert (∀ o, ls_objects st !! key = Some o → length (lo_slots o) = length (op_slots op)) as Hlen.
  { intros o Ho. rewrite <- (Forall2_length _ _ _ (Hobj _ _ Ho)), (Hsp o Ho). simpl. by rewrite length_fmap. }
  constructor; try done.
  - split; [apply Hqs|]. intros Hf d q Hd. by apply (Hst Hf d q).
  - intros o Ho. split; auto.
  - intros d q i Hf Hd Hin. destruct (Hst Hf d q Hd) as [Hv Hk].
    destruct (ls_objects st !! key) as [o|] eqn:Ho; [|by eapply Hk]. rewrite <- (Hlen o eq_refl). by eapply Hv.
Qed.

(** One slot of a put that went through. *)
Lemma slot_answered_abs st h st' h' ps spec s s' r :
  evolves st st' → slot_quiet st h spec s → slot_answered (claim_slot s).2 s s' r →
  (sl_replicas s' = sl_replicas s → Forall (same_rep st h st' h') (sl_replicas s)) →
  (r = Ok tt → sl_replicas s' ≠ [] ∧ Forall (replica_holds st' h' (contents (ch st h) (ps_src ps))) (sl_replicas s')) →
  spec_len spec = Z.of_nat (length (contents (ch st h) (ps_src ps))) →
  slot_put (ch st h) ps (labs_slot st h s) (labs_slot st' h' s') r ∧ slot_quiet st' h' spec s'.
Proof.
  intros Hev Hq Ha Hsame Hok Hlen. rewrite (claim_slot_quiet _ _ _ _ Hq) in Ha. pose proof (labs_vacant _ _ _ _ Hq) as Hvac.
  unfold slot_answered in Ha. destruct (bool_decide (sl_replicas s = [])) eqn:Hb; [apply bool_decide_eq_true in Hb|apply bool_decide_eq_false in Hb].
  - destruct Ha as [Hw Herr]. destruct r as [[]|e].
    + destruct (Hok eq_refl) as [Hne Hall]. destruct (labs_held _ _ _ _ _ Hlen Hw Hne Hall) as [Hq' Habs].
      split; [|done]. split; [by apply Hvac|]. by rewrite Habs.
    + destruct (Herr e eq_refl) as [He Hk]. assert (sl_replicas s' = sl_replicas s) as Er by congruence.
      destruct (slot_same st st' h h' spec s s' Hev Er) as [Hq' Habs]; [by destruct Hq; congruence|by apply Hsame|done|].
      split; [|done]. split; [done|]. right. split; [by apply Hvac|done].
  - destruct Ha as [-> (e & -> & Hk)]. destruct (slot_same st st' h h' spec s s Hev eq_refl eq_refl (Hsame eq_refl) Hq) as [Hq' Habs].
    split; [|done]. split; [done|]. left. split; [|done]. by rewrite Hvac.
Qed.

Lemma rep_stable_slot st st' h h' k o k' o' i s i' s' r :
  rtc (local_step inner) (mkCfg st h [] []) (mkCfg st' h' [] []) → quiet st h →
  ls_objects st !! k = Some o → lo_slots o !! i = Some s → r ∈ sl_replicas s →
  ls_objects st' !! k' = Some o' → lo_slots o' !! i' = Some s' → r ∈ sl_replicas s' → same_rep st h st' h' r.
Proof.
  intros Hst [Hok Hly _ _] Hk Hs Hr Hk' Hs' Hr'.
  eapply rep_stable; [exact Hst|done|done|exact Hk|by eapply elem_of_object_replicas|exact Hk'|by eapply elem_of_object_replicas].
Qed.

(** The object of a put that went through. *)
Lemma put_object_abs key op st h st' h' o rs :
  quiet st h → (∀ o, ls_objects st !! key = Some o → lo_spec o = OpPut_spec op) → Forall (put_slot_pre inner dr st h) (op_slots op) →
  rtc (local_step inner) (mkCfg st h [] []) (mkCfg st' h' [] []) → evolves st st' →
  ls_objects st' !! key = Some o → lo_spec o = OpPut_spec op → length rs = length (op_slots op) →
  (∀ i ps, op_slots op !! i = Some ps → rs !! i = Some (Ok tt) → slot_holds st' h' key i (segs_contents h (iov_segs (ps_src ps)))) →
  (∀ j r, rs !! j = Some r → ∃ s s', lo_slots (claim_obj key (OpPut_spec op) st) !! j = Some s ∧ slot_at st' key j = Some s' ∧
      slot_answered (claim_slot s).2 s s' r) →
  length (lo_slots o) = length (op_slots op) →
  slots_put (ch st h) (op_slots op) (labs_slot st h <$> lo_slots (claim_obj key (OpPut_spec op) st)) (labs_slot st' h' <$> lo_slots o) rs ∧
  object_quiet st' h' o.
Proof.
  intros Hq Hsp Hpre Hst Hev Ho Hso Hlr Hholds Hans Hlo. destruct (claim_obj_quiet key op st h Hq Hsp) as [Hqb Hsb].
  unfold object_quiet in Hqb. rewrite Hsb in Hqb. apply Forall2_length in Hqb as Hlb. simpl in Hlb. rewrite length_fmap in Hlb.
  assert (∀ j ps spec s s' r, op_slots op !! j = Some ps → spec_slots (OpPut_spec op) !! j = Some spec →
    lo_slots (claim_obj key (OpPut_spec op) st) !! j = Some s → lo_slots o !! j = Some s' → rs !! j = Some r →
    slot_put (ch st h) ps (labs_slot st h s) (labs_slot st' h' s') r ∧ slot_quiet st' h' spec s') as Hslots.
  { intros j ps spec s s' r Hps Hspec Hs Hs' Hr. simpl in Hspec. rewrite list_lookup_fmap, Hps in Hspec. injection Hspec as <-.
    destruct (Hans j r Hr) as (s0 & s1 & Hs0 & Hs1 & Ha). unfold slot_at in Hs1. rewrite Ho in Hs1. simpl in Hs1. simplify_eq.
    rewrite Forall_lookup in Hpre. destruct (Hpre _ _ Hps) as [Hdev _ Hsrc].
    destruct (option_map iov_device (ps_src ps !! 0%nat)) as [d|]; [|done]. destruct (Hsrc d eq_refl) as [Hsegs Hlen Hap _].
    assert (contents (ch st h) (ps_src ps) = segs_contents h (iov_segs (ps_src ps))) as Hc by (by apply caller_contents).
    apply (slot_answered_abs st h st' h' ps (ps_spec ps)); [done| |done| | |].
    - eapply (Forall2_lookup_lr _ _ _ j _ _ Hqb); [|done]. simpl. by rewrite list_lookup_fmap, Hps.
    - intros Er. apply Forall_forall. intros x Hx. unfold claim_obj in Hs. destruct (ls_objects st !! key) as [ob|] eqn:Hob.
      + eapply (rep_stable_slot st st' h h' key ob key o j s j s'); try done. by rewrite Er.
      + simpl in Hs. apply lookup_replicate in Hs as [-> _]. by apply elem_of_nil in Hx.
    - intros ->. destruct (Hholds _ _ Hps Hr) as (s2 & Hs2 & Hne & Hall). unfold slot_at in Hs2. rewrite Ho in Hs2. simpl in Hs2.
      simplify_eq. rewrite Hc. by split.
    - rewrite Hc, segs_contents_len by done. by symmetry. }
  split.
  - split; [rewrite length_fmap; lia|]. split; [by rewrite length_fmap|]. split; [done|]. intros j ps s s' r H1 H2 H3 H4. rewrite list_lookup_fmap in H2, H3.
    apply fmap_Some in H2 as (x & Hx & ->). apply fmap_Some in H3 as (x' & Hx' & ->).
    eapply Hslots; [done| |done..]. simpl. by rewrite list_lookup_fmap, H1.
  - unfold object_quiet. rewrite Hso. apply Forall2_same_length_lookup_2; [simpl; by rewrite length_fmap|]. intros j sp s' Hspj Hs'.
    simpl in Hspj. apply lookup_lt_Some in Hspj as Hlt. rewrite length_fmap in Hlt.
    destruct (lookup_lt_is_Some_2 (op_slots op) j) as [ps Hpsj]; [lia|].
    destruct (lookup_lt_is_Some_2 (lo_slots (claim_obj key (OpPut_spec op) st)) j) as [s Hs]; [lia|].
    destruct (lookup_lt_is_Some_2 rs j) as [r Hr]; [lia|]. by eapply Hslots.
Qed.

Lemma loc_sim_put_ok key op st h st' h' r :
  quiet st h → put_guard op st h → OpPut_validate op = Ok tt → (∀ o, ls_objects st !! key = Some o → lo_spec o = OpPut_spec op) →
  local_put inner dr key op (mkLocalWorld h []) st = Ret (mkLocalWorld h' [], st', r) →
  spec_step ReplicaFirst (ch st h, labs st h) (EvPut key op r) (ch st' h', labs st' h') ∧ quiet st' h'.
Proof.
  intros Hq Hg Hval Hsp Hput. pose proof (quiet_put_pre true key op st h Hq Hg Hval Hsp ltac:(done)) as Hpre.
  destruct (local_put_full inner dr key op st h Hpre)
    as [(h1 & st1 & rs & Hput1 & Hlr & Hok1 & Hly1 & Hqs1 & Hev & Hout & (o & Ho & Hso) & Hholds & Hsh & Hans & Hlo)|[_ ?]]; [|congruence].
  rewrite Hput in Hput1. simplify_eq. specialize (Hlo o Ho).
  destruct (local_put_steps inner dr key op _ _ st st1 _ [] [] ltac:(eapply Forall_impl; [exact (pr_slots _ _ _ _ _ _ _ Hpre)|]; by intros ? []) Hput) as (q & Hqq & Hst).
  cbn [w_pending app w_heap] in Hqq, Hst. specialize (Hst ltac:(by destruct q)).
  destruct (put_object_abs key op st h st1 h1 o rs) as [Hslots Hqo]; try done.
  assert (∀ k, k ≠ key → object_evicted (labs st h !! k) (labs st1 h1 !! k) ∧
    ∀ o', ls_objects st1 !! k = Some o' → object_quiet st1 h1 o') as Hothers.
  { intros k Hk. eapply object_shrunk_abs; [done| |exact Hk|done|apply Hq]. intros o1 o2 x Ho1 Hx1 Ho2 Hx2.
    eapply rep_stable; [exact Hst|apply Hq|apply Hq|done..]. }
  split.
  - assert (ch st1 h1 = ch st h) as -> by (by apply caller_heap_same).
    apply (sp_put _ _ _ _ _ _ _ (labs_object st1 h1 o)); try done.
    + intros x Hx. rewrite labs_lookup in Hx. apply fmap_Some in Hx as (y & Hy & ->). by apply Hsp.
    + by rewrite labs_lookup, Ho.
    + by rewrite claim_obj_abs.
    + intros k Hk. by apply Hothers.
  - constructor; try done. intros k o' Ho'. destruct (decide (k = key)) as [->|Hk]; [congruence|]. by apply (Hothers k Hk).
Qed.

Lemma loc_sim_put key op st h st' h' r :
  quiet st h → put_guard op st h → local_put inner dr key op (mkLocalWorld h []) st = Ret (mkLocalWorld h' [], st', r) →
  spec_step ReplicaFirst (ch st h, labs st h) (EvPut key op r) (ch st' h', labs st' h') ∧ quiet st' h'.
Proof.
  intros Hq Hg Hput. destruct (OpPut_validate op) as [[]|e] eqn:Hval.
  2:{ unfold local_put in Hput. rewrite Hval in Hput. simplify_eq. split; [|done]. apply sp_put_error. by left. }
  destruct (ls_objects st !! key) as [ob|] eqn:Hob; [destruct (decide (lo_spec ob = OpPut_spec op)) as [Heq|Hne]|].
  2:{ unfold local_put, claim in Hput. rewrite Hval, Hob, decide_True in Hput by done. simplify_eq. split; [|done]. apply sp_put_error.
      right. split; [done|]. split; [done|]. exists (labs_object st' h' ob). by rewrite labs_lookup, Hob. }
  all: assert (∀ o, ls_objects st !! key = Some o → lo_spec o = OpPut_spec op) as Hsp by (intros o Ho; congruence); clear Hob.
  all: by apply loc_sim_put_ok.
Qed.

(** ** Calls that add nothing *)

(** Objects only go, and nobody writes into the pools. *)
Lemma frame_abs st h st' h' :
  quiet st h → rtc (local_step inner) (mkCfg st h [] []) (mkCfg st' h' [] []) →
  (∀ k o, ls_objects st' !! k = Some o → ls_objects st !! k = Some o) → ls_fifo st' = ls_fifo st →
  quiet st' h' ∧ ∀ k o, ls_objects st' !! k = Some o → labs_object st' h' o = labs_object st h o.
Proof.
  intros [Hok Hly [Hr Hv] Hobj] Hst Hsub Hf. destruct (local_steps_ok inner _ _ Hst ltac:(by split)) as [[Hok' Hly'] Hev]. simpl in *.
  assert (∀ k o, ls_objects st' !! k = Some o → object_quiet st' h' o ∧ labs_object st' h' o = labs_object st h o) as Hall.
  { intros k o Ho. apply object_same; [done| |by apply (Hobj k o), Hsub]. apply Forall_forall. intros r Hin.
    eapply rep_stable; [exact Hst|done|done|by apply Hsub|done|done|done]. }
  split; [|intros k o Ho; by eapply Hall]. constructor; [done|done| |intros k o Ho; by eapply Hall].
  split; [|done]. rewrite Hf. intros numa Hn. apply Hr. by rewrite <- (evolves_pools _ _ numa Hev).
Qed.

Lemma labs_filter (P : bytes → Prop) `{∀ k, Decision (P k)} st h st' h' :
  ls_objects st' = filter (λ '(k, _), P k) (ls_objects st) →
  (∀ k o, ls_objects st' !! k = Some o → labs_object st' h' o = labs_object st h o) →
  labs st' h' = filter (λ '(k, _), P k) (labs st h).
Proof.
  intros Ho Hsame. apply map_eq. intros k. rewrite labs_lookup. destruct (decide (P k)) as [Hp|Hp].
  - assert (ls_objects st' !! k = ls_objects st !! k) as E.
    { rewrite Ho, map_lookup_filter. destruct (ls_objects st !! k); simpl; [|done]. by rewrite option_guard_True. }
    rewrite E, map_lookup_filter, labs_lookup. rewrite <- E in *. destruct (ls_objects st' !! k) as [o|] eqn:Hk; simpl; [|done].
    rewrite option_guard_True by done. simpl. by rewrite (Hsame k o Hk).
  - assert (ls_objects st' !! k = None) as -> by (rewrite Ho; apply map_lookup_filter_None; right; by intros x _).
    symmetry. apply map_lookup_filter_None. right. by intros x _.
Qed.

Lemma foldl_delete_filter {V} (m : gmap bytes V) keys : foldl (λ m k, delete k m) m keys = filter (λ '(k, _), k ∉ keys) m.
Proof.
  revert m. induction keys as [|k keys IH]; intros m; simpl.
  - symmetry. apply map_filter_id. intros i x _. by apply not_elem_of_nil.
  - rewrite IH. apply map_eq. intros i. apply option_eq. intros x. rewrite !map_lookup_filter_Some, lookup_delete_Some, not_elem_of_cons.
    intuition congruence.
Qed.

Lemma loc_sim_remove st h keys st' :
  quiet st h → local_remove st keys = Ret st' →
  spec_step ReplicaFirst (ch st h, labs st h) (EvRemove keys) (ch st' h, labs st' h) ∧ quiet st' h.
Proof.
  intros Hq Hr. destruct (local_remove_ok [] [] st keys (qt_ok _ _ Hq)) as (st1 & Hr' & Ho & Hf & Hev & _). rewrite Hr in Hr'. simplify_eq.
  rewrite foldl_delete_filter in Ho. destruct (frame_abs st h st1 h Hq) as [Hq' Hsame]; [apply rtc_once; by econstructor| |done|].
  { intros k o. rewrite Ho, map_lookup_filter_Some. by intros [? _]. }
  split; [|done]. rewrite (labs_filter (λ k, k ∉ keys) st h st1 h) by done.
  assert (ch st1 h = ch st h) as -> by (by apply caller_heap_same). constructor.
Qed.

Lemma local_prefix_keys_spec st prefix :
  (∀ k, k ∈ local_prefix_keys st prefix ↔ is_Some (ls_objects st !! k) ∧ prefix `prefix_of` k) ∧
  length (local_prefix_keys st prefix) = size (filter (λ '(k, _), prefix `prefix_of` k) (ls_objects st)).
Proof.
  set (m := mkState ((λ o, mkObject (lo_spec o) []) <$> ls_objects st) ∅).
  assert (local_prefix_keys st prefix = prefix_keys m prefix) as ->.
  { unfold local_prefix_keys, prefix_keys, sorted_keys, m. simpl. rewrite map_to_list_fmap, <- list_fmap_compose. done. }
  split.
  - intros k. rewrite elem_of_prefix_keys. unfold m. simpl. by rewrite lookup_fmap, fmap_is_Some.
  - rewrite prefix_keys_length. unfold m. simpl. by rewrite map_filter_fmap, map_size_fmap.
Qed.

Lemma loc_sim_remove_prefix st h prefix st' n :
  quiet st h → local_remove_prefix st prefix = Ret (st', n) →
  spec_step ReplicaFirst (ch st h, labs st h) (EvRemovePrefix prefix n) (ch st' h, labs st' h) ∧ quiet st' h.
Proof.
  intros Hq Hr. pose proof (local_prefix_keys_spec st prefix) as [Hkeys Hlen]. unfold local_remove_prefix in Hr.
  destruct (local_remove_ok [] [] st (local_prefix_keys st prefix) (qt_ok _ _ Hq)) as (st1 & Hr' & Ho & Hf & Hev & _).
  unfold local_remove in Hr'. rewrite Hr' in Hr. cbn [mbind outcome_bind] in Hr. simplify_eq.
  assert (ls_objects st' = filter (λ '(k, _), ¬ prefix `prefix_of` k) (ls_objects st)) as Ho'.
  { rewrite Ho, foldl_delete_filter. apply map_filter_ext. intros k o Hk. rewrite Hkeys. intuition eauto. }
  destruct (frame_abs st h st' h Hq) as [Hq' Hsame]; [apply rtc_once; by eapply (lstep_remove _ st h [] [] (local_prefix_keys st prefix))| |done|].
  { intros k o. rewrite Ho', map_lookup_filter_Some. by intros [? _]. }
  split; [|done]. rewrite (labs_filter (λ k, ¬ prefix `prefix_of` k) st h st' h) by done.
  assert (ch st' h = ch st h) as -> by (by apply caller_heap_same).
  replace (length (local_prefix_keys st prefix)) with (size (filter (λ '(k, _), prefix `prefix_of` k) (labs st h))); [constructor|].
  rewrite Hlen. unfold labs. by rewrite map_filter_fmap, map_size_fmap.
Qed.

(** A region goes: its replicas leave every slot. *)
Lemma retired_reps st h id l :
  omap (rep_bytes st h) (List.filter (λ r, negb (from_region (ls_arcs st) id r)) l) = omap (rep_bytes st h) l ∧
  omap (rep_lent st) (List.filter (λ r, negb (from_region (ls_arcs st) id r)) l) =
    List.filter (λ x, negb (le_region x =? id)) (omap (rep_lent st) l).
Proof.
  induction l as [|r l [IH1 IH2]]; [done|].
  assert (from_region (ls_arcs st) id r = match rep_lent st r with Some x => le_region x =? id | None => false end) as Hf.
  { unfold from_region, rep_lent. by destruct (ls_arcs st !! lr_data r) as [[[numa b|segs rid] n]|]. }
  assert (rep_lent st r = None ∨ rep_bytes st h r = None) as Hone.
  { unfold rep_bytes, rep_lent. destruct (ls_arcs st !! lr_data r) as [[[numa b|segs rid] n]|]; auto. }
  cbn [List.filter]. rewrite Hf. csimpl. destruct (rep_lent st r) as [x|] eqn:Hx; cbn [List.filter].
  - destruct Hone as [?|Hb]; [done|]. rewrite Hb. destruct (le_region x =? id); cbn [negb]; csimpl; [done|].
    by rewrite Hb, Hx, IH1, IH2.
  - cbn [negb]. csimpl. by rewrite Hx, IH1, IH2.
Qed.

Lemma retired_slot st h st' spec s id :
  evolves st st' → let s' := retain (λ r, negb (from_region (ls_arcs st) id r)) s in
  Forall (same_rep st h st' h) (sl_replicas s') → slot_quiet st h spec s →
  slot_quiet st' h spec s' ∧ labs_slot st' h s' = retire_slot id (labs_slot st h s).
Proof.
  intros Hev s' Hall (Hw & Hq & Hc).
  assert (∀ r, r ∈ sl_replicas s' → r ∈ sl_replicas s) as Hsub by (intros r; unfold s'; simpl; rewrite elem_of_keep; by intros [? _]).
  split.
  - rewrite Forall_forall in Hall, Hq. split; [done|].
    split; [apply Forall_forall; intros r Hr; eapply same_rep_quiet; [done|by apply Hall|by apply Hq, Hsub]|].
    intros r r' b b' Hr Hr'. rewrite (proj2 (Hall r Hr)), (proj2 (Hall r' Hr')). apply Hc; by apply Hsub.
  - apply reps_same in Hall as [E1 E2]. unfold labs_slot, retire_slot. rewrite E1, E2. unfold s'. simpl.
    by destruct (retired_reps st h id (sl_replicas s)) as [-> ->].
Qed.

Lemma loc_sim_retire st h id st' :
  quiet st h → local_retire_region st id = Ret st' →
  spec_step ReplicaFirst (ch st h, labs st h) (EvRetire id) (ch st' h, labs st' h) ∧ quiet st' h.
Proof.
  intros Hq Hr. destruct (local_retire_region_ok [] [] st id (qt_ok _ _ Hq)) as (st1 & Hr' & Ho & Hf & Hev & Hok). rewrite Hr in Hr'. simplify_eq.
  assert (rtc (local_step inner) (mkCfg st h [] []) (mkCfg st1 h [] [])) as Hst by (apply rtc_once; by econstructor).
  assert (∀ k o i sp s, ls_objects st !! k = Some o → spec_slots (lo_spec o) !! i = Some sp → lo_slots o !! i = Some s →
    let s' := retain (λ r, negb (from_region (ls_arcs st) id r)) s in
    slot_quiet st1 h sp s' ∧ labs_slot st1 h s' = retire_slot id (labs_slot st h s)) as Hall.
  { intros k o i sp s Hk Hsp Hs s'. apply retired_slot; [done| |by eapply (Forall2_lookup_lr _ _ _ _ _ _ (qt_objects _ _ Hq _ _ Hk))].
    apply Forall_forall. intros r Hin. eapply (rep_stable_slot st st1 h h k o k _ i s i s'); [done|done|done|done| |by rewrite Ho, lookup_fmap, Hk| |done].
    - unfold s' in Hin. simpl in Hin. by apply elem_of_keep in Hin as [? _].
    - simpl. by rewrite list_lookup_fmap, Hs. }
  split.
  - assert (ch st1 h = ch st h) as -> by (by apply caller_heap_same).
    assert (labs st1 h = (λ o, mkAObject (ao_spec o) (retire_slot id <$> ao_slots o)) <$> labs st h) as ->; [|constructor].
    apply map_eq. intros k. rewrite lookup_fmap, !labs_lookup, Ho, lookup_fmap. destruct (ls_objects st !! k) as [o|] eqn:Hk; [|done]. simpl. f_equal.
    unfold labs_object. simpl. f_equal. rewrite <- !list_fmap_compose. apply list_fmap_ext. intros i s Hs. simpl.
    destruct (lookup_lt_is_Some_2 (spec_slots (lo_spec o)) i) as [sp Hsp].
    { rewrite (Forall2_length _ _ _ (qt_objects _ _ Hq _ _ Hk)). by eapply lookup_lt_Some. }
    by apply (Hall k o i sp s).
  - constructor; [done|by eapply layout_ok_evolves; [|apply Hq]| |].
    + destruct Hq as [_ _ [Hr1 Hv] _]. split; [|done]. rewrite Hf. intros numa Hn. apply Hr1. by rewrite <- (evolves_pools _ _ numa Hev).
    + intros k o' Hk. rewrite Ho, lookup_fmap in Hk. apply fmap_Some in Hk as (o & Hk & ->). unfold object_quiet. simpl.
      apply Forall2_fmap_r, Forall2_same_length_lookup_2; [exact (Forall2_length _ _ _ (qt_objects _ _ Hq _ _ Hk))|]. intros i sp s Hsp Hs.
      by apply (Hall k o i sp s).
Qed.

Lemma loc_sim_memory st h h' :
  quiet st h → keeps_pools (ls_pools st) h h' →
  spec_step ReplicaFirst (ch st h, labs st h) EvMemory (ch st h', labs st h') ∧ quiet st h'.
Proof.
  intros Hq Hk. destruct (frame_abs st h st h' Hq) as [Hq' Hsame]; [apply rtc_once; by econstructor|done|done|].
  split; [|done]. assert (labs st h' = labs st h) as ->; [|constructor]. apply map_eq. intros k. rewrite !labs_lookup.
  destruct (ls_objects st !! k) as [o|] eqn:Ho; [|done]. simpl. by rewrite (Hsame k o Ho).
Qed.

Lemma loc_sim_stat st h keys :
  quiet st h → spec_step ReplicaFirst (ch st h, labs st h) (EvStat keys (local_stat inner st keys)) (ch st h, labs st h).
Proof.
  intros Hq. apply sp_stat. unfold local_stat. apply Forall2_fmap_r, Forall_Forall2_diag, Forall_forall. intros k _. cbv beta.
  rewrite labs_lookup. destruct (ls_objects st !! k) as [o|] eqn:Ho; simpl; rewrite Ho; simpl; [|done]. pose proof (qt_objects _ _ Hq _ _ Ho) as Hobj.
  unfold object_quiet in Hobj. unfold info_of, local_object_info, labs_object. simpl. split; [done|]. clear Ho.
  induction Hobj as [|sp s sps ss Hs _ IH]; simpl; [done|]. destruct IH as [IH1 IH2]. csimpl. split; [|by f_equal].
  constructor; [|done]. unfold is_resident. simpl. rewrite (labs_vacant _ _ _ _ Hs). by destruct (sl_replicas s).
Qed.

(** ** Publish *)

Lemma lent_slot st h st' h' spec s r segs id n :
  evolves st st' → Forall (same_rep st h st' h') (sl_replicas s) → slot_quiet st h spec s →
  ls_arcs st' !! lr_data r = Some (ExternalData segs id, n) → lr_tier r = External → zsum (segs.*2) = spec_len spec →
  let s' := mkLocalSlot (sl_replicas s ++ [r]) (sl_writing s) in
  slot_quiet st' h' spec s' ∧
  labs_slot st' h' s' = mkASlot (as_bytes (labs_slot st h s)) (as_lent (labs_slot st h s) ++ [mkLent (lr_device r) segs id]).
Proof.
  intros Hev Hall (Hw & Hq & Hc) Ha Ht Hlen s'. assert (rep_bytes st' h' r = None) as Hrb by (unfold rep_bytes; by rewrite Ha).
  destruct (reps_same _ _ _ _ _ Hall) as [E1 E2]. split.
  - rewrite Forall_forall in Hall, Hq. split; [done|]. split.
    + unfold s'. simpl. apply Forall_app. split; [apply Forall_forall; intros x Hx; eapply same_rep_quiet; [done|by apply Hall|by apply Hq]|].
      constructor; [|constructor]. unfold replica_quiet. by rewrite Ha.
    + intros x x' b b' [Hx|Hx%list_elem_of_singleton]%elem_of_app [Hx'|Hx'%list_elem_of_singleton]%elem_of_app; subst; try congruence.
      rewrite (proj2 (Hall x Hx)), (proj2 (Hall x' Hx')). by apply Hc.
  - unfold labs_slot, s'. simpl. rewrite !omap_app, E1, E2. csimpl. rewrite Hrb. unfold rep_lent at 2. rewrite Ha. simpl. by rewrite app_nil_r.
Qed.

Lemma loc_sim_publish_ok key op st h st' d n o spec s v :
  quiet st h → Forall iov_typed (pub_src op) → OpPublish_validate op = Ok (d, n) → ls_objects st !! key = Some o →
  spec_slots (lo_spec o) !! Z.to_nat (pub_slot op) = Some spec → spec_len spec = n → lo_slots o !! Z.to_nat (pub_slot op) = Some s →
  pub_src op !! 0%nat = Some v → local_publish key op st = Ret (st', Ok tt) →
  st' = set_objects (<[key := mkLocalObject (lo_spec o) (<[Z.to_nat (pub_slot op) :=
      mkLocalSlot (sl_replicas s ++ [mkLocalReplica d External false (ls_next st)]) (sl_writing s)]> (lo_slots o))]> (ls_objects st))
    (arc_new (ExternalData (iov_segs (pub_src op)) (region_id (iov_region v))) st).2 →
  spec_step ReplicaFirst (ch st h, labs st h) (EvPublish key op (Ok tt)) (ch st' h, labs st' h) ∧ quiet st' h.
Proof.
  intros Hq Hty Hval Ho Hsp Hlen Hs Hv Hpub Est. set (idx := Z.to_nat (pub_slot op)) in *.
  destruct (local_publish_ok [] [] key op st st' _ (qt_ok _ _ Hq) Hpub) as [Hok' Hev].
  assert (rtc (local_step inner) (mkCfg st h [] []) (mkCfg st' h [] [])) as Hst by (apply rtc_once; by econstructor).
  set (r := mkLocalReplica d External false (ls_next st)) in *. set (s' := mkLocalSlot (sl_replicas s ++ [r]) (sl_writing s)) in *.
  set (o' := mkLocalObject (lo_spec o) (<[idx := s']> (lo_slots o))) in *.
  assert (ls_objects st' = <[key := o']> (ls_objects st)) as Eo by (by rewrite Est).
  assert (ls_objects st' !! key = Some o') as Ho' by (by rewrite Eo, lookup_insert_eq).
  apply lookup_lt_Some in Hs as Hlt. pose proof (qt_objects _ _ Hq _ _ Ho) as Hqo. simpl in Hqo.
  assert (∀ j sj, lo_slots o !! j = Some sj → Forall (same_rep st h st' h) (sl_replicas sj)) as Hsame.
  { intros j sj Hj. apply Forall_forall. intros x Hx. destruct (decide (j = idx)) as [->|Hne].
    - rewrite Hs in Hj. injection Hj as <-. eapply (rep_stable_slot st st' h h key o key o' idx s idx s'); try done; [simpl; by rewrite list_lookup_insert_eq|].
      unfold s'. simpl. apply elem_of_app. by left.
    - eapply (rep_stable_slot st st' h h key o key o' j sj j sj); try done. simpl. by rewrite list_lookup_insert_ne. }
  destruct (lent_slot st h st' h spec s r (iov_segs (pub_src op)) (region_id (iov_region v)) 1 Hev (Hsame _ _ Hs)) as [Hqs Hls]; [| |done| |].
  { by eapply (Forall2_lookup_lr _ _ _ _ _ _ Hqo). }
  { rewrite Est. simpl. by rewrite lookup_insert_eq. }
  { apply validate_iovs_Ok in Hval as (_ & _ & -> & _); [|done]. rewrite Hlen. unfold total_len, iov_segs. by rewrite <- list_fmap_compose. }
  assert (∀ k x, k ≠ key → ls_objects st !! k = Some x → object_quiet st' h x ∧ labs_object st' h x = labs_object st h x) as Hoth.
  { intros k x Hk Hx. apply object_same; [done| |by apply (qt_objects _ _ Hq _ _ Hx)]. apply Forall_forall. intros y Hy.
    eapply rep_stable; [exact Hst|apply Hq|apply Hq|done|done| |exact Hy]. by rewrite Eo, lookup_insert_ne. }
  split.
  - assert (ch st' h = ch st h) as -> by (by apply caller_heap_same).
    assert (labs st' h = <[key := mkAObject (ao_spec (labs_object st h o)) (alter (lend op d (region_id (iov_region v))) idx
      (ao_slots (labs_object st h o)))]> (labs st h)) as ->.
    { apply map_eq. intros k. rewrite labs_lookup, Eo. destruct (decide (k = key)) as [->|Hk].
      - rewrite !lookup_insert_eq. simpl. f_equal. unfold labs_object. simpl. f_equal. apply list_eq. intros j.
        rewrite list_lookup_fmap. destruct (decide (j = idx)) as [->|Hj].
        + rewrite list_lookup_insert_eq by done. rewrite list_lookup_alter_eq, list_lookup_fmap, Hs. simpl. f_equal. exact Hls.
        + rewrite list_lookup_insert_ne, list_lookup_alter_ne, list_lookup_fmap by done. destruct (lo_slots o !! j) as [sj|] eqn:Hsj; [|done].
          simpl. f_equal. destruct (reps_same _ _ _ _ _ (Hsame j sj Hsj)) as [E1 E2]. unfold labs_slot. by rewrite E1, E2.
      - rewrite !lookup_insert_ne, labs_lookup by done. destruct (ls_objects st !! k) as [x|] eqn:Hx; [|done]. simpl. f_equal. by apply (Hoth k x). }
    apply (sp_publish _ _ _ _ _ d n (labs_object st h o) v); try done; [unfold publish_refusal; rewrite Hval, labs_lookup, Ho; simpl; fold idx; rewrite Hsp, decide_False by tauto; done|by rewrite labs_lookup, Ho|]. simpl. by rewrite length_fmap.
  - constructor; [done|by eapply layout_ok_evolves; [|apply Hq]| |].
    + destruct Hq as [_ _ [Hr1 Hv1] _]. split; [rewrite Est; done|done].
    + intros k x Hx. rewrite Eo in Hx. apply lookup_insert_Some in Hx as [[<- <-]|[Hne Hx]]; [|by eapply Hoth].
      unfold object_quiet. simpl. apply Forall2_same_length_lookup_2; [rewrite length_insert; by eapply Forall2_length|]. intros j sp sj Hspj Hsj.
      destruct (decide (j = idx)) as [->|Hj].
      * rewrite list_lookup_insert_eq in Hsj by done. injection Hsj as <-. rewrite Hsp in Hspj. injection Hspj as <-. exact Hqs.
      * rewrite list_lookup_insert_ne in Hsj by done. eapply (slot_same st st' h h sp sj sj); [done|done|done|by eapply Hsame|].
        by eapply (Forall2_lookup_lr _ _ _ _ _ _ Hqo).
Qed.

Lemma loc_sim_publish key op st h st' r :
  quiet st h → Forall (iov_valid (ch st h)) (pub_src op) → local_publish key op st = Ret (st', r) →
  spec_step ReplicaFirst (ch st h, labs st h) (EvPublish key op r) (ch st' h, labs st' h) ∧ quiet st' h.
Proof.
  intros Hq Hv Hpub. assert (Forall iov_typed (pub_src op)) as Hty by (eapply Forall_impl; [exact Hv|]; by intros v []).
  pose proof Hpub as Hp. unfold local_publish in Hp. destruct (OpPublish_validate op) as [[d n]|e] eqn:Hval.
  2:{ simplify_eq. split; [|done]. apply sp_publish_error. unfold publish_refusal. by rewrite Hval, (proj1 (validate_iovs_Err _ _ _ Hval Hty)). }
  destruct (ls_objects st !! key) as [o|] eqn:Ho.
  2:{ simplify_eq. split; [|done]. apply sp_publish_error. unfold publish_refusal. by rewrite Hval, labs_lookup, Ho. }
  destruct (spec_slots (lo_spec o) !! Z.to_nat (pub_slot op)) as [spec|] eqn:Hsp.
  2:{ simplify_eq. split; [|done]. apply sp_publish_error. unfold publish_refusal. rewrite Hval, labs_lookup, Ho. simpl. by rewrite Hsp. }
  case_decide as Hlen.
  { simplify_eq. split; [|done]. apply sp_publish_error. unfold publish_refusal. rewrite Hval, labs_lookup, Ho. simpl. by rewrite Hsp, decide_True. }
  apply bind_Ret_inv in Hp as (s & Hs%unwrap_Ret & Hp). apply bind_Ret_inv in Hp as (v & Hv0%unwrap_Ret & Hp).
  unfold arc_new in Hp. simplify_eq. by eapply loc_sim_publish_ok.
Qed.

(** ** Get *)

(** Lent memory a get may read: mapped, outside the pools, apart from the
    destination, on a device the driver can copy from. *)
Record lent_ok (st : LocalState) (h : heap) (op : OpGet) (d : Device) (l : Lent) : Prop := mkLentOk {
  lt_segs : Forall (seg_ok h) (le_segs l);
  lt_outside x : x ∈ addrs (le_segs l) → ¬ in_pool (ls_pools st) x;
  lt_apart x : x ∈ addrs (le_segs l) → x ∉ addrs (iov_segs (get_dst op));
  lt_engine : engine_ok inner dr (le_device l) d;
}.

Record get_guard (key : bytes) (op : OpGet) (st : LocalState) (h : heap) : Prop := mkGetGuard {
  gg_dst : Forall (iov_valid (ch st h)) (get_dst op);
  gg_apart : non_overlapping (get_dst op);
  gg_offset : 0 <= get_src_offset op <= U64_MAX;
  gg_engine d n numa : OpGet_validate op = Ok (d, n) → is_Some (ls_pools st !! numa) → engine_ok inner dr (Cpu numa) d;
  gg_lent d n o s l : OpGet_validate op = Ok (d, n) → labs st h !! key = Some o → ao_slots o !! Z.to_nat (get_slot op) = Some s →
    l ∈ as_lent s → lent_ok st h op d l;
}.

(** The copy out of lent memory. *)
Lemma get_copy_lent r op d n st h segs id c :
  ls_arcs st !! lr_data r = Some (ExternalData segs id, c) → get_dst_ok (ls_pools st) h op n →
  lent_ok st h op d (mkLent (lr_device r) segs id) → get_src_offset op + n <= zsum (segs.*2) →
  ∃ h', get_copy inner dr r op d n (mkLocalWorld h []) st =
      Ret (mkLocalWorld h' [], Ok (mkRpGet (local_location inner (lr_device r) (lr_tier r)))) ∧
    segs_contents h' (iov_segs (get_dst op)) = take (Z.to_nat n) (drop (Z.to_nat (get_src_offset op)) (segs_contents h segs)) ∧
    only_in (addrs (iov_segs (get_dst op))) h h'.
Proof.
  intros Ha [Hs Hl Hu Ho Hnd Hap] [Hls Hlo Hla He] Hrange. simpl in *.
  destruct (copy_ok inner dr (lr_device r) segs (get_src_offset op) d (iov_segs (get_dst op)) n h He) as (h' & Hc & Hcont & Honly); [by constructor|].
  exists h'. unfold get_copy. rewrite Ha. cbn [deref mbind outcome_bind]. unfold data_segs. cbn [mbind outcome_bind].
  cbn [Local.w_heap Local.w_pending]. rewrite Hc. by cbn [mbind outcome_bind app].
Qed.

(** The bytes behind a replica, and the copy of them. *)
Lemma get_copy_any key op d n st h st1 o spec s r :
  quiet st h → get_guard key op st h → OpGet_validate op = Ok (d, n) → get_dst_ok (ls_pools st) h op n →
  ls_objects st !! key = Some o → lo_slots o !! Z.to_nat (get_slot op) = Some s → slot_quiet st h spec s → r ∈ sl_replicas s →
  get_src_offset op + n <= spec_len spec →
  local_ok [] [lr_data r] st1 → ls_pools st1 = ls_pools st → fst <$> ls_arcs st1 = fst <$> ls_arcs st →
  ∃ h' b, get_copy inner dr r op d n (mkLocalWorld h []) st1 =
      Ret (mkLocalWorld h' [], Ok (mkRpGet (local_location inner (lr_device r) (lr_tier r)))) ∧
    slot_source (ch st h) (labs_slot st h s) (lr_tier r) b ∧ Z.of_nat (length b) = spec_len spec ∧
    segs_contents h' (iov_segs (get_dst op)) = take (Z.to_nat n) (drop (Z.to_nat (get_src_offset op)) b) ∧
    only_in (addrs (iov_segs (get_dst op))) h h'.
Proof.
  intros Hq Hg Hval Hdst Ho Hs Hqs Hr Hrange Hok1 Ep Ea. pose proof Hqs as (_ & Hall & _). rewrite Forall_forall in Hall.
  specialize (Hall r Hr). unfold replica_quiet in Hall.
  assert (fst <$> ls_arcs st1 !! lr_data r = fst <$> ls_arcs st !! lr_data r) as Har by (by rewrite <- !lookup_fmap, Ea).
  destruct (ls_arcs st !! lr_data r) as [[data c]|] eqn:Ha; [|done]. destruct (ls_arcs st1 !! lr_data r) as [[data1 c1]|] eqn:Ha1; [|done].
  simpl in Har. injection Har as ->. destruct data as [numa b|segs id].
  - destruct Hall as (Ht & Hd & Hb & [p Hp]). rewrite Hd, Ht.
    assert (rep_bytes st h r = Some (bytes_at h (buf_addr p b) (buf_len b))) as Hrb by (unfold rep_bytes; by rewrite Ha, Hp).
    destruct (get_copy_ok inner [] [lr_data r] dr r op d n st1 h numa b c1 p []) as (h' & Hc & Hcont & Honly); try done; rewrite ?Ep; try done.
    { apply Hq. }
    { lia. }
    { rewrite Hd. eapply (gg_engine _ _ _ _ Hg); [done|]. eauto. }
    exists h', (bytes_at h (buf_addr p b) (buf_len b)). rewrite Hd, Ht in Hc. split; [done|]. split; [left; split; [done|by eapply labs_bytes_pinned]|].
    split; [|done]. rewrite <- Hb.
    destruct (buf_placed [] [lr_data r] st1 h numa b p Hok1) as (Hba & ? & ? & ? & ? & ?); [rewrite Ep; apply Hq|by eapply elem_of_arc_bufs|by rewrite Ep|].
    apply bytes_at_load; [lia|]. rewrite Hba. eapply mapped_sub; [by eapply (ly_mapped _ _ (qt_layout _ _ Hq))|lia|lia].
  - destruct Hall as (Ht & Hlen). rewrite Ht.
    assert (mkLent (lr_device r) segs id ∈ as_lent (labs_slot st h s)) as Hin.
    { unfold labs_slot. simpl. apply list_elem_of_omap. exists r. split; [done|]. unfold rep_lent. by rewrite Ha. }
    assert (lent_ok st h op d (mkLent (lr_device r) segs id)) as Hlt.
    { eapply (gg_lent _ _ _ _ Hg d n (labs_object st h o)); [done|by rewrite labs_lookup, Ho| |exact Hin]. simpl. by rewrite list_lookup_fmap, Hs. }
    destruct (get_copy_lent r op d n st1 h segs id c1) as (h' & Hc & Hcont & Honly); [done|by rewrite Ep| |lia|].
    { destruct Hlt. constructor; rewrite ?Ep; done. }
    rewrite Ht in Hc. destruct Hlt as [Hls Hlo _ _]. simpl in *.
    destruct (segs_outside (ls_pools st) h (ch st h) segs (caller_heap_outside _ h) Hlo Hls) as [_ Hsame].
    exists h', (segs_contents h segs). split; [done|]. split; [right; split; [done|]; eexists; split; [exact Hin|done]|].
    split; [by rewrite segs_contents_len|done].
Qed.

(** What a copy into the caller's memory looks like from there. *)
Lemma caller_writes st st' h h' vs :
  evolves st st' → only_in (addrs (iov_segs vs)) h h' → writes_only (ch st h) (ch st' h') vs.
Proof.
  intros Hev [Hout Hdom]. unfold ch. split.
  - intros x. split; intros [b [Hb Hx]%caller_heap_Some].
    + assert (is_Some (h !! x)) as [b' Hb'] by (apply Hdom; eauto). exists b'. apply caller_heap_Some. split; [done|].
      by rewrite <- (in_pool_evolves _ _ _ Hev).
    + assert (is_Some (h' !! x)) as [b' Hb'] by (apply Hdom; eauto). exists b'. apply caller_heap_Some. split; [done|].
      by rewrite (in_pool_evolves _ _ _ Hev).
  - intros x Hx. apply option_eq. intros b. rewrite !caller_heap_Some, (in_pool_evolves _ _ _ Hev), Hout; [done|].
    intros (g & Hg & Hb)%elem_of_addrs_inv. apply list_elem_of_fmap in Hg as (v & -> & Hv). by apply (Hx v Hv).
Qed.

(** A get that failed, or read: nothing of the store changed. *)
Lemma loc_get_frame key op st h h' st' r :
  quiet st h → (∀ x, x ∈ addrs (iov_segs (get_dst op)) → ¬ in_pool (ls_pools st) x) → Forall (seg_ok h) (iov_segs (get_dst op)) →
  (∀ d n, OpGet_validate op = Ok (d, n) → 0 <= n) → same_meta st st' →
  local_get inner dr key op (mkLocalWorld h []) st = Ret (mkLocalWorld h' [], st', r) →
  quiet st' h' ∧ evolves st st' ∧ labs st' h' = labs st h.
Proof.
  intros Hq Hap Hs Hn [Eo Ef] Hg.
  assert (rtc (local_step inner) (mkCfg st h [] []) (mkCfg st' h' [] [])) as Hst.
  { eapply local_get_steps; [exact Hap| |exact Hn|apply Hq|exact Hg]. eapply Forall_impl; [exact Hs|].
    intros s (H1 & H2 & H3 & _). split; [lia|]. split; [lia|done]. }
  destruct (frame_abs st h st' h' Hq Hst) as [Hq' Habs]; [intros k o; by rewrite Eo|done|]. split; [done|].
  split; [by apply (local_steps_ok inner _ _ Hst); split; apply Hq|]. apply map_eq. intros k. rewrite !labs_lookup. rewrite <- Eo.
  destruct (ls_objects st' !! k) as [o|] eqn:Ho; [|done]. simpl. f_equal. by eapply Habs.
Qed.

Lemma range_ok_bound op n len : range_ok op n len = true → get_src_offset op + n <= Z.min len U64_MAX.
Proof.
  unfold range_ok. destruct (checked_add (get_src_offset op) n) as [e|] eqn:Hadd; [|done]. unfold checked_add in Hadd.
  case_decide; simplify_eq. intros ?%Z.leb_le. lia.
Qed.

Lemma range_ok_false op n len : range_ok op n len = false → Z.min len U64_MAX < get_src_offset op + n.
Proof.
  unfold range_ok. destruct (checked_add (get_src_offset op) n) as [e|] eqn:Hadd.
  - apply checked_add_Some in Hadd as [-> _]. intros ?%Z.leb_gt. lia.
  - unfold checked_add in Hadd. case_decide; [done|]. lia.
Qed.

(** The replica is found: the range is checked, the bytes are copied out. *)
Lemma loc_sim_get_found key op d n st h st1 o spec s r :
  quiet st h → get_guard key op st h → OpGet_validate op = Ok (d, n) → ls_objects st !! key = Some o →
  spec_slots (lo_spec o) !! Z.to_nat (get_slot op) = Some spec → lo_slots o !! Z.to_nat (get_slot op) = Some s → r ∈ sl_replicas s →
  lookup_replica inner key op d st = Ret (st1, Ok (r, spec_len spec)) →
  ∃ h' st' res, local_get inner dr key op (mkLocalWorld h []) st = Ret (mkLocalWorld h' [], st', res) ∧
    spec_step ReplicaFirst (ch st h, labs st h) (EvGet key op res) (ch st' h', labs st' h') ∧ quiet st' h' ∧
    only_in (addrs (iov_segs (get_dst op))) h h' ∧ evolves st st'.
Proof.
  intros Hq Hg Hval Ho Hsp Hs Hr Hlook. pose proof (caller_dst _ _ op d n (gg_dst _ _ _ _ Hg) (gg_apart _ _ _ _ Hg) Hval (gg_offset _ _ _ _ Hg)) as Hdst.
  pose proof Hdst as [Hsegs _ Hn _ _ Hap].
  destruct (lookup_replica_ok [] [] inner key op d st st1 _ (qt_ok _ _ Hq) Hlook) as (Hev1 & [Eo1 Ef1] & Ep & Ea & Hok1 & _).
  destruct (arc_drop_ok [] [lr_data r] [] st1 (lr_data r) Hok1 (Permutation_refl _)) as (st2 & Hdrop & [Eo2 Ef2] & Hev2 & Hok2).
  assert (same_meta st st2) as Hmeta by (split; congruence).
  assert (∀ d n, OpGet_validate op = Ok (d, n) → 0 <= n) as Hn' by (intros d' n' Hv'; rewrite Hval in Hv'; simplify_eq; lia).
  assert (labs st h !! key = Some (labs_object st h o)) as Hlo by (by rewrite labs_lookup, Ho).
  pose proof (Forall2_lookup_lr _ _ _ _ _ _ (qt_objects _ _ Hq _ _ Ho) Hsp Hs) as Hqs.
  destruct (range_ok op n (spec_len spec)) eqn:Hrange.
  - apply range_ok_bound in Hrange as Hle.
    destruct (get_copy_any key op d n st h st1 o spec s r) as (h' & b & Hcopy & Hsrc & Hlen & Hcont & Honly); try done; [lia|].
    assert (local_get inner dr key op (mkLocalWorld h []) st =
      Ret (mkLocalWorld h' [], st2, Ok (mkRpGet (local_location inner (lr_device r) (lr_tier r))))) as Hget.
    { unfold local_get. rewrite Hval, Hlook. cbn [mbind outcome_bind]. rewrite Hrange. cbn [negb]. rewrite Hcopy. cbn [mbind outcome_bind].
      rewrite Hdrop. done. }
    destruct (loc_get_frame key op st h h' st2 _ Hq Hap Hsegs Hn' Hmeta Hget) as (Hq' & Hev & Hlab).
    eexists h', st2, _. split; [exact Hget|]. split; [|done]. rewrite Hlab.
    apply (sp_get _ _ _ _ _ _ d n (labs_object st h o) (labs_slot st h s) b); try done; [|simpl; by rewrite list_lookup_fmap, Hs|lia|by apply caller_writes|].
    { apply (get_accepted _ _ _ _ d n (labs_object st h o) spec (labs_slot st h s)); try done; [simpl; by rewrite list_lookup_fmap, Hs|].
      rewrite (labs_vacant _ _ _ _ Hqs). intros Hnil. rewrite Hnil in Hr. by apply elem_of_nil in Hr. }
    intros _. rewrite <- Hcont. apply caller_contents; [|intros x; rewrite (in_pool_evolves _ _ _ Hev); apply Hap].
    eapply Forall_impl; [exact Hsegs|]. intros g (? & ? & ? & Hm). do 3 (split; [done|]). intros x Hx. by apply Honly, Hm.
  - apply range_ok_false in Hrange as Hlt.
    assert (local_get inner dr key op (mkLocalWorld h []) st = Ret (mkLocalWorld h [], st2, Err (local_range_exceeds op n (spec_len spec)))) as Hget.
    { unfold local_get. rewrite Hval, Hlook. cbn [mbind outcome_bind]. rewrite Hrange. cbn [negb]. rewrite Hdrop. done. }
    destruct (loc_get_frame key op st h h st2 _ Hq Hap Hsegs Hn' Hmeta Hget) as (Hq' & Hev & Hlab).
    eexists h, st2, _. split; [exact Hget|]. split; [|split_and!; [done|apply only_in_refl|done]]. rewrite Hlab. assert (ch st2 h = ch st h) as -> by (by apply caller_heap_same).
    apply sp_get_error. rewrite (get_refusal_at _ _ _ _ d n (labs_object st h o) spec (labs_slot st h s)); try done; [|simpl; by rewrite list_lookup_fmap, Hs].
    rewrite (bool_decide_eq_true_2 _ Hlt), bool_decide_eq_false_2; [done|]. rewrite (labs_vacant _ _ _ _ Hqs). intros Hnil. rewrite Hnil in Hr. by apply elem_of_nil in Hr.
Qed.

Lemma loc_sim_get key op st h :
  quiet st h → get_guard key op st h →
  ∃ h' st' r, local_get inner dr key op (mkLocalWorld h []) st = Ret (mkLocalWorld h' [], st', r) ∧
    spec_step ReplicaFirst (ch st h, labs st h) (EvGet key op r) (ch st' h', labs st' h') ∧ quiet st' h' ∧
    only_in (addrs (iov_segs (get_dst op))) h h' ∧ evolves st st'.
Proof.
  intros Hq Hg. assert (Forall iov_typed (get_dst op)) as Hty by (eapply Forall_impl; [apply Hg|]; by intros v []).
  assert (∀ e d n, OpGet_validate op = Ok (d, n) → lookup_replica inner key op d st = Ret (st, Err e) → get_refusal ReplicaFirst (labs st h) key op = Some (err_kind e) →
    ∃ h' st' r, local_get inner dr key op (mkLocalWorld h []) st = Ret (mkLocalWorld h' [], st', r) ∧
      spec_step ReplicaFirst (ch st h, labs st h) (EvGet key op r) (ch st' h', labs st' h') ∧ quiet st' h' ∧
      only_in (addrs (iov_segs (get_dst op))) h h' ∧ evolves st st') as Herr.
  { intros e d n Hval Hl He. exists h, st, (Err e). unfold local_get. rewrite Hval, Hl. split; [done|]. split; [|split_and!; [done|apply only_in_refl|done]]. by apply sp_get_error. }
  destruct (OpGet_validate op) as [[d n]|e] eqn:Hval.
  2:{ exists h, st, (Err e). unfold local_get. rewrite Hval. split; [done|]. split; [|split_and!; [done|apply only_in_refl|done]]. apply sp_get_error.
      unfold get_refusal. by rewrite Hval, (proj1 (validate_iovs_Err _ _ _ Hval Hty)). }
  destruct (ls_objects st !! key) as [o|] eqn:Ho.
  2:{ eapply Herr; [done|unfold lookup_replica; by rewrite Ho|]. unfold get_refusal. by rewrite Hval, labs_lookup, Ho. }
  assert (labs st h !! key = Some (labs_object st h o)) as Hlo by (by rewrite labs_lookup, Ho).
  destruct (spec_slots (lo_spec o) !! Z.to_nat (get_slot op)) as [spec|] eqn:Hsp.
  2:{ eapply Herr; [done|unfold lookup_replica; by rewrite Ho, Hsp|]. unfold get_refusal. rewrite Hval, Hlo. simpl. by rewrite Hsp. }
  pose proof (qt_objects _ _ Hq _ _ Ho) as Hqo. simpl in Hqo.
  destruct (Forall2_lookup_l _ _ _ _ _ Hqo Hsp) as (s & Hs & Hqs).
  destruct (local_nearest inner d (sl_replicas s)) as [r|] eqn:Hnear.
  - apply min_by_elem in Hnear as Hr. destruct (arc_clone_ok [] [] st (lr_data r) (qt_ok _ _ Hq)) as (st1 & Hc & _).
    { rewrite (object_arcs_delete _ _ _ Ho), !elem_of_app. left. left. apply list_elem_of_fmap_2. by eapply elem_of_object_replicas. }
    eapply (loc_sim_get_found key op d n st h st1 o spec s r); try done. unfold lookup_replica. rewrite Ho, Hsp, Hs.
    cbn [unwrap mbind outcome_bind]. rewrite Hnear, Hc. done.
  - eapply Herr; [done|unfold lookup_replica; rewrite Ho, Hsp, Hs; cbn [unwrap mbind outcome_bind]; by rewrite Hnear|].
    rewrite (get_refusal_at _ _ _ _ d n (labs_object st h o) spec (labs_slot st h s)); [|done..|simpl; by rewrite list_lookup_fmap, Hs].
    rewrite (bool_decide_eq_true_2 (vacant _)); [done|]. eapply labs_vacant; [done|]. unfold local_nearest in Hnear. by destruct (sl_replicas s).
Qed.
End Calls.
