(* ===== verification/LocalWitness.v ===== *)
(** * The CUDA backend: concrete runs

    Runs that satisfy the hypotheses of the theorems, and the defects of the
    protocol as closed executions. *)

From S2P Require Import Prelude HostMem Types Region Memory MemoryCopy Pinned Text Numa Topology Cuda LocalCopy Local LocalInv LocalEvict LocalSections LocalTransfer LocalSteps LocalTheorems LocalRun LocalPut LocalRoundtrip LocalBuild Store MemoryAccess StoreTheorems LocalAccess.

#[local] Instance lw_profile : BuildProfile := true.

(** ** A machine with one GPU and one pool of a single unit *)

(** A driver that accepts everything. *)
Definition lw_sys : CudaSys :=
  mkCudaSys 0 (0, 1) (λ i, (0, i)) (λ _, (0, str "0000:3B:00.0" ++ replicate 20 0)) (λ _ _, (0, 1)) (λ _ _, 0) (λ _ _ _ _, 0) (λ _ _ _ _, 0)
    (λ _ _ _ _ _ _, 0) (λ _ _, 0) (λ _ _, (0, 0)) (λ _ _ _ _, 0) (λ _ _, (0, 3)) (λ i, Some (100 + i)) (λ c, Some (c + 100)) (λ _, true) (λ _, true).

Definition lw_base : Z := 2 ^ 30.
Definition lw_inner : LocalInner :=
  mkLocalInner (mkAccessInfo "local" 0 [Cpu 0; Gpu 0] Capability_all) (mkTopology [0] {[0 := [0]]} {[0 := 0]})
    [mkCudaGpu 0 100 200 (str "0000:3b:00.0")].
Definition lw_st0 : LocalState :=
  mkLocalState ∅ {[Cpu 0 := []; Gpu 0 := []]} {[0 := mkLocalPool 0 true lw_base ALIGN [(0, ALIGN)]]} ∅ 0.

(** Source bytes on the GPU, destination on the host. *)
Definition lw_src : MemoryRegion := mkRegion 1 4096 3 (Gpu 0).
Definition lw_dst : MemoryRegion := mkRegion 2 8192 3 (Cpu 0).
Definition lw_key : bytes := [1].
Definition lw_ps : PutSlot := mkPutSlot (mkSlotSpec 3 (Strict (Cpu 0))) [iov_all lw_src].
Definition lw_op : OpPut := OpPut_new [lw_ps].
Definition lw_get : OpGet := with_src_offset (OpGet_new 0 [iov lw_dst 0 2]) 1.

Lemma lw_pool_inv n p : ls_pools lw_st0 !! n = Some p → n = 0 ∧ p = mkLocalPool 0 true lw_base ALIGN [(0, ALIGN)].
Proof. intros Hp. simpl in Hp. apply lookup_singleton_Some in Hp as [<- <-]. done. Qed.

Lemma lw_fifo_inv d q : ls_fifo lw_st0 !! d = Some q → q = [].
Proof. intros Hq. simpl in Hq. apply lookup_insert_Some in Hq as [[_ <-]|[_ [_ <-]%lookup_singleton_Some]]; done. Qed.

Lemma lw_fresh : local_fresh lw_st0.
Proof. constructor; [done|done|]. by intros numa p [-> ->]%lw_pool_inv. Qed.

Lemma lw_src_segs : iov_segs [iov_all lw_src] = [(4096, 3)].
Proof. done. Qed.
Lemma lw_dst_segs : iov_segs (get_dst lw_get) = [(8192, 2)].
Proof. done. Qed.

(** Memory: the two caller buffers and the pool. *)
Definition lw_addrs : list Z := seqZ 4096 3 ++ seqZ 8192 3 ++ seqZ lw_base ALIGN.

Lemma lw_memory : ∃ h : heap, ∀ x, x ∈ lw_addrs → h !! x = Some (x mod 256).
Proof.
  exists (list_to_map ((λ x, (x, x mod 256)) <$> lw_addrs)). intros x Hx. apply elem_of_list_to_map_1'.
  - intros y Hy. apply list_elem_of_fmap in Hy as (z & [= -> ->] & _). done.
  - by apply (list_elem_of_fmap_2 (λ x, (x, x mod 256))).
Qed.

Section Memory.
Context (h : heap) (Hh : ∀ x, x ∈ lw_addrs → h !! x = Some (x mod 256)).

Lemma lw_mapped a n : (∀ x, a <= x < a + n → x ∈ lw_addrs) → mapped h a n.
Proof. intros Hin x Hx. rewrite (Hh x (Hin x Hx)). by eexists. Qed.

Lemma lw_in_src x : 4096 <= x < 4099 → x ∈ lw_addrs.
Proof. intros. unfold lw_addrs. rewrite !elem_of_app, !elem_of_seqZ. lia. Qed.
Lemma lw_in_dst x : 8192 <= x < 8195 → x ∈ lw_addrs.
Proof. intros. unfold lw_addrs. rewrite !elem_of_app, !elem_of_seqZ. lia. Qed.
Lemma lw_in_pool x : lw_base <= x < lw_base + ALIGN → x ∈ lw_addrs.
Proof. intros. unfold lw_addrs. rewrite !elem_of_app, !elem_of_seqZ. lia. Qed.

Lemma lw_pool_addr pools x : (∀ n p, pools !! n = Some p → lp_base p = lw_base ∧ lp_len p = ALIGN) → in_pool pools x → lw_base <= x < lw_base + ALIGN.
Proof. intros Hp (n & p & Hn & Hx). destruct (Hp n p Hn). lia. Qed.

Lemma lw_layout : layout_ok (ls_pools lw_st0) h.
Proof.
  constructor.
  - intros numa p [-> ->]%lw_pool_inv. done.
  - intros numa p [-> ->]%lw_pool_inv. apply lw_mapped, lw_in_pool.
  - intros n m p q Hne [-> ->]%lw_pool_inv [-> ->]%lw_pool_inv. done.
Qed.

Lemma lw_engine sd dd : sd ∈ [Cpu 0; Gpu 0] → dd ∈ [Cpu 0; Gpu 0] → engine_ok lw_inner lw_sys sd dd.
Proof.
  intros Hs Hd. unfold engine_ok. rewrite !elem_of_cons, elem_of_nil in Hs, Hd.
  destruct Hs as [->|[->|[]]], Hd as [->|[->|[]]]; eexists; (split; [reflexivity|]); by split.
Qed.

Lemma lw_pools0 n p : ls_pools lw_st0 !! n = Some p → lp_base p = lw_base ∧ lp_len p = ALIGN.
Proof. by intros [-> ->]%lw_pool_inv. Qed.

Lemma lw_src_ok : put_src_ok lw_inner lw_sys (ls_pools lw_st0) h (Gpu 0) (iov_segs [iov_all lw_src]) 3.
Proof.
  constructor.
  - constructor; [|constructor]. split; [done|]. split; [done|]. split; [done|]. apply lw_mapped, lw_in_src.
  - done.
  - intros x Hx Hp%(lw_pool_addr _ _ lw_pools0). rewrite lw_src_segs, addrs_one in Hx.
    unfold lw_base in Hp. simpl in Hx. lia.
  - intros numa [p [-> ->]%lw_pool_inv]. apply lw_engine; [right; left|left].
Qed.

Lemma lw_put_pre : local_put_pre lw_inner lw_sys lw_key lw_op lw_st0 h.
Proof.
  constructor.
  - apply fresh_ok, lw_fresh.
  - apply lw_layout.
  - split.
    + intros numa [p [-> ->]%lw_pool_inv]. by eexists.
    + intros _ d q ->%lw_fifo_inv. by intros k i o ?%elem_of_nil.
  - done.
  - intros o. simpl. by rewrite lookup_empty.
  - by intros d q i _ ->%lw_fifo_inv ?%elem_of_nil.
  - constructor; [|constructor]. constructor; [done|done|]. intros d [= <-]. apply lw_src_ok.
Qed.

(** The source bytes, and the range a get of two bytes at offset one reads. *)
Lemma lw_bytes : segs_contents h (iov_segs [iov_all lw_src]) = [0; 1; 2].
Proof.
  apply (inj (fmap Some)). rewrite segs_contents_addrs by apply lw_src_ok. rewrite lw_src_segs. change (addrs [(4096, 3)]) with [4096; 4097; 4098].
  csimpl. rewrite !Hh by (apply lw_in_src; lia). done.
Qed.

Lemma lw_dst_some x : 8192 <= x < 8195 → is_Some (h !! x).
Proof. intros Hx. rewrite Hh by (by apply lw_in_dst). by eexists. Qed.

Lemma lw_dst_ok st h' : evolves lw_st0 st → (∀ x, 8192 <= x < 8195 → is_Some (h' !! x)) → get_dst_ok (ls_pools st) h' lw_get 2.
Proof.
  intros Hev Hdom. constructor; rewrite ?lw_dst_segs; [|done|done|done|apply (bool_decide_unpack _); by vm_compute|].
  - constructor; [|constructor]. split; [done|]. split; [done|]. split; [done|].
    intros x Hx. apply Hdom. simpl in Hx. lia.
  - intros x Hx Hp. rewrite in_pool_evolves in Hp by exact Hev. apply (lw_pool_addr _ _ lw_pools0) in Hp.
    rewrite addrs_one in Hx. unfold lw_base in Hp. simpl in Hx. lia.
Qed.
End Memory.

Lemma local_put_correct_witness :
  ∃ h h' st' rs, local_put lw_inner lw_sys lw_key lw_op (mkLocalWorld h []) lw_st0 = Ret (mkLocalWorld h' [], st', Ok rs) ∧ length rs = 1%nat ∧
    segs_contents h (iov_segs [iov_all lw_src]) = [0; 1; 2].
Proof.
  destruct lw_memory as [h Hh].
  destruct (local_put_correct lw_inner lw_sys lw_key lw_op lw_st0 h (lw_put_pre h Hh)) as (h' & st' & rs & Hput & Hlen & _).
  exists h, h', st', rs. split; [exact Hput|]. split; [exact Hlen|]. exact (lw_bytes h Hh).
Defined.

(** ** The backend behind a [Store] *)

Definition lw_store : Store LocalSystem := from_servicer (local_servicer lw_inner lw_sys).

Lemma lw_caller_mapped h a n :
  mapped h a n → (∀ x, a <= x < a + n → x < lw_base) → mapped (caller_heap (ls_pools lw_st0) h) a n.
Proof.
  intros Hm Hlt x Hx. destruct (Hm x Hx) as [b Hb]. exists b. apply caller_heap_Some. split; [done|].
  intros Hp%(lw_pool_addr _ _ lw_pools0). specialize (Hlt x Hx). lia.
Qed.

(** Two of the three bytes put from the GPU are read into host memory. *)
Example lw_store_put_get :
  ∃ y y' y2 rp, put_options lw_store lw_key lw_op y = Ret (y', Ok [Ok tt]) ∧
    get_options lw_store lw_key lw_get y' = Ret (y2, Ok rp) ∧ contents (loc_heap y2) (get_dst lw_get) = [1; 2].
Proof.
  destruct lw_memory as [h Hh]. set (y := mkLocalSystem (mkLocalWorld h []) lw_st0 [] 3).
  destruct (local_put_single lw_inner lw_sys lw_key lw_op lw_ps lw_st0 h
    (match claim lw_key (OpPut_spec lw_op) lw_st0 with Ok (st, _) => st | Err _ => lw_st0 end) (lw_put_pre h Hh))
    as (h' & st' & Hput); [done|by vm_compute|by vm_compute|].
  assert (loc_inv y) as Hinv by (split; [done|]; split_and!; apply (lw_put_pre h Hh)).
  set (y' := mkLocalSystem (mkLocalWorld h' []) st' [] 3).
  assert (put_options lw_store lw_key lw_op y = Ret (y', Ok [Ok tt])) as Hp.
  { unfold put_options. change (check_put _ lw_op) with (Ok tt : Result unit). simpl. unfold loc_put. simpl. by rewrite Hput. }
  destruct (local_put_ok lw_inner lw_sys lw_key lw_op lw_st0 h (lw_put_pre h Hh)) as [(h1 & st1 & rs1 & Hput1 & _ & _ & _ & _ & Hev & _)|[? _]]; [|done].
  rewrite Hput in Hput1. injection Hput1 as <- <- <-.
  destruct (put_get_lawful (local_servicer lw_inner lw_sys) y lw_key lw_op y' [Ok tt] 0 lw_ps lw_get (Cpu 0) 2) as (y2 & rp & Hg & Hc);
    [exact Hinv|by apply lw_put_pre|exact Hp|done|done| |done| |repeat constructor|done|done|done|by vm_compute|done|].
  - intros d n numa [= <- <-] Hn. apply lw_engine; [|left]. destruct Hn as [p Hn].
    pose proof (ev_pools _ _ Hev numa) as He. simpl in Hn. rewrite Hn in He. symmetry in He.
    apply fmap_Some in He as (p0 & [-> _]%lw_pool_inv & _). left.
  - constructor; [|constructor]. split; [|done]. split; [done|]. split; [done|]. split; [done|].
    apply lw_caller_mapped; [apply (lw_mapped h Hh), lw_in_dst|]. intros x Hx. unfold lw_base. simpl in Hx. lia.
  - exists y, y', y2, rp. split; [exact Hp|]. split; [exact Hg|]. etransitivity; [exact Hc|]. 
    assert (contents (loc_heap y) (ps_src lw_ps) = [0; 1; 2]) as Hb.
    { unfold loc_heap. simpl. rewrite caller_contents by apply (lw_src_ok h Hh). apply (lw_bytes h Hh). }
    simpl. simpl in Hb. by rewrite Hb.
Qed.

(** ** A run: put, lookup, removal during the read, end of the read *)

Definition ret_or {A} (d : A) (o : outcome A) : A := match o with Ret a => a | _ => d end.

Definition lw_st1 : LocalState :=
  match claim lw_key (OpPut_spec lw_op) lw_st0 with Ok (st, _) => st | Err _ => lw_st0 end.
Definition lw_buf : PinnedBuf := mkPinnedBuf 0 ALIGN 3.
Definition lw_st2 : LocalState := (ret_or (lw_st1, None) (pool_alloc 0 3 lw_st1)).1.
Definition lw_placed : list placed_buf := [(0, false, lw_buf)].
Definition lw_st3 : LocalState := (ret_or (lw_st2, Ok tt) (publish_placed lw_key 0 lw_placed lw_st2)).1.
Definition lw_rep : LocalReplica := mkLocalReplica (Cpu 0) Dram false 0.
Definition lw_st4 : LocalState := (ret_or (lw_st3, Ok (lw_rep, 3)) (lookup_replica lw_inner lw_key lw_get (Cpu 0) lw_st3)).1.
Definition lw_st5 : LocalState := ret_or lw_st4 (local_remove lw_st4 [lw_key]).
Definition lw_st6 : LocalState := ret_or lw_st5 (arc_drop 0 lw_st5).

Abbreviation lw_steps := (rtc (local_step lw_inner)).

Lemma lw_claim : claim lw_key (OpPut_spec lw_op) lw_st0 = Ok (lw_st1, [true]).
Proof. by vm_compute. Qed.
Lemma lw_alloc : pool_alloc 0 3 lw_st1 = Ret (lw_st2, Some lw_buf).
Proof. by vm_compute. Qed.
Lemma lw_publish : publish_placed lw_key 0 lw_placed lw_st2 = Ret (lw_st3, Ok tt).
Proof. by vm_compute. Qed.
Lemma lw_lookup : lookup_replica lw_inner lw_key lw_get (Cpu 0) lw_st3 = Ret (lw_st4, Ok (lw_rep, 3)).
Proof. by vm_compute. Qed.
Lemma lw_remove : local_remove lw_st4 [lw_key] = Ret lw_st5.
Proof. by vm_compute. Qed.
Lemma lw_drop : arc_drop 0 lw_st5 = Ret lw_st6.
Proof. by vm_compute. Qed.

Section Run.
Context (h : heap) (Hh : ∀ x, x ∈ lw_addrs → h !! x = Some (x mod 256)).

Lemma lw_cfg0 : cfg_ok (mkCfg lw_st0 h [] []).
Proof. split; [apply fresh_ok, lw_fresh|by apply lw_layout]. Qed.

Lemma lw_run2 : lw_steps (mkCfg lw_st0 h [] []) (mkCfg lw_st2 h [(0, lw_buf)] []).
Proof.
  eapply rtc_l; [eapply lstep_claim, lw_claim|]. eapply rtc_l; [|apply rtc_refl].
  eapply (lstep_alloc _ _ _ _ _ 0 3); [by eexists|lia|done|exact lw_alloc].
Qed.

Lemma lw_pool2 : ls_pools lw_st2 !! 0 = Some (mkLocalPool 0 true lw_base ALIGN []).
Proof. by vm_compute. Qed.

(** The bytes copied into the buffer are the source's. *)
Lemma lw_run3 : ∃ h1, lw_steps (mkCfg lw_st0 h [] []) (mkCfg lw_st3 h1 [] []) ∧
  bytes_at h1 lw_base 3 = [0; 1; 2] ∧ ∀ x, is_Some (h !! x) → is_Some (h1 !! x).
Proof.
  destruct (local_steps_ok lw_inner _ _ lw_run2 lw_cfg0) as [[Hok Hly] Hev]. cbn [cf_st cf_heap cf_held cf_refs] in *.
  destruct (copy_into_ok lw_inner lw_sys [(0, lw_buf)] [] [] lw_st2 h 0 lw_buf _ (Gpu 0) (iov_segs [iov_all lw_src]) Hok Hly
    (Permutation_refl _) lw_pool2) as (h1 & Hc & Hb & _ & Hout & _); [eapply put_src_evolves; [exact Hev|by apply lw_src_ok]|].
  pose proof Hc as Hdom. apply copy_only_in in Hdom as [[_ Hdom] _]; [|constructor; [done|constructor]|done].
  exists h1. split; [|split; [|intros x; by apply Hdom]].
  - etrans; [exact lw_run2|]. eapply rtc_l; [eapply (lstep_copy_in _ _ _ _ []); [done|exact lw_pool2|exact Hc]|].
    eapply rtc_l; [|apply rtc_refl]. eapply (lstep_publish_placed _ _ _ _ []); [|exact lw_publish]. done.
  - rewrite <- (lw_bytes h Hh). exact Hb.
Qed.

Lemma lw_run4 : ∃ h1, lw_steps (mkCfg lw_st0 h [] []) (mkCfg lw_st4 h1 [] [0%nat]) ∧
  bytes_at h1 lw_base 3 = [0; 1; 2] ∧ ∀ x, is_Some (h !! x) → is_Some (h1 !! x).
Proof.
  destruct lw_run3 as (h1 & Hs & Hb & Hd). exists h1. split; [|by split]. eapply rtc_r; [exact Hs|].
  exact (lstep_lookup lw_inner _ h1 [] [] _ _ _ _ _ _ lw_lookup).
Qed.
End Run.

Lemma local_ownership_witness : ∃ h1, local_ok [] [0%nat] lw_st4 ∧ bytes_at h1 lw_base 3 = [0; 1; 2].
Proof.
  destruct lw_memory as [h Hh]. destruct (lw_run4 h Hh) as (h1 & Hs & Hb & _). exists h1. split; [|exact Hb].
  exact (local_ownership lw_inner lw_st0 h _ lw_fresh (lw_layout h Hh) Hs).
Defined.

(** The object is removed while the reader holds its reference, which is dropped last. *)
Lemma local_no_leak_witness : ∃ p, ls_pools lw_st6 !! 0 = Some p ∧ lp_free p = [(0, lp_len p)] ∧ ls_arcs lw_st6 = ∅.
Proof.
  destruct lw_memory as [h Hh]. destruct (lw_run4 h Hh) as (h1 & Hs & _).
  assert (lw_steps (mkCfg lw_st0 h [] []) (mkCfg lw_st6 h1 [] [])) as Hs6.
  { etrans; [exact Hs|]. eapply rtc_l; [eapply lstep_remove, lw_remove|]. eapply rtc_l; [|apply rtc_refl].
    eapply (lstep_drop _ _ _ _ _ []); [reflexivity|exact lw_drop]. }
  exists (mkLocalPool 0 true lw_base ALIGN [(0, ALIGN)]). split; [by vm_compute|].
  apply (local_no_leak lw_inner lw_st0 h _ 0 _ lw_fresh (lw_layout h Hh) Hs6); by vm_compute.
Defined.

(** The object is gone and the caller has reused its source memory; the reader's bytes are the same. *)
Lemma lw_run5 h1 : lw_steps (mkCfg lw_st4 h1 [] [0%nat]) (mkCfg lw_st5 (<[4096 := 9]> h1) [] [0%nat]).
Proof.
  eapply rtc_l; [eapply lstep_remove, lw_remove|]. eapply rtc_l; [|apply rtc_refl]. apply lstep_caller.
  intros x (n & p & Hp & Hx). rewrite lookup_insert_ne; [done|]. intros <-.
  assert (ls_pools lw_st5 = {[0 := mkLocalPool 0 true lw_base ALIGN []]}) as Hpools by (by vm_compute). rewrite Hpools in Hp.
  apply lookup_singleton_Some in Hp as [<- <-]. simpl in Hx. unfold lw_base in Hx. lia.
Qed.

Lemma local_bytes_stable_witness :
  ∃ h1 : heap, ls_objects lw_st5 !! lw_key = None ∧ (<[4096 := 9]> h1) !! (lw_base + 2) = h1 !! (lw_base + 2).
Proof.
  destruct lw_memory as [h Hh]. destruct (lw_run4 h Hh) as (h1 & Hs & _). exists h1. split; [by vm_compute|].
  destruct (local_steps_ok lw_inner _ _ Hs (lw_cfg0 h Hh)) as [Hok _].
  refine (proj2 (local_bytes_stable lw_inner (mkCfg lw_st4 h1 [] [0%nat]) (mkCfg lw_st5 (<[4096 := 9]> h1) [] [0%nat]) 0 0 lw_buf 2
    (PinnedData 0 lw_buf) 1 (mkLocalPool 0 true lw_base ALIGN []) (lw_base + 2) Hok (lw_run5 h1) _ _ _ _)).
  - by vm_compute.
  - by vm_compute.
  - by vm_compute.
  - split; by vm_compute.
Defined.

Lemma lw_evolves4 : evolves lw_st0 lw_st4.
Proof. destruct lw_memory as [h Hh]. destruct (lw_run4 h Hh) as (h1 & Hs & _). apply (local_steps_ok lw_inner _ _ Hs (lw_cfg0 h Hh)). Qed.

Lemma local_get_stable_witness :
  ∃ h1 h2, ls_objects lw_st5 !! lw_key = None ∧
    get_copy lw_inner lw_sys lw_rep lw_get (Cpu 0) 2 (mkLocalWorld (<[4096 := 9]> h1) []) lw_st5 =
      Ret (mkLocalWorld h2 [], Ok (mkRpGet (mkLocation 0 (Cpu 0) Dram))) ∧
    segs_contents h2 [(8192, 2)] = [1; 2].
Proof.
  destruct lw_memory as [h Hh]. destruct (lw_run4 h Hh) as (h1 & Hs & Hb & Hdom).
  destruct (local_steps_ok lw_inner _ _ Hs (lw_cfg0 h Hh)) as [Hok Hev].
  destruct (local_steps_ok lw_inner _ _ (lw_run5 h1) Hok) as [_ Hev5].
  destruct (local_get_stable lw_inner lw_sys lw_rep lw_get (Cpu 0) 2 (mkCfg lw_st4 h1 [] [0%nat]) (mkCfg lw_st5 (<[4096 := 9]> h1) [] [0%nat])
    0 lw_buf 2 (mkLocalPool 0 true lw_base ALIGN []) Hok) as (h2 & Hc & Hcont).
  - left.
  - by vm_compute.
  - by vm_compute.
  - exact (lw_run5 h1).
  - left.
  - apply lw_dst_ok; [by etrans|]. intros x Hx. simpl. rewrite lookup_insert_is_Some'. right. by apply Hdom, (lw_dst_some h Hh).
  - by vm_compute.
  - apply lw_engine; left.
  - exists h1, h2. split; [by vm_compute|]. split; [exact Hc|]. rewrite lw_dst_segs in Hcont. rewrite Hcont. cbn [cf_heap].
    change (buf_addr _ _) with lw_base. change (buf_len lw_buf) with 3. rewrite Hb. reflexivity.
Defined.

(** The put and the get as whole operations, the source overwritten in between. *)
Lemma local_put_get_witness :
  ∃ h' st' h'' st'' from, local_get lw_inner lw_sys lw_key lw_get (mkLocalWorld (<[4096 := 9]> h') []) st' = Ret (mkLocalWorld h'' [], st'', Ok from) ∧
    segs_contents h'' [(8192, 2)] = [1; 2].
Proof.
  destruct lw_memory as [h Hh]. pose proof (lw_put_pre h Hh) as Hpre.
  destruct (local_put_single lw_inner lw_sys lw_key lw_op lw_ps lw_st0 h lw_st1 Hpre) as (h' & st' & Hput); [done|exact lw_claim|by vm_compute|].
  destruct (local_put_ok lw_inner lw_sys lw_key lw_op lw_st0 h Hpre) as [(h1 & st1 & rs & Hput1 & _ & Hok & Hly & _ & Hev & Hout & (o & Ho & Hsp) & _)|[? _]]; [|done].
  assert (h1 = h' ∧ st1 = st') as [-> ->] by (split; congruence).
  assert (keeps_pools (ls_pools st') h' (<[4096 := 9]> h')) as Hkeep.
  { intros x Hx. rewrite in_pool_evolves in Hx by exact Hev. apply (lw_pool_addr _ _ lw_pools0) in Hx.
    rewrite lookup_insert_ne; [done|]. intros <-. unfold lw_base in Hx. lia. }
  destruct (local_put_get lw_inner lw_sys lw_key lw_op lw_st0 h h' st' [Ok tt] 0 lw_ps lw_sys (mkCfg st' (<[4096 := 9]> h') [] []) o lw_get (Cpu 0) 2
    (local_put_pre_loose _ _ _ _ _ _ _ Hpre) Hput eq_refl eq_refl) as (h'' & st'' & from & Hg & Hc).
  - eapply rtc_l; [by apply lstep_caller|apply rtc_refl].
  - done.
  - exact Ho.
  - exact Hsp.
  - done.
  - by vm_compute.
  - apply lw_dst_ok; [exact Hev|]. intros x Hx. simpl. rewrite lookup_insert_is_Some'. right.
    rewrite Hout; [by apply (lw_dst_some h Hh)|]. intros Hp%(lw_pool_addr _ _ lw_pools0). unfold lw_base in Hp. lia.
  - by vm_compute.
  - intros numa Hn. simpl in Hn. rewrite evolves_pools in Hn by exact Hev. destruct Hn as [p [-> ->]%lw_pool_inv]. apply lw_engine; left.
  - exists h', st', h'', st'', from. split; [exact Hg|]. rewrite lw_dst_segs in Hc. rewrite Hc.
    change (ps_src lw_ps) with [iov_all lw_src]. rewrite (lw_bytes h Hh). reflexivity.
Defined.

(** ** Allocation in a full pool: the Cache object goes *)

Definition lw_st7 : LocalState := (ret_or (lw_st3, Err (no_space 0 5)) (alloc_or_evict 0 5 [2] lw_st3)).1.

Lemma alloc_or_evict_returns_witness :
  ∃ r, alloc_or_evict 0 5 [2] lw_st3 = Ret (lw_st7, r) ∧ alloc_post [] [] 0 5 [2] lw_st3 lw_st7 r ∧ is_ok r = true ∧ ls_objects lw_st7 = ∅.
Proof.
  destruct lw_memory as [h Hh]. destruct (lw_run3 h Hh) as (h1 & Hs & _).
  destruct (local_steps_ok lw_inner _ _ Hs (lw_cfg0 h Hh)) as [[Hok _] _].
  destruct (alloc_or_evict_returns [] [] 0 5 [2] lw_st3 (mkLocalPool 0 true lw_base ALIGN []) [(lw_key, 0)] Hok) as (st' & r & Ha & Hpost & _).
  - by vm_compute.
  - done.
  - done.
  - by vm_compute.
  - intros k i o Hin Hk. apply list_elem_of_singleton in Hin as [= -> ->].
    assert (length <$> (lo_slots <$> ls_objects lw_st3 !! lw_key) = Some 1%nat) as Hl by (by vm_compute). rewrite Hk in Hl. simpl in Hl.
    injection Hl as ->. simpl. lia.
  - assert (alloc_or_evict 0 5 [2] lw_st3 = Ret (lw_st7, Ok (mkPinnedBuf 0 ALIGN 5))) as Hc by (by vm_compute).
    rewrite Hc in Ha. injection Ha as <- <-. eexists. split; [exact Hc|]. split; [exact Hpost|]. split; [done|]. by vm_compute.
Defined.

(** ** Copies *)

Lemma zc_pre : copy_pre zc_heap zc_src 2 zc_dst 4.
Proof.
  constructor; [..|by vm_compute|done| |].
  - apply Forall_forall. intros s Hs. apply zc_ok, elem_of_app. by left.
  - apply Forall_forall. intros s Hs. apply zc_ok, elem_of_app. by right.
  - unfold U64_MAX. lia.
  - unfold U64_MAX. lia.
  - apply (bool_decide_unpack _). by vm_compute.
  - intros x Hx Hx'. assert (bool_decide (Forall (λ x, x ∉ addrs zc_dst) (addrs zc_src)) = true) as Hb by (by vm_compute).
    apply bool_decide_eq_true in Hb. rewrite Forall_forall in Hb. exact (Hb x Hx Hx').
Qed.

(** From the GPU to the GPU, through its stream. *)
Lemma copy_correct_witness :
  ∃ h', copy lw_inner lw_sys (Gpu 0) zc_src 2 (Gpu 0) zc_dst 4 zc_heap = Ret (h', [], Ok tt) ∧ segs_contents h' zc_dst = [12; 13; 14; 15].
Proof.
  destruct (copy_correct lw_inner lw_sys (Gpu 0) zc_src 2 (Gpu 0) zc_dst 4 zc_heap) as (h' & Hc & Hcont & _).
  - apply lw_engine; right; left.
  - exact zc_pre.
  - exists h'. split; [exact Hc|]. rewrite Hcont. by vm_compute.
Defined.

(** The GPU is not served: nothing is written. *)
Lemma copy_confined_witness :
  ∃ e, copy lw_inner lw_sys (Gpu 7) zc_src 2 (Cpu 0) zc_dst 4 zc_heap = Ret (zc_heap, [], Err e) ∧ only_in (addrs zc_dst) zc_heap zc_heap.
Proof.
  exists (gpu_not_served 7). assert (copy lw_inner lw_sys (Gpu 7) zc_src 2 (Cpu 0) zc_dst 4 zc_heap = Ret (zc_heap, [], Err (gpu_not_served 7))) as Hc by done.
  split; [exact Hc|]. refine (proj1 (copy_confined lw_inner lw_sys (Gpu 7) zc_src 2 (Cpu 0) zc_dst 4 zc_heap zc_heap [] _ _ _ Hc)).
  - repeat constructor; by vm_compute.
  - done.
Defined.

(** ** Construction *)

Definition lw_topo : Topology := mkTopology [0] {[0 := [0; 1; 2]]} {[0 := 0]}.

Lemma first_touch_covers_witness :
  ∃ h l h', first_touch lw_topo 0 ALIGN = Ret l ∧ length l = 3%nat ∧ length (mjoin l) = 512%nat ∧ touch_pages lw_base h (mjoin l) = Ret h'.
Proof.
  destruct lw_memory as [h Hh].
  destruct (first_touch_covers lw_topo 0 lw_base ALIGN h) as (l & h' & Hf & Hj & Ht & _).
  - done.
  - done.
  - done.
  - exact (lw_mapped h Hh lw_base ALIGN lw_in_pool).
  - exists h, l, h'. split; [exact Hf|]. split; [|split; [rewrite Hj; by vm_compute|exact Ht]].
    revert Hf. vm_compute. intros [= <-]. reflexivity.
Defined.

Definition lw_builder : LocalBuilder := lb_add_dram lb_new 0 1000.

Lemma local_build_wf_witness :
  ∃ inner st, local_build lw_sys (λ _ _, Some lw_base) (λ _, lw_topo) lw_builder = Ret (Ok (inner, st)) ∧
    local_fresh st ∧ queues_ok st ∧ ai_devices (li_info inner) = [Cpu 0; Gpu 0] ∧ pool_stats st = [(0, ALIGN, ALIGN)].
Proof.
  destruct (local_build_wf lw_sys (λ _ _, Some lw_base) (λ _, lw_topo) lw_builder) as (r & Hr & Hok).
  { constructor; [split; by vm_compute|constructor]. }
  destruct (local_build lw_sys (λ _ _, Some lw_base) (λ _, lw_topo) lw_builder) as [[[inner st]|e]| |] eqn:Hb; [|by revert Hb; vm_compute..].
  injection Hr as <-. destruct (Hok inner st eq_refl) as (Hf & Hq & _). exists inner, st.
  split; [done|]. split; [exact Hf|]. split; [exact Hq|]. revert Hb. vm_compute. intros [= <- <-]. by split.
Defined.
