(* ===== verification/LocalRefines.v ===== *)
(** * Histories of the CUDA backend

    The calls of [Local] as steps labelled with their answers; every history is
    one of the contract's, and what that gives the caller of an [Explicit] put. *)

From S2P Require Import Prelude HostMem Types Region Memory MemoryCopy MemoryOps Spec Pinned Text Numa Topology Cuda LocalCopy Local LocalInv LocalEvict LocalSections LocalTransfer LocalSteps LocalTheorems LocalRun LocalPut LocalRoundtrip LocalBuild Store MemoryAccess StoreTheorems LocalAccess LocalSpec LocalWitness.

Section Histories.
Context `{BuildProfile} (inner : LocalInner) (dr : CudaSys).

(** One call with its answer; [lc_memory] is the caller writing memory of its own
    and [lc_retire] the drop of a registered region. *)
Inductive loc_call : heap * LocalState → event → heap * LocalState → Prop :=
| lc_put h st key op h' st' r :
    put_guard inner dr op st h → local_put inner dr key op (mkLocalWorld h []) st = Ret (mkLocalWorld h' [], st', r) →
    loc_call (h, st) (EvPut key op r) (h', st')
| lc_publish h st key op st' r :
    Forall (iov_valid (ch st h)) (pub_src op) → local_publish key op st = Ret (st', r) →
    loc_call (h, st) (EvPublish key op r) (h, st')
| lc_get h st key op h' st' r :
    get_guard inner dr key op st h → local_get inner dr key op (mkLocalWorld h []) st = Ret (mkLocalWorld h' [], st', r) →
    loc_call (h, st) (EvGet key op r) (h', st')
| lc_stat h st keys : loc_call (h, st) (EvStat keys (local_stat inner st keys)) (h, st)
| lc_remove h st keys st' : local_remove st keys = Ret st' → loc_call (h, st) (EvRemove keys) (h, st')
| lc_remove_prefix h st prefix st' n :
    local_remove_prefix st prefix = Ret (st', n) → loc_call (h, st) (EvRemovePrefix prefix n) (h, st')
| lc_retire h st id st' : local_retire_region st id = Ret st' → loc_call (h, st) (EvRetire id) (h, st')
| lc_memory h st h' : keeps_pools (ls_pools st) h h' → loc_call (h, st) EvMemory (h', st).

Lemma loc_call_spec w e w' :
  loc_call w e w' → quiet w.2 w.1 →
  spec_step ReplicaFirst (ch w.2 w.1, labs w.2 w.1) e (ch w'.2 w'.1, labs w'.2 w'.1) ∧ quiet w'.2 w'.1.
Proof.
  intros Hc Hq. destruct Hc as [h st key op h' st' r Hg Hp|h st key op st' r Hv Hp|h st key op h' st' r Hg Hp|h st keys
    |h st keys st' Hr|h st prefix st' n Hr|h st id st' Hr|h st h' Hk]; simpl in *.
  - by eapply loc_sim_put.
  - by eapply loc_sim_publish.
  - destruct (loc_sim_get inner dr key op st h Hq Hg) as (h1 & st1 & r1 & Hp1 & Hs & Hq1 & _). rewrite Hp in Hp1. by simplify_eq.
  - split; [|done]. by apply loc_sim_stat.
  - by eapply loc_sim_remove.
  - by eapply loc_sim_remove_prefix.
  - by eapply loc_sim_retire.
  - by eapply loc_sim_memory.
Qed.

(** The simulation relation. *)
Definition loc_implements (w : heap * LocalState) (a : heap * AState) : Prop :=
  quiet w.2 w.1 ∧ a = (ch w.2 w.1, labs w.2 w.1).

Lemma loc_runs_spec w a tr w' :
  loc_implements w a → runs loc_call w tr w' → ∃ a', runs (spec_step ReplicaFirst) a tr a' ∧ loc_implements w' a'.
Proof.
  apply simulation. intros c a0 e c' (Hq & ->) Hs. destruct (loc_call_spec _ _ _ Hs Hq) as (Hs' & Hq'). eexists. split; [exact Hs'|]. by split.
Qed.

Lemma quiet_fresh st h : local_fresh st → queues_ok st → layout_ok (ls_pools st) h → quiet st h.
Proof.
  intros Hf Hqs Hly. constructor; [by apply fresh_ok|done|by eapply queues_loose|]. destruct Hf as [-> _ _]. intros k o. by rewrite lookup_empty.
Qed.

Lemma fresh_implements st h :
  local_fresh st → queues_ok st → layout_ok (ls_pools st) h → loc_implements (h, st) (ch st h, ∅).
Proof.
  intros Hf Hqs Hly. split; simpl; [by apply quiet_fresh|]. f_equal. unfold labs. destruct Hf as [-> _ _]. by rewrite fmap_empty.
Qed.

(** Calls within the guards answer. *)
Lemma loc_put_answers key op st h :
  quiet st h → put_guard inner dr op st h →
  (∃ r w', loc_call (h, st) (EvPut key op r) w') ∨
  local_put inner dr key op (mkLocalWorld h []) st = Panicked ∧ ¬ no_stale_entry key op st.
Proof.
  intros Hq Hg. destruct (OpPut_validate op) as [[]|e] eqn:Hval.
  2:{ left. exists (Err e), (h, st). apply lc_put; [done|]. unfold local_put. by rewrite Hval. }
  destruct (ls_objects st !! key) as [ob|] eqn:Hob; [destruct (decide (lo_spec ob = OpPut_spec op)) as [Heq|Hne]|].
  2:{ left. eexists _, (h, st). apply lc_put; [done|]. unfold local_put, claim. by rewrite Hval, Hob, decide_True. }
  all: assert (∀ o, ls_objects st !! key = Some o → lo_spec o = OpPut_spec op) as Hsp by (intros o Ho; congruence).
  all: destruct (local_put_ok inner dr key op st h (quiet_put_pre inner dr true key op st h Hq Hg Hval Hsp ltac:(done)))
    as [(h' & st' & rs & Hput & _)|[_ Hput]]; [left; exists (Ok rs), (h', st'); by apply lc_put|right; split; [done|]].
  all: intros Hns; destruct (local_put_ok inner dr key op st h (quiet_put_pre inner dr false key op st h Hq Hg Hval Hsp (λ _, Hns)))
    as [(h' & st' & rs & Hput' & _)|[? _]]; [congruence|done].
Qed.

Lemma loc_get_answers key op st h : quiet st h → get_guard inner dr key op st h → ∃ r w', loc_call (h, st) (EvGet key op r) w'.
Proof.
  intros Hq Hg. destruct (loc_sim_get inner dr key op st h Hq Hg) as (h' & st' & r & Hp & _). exists r, (h', st'). by apply lc_get.
Qed.

Lemma loc_remove_answers keys st h : quiet st h → ∃ w', loc_call (h, st) (EvRemove keys) w'.
Proof.
  intros Hq. destruct (local_remove_ok [] [] st keys (qt_ok _ _ Hq)) as (st' & Hr & _). exists (h, st'). by apply lc_remove.
Qed.

Lemma loc_retire_answers id st h : quiet st h → ∃ w', loc_call (h, st) (EvRetire id) w'.
Proof.
  intros Hq. destruct (local_retire_region_ok [] [] st id (qt_ok _ _ Hq)) as (st' & Hr & _). exists (h, st'). by apply lc_retire.
Qed.

(** A slot a put has just filled, abstractly. *)
Lemma loc_put_holds h st key op h' st' rs j ps :
  quiet st h → loc_call (h, st) (EvPut key op (Ok rs)) (h', st') → rs !! j = Some (Ok tt) → op_slots op !! j = Some ps →
  holds (labs st' h') key (OpPut_spec op) j (contents (ch st h) (ps_src ps)) ∧ unlent (labs st' h') key j.
Proof.
  intros Hq Hput. destruct (loc_call_spec _ _ _ Hput Hq) as (Hstep & _). by eapply spec_put_holds.
Qed.

(** With nothing lent to the slot, the guard of a get is about its destination. *)
Lemma unlent_get_guard key g st h :
  unlent (labs st h) key (Z.to_nat (get_slot g)) → Forall (iov_valid (ch st h)) (get_dst g) → non_overlapping (get_dst g) →
  0 <= get_src_offset g <= U64_MAX →
  (∀ d n numa, OpGet_validate g = Ok (d, n) → is_Some (ls_pools st !! numa) → engine_ok inner dr (Cpu numa) d) →
  get_guard inner dr key g st h.
Proof.
  intros Hu Hd Hno Hoff He. constructor; try done. intros d n o s l _ Ho Hs Hl. rewrite (Hu o s Ho Hs) in Hl. by apply elem_of_nil in Hl.
Qed.

Lemma loc_durable h1 st1 key op h2 st2 rs j ps tr h3 st3 g d n :
  quiet st1 h1 → loc_call (h1, st1) (EvPut key op (Ok rs)) (h2, st2) →
  op_retention op = Explicit → rs !! j = Some (Ok tt) → op_slots op !! j = Some ps →
  runs loc_call (h2, st2) tr (h3, st3) → Forall (keeps key) tr → Forall (no_publish key) tr →
  Forall (iov_valid (ch st3 h3)) (get_dst g) → non_overlapping (get_dst g) → get_slot g = Z.of_nat j →
  OpGet_validate g = Ok (d, n) → 0 <= get_src_offset g → get_src_offset g + n <= Z.min (spec_len (ps_spec ps)) U64_MAX →
  (∀ numa, is_Some (ls_pools st3 !! numa) → engine_ok inner dr (Cpu numa) d) →
  ∃ h4 st4 rp, local_get inner dr key g (mkLocalWorld h3 []) st3 = Ret (mkLocalWorld h4 [], st4, Ok rp) ∧
    contents (ch st4 h4) (get_dst g) = take (Z.to_nat n) (drop (Z.to_nat (get_src_offset g)) (contents (ch st1 h1) (ps_src ps))).
Proof.
  intros Hq Hput Hexp Hrj Hps Hr Hk Hp Hdst Hno Hslot Hv Hoff Hrange He.
  destruct (loc_put_holds _ _ _ _ _ _ _ _ _ Hq Hput Hrj Hps) as [Hh Hu]. destruct (loc_call_spec _ _ _ Hput Hq) as (_ & Hq2). simpl in *.
  destruct (loc_runs_spec (h2, st2) (ch st2 h2, labs st2 h2) _ _ ltac:(by split) Hr) as (a3 & Hsr & Hq3 & ->). simpl in *.
  pose proof (spec_runs_holds _ _ _ _ _ (OpPut_spec op) _ _ Hexp Hsr Hk Hh) as Hh3.
  pose proof (spec_runs_unlent _ _ _ _ _ _ Hsr Hp Hu) as Hu3. simpl in Hh3, Hu3. pose proof (validated_nonneg _ _ _ _ Hdst Hv) as Hn.
  assert (get_guard inner dr key g st3 h3) as Hg.
  { apply unlent_get_guard; try done; [by rewrite Hslot, Nat2Z.id|lia|]. intros d' n' numa Hv'. rewrite Hv in Hv'. injection Hv' as <- <-. apply He. }
  destruct (loc_sim_get inner dr key g st3 h3 Hq3 Hg) as (h4 & st4 & r & Hget & Hstep & _).
  assert (labs st4 h4 = labs st3 h3) as Hlab by (by inversion Hstep). rewrite Hlab in Hstep.
  destruct (spec_get_holds _ (ch st3 h3) (labs st3 h3) key (OpPut_spec op) (ps_spec ps) j _ g r _ d n Hh3 Hu3 Hstep) as (rp & -> & Hc); try done.
  - simpl. by rewrite list_lookup_fmap, Hps.
  - exists h4, st4, rp. split; [done|by apply Hc].
Qed.
End Histories.

(** C2: Every history of a CUDA backend is one the contract allows. For any
    sequence of calls that return on a backend just built (puts, publishes, gets,
    stats, removals, region drops, and writes of the caller to its own memory),
    the same calls and answers are a run of [Spec.spec_step], where the memory is
    the caller's and a slot's bytes are what its pinned replicas hold; a get looks
    for a replica before it checks its range, and a publish into a missing slot
    index is [InvalidInput]. The calls are those within the guards: a put has
    slots of at least one byte whose sources are mapped, outside the pools and
    reached by the driver; a publish has mapped sources outside the pools; a get
    has mapped destinations that do not overlap, the driver accepts its copies,
    and memory lent to the slot is mapped and apart from the pools and the
    destination. Within the guards gets, removals and region drops answer, and so
    does a put, or it panics, which happens only when a queue holds a stale entry
    or would once the put has created its object. *)
Theorem local_refines_spec `{BuildProfile} inner dr st h tr h' st' :
  local_fresh st → queues_ok st → layout_ok (ls_pools st) h → runs (loc_call inner dr) (h, st) tr (h', st') →
  runs (spec_step ReplicaFirst) (ch st h, ∅) tr (ch st' h', labs st' h') ∧ quiet st' h' ∧
  (∀ key op, put_guard inner dr op st' h' → (∃ r w, loc_call inner dr (h', st') (EvPut key op r) w) ∨
     local_put inner dr key op (mkLocalWorld h' []) st' = Panicked ∧ ¬ no_stale_entry key op st') ∧
  (∀ key op, get_guard inner dr key op st' h' → ∃ r w, loc_call inner dr (h', st') (EvGet key op r) w) ∧
  (∀ keys, ∃ w, loc_call inner dr (h', st') (EvRemove keys) w) ∧ ∀ id, ∃ w, loc_call inner dr (h', st') (EvRetire id) w.
Proof.
  intros Hf Hqs Hly Hr. destruct (loc_runs_spec inner dr _ _ _ _ (fresh_implements st h Hf Hqs Hly) Hr) as (a' & Hruns & Hq & ->). simpl in *.
  split_and!; [done|done|..]; intros; [by apply loc_put_answers|by apply loc_get_answers|by apply loc_remove_answers|by apply loc_retire_answers].
Qed.

(** C7: What [Explicit] retention means on the CUDA backend: after a put of an
    [Explicit] object has accepted a slot, and after any further calls that return
    within the guards of [loc_call] (slots of at least one byte, mapped memory, a
    driver that accepts the copies; puts that fill the pinned pools and evict,
    also with stale queue entries, region drops, writes of the caller to its own
    memory, ...) that neither remove the key nor publish into it, an in-range get
    of the slot into mapped destinations that do not overlap, which the driver can
    reach from the pools, returns and delivers the bytes that were put. A put that
    panics on a stale queue entry ends the history. *)
Theorem local_explicit_durable `{BuildProfile} inner dr st0 h0 tr0 h1 st1 key op h2 st2 rs j ps tr h3 st3 g d n :
  local_fresh st0 → queues_ok st0 → layout_ok (ls_pools st0) h0 → runs (loc_call inner dr) (h0, st0) tr0 (h1, st1) →
  loc_call inner dr (h1, st1) (EvPut key op (Ok rs)) (h2, st2) →
  op_retention op = Explicit → rs !! j = Some (Ok tt) → op_slots op !! j = Some ps →
  runs (loc_call inner dr) (h2, st2) tr (h3, st3) → Forall (keeps key) tr → Forall (no_publish key) tr →
  Forall (iov_valid (ch st3 h3)) (get_dst g) → non_overlapping (get_dst g) → get_slot g = Z.of_nat j →
  OpGet_validate g = Ok (d, n) → 0 <= get_src_offset g → get_src_offset g + n <= Z.min (spec_len (ps_spec ps)) U64_MAX →
  (∀ numa, is_Some (ls_pools st3 !! numa) → engine_ok inner dr (Cpu numa) d) →
  ∃ h4 st4 rp, local_get inner dr key g (mkLocalWorld h3 []) st3 = Ret (mkLocalWorld h4 [], st4, Ok rp) ∧
    contents (ch st4 h4) (get_dst g) = take (Z.to_nat n) (drop (Z.to_nat (get_src_offset g)) (contents (ch st1 h1) (ps_src ps))).
Proof.
  intros Hf Hqs Hly Hr. destruct (loc_runs_spec inner dr _ _ _ _ (fresh_implements st0 h0 Hf Hqs Hly) Hr) as (a' & _ & Hq & _).
  by apply loc_durable.
Qed.

(** ** A concrete history *)

#[local] Existing Instance lw_profile.

Definition lr_op : OpPut := with_retention lw_op Explicit.
Abbreviation lr_call := (loc_call lw_inner lw_sys).

Section Concrete.
Context (h : heap) (Hh : ∀ x, x ∈ lw_addrs → h !! x = Some (x mod 256)).

Lemma lr_queues : queues_ok lw_st0.
Proof. apply (pr_queues _ _ _ _ _ _ _ (lw_put_pre h Hh)). Qed.

Lemma lr_quiet : quiet lw_st0 h.
Proof. apply quiet_fresh; [apply lw_fresh|apply lr_queues|by apply lw_layout]. Qed.

Lemma lr_slots : Forall (put_slot_pre lw_inner lw_sys lw_st0 h) (op_slots lr_op).
Proof. exact (pr_slots _ _ _ _ _ _ _ (lw_put_pre h Hh)). Qed.

Lemma lr_guard : put_guard lw_inner lw_sys lr_op lw_st0 h.
Proof. apply lr_slots. Qed.

Lemma lr_no_stale : no_stale_entry lw_key lr_op lw_st0.
Proof. intros d q ->%lw_fifo_inv. split; [by intros k i o ?%elem_of_nil|by intros i _ ?%elem_of_nil]. Qed.

Lemma lr_put : ∃ h2 st2, lr_call (h, lw_st0) (EvPut lw_key lr_op (Ok [Ok tt])) (h2, st2) ∧ evolves lw_st0 st2 ∧ queues_ok st2 ∧
  outside_same (ls_pools lw_st0) h h2 ∧ (∃ o, ls_objects st2 !! lw_key = Some o ∧ lo_spec o = OpPut_spec lr_op).
Proof.
  pose proof (quiet_put_pre _ _ false lw_key lr_op lw_st0 h lr_quiet lr_guard eq_refl ltac:(intros o; simpl; by rewrite lookup_empty) (λ _, lr_no_stale)) as Hpre.
  destruct (local_put_single lw_inner lw_sys lw_key lr_op lw_ps lw_st0 h
    (match claim lw_key (OpPut_spec lr_op) lw_st0 with Ok (st, _) => st | Err _ => lw_st0 end) Hpre)
    as (h2 & st2 & Hput); [done|by vm_compute|by vm_compute|].
  destruct (local_put_ok lw_inner lw_sys lw_key lr_op lw_st0 h Hpre) as [(h1 & st1 & rs1 & Hput1 & _ & _ & _ & Hqs & Hev & Hout & Ho & _)|[? _]]; [|done].
  rewrite Hput in Hput1. simplify_eq. exists h1, st1. split; [apply lc_put; [apply lr_guard|done]|]. done.
Qed.

(** The caller overwrites its source and puts again. *)
Lemma lr_again h2 st2 : quiet st2 h2 → queues_ok st2 → evolves lw_st0 st2 → outside_same (ls_pools lw_st0) h h2 →
  (∃ o, ls_objects st2 !! lw_key = Some o ∧ lo_spec o = OpPut_spec lr_op) →
  ∃ r h4 st4, runs lr_call (h2, st2) [EvMemory; EvPut lw_key lr_op r] (h4, st4) ∧ evolves lw_st0 st4 ∧
    outside_same (ls_pools lw_st0) (<[4097 := 99]> h) h4.
Proof.
  intros Hq Hqs Hev Hout (o & Ho & Hsp).
  assert (¬ in_pool (ls_pools lw_st0) 4097) as Hnp by (intros Hp%(lw_pool_addr _ _ lw_pools0); unfold lw_base in Hp; lia).
  assert (keeps_pools (ls_pools st2) h2 (<[4097 := 99]> h2)) as Hkeep.
  { intros x Hx. rewrite lookup_insert_ne; [done|]. intros <-. apply Hnp. by rewrite <- (in_pool_evolves _ _ _ Hev). }
  pose proof (lc_memory lw_inner lw_sys h2 st2 _ Hkeep) as Hm. destruct (loc_call_spec _ _ _ _ _ Hm Hq) as [_ Hq3]. simpl in Hq3.
  assert (put_guard lw_inner lw_sys lr_op st2 (<[4097 := 99]> h2)) as Hg.
  { eapply Forall_impl; [apply lr_slots|]. intros ps [Hd Hl Hsrc]. constructor; [done|done|].
    intros d Hdev. destruct (put_src_evolves _ _ _ _ h2 _ _ _ Hev (put_src_outside _ _ _ _ _ _ _ _ Hout (Hsrc d Hdev))) as [Hs1 Hs2 Hs3 Hs4].
    constructor; [|done|done|done]. eapply Forall_impl; [exact Hs1|]. intros s (? & ? & ? & Hmap). do 3 (split; [done|]).
    intros x Hx. rewrite lookup_insert_is_Some'. right. by apply Hmap. }
  destruct (local_put_ok (stale := false) lw_inner lw_sys lw_key lr_op st2 (<[4097 := 99]> h2))
    as [(h4 & st4 & rs & Hput & _ & _ & _ & _ & Hev4 & Hout4 & _)|[? _]]; [|  |done].
  { apply quiet_put_pre; [done|done|done|congruence|]. intros _ d q Hd. split; [by apply (proj2 Hqs eq_refl d q)|congruence]. }
  exists (Ok rs), h4, st4. split; [|split; [by etrans|]].
  - econstructor; [exact Hm|]. econstructor; [by apply lc_put|constructor].
  - intros x Hx. rewrite Hout4 by (by rewrite (in_pool_evolves _ _ _ Hev)). rewrite !lookup_insert. case_decide; [done|by apply Hout].
Qed.

Lemma lr_source : contents (ch lw_st0 h) (ps_src lw_ps) = [0; 1; 2].
Proof. unfold ch. rewrite caller_contents by apply (lw_src_ok h Hh). apply (lw_bytes h Hh). Qed.

Lemma lr_dst h4 st4 : evolves lw_st0 st4 → outside_same (ls_pools lw_st0) (<[4097 := 99]> h) h4 →
  Forall (iov_valid (ch st4 h4)) (get_dst lw_get).
Proof.
  intros Hev Hout. constructor; [|constructor]. split; [|done]. split; [done|]. split; [done|]. split; [done|]. intros x Hx.
  assert (¬ in_pool (ls_pools lw_st0) x) as Hn by (intros Hp%(lw_pool_addr _ _ lw_pools0); unfold lw_base in Hp; simpl in Hx; lia).
  assert (is_Some (h !! x)) as [b Hb] by (apply (lw_dst_some h Hh); simpl in Hx; lia). exists b. unfold ch. apply caller_heap_Some.
  rewrite (in_pool_evolves _ _ _ Hev), Hout, lookup_insert_ne by (done || (simpl in Hx; lia)). done.
Qed.

Lemma lr_engine st4 d n numa : evolves lw_st0 st4 → OpGet_validate lw_get = Ok (d, n) → is_Some (ls_pools st4 !! numa) → engine_ok lw_inner lw_sys (Cpu numa) d.
Proof.
  intros Hev [= <- <-] [p Hn]. pose proof (ev_pools _ _ Hev numa) as He. rewrite Hn in He. simpl in He. symmetry in He.
  apply fmap_Some in He as (p0 & [-> _]%lw_pool_inv & _). apply lw_engine; left.
Qed.
End Concrete.

Lemma local_refines_spec_witness :
  ∃ h h' st', runs lr_call (h, lw_st0) [EvPut lw_key lr_op (Ok [Ok tt])] (h', st') ∧
    runs (spec_step ReplicaFirst) (ch lw_st0 h, ∅) [EvPut lw_key lr_op (Ok [Ok tt])] (ch st' h', labs st' h') ∧ quiet st' h'.
Proof.
  destruct lw_memory as [h Hh]. destruct (lr_put h Hh) as (h2 & st2 & Hput & _). exists h, h2, st2.
  assert (runs lr_call (h, lw_st0) [EvPut lw_key lr_op (Ok [Ok tt])] (h2, st2)) as Hr by (econstructor; [exact Hput|constructor]).
  destruct (local_refines_spec lw_inner lw_sys lw_st0 h _ h2 st2 lw_fresh (lr_queues h Hh) (lw_layout h Hh) Hr) as (Hs & Hq & _).
  by split_and!.
Defined.

(** The bytes are still there after the source was overwritten and put again. *)
Lemma local_explicit_durable_witness :
  ∃ h3 st3 h4 st4 rp, local_get lw_inner lw_sys lw_key lw_get (mkLocalWorld h3 []) st3 = Ret (mkLocalWorld h4 [], st4, Ok rp) ∧
    contents (ch st4 h4) (get_dst lw_get) = [1; 2] ∧ h3 !! 4097 = Some 99.
Proof.
  destruct lw_memory as [h Hh]. destruct (lr_put h Hh) as (h2 & st2 & Hput & Hev & Hqs & Hout & Ho).
  destruct (loc_call_spec _ _ _ _ _ Hput (lr_quiet h Hh)) as [_ Hq2].
  destruct (lr_again h Hh h2 st2 Hq2 Hqs Hev Hout Ho) as (r & h3 & st3 & Hr & Hev3 & Hout3).
  destruct (local_explicit_durable lw_inner lw_sys lw_st0 h [] h lw_st0 lw_key lr_op h2 st2 [Ok tt] 0 lw_ps [EvMemory; EvPut lw_key lr_op r] h3 st3
    lw_get (Cpu 0) 2 lw_fresh (lr_queues h Hh) (lw_layout h Hh)) as (h4 & st4 & rp & Hg & Hc);
    [constructor|exact Hput|done|done|done|exact Hr|by repeat constructor|by repeat constructor|by apply (lr_dst h Hh)|by repeat constructor
    |done|done|done|by vm_compute| |].
  - intros numa Hn. by eapply lr_engine.
  - exists h3, st3, h4, st4, rp. split; [exact Hg|]. split; [rewrite Hc, (lr_source h Hh); done|]. rewrite Hout3; [by rewrite lookup_insert_eq|].
    intros Hp%(lw_pool_addr _ _ lw_pools0). unfold lw_base in Hp. lia.
Defined.
