(* ===== verification/FanOutLocal.v ===== *)
(** * The fan-out over the CUDA backend

    [Local] keeps what the threads of the weights example rely on: a shard put
    once, and lent again by a GPU that has it, is served to every GPU. *)

From S2P Require Import Prelude HostMem Types Region Memory MemoryCopy MemoryOps Spec Pinned Text Numa Topology Cuda LocalCopy Local LocalInv LocalEvict LocalSections LocalTransfer LocalSteps LocalTheorems LocalRun LocalPut LocalRoundtrip LocalBuild Store MemoryAccess StoreTheorems LocalAccess LocalSpec LocalWitness LocalRefines BenchBlocks CpuBench CpuBenchRun GpuBenchRun Floats WeightsFanout FanOut.

Section Host.
Context `{BuildProfile} (inner : LocalInner) (dr : CudaSys).
(** The driver's answers depend on memory; [junk] is what new memory holds. *)
Context (cs : heap → CudaSys) (junk : u8).

Definition fl_store : Store LocalSystem := from_servicer (local_servicer inner dr).
Definition fl_mem (y : LocalSystem) : heap := Local.w_heap (sy_world y).
Definition fl_cs (y : LocalSystem) : CudaSys := cs (fl_mem y).
Definition fl_set (y : LocalSystem) (h : heap) : LocalSystem := sy_with y (mkLocalWorld h (Local.w_pending (sy_world y))) (sy_state y).
Definition fl_grow (ptr : u64) (len : usize) (y : LocalSystem) : LocalSystem := fl_set y (map_range (fl_mem y) ptr len junk).

(** The guard of a region goes and what was lent from it is retired. *)
Definition fl_drop (id : u64) (y : LocalSystem) : outcome LocalSystem :=
  st ← local_retire_region (sy_state y) id;
  Ret (mkLocalSystem (sy_world y) st (List.filter (λ g, negb (rg_id g =? id)) (sy_guards y)) (sy_counter y)).

Context (gpus : list CudaGpu) (gpu_ids : list u16) (key : bytes) (slots : nat) (slot_bytes : usize) (content : nat → bytes).
(** Memory in which [n] more buffers can be allocated. *)
Context (room : nat → heap → Prop).

Record shard_env : Prop := mkShardEnv {
  en_gpu g : g ∈ gpu_ids → is_Some (gpus_get gpus g) ∧ is_Some (gpus_get (li_gpus inner) g);
  en_cap : gpu_memory (ai_capability (li_info inner)) = true ∧ cap_publish (ai_capability (li_info inner)) = true ∧
    limit_ok (max_iov (ai_capability (li_info inner))) 1;
  en_bytes : 0 < slot_bytes <= U64_MAX;
  en_slots : Z.of_nat slots <= 2 ^ 32;
  en_content i : (i < slots)%nat → Z.of_nat (length (content i)) = slot_bytes;
  en_driver h : driver_ok (cs h);
  en_alloc n h c : room (S n) h → ∃ p, device_alloc (cs h) c slot_bytes = Ok p ∧ 0 <= p ∧ p + slot_bytes <= U64_MAX ∧
    (∀ x, p <= x < p + slot_bytes → h !! x = None) ∧ room n (map_range h p slot_bytes junk);
  en_room n h h' : (∀ x, is_Some (h' !! x) ↔ is_Some (h !! x)) → room n h → room n h';
}.

(** Lent memory with the bytes of slot [i]. *)
Record lent_ready (st : LocalState) (h : heap) (i : nat) (l : Lent) : Prop := mkLentReady {
  lr_segs : Forall (seg_ok h) (le_segs l);
  lr_outside x : x ∈ addrs (le_segs l) → ¬ in_pool (ls_pools st) x;
  lr_bytes : segs_contents h (le_segs l) = content i;
  lr_engine g : g ∈ gpu_ids → engine_ok inner dr (le_device l) (Gpu g);
}.

Definition slot_ready (st : LocalState) (h : heap) (i : nat) : Prop :=
  ∃ o s sp, labs st h !! key = Some o ∧ ao_slots o !! i = Some s ∧ spec_slots (ao_spec o) !! i = Some sp ∧ spec_len sp = slot_bytes ∧
    as_bytes s = Some (content i) ∧ Forall (lent_ready st h i) (as_lent s).

Record fl_inv (n : nat) (y : LocalSystem) : Prop := mkFlInv {
  fi_pending : Local.w_pending (sy_world y) = [];
  fi_quiet : quiet (sy_state y) (fl_mem y);
  fi_engine numa g : is_Some (ls_pools (sy_state y) !! numa) → g ∈ gpu_ids → engine_ok inner dr (Cpu numa) (Gpu g);
  fi_slots i : (i < slots)%nat → slot_ready (sy_state y) (fl_mem y) i;
  fi_room : room n (fl_mem y);
}.

(** A registered buffer in the caller's memory. *)
Record fl_buf (y : LocalSystem) (b : GpuBuf) : Prop := mkFlBuf {
  fb_len : gb_len b = slot_bytes;
  fb_region : ∃ id, gb_region b = mkRegion id (gb_ptr b) (gb_len b) (Gpu (gb_gpu b));
  fb_range : 0 <= gb_ptr b ∧ gb_ptr b + gb_len b <= U64_MAX;
  fb_mapped : mapped (ch (sy_state y) (fl_mem y)) (gb_ptr b) (gb_len b);
}.

(** A destination: a buffer of a GPU of the fan-out, apart from what is lent. *)
Record fl_usable (y : LocalSystem) (b : GpuBuf) : Prop := mkFlUsable {
  fu_gpu : gb_gpu b ∈ gpu_ids;
  fu_buf : fl_buf y b;
  fu_apart i o s l x : (i < slots)%nat → labs (sy_state y) (fl_mem y) !! key = Some o → ao_slots o !! i = Some s → l ∈ as_lent s → x ∈ addrs (le_segs l) →
    ¬ buf_range b x;
}.

Lemma segs_same h h' segs :
  Forall (seg_ok h) segs → (∀ x, x ∈ addrs segs → h' !! x = h !! x) → Forall (seg_ok h') segs ∧ segs_contents h' segs = segs_contents h segs.
Proof.
  intros Hs Hx. assert (Forall (seg_ok h') segs) as Hs'.
  { rewrite Forall_forall in Hs |- *. intros s Hin. destruct (Hs s Hin) as (? & ? & ? & Hm). do 3 (split; [done|]).
    intros x Hr. rewrite Hx; [by apply Hm|by eapply elem_of_addrs]. }
  split; [done|]. apply (inj (fmap Some)). rewrite !segs_contents_addrs by done. apply list_fmap_ext. intros i x Hi. apply Hx.
  by eapply list_elem_of_lookup_2.
Qed.

Lemma lent_keep st st' h h' i l :
  lent_ready st h i l → evolves st st' → (∀ x, x ∈ addrs (le_segs l) → h' !! x = h !! x) → lent_ready st' h' i l.
Proof.
  intros [Hs Ho Hb He] Hev Hx. destruct (segs_same h h' (le_segs l) Hs Hx) as [Hs' Hc]. constructor; [done| |congruence|done].
  intros x Hin. rewrite (in_pool_evolves _ _ _ Hev). by apply Ho.
Qed.

(** The slots stay ready when the contract's state does and what is lent is not written. *)
Lemma ready_keep st st' h h' i :
  slot_ready st h i → evolves st st' → labs st' h' = labs st h →
  (∀ o s l x, labs st h !! key = Some o → ao_slots o !! i = Some s → l ∈ as_lent s → x ∈ addrs (le_segs l) → h' !! x = h !! x) →
  slot_ready st' h' i.
Proof.
  intros (o & s & sp & Ho & Hs & Hsp & Hl & Hb & Hall) Hev Hlab Hx. exists o, s, sp. rewrite Hlab. split_and!; try done.
  rewrite Forall_forall in Hall |- *. intros l Hin. eapply lent_keep; [by apply Hall|done|]. intros x. by eapply Hx.
Qed.

(** What is lent is mapped. *)
Lemma lent_mapped st h i o s l x :
  slot_ready st h i → labs st h !! key = Some o → ao_slots o !! i = Some s → l ∈ as_lent s → x ∈ addrs (le_segs l) → is_Some (h !! x).
Proof.
  intros (o' & s' & sp & Ho & Hs & _ & _ & _ & Hall) Ho' Hs' Hl Hx. simplify_eq. rewrite Forall_forall in Hall.
  destruct (Hall l Hl) as [Hsegs _ _ _]. apply elem_of_addrs_inv in Hx as (sg & Hin & Hr). rewrite Forall_forall in Hsegs.
  destruct (Hsegs sg Hin) as (_ & _ & _ & Hm). by apply Hm.
Qed.

Lemma caller_mapped pools h x : is_Some (caller_heap pools h !! x) → is_Some (h !! x).
Proof. intros [v [Hv _]%caller_heap_Some]. by eexists. Qed.

(** ** A new buffer *)

Lemma fl_new n y g :
  shard_env → fl_inv (S n) y → g ∈ gpu_ids →
  ∃ y' b, gpubuf_new fl_store (fl_cs y) fl_grow gpus g slot_bytes y = Ret (y', b) ∧ fl_inv n y' ∧ fl_usable y' b ∧
    (∀ x, buf_range b x → fl_mem y !! x = None) ∧ same_outside b (fl_mem y) (fl_mem y') ∧ ∀ c, fl_usable y c → fl_usable y' c.
Proof.
  intros He [Hp Hq Hen Hsl Hroom] Hg. destruct (en_gpu He g Hg) as [[gp Hgp] [gq Hgq]].
  destruct (en_alloc He n (fl_mem y) gp Hroom) as (p & Ha & Hp0 & Hmax & Hfresh & Hroom').
  set (h' := map_range (fl_mem y) p slot_bytes junk).
  assert (∀ x, ¬ (p <= x < p + slot_bytes) → h' !! x = fl_mem y !! x) as Hout.
  { intros x Hx. unfold h'. rewrite map_range_lookup, decide_False; [done|]. exact Hx. }
  assert (∀ x, is_Some (fl_mem y !! x) → h' !! x = fl_mem y !! x) as Hsame.
  { intros x [v Hv]. apply Hout. intros Hx. by rewrite (Hfresh x Hx) in Hv. }
  assert (∀ x, p <= x < p + slot_bytes → ¬ in_pool (ls_pools (sy_state y)) x) as Hnp.
  { intros x Hx (numa & pl & Hpl & Hr). destruct (ly_mapped _ _ (qt_layout _ _ Hq) numa pl Hpl x Hr) as [v Hv]. by rewrite (Hfresh x Hx) in Hv. }
  assert (keeps_pools (ls_pools (sy_state y)) (fl_mem y) h') as Hkeep by (intros x Hx; apply Hout; intros Hr; by eapply Hnp).
  destruct (loc_sim_memory inner (sy_state y) (fl_mem y) h' Hq Hkeep) as [Hstep Hq'].
  assert (labs (sy_state y) h' = labs (sy_state y) (fl_mem y)) as Hlab by (by inversion Hstep).
  set (b := mkGpuBuf g p slot_bytes (with_id (next_id (sy_counter y)).1 p slot_bytes (Gpu g))).
  set (y' := mkLocalSystem (mkLocalWorld h' (Local.w_pending (sy_world y))) (sy_state y)
    (mkRegionGuard (next_id (sy_counter y)).1 None :: sy_guards y) (next_id (sy_counter y)).2). exists y', b.
  split.
  { unfold gpubuf_new. rewrite Hgp. cbn [unwrap mbind outcome_bind]. unfold fl_cs. rewrite Ha. cbn [expect mbind outcome_bind].
    unfold store_register. cbn [is_gpu fl_store from_servicer store_info local_servicer info_dyn andb]. rewrite (proj1 (en_cap He)). cbn [negb].
    cbn [srv register_dyn fl_store from_servicer local_servicer]. unfold loc_register, local_register, gpu. rewrite Hgq.
    change (sy_counter (fl_grow p slot_bytes y)) with (sy_counter y). unfold y', b. destruct (next_id (sy_counter y)) as [id c]. done. }
  split.
  { constructor; [done|done|done| |done]. intros i Hi. eapply ready_keep; [by apply Hsl|done|done|].
    intros o s l x Ho Hs Hl Hx. apply Hsame. by eapply lent_mapped; [apply (Hsl i Hi)|..]. }
  split.
  { constructor; [done|constructor; [done|by eexists|done|]|].
    - intros x Hx. unfold ch. simpl in *. exists junk. apply caller_heap_Some. split; [|by apply Hnp]. change (h' !! x = Some junk).
      unfold h'. by rewrite map_range_lookup, decide_True.
    - intros i o s l x Hi Ho Hs Hl Hx Hr. change (labs (sy_state y) h' !! key = Some o) in Ho. rewrite Hlab in Ho.
      destruct (lent_mapped _ _ i o s l x (Hsl i Hi) Ho Hs Hl Hx) as [v Hv].
      by rewrite (Hfresh x Hr) in Hv. }
  split; [done|]. split; [exact Hout|]. intros c [C1 [C2 C3 C4 C5] C6]. constructor; [done|constructor; try done|].
  - intros x Hx. destruct (C5 x Hx) as [v [Hv Hn]%caller_heap_Some]. exists v. apply caller_heap_Some. split; [|done].
    change (h' !! x = Some v). rewrite Hsame; [done|by eexists].
  - intros i o s l x Hi Ho. change (labs (sy_state y) h' !! key = Some o) in Ho. rewrite Hlab in Ho. by eapply C6.
Qed.

(** ** A get into a buffer *)

Lemma buf_segs y b : shard_env → fl_buf y b → iov_segs (gpu_iov b) = [(gb_ptr b, slot_bytes)].
Proof.
  intros He [Hl [id Hr] [Hp0 Hmax] _]. pose proof (en_bytes He) as Hb. unfold iov_segs, gpu_iov. csimpl. unfold iov_as_ptr. rewrite Hr. simpl. rewrite Hl. repeat f_equal.
  unfold wrapping_add. rewrite Z.add_0_r. apply Z.mod_small. unfold U64_MAX in *. lia.
Qed.

Lemma buf_iov y b : shard_env → fl_buf y b →
  Forall (iov_valid (ch (sy_state y) (fl_mem y))) (gpu_iov b) ∧ non_overlapping (gpu_iov b) ∧
  validate_iovs (gpu_iov b) None = Ok (Gpu (gb_gpu b), slot_bytes).
Proof.
  intros He [Hl [id Hr] [Hp0 Hmax] Hm]. pose proof (en_bytes He) as Hb.
  assert (iov_typed (iov_all (gb_region b))) as Hty.
  { rewrite Hr. split; unfold is_u64; simpl; [done|]. rewrite Hl. lia. }
  split_and!.
  - constructor; [|constructor]. split; [|done]. rewrite Hr. unfold region_valid, is_u64. simpl. rewrite Hl in *. unfold U64_MAX in *. by split_and!; [lia..|].
  - repeat constructor.
  - apply validate_iovs_Ok; [by constructor|]. unfold iovs_ok, gpu_iov. rewrite Hr.
    split; [done|]. assert (total_len [iov_all (mkRegion id (gb_ptr b) (gb_len b) (Gpu (gb_gpu b)))] = slot_bytes) as Ht.
    { unfold total_len. csimpl. simpl. rewrite Hl, zsum_cons, zsum_nil. lia. }
    rewrite Ht. split_and!; try done; [|lia]. constructor; [|constructor]. split; [|done].
    apply in_bounds_spec; [rewrite Hr in Hty; exact Hty|]. simpl. lia.
Qed.

(** Within the guards of a get: the buffer is apart from everything lent to the slot. *)
Lemma buf_guard n y i b :
  shard_env → fl_inv n y → (i < slots)%nat → fl_usable y b →
  get_guard inner dr key (OpGet_new (Z.of_nat i) (gpu_iov b)) (sy_state y) (fl_mem y).
Proof.
  intros He [_ Hq Hen Hsl _] Hi Hb. destruct (buf_iov y b He (fu_buf _ _ Hb)) as (Hv & Hno & Hval).
  constructor; [done|done|done|..].
  - intros d m numa Hvm Hn. change (validate_iovs (gpu_iov b) None = Ok (d, m)) in Hvm. rewrite Hval in Hvm. injection Hvm as <- <-. apply Hen; [done|apply Hb].
  - intros d m o s l Hvm Ho Hs Hl. change (validate_iovs (gpu_iov b) None = Ok (d, m)) in Hvm. rewrite Hval in Hvm. injection Hvm as <- <-. cbn [get_slot OpGet_new] in Hs. rewrite Nat2Z.id in Hs.
    destruct (Hsl i Hi) as (o' & s' & sp & Ho' & Hs' & _ & _ & _ & Hall). simplify_eq. rewrite Forall_forall in Hall.
    destruct (Hall l Hl) as [Hsegs Hout _ Heng]. constructor; [done|done| |apply Heng, Hb].
    intros x Hx. cbn [get_dst OpGet_new]. rewrite (buf_segs y b He (fu_buf _ _ Hb)), addrs_one. intros Hr. eapply (fu_apart _ _ Hb i _ _ l x Hi); [done..|].
    unfold buf_range. by rewrite (fb_len _ _ (fu_buf _ _ Hb)).
Qed.

(** What a get delivered, in memory. *)
Lemma buf_contents y b st' h' bs :
  shard_env → fl_buf y b → evolves (sy_state y) st' → (∀ x, is_Some (h' !! x) ↔ is_Some (fl_mem y !! x)) →
  contents (ch st' h') (gpu_iov b) = bs → load h' (gb_ptr b) (Z.to_nat slot_bytes) = Some bs.
Proof.
  intros He Hb Hev Hdom <-. pose proof (buf_segs y b He Hb) as Hseg. pose proof (en_bytes He) as Hsb.
  assert (∀ x, gb_ptr b <= x < gb_ptr b + slot_bytes → is_Some (h' !! x) ∧ ¬ in_pool (ls_pools st') x) as Hx.
  { intros x Hx. rewrite <- (fb_len _ _ Hb) in Hx. destruct (fb_mapped _ _ Hb x Hx) as [v [Hv Hn]%caller_heap_Some].
    split; [apply Hdom; by eexists|by rewrite (in_pool_evolves _ _ _ Hev)]. }
  assert (mapped h' (gb_ptr b) slot_bytes) as Hm by (intros x Hr; by apply Hx).
  destruct (bytes_at_load h' (gb_ptr b) slot_bytes ltac:(lia) Hm) as [-> _]. f_equal. unfold ch.
  destruct (fb_range _ _ Hb) as [Hp0 Hmax]. rewrite (fb_len _ _ Hb) in Hmax. rewrite caller_contents.
  - rewrite Hseg. unfold segs_contents. csimpl. by rewrite app_nil_r.
  - rewrite Hseg. constructor; [|constructor]. unfold seg_ok. simpl. unfold U64_MAX in *. split_and!; try done; lia.
  - rewrite Hseg. intros x Hr%addrs_one. by apply Hx.
Qed.

Lemma fl_get n y i b :
  shard_env → fl_inv n y → (i < slots)%nat → fl_usable y b →
  ∃ y' rp, get_options fl_store key (OpGet_new (Z.of_nat i mod 2 ^ 32) (gpu_iov b)) y = Ret (y', Ok rp) ∧ fl_inv n y' ∧
    load (fl_mem y') (gb_ptr b) (Z.to_nat slot_bytes) = Some (content i) ∧ same_outside b (fl_mem y) (fl_mem y') ∧
    ∀ c, fl_usable y c → fl_usable y' c.
Proof.
  intros He Hinv Hi Hb. pose proof (en_slots He). pose proof (en_bytes He) as Hsb. rewrite Z.mod_small by lia.
  pose proof (buf_guard n y i b He Hinv Hi Hb) as Hg. destruct (buf_iov y b He (fu_buf _ _ Hb)) as (_ & Hno & Hval). pose proof (buf_segs y b He (fu_buf _ _ Hb)) as Hseg.
  destruct Hinv as [Hp Hq Hen Hsl Hroom]. set (op := OpGet_new (Z.of_nat i) (gpu_iov b)) in *.
  destruct (loc_sim_get inner dr key op (sy_state y) (fl_mem y) Hq Hg) as (h' & st' & r & Hget & Hstep & Hq' & [Hout Hdom] & Hev).
  change (get_dst op) with (gpu_iov b) in Hout. rewrite Hseg in Hout.
  assert (same_outside b (fl_mem y) h') as Hso.
  { intros x Hx. apply Hout. rewrite addrs_one. intros Hr. apply Hx. unfold buf_range. by rewrite (fb_len _ _ (fu_buf _ _ Hb)). }
  destruct (Hsl i Hi) as (o & s & sp & Ho & Hs & Hsp & Hlen & Hbytes & Hall). rewrite Forall_forall in Hall.
  assert (∀ t b', slot_source (ch (sy_state y) (fl_mem y)) s t b' → b' = content i) as Hsrc.
  { intros t b' [[_ Hb']|[_ (l & Hl & ->)]]; [congruence|]. destruct (Hall l Hl) as [Hls Hlo <- _]. unfold ch.
    by destruct (segs_outside _ _ _ _ (caller_heap_outside _ (fl_mem y)) Hlo Hls) as [_ ->]. }
  destruct (spec_get_reads _ _ _ key o s sp i (content i) op r _ _ (Gpu (gb_gpu b)) slot_bytes Ho Hs Hsp ltac:(by intros [? _]; congruence) Hsrc Hstep)
    as (rp & -> & Hlab & _ & Hc); [done|done|simpl; lia|].
  set (y' := sy_with y (mkLocalWorld h' []) st').
  assert (∀ c, fl_usable y c → fl_usable y' c) as Hus.
  { intros c [C1 [C2 C3 C4 C5] C6]. constructor; [done|constructor; try done|].
    - intros x Hx. destruct (C5 x Hx) as [v [Hv Hn]%caller_heap_Some]. destruct (proj2 (Hdom x) ltac:(by eexists)) as [v' Hv'].
      exists v'. apply caller_heap_Some. split; [done|]. simpl. by rewrite (in_pool_evolves _ _ _ Hev).
    - intros j o' s' l x Hj Ho'. change (labs st' h' !! key = Some o') in Ho'. rewrite Hlab in Ho'. by eapply C6. }
  exists y', rp. split.
  { unfold get_options. change (OpGet_validate op) with (validate_iovs (gpu_iov b) None). rewrite Hval. unfold check_iov_count. change (exceeds _ _) with (exceeds (max_iov (ai_capability (li_info inner))) 1).
    rewrite (proj2 (exceeds_None _ _) (proj2 (proj2 (en_cap He)))). cbn [tag map_err mbind]. simpl. unfold loc_get. 
    destruct y as [[h0 q0] st0 gs0 c0]. simpl in Hp, Hget. subst q0. fold op. unfold fl_mem in Hget. simpl in Hget. cbn [sy_world sy_state]. by rewrite Hget. }
  assert (load h' (gb_ptr b) (Z.to_nat slot_bytes) = Some (content i)) as Hload.
  { eapply (buf_contents y b st' h'); [done|apply Hb|done|done|]. etransitivity; [exact (Hc Hno)|]. simpl. rewrite drop_0. apply take_ge.
    pose proof (en_content He i Hi). lia. }
  split_and!; [constructor; try done|done|done|done].
  - intros numa g Hn. apply Hen. by rewrite <- (evolves_pools _ _ numa Hev).
  - intros j Hj. eapply ready_keep; [by apply Hsl|done|done|]. intros o' s' l x Ho' Hs' Hl Hx. apply Hso. by eapply (fu_apart _ _ Hb j).
  - eapply (en_room He); [|exact Hroom]. exact Hdom.
Qed.

(** ** Dropping a region *)

Lemma fl_dropped n y id : fl_inv n y → ∃ y', fl_drop id y = Ret y' ∧ fl_inv n y' ∧ fl_mem y' = fl_mem y.
Proof.
  intros [Hp Hq Hen Hsl Hroom]. destruct (local_retire_region_ok [] [] (sy_state y) id (qt_ok _ _ Hq)) as (st' & Hr & _ & _ & Hev & _).
  destruct (loc_sim_retire inner (sy_state y) (fl_mem y) id st' Hq Hr) as [Hstep Hq']. unfold fl_drop. rewrite Hr. cbn [mbind outcome_bind].
  eexists. split; [done|]. split; [|done]. constructor; try done.
  - intros numa g Hn. apply Hen. by rewrite <- (evolves_pools _ _ numa Hev).
  - intros i Hi. destruct (Hsl i Hi) as (o & s & sp & Ho & Hs & Hsp & Hl & Hb & Hall). 
    assert (labs st' (fl_mem y) = (λ o, mkAObject (ao_spec o) (retire_slot id <$> ao_slots o)) <$> labs (sy_state y) (fl_mem y)) as Hlab.
    { by inversion Hstep. }
    eexists _, (retire_slot id s), sp. change (fl_mem _) with (fl_mem y). change (sy_state _) with st'. rewrite Hlab, lookup_fmap, Ho.
    split; [done|]. cbn [ao_slots ao_spec]. rewrite list_lookup_fmap, Hs. split_and!; try done. simpl. apply Forall_forall.
    intros l Hin. apply list_elem_of_In, filter_In in Hin as [Hin%list_elem_of_In _]. rewrite Forall_forall in Hall.
    eapply lent_keep; [by apply Hall|done|done].
Qed.

(** ** The backend serves the shard *)

Definition local_shard_host (He : shard_env) :
    ShardHost fl_store fl_cs fl_grow fl_mem fl_drop gpus gpu_ids key slots slot_bytes content := {|
  sh_inv := fl_inv;
  sh_usable := fl_usable;
  sh_driver n y _ := en_driver He (fl_mem y);
  sh_buffer y b Hb := conj (fu_gpu _ _ Hb) (conj (fb_len _ _ (fu_buf _ _ Hb)) (conj (proj1 (fb_range _ _ (fu_buf _ _ Hb))) (conj (proj2 (fb_range _ _ (fu_buf _ _ Hb)))
    (λ x Hx, caller_mapped _ _ _ (fb_mapped _ _ (fu_buf _ _ Hb) x Hx)))));
  sh_new n y g := fl_new n y g He;
  sh_get n y i b := fl_get n y i b He;
  sh_drop := fl_dropped;
|}.
(** ** Lending a buffer *)

Lemma lent_buf y i b id :
  shard_env → fl_buf y b → load (fl_mem y) (gb_ptr b) (Z.to_nat slot_bytes) = Some (content i) →
  (∀ g, g ∈ gpu_ids → engine_ok inner dr (Gpu (gb_gpu b)) (Gpu g)) →
  lent_ready (sy_state y) (fl_mem y) i (mkLent (Gpu (gb_gpu b)) (iov_segs (gpu_iov b)) id).
Proof.
  intros He Hb Hload Heng. pose proof (en_bytes He) as Hsb. destruct (fb_range _ _ Hb) as [Hp0 Hmax]. rewrite (fb_len _ _ Hb) in Hmax.
  assert (∀ x, gb_ptr b <= x < gb_ptr b + slot_bytes → is_Some (fl_mem y !! x) ∧ ¬ in_pool (ls_pools (sy_state y)) x) as Hx.
  { intros x Hx. rewrite <- (fb_len _ _ Hb) in Hx. destruct (fb_mapped _ _ Hb x Hx) as [v [Hv Hn]%caller_heap_Some]. by split; [eexists|]. }
  assert (mapped (fl_mem y) (gb_ptr b) slot_bytes) as Hm by (intros x Hr; by apply Hx).
  rewrite (buf_segs y b He Hb). constructor; cbn [le_segs le_device]; [| | |done].
  - constructor; [|constructor]. unfold seg_ok. cbn [fst snd]. unfold U64_MAX in *. split_and!; [lia..|done].
  - intros x Hr%addrs_one. by apply Hx.
  - unfold segs_contents. csimpl. rewrite app_nil_r. destruct (bytes_at_load (fl_mem y) (gb_ptr b) slot_bytes ltac:(lia) Hm) as [Hl _]. congruence.
Qed.

(** The slots of the object are there for the publish. *)
Lemma publish_returns n y i b :
  shard_env → fl_inv n y → (i < slots)%nat → fl_buf y b →
  ∃ st', local_publish key (mkOpPublish (Z.of_nat i) (gpu_iov b)) (sy_state y) = Ret (st', Ok tt).
Proof.
  intros He Hinv Hi Hb. destruct (buf_iov y b He Hb) as (_ & _ & Hval).
  destruct (fi_slots _ _ Hinv i Hi) as (o & s & sp & Ho & Hs & Hsp & Hlen & _).
  rewrite labs_lookup in Ho. apply fmap_Some in Ho as (ob & Hob & ->). simpl in Hs, Hsp.
  destruct (lookup_lt_is_Some_2 (lo_slots ob) i) as [sl Hsl]; [apply lookup_lt_Some in Hs; by rewrite length_fmap in Hs|].
  unfold local_publish, OpPublish_validate. cbn [pub_src pub_slot]. rewrite Hval, Hob. rewrite Nat2Z.id, Hsp, Hlen, decide_False by (by intros []).
  rewrite Hsl. cbn [unwrap mbind outcome_bind]. change (gpu_iov b !! 0%nat) with (Some (iov_all (gb_region b))). cbn [unwrap mbind outcome_bind]. by eexists.
Qed.

Lemma fl_publish n y i b :
  shard_env → fl_inv n y → (i < slots)%nat → fl_buf y b → load (fl_mem y) (gb_ptr b) (Z.to_nat slot_bytes) = Some (content i) →
  (∀ g, g ∈ gpu_ids → engine_ok inner dr (Gpu (gb_gpu b)) (Gpu g)) →
  ∃ y', store_publish fl_store key (Z.of_nat i mod 2 ^ 32) (gpu_iov b) y = Ret (y', Ok tt) ∧ fl_inv n y' ∧ fl_mem y' = fl_mem y ∧
    ∀ c, fl_buf y c → fl_buf y' c.
Proof.
  intros He Hinv Hi Hb Hload Heng. pose proof (en_slots He). rewrite Z.mod_small by lia.
  destruct (buf_iov y b He Hb) as (Hv & _ & Hval). destruct (publish_returns n y i b He Hinv Hi Hb) as [st' Hpub].
  set (op := mkOpPublish (Z.of_nat i) (gpu_iov b)) in *. destruct Hinv as [Hp Hq Hen Hsl Hroom].
  destruct (local_publish_ok [] [] key op (sy_state y) st' _ (qt_ok _ _ Hq) Hpub) as [_ Hev].
  destruct (loc_sim_publish inner key op (sy_state y) (fl_mem y) st' (Ok tt) Hq Hv Hpub) as [Hstep Hq'].
  exists (sy_with y (sy_world y) st'). split.
  { unfold store_publish. rewrite (proj1 (proj2 (en_cap He)) : cap_publish (ai_capability (store_info fl_store)) = true). cbn [negb]. fold op.
    change (OpPublish_validate op) with (validate_iovs (gpu_iov b) None). rewrite Hval. unfold check_iov_count.
    change (exceeds _ _) with (exceeds (max_iov (ai_capability (li_info inner))) 1). rewrite (proj2 (exceeds_None _ _) (proj2 (proj2 (en_cap He)))).
    simpl. unfold loc_publish. by rewrite Hpub. }
  split; [|split; [done|]].
  2:{ intros c [C1 C2 C3 C4]. constructor; try done. intros x Hx. destruct (C4 x Hx) as [v [Hv' Hn]%caller_heap_Some]. exists v.
      apply caller_heap_Some. split; [done|]. simpl. by rewrite (in_pool_evolves _ _ _ Hev). }
  constructor; try done.
  - intros numa g Hn. apply Hen. by rewrite <- (evolves_pools _ _ numa Hev).
  - intros j Hj. destruct (Hsl j Hj) as (o & s & sp & Ho & Hs & Hsp & Hlen & Hbytes & Hall).
    inversion Hstep as [| |? ? ? ? d m o' v _ Hval' Ho' Hv0 Hlt Ek Ea| | | | | | | |]; subst.
    change (OpPublish_validate op) with (validate_iovs (gpu_iov b) None) in Hval'. rewrite Hval in Hval'. injection Hval' as <- <-.
    rewrite Ho in Ho'. injection Ho' as <-. injection Hv0 as <-. change (pub_slot op) with (Z.of_nat i) in *. rewrite Nat2Z.id in *.
    unfold slot_ready. change (fl_mem (sy_with y (sy_world y) st')) with (fl_mem y). change (sy_state (sy_with y (sy_world y) st')) with st'.
    assert (Forall (lent_ready st' (fl_mem y) j) (as_lent s)) as Hall'.
    { eapply Forall_impl; [exact Hall|]. intros l Hl. by eapply lent_keep. }
    match goal with E : <[key := _]> _ = labs st' (fl_mem y) |- _ => rewrite <- E, lookup_insert_eq end.
    destruct (decide (j = i)) as [->|Hne].
    + eexists _, _, sp. split; [done|]. cbn [ao_slots ao_spec]. rewrite list_lookup_alter_eq, Hs. split_and!; try done. simpl. apply Forall_app.
      split; [done|]. constructor; [|constructor]. eapply lent_keep; [by apply (lent_buf y i b _ He Hb Hload Heng)|done|done].
    + eexists _, s, sp. split; [done|]. cbn [ao_slots ao_spec]. rewrite list_lookup_alter_ne by done. by split_and!.
Qed.

(** GPU 0 lends the copy it holds. *)
Lemma fl_publish_shard n bufs i y :
  shard_env → fl_inv n y → (i + length bufs <= slots)%nat → Forall (fl_buf y) bufs →
  (∀ j b, bufs !! j = Some b → load (fl_mem y) (gb_ptr b) (Z.to_nat slot_bytes) = Some (content (i + j))) →
  (∀ b g, b ∈ bufs → g ∈ gpu_ids → engine_ok inner dr (Gpu (gb_gpu b)) (Gpu g)) →
  ∃ y', publish_shard fl_store key (Z.of_nat i) bufs y = Ret y' ∧ fl_inv n y'.
Proof.
  intros He. revert i y. induction bufs as [|b bufs IH]; intros i y Hinv Hlen Hb Hload Heng; [by exists y|].
  apply Forall_cons in Hb as [Hb Hbs]. simpl in Hlen. pose proof (Hload 0%nat b eq_refl) as H0. rewrite Nat.add_0_r in H0.
  destruct (fl_publish n y i b He Hinv ltac:(lia) Hb H0) as (y1 & Hpub & Hinv1 & Emem & Hkeep); [intros g Hg; apply Heng; [left|done]|].
  cbn [publish_shard]. rewrite Hpub. cbn [mbind outcome_bind expect]. replace (Z.of_nat i + 1) with (Z.of_nat (S i)) by lia. apply IH; try done.
  - lia.
  - eapply Forall_impl; [exact Hbs|done].
  - intros j c Hc. rewrite Emem. replace (S i + j)%nat with (i + S j)%nat by lia. by apply (Hload (S j)).
  - intros c g Hc. apply Heng. by right.
Qed.
End Host.

(** Fewer GPUs. *)
Section Fewer.
Context `{BuildProfile} (inner : LocalInner) (dr : CudaSys) (cs : heap → CudaSys) (junk : u8) (gpus : list CudaGpu).
Context (key : bytes) (slots : nat) (slot_bytes : usize) (content : nat → bytes) (room : nat → heap → Prop) (gpu_ids peers : list u16).
Context (Hsub : ∀ g, g ∈ peers → g ∈ gpu_ids).

Lemma env_fewer : shard_env inner cs junk gpus gpu_ids slots slot_bytes content room → shard_env inner cs junk gpus peers slots slot_bytes content room.
Proof. intros []. constructor; auto. Qed.

Lemma inv_fewer n y : fl_inv inner dr gpu_ids key slots slot_bytes content room n y → fl_inv inner dr peers key slots slot_bytes content room n y.
Proof.
  intros [Hp Hq He Hs Hr]. constructor; auto. intros i Hi. destruct (Hs i Hi) as (o & s & sp & Ho & Hso & Hsp & Hl & Hb & Hall).
  exists o, s, sp. split_and!; try done. eapply Forall_impl; [exact Hall|]. intros l []. constructor; auto.
Qed.
End Fewer.

(** C18: What the weights example shows.  On a CUDA backend that holds the shard,
    the fan-out to all GPUs returns with every result right, whatever the
    schedule; the copy the first GPU got can then be published, and the fan-out to
    the other GPUs, whose gets may now read that GPU's memory, returns with every
    result right again. *)
Theorem published_copy_serves `{BuildProfile} inner dr cs junk gpus topo setaffinity host gpu0 peers key slots slot_bytes pats content room
    order elapsed sched order' elapsed' sched' n y :
  shard_env inner cs junk gpus (gpu0 :: peers) slots slot_bytes content room →
  shard_ok gpus (gpu0 :: peers) slots slot_bytes pats content order → shard_ok gpus peers slots slot_bytes pats content order' →
  (∀ g g', g ∈ gpu0 :: peers → g' ∈ peers → engine_ok inner dr (Gpu g) (Gpu g')) →
  (∀ i, (i < S (length peers))%nat → (2 * slots + 1 <= turns i sched)%nat) →
  (∀ i, (i < length peers)%nat → (2 * slots + 1 <= turns i sched')%nat) →
  fl_inv inner dr (gpu0 :: peers) key slots slot_bytes content room (slots * S (length peers) + (slots * length peers + n)) y →
  let run := fan_out (fl_store inner dr) (fl_cs cs) (fl_grow junk) fl_mem fl_drop gpus topo setaffinity host key slots slot_bytes pats in
  ∃ y1 rs copy kept y2 y3 rs' kept', run order elapsed sched (gpu0 :: peers) true y = Ret (Some (y1, (rs, copy :: kept))) ∧
    publish_shard (fl_store inner dr) key 0 copy y1 = Ret y2 ∧
    run order' elapsed' sched' peers false y2 = Ret (Some (y3, (rs', kept'))) ∧
    gr_gpu <$> rs ≡ₚ gpu0 :: peers ∧ gr_gpu <$> rs' ≡ₚ peers ∧ Forall (λ r, gr_ok r = true) (rs ++ rs').
Proof.
  intros He Hs Hs' Heng Hsch Hsch' Hinv run.
  destruct (fan_out_ok _ _ _ _ _ gpus topo setaffinity host (gpu0 :: peers) key slots slot_bytes pats content order elapsed (slots * length peers + n)
    (ShardHost0 := local_shard_host inner dr cs junk gpus (gpu0 :: peers) key slots slot_bytes content room He) sched true y Hs Hinv Hsch)
    as (y1 & rs & kept & Hrun & _ & Hg & Hok & Hinv1 & Hhold & Husable & Hlen).
  destruct kept as [|copy kept]; [by specialize (Hlen eq_refl)|]. apply Forall_cons in Hhold as [[Hcl Hcopy] _].
  assert (∀ g, g ∈ peers → g ∈ gpu0 :: peers) as Hsub by (intros g; by right). pose proof (env_fewer _ _ _ _ _ _ _ _ _ _ Hsub He) as He'.
  assert (∀ b, b ∈ copy → fl_usable (gpu0 :: peers) key slots slot_bytes y1 b) as Hbufs by (intros b Hb; exact (Husable copy b ltac:(left) Hb)).
  destruct (fl_publish_shard inner dr cs junk gpus peers key slots slot_bytes content room (slots * length peers + n) copy 0 y1 He')
    as (y2 & Hpub & Hinv2).
  { exact (inv_fewer _ _ _ _ _ _ _ _ _ Hsub _ _ Hinv1). }
  { lia. }
  { apply Forall_forall. intros b Hb. apply (Hbufs b Hb). }
  { exact Hcopy. }
  { intros b g Hb Hg'. apply Heng; [apply (Hbufs b Hb)|done]. }
  destruct (fan_out_ok _ _ _ _ _ gpus topo setaffinity host peers key slots slot_bytes pats content order' elapsed' n
    (ShardHost0 := local_shard_host inner dr cs junk gpus peers key slots slot_bytes content room He') sched' false y2 Hs' Hinv2 Hsch')
    as (y3 & rs' & kept' & Hrun' & _ & Hg' & Hok' & _).
  exists y1, rs, copy, kept, y2, y3, rs', kept'. split_and!; try done. by apply Forall_app.
Qed.

(** ** Two GPUs and a slot of 8 MiB *)

#[local] Existing Instance lw_profile.

Definition fo_bytes : usize := 8 * 2 ^ 20.
Definition fo_inner : LocalInner :=
  mkLocalInner (mkAccessInfo "local" 0 [Cpu 0; Gpu 0; Gpu 1] Capability_all) (mkTopology [0] {[0 := [0]]} {[0 := 0; 1 := 0]})
    [mkCudaGpu 0 100 200 []; mkCudaGpu 1 101 201 []].
Definition fo_st0 : LocalState :=
  mkLocalState ∅ {[Cpu 0 := []; Gpu 0 := []; Gpu 1 := []]} {[0 := mkLocalPool 0 true lw_base fo_bytes [(0, fo_bytes)]]} ∅ 0.
Definition fo_src : MemoryRegion := mkRegion 1 4096 fo_bytes (Gpu 0).
Definition fo_ps : PutSlot := mkPutSlot (mkSlotSpec fo_bytes (Strict (Cpu 0))) [iov_all fo_src].
Definition fo_op : OpPut := mkOpPut Explicit [fo_ps].
Definition fo_words : nat := Z.to_nat (fo_bytes / 4).
Definition fo_content (_ : nat) : bytes := words_of fo_words (pattern 0).

(** A driver that allocates above everything mapped. *)
Definition fo_next (h : heap) : Z := foldr Z.max (2 ^ 31) ((λ p, p.1 + 1) <$> map_to_list h).
Definition fo_cs (h : heap) : CudaSys :=
  mkCudaSys 0 (0, 2) (λ i, (0, i)) (λ _, (0, [])) (λ _ _, (0, 1)) (λ _ _, 0) (λ _ _ _ _, 0) (λ _ _ _ _, 0) (λ _ _ _ _ _ _, 0) (λ _ _, 0)
    (λ _ _, (0, fo_next h)) (λ _ _ _ _, 0) (λ _ _, (0, 3)) (λ i, Some (100 + i)) (λ c, Some (c + 100)) (λ _, true) (λ _, true).
Definition fo_room (n : nat) (h : heap) : Prop := fo_next h + Z.of_nat n * fo_bytes <= 2 ^ 40.

Lemma fo_next_lt h x : is_Some (h !! x) → x < fo_next h.
Proof.
  intros [b Hb]. apply elem_of_map_to_list in Hb. unfold fo_next. induction (map_to_list h) as [|p l IH]; [by apply elem_of_nil in Hb|].
  apply elem_of_cons in Hb as [<-|Hin]; csimpl; [lia|]. specialize (IH Hin). lia.
Qed.

Lemma fo_next_le h B : 2 ^ 31 <= B → (∀ x, is_Some (h !! x) → x < B) → fo_next h <= B.
Proof.
  intros HB Hx. assert (Forall (λ p, p.1 < B) (map_to_list h)) as Hall.
  { apply Forall_forall. intros [x b] Hp%elem_of_map_to_list. apply Hx. by eexists. }
  unfold fo_next. induction Hall as [|p l Hp _ IH]; csimpl; [done|]. lia.
Qed.

Lemma fo_base h : 2 ^ 31 <= fo_next h.
Proof. unfold fo_next. induction (map_to_list h) as [|p l IH]; csimpl; lia. Qed.

Lemma fo_env : shard_env fo_inner fo_cs 0 [mkCudaGpu 0 100 200 []; mkCudaGpu 1 101 201 []] [0; 1] 1 fo_bytes fo_content fo_room.
Proof.
  constructor.
  - intros g Hg. rewrite !elem_of_cons, elem_of_nil in Hg. destruct Hg as [->|[->|[]]]; by split; eexists.
  - by split.
  - done.
  - done.
  - intros i _. unfold fo_content. rewrite words_of_length, Nat2Z.inj_mul. unfold fo_words. by rewrite Z2Nat.id.
  - intros h. by constructor.
  - intros n h c Hr. exists (fo_next h). unfold fo_room in *. pose proof (fo_base h) as Hbase. pose proof (fo_next_lt h) as Hlt. split; [done|].
    split; [lia|]. unfold U64_MAX, fo_bytes in *. split; [lia|]. split.
    + intros x Hx. destruct (h !! x) as [b|] eqn:Hb; [|done]. specialize (Hlt x ltac:(by eexists)). lia.
    + assert (fo_next (map_range h (fo_next h) (8 * 2 ^ 20) 0) <= fo_next h + 8 * 2 ^ 20) as Hle; [|lia]. apply fo_next_le; [lia|].
      intros x [b Hb]. rewrite map_range_lookup in Hb. case_decide as Hin; [unfold in_range in Hin; lia|]. specialize (Hlt x ltac:(by eexists)). lia.
  - intros n h h' Hdom Hr. unfold fo_room in *. assert (fo_next h' <= fo_next h) as Hle; [|lia]. apply fo_next_le; [apply fo_base|].
    intros x Hx. apply fo_next_lt. by apply Hdom.
Qed.

(** Memory with the shard on GPU 0 and the pool. *)
Lemma fo_memory bs : length bs = Z.to_nat fo_bytes →
  ∃ h : heap, load h 4096 (Z.to_nat fo_bytes) = Some bs ∧ mapped h 4096 fo_bytes ∧ mapped h lw_base fo_bytes ∧ fo_next h <= 2 ^ 31.
Proof.
  intros El.
  set (h1 := map_range (map_range ∅ 4096 fo_bytes 0) lw_base fo_bytes 0).
  assert (∀ x, is_Some (h1 !! x) → in_range lw_base fo_bytes x ∨ in_range 4096 fo_bytes x) as Hin.
  { intros x [b Hb]. unfold h1 in Hb. rewrite !map_range_lookup in Hb. repeat case_decide; auto. by rewrite lookup_empty in Hb. }
  assert (mapped h1 4096 fo_bytes) as Hm1.
  { intros x Hx. unfold h1. rewrite !map_range_lookup. case_decide; [by eexists|]. rewrite decide_True by exact Hx. by eexists. }
  destruct (store_mapped h1 4096 bs) as [h Hst]; [by rewrite El, Z2Nat.id|].
  assert (∀ a n, mapped h1 a n → mapped h a n) as Hmap by (intros a n; by apply (store_mapped_iff _ _ _ _ a n Hst)).
  pose proof (load_store_eq _ _ _ _ Hst) as Hld. rewrite El in Hld. exists h. split; [exact Hld|]. split; [by apply Hmap|]. split.
  - apply Hmap. intros x Hx. unfold h1. rewrite map_range_lookup. case_decide as Hr; [by eexists|by destruct Hr].
  - apply fo_next_le; [done|]. intros x Hx. pose proof (Hin x (proj1 (store_dom h1 h 4096 bs x Hst) Hx)) as Hr. unfold in_range, lw_base, fo_bytes in Hr. lia.
Qed.

Lemma fo_content_len : length (fo_content 0) = Z.to_nat fo_bytes.
Proof. unfold fo_content. rewrite words_of_length. apply Nat2Z.inj. rewrite Nat2Z.inj_mul. unfold fo_words. by rewrite !Z2Nat.id. Qed.

Lemma fo_pool_inv n p : ls_pools fo_st0 !! n = Some p → n = 0 ∧ p = mkLocalPool 0 true lw_base fo_bytes [(0, fo_bytes)].
Proof. intros Hp. simpl in Hp. apply lookup_singleton_Some in Hp as [<- <-]. done. Qed.

Lemma fo_fifo_inv d q : ls_fifo fo_st0 !! d = Some q → q = [].
Proof.
  intros Hq. simpl in Hq. rewrite !lookup_insert_Some, lookup_singleton_Some in Hq. by destruct Hq as [[_ <-]|[_ [[_ <-]|[_ [_ <-]]]]].
Qed.

Lemma fo_engine sd dd : sd ∈ [Cpu 0; Gpu 0; Gpu 1] → dd ∈ [Cpu 0; Gpu 0; Gpu 1] → engine_ok fo_inner lw_sys sd dd.
Proof.
  intros Hs Hd. unfold engine_ok. rewrite !elem_of_cons, elem_of_nil in Hs, Hd.
  destruct Hs as [->|[->|[->|[]]]], Hd as [->|[->|[->|[]]]]; eexists; (split; [reflexivity|]); by split.
Qed.

Section FoMemory.
Context (h : heap) (Hm : mapped h 4096 fo_bytes) (Hp : mapped h lw_base fo_bytes).

Lemma fo_quiet : quiet fo_st0 h.
Proof.
  apply quiet_fresh.
  - constructor; [done|done|]. intros numa p [-> ->]%fo_pool_inv. split; [done|]. split; [done|]. by exists 4.
  - split; [intros numa [p [-> ->]%fo_pool_inv]; by eexists|]. intros _ d q ->%fo_fifo_inv. by intros k i o ?%elem_of_nil.
  - constructor.
    + intros numa p [-> ->]%fo_pool_inv. done.
    + by intros numa p [-> ->]%fo_pool_inv.
    + intros n m p q Hne [-> ->]%fo_pool_inv [-> ->]%fo_pool_inv. done.
Qed.

Lemma fo_guard : put_guard fo_inner lw_sys fo_op fo_st0 h.
Proof.
  constructor; [|constructor]. constructor; [done|done|]. intros d [= <-]. constructor.
  - constructor; [|constructor]. split; [done|]. split; [done|]. by split.
  - done.
  - intros x Hx (n & p & [-> ->]%fo_pool_inv & Hr). change (iov_segs (ps_src fo_ps)) with [(4096, fo_bytes)] in Hx. rewrite addrs_one in Hx.
    unfold lw_base, fo_bytes in *. simpl in Hx, Hr. lia.
  - intros numa [p [-> ->]%fo_pool_inv]. apply fo_engine; [right; left|left].
Qed.

Lemma fo_put : ∃ h2 st2, loc_call fo_inner lw_sys (h, fo_st0) (EvPut [7] fo_op (Ok [Ok tt])) (h2, st2) ∧ evolves fo_st0 st2 ∧
  outside_same (ls_pools fo_st0) h h2.
Proof.
  pose proof (quiet_put_pre _ _ true [7] fo_op fo_st0 h fo_quiet fo_guard eq_refl ltac:(intros o; simpl; by rewrite lookup_empty) ltac:(done)) as Hpre.
  destruct (local_put_single fo_inner lw_sys [7] fo_op fo_ps fo_st0 h
    (match claim [7] (OpPut_spec fo_op) fo_st0 with Ok (st, _) => st | Err _ => fo_st0 end) Hpre)
    as (h2 & st2 & Hput); [done|by vm_compute|by vm_compute|].
  destruct (local_put_ok fo_inner lw_sys [7] fo_op fo_st0 h Hpre) as [(h1 & st1 & rs1 & Hput1 & _ & _ & _ & _ & Hev & Hout & _)|[_ ?]]; [|congruence].
  rewrite Hput in Hput1. injection Hput1 as <- <- <-. exists h2, st2. split; [apply lc_put; [apply fo_guard|exact Hput]|]. by split.
Qed.

Lemma fo_source : load h 4096 (Z.to_nat fo_bytes) = Some (fo_content 0) → contents (ch fo_st0 h) (ps_src fo_ps) = fo_content 0.
Proof.
  intros Hl. pose proof fo_guard as Hs. apply Forall_cons in Hs as [[_ _ Hsrc] _]. destruct (Hsrc (Gpu 0) eq_refl) as [Hsegs _ Hap _].
  unfold ch. rewrite caller_contents by done. change (iov_segs (ps_src fo_ps)) with [(4096, fo_bytes)]. clear Hsrc Hsegs Hap.
  assert (segs_contents h [(4096, fo_bytes)] = bytes_at h 4096 fo_bytes) as -> by apply app_nil_r. destruct (bytes_at_load h 4096 fo_bytes) as [Hb _]; [by unfold fo_bytes|exact Hm|].
  rewrite Hl in Hb. by injection Hb.
Qed.

(** The shard is in the store, ready for the fan-out. *)
Lemma fo_ready : load h 4096 (Z.to_nat fo_bytes) = Some (fo_content 0) → fo_next h <= 2 ^ 31 →
  ∃ y, fl_inv fo_inner lw_sys [0; 1] [7] 1 fo_bytes fo_content fo_room 3 y.
Proof.
  intros Hl Hn. destruct fo_put as (h2 & st2 & Hput & Hev & Hout). destruct (loc_call_spec _ _ _ _ _ Hput fo_quiet) as [_ Hq2]. simpl in Hq2.
  destruct (loc_put_holds _ _ _ _ _ _ _ _ _ 0 fo_ps fo_quiet Hput) as [(o & s & Ho & Hsp & Hs & Hb) Hu]; [done|done|].
  rewrite (fo_source Hl) in Hb. clear Hl. exists (mkLocalSystem (mkLocalWorld h2 []) st2 [] 2). constructor; simpl; [done|done|..].
  - intros numa g [p Hpl] Hg. pose proof (ev_pools _ _ Hev numa) as He. rewrite Hpl in He. simpl in He. symmetry in He.
    apply fmap_Some in He as (p0 & [-> _]%fo_pool_inv & _). apply fo_engine; [left|]. right.
    by apply (list_elem_of_fmap_2 Gpu [0; 1]).
  - intros i Hi. assert (i = 0%nat) as -> by lia. exists o, s, (ps_spec fo_ps). unfold fl_mem. simpl. rewrite Hsp. split_and!; try done.
    rewrite (Hu o s Ho Hs). constructor.
  - unfold fo_room, fl_mem. simpl. assert (fo_next h2 <= 2 ^ 31) as Hn2; [|unfold fo_bytes; lia]. apply fo_next_le; [done|]. intros x Hx.
    destruct (decide (lw_base <= x < lw_base + fo_bytes)) as [Hr|Hr]; [unfold lw_base, fo_bytes in Hr; lia|].
    rewrite Hout in Hx; [pose proof (fo_next_lt h x Hx); lia|]. by intros (n & p & [-> ->]%fo_pool_inv & Hr').
Qed.
End FoMemory.

Abbreviation fo_gpus := [mkCudaGpu 0 100 200 []; mkCudaGpu 1 101 201 []].
Abbreviation fo_run := (fan_out (fl_store fo_inner lw_sys) (fl_cs fo_cs) (fl_grow 0) fl_mem fl_drop fo_gpus (li_topo fo_inner) (λ _, true) 0 [7] 1
  fo_bytes (patterns 1) (λ _, [0%nat]) (λ g, mkDuration 1 g)).

Lemma fo_shard gpu_ids : (∀ g, g ∈ gpu_ids → g ∈ [0; 1]) → shard_ok fo_gpus gpu_ids 1 fo_bytes (patterns 1) fo_content (λ _, [0%nat]).
Proof.
  intros Hsub. constructor; [done|done| |by split; [|repeat constructor]|done|].
  - intros i p Hi. assert (i = 0%nat) as -> by (apply lookup_lt_Some in Hi; simpl in Hi; lia). injection Hi as <-. done.
  - intros g Hg%Hsub. rewrite !elem_of_cons, elem_of_nil in Hg. destruct Hg as [->|[->|[]]]; by eexists.
Qed.

Lemma fo_turns i : (i < 2)%nat → (3 <= turns i [0; 1; 1; 0; 1; 0])%nat.
Proof. intros Hi. destruct i as [|[|i]]; [by vm_compute; lia|by vm_compute; lia|lia]. Qed.

Lemma fan_out_serves_witness :
  ∃ y y' rs kept, fo_run [0; 1; 1; 0; 1; 0]%nat [0; 1] true y = Ret (Some (y', (rs, kept))) ∧
    gr_gpu <$> rs ≡ₚ [0; 1] ∧ Forall (λ r, gr_ok r = true) rs.
Proof.
  destruct (fo_memory (fo_content 0) fo_content_len) as (h & Hl & Hm & Hp & Hn). destruct (fo_ready h Hm Hp Hl Hn) as [y Hy].
  destruct (fan_out_serves (fl_store fo_inner lw_sys) (fl_cs fo_cs) (fl_grow 0) fl_mem fl_drop fo_gpus (li_topo fo_inner) (λ _, true) 0 [0; 1] [7] 1
      fo_bytes (patterns 1) fo_content (λ _, [0%nat]) (λ g, mkDuration 1 g)
      (ShardHost0 := local_shard_host fo_inner lw_sys fo_cs 0 _ [0; 1] [7] 1 fo_bytes fo_content fo_room fo_env) [0; 1; 1; 0; 1; 0]%nat true 1 y)
    as (y' & rs & kept & Hf & _ & Hg & Hok & _); [by apply fo_shard|exact Hy|exact fo_turns|].
  exists y, y', rs, kept. split; [exact Hf|]. split; [exact Hg|exact Hok].
Defined.

(** Both GPUs get the slot; then GPU 1 gets it again, with GPU 0's copy published. *)
Lemma published_copy_serves_witness :
  ∃ y y1 rs copy kept y2 y3 rs' kept', fo_run [0; 1; 1; 0; 1; 0]%nat [0; 1] true y = Ret (Some (y1, (rs, copy :: kept))) ∧
    publish_shard (fl_store fo_inner lw_sys) [7] 0 copy y1 = Ret y2 ∧
    fo_run [0; 0; 0]%nat [1] false y2 = Ret (Some (y3, (rs', kept'))) ∧ Forall (λ r, gr_ok r = true) (rs ++ rs').
Proof.
  destruct (fo_memory (fo_content 0) fo_content_len) as (h & Hl & Hm & Hp & Hn). destruct (fo_ready h Hm Hp Hl Hn) as [y Hy].
  destruct (published_copy_serves fo_inner lw_sys fo_cs 0 fo_gpus (li_topo fo_inner) (λ _, true) 0 0 [1] [7] 1 fo_bytes (patterns 1) fo_content fo_room
      (λ _, [0%nat]) (λ g, mkDuration 1 g) [0; 1; 1; 0; 1; 0]%nat (λ _, [0%nat]) (λ g, mkDuration 1 g) [0; 0; 0]%nat 0 y fo_env)
    as (y1 & rs & copy & kept & y2 & y3 & rs' & kept' & H1 & H2 & H3 & _ & _ & H4);
    [by apply fo_shard|apply fo_shard; intros g; by right| |exact fo_turns| |exact Hy|].
  - intros g g' Hg Hg'. apply fo_engine; right; [by apply (list_elem_of_fmap_2 Gpu [0; 1])|]. right.
    by apply (list_elem_of_fmap_2 Gpu [1]).
  - intros i Hi. assert (i = 0%nat) as -> by (simpl in Hi; lia). by vm_compute; lia.
  - exists y, y1, rs, copy, kept, y2, y3, rs', kept'. split; [exact H1|]. split; [exact H2|]. split; [exact H3|exact H4].
Defined.
