(* ===== verification/FanOutMain.v ===== *)
(** * [main] of the weights example

    The program from its arguments to its last line: the CUDA backend it builds,
    the shard it makes on the first GPU, the two puts, the three fan-outs, the
    copy GPU 0 lends, and every line it prints.  Clocks, the order in which
    requests complete and the schedules of the threads are inputs. *)

From S2P Require Import Prelude HostMem Types Region Memory Spec Pinned Text Display Topology Cuda Local LocalBuild Store LocalAccess LocalWitness BenchBlocks CpuBench Floats WeightsFanout FanOut FanOutLocal.

(** [Topology::describe]. *)
Definition describe (t : Topology) : bytes :=
  str "numa nodes: [" ++ join_with (str ", ") (display <$> numa_nodes t) ++ str "]"
    ++ mjoin ((λ g, match gpu_numa t !! g with
                    | Some n => str "; gpu" ++ display g ++ str "→numa" ++ display n
                    | None => []
                    end) <$> merge_sort Z.le ((map_to_list (gpu_numa t)).*1)).

Record WeightsEnv : Type := mkWeightsEnv {
  (** the driver and the mappings while the backend is built *)
  we_sys : CudaSys;
  we_mmap : nat → usize → option u64;
  we_detect : list (u16 * bytes) → Topology;
  (** the driver afterwards, new device memory, memory with the pools mapped *)
  we_cs : heap → CudaSys;
  we_junk : u8;
  we_heap : heap;
  we_setaffinity : list usize → bool;
  we_host : u64;
  (** clocks, completion orders and schedules of the three fan-outs *)
  we_ready : Duration;
  we_put : Duration;
  we_elapsed : nat → u16 → Duration;
  we_order : nat → u16 → list nat;
  we_sched : nat → list nat;
  (** [Debug] of a key *)
  we_key_text : bytes → bytes;
}.

Section Main.
Context `{BuildProfile} (env : WeightsEnv).

(** [(0..slots).map(|_| GpuBuf::new(..)).collect()]. *)
Fixpoint make_bufs (s : Store LocalSystem) (gpus : list CudaGpu) (gpu : u16) (len : usize) (n : nat) (y : LocalSystem)
    : outcome (LocalSystem * list GpuBuf) :=
  match n with
  | O => Ret (y, [])
  | S n =>
      '(y, b) ← gpubuf_new s (fl_cs (we_cs env) y) (fl_grow (we_junk env)) gpus gpu len y;
      '(y, bs) ← make_bufs s gpus gpu len n y;
      Ret (y, b :: bs)
  end.

Fixpoint fill_bufs (gpus : list CudaGpu) (bufs : list GpuBuf) (pats : list u32) (y : LocalSystem) : outcome LocalSystem :=
  match bufs, pats with
  | b :: bufs, p :: pats =>
      h ← fill (fl_cs (we_cs env) y) gpus b p (fl_mem y);
      fill_bufs gpus bufs pats (fl_set y h)
  | _, _ => Ret y
  end.

(** [stat(..).unwrap().remove(0).unwrap()]. *)
Definition stat_one (s : Store LocalSystem) (key : bytes) (y : LocalSystem) : outcome (LocalSystem * ObjectInfo) :=
  '(y, r) ← store_stat s [key] y;
  infos ← expect r;
  first ← unwrap (head infos);
  info ← unwrap first;
  Ret (y, info).

Definition slot_line (i : nat) (si : SlotInfo) : bytes :=
  str "  slot " ++ display (Z.of_nat i) ++ str ": " ++ display (si_len si / GIB) ++ str " GiB @ ["
    ++ join_with (str ", ") ((λ r, device_display (loc_device (rep_location r))) <$> si_replicas si) ++ str "]".

Definition replica_kind (r : Replica) : bytes :=
  device_display (loc_device (rep_location r)) ++ str "/" ++ tier_debug (loc_tier (rep_location r)).

(** One fan-out and its report; [ph] is its number. *)
Definition run_phase (s : Store LocalSystem) (gpus : list CudaGpu) (topo : Topology) (ph : nat) (title : bytes) (gpu_ids : list u16) (key : bytes)
    (slots : nat) (slot_bytes total : usize) (pats : list u32) (keep : bool) (y : LocalSystem)
    : outcome (option (LocalSystem * list bytes * list (list GpuBuf))) :=
  o ← fan_out s (fl_cs (we_cs env)) (fl_grow (we_junk env)) fl_mem fl_drop gpus topo (we_setaffinity env) (we_host env) key slots slot_bytes
        pats (we_order env ph) (we_elapsed env ph) (we_sched env ph) gpu_ids keep y;
  match o with
  | None => Ret None
  | Some (y, (rs, kept)) => lines ← report title rs total topo; Ret (Some (y, lines, kept))
  end.

(** The backend is built and the topology printed. *)
Definition weights_setup (pool : usize) : outcome (LocalInner * LocalState * list bytes) :=
  r ← local_build (we_sys env) (we_mmap env) (we_detect env) (lb_add_dram (lb_add_dram lb_new 0 pool) 1 pool);
  '(inner, st) ← expect r;
  Ret (inner, st,
       [ str "topology: " ++ describe (li_topo inner);
         str "pinned pools: " ++ display (Z.of_nat (length (pool_stats st))) ++ str " × " ++ display (pool / GIB) ++ str " GiB, ready in "
           ++ format_fixed 2 (as_secs_f64 (we_ready env)) ++ str "s" ]).

(** The shard on the first GPU, put with a replica per socket, and the lines about it. *)
Definition weights_put (s : Store LocalSystem) (gpus : list CudaGpu) (gpu0 : u16) (cpu0 cpu1 : Device) (key : bytes) (slots : nat)
    (slot_bytes total : usize) (pats : list u32) (y : LocalSystem) : outcome (LocalSystem * list GpuBuf * list bytes) :=
  '(y, src) ← make_bufs s gpus gpu0 slot_bytes slots y;
  y ← fill_bufs gpus src pats y;
  y ← put_shard s key slot_bytes (Each [cpu0; cpu1]) src y;
  twice ← u64_mul total 2;
  '(y, info) ← stat_one s key y;
  Ret (y, src,
       [ []; str "put  " ++ we_key_text env key ++ str "  Each([" ++ device_display cpu0 ++ str ", " ++ device_display cpu1 ++ str "])  from gpu"
           ++ display gpu0 ++ str ": " ++ format_fixed 1 (millis (we_put env)) ++ str " ms, " ++ format_fixed 1 (gbs twice (we_put env))
           ++ str " GB/s written (" ++ display (total / GIB) ++ str " GiB × 2 replicas)" ] ++ imap slot_line (oi_slots info)).

(** The three fan-outs on a store that has the shard. *)
Definition weights_phases (s : Store LocalSystem) (gpus : list CudaGpu) (topo : Topology) (gpu0 : u16) (peers : list u16) (cpu1 : Device)
    (key_each key_one : bytes) (slots : nat) (slot_bytes total : usize) (pats : list u32) (src : list GpuBuf) (y : LocalSystem)
    : outcome (option (LocalSystem * list bytes)) :=
  o ← run_phase s gpus topo 0 (str "A. get on every GPU — placement Each: each socket serves its own GPUs") (gpu0 :: peers) key_each slots
        slot_bytes total pats true y;
  match o with
  | None => Ret None
  | Some (y, lines_a, kept) =>
      y ← put_shard s key_one slot_bytes (Strict cpu1) src y;
      o ← run_phase s gpus topo 1 (str "B. get on every GPU — placement Strict(" ++ device_display cpu1 ++ str "): far-socket GPUs cross the interconnect")
            (gpu0 :: peers) key_one slots slot_bytes total pats false y;
      match o with
      | None => Ret None
      | Some (y, lines_b, _) =>
          y ← drop_shard s key_one y;
          gpu0_copy ← unwrap (head kept);
          y ← publish_shard s key_each 0 gpu0_copy y;
          o ← run_phase s gpus topo 2 (str "C. gpu" ++ display gpu0 ++ str " published its copy — peers now read over NVLink, DRAM idle") peers
                key_each slots slot_bytes total pats false y;
          match o with
          | None => Ret None
          | Some (y, lines_c, _) =>
              '(y, info) ← stat_one s key_each y;
              first ← unwrap (head (oi_slots info));
              let kinds := merge_sort (λ a b, Is_true (bytes_leb a b)) (replica_kind <$> si_replicas first) in
              Ret (Some (y, lines_a ++ lines_b ++ lines_c
                     ++ [ []; str "slot 0 replicas now: [" ++ join_with (str ", ") kinds ++ str "]"; str "done." ]))
          end
      end
  end.

(** [main]: [None] while a thread runs, otherwise the lines printed. *)
Definition weights_main (args : list bytes) : outcome (option (LocalSystem * list bytes)) :=
  a ← parse_args args;
  '(slot_bytes, total, pool) ← shard_sizes a;
  let slots := Z.to_nat (ar_slots a) in
  let banner := [ str "pegastore · weights fan-out";
                  str "shard: " ++ display (ar_slots a) ++ str " slots × " ++ display (ar_gib a) ++ str " GiB = " ++ display (total / GIB) ++ str " GiB" ] in
  '(inner, st, lines) ← weights_setup pool;
  let topo := li_topo inner in
  let s := from_servicer (local_servicer inner (we_sys env)) in
  let gpu_ids := merge_sort Z.le ((map_to_list (gpu_numa topo)).*1) in
  '(gpus, _) ← expect (gpus_open (we_sys env) gpu_ids);
  match gpu_ids with
  | gpu0 :: peers =>
      _ ← assert (bool_decide (peers ≠ []));
      n0 ← unwrap (head (numa_nodes topo));
      n1 ← unwrap (last (numa_nodes topo));
      let pats := patterns (ar_slots a) in
      '(y, src, lines_put) ← weights_put s gpus gpu0 (Cpu n0) (Cpu n1) (str "weights/v1/shard0") slots slot_bytes total pats
          (mkLocalSystem (mkLocalWorld (we_heap env) []) st [] 1);
      o ← weights_phases s gpus topo gpu0 peers (Cpu n1) (str "weights/v1/shard0") (str "weights/v1/shard0.one-socket") slots slot_bytes total
            pats src y;
      Ret ('(y, lines_run) ← o; Some (y, banner ++ lines ++ lines_put ++ lines_run))
  | [] => Panicked
  end.
End Main.

(** ** A phase reports on every GPU *)

Section Phases.
Context `{BuildProfile} (env : WeightsEnv).

Lemma report_ok title rs total topo :
  rs ≠ [] → 0 <= total → total * Z.of_nat (length rs) <= U64_MAX →
  ∃ lines, report title rs total topo = Ret lines ∧ length lines = (length rs + 4)%nat ∧
    ∀ i r, rs !! i = Some r → lines !! (3 + i)%nat = Some (report_line topo total r).
Proof.
  intros Hne H0 Hmax. unfold report. destruct rs as [|r0 rs]; [done|]. simpl max_duration. cbn [unwrap mbind outcome_bind].
  unfold u64_mul. rewrite u64_wrap_id by (unfold is_u64; lia). cbn [mbind outcome_bind]. eexists. split; [done|]. split.
  - rewrite !length_app, length_fmap. cbn [length]. lia.
  - intros i r Hi. change (3 + i)%nat with (S (S (S i))). cbn [app lookup list_lookup]. apply lookup_app_l_Some.
    change (report_line topo total r0 :: (report_line topo total <$> rs)) with (report_line topo total <$> (r0 :: rs)).
    by rewrite list_lookup_fmap, Hi.
Qed.

(** On a backend that has the shard, a phase prints a line per GPU. *)
Lemma phase_serves inner dr gpus topo ph title gpu_ids key slots slot_bytes total pats content room keep n y :
  shard_env inner (we_cs env) (we_junk env) gpus gpu_ids slots slot_bytes content room →
  shard_ok gpus gpu_ids slots slot_bytes pats content (we_order env ph) → gpu_ids ≠ [] →
  (∀ i, (i < length gpu_ids)%nat → (2 * slots + 1 <= turns i (we_sched env ph))%nat) →
  0 <= total → total * Z.of_nat (length gpu_ids) <= U64_MAX →
  fl_inv inner dr gpu_ids key slots slot_bytes content room (slots * length gpu_ids + n) y →
  ∃ y' lines kept, run_phase env (fl_store inner dr) gpus topo ph title gpu_ids key slots slot_bytes total pats keep y = Ret (Some (y', lines, kept)) ∧
    length lines = (length gpu_ids + 4)%nat ∧ fl_inv inner dr gpu_ids key slots slot_bytes content room n y'.
Proof.
  intros He Hs Hne Hturns H0 Hmax Hinv.
  destruct (fan_out_ok _ _ _ _ _ gpus topo (we_setaffinity env) (we_host env) gpu_ids key slots slot_bytes pats content (we_order env ph)
    (we_elapsed env ph) n (ShardHost0 := local_shard_host inner dr _ _ gpus gpu_ids key slots slot_bytes content room He) (we_sched env ph) keep y
    Hs Hinv Hturns) as (y' & rs & kept & Hrun & _ & Hg & _ & Hinv' & _).
  assert (length rs = length gpu_ids) as El by (by rewrite <- Hg, length_fmap).
  destruct (report_ok title rs total topo) as (lines & Hrep & Hll & _); [intros ->; by destruct gpu_ids|done|by rewrite El|].
  exists y', lines, kept. unfold run_phase. rewrite Hrun. cbn [mbind outcome_bind]. rewrite Hrep. split; [done|]. split; [lia|exact Hinv'].
Qed.
End Phases.

Example fan_out_report_example :
  report (H := lw_profile) (str "B.") [mkGetResult 1 (mkDuration 0 500000000) [(Cpu 0, Dram); (Cpu 0, Dram)] true;
              mkGetResult 2 (mkDuration 1 0) [(Gpu 0, External)] false] (2 * 10 ^ 9) (mkTopology [0] ∅ {[1 := 0]}) =
  Ret [ []; str "B."; str "  gpu    numa         GB/s        ms  served from";
        str "  1      0             4.0     500.0  cpu:0/Dram"; str "  2      ?             2.0    1000.0  gpu:0/External  ✗ DATA MISMATCH";
        str "  aggregate: 4.0 GB/s (2 GPUs × 1.9 GiB in 1000.0 ms)" ].
Proof. vm_compute. reflexivity. Qed.

Example describe_example : describe (mkTopology [0; 1] ∅ {[3 := 1; 0 := 0]}) = str "numa nodes: [0, 1]; gpu0→numa0; gpu3→numa1".
Proof. vm_compute. reflexivity. Qed.
