(* ===== verification/LocalDefects.v ===== *)
(** * The CUDA backend: defects

    [put] releases the lock between claiming a slot and publishing into it, and
    finds the object again by key alone: when the key was removed and put anew in
    between, it publishes into an object it never claimed.  And a copy that fails
    after some of its chunks were enqueued returns without waiting for them. *)

From S2P Require Import Prelude HostMem Types Region Memory MemoryCopy Pinned Text Numa Topology Cuda LocalCopy Local LocalInv LocalEvict LocalSections LocalTransfer LocalSteps LocalTheorems LocalRun LocalPut LocalRoundtrip LocalBuild LocalWitness.

#[local] Instance ld_profile : BuildProfile := true.

(** A pool of two units, no objects. *)
Definition ld_st0 : LocalState :=
  mkLocalState ∅ {[Cpu 0 := []; Gpu 0 := []]} {[0 := mkLocalPool 0 true lw_base (2 * ALIGN) [(0, 2 * ALIGN)]]} ∅ 0.

Definition ld_spec (lens : list u64) : ObjectSpec := mkObjectSpec Cache ((λ n, mkSlotSpec n Anywhere) <$> lens).

(** The claim of a put: phase 1. *)
Definition ld_claim (lens : list u64) (st : LocalState) : outcome (LocalState * list bool) :=
  match claim [1] (ld_spec lens) st with Ok x => Ret x | Err _ => Panicked end.

(** The rest of a put for a slot of [len] bytes, its copy done. *)
Definition ld_finish (i : nat) (len : u64) (st : LocalState) : outcome (LocalState * Result unit) :=
  '(st, b) ← pool_alloc 0 len st;
  b ← unwrap b;
  publish_placed [1] i [(0, false, b)] st.

(** A key just removed: the next claim gets every slot. *)
Lemma claim_after_remove `{BuildProfile} held refs key spec st st2 st3 w i :
  local_ok held refs st → local_remove st [key] = Ret st2 → claim key spec st2 = Ok (st3, w) → (i < length (spec_slots spec))%nat →
  w !! i = Some true ∧ slot_at st3 key i = Some (mkLocalSlot [] true).
Proof.
  intros Hok Hrem Hc Hi. destruct (local_remove_ok held refs st [key] Hok) as (st' & Hr & Ho & _). rewrite Hrem in Hr. simplify_eq.
  apply claim_inv in Hc as (_ & -> & ->). unfold slot_at, claim_obj. simpl. rewrite lookup_insert_eq, Ho. simpl. rewrite lookup_delete_eq.
  simpl. by rewrite !list_lookup_fmap, lookup_replicate_2 by done.
Qed.

(** C40: Slots are not write-once when puts, removals and puts of one key
    interleave.  Put A has claimed slot [i]; the key is removed, put B claims it
    anew, with any spec that has a slot [i], and is given the slot too; B writes
    its slot and is answered [Ok].  When A then writes its own, with room left for
    it, it is answered [Ok] as well, and the slot holds replicas of B's bytes and
    replicas of A's bytes side by side.  Both puts have slots of at least one byte
    over mapped sources, and the driver accepts their copies. *)
Theorem aba_put_breaks_write_once `{BuildProfile} inner dr key i opA opB psA psB st h st1 wA st2 st3 wB h4 st4 :
  local_ok [] [] st → layout_ok (ls_pools st) h → queues_at true st →
  claim key (OpPut_spec opA) st = Ok (st1, wA) → wA !! i = Some true → op_slots opA !! i = Some psA →
  local_remove st1 [key] = Ret st2 →
  claim key (OpPut_spec opB) st2 = Ok (st3, wB) → op_slots opB !! i = Some psB →
  put_slot_pre inner dr st h psA → put_slot_pre inner dr st h psB →
  local_put_slot inner dr key i psB (mkLocalWorld h []) st3 = Ret (mkLocalWorld h4 [], st4, Ok tt) → slot_fits key psA st4 = true →
  wB !! i = Some true ∧
  ∃ h5 st5 rsA rsB, local_put_slot inner dr key i psA (mkLocalWorld h4 []) st4 = Ret (mkLocalWorld h5 [], st5, Ok tt) ∧
    slot_at st5 key i = Some (mkLocalSlot (rsB ++ rsA) false) ∧ rsA ≠ [] ∧ rsB ≠ [] ∧
    Forall (replica_holds st5 h5 (segs_contents h (iov_segs (ps_src psA)))) rsA ∧
    Forall (replica_holds st5 h5 (segs_contents h (iov_segs (ps_src psB)))) rsB.
Proof.
  intros Hok Hly Hq HcA HwA HpsA Hrem HcB HpsB HpreA HpreB HputB Hfit.
  destruct (claim_ok [] [] key _ st st1 wA Hok HcA) as [Hok1 Hev1].
  destruct (claim_after_remove [] [] key _ st1 st2 st3 wB i Hok1 Hrem HcB) as [HwB Hslot].
  { simpl. rewrite length_fmap. by eapply lookup_lt_Some. }
  split; [done|]. destruct (local_remove_ok [] [] st1 [key] Hok1) as (st2' & Hr & Ho2 & Hf2 & Hev2 & Hok2). rewrite Hrem in Hr. injection Hr as <-.
  destruct (claim_ok [] [] key _ st2 st3 wB Hok2 HcB) as [Hok3 Hev3].
  assert (evolves st st3) as Hev by (by do 2 (etrans; [eassumption|])).
  assert (queues_at true st3) as Hq3.
  { split; [|done]. intros numa Hn. apply claim_inv in HcA as (_ & -> & _). apply claim_inv in HcB as (_ & -> & _). simpl in *.
    rewrite Hf2. apply Hq. by rewrite <- (evolves_pools _ _ numa Hev). }
  pose proof (layout_ok_evolves _ _ _ Hev Hly) as Hly3.
  destruct (put_slot_pre_step inner dr st st3 h h psB Hev ltac:(done) HpreB) as [HpreB3 _].
  unfold slot_at in Hslot. apply bind_Some in Hslot as (oB & HoB & HsB).
  destruct (local_put_slot_ok inner dr key i psB st3 h oB _ Hok3 Hly3 Hq3 HpreB3 HoB HsB)
    as [(h4' & st4' & r & Hp & Hok4 & Hly4 & Hq4 & Hev4 & Hout4 & _ & Hres & _)|(_ & ? & _)]; [|congruence].
  rewrite HputB in Hp. simplify_eq. destruct Hres as (rsB & HoB4 & HneB & HallB). simpl in HoB4.
  destruct (put_slot_pre_step inner dr st st4' h h4' psA ltac:(by etrans) ltac:(by eapply outside_evolves) HpreA) as [HpreA4 Hsame].
  apply lookup_lt_Some in HsB as Hlt.
  destruct (local_put_slot_ok inner dr key i psA st4' h4' _ _ Hok4 Hly4 Hq4 HpreA4 HoB4 ltac:(simpl; by apply list_lookup_insert_eq))
    as [(h5 & st5 & r & HputA & Hok5 & Hly5 & _ & Hev5 & _ & Hr & Hres & _)|(_ & _ & ?)]; [|congruence].
  rewrite Hfit in Hr. destruct r as [[]|]; [|done]. destruct Hres as (rsA & HoA & HneA & HallA). simpl in HoA. rewrite list_insert_insert_eq in HoA.
  assert (slot_at st5 key i = Some (mkLocalSlot (rsB ++ rsA) false)) as Hs5.
  { unfold slot_at. rewrite HoA. simpl. by apply list_lookup_insert_eq. }
  exists h5, st5, rsA, rsB. split; [exact HputA|]. split; [exact Hs5|]. do 2 (split; [done|]). split; [by rewrite <- Hsame|].
  destruct (local_put_slot_steps inner dr key i psA _ _ st4' st5 _ [] [] ltac:(apply HpreA) HputA) as (q & Hqq & Hst).
  cbn [w_pending app] in Hqq. specialize (Hst ltac:(by destruct q)).
  rewrite Forall_forall in HallB |- *. intros x Hx.
  eapply (replica_holds_steps inner (mkCfg st4' h4' [] []) (mkCfg st5 h5 [] [])); [exact Hst|by split| |by apply HallB].
  eapply slot_arcs_live; [exact Hs5|]. simpl. apply elem_of_app. by left.
Qed.

(** The state after a slot was written, whatever the memory. *)
Lemma local_put_slot_state `{BuildProfile} inner dr key i ps w w' st st' r st1 placed err ts :
  placement_targets (ls_pools st) (spec_placement (ps_spec ps)) = Ok ts →
  place_slot (is_each (spec_placement (ps_spec ps))) (spec_len (ps_spec ps)) key ts [] None st = Ret (st1, placed, err) →
  local_put_slot inner dr key i ps w st = Ret (w', st', Ok r) → publish_placed key i placed st1 = Ret (st', Ok r).
Proof.
  intros Ht Hpl Hp. unfold local_put_slot in Hp. apply bind_Ret_inv in Hp as (sd & _ & Hp). rewrite Ht, Hpl in Hp. cbn [mbind outcome_bind] in Hp.
  cbv zeta in Hp. destruct (_ || _); [apply bind_Ret_inv in Hp as (? & _ & Hp); simplify_eq|]. apply bind_Ret_inv in Hp as ([[h q] [u|e]] & _ & Hp).
  - apply bind_Ret_inv in Hp as ([st2 r2] & Hpub & Hp). by simplify_eq.
  - apply bind_Ret_inv in Hp as (? & _ & Hp). simplify_eq.
Qed.

(** ** A pool of two units: three bytes and then two bytes of one region *)

Definition ld_psB : PutSlot := mkPutSlot (mkSlotSpec 2 (Strict (Cpu 0))) [iov lw_src 0 2].
Definition ld_opB : OpPut := OpPut_new [ld_psB].
Definition ld_claimed (op : OpPut) (st : LocalState) : LocalState := match claim lw_key (OpPut_spec op) st with Ok x => x.1 | Err _ => st end.
Definition ld_st1 : LocalState := ld_claimed lw_op ld_st0.
Definition ld_st2 : LocalState := ret_or ld_st1 (local_remove ld_st1 [lw_key]).
Definition ld_st3 : LocalState := ld_claimed ld_opB ld_st2.
Definition ld_placed : LocalState * list placed_buf * option Error := ret_or (ld_st3, [], None) (place_slot false 2 lw_key [(0, false)] [] None ld_st3).
Definition ld_st4 : LocalState := (ret_or (ld_st3, Ok tt) (publish_placed lw_key 0 ld_placed.1.2 ld_placed.1.1)).1.

Definition ld_addrs : list Z := seqZ 4096 3 ++ seqZ lw_base (2 * ALIGN).

Lemma ld_memory : ∃ h : heap, ∀ x, x ∈ ld_addrs → is_Some (h !! x).
Proof.
  exists (list_to_map ((λ x, (x, 0)) <$> ld_addrs)). intros x Hx. exists 0. apply elem_of_list_to_map_1'.
  - intros y Hy. apply list_elem_of_fmap in Hy as (z & [= -> ->] & _). done.
  - by apply (list_elem_of_fmap_2 (λ x, (x, 0))).
Qed.

Lemma ld_pool_inv n p : ls_pools ld_st0 !! n = Some p → n = 0 ∧ p = mkLocalPool 0 true lw_base (2 * ALIGN) [(0, 2 * ALIGN)].
Proof. intros Hp. simpl in Hp. by apply lookup_singleton_Some in Hp as [<- <-]. Qed.

Lemma ld_fresh : local_fresh ld_st0.
Proof. constructor; [done|done|]. intros numa p [-> ->]%ld_pool_inv. split; [done|]. split; [by vm_compute|]. by exists 2. Qed.

Section Concrete.
Context (h : heap) (Hh : ∀ x, x ∈ ld_addrs → is_Some (h !! x)).

Lemma ld_layout : layout_ok (ls_pools ld_st0) h.
Proof.
  constructor.
  - intros numa p [-> ->]%ld_pool_inv. done.
  - intros numa p [-> ->]%ld_pool_inv x Hx. apply Hh. unfold ld_addrs. rewrite elem_of_app, !elem_of_seqZ. simpl in Hx. lia.
  - intros n m p q Hne [-> ->]%ld_pool_inv [-> ->]%ld_pool_inv. done.
Qed.

Lemma ld_pre n : 0 < n <= 3 → put_slot_pre lw_inner lw_sys ld_st0 h (mkPutSlot (mkSlotSpec n (Strict (Cpu 0))) [iov lw_src 0 n]).
Proof.
  intros Hn. constructor; [done|split; simpl; unfold ALIGN; change (Z.shiftl 2 20) with 2097152; unfold U64_MAX; lia|]. intros d [= <-].
  assert (iov_segs [iov lw_src 0 n] = [(4096, n)]) as Hsegs by done. constructor; simpl ps_src; simpl ps_spec; rewrite ?Hsegs.
  - constructor; [|constructor]. unfold seg_ok, U64_MAX. simpl. split; [lia|]. split; [lia|]. split; [lia|]. intros x Hx. apply Hh.
    unfold ld_addrs. rewrite elem_of_app, !elem_of_seqZ. lia.
  - csimpl. rewrite zsum_cons, zsum_nil. lia.
  - intros x Hx (numa & p & [-> ->]%ld_pool_inv & Hp). rewrite addrs_one in Hx. unfold lw_base in Hp. simpl in Hx, Hp. lia.
  - intros numa [p [-> ->]%ld_pool_inv]. apply lw_engine; [right; left|left].
Qed.
End Concrete.

Lemma aba_put_breaks_write_once_witness :
  ∃ h h4 h5 st5 rsA rsB, local_put_slot lw_inner lw_sys lw_key 0 lw_ps (mkLocalWorld h4 []) ld_st4 = Ret (mkLocalWorld h5 [], st5, Ok tt) ∧
    slot_at st5 lw_key 0 = Some (mkLocalSlot (rsB ++ rsA) false) ∧ rsA ≠ [] ∧ rsB ≠ [] ∧
    Forall (replica_holds st5 h5 (segs_contents h [(4096, 3)])) rsA ∧ Forall (replica_holds st5 h5 (segs_contents h [(4096, 2)])) rsB.
Proof.
  destruct ld_memory as [h Hh]. pose proof (fresh_ok _ ld_fresh) as Hok. pose proof (ld_layout h Hh) as Hly.
  assert (queues_at true ld_st0) as Hq by (split; [|done]; intros numa [p [-> ->]%ld_pool_inv]; by eexists).
  assert (local_ok [] [] ld_st3 ∧ evolves ld_st0 ld_st3) as [Hok3 Hev].
  { destruct (claim_ok [] [] lw_key (OpPut_spec lw_op) ld_st0 ld_st1 [true] Hok ltac:(by vm_compute)) as [Hok1 Hev1].
    destruct (local_remove_ok [] [] ld_st1 [lw_key] Hok1) as (st2 & Hr & _ & _ & Hev2 & Hok2).
    assert (st2 = ld_st2) as -> by (unfold ld_st2; by rewrite Hr).
    destruct (claim_ok [] [] lw_key (OpPut_spec ld_opB) ld_st2 ld_st3 [true] Hok2 ltac:(by vm_compute)) as [Hok3 Hev3].
    split; [done|]. exact (evolves_trans _ _ _ Hev1 (evolves_trans _ _ _ Hev2 Hev3)). }
  assert (queues_at true ld_st3) as Hq3.
  { split; [|done]. intros numa Hn. rewrite evolves_pools in Hn by exact Hev. destruct Hn as [p [-> ->]%ld_pool_inv]. by exists []. }
  pose proof (layout_ok_evolves _ _ _ Hev Hly) as Hly3.
  destruct (put_slot_pre_step lw_inner lw_sys ld_st0 ld_st3 h h ld_psB Hev ltac:(done) (ld_pre h Hh 2 ltac:(lia))) as [HpB _].
  destruct (local_put_slot_ok lw_inner lw_sys lw_key 0 ld_psB ld_st3 h (mkLocalObject (OpPut_spec ld_opB) [mkLocalSlot [] true]) (mkLocalSlot [] true) Hok3 Hly3 Hq3 HpB)
    as [(h4 & st4 & r & Hput & _ & _ & _ & _ & _ & Hr & _)|(_ & _ & Hr)]; [by vm_compute|done| |by vm_compute in Hr].
  change (slot_fits _ _ _) with true in Hr.
  destruct r as [[]|]; [|done].
  assert (st4 = ld_st4) as ->.
  { pose proof (local_put_slot_state lw_inner lw_sys lw_key 0 ld_psB (mkLocalWorld h []) (mkLocalWorld h4 []) ld_st3 st4 tt ld_placed.1.1 ld_placed.1.2 ld_placed.2 [(0, false)] ltac:(by vm_compute) ltac:(by vm_compute) Hput) as Hp.
    unfold ld_st4. by rewrite Hp. }
  destruct (aba_put_breaks_write_once lw_inner lw_sys lw_key 0 lw_op ld_opB lw_ps ld_psB ld_st0 h ld_st1 [true] ld_st2 ld_st3 [true] h4 ld_st4)
    as (_ & h5 & st5 & rsA & rsB & Hres);
    [exact Hok|exact Hly|exact Hq|by vm_compute|reflexivity|reflexivity|by vm_compute|by vm_compute|reflexivity
    |exact (ld_pre h Hh 3 ltac:(lia))|exact (ld_pre h Hh 2 ltac:(lia))|exact Hput|by vm_compute|].
  exists h, h4, h5, st5, rsA, rsB. exact Hres.
Defined.

(** When the key was put anew with fewer slots, the first put indexes past the end
    of the object when it publishes, and panics with the state locked. *)
Example aba_put_panics :
  ('(st, _) ← ld_claim [3; 3] ld_st0;
   st ← local_remove st [[1]];
   '(st, _) ← ld_claim [5] st;
   ld_finish 1 3 st) = Panicked.
Proof. by vm_compute. Qed.

(** Giving up a claim also hits the new object: the second put still writes while
    a third one is allowed to claim the same slot. *)
Example aba_unclaim_frees_other_claim :
  ('(st, _) ← ld_claim [3] ld_st0;
   st ← local_remove st [[1]];
   '(st, w2) ← ld_claim [5] st;
   st ← unclaim [1] 0 st;
   '(st, w3) ← ld_claim [5] st;
   Ret (w2, w3)) = Ret ([true], [true]).
Proof. by vm_compute. Qed.

(** A queue entry outlives its object; reusing the key with fewer slots makes the
    next eviction panic. *)
Example stale_entry_panics :
  ('(st, _) ← ld_claim [3; 3] ld_st0;
   '(st, _) ← ld_finish 1 3 st;
   st ← local_remove st [[1]];
   '(st, _) ← ld_claim [5] st;
   evict_section (Cpu 0) [2] st) = Panicked.
Proof. by vm_compute. Qed.

(** A driver that accepts a device-to-host copy of one byte only. *)
Definition ld_sys : CudaSys :=
  mkCudaSys 0 (0, 1) (λ i, (0, i)) (λ _, (0, [])) (λ _ _, (0, 1)) (λ _ _, 0) (λ _ _ _ _, 0) (λ _ _ n _, if n =? 1 then 0 else 700)
    (λ _ _ _ _ _ _, 0) (λ _ _, 0) (λ _ _, (0, 0)) (λ _ _ _ _, 0) (λ _ _, (0, 3)) (λ i, Some (100 + i)) (λ c, Some (c + 100)) (λ _, true) (λ _, true).

(** One byte, then two, from two regions of the GPU. *)
Definition ld_ps : PutSlot :=
  mkPutSlot (mkSlotSpec 3 (Strict (Cpu 0))) [iov_all (mkRegion 1 4096 1 (Gpu 0)); iov_all (mkRegion 2 5000 2 (Gpu 0))].

(** A failed put returns its buffer to the pool while a transfer into it is still
    under way: the second chunk is refused, the first one was accepted and is not
    waited for, and the whole pool, with the chunk's target, is free again. *)
Example failed_put_leaves_transfer :
  ('(w, st, r) ← local_put_slot lw_inner ld_sys [1] 0 ld_ps (mkLocalWorld ∅ []) lw_st1;
   Ret (w_pending w, is_ok r, lp_free <$> ls_pools st !! 0)) =
  Ret ([(4096, lw_base, 1)], false, Some [(0, ALIGN)]).
Proof. by vm_compute. Qed.
